(* ===== verification/_CoqProject ===== *)
-Q . S2P
Prelude.v
Errors.v
Proto.v
ConfText.v
Util.v
Quorum.v
Majority.v
Joint.v
Inflights.v
Progress.v
Tracker.v
ConfChange.v
ConfChangeSafety.v
Storage.v
MemStorage.v
Unstable.v
ReadOnly.v
Config.v
RaftLog.v
RaftLogSpec.v
RaftLogReads.v
RaftLogInv.v
RaftLogWitness.v
LogTotal.v
LogFinal.v
RaftState.v
RaftSend.v
RaftLogic.v
RaftRole.v
RaftStep.v
RaftReset.v
RaftVote.v
RaftStays.v
RaftElect.v
Replication.v
RaftCluster.v
RaftRoles.v
RaftTotal.v
RaftEnds.v
RaftWalk.v
RaftFinal.v
RaftPlain.v
RaftSilent.v
RaftAppends.v
RaftEffect.v
RaftLead.v
RaftDuty.v
RaftClaims.v
RaftMatching.v
RaftSystem.v
RaftFollow.v
RaftSafety.v
RaftRules.v
RaftPropose.v
RaftTick.v
RaftWitness.v
RaftSafetyWitness.v
Status.v
RawNode.v
RawNodeOrder.v
RawNodeCalls.v
RawNodeSpec.v
RawNodeCycle.v
RawNodeWitness.v
Interface.v
Network.v
NetworkSpec.v
NetworkRuns.v
NetworkSafety.v
NetworkWitness.v
DataDriven.v
DataDrivenSpec.v
DataDrivenWitness.v
