(* ===== verification/Prelude.v ===== *)
(** * A verified model of raft-rs

    This library models the Raft consensus module [raft] (the Rust crate under
    [src/src], with the protocol messages of [src/proto]) and proves what makes it
    correct, from the arithmetic of quorums up to state machine safety of a cluster
    with disks and crashes, the interface through which an application drives it, and
    the test network on which the integration tests run clusters ([src/harness]).

    ** How the program is put together

    A node is a [Raft] (raft.rs): a state machine that is fed messages ([step]),
    clock ticks ([tick]) and reports of its application, and that answers by
    appending messages to an outbox. It owns a [RaftLog] (raft_log.rs), which joins
    the [Storage] of the application (storage.rs) with the [Unstable] entries that
    are not persisted yet (log_unstable.rs); a [ProgressTracker] (tracker.rs) with
    a [Progress] (tracker/progress.rs) per peer, each with its window of messages in
    flight (tracker/inflights.rs); the configuration, whose majorities and joint
    quorums (quorum/) decide commits and votes, and which configuration changes
    (confchange/) rebuild; and the queue of reads (read_only.rs). [RawNode]
    (raw_node.rs) wraps a node for an application and hands its output out in
    batches ([Ready]). The tests put nodes over [MemStorage]s, as [Interface]s, on a
    [Network] in memory (harness/src), which delivers, drops and ignores messages; those
    of quorums and configuration changes are files of directives and outputs, which
    datadriven/src reads, runs and rewrites.

    ** Files

    - [Prelude]: machine integers, the outcome of a function that may panic,
      vectors, the tactics and the hint databases.
    - [Errors], [Proto], [ConfText], [Util]: errors.rs; the messages of
      eraftpb.proto with the conversions of proto/src; the text form of
      configuration changes; util.rs.
    - [Quorum], [Majority], [Joint]: quorum.rs, quorum/majority.rs,
      quorum/joint.rs: the committed index, with group commit, and vote results.
    - [Inflights], [Progress], [Tracker]: the tracker directory and tracker.rs.
    - [ConfChange], [ConfChangeSafety]: confchange/changer.rs and restore.rs; the
      overlap of the quorums before and after a change.
    - [Storage], [MemStorage], [Unstable], [ReadOnly], [Config]: the files of the
      same names. [Storage] is a class of operations, [StorageLaws] what the log
      relies on, and [MemStorage] an instance of both.
    - [RaftLog]: raft_log.rs. [RaftLogSpec] explains the log as one sequence of
      entries ([ents], from position [first] on), [RaftLogReads] and [LogTotal] the
      reads, [RaftLogInv] and [LogFinal] every operation as a step of the life of a
      log, without panics and whatever the sizes, [RaftLogWitness] examples.
    - [RaftState], [RaftSend], [RaftRole], [RaftStep]: raft.rs. The record of a node
      ([Raft] and the [RaftCore] it dereferences to are one record), the monad [rm]
      of its methods, and one definition per method: sending; role changes,
      campaigns and bookkeeping; the handlers, [step], [tick], configuration changes,
      snapshots and construction.
    - [RaftLogic], [RaftReset]: the logic for methods ([keeps], [safe]) and the exact
      effect of the role changes.
    - [RaftVote], [RaftStays], [RaftElect], [RaftCluster]: terms and votes of one
      node, what takes no part in elections, how votes are counted, and a cluster
      with an unreliable network. [RaftRoles]: which leader and vote go with a role.
    - [RaftTotal], [RaftEnds]: that every method ends. [RaftWalk]: relations between
      states along the methods of a node; [RaftFinal]: what a node never undoes;
      [RaftPlain]: what stays as it is without snapshots.
    - [RaftSilent], [RaftAppends], [RaftEffect]: what a node that does not lead may
      do, the appends a leader sends, and the cases of the effect of one event.
      [RaftMatching]: the agreement of the logs of a cluster.
    - [Replication]: the protocol in the abstract, a transition system on terms, logs,
      disks, votes and acknowledgements, with its invariant; what a quorum has
      acknowledged is chosen, and chosen logs agree. [RaftClaims]: what the messages
      of the program claim about it.
    - [RaftLead], [RaftDuty]: what a leader relies on when it sends and commits, kept
      by every method of a leader. [RaftSystem], [RaftFollow]: the correspondence of
      nodes and their disks with the members of the abstract group, and a few abstract
      steps for every event. [RaftSafety]: the system of nodes, disks and network, its
      refinement of [Replication], and what follows.
    - [RaftRules]: the commit rule, votes, check-quorum. [RaftPropose]: one
      configuration change at a time. [RaftTick]: elections start on time.
      [RaftWitness], [RaftSafetyWitness]: nodes and a cluster at work.
    - [Status], [RawNode]: status.rs and raw_node.rs. [RawNodeOrder], [RawNodeCalls]:
      what is handed out, by one call and by sequences of calls; [RawNodeSpec],
      [RawNodeCycle]: the contents of a batch, and the cycle of batches;
      [RawNodeWitness]: examples.
    - [Interface], [Network]: harness/src/interface.rs and network.rs. [NetworkSpec]:
      what its rules let pass. [NetworkRuns]: a test takes the steps of a system of
      [RaftSafety]; [NetworkSafety]: from new nodes on, so that what is shown of
      systems holds of tests; [NetworkWitness]: a test, computed.
    - [DataDriven]: datadriven/src, the reader of test files and the run of a function
      on them. [DataDrivenSpec]: what is written is read back; [DataDrivenWitness]: a
      file, computed, with the regular expressions as functions.

    A definition has the name of the function it models, in the file of its
    component; a loop or a closure that needs a name of its own is next to it.

    ** How code is modelled

    - [u64] and [usize] are [N] (a 64-bit target); every addition, subtraction and
      multiplication that the program makes is a checked one ([+!], [-!], [*!]) that
      panics on overflow, as in a debug build; [debug_assert!] is checked too. Signed
      priorities are [Z].
    - A function that can panic returns an [outcome]; [fatal!], [panic!], [unwrap],
      [assert!] and index errors are values of [panic]. [Result] is [result] with the
      errors of errors.rs.
    - A method with [&mut self] passes its object explicitly; for [Raft] and
      [RawNode] in a state monad. A mutable borrow of the progress of a peer is a
      read, a change and a write back.
    - The iteration order of hash tables is a parameter ([HashOrder]): any
      enumeration. So are the random timeouts ([Rng]), the encoded size of a message
      ([PbMessage]), the protobuf codec of configuration changes ([ConfChangeCodec],
      [ConfChangeEncoder]), the random numbers of the test network ([RandomF64]), and
      the regular expressions of the data-driven tests ([Regexes], [RegexesOk]).
    - Interior mutability: a read of a storage may record the access, so that reads
      return the storage as well. The lock of [MemStorage] is not modelled; its
      operations are those of the state behind it, one at a time.

    ** What is shown

    - Safety of elections: in any run of a cluster over a network that loses, repeats
      and reorders messages, at most one node leads in a term ([RaftCluster]), on top
      of the intersection of quorums ([Joint]) also across changes of the
      configuration ([ConfChangeSafety]).
    - Agreement of logs: in such a cluster, as long as no snapshot is taken and
      appends are not batched, two logs that share an entry agree up to it
      ([RaftMatching]). The log of the leader of each term is a ghost of the proof;
      every log is anchored in these.
    - State machine safety: in any run of a cluster with a fixed set of voters, in which
      a node sends when its log is on its disk (a leader at once) and restarts from its
      disk after a crash, no two nodes ever commit different entries at a position;
      leaders hold all that was committed before; and a committed entry is on the disks
      of a quorum for good ([RaftSafety]). The proof is a refinement: every event of a
      node is a few steps of the abstract protocol. The application applies no change of
      the voters (learners may change), cuts nothing from a storage and asks for no
      snapshot; appends are not batched. That a leader then sends no snapshot is part of
      what is shown. The disk holds the log as it was saved last, and the term and vote
      of the node.
    - Tests: a run of the test network from new nodes is a run of such a system, so that
      its nodes never commit different entries ([NetworkSafety]). A file of data-driven
      tests that is rewritten has the same directives with the new outputs, and passes
      ([DataDrivenSpec]), for outputs that the format can hold.
    - The log: consistency is an invariant of every operation, committed entries never
      change, and each read and write does exactly what its contract says
      ([RaftLogSpec], [RaftLogInv], [RaftLogReads]).
    - The rules of the protocol on a node: when a leader commits, when a vote is
      granted, what cannot disturb a leader, when a leader steps down, one
      configuration change at a time, and elections that start on time.
    - The roles of a node are well-formed in every state ([RaftRoles]).
    - Every handler ends ([RaftEnds]); whatever a node does, the entries it has
      committed are final, and a leader only appends ([RaftFinal]).
    - To the application: committed entries come once and in order, and so do the
      snapshots received, if each batch is reported before the next is taken
      ([RawNodeCalls]); a batch contains what it must, nothing but a leader's messages
      may leave before it is persisted, and a batch that is written settles the node
      ([RawNodeSpec], [RawNodeCycle]).
    - The components: quorum arithmetic against its definition, the window as a
      bounded queue, the progress of a peer, the reads, the in-memory storage, the
      validation of a configuration, the text of configuration changes.

    ** Bounds and fuel

    Most loops are structural. The others have a fuel that a theorem shows to be
    enough: [scan] moves its low end forward, so that the length of the range bounds
    it; [find_conflict_by_term] walks down from an index of the log;
    [send_append_aggressively] stops when the peer is paused or everything is sent,
    which [budget] in [RaftTotal] bounds; a campaign calls itself at most once, from
    a pre-election that is won at once ([campaign_at] with depth 2).
    [all_entries] retries after a compaction that races with it; its fuel is an
    argument, as nothing bounds the races. [Network.send] delivers until no message
    is left; nothing bounds the rounds (a test may drop what would end them), and its
    fuel is their number. The loops of [DataDriven] take the characters of a line and
    the lines of a file as their fuel, since every round uses one up.

    ** What is not modelled

    - Logging, the [Display] and [Debug] output, and the crate's documentation
      (lib.rs); [describe] of quorums, a printer for tests.
    - The generated protobuf code: parameters, as above.
    - The examples and the benches; of the data-driven tests, finding the files and
      reading and writing them.
    - Snapshots, batched appends and changes of the voters are modelled, but the
      theorems about whole clusters are about runs without them ([log_matching] allows
      changes of the voters; [election_safety] allows everything).
    - Threads: a node is used by one thread, and the lock of [MemStorage] only
      protects its state. *)
From stdpp Require Export base tactics numbers list gmap fin_maps fin_sets sets option strings pretty sorting.
From Stdlib Require Export NArith Lia ZifyN ZifyNat.
From Stdlib Require Import Strings.Byte.

#[global] Set Default Goal Selector "!".

(** ** Machine integers

    [u64] and [usize] (the 64-bit targets) are [N]; the value range is part of
    the invariants, and every arithmetic operation that can leave the range is
    one of the checked operations below. *)
Abbreviation u64 := N (only parsing).
Abbreviation usize := N (only parsing).

#[local] Open Scope N_scope.

#[global] Arguments N.add : simpl never.
#[global] Arguments N.sub : simpl never.
#[global] Arguments N.mul : simpl never.
#[global] Arguments N.div : simpl never.
#[global] Arguments N.modulo : simpl never.
#[global] Arguments N.eqb : simpl never.
#[global] Arguments N.leb : simpl never.
#[global] Arguments N.ltb : simpl never.
#[global] Arguments N.min : simpl never.
#[global] Arguments N.max : simpl never.

Definition u64_max : N := 18446744073709551615.

(** ** Outcomes

    A Rust function either returns, or panics (an overflow check, an index out
    of bounds, an [unwrap], an [assert!], the [fatal!] macro). [NoFuel] is the
    answer of a loop whose bound was too small; the termination theorems show
    that the bounds chosen exclude it. *)
Inductive panic : Set :=
  | Overflow
  | OutOfBounds
  | Unwrap
  | Assert
  | Fatal.

Inductive outcome (A : Type) : Type :=
  | Done (a : A)
  | Panic (p : panic)
  | NoFuel.
Arguments Done {A} _.
Arguments Panic {A} _.
Arguments NoFuel {A}.

#[global] Instance panic_eq_dec : EqDecision panic.
Proof. solve_decision. Defined.
#[global] Instance outcome_eq_dec `{EqDecision A} : EqDecision (outcome A).
Proof. solve_decision. Defined.

#[global] Instance outcome_ret : MRet outcome := λ A a, Done a.
#[global] Instance outcome_bind : MBind outcome := λ A B f m,
  match m with
  | Done a => f a
  | Panic p => Panic p
  | NoFuel => NoFuel
  end.
#[global] Instance outcome_fmap : FMap outcome := λ A B f m,
  match m with
  | Done a => Done (f a)
  | Panic p => Panic p
  | NoFuel => NoFuel
  end.

(** [returns m Q]: [m] returns a value that satisfies [Q] (total correctness);
    [ensures m Q]: if [m] returns, its value satisfies [Q]. *)
Definition returns {A} (m : outcome A) (Q : A → Prop) : Prop :=
  ∃ a, m = Done a ∧ Q a.
Definition ensures {A} (m : outcome A) (Q : A → Prop) : Prop :=
  ∀ a, m = Done a → Q a.

(** [assert!(b)] *)
Definition assert (b : bool) : outcome unit :=
  if b then Done () else Panic Assert.
(** [o.unwrap()] *)
Definition unwrap {A} (o : option A) : outcome A :=
  match o with Some a => Done a | None => Panic Unwrap end.

(** [a + b], [a - b] and [a * b] on an unsigned 64-bit integer, with overflow checks *)
Definition add64 (a b : N) : outcome N :=
  if a + b <=? u64_max then Done (a + b) else Panic Overflow.
Definition sub64 (a b : N) : outcome N :=
  if b <=? a then Done (a - b) else Panic Overflow.
Definition mul64 (a b : N) : outcome N :=
  if a * b <=? u64_max then Done (a * b) else Panic Overflow.

Declare Scope rust_scope.
Delimit Scope rust_scope with rust.
Notation "a +! b" := (add64 a b) (at level 50, left associativity) : rust_scope.
Notation "a -! b" := (sub64 a b) (at level 50, left associativity) : rust_scope.
Notation "a *! b" := (mul64 a b) (at level 40, left associativity) : rust_scope.
#[global] Open Scope rust_scope.

(** ** Vectors *)
Definition len {A} (l : list A) : N := N.of_nat (length l).

(** [v[i]] *)
Definition vindex {A} (l : list A) (i : N) : outcome A :=
  match l !! N.to_nat i with Some x => Done x | None => Panic OutOfBounds end.
(** [&v[a..b]] *)
Definition vslice {A} (l : list A) (a b : N) : outcome (list A) :=
  if (a <=? b) && (b <=? len l)
  then Done (take (N.to_nat (b - a)) (drop (N.to_nat a) l))
  else Panic OutOfBounds.
(** [&v[a..]] *)
Definition vslice_from {A} (l : list A) (a : N) : outcome (list A) :=
  if a <=? len l then Done (drop (N.to_nat a) l) else Panic OutOfBounds.
(** [v.truncate(n)] *)
Definition vtruncate {A} (n : N) (l : list A) : list A := take (N.to_nat n) l.
(** [iter().sum::<usize>()], with overflow checks *)
Fixpoint sum64 (l : list N) : outcome N :=
  match l with
  | [] => Done 0
  | x :: l => s ← sum64 l; x +! s
  end.

(** ** Bytes *)
#[global] Instance byte_eq_dec : EqDecision byte := Byte.byte_eq_dec.
#[global, program] Instance byte_countable : Countable byte :=
  inj_countable Byte.to_N Byte.of_N _.
Next Obligation. apply Byte.of_to_N. Qed.
Abbreviation bytes := (list byte).

(** ** Lemmas on outcomes *)
Section outcome.
Context {A B : Type}.

Lemma bind_Done (m : outcome A) (f : A → outcome B) b :
  m ≫= f = Done b ↔ ∃ a, m = Done a ∧ f a = Done b.
Proof. destruct m; naive_solver. Qed.

Lemma fmap_Done (m : outcome A) (f : A → B) b :
  f <$> m = Done b ↔ ∃ a, m = Done a ∧ b = f a.
Proof. destruct m; naive_solver. Qed.

Lemma returns_bind (m : outcome A) (f : A → outcome B) Q R :
  returns m R → (∀ a, R a → returns (f a) Q) → returns (m ≫= f) Q.
Proof. intros (a & -> & Ha) Hf. by apply Hf. Qed.

Lemma ensures_bind (m : outcome A) (f : A → outcome B) Q R :
  ensures m R → (∀ a, R a → ensures (f a) Q) → ensures (m ≫= f) Q.
Proof. intros Hm Hf b (a & Ha & Hb)%bind_Done. eapply Hf; eauto. Qed.
End outcome.

Section outcome_logic.
Context {A : Type}.

Lemma returns_Done (a : A) (Q : A → Prop) : Q a → returns (Done a) Q.
Proof. intros; by exists a. Qed.
Lemma returns_mono (m : outcome A) (P Q : A → Prop) :
  returns m P → (∀ a, P a → Q a) → returns m Q.
Proof. intros (a & Hm & Ha) Hpq; exists a; auto. Qed.
Lemma returns_ensures (m : outcome A) (Q : A → Prop) : returns m Q → ensures m Q.
Proof. intros (a & -> & Ha) a' ?; by simplify_eq. Qed.
Lemma returns_eq (m : outcome A) (Q : A → Prop) a : returns m Q → m = Done a → Q a.
Proof. intros (? & ? & ?) ?; by simplify_eq. Qed.
Lemma ensures_Done (a : A) (Q : A → Prop) : Q a → ensures (Done a) Q.
Proof. intros ? ? ?; by simplify_eq. Qed.
Lemma ensures_mono (m : outcome A) (P Q : A → Prop) :
  ensures m P → (∀ a, P a → Q a) → ensures m Q.
Proof. intros H1 H2 a Ha; auto. Qed.

Lemma unwrap_Done (o : option A) a : unwrap o = Done a ↔ o = Some a.
Proof. destruct o; naive_solver. Qed.
Lemma vindex_Done (l : list A) i x : vindex l i = Done x ↔ l !! N.to_nat i = Some x.
Proof. unfold vindex. case_match; naive_solver. Qed.
Lemma vslice_Done (l : list A) a b s :
  vslice l a b = Done s ↔
  a ≤ b ∧ b ≤ len l ∧ s = take (N.to_nat (b - a)) (drop (N.to_nat a) l).
Proof.
  unfold vslice. destruct (N.leb_spec a b), (N.leb_spec b (len l)); simpl;
    split; intros; destruct_and?; simplify_eq; try lia; auto.
Qed.
Lemma vslice_from_Done (l : list A) a s :
  vslice_from l a = Done s ↔ a ≤ len l ∧ s = drop (N.to_nat a) l.
Proof.
  unfold vslice_from. destruct (N.leb_spec a (len l)); simpl;
    split; intros; destruct_and?; simplify_eq; try lia; auto.
Qed.
End outcome_logic.

Lemma returns_fst {A B} (m : outcome (A * B)) (Q : A → Prop) :
  returns m (λ '(a, _), Q a) → returns (fst <$> m) Q.
Proof. intros ([a b] & -> & Ha). by exists a. Qed.

Lemma add64_Done a b c : a +! b = Done c ↔ a + b ≤ u64_max ∧ c = a + b.
Proof.
  unfold add64. destruct (N.leb_spec (a + b) u64_max);
    split; intros; destruct_and?; simplify_eq; auto; lia.
Qed.
Lemma sub64_Done a b c : a -! b = Done c ↔ b ≤ a ∧ c = a - b.
Proof.
  unfold sub64. destruct (N.leb_spec b a);
    split; intros; destruct_and?; simplify_eq; auto; lia.
Qed.
Lemma add64_ok a b : a + b ≤ u64_max → a +! b = Done (a + b).
Proof. intros; by apply add64_Done. Qed.
Lemma sub64_ok a b : b ≤ a → a -! b = Done (a - b).
Proof. intros; by apply sub64_Done. Qed.
Lemma assert_Done b u : assert b = Done u ↔ b = true.
Proof. destruct b, u; naive_solver. Qed.
Lemma vindex_ok {A} (l : list A) i : i < len l → ∃ x, vindex l i = Done x.
Proof.
  intros Hi. unfold vindex. destruct (l !! N.to_nat i) as [x|] eqn:E; [by exists x|].
  apply lookup_ge_None in E. unfold len in Hi. lia.
Qed.

(** ** Automation

    [inv_done] turns a hypothesis [m = Done r] about a monadic definition into
    what each of its steps did. [step_ok] rewrites the checked operations of the
    goal whose side condition [lia] proves. *)
Ltac inv_done1 :=
  match goal with
  | H : Done _ = Done _ |- _ => injection H as H; try subst
  | H : Panic _ = Done _ |- _ => discriminate H
  | H : NoFuel = Done _ |- _ => discriminate H
  | H : mret _ = Done _ |- _ => unfold mret, outcome_ret in H
  | H : mbind _ _ = Done _ |- _ =>
      let x := fresh "x" in let Hx := fresh "Hx" in
      apply bind_Done in H as (x & Hx & H)
  | H : fmap _ _ = Done _ |- _ =>
      let x := fresh "x" in let Hx := fresh "Hx" in
      apply fmap_Done in H as (x & Hx & H)
  | H : add64 _ _ = Done _ |- _ => apply add64_Done in H as [? H]; try subst
  | H : sub64 _ _ = Done _ |- _ => apply sub64_Done in H as [? H]; try subst
  | H : assert _ = Done _ |- _ => apply assert_Done in H
  | H : unwrap _ = Done _ |- _ => apply unwrap_Done in H
  | H : vindex _ _ = Done _ |- _ => apply vindex_Done in H
  | H : vslice _ _ _ = Done _ |- _ => apply vslice_Done in H as (? & ? & H); try subst
  | H : vslice_from _ _ = Done _ |- _ => apply vslice_from_Done in H as (? & H); try subst
  | x : unit |- _ => destruct x
  end.
Ltac inv_done := repeat (inv_done1; simpl in * ).

Ltac step_ok :=
  repeat (first [rewrite add64_ok by lia | rewrite sub64_ok by lia]; simpl).

(** *** Fuel

    [fueled m]: [m] does not run out of fuel (it returns or panics). The tactic
    [fueled] walks through a definition; the database holds the functions done. *)
Definition fueled {A} (m : outcome A) : Prop := m ≠ NoFuel.

Lemma fueled_Done {A} (a : A) : fueled (Done a).
Proof. done. Qed.
Lemma fueled_Panic {A} p : fueled (@Panic A p).
Proof. done. Qed.
Lemma fueled_bind {A B} (m : outcome A) (f : A → outcome B) :
  fueled m → (∀ a, m = Done a → fueled (f a)) → fueled (m ≫= f).
Proof. unfold fueled. destruct m; naive_solver. Qed.
Lemma fueled_fmap {A B} (m : outcome A) (f : A → B) : fueled m → fueled (f <$> m).
Proof. unfold fueled. by destruct m. Qed.
Lemma fueled_returns {A} (m : outcome A) (Q : A → Prop) : returns m Q → fueled m.
Proof. by intros (a & -> & _). Qed.
Lemma fueled_add64 a b : fueled (a +! b).
Proof. unfold add64. by case_match. Qed.
Lemma fueled_sub64 a b : fueled (a -! b).
Proof. unfold sub64. by case_match. Qed.
Lemma fueled_mul64 a b : fueled (a *! b).
Proof. unfold mul64. by case_match. Qed.
Lemma fueled_assert b : fueled (assert b).
Proof. by destruct b. Qed.
Lemma fueled_unwrap {A} (o : option A) : fueled (unwrap o).
Proof. by destruct o. Qed.
Lemma fueled_vindex {A} (l : list A) i : fueled (vindex l i).
Proof. unfold vindex. by case_match. Qed.
Lemma fueled_vslice {A} (l : list A) a b : fueled (vslice l a b).
Proof. unfold vslice. by case_match. Qed.
Lemma fueled_vslice_from {A} (l : list A) a : fueled (vslice_from l a).
Proof. unfold vslice_from. by case_match. Qed.
Lemma fueled_sum64 l : fueled (sum64 l).
Proof. induction l as [|x l IH]; simpl; [done|]. apply fueled_bind; [done|]. intros. apply fueled_add64. Qed.

Create HintDb fueled.
#[export] Hint Resolve fueled_Done fueled_Panic fueled_add64 fueled_sub64 fueled_mul64 fueled_assert
  fueled_unwrap fueled_vindex fueled_vslice fueled_vslice_from fueled_sum64 : fueled.

Ltac fueled_step :=
  match goal with
  | |- ∀ _, _ => intro
  | |- fueled (mbind _ _) => apply fueled_bind
  | |- fueled (fmap _ _) => apply fueled_fmap
  | |- fueled (match ?x with _ => _ end) => destruct x eqn:?
  | |- fueled _ => solve [eauto with fueled]
  end.
Ltac fueled := repeat fueled_step.

(** Case analysis on the boolean tests of the code. *)
Ltac case_bool :=
  match goal with
  | |- context [N.eqb ?a ?b] => destruct (N.eqb_spec a b)
  | |- context [N.ltb ?a ?b] => destruct (N.ltb_spec a b)
  | |- context [N.leb ?a ?b] => destruct (N.leb_spec a b)
  | |- context [bool_decide ?P] => destruct (bool_decide_reflect P)
  | H : context [N.eqb ?a ?b] |- _ => destruct (N.eqb_spec a b)
  | H : context [N.ltb ?a ?b] |- _ => destruct (N.ltb_spec a b)
  | H : context [N.leb ?a ?b] |- _ => destruct (N.leb_spec a b)
  | H : context [bool_decide ?P] |- _ => destruct (bool_decide_reflect P)
  end.
Ltac case_bools := repeat (case_bool; simpl in *; try lia; try done).

Create HintDb raft.
#[export] Hint Resolve returns_Done ensures_Done : raft.

(** ** Lists *)
Section lists.
Context {A : Type}.
Implicit Types l : list A.

Lemma len_nil : len ([] : list A) = 0.
Proof. done. Qed.
Lemma len_cons x l : len (x :: l) = len l + 1.
Proof. unfold len; simpl; lia. Qed.
Lemma len_app l1 l2 : len (l1 ++ l2) = len l1 + len l2.
Proof. unfold len; rewrite length_app; lia. Qed.
Lemma len_take n l : len (take n l) = N.min (N.of_nat n) (len l).
Proof. unfold len; rewrite length_take; lia. Qed.
Lemma len_drop n l : len (drop n l) = len l - N.of_nat n.
Proof. unfold len; rewrite length_drop; lia. Qed.
Lemma len_0_iff l : len l = 0 ↔ l = [].
Proof. destruct l; rewrite ?len_cons; [done|]. split; [lia|done]. Qed.
Lemma len_pos l : l ≠ [] ↔ 0 < len l.
Proof. rewrite <-len_0_iff. lia. Qed.
Lemma last_lookup_len l : last l = l !! N.to_nat (len l - 1).
Proof. rewrite last_lookup. f_equal. unfold len. lia. Qed.
End lists.
Create Rewrite HintDb len.
#[export] Hint Rewrite @len_nil @len_cons @len_app @len_take @len_drop : len.

(** *** Counting *)
Section counting.
Context {A : Type}.

Lemma filter_fmap_length {B} (f : A → B) (Q : B → Prop) `{∀ x, Decision (Q x)} (l : list A) :
  length (filter Q (f <$> l)) = length (filter (λ x, Q (f x)) l).
Proof.
  induction l as [|x l IH]; [done|]. rewrite fmap_cons, !filter_cons.
  repeat case_decide; simpl; auto.
Qed.

Lemma length_filter_mono (P Q : A → Prop) `{∀ x, Decision (P x), ∀ x, Decision (Q x)} l :
  (∀ x, x ∈ l → P x → Q x) → (length (filter P l) ≤ length (filter Q l))%nat.
Proof.
  induction l as [|x l IH]; intros HPQ; [done|]. rewrite !filter_cons.
  assert (length (filter P l) ≤ length (filter Q l))%nat by (apply IH; set_solver).
  pose proof (HPQ x). repeat case_decide; simpl; try lia. set_solver.
Qed.

Lemma filter_none (P : A → Prop) `{∀ x, Decision (P x)} (l : list A) :
  (∀ x, x ∈ l → ¬ P x) → filter P l = [].
Proof.
  induction l as [|x l IH]; intros Hl; [done|].
  rewrite filter_cons_False by set_solver. apply IH. set_solver.
Qed.

Lemma filter_all (P : A → Prop) `{∀ x, Decision (P x)} (l : list A) :
  (∀ x, x ∈ l → P x) → filter P l = l.
Proof.
  induction l as [|x l IH]; intros Hl; [done|].
  rewrite filter_cons_True by set_solver. f_equal. apply IH. set_solver.
Qed.

(** Complementary predicates split a list. *)
Lemma length_filter_split (P Q R : A → Prop)
  `{∀ x, Decision (P x), ∀ x, Decision (Q x), ∀ x, Decision (R x)} l :
  (∀ x, x ∈ l → P x ∨ Q x ∨ R x) →
  (length l ≤ length (filter P l) + length (filter Q l) + length (filter R l))%nat.
Proof.
  induction l as [|x l IH]; intros Hc; [done|]. rewrite !filter_cons.
  assert (length l ≤ length (filter P l) + length (filter Q l) + length (filter R l))%nat
    by (apply IH; set_solver).
  pose proof (Hc x ltac:(set_solver)). repeat case_decide; simpl; try lia. naive_solver.
Qed.

(** Two predicates that together hold more often than there are elements hold
    together somewhere. *)
Lemma filter_pigeonhole (P Q : A → Prop) `{∀ x, Decision (P x), ∀ x, Decision (Q x)} l :
  (length l < length (filter P l) + length (filter Q l))%nat →
  ∃ x, x ∈ l ∧ P x ∧ Q x.
Proof.
  induction l as [|x l IH]; simpl; [lia|]. rewrite !filter_cons.
  destruct (decide (P x)), (decide (Q x)); simpl; intros.
  1: { exists x. set_solver. }
  all: destruct IH as (y & ? & ? & ?); [lia|]; exists y; set_solver.
Qed.
End counting.

Lemma length_filter_elements `{Countable A} (P : A → Prop) `{∀ x, Decision (P x)} (s : gset A) l :
  l ≡ₚ elements s → length (filter P l) = size (filter P s).
Proof.
  intros Hl. change (size (filter P s)) with (length (elements (filter P s))).
  apply Permutation_length. rewrite Hl. apply NoDup_Permutation.
  - apply NoDup_filter, NoDup_elements.
  - apply NoDup_elements.
  - intros x. rewrite list_elem_of_filter, !elem_of_elements, elem_of_filter. done.
Qed.

(** *** Stable sorting ([slice::sort_by])

    [before a b] says that [a] may stay in front of [b]; an element is put in
    front of the elements equal to it, so equal elements keep their order. *)
Section sort_by.
Context {A : Type} (before : A → A → bool).

Fixpoint sort_insert (x : A) (l : list A) : list A :=
  match l with
  | [] => [x]
  | y :: l' => if before x y then x :: l else y :: sort_insert x l'
  end.
Fixpoint sort_by (l : list A) : list A :=
  match l with [] => [] | x :: l => sort_insert x (sort_by l) end.

Lemma sort_insert_perm x l : sort_insert x l ≡ₚ x :: l.
Proof.
  induction l as [|y l IH]; simpl; [done|]. case_match; [done|]. rewrite IH. constructor.
Qed.
Lemma sort_by_perm l : sort_by l ≡ₚ l.
Proof. induction l as [|x l IH]; simpl; [done|]. by rewrite sort_insert_perm, IH. Qed.

Context (before_total : ∀ x y, before x y = false → before y x = true).
Context (before_trans : ∀ x y z, before x y = true → before y z = true → before x z = true).

Lemma sort_by_sorted l : StronglySorted (λ x y, before x y = true) (sort_by l).
Proof using before_total before_trans.
  induction l as [|x l IH]; simpl; [constructor|].
  induction IH as [|y l' Hl' IHl' Hy]; simpl; [repeat constructor|].
  destruct (before x y) eqn:E; constructor; auto.
  - constructor; auto.
  - constructor; [done|]. eapply Forall_impl; [done|]. simpl. eauto.
  - rewrite sort_insert_perm. constructor; auto.
Qed.
End sort_by.
