(* ===== verification/Errors.v ===== *)
(** * Errors

    The error types of [src/errors.rs] with their (non-structural) equality, and
    [Result<T, Error>] as a monad. A payload that belongs to another crate (an
    I/O error, a codec error, a boxed error) is kept as its text; for I/O errors
    the text stands for the error kind, which is all that [eq] looks at. *)
From S2P Require Import Prelude.

(** [enum StorageError] *)
Inductive StorageError : Type :=
  | Compacted
  | Unavailable
  | LogTemporarilyUnavailable
  | SnapshotOutOfDate
  | SnapshotTemporarilyUnavailable
  | Other (msg : string).

(** [enum Error] *)
Inductive Error : Type :=
  | Io (kind : string)
  | Store (e : StorageError)
  | StepLocalMsg
  | StepPeerNotFound
  | ProposalDropped
  | ConfigInvalid (msg : string)
  | CodecError (msg : string)
  | Exists (id : u64) (set : string)
  | NotExists (id : u64) (set : string)
  | ConfChangeError (msg : string)
  | RequestSnapshotDropped.

(** [impl PartialEq for StorageError]: two [Other] errors are never equal. *)
Definition StorageError_eq (self other : StorageError) : bool :=
  match self, other with
  | Compacted, Compacted => true
  | Unavailable, Unavailable => true
  | LogTemporarilyUnavailable, LogTemporarilyUnavailable => true
  | SnapshotOutOfDate, SnapshotOutOfDate => true
  | SnapshotTemporarilyUnavailable, SnapshotTemporarilyUnavailable => true
  | _, _ => false
  end.

(** [impl PartialEq for Error]: [CodecError], [Exists] and [NotExists] have no
    case of their own and are never equal to anything. *)
Definition Error_eq (self other : Error) : bool :=
  match self, other with
  | StepPeerNotFound, StepPeerNotFound => true
  | ProposalDropped, ProposalDropped => true
  | Store e1, Store e2 => StorageError_eq e1 e2
  | Io k1, Io k2 => bool_decide (k1 = k2)
  | StepLocalMsg, StepLocalMsg => true
  | ConfigInvalid e1, ConfigInvalid e2 => bool_decide (e1 = e2)
  | RequestSnapshotDropped, RequestSnapshotDropped => true
  | ConfChangeError e1, ConfChangeError e2 => bool_decide (e1 = e2)
  | _, _ => false
  end.

(** [type Result<T> = std::result::Result<T, Error>] *)
Inductive result (A : Type) : Type :=
  | Ok (a : A)
  | Err (e : Error).
Arguments Ok {A} _.
Arguments Err {A} _.

#[global] Instance StorageError_eq_dec : EqDecision StorageError.
Proof. solve_decision. Defined.
#[global] Instance Error_eq_dec : EqDecision Error.
Proof. solve_decision. Defined.
#[global] Instance result_eq_dec `{EqDecision A} : EqDecision (result A).
Proof. solve_decision. Defined.

(** The [?] operator: [result] is a monad of its own. *)
#[global] Instance result_ret : MRet result := λ A a, Ok a.
#[global] Instance result_bind : MBind result := λ A B f m,
  match m with Ok a => f a | Err e => Err e end.

(** [r.unwrap()] on a [Result] *)
Definition unwrap_r {A} (r : result A) : outcome A :=
  match r with Ok a => Done a | Err _ => Panic Unwrap end.
(** [r.is_ok_and(p)] *)
Definition is_ok_and {A} (r : result A) (p : A → bool) : bool :=
  match r with Ok a => p a | Err _ => false end.

Lemma result_bind_Ok {A B} (m : result A) (f : A → result B) b :
  m ≫= f = Ok b ↔ ∃ a, m = Ok a ∧ f a = Ok b.
Proof. destruct m; naive_solver. Qed.
Lemma fueled_unwrap_r {A} (r : result A) : fueled (unwrap_r r).
Proof. by destruct r. Qed.
#[export] Hint Resolve fueled_unwrap_r : fueled.
Lemma unwrap_r_Done {A} (r : result A) a : unwrap_r r = Done a ↔ r = Ok a.
Proof. destruct r; naive_solver. Qed.

Ltac inv_ok :=
  repeat match goal with
  | H : Ok _ = Ok _ |- _ => injection H as H; try subst
  | H : Err _ = Ok _ |- _ => discriminate H
  | H : mbind _ _ = Ok _ |- _ =>
      let x := fresh "x" in let Hx := fresh "Hx" in
      apply result_bind_Ok in H as (x & Hx & H); simpl in *
  | H : mret _ = Ok _ |- _ => unfold mret, result_ret in H
  end.
