(* ===== verification/Proto.v ===== *)
(** * Protocol data

    The messages of [proto/proto/eraftpb.proto] as records and enumerations, with
    the helpers of [proto/src/confchange.rs] and [proto/src/confstate.rs]. A
    field that protobuf leaves unset reads as its default value, so a field is a
    plain value here; the embedded messages ([Message.snapshot],
    [Snapshot.metadata], [SnapshotMetadata.conf_state]) are read through getters
    that return the default message when unset and are modelled the same way. *)
From S2P Require Import Prelude Errors.
#[local] Open Scope N_scope.

Inductive EntryType : Set := EntryNormal | EntryConfChange | EntryConfChangeV2.

Record Entry := mkEntry {
  e_type : EntryType;
  e_term : u64;
  e_index : u64;
  e_data : bytes;
  e_context : bytes;
  e_sync_log : bool }.

Record ConfState := mkConfState {
  cs_voters : list u64;
  cs_learners : list u64;
  cs_voters_outgoing : list u64;
  cs_learners_next : list u64;
  cs_auto_leave : bool }.

Record SnapshotMetadata := mkSnapshotMetadata {
  sm_conf_state : ConfState;
  sm_index : u64;
  sm_term : u64 }.

Record Snapshot := mkSnapshot {
  s_data : bytes;
  s_metadata : SnapshotMetadata }.

Inductive MessageType : Set :=
  | MsgHup | MsgBeat | MsgPropose | MsgAppend | MsgAppendResponse
  | MsgRequestVote | MsgRequestVoteResponse | MsgSnapshot | MsgHeartbeat
  | MsgHeartbeatResponse | MsgUnreachable | MsgSnapStatus | MsgCheckQuorum
  | MsgTransferLeader | MsgTimeoutNow | MsgReadIndex | MsgReadIndexResp
  | MsgRequestPreVote | MsgRequestPreVoteResponse.

Record Message := mkMessage {
  m_type : MessageType;
  m_to : u64;
  m_from : u64;
  m_term : u64;
  m_log_term : u64;
  m_index : u64;
  m_entries : list Entry;
  m_commit : u64;
  m_commit_term : u64;
  m_snapshot : Snapshot;
  m_request_snapshot : u64;
  m_reject : bool;
  m_reject_hint : u64;
  m_context : bytes;
  m_deprecated_priority : u64;
  m_priority : Z }.

Record HardState := mkHardState { hs_term : u64; hs_vote : u64; hs_commit : u64 }.

Inductive ConfChangeTransition : Set := Auto | Implicit | Explicit.
Inductive ConfChangeType : Set := AddNode | RemoveNode | AddLearnerNode.

Record ConfChangeSingle := mkConfChangeSingle {
  ccs_change_type : ConfChangeType;
  ccs_node_id : u64 }.

Record ConfChange := mkConfChange {
  cc_change_type : ConfChangeType;
  cc_node_id : u64;
  cc_context : bytes;
  cc_id : u64 }.

Record ConfChangeV2 := mkConfChangeV2 {
  ccv2_transition : ConfChangeTransition;
  ccv2_changes : list ConfChangeSingle;
  ccv2_context : bytes }.

#[global] Instance EntryType_eq_dec : EqDecision EntryType.
Proof. solve_decision. Defined.
#[global] Instance Entry_eq_dec : EqDecision Entry.
Proof. solve_decision. Defined.
#[global] Instance ConfState_eq_dec : EqDecision ConfState.
Proof. solve_decision. Defined.
#[global] Instance SnapshotMetadata_eq_dec : EqDecision SnapshotMetadata.
Proof. solve_decision. Defined.
#[global] Instance Snapshot_eq_dec : EqDecision Snapshot.
Proof. solve_decision. Defined.
#[global] Instance MessageType_eq_dec : EqDecision MessageType.
Proof. solve_decision. Defined.
#[global] Instance Message_eq_dec : EqDecision Message.
Proof. solve_decision. Defined.
#[global] Instance HardState_eq_dec : EqDecision HardState.
Proof. solve_decision. Defined.
#[global] Instance ConfChangeTransition_eq_dec : EqDecision ConfChangeTransition.
Proof. solve_decision. Defined.
#[global] Instance ConfChangeType_eq_dec : EqDecision ConfChangeType.
Proof. solve_decision. Defined.
#[global] Instance ConfChangeSingle_eq_dec : EqDecision ConfChangeSingle.
Proof. solve_decision. Defined.
#[global] Instance ConfChange_eq_dec : EqDecision ConfChange.
Proof. solve_decision. Defined.
#[global] Instance ConfChangeV2_eq_dec : EqDecision ConfChangeV2.
Proof. solve_decision. Defined.

(** [T::default()] *)
Definition Entry_default : Entry := mkEntry EntryNormal 0 0 [] [] false.
Definition ConfState_default : ConfState := mkConfState [] [] [] [] false.
Definition SnapshotMetadata_default : SnapshotMetadata :=
  mkSnapshotMetadata ConfState_default 0 0.
Definition Snapshot_default : Snapshot := mkSnapshot [] SnapshotMetadata_default.
Definition Message_default : Message :=
  mkMessage MsgHup 0 0 0 0 0 [] 0 0 Snapshot_default 0 false 0 [] 0 0%Z.
Definition HardState_default : HardState := mkHardState 0 0 0.
Definition ConfChangeV2_default : ConfChangeV2 := mkConfChangeV2 Auto [] [].

(** Assignments to one field of a message. *)
Definition set_m_type (v : MessageType) (r : Message) : Message :=
  mkMessage v (m_to r) (m_from r) (m_term r) (m_log_term r) (m_index r) (m_entries r) (m_commit r) (m_commit_term r) (m_snapshot r) (m_request_snapshot r) (m_reject r) (m_reject_hint r) (m_context r) (m_deprecated_priority r) (m_priority r).
Definition set_m_to (v : u64) (r : Message) : Message :=
  mkMessage (m_type r) v (m_from r) (m_term r) (m_log_term r) (m_index r) (m_entries r) (m_commit r) (m_commit_term r) (m_snapshot r) (m_request_snapshot r) (m_reject r) (m_reject_hint r) (m_context r) (m_deprecated_priority r) (m_priority r).
Definition set_m_from (v : u64) (r : Message) : Message :=
  mkMessage (m_type r) (m_to r) v (m_term r) (m_log_term r) (m_index r) (m_entries r) (m_commit r) (m_commit_term r) (m_snapshot r) (m_request_snapshot r) (m_reject r) (m_reject_hint r) (m_context r) (m_deprecated_priority r) (m_priority r).
Definition set_m_term (v : u64) (r : Message) : Message :=
  mkMessage (m_type r) (m_to r) (m_from r) v (m_log_term r) (m_index r) (m_entries r) (m_commit r) (m_commit_term r) (m_snapshot r) (m_request_snapshot r) (m_reject r) (m_reject_hint r) (m_context r) (m_deprecated_priority r) (m_priority r).
Definition set_m_log_term (v : u64) (r : Message) : Message :=
  mkMessage (m_type r) (m_to r) (m_from r) (m_term r) v (m_index r) (m_entries r) (m_commit r) (m_commit_term r) (m_snapshot r) (m_request_snapshot r) (m_reject r) (m_reject_hint r) (m_context r) (m_deprecated_priority r) (m_priority r).
Definition set_m_index (v : u64) (r : Message) : Message :=
  mkMessage (m_type r) (m_to r) (m_from r) (m_term r) (m_log_term r) v (m_entries r) (m_commit r) (m_commit_term r) (m_snapshot r) (m_request_snapshot r) (m_reject r) (m_reject_hint r) (m_context r) (m_deprecated_priority r) (m_priority r).
Definition set_m_entries (v : list Entry) (r : Message) : Message :=
  mkMessage (m_type r) (m_to r) (m_from r) (m_term r) (m_log_term r) (m_index r) v (m_commit r) (m_commit_term r) (m_snapshot r) (m_request_snapshot r) (m_reject r) (m_reject_hint r) (m_context r) (m_deprecated_priority r) (m_priority r).
Definition set_m_commit (v : u64) (r : Message) : Message :=
  mkMessage (m_type r) (m_to r) (m_from r) (m_term r) (m_log_term r) (m_index r) (m_entries r) v (m_commit_term r) (m_snapshot r) (m_request_snapshot r) (m_reject r) (m_reject_hint r) (m_context r) (m_deprecated_priority r) (m_priority r).
Definition set_m_commit_term (v : u64) (r : Message) : Message :=
  mkMessage (m_type r) (m_to r) (m_from r) (m_term r) (m_log_term r) (m_index r) (m_entries r) (m_commit r) v (m_snapshot r) (m_request_snapshot r) (m_reject r) (m_reject_hint r) (m_context r) (m_deprecated_priority r) (m_priority r).
Definition set_m_snapshot (v : Snapshot) (r : Message) : Message :=
  mkMessage (m_type r) (m_to r) (m_from r) (m_term r) (m_log_term r) (m_index r) (m_entries r) (m_commit r) (m_commit_term r) v (m_request_snapshot r) (m_reject r) (m_reject_hint r) (m_context r) (m_deprecated_priority r) (m_priority r).
Definition set_m_request_snapshot (v : u64) (r : Message) : Message :=
  mkMessage (m_type r) (m_to r) (m_from r) (m_term r) (m_log_term r) (m_index r) (m_entries r) (m_commit r) (m_commit_term r) (m_snapshot r) v (m_reject r) (m_reject_hint r) (m_context r) (m_deprecated_priority r) (m_priority r).
Definition set_m_reject (v : bool) (r : Message) : Message :=
  mkMessage (m_type r) (m_to r) (m_from r) (m_term r) (m_log_term r) (m_index r) (m_entries r) (m_commit r) (m_commit_term r) (m_snapshot r) (m_request_snapshot r) v (m_reject_hint r) (m_context r) (m_deprecated_priority r) (m_priority r).
Definition set_m_reject_hint (v : u64) (r : Message) : Message :=
  mkMessage (m_type r) (m_to r) (m_from r) (m_term r) (m_log_term r) (m_index r) (m_entries r) (m_commit r) (m_commit_term r) (m_snapshot r) (m_request_snapshot r) (m_reject r) v (m_context r) (m_deprecated_priority r) (m_priority r).
Definition set_m_context (v : bytes) (r : Message) : Message :=
  mkMessage (m_type r) (m_to r) (m_from r) (m_term r) (m_log_term r) (m_index r) (m_entries r) (m_commit r) (m_commit_term r) (m_snapshot r) (m_request_snapshot r) (m_reject r) (m_reject_hint r) v (m_deprecated_priority r) (m_priority r).
Definition set_m_deprecated_priority (v : u64) (r : Message) : Message :=
  mkMessage (m_type r) (m_to r) (m_from r) (m_term r) (m_log_term r) (m_index r) (m_entries r) (m_commit r) (m_commit_term r) (m_snapshot r) (m_request_snapshot r) (m_reject r) (m_reject_hint r) (m_context r) v (m_priority r).
Definition set_m_priority (v : Z) (r : Message) : Message :=
  mkMessage (m_type r) (m_to r) (m_from r) (m_term r) (m_log_term r) (m_index r) (m_entries r) (m_commit r) (m_commit_term r) (m_snapshot r) (m_request_snapshot r) (m_reject r) (m_reject_hint r) (m_context r) (m_deprecated_priority r) v.

(** [Snapshot::is_empty] *)
Definition Snapshot_is_empty (s : Snapshot) : bool := sm_index (s_metadata s) =? 0.

(** ** [proto/src/confchange.rs] *)

Definition new_conf_change_single (node_id : u64) (ty : ConfChangeType) : ConfChangeSingle :=
  mkConfChangeSingle ty node_id.

(** [ConfChangeI]: what both kinds of configuration change can be converted to. *)
Class ConfChangeI (C : Type) := {
  into_v2 : C → ConfChangeV2;
  as_v1 : C → option ConfChange }.

Definition ConfChange_into_v2 (cc : ConfChange) : ConfChangeV2 :=
  mkConfChangeV2 Auto [new_conf_change_single (cc_node_id cc) (cc_change_type cc)] (cc_context cc).
#[global] Instance ConfChange_I : ConfChangeI ConfChange :=
  {| into_v2 := ConfChange_into_v2; as_v1 := Some |}.
#[global] Instance ConfChangeV2_I : ConfChangeI ConfChangeV2 :=
  {| into_v2 := id; as_v1 _ := None |}.

(** [ConfChangeV2::enter_joint] *)
Definition enter_joint (cc : ConfChangeV2) : option bool :=
  if negb (bool_decide (ccv2_transition cc = Auto)) || (1 <? len (ccv2_changes cc))
  then match ccv2_transition cc with
       | Auto | Implicit => Some true
       | Explicit => Some false
       end
  else None.

(** [ConfChangeV2::leave_joint] *)
Definition leave_joint (cc : ConfChangeV2) : bool :=
  bool_decide (ccv2_transition cc = Auto) && bool_decide (ccv2_changes cc = []).

(** ** [proto/src/confstate.rs] *)

Definition eq_without_order (lhs rhs : list u64) : bool :=
  forallb (λ l, bool_decide (l ∈ rhs)) lhs && forallb (λ r, bool_decide (r ∈ lhs)) rhs.

Definition conf_state_eq (lhs rhs : ConfState) : bool :=
  if bool_decide (cs_voters lhs = cs_voters rhs)
     && bool_decide (cs_learners lhs = cs_learners rhs)
     && bool_decide (cs_voters_outgoing lhs = cs_voters_outgoing rhs)
     && bool_decide (cs_learners_next lhs = cs_learners_next rhs)
     && Bool.eqb (cs_auto_leave lhs) (cs_auto_leave rhs)
  then true
  else eq_without_order (cs_voters lhs) (cs_voters rhs)
       && eq_without_order (cs_learners lhs) (cs_learners rhs)
       && eq_without_order (cs_voters_outgoing lhs) (cs_voters_outgoing rhs)
       && eq_without_order (cs_learners_next lhs) (cs_learners_next rhs)
       && Bool.eqb (cs_auto_leave lhs) (cs_auto_leave rhs).

(** ** Lemmas *)

Lemma eq_without_order_spec lhs rhs :
  eq_without_order lhs rhs = true ↔ ∀ x, x ∈ lhs ↔ x ∈ rhs.
Proof.
  unfold eq_without_order. rewrite andb_true_iff, !forallb_forall.
  setoid_rewrite bool_decide_eq_true. setoid_rewrite <-list_elem_of_In. naive_solver.
Qed.

(** [conf_state_eq] decides that the five components describe the same sets. *)
Lemma conf_state_eq_spec lhs rhs :
  conf_state_eq lhs rhs = true ↔
  (∀ x, x ∈ cs_voters lhs ↔ x ∈ cs_voters rhs) ∧
  (∀ x, x ∈ cs_learners lhs ↔ x ∈ cs_learners rhs) ∧
  (∀ x, x ∈ cs_voters_outgoing lhs ↔ x ∈ cs_voters_outgoing rhs) ∧
  (∀ x, x ∈ cs_learners_next lhs ↔ x ∈ cs_learners_next rhs) ∧
  cs_auto_leave lhs = cs_auto_leave rhs.
Proof.
  unfold conf_state_eq. destruct (_ && _) eqn:E.
  - rewrite !andb_true_iff, !bool_decide_eq_true, eqb_true_iff in E.
    destruct E as [[[[-> ->] ->] ->] ->]. naive_solver.
  - rewrite !andb_true_iff, !eq_without_order_spec, eqb_true_iff. naive_solver.
Qed.
