(* ===== verification/ConfText.v ===== *)
(** * The text form of configuration changes ([proto/src/confchange.rs])

    [parse_conf_change] and [stringify_conf_change], over strings as sequences of
    Unicode scalar values, with what they use of the standard library: [trim],
    [split_ascii_whitespace], [str::len], and the parsing and printing of a [u64]. *)
From S2P Require Import Prelude Errors Proto.
#[local] Open Scope N_scope.

(** ** Strings *)
Definition str : Type := list N.
Definition lit (s : string) : str := map Ascii.N_of_ascii (String.list_ascii_of_string s).

(** [str::len]: bytes of the UTF-8 encoding *)
Definition char_len (c : N) : N :=
  if c <? 128 then 1 else if c <? 2048 then 2 else if c <? 65536 then 3 else 4.
Definition str_len (s : str) : N := foldr (λ c n, char_len c + n) 0 s.

(** [char::is_whitespace]: the Unicode property White_Space *)
Definition is_whitespace (c : N) : bool :=
  ((9 <=? c) && (c <=? 13)) || bool_decide (c ∈ [32; 133; 160; 5760; 8232; 8233; 8239; 8287; 12288])
  || ((8192 <=? c) && (c <=? 8202)).
(** [char::is_ascii_whitespace] *)
Definition is_ascii_whitespace (c : N) : bool := bool_decide (c ∈ [9; 10; 12; 13; 32]).

Fixpoint trim_start (s : str) : str :=
  match s with
  | [] => []
  | c :: s' => if is_whitespace c then trim_start s' else s
  end.
Definition trim (s : str) : str := reverse (trim_start (reverse (trim_start s))).

(** [split_ascii_whitespace]; [word] is the word being read, backwards *)
Fixpoint split_words (word : str) (s : str) : list str :=
  match s with
  | [] => if bool_decide (word = []) then [] else [reverse word]
  | c :: s =>
      if is_ascii_whitespace c
      then (if bool_decide (word = []) then [] else [reverse word]) ++ split_words [] s
      else split_words (c :: word) s
  end.
Definition split_ascii_whitespace (s : str) : list str := split_words [] s.

(** ** Numbers *)

(** [enum IntErrorKind], as far as an unsigned number can fail *)
Inductive ParseIntError : Set := IntEmpty | InvalidDigit | PosOverflow.
Definition show_error (e : ParseIntError) : str :=
  match e with
  | IntEmpty => lit "cannot parse integer from empty string"
  | InvalidDigit => lit "invalid digit found in string"
  | PosOverflow => lit "number too large to fit in target type"
  end.

Fixpoint parse_digits (acc : N) (s : str) : N + ParseIntError :=
  match s with
  | [] => inl acc
  | c :: s =>
      if (48 <=? c) && (c <=? 57) then
        let acc := acc * 10 + (c - 48) in
        if acc <=? u64_max then parse_digits acc s else inr PosOverflow
      else inr InvalidDigit
  end.
(** [s.parse::<u64>()] *)
Definition parse_u64 (s : str) : N + ParseIntError :=
  match s with
  | [] => inr IntEmpty
  | c :: s' => if (c =? 43) && negb (bool_decide (s' = [])) then parse_digits 0 s' else parse_digits 0 s
  end.

(** [write!(s, "{}", n)]; a [u64] has at most 20 digits. *)
Fixpoint digits (fuel : nat) (n : N) : str :=
  match fuel with
  | O => []
  | S fuel => (if n <? 10 then [] else digits fuel (n / 10)) ++ [48 + n mod 10]
  end.
Definition show_u64 (n : u64) : str := digits 20 n.

(** ** The two functions *)
Definition change_letter (t : ConfChangeType) : N :=
  match t with AddNode => 118 | AddLearnerNode => 108 | RemoveNode => 114 end.

Definition parse_token (tok : str) : ConfChangeSingle + str :=
  if str_len tok <? 2 then inr (lit "unknown token " ++ tok)
  else
    match tok with
    | [] => inr (lit "unknown token " ++ tok)
    | c :: rest =>
        let ty := if c =? 118 then Some AddNode else if c =? 108 then Some AddLearnerNode
                  else if c =? 114 then Some RemoveNode else None in
        match ty with
        | None => inr (lit "unknown token " ++ tok)
        | Some ty =>
            match parse_u64 rest with
            | inl id => inl (mkConfChangeSingle ty id)
            | inr e => inr (lit "parse token " ++ tok ++ lit " fail: " ++ show_error e)
            end
        end
    end.
Fixpoint parse_tokens (toks : list str) : list ConfChangeSingle + str :=
  match toks with
  | [] => inl []
  | tok :: toks =>
      match parse_token tok with
      | inr e => inr e
      | inl cc => match parse_tokens toks with inl ccs => inl (cc :: ccs) | inr e => inr e end
      end
  end.
Definition parse_conf_change (s : str) : list ConfChangeSingle + str :=
  let s := trim s in
  if bool_decide (s = []) then inl [] else parse_tokens (split_ascii_whitespace s).

Definition stringify_single (cc : ConfChangeSingle) : str :=
  change_letter (ccs_change_type cc) :: show_u64 (ccs_node_id cc).
Fixpoint stringify_rest (ccs : list ConfChangeSingle) : str :=
  match ccs with
  | [] => []
  | cc :: ccs => 32 :: stringify_single cc ++ stringify_rest ccs
  end.
Definition stringify_conf_change (ccs : list ConfChangeSingle) : str :=
  match ccs with
  | [] => []
  | cc :: ccs => stringify_single cc ++ stringify_rest ccs
  end.

(** ** Printing and parsing a number *)
Lemma digits_S fuel n : digits (S fuel) n = (if n <? 10 then [] else digits fuel (n / 10)) ++ [48 + n mod 10].
Proof. done. Qed.
Lemma digits_range fuel n c : c ∈ digits fuel n → 48 ≤ c ≤ 57.
Proof.
  revert n. induction fuel as [|fuel IH]; intros n; [by intros ?%not_elem_of_nil|].
  rewrite digits_S. pose proof (N.mod_upper_bound n 10 ltac:(lia)).
  intros [Hc|Hc%list_elem_of_singleton]%elem_of_app; [|lia]. destruct (n <? 10); [by apply not_elem_of_nil in Hc|eauto].
Qed.
Lemma parse_digits_digits fuel n rest :
  (0 < fuel)%nat → n < 10 ^ N.of_nat fuel → n ≤ u64_max → parse_digits 0 (digits fuel n ++ rest) = parse_digits n rest.
Proof.
  assert (∀ acc d rest, d < 10 → acc * 10 + d ≤ u64_max →
    parse_digits acc ((48 + d) :: rest) = parse_digits (acc * 10 + d) rest) as Hstep.
  { intros acc d rest' Hd Hle. simpl. rewrite (proj2 (N.leb_le _ _)), (proj2 (N.leb_le _ _)) by lia. simpl.
    replace (48 + d - 48) with d by lia. by rewrite (proj2 (N.leb_le _ _)) by lia. }
  intros Hf. revert n rest. induction fuel as [|fuel IH]; [lia|]. intros n rest Hn Hle.
  rewrite digits_S, <-app_assoc. pose proof (N.div_mod n 10 ltac:(lia)) as Hdm.
  pose proof (N.mod_upper_bound n 10 ltac:(lia)).
  destruct (N.ltb_spec n 10) as [Hlt|Hge]; simpl app.
  - rewrite N.mod_small by done. by rewrite Hstep by (done || lia).
  - assert (n / 10 < 10 ^ N.of_nat fuel) as Hdiv.
    { apply N.Div0.div_lt_upper_bound. rewrite Nat2N.inj_succ, N.pow_succ_r in Hn by lia. done. }
    assert (0 < fuel)%nat by (destruct fuel; [simpl in Hdiv; lia|lia]).
    rewrite IH by (done || lia). rewrite Hstep by (done || lia). by replace (n / 10 * 10 + n mod 10) with n by lia.
Qed.
Lemma show_u64_cons n : ∃ c rest, show_u64 n = c :: rest ∧ 48 ≤ c ≤ 57.
Proof.
  assert (show_u64 n ≠ []) as Hne by (unfold show_u64; rewrite digits_S; intros Hn; by apply app_nil in Hn as [_ ?]).
  destruct (show_u64 n) as [|c rest] eqn:E; [done|]. exists c, rest. split; [done|].
  apply (digits_range 20 n). change (digits 20 n) with (show_u64 n). rewrite E. by left.
Qed.
Lemma parse_show n : n ≤ u64_max → parse_u64 (show_u64 n) = inl n.
Proof.
  intros Hle. assert (n < 10 ^ N.of_nat 20) as Hlt by (unfold u64_max in Hle; change (10 ^ N.of_nat 20) with 100000000000000000000; lia).
  destruct (show_u64_cons n) as (c & rest & E & Hc). unfold parse_u64. rewrite E.
  rewrite (proj2 (N.eqb_neq c 43)) by lia. cbn [andb]. rewrite <-E. unfold show_u64.
  pose proof (parse_digits_digits 20 n [] ltac:(lia) Hlt Hle) as Hp. by rewrite app_nil_r in Hp.
Qed.

(** ** Words *)
Definition visible (s : str) : Prop := ∀ c, c ∈ s → 33 ≤ c ≤ 126.

Lemma visible_app s1 s2 : visible (s1 ++ s2) ↔ visible s1 ∧ visible s2.
Proof. unfold visible. setoid_rewrite elem_of_app. naive_solver. Qed.
Lemma visible_not_ascii_space c : 33 ≤ c ≤ 126 → is_ascii_whitespace c = false.
Proof. intros Hc. apply bool_decide_eq_false. rewrite !not_elem_of_cons. split_and!; [lia..|apply not_elem_of_nil]. Qed.
Lemma visible_not_space c : 33 ≤ c ≤ 126 → is_whitespace c = false.
Proof.
  intros Hc. unfold is_whitespace. rewrite (proj2 (N.leb_gt c 13)), (proj2 (N.leb_gt 8192 c)) by lia.
  rewrite andb_false_r, orb_false_r. apply bool_decide_eq_false.
  rewrite !not_elem_of_cons. split_and!; [lia..|apply not_elem_of_nil].
Qed.

Lemma stringify_single_visible cc : visible (stringify_single cc).
Proof.
  intros c [->|Hc%digits_range]%elem_of_cons; [|lia]. destruct (ccs_change_type cc); simpl; lia.
Qed.
Lemma stringify_single_nonempty cc : stringify_single cc ≠ [].
Proof. done. Qed.

Lemma split_words_word word s rest :
  visible s → split_words word (s ++ rest) = split_words (reverse s ++ word) rest.
Proof.
  revert word. induction s as [|c s IH]; intros word Hv; [done|]. simpl.
  rewrite visible_not_ascii_space by (apply Hv; by left). rewrite IH by (intros c' Hc'; apply Hv; by right).
  by rewrite reverse_cons, <-app_assoc.
Qed.
Lemma split_rest word ccs :
  word ≠ [] → split_words word (stringify_rest ccs) = reverse word :: map stringify_single ccs.
Proof.
  revert word. induction ccs as [|cc ccs IH]; intros word Hw; simpl.
  - by rewrite bool_decide_eq_false_2.
  - rewrite bool_decide_eq_false_2 by done. simpl. f_equal. unfold split_ascii_whitespace.
    change (split_words [] (stringify_single cc ++ stringify_rest ccs) = stringify_single cc :: map stringify_single ccs).
    rewrite split_words_word by apply stringify_single_visible. rewrite app_nil_r, IH; [by rewrite reverse_involutive|].
    intros Hn%(f_equal length). by rewrite length_reverse in Hn.
Qed.
Lemma split_stringify ccs : split_ascii_whitespace (stringify_conf_change ccs) = map stringify_single ccs.
Proof.
  destruct ccs as [|cc ccs]; [done|]. unfold split_ascii_whitespace, stringify_conf_change.
  rewrite split_words_word by apply stringify_single_visible. rewrite app_nil_r, split_rest; [by rewrite reverse_involutive|].
  intros Hn%(f_equal length). by rewrite length_reverse in Hn.
Qed.

(** The ends of a printed change are visible, so that trimming does nothing. *)
Lemma trim_start_visible c s : 33 ≤ c ≤ 126 → trim_start (c :: s) = c :: s.
Proof. intros Hc. simpl. by rewrite visible_not_space. Qed.
Lemma trim_visible c s s' c' : c :: s = s' ++ [c'] → 33 ≤ c ≤ 126 → 33 ≤ c' ≤ 126 → trim (c :: s) = c :: s.
Proof.
  intros E Hc Hc'. unfold trim. rewrite trim_start_visible, E, reverse_snoc, trim_start_visible by done.
  by rewrite reverse_cons, reverse_involutive.
Qed.
Lemma stringify_rest_last s ccs :
  visible s → s ≠ [] → ∃ s' c', s ++ stringify_rest ccs = s' ++ [c'] ∧ 33 ≤ c' ≤ 126.
Proof.
  revert s. induction ccs as [|cc ccs IH]; intros s Hv Hne.
  - simpl. rewrite app_nil_r. destruct (exists_last Hne) as (s' & c' & ->). exists s', c'. split; [done|].
    apply Hv. apply elem_of_app. right. by left.
  - change (stringify_rest (cc :: ccs)) with (32 :: stringify_single cc ++ stringify_rest ccs).
    destruct (IH (stringify_single cc) (stringify_single_visible cc) (stringify_single_nonempty cc)) as (s' & c' & -> & Hc').
    exists (s ++ 32 :: s'), c'. split; [by rewrite <-app_assoc|done].
Qed.
Lemma trim_stringify ccs : trim (stringify_conf_change ccs) = stringify_conf_change ccs.
Proof.
  destruct ccs as [|cc ccs]; [done|]. simpl.
  destruct (stringify_rest_last (stringify_single cc) ccs (stringify_single_visible cc)) as (s' & c' & E & Hc'); [done|].
  unfold stringify_single in *. simpl in *. apply (trim_visible _ _ s' c'); [done| |done].
  apply (stringify_single_visible cc). by left.
Qed.

Lemma parse_stringify_token cc : ccs_node_id cc ≤ u64_max → parse_token (stringify_single cc) = inl cc.
Proof.
  intros Hid. unfold parse_token. destruct (show_u64_cons (ccs_node_id cc)) as (c & rest & E & Hc).
  assert ((str_len (stringify_single cc) <? 2) = false) as ->.
  { apply N.ltb_ge. unfold stringify_single. rewrite E. simpl. unfold char_len.
    rewrite (proj2 (N.ltb_lt c 128)) by lia. destruct (ccs_change_type cc); simpl; lia. }
  unfold stringify_single. rewrite parse_show by done. by destruct cc as [[] id].
Qed.
Lemma parse_stringify_x ccs :
  Forall (λ cc, ccs_node_id cc ≤ u64_max) ccs → parse_conf_change (stringify_conf_change ccs) = inl ccs.
Proof.
  intros Hids. unfold parse_conf_change. rewrite trim_stringify.
  destruct ccs as [|cc ccs]; [done|]. rewrite bool_decide_eq_false_2 by done. rewrite split_stringify.
  induction Hids as [|cc' ccs' Hid Hids IH]; [done|]. simpl. by rewrite parse_stringify_token, IH.
Qed.

(** C37: the text of a list of changes is parsed back to the same list. *)
Theorem conf_change_text_roundtrip (ccs : list ConfChangeSingle) :
  Forall (λ cc, ccs_node_id cc ≤ u64_max) ccs → parse_conf_change (stringify_conf_change ccs) = inl ccs.
Proof. apply parse_stringify_x. Qed.

Lemma conf_change_text_roundtrip_witness :
  let ccs := [mkConfChangeSingle AddNode 1; mkConfChangeSingle AddLearnerNode 18446744073709551615;
              mkConfChangeSingle RemoveNode 0] in
  stringify_conf_change ccs = lit "v1 l18446744073709551615 r0" ∧
  parse_conf_change (stringify_conf_change ccs) = inl ccs ∧
  parse_conf_change (lit " r+7 ") = inl [mkConfChangeSingle RemoveNode 7] ∧
  parse_conf_change (lit "v1 x2") = inr (lit "unknown token x2") ∧
  parse_conf_change (lit "l18446744073709551616") =
    inr (lit "parse token l18446744073709551616 fail: number too large to fit in target type").
Proof.
  intros ccs. split_and!; [by vm_compute| |by vm_compute..].
  apply (conf_change_text_roundtrip ccs). apply (bool_decide_unpack _). by vm_compute.
Defined.
