(* ===== verification/Util.v ===== *)
(** * Utilities ([src/util.rs])

    Size limiting of entry lists, quorum size, the union of two voter sets, and
    the two pieces of environment the whole crate relies on: the protobuf codec
    and the iteration order of the hash tables. *)
From S2P Require Import Prelude Errors Proto.
#[local] Open Scope N_scope.

(** [NO_LIMIT] *)
Definition NO_LIMIT : u64 := u64_max.

(** The protobuf runtime: [compute_size] is the encoded size of an entry (a
    [u32]); the generated code is not part of the repository. *)
Class PbMessage := { compute_size : Entry → N }.
Class PbMessageOk `{PbMessage} : Prop := compute_size_u32 e : compute_size e < 4294967296.

(** The iteration order of a [HashSet<u64>] (and of the keys of a
    [HashMap<u64, _>]): some enumeration of the elements, each exactly once. *)
Class HashOrder := {
  iter_set : gset N → list N;
  iter_set_perm s : iter_set s ≡ₚ elements s }.

Definition iter_map `{HashOrder} {V} (m : gmap N V) : list (N * V) :=
  omap (λ k, v ← m !! k; Some (k, v)) (iter_set (dom m)).

(** An order to compute with. *)
Definition elements_order : HashOrder :=
  {| iter_set := elements; iter_set_perm s := Permutation_refl _ |}.

(** [take_while(..).count()] of [limit_size]: [size] is the captured variable. *)
Fixpoint limit_count `{PbMessage} (max size : N) (entries : list Entry) : outcome nat :=
  match entries with
  | [] => Done 0%nat
  | e :: entries =>
      if size =? 0
      then size ← size +! compute_size e;
           n ← limit_count max size entries; Done (S n)
      else size ← size +! compute_size e;
           if size <=? max
           then n ← limit_count max size entries; Done (S n)
           else Done 0%nat
  end.

Definition limit_size `{PbMessage} (entries : list Entry) (max : option u64) : outcome (list Entry) :=
  if len entries <=? 1 then Done entries
  else match max with
       | None => Done entries
       | Some max =>
           if max =? NO_LIMIT then Done entries
           else limit ← limit_count max 0 entries; Done (take limit entries)
       end.

Definition is_continuous_ents (msg : Message) (ents : list Entry) : outcome bool :=
  match last (m_entries msg), head ents with
  | Some l, Some f =>
      expected_next_idx ← e_index l +! 1;
      Done (expected_next_idx =? e_index f)
  | _, _ => Done true
  end.

Definition majority (total : usize) : outcome usize := (total / 2) +! 1.

(** [struct Union] and its methods *)
Record Union := mkUnion { first : gset N; second : gset N }.

Definition Union_contains (u : Union) (id : u64) : bool :=
  bool_decide (id ∈ first u) || bool_decide (id ∈ second u).
(** [HashSet::union] yields the first set, then what the second adds to it. *)
Definition Union_iter `{HashOrder} (u : Union) : list N :=
  iter_set (first u) ++ filter (.∉ first u) (iter_set (second u)).
Definition Union_is_empty (u : Union) : bool :=
  bool_decide (first u = ∅) && bool_decide (second u = ∅).
Definition Union_len (u : Union) : outcome usize :=
  n ← N.of_nat (size (first u)) +! N.of_nat (size (second u));
  n -! N.of_nat (size (second u ∩ first u)).

Definition entry_approximate_size (e : Entry) : outcome usize :=
  n ← len (e_data e) +! len (e_context e); n +! 12.

(** ** Lemmas *)

Lemma elem_of_iter_set `{HashOrder} s x : x ∈ iter_set s ↔ x ∈ s.
Proof. rewrite iter_set_perm. apply elem_of_elements. Qed.
Lemma NoDup_iter_set `{HashOrder} s : NoDup (iter_set s).
Proof. rewrite iter_set_perm. apply NoDup_elements. Qed.
Lemma length_iter_set `{HashOrder} s : length (iter_set s) = size s.
Proof. by rewrite iter_set_perm. Qed.

Lemma elem_of_iter_map `{HashOrder} {V} (m : gmap N V) k v :
  (k, v) ∈ iter_map m ↔ m !! k = Some v.
Proof.
  unfold iter_map. rewrite list_elem_of_omap. setoid_rewrite elem_of_iter_set.
  setoid_rewrite elem_of_dom. split.
  - intros (k' & _ & Hk). destruct (m !! k') eqn:E; by simplify_eq/=.
  - intros Hk. exists k. rewrite Hk. eauto.
Qed.

Lemma iter_map_keys `{HashOrder} {V} (m : gmap N V) : (iter_map m).*1 = iter_set (dom m).
Proof.
  symmetry. unfold iter_map.
  assert (∀ l, (∀ k, k ∈ l → is_Some (m !! k)) →
    l = (omap (λ k, v ← m !! k; Some (k, v)) l).*1) as Hl.
  { induction l as [|k l IH]; intros Hin; [done|]. simpl.
    destruct (Hin k ltac:(set_solver)) as [v ->]. simpl. f_equal. apply IH. set_solver. }
  apply Hl. intros k. by rewrite elem_of_iter_set, elem_of_dom.
Qed.
Lemma NoDup_iter_map_keys `{HashOrder} {V} (m : gmap N V) : NoDup (iter_map m).*1.
Proof. rewrite iter_map_keys. apply NoDup_iter_set. Qed.
Lemma length_iter_map `{HashOrder} {V} (m : gmap N V) : length (iter_map m) = size m.
Proof. by rewrite <-(length_fmap fst), iter_map_keys, length_iter_set, size_dom. Qed.
Lemma elem_of_iter_map_keys `{HashOrder} {V} (m : gmap N V) k :
  k ∈ (iter_map m).*1 ↔ is_Some (m !! k).
Proof. by rewrite iter_map_keys, elem_of_iter_set, elem_of_dom. Qed.

Lemma majority_Done n q : majority n = Done q ↔ q = n / 2 + 1 ∧ q ≤ u64_max.
Proof. unfold majority. rewrite add64_Done. naive_solver. Qed.
Lemma majority_ok n : n ≤ u64_max → majority n = Done (n / 2 + 1).
Proof.
  intros Hn. apply majority_Done. split; [done|].
  assert (n / 2 ≤ u64_max / 2) by (by apply N.Div0.div_le_mono).
  change (u64_max / 2) with 9223372036854775807 in *. unfold u64_max. lia.
Qed.

(** The union enumerates every member of the two sets exactly once. *)
Lemma Union_iter_perm `{HashOrder} u : Union_iter u ≡ₚ elements (first u ∪ second u).
Proof.
  apply NoDup_Permutation.
  - unfold Union_iter. apply NoDup_app. repeat split.
    + apply NoDup_iter_set.
    + intros x Hx. rewrite list_elem_of_filter. rewrite elem_of_iter_set in Hx. tauto.
    + apply NoDup_filter, NoDup_iter_set.
  - apply NoDup_elements.
  - intros x. unfold Union_iter. rewrite elem_of_app, list_elem_of_filter, !elem_of_iter_set.
    rewrite elem_of_elements, elem_of_union.
    destruct (decide (x ∈ first u)); tauto.
Qed.

Lemma Union_contains_spec u id : Union_contains u id = true ↔ id ∈ first u ∪ second u.
Proof.
  unfold Union_contains. rewrite orb_true_iff, !bool_decide_eq_true. set_solver.
Qed.

Lemma Union_len_spec u :
  N.of_nat (size (first u)) + N.of_nat (size (second u)) ≤ u64_max →
  Union_len u = Done (N.of_nat (size (first u ∪ second u))).
Proof.
  intros. unfold Union_len. rewrite add64_ok by done. simpl.
  assert (size (second u ∩ first u) ≤ size (second u))%nat by (apply subseteq_size; set_solver).
  assert (size (first u ∪ second u) = size (first u) + size (second u ∖ first u))%nat as Hu
    by apply size_union_alt.
  assert (size (second u) = size (second u ∩ first u) + size (second u ∖ first u))%nat as Hs.
  { rewrite <-size_union by set_solver. f_equal. apply leibniz_equiv.
    intros x. rewrite elem_of_union, elem_of_intersection, elem_of_difference.
    destruct (decide (x ∈ first u)); tauto. }
  apply sub64_Done. lia.
Qed.

(** *** [limit_size] *)
Section limit_size.
Context `{PbMessage}.

(** The encoded size of a list of entries. *)
Definition total_size (es : list Entry) : N := foldr (λ e n, compute_size e + n) 0 es.

Lemma total_size_app es1 es2 : total_size (es1 ++ es2) = total_size es1 + total_size es2.
Proof. induction es1 as [|e es1 IH]; simpl; [done|]. rewrite IH. lia. Qed.
Lemma total_size_take n es : total_size (take n es) ≤ total_size es.
Proof. rewrite <-(take_drop n es) at 2. rewrite total_size_app. lia. Qed.

(** The loop keeps the longest prefix whose running total either was still
    zero before its last entry or is within the limit. *)
Lemma limit_count_spec max size es :
  size + total_size es ≤ u64_max →
  returns (limit_count max size es) (λ n,
    (n ≤ length es)%nat ∧
    (size = 0 → es ≠ [] → (0 < n)%nat) ∧
    (n = 0%nat ∨ size + total_size (take (pred n) es) = 0 ∨ size + total_size (take n es) ≤ max) ∧
    (n = length es ∨ (size + total_size (take n es) ≠ 0 ∧ max < size + total_size (take (S n) es)))).
Proof.
  revert size. induction es as [|e es IH]; intros size Hsz; simpl in *.
  { eexists. split; [done|]. naive_solver lia. }
  rewrite add64_ok by lia. simpl.
  destruct (IH (size + compute_size e)) as (n & Hn & Hle & Hpos & Hkeep & Hstop); [lia|].
  case_bools.
  - rewrite Hn. simpl. eexists. split; [done|]. subst size. simpl in *.
    split_and!; [lia|lia| |].
    + right. destruct n as [|n]; simpl in *; [by left|]. destruct Hkeep as [|[|]]; [lia|left;lia|right;lia].
    + destruct Hstop as [->|[? ?]]; [by left|]. right. lia.
  - rewrite Hn. simpl. eexists. split; [done|]. split_and!; [lia|lia| |].
    + right. right. destruct n as [|n]; simpl in *; [lia|]. destruct Hkeep as [|[|]]; lia.
    + destruct Hstop as [->|[? ?]]; [by left|]. right. lia.
  - eexists. split; [done|]. simpl. split_and!; [lia|lia|by left|]. right. lia.
Qed.
End limit_size.

(** [n] entries is what a limit of [max] bytes allows. *)
Definition limit_kept `{PbMessage} (entries : list Entry) (max : option u64) (n : nat) : Prop :=
  (n ≤ length entries)%nat ∧
  (entries ≠ [] → (0 < n)%nat) ∧
  (max = None ∨ max = Some NO_LIMIT → n = length entries) ∧
  ∀ m, max = Some m →
    ((n ≤ 1)%nat ∨ total_size (take (pred n) entries) = 0 ∨ total_size (take n entries) ≤ m) ∧
    (n = length entries ∨ m < total_size (take (S n) entries)).

Lemma limit_kept_all `{PbMessage} entries max :
  total_size entries ≤ u64_max →
  len entries ≤ 1 ∨ max = None ∨ max = Some NO_LIMIT →
  limit_kept entries max (length entries).
Proof.
  intros Hsz Hm. split_and!; [done| |done|].
  - destruct entries; simpl; [done|lia].
  - intros m ->. rewrite firstn_all. split; [|by left].
    destruct Hm as [Hm|[|[= ->]]]; [left; unfold len in Hm; lia|done|auto].
Qed.

Lemma limit_size_kept `{PbMessage} entries max :
  total_size entries ≤ u64_max →
  returns (limit_size entries max) (λ kept, ∃ n,
    kept = take n entries ∧ limit_kept entries max n).
Proof.
  intros Hsz. pose proof (limit_kept_all entries max Hsz) as Hall. unfold limit_size.
  assert (len entries ≤ 1 ∨ max = None ∨ max = Some NO_LIMIT →
    returns (Done entries) (λ kept, ∃ n, kept = take n entries ∧ limit_kept entries max n)) as Hd.
  { intros Hm. apply returns_Done. exists (length entries). rewrite firstn_all. auto. }
  destruct (N.leb_spec (len entries) 1) as [|Hl]; [auto|]. destruct max as [m|]; [|auto].
  destruct (N.eqb_spec m NO_LIMIT) as [->|Hm]; [auto|].
  destruct (limit_count_spec m 0 entries) as (k & -> & Hk & Hpos & Hkeep & Hstop); [lia|].
  simpl. apply returns_Done. exists k. split; [done|]. split_and!; [done|auto|naive_solver|].
  intros m' [= <-]. split; [|naive_solver].
  destruct Hkeep as [->|]; [left; lia|]. right. naive_solver.
Qed.

(** [limit_size] keeps a prefix: never the empty one of a non-empty list,
    within the limit unless only its last entry carries any weight, and the next
    entry would exceed the limit; without a limit it keeps everything. *)
Theorem limit_size_spec `{PbMessage} entries max :
  total_size entries ≤ u64_max →
  returns (limit_size entries max) (λ kept, ∃ n,
    kept = take n entries ∧ limit_kept entries max n).
Proof. apply limit_size_kept. Qed.

Lemma limit_size_spec_witness :
  let PB := {| compute_size e := len (e_data e) |} in
  let e := mkEntry EntryNormal 1 1 [Byte.x00; Byte.x01] [] false in
  limit_size [e; e; e] (Some 5) = Done [e; e] ∧
  returns (limit_size [e; e; e] (Some 5)) (λ kept, ∃ n,
    kept = take n [e; e; e] ∧ limit_kept [e; e; e] (Some 5) n).
Proof.
  intros PB e. split; [reflexivity|].
  apply (limit_size_spec [e; e; e] (Some 5)). vm_compute. discriminate.
Defined.
