(* ===== verification/Quorum.v ===== *)
(** * Quorum vocabulary ([src/quorum.rs])

    Vote results, acknowledged log positions, and [AckedIndexer], the interface
    through which a quorum configuration reads what each voter has acknowledged:
    the tests implement it with a map, the progress tracker with its progress map. *)
From S2P Require Import Prelude Errors Proto Util.
#[local] Open Scope N_scope.

Inductive VoteResult : Set := Pending | Lost | Won.
#[global] Instance VoteResult_eq_dec : EqDecision VoteResult.
Proof. solve_decision. Defined.

(** [struct Index] *)
Record Index := mkIndex { i_index : u64; i_group_id : u64 }.
Definition Index_default : Index := mkIndex 0 0.

(** [trait AckedIndexer] *)
Class AckedIndexer (L : Type) := acked_index : L → u64 → option Index.

(** [impl AckedIndexer for AckIndexer] *)
#[global] Instance AckIndexer_acked : AckedIndexer (gmap N Index) := λ l voter, l !! voter.

(** [l.acked_index(v).unwrap_or_default()] *)
Definition acked_or_default {L} `{AckedIndexer L} (l : L) (v : u64) : Index :=
  default Index_default (acked_index l v).
