(* ===== verification/Majority.v ===== *)
(** * Majority quorums ([src/quorum/majority.rs]) *)
From S2P Require Import Prelude Errors Proto Util Quorum.
#[local] Open Scope N_scope.

(** [struct Configuration] *)
Record Configuration := mkConfiguration { voters : gset N }.
#[global] Instance Configuration_eq_dec : EqDecision Configuration.
Proof. solve_decision. Defined.

Definition new (voters : gset N) : Configuration := mkConfiguration voters.
Definition with_capacity (cap : usize) : Configuration := mkConfiguration ∅.

Section with_order.
Context `{HashOrder}.

Definition ids (self : Configuration) : list N := iter_set (voters self).
Definition raw_slice (self : Configuration) : list N := iter_set (voters self).
Definition slice (self : Configuration) : list N := sort_by N.leb (raw_slice self).

(** The loop over the sorted positions in [committed_index]: [inl i] is the
    early return, [inr single_group] the loop running to its end. *)
Fixpoint group_scan (quorum_commit_index checked_group_id : u64) (single_group : bool)
    (matched : list Index) : u64 + bool :=
  match matched with
  | [] => inr single_group
  | m :: matched =>
      if i_group_id m =? 0 then group_scan quorum_commit_index checked_group_id false matched
      else if checked_group_id =? 0
           then group_scan quorum_commit_index (i_group_id m) single_group matched
      else if checked_group_id =? i_group_id m
           then group_scan quorum_commit_index checked_group_id single_group matched
      else inl (N.min (i_index m) quorum_commit_index)
  end.

Definition committed_index {L} `{AckedIndexer L} (self : Configuration)
    (use_group_commit : bool) (l : L) : outcome (u64 * bool) :=
  if bool_decide (voters self = ∅) then Done (u64_max, true)
  else
    let matched := sort_by (λ a b, i_index b <=? i_index a)
                     (acked_or_default l <$> iter_set (voters self)) in
    quorum ← majority (len matched);
    i ← quorum -! 1;
    quorum_index ← vindex matched i;
    if negb use_group_commit then Done (i_index quorum_index, false)
    else match group_scan (i_index quorum_index) (i_group_id quorum_index) true matched with
         | inl i => Done (i, true)
         | inr true => Done (i_index quorum_index, false)
         | inr false => m ← unwrap (last matched); Done (i_index m, false)
         end.

Definition vote_result (self : Configuration) (check : u64 → option bool) : outcome VoteResult :=
  if bool_decide (voters self = ∅) then Done Won
  else
    let '(yes, missing) :=
      fold_left (λ '(yes, missing) v,
        match check v with
        | Some true => (yes + 1, missing)
        | None => (yes, missing + 1)
        | _ => (yes, missing)
        end) (iter_set (voters self)) (0, 0) in
    q ← majority (N.of_nat (size (voters self)));
    if q <=? yes then Done Won
    else ym ← yes +! missing;
         if q <=? ym then Done Pending else Done Lost.
End with_order.

(** [deref]/[deref_mut]: a configuration is used as its voter set. *)
Definition contains (self : Configuration) (id : u64) : bool := bool_decide (id ∈ voters self).
Definition is_empty (self : Configuration) : bool := bool_decide (voters self = ∅).
Definition set_len (self : Configuration) : usize := N.of_nat (size (voters self)).
Definition clear (self : Configuration) : Configuration := mkConfiguration ∅.

(** ** Specification *)

(** How many voters satisfy a decidable predicate. *)
Definition count (self : Configuration) (P : N → Prop) `{∀ v, Decision (P v)} : N :=
  N.of_nat (size (filter P (voters self))).

(** More than half of the voters satisfy [P]. *)
Definition quorum_of (self : Configuration) (P : N → Prop) `{∀ v, Decision (P v)} : Prop :=
  set_len self / 2 < count self P.

#[global] Instance quorum_of_dec self P `{∀ v, Decision (P v)} : Decision (quorum_of self P).
Proof. unfold quorum_of. apply _. Defined.

(** [i] is acknowledged by [v]. *)
Definition acked_ge {L} `{AckedIndexer L} (l : L) (i : u64) (v : N) : Prop :=
  i ≤ i_index (acked_or_default l v).
#[global] Instance acked_ge_dec {L} `{AckedIndexer L} l i v : Decision (acked_ge l i v).
Proof. unfold acked_ge. apply _. Defined.

Definition voted (check : u64 → option bool) (o : option bool) (v : N) : Prop := check v = o.
#[global] Instance voted_dec check o v : Decision (voted check o v).
Proof. unfold voted. apply _. Defined.

(** [check'] knows all votes that [check] knows. *)
Definition extends (check check' : u64 → option bool) : Prop :=
  ∀ v b, check v = Some b → check' v = Some b.

(** [i] is acknowledged by voters of two different groups. *)
Definition two_groups {L} `{AckedIndexer L} (self : Configuration) (l : L) (i : u64) : Prop :=
  ∃ v1 v2, v1 ∈ voters self ∧ v2 ∈ voters self ∧
    acked_ge l i v1 ∧ acked_ge l i v2 ∧
    i_group_id (acked_or_default l v1) ≠ 0 ∧ i_group_id (acked_or_default l v2) ≠ 0 ∧
    i_group_id (acked_or_default l v1) ≠ i_group_id (acked_or_default l v2).

(** ** Lemmas *)

Lemma length_filter_iter `{HashOrder} self (P : N → Prop) `{∀ v, Decision (P v)} :
  N.of_nat (length (filter P (iter_set (voters self)))) = count self P.
Proof. unfold count. f_equal. apply length_filter_elements, iter_set_perm. Qed.

Lemma count_le self (P : N → Prop) `{∀ v, Decision (P v)} : count self P ≤ set_len self.
Proof.
  unfold count, set_len. assert (size (filter P (voters self)) ≤ size (voters self))%nat; [|lia].
  apply subseteq_size. intros v. rewrite elem_of_filter. tauto.
Qed.

Lemma count_mono self (P Q : N → Prop) `{∀ v, Decision (P v), ∀ v, Decision (Q v)} :
  (∀ v, v ∈ voters self → P v → Q v) → count self P ≤ count self Q.
Proof.
  intros HPQ. unfold count.
  assert (size (filter P (voters self)) ≤ size (filter Q (voters self)))%nat; [|lia].
  apply subseteq_size. intros v. rewrite !elem_of_filter. naive_solver.
Qed.

(** Two majorities of the same voters have a voter in common. *)
Lemma quorum_of_intersect self (P Q : N → Prop) `{∀ v, Decision (P v), ∀ v, Decision (Q v)} :
  quorum_of self P → quorum_of self Q → ∃ v, v ∈ voters self ∧ P v ∧ Q v.
Proof.
  unfold quorum_of, count, set_len.
  rewrite <-!(length_filter_elements _ _ (elements (voters self))) by done. intros HP HQ.
  destruct (filter_pigeonhole P Q (elements (voters self))) as (v & Hv & ? & ?).
  - change (length (elements (voters self))) with (size (voters self)).
    pose proof (N.div_mod' (N.of_nat (size (voters self))) 2).
    pose proof (N.mod_lt (N.of_nat (size (voters self))) 2). lia.
  - exists v. by rewrite elem_of_elements in Hv.
Qed.

Lemma size_pos (s : gset N) : s ≠ ∅ → (0 < size s)%nat.
Proof. intros Hs. assert (size s ≠ 0%nat); [|lia]. by rewrite size_empty_iff, leibniz_equiv_iff. Qed.

(** *** Sorted positions *)

(** In a list sorted by decreasing index, the element at position [k] is reached
    by at least [k + 1] elements, and a larger index by at most [k]. *)
Lemma sorted_desc_rank (l : list Index) k x :
  StronglySorted (λ a b, (i_index b <=? i_index a) = true) l →
  l !! k = Some x →
  (k < length (filter (λ m, (i_index x ≤ i_index m)%N) l))%nat ∧
  ∀ j, i_index x < j → (length (filter (λ m, (j ≤ i_index m)%N) l) ≤ k)%nat.
Proof.
  intros Hs. revert k. induction Hs as [|y l Hl IH Hy]; intros k Hk; [done|].
  rewrite Forall_forall in Hy.
  destruct k as [|k]; simplify_eq/=.
  - rewrite filter_cons_True by lia. split; [simpl; lia|]. intros j Hj.
    rewrite filter_cons_False by lia. rewrite filter_none; [done|].
    intros m Hm. specialize (Hy m Hm). rewrite N.leb_le in Hy. lia.
  - destruct (IH k Hk) as [IH1 IH2]. split.
    + rewrite filter_cons_True; [simpl; lia|].
      specialize (Hy x ltac:(by eapply list_elem_of_lookup_2)). by rewrite N.leb_le in Hy.
    + intros j Hj. specialize (IH2 j Hj). rewrite filter_cons. case_decide; simpl; lia.
Qed.

Section committed_index.
Context `{HashOrder} {L} `{AckedIndexer L} (self : Configuration) (l : L).

(** The positions in the order in which [committed_index] scans them. *)
Definition sorted_positions : list Index :=
  sort_by (λ a b, i_index b <=? i_index a) (acked_or_default l <$> iter_set (voters self)).

Lemma sorted_positions_sorted :
  StronglySorted (λ a b, (i_index b <=? i_index a) = true) sorted_positions.
Proof.
  apply sort_by_sorted; intros *; rewrite ?N.leb_le, ?N.leb_gt; lia.
Qed.
Lemma length_sorted_positions : length sorted_positions = size (voters self).
Proof.
  unfold sorted_positions. by rewrite sort_by_perm, length_fmap, length_iter_set.
Qed.
Lemma elem_of_sorted_positions m :
  m ∈ sorted_positions ↔ ∃ v, v ∈ voters self ∧ m = acked_or_default l v.
Proof.
  unfold sorted_positions. rewrite sort_by_perm, list_elem_of_fmap.
  setoid_rewrite elem_of_iter_set. naive_solver.
Qed.
Lemma filter_sorted_positions i :
  N.of_nat (length (filter (λ m, i ≤ i_index m) sorted_positions)) = count self (acked_ge l i).
Proof.
  unfold sorted_positions. rewrite sort_by_perm, filter_fmap_length. apply length_filter_iter.
Qed.

Lemma quorum_position :
  voters self ≠ ∅ → ∃ q, sorted_positions !! N.to_nat (set_len self / 2) = Some q.
Proof.
  intros Hne. pose proof (size_pos _ Hne). apply lookup_lt_is_Some. rewrite length_sorted_positions.
  unfold set_len. pose proof (N.div_lt (N.of_nat (size (voters self))) 2). lia.
Qed.

(** The middle position is the largest index acknowledged by a majority. *)
Lemma quorum_position_spec q :
  sorted_positions !! N.to_nat (set_len self / 2) = Some q →
  quorum_of self (acked_ge l (i_index q)) ∧
  ∀ j, i_index q < j → ¬ quorum_of self (acked_ge l j).
Proof.
  intros Hq. destruct (sorted_desc_rank _ _ _ sorted_positions_sorted Hq) as [Hlo Hhi].
  unfold quorum_of. split; [|intros j Hj; specialize (Hhi j Hj)];
    rewrite <-filter_sorted_positions; lia.
Qed.

Lemma committed_index_unfold use_group_commit :
  voters self ≠ ∅ → set_len self ≤ u64_max →
  ∃ q, sorted_positions !! N.to_nat (set_len self / 2) = Some q ∧
    committed_index self use_group_commit l =
      if use_group_commit then
        match group_scan (i_index q) (i_group_id q) true sorted_positions with
        | inl i => Done (i, true)
        | inr true => Done (i_index q, false)
        | inr false => m ← unwrap (last sorted_positions); Done (i_index m, false)
        end
      else Done (i_index q, false).
Proof.
  intros Hne Hlen. destruct quorum_position as [q Hq]; [done|]. exists q. split; [done|].
  unfold committed_index. rewrite bool_decide_false by done. fold sorted_positions.
  assert (len sorted_positions = set_len self) as ->
    by (unfold len, set_len; by rewrite length_sorted_positions).
  rewrite majority_ok by done. simpl. rewrite sub64_ok by lia. simpl.
  rewrite N.add_sub. unfold vindex. rewrite Hq. simpl. by destruct use_group_commit.
Qed.
End committed_index.

(** *** Group commit *)

Lemma sorted_desc_split (pre : list Index) m post :
  StronglySorted (λ a b, (i_index b <=? i_index a) = true) (pre ++ m :: post) →
  (∀ x, x ∈ pre → i_index m ≤ i_index x) ∧ (∀ x, x ∈ post → i_index x ≤ i_index m).
Proof.
  induction pre as [|y pre IH]; simpl; intros Hs; apply StronglySorted_inv in Hs as [Hs Hy];
    rewrite Forall_forall in Hy; setoid_rewrite N.leb_le in Hy.
  - set_solver.
  - destruct (IH Hs) as [IH1 IH2]. split; [|done]. intros x [->|Hx]%elem_of_cons; [|auto].
    apply Hy. set_solver.
Qed.

(** The scan stops at the first position of a second group. *)
Lemma group_scan_inl qci c sg ms i :
  group_scan qci c sg ms = inl i →
  ∃ pre m post c', ms = pre ++ m :: post ∧ i = N.min (i_index m) qci ∧
    i_group_id m ≠ 0 ∧ i_group_id m ≠ c' ∧ c' ≠ 0 ∧
    (c ≠ 0 → c' = c) ∧ (c = 0 → ∃ y, y ∈ pre ∧ i_group_id y = c') ∧
    ∀ x, x ∈ pre → i_group_id x = 0 ∨ i_group_id x = c'.
Proof.
  revert c sg. induction ms as [|x ms IH]; intros c sg; simpl; [done|].
  destruct (N.eqb_spec (i_group_id x) 0) as [Hx|Hx].
  { intros (pre & m & post & c' & -> & ? & ? & ? & ? & ? & ? & ?)%IH.
    exists (x :: pre), m, post, c'. set_solver. }
  destruct (N.eqb_spec c 0) as [->|Hc].
  { intros (pre & m & post & c' & -> & ? & ? & ? & ? & Hc' & ? & ?)%IH.
    specialize (Hc' Hx) as ->. exists (x :: pre), m, post, (i_group_id x). set_solver. }
  destruct (N.eqb_spec c (i_group_id x)) as [->|Hcx].
  { intros (pre & m & post & c' & -> & ? & ? & ? & ? & Hc' & ? & ?)%IH.
    specialize (Hc' Hx) as ->. exists (x :: pre), m, post, (i_group_id x). set_solver. }
  intros [= <-]. exists [], x, ms, c. set_solver.
Qed.

(** The scan runs to the end only if there is at most one group. *)
Lemma group_scan_inr qci c sg ms b :
  group_scan qci c sg ms = inr b →
  (∃ c', (c ≠ 0 → c' = c) ∧ ∀ x, x ∈ ms → i_group_id x = 0 ∨ i_group_id x = c') ∧
  (b = true ↔ sg = true ∧ ∀ x, x ∈ ms → i_group_id x ≠ 0).
Proof.
  revert c sg. induction ms as [|x ms IH]; intros c sg; simpl.
  { intros [= ->]. split; [exists c|]; set_solver. }
  destruct (N.eqb_spec (i_group_id x) 0) as [Hx|Hx].
  { intros [(c' & ? & ?) ?]%IH. split; [exists c'; set_solver|]. split; [naive_solver|].
    intros [_ Hall]. destruct (Hall x); set_solver. }
  destruct (N.eqb_spec c 0) as [->|Hc]; [|destruct (N.eqb_spec c (i_group_id x)); [|done]].
  all: intros [(c' & ? & ?) ?]%IH; split; [exists c'; set_solver|set_solver].
Qed.

(** Every voter has been assigned to a group. *)
Definition all_grouped {L} `{AckedIndexer L} (self : Configuration) (l : L) : Prop :=
  ∀ v, v ∈ voters self → i_group_id (acked_or_default l v) ≠ 0.

Section group_commit.
Context `{HashOrder} {L} `{AckedIndexer L} (self : Configuration) (l : L).

Lemma group_scan_found q i :
  sorted_positions self l !! N.to_nat (set_len self / 2) = Some q →
  group_scan (i_index q) (i_group_id q) true (sorted_positions self l) = inl i →
  quorum_of self (acked_ge l i) ∧ two_groups self l i ∧
  ∀ j, i < j → ¬ (quorum_of self (acked_ge l j) ∧ two_groups self l j).
Proof.
  intros Hq (pre & m & post & c' & Hsp & -> & Hm0 & Hmc & Hc' & Hcq & Hc0 & Hpre)%group_scan_inl.
  pose proof (sorted_positions_sorted self l) as Hs. rewrite Hsp in Hs.
  apply sorted_desc_split in Hs as [Hge Hle].
  destruct (quorum_position_spec self l q Hq) as [Hquo Hmax].
  assert (∃ y, y ∈ sorted_positions self l ∧ i_group_id y = c' ∧
    N.min (i_index m) (i_index q) ≤ i_index y) as (y & Hy & Hyc & Hyi).
  { destruct (decide (i_group_id q = 0)) as [Hq0|Hq0].
    - destruct (Hc0 Hq0) as (y & Hy & <-). exists y. rewrite Hsp.
      specialize (Hge y Hy). set_solver by lia.
    - exists q. split_and!; [by eapply list_elem_of_lookup_2|naive_solver|lia]. }
  assert (m ∈ sorted_positions self l) as Hm by (rewrite Hsp; set_solver).
  apply elem_of_sorted_positions in Hm as (vm & Hvm & ->).
  apply elem_of_sorted_positions in Hy as (vy & Hvy & ->). split_and!.
  - unfold quorum_of in *. eapply N.lt_le_trans; [exact Hquo|]. apply count_mono.
    unfold acked_ge. intros; lia.
  - exists vm, vy. unfold acked_ge. split_and!; try done; [lia|congruence|congruence].
  - intros j Hj [Hquoj (v1 & v2 & Hv1 & Hv2 & Hj1 & Hj2 & Hg1 & Hg2 & Hg)].
    destruct (decide (i_index q < j)); [by eapply Hmax|].
    assert (∀ v, v ∈ voters self → acked_ge l j v → i_group_id (acked_or_default l v) ≠ 0 →
      i_group_id (acked_or_default l v) = c') as Hin; [|by rewrite (Hin v1), (Hin v2) in Hg].
    intros v Hv Hjv Hgv. unfold acked_ge in Hjv.
    assert (acked_or_default l v ∈ sorted_positions self l) as Hsv
      by (apply elem_of_sorted_positions; eauto).
    rewrite Hsp in Hsv. apply elem_of_app in Hsv as [Hsv|[Hsv|Hsv]%elem_of_cons].
    + destruct (Hpre _ Hsv); done.
    + rewrite Hsv in Hjv. lia.
    + specialize (Hle _ Hsv). lia.
Qed.

Lemma last_sorted_positions :
  voters self ≠ ∅ →
  ∃ m, last (sorted_positions self l) = Some m ∧ m ∈ sorted_positions self l ∧
    ∀ x, x ∈ sorted_positions self l → i_index m ≤ i_index x.
Proof.
  intros Hne. pose proof (size_pos _ Hne). pose proof (length_sorted_positions self l) as Hlen.
  pose proof (sorted_positions_sorted self l) as Hs.
  destruct (sorted_positions self l) as [|m0 ms _] eqn:E using rev_ind; [simpl in Hlen; lia|].
  exists m0. rewrite last_snoc. split; [done|]. split; [set_solver|].
  apply sorted_desc_split in Hs as [Hge _]. intros x [Hx| ->%list_elem_of_singleton]%elem_of_app; auto.
Qed.
End group_commit.

(** Whatever the mode, a majority has acknowledged the committed index. *)
Lemma committed_index_quorum `{HashOrder} {L} `{AckedIndexer L} self (l : L) gc i b :
  voters self ≠ ∅ → set_len self ≤ u64_max → committed_index self gc l = Done (i, b) → quorum_of self (acked_ge l i).
Proof.
  intros Hne Hlen E. destruct (committed_index_unfold self l gc Hne Hlen) as (q & Hq & Hc). rewrite Hc in E.
  destruct gc; simpl in E; [|injection E as <- _; by apply quorum_position_spec].
  destruct (group_scan _ _ _ _) as [j|[]] eqn:Hscan; [injection E as <- _; by eapply group_scan_found
    |injection E as <- _; by apply quorum_position_spec|].
  destruct (last_sorted_positions self l Hne) as (m & Hl & Hm & Hmin). rewrite Hl in E. injection E as <- _.
  unfold quorum_of. assert (count self (acked_ge l (i_index m)) = set_len self) as ->.
  { apply N.le_antisymm; [apply count_le|]. unfold count, set_len.
    assert (size (voters self) ≤ size (filter (acked_ge l (i_index m)) (voters self)))%nat; [|lia].
    apply subseteq_size. intros v Hv. apply elem_of_filter. split; [|done]. apply Hmin, elem_of_sorted_positions. eauto. }
  pose proof (size_pos _ Hne). unfold set_len. apply N.div_lt; lia.
Qed.

(** C35: with group commit, the flag tells whether two groups exist; the index is
    then the largest one that a majority and two different groups have
    acknowledged. With a single group it is the majority index when every voter
    is grouped, and the smallest position of any voter otherwise. *)
Theorem committed_index_group_spec `{HashOrder} {L} `{AckedIndexer L} self (l : L) :
  voters self ≠ ∅ → set_len self ≤ u64_max →
  returns (committed_index self true l) (λ '(i, by_group),
    (by_group = true ∧ quorum_of self (acked_ge l i) ∧ two_groups self l i ∧
     ∀ j, i < j → ¬ (quorum_of self (acked_ge l j) ∧ two_groups self l j)) ∨
    (by_group = false ∧ (∀ j, ¬ two_groups self l j) ∧
     ((all_grouped self l ∧ quorum_of self (acked_ge l i) ∧
       ∀ j, i < j → ¬ quorum_of self (acked_ge l j)) ∨
      (¬ all_grouped self l ∧
       (∃ v, v ∈ voters self ∧ i = i_index (acked_or_default l v)) ∧
       ∀ v, v ∈ voters self → acked_ge l i v)))).
Proof.
  intros Hne Hlen. destruct (committed_index_unfold self l true Hne Hlen) as (q & Hq & ->).
  destruct (group_scan _ _ _ _) as [i|sg] eqn:Hscan.
  { apply returns_Done. left. split; [done|]. by eapply group_scan_found. }
  apply group_scan_inr in Hscan as [(c' & _ & Hone) Hsg].
  assert (∀ j, ¬ two_groups self l j) as Hno.
  { intros j (v1 & v2 & Hv1 & Hv2 & _ & _ & Hg1 & Hg2 & Hg). apply Hg.
    destruct (Hone (acked_or_default l v1)), (Hone (acked_or_default l v2));
      try (by apply elem_of_sorted_positions; eauto); congruence. }
  destruct sg.
  - apply returns_Done. right. split_and!; [done..|]. left. split; [|by apply quorum_position_spec].
    intros v Hv. apply (proj1 Hsg eq_refl). apply elem_of_sorted_positions; eauto.
  - destruct (last_sorted_positions self l Hne) as (m & -> & Hm & Hmin). simpl.
    apply returns_Done. right. split_and!; [done..|]. right. split_and!.
    + intros Hall. assert (false = true); [|done]. apply Hsg. split; [done|].
      intros x (v & Hv & ->)%elem_of_sorted_positions. by apply Hall.
    + apply elem_of_sorted_positions in Hm as (v & Hv & ->). eauto.
    + intros v Hv. apply Hmin, elem_of_sorted_positions; eauto.
Qed.

(** without group commit, [committed_index] is the largest index that a
    majority of the voters has acknowledged, whatever order the voter table is
    enumerated in. *)
Theorem committed_index_spec `{HashOrder} {L} `{AckedIndexer L} self (l : L) :
  voters self ≠ ∅ → set_len self ≤ u64_max →
  returns (committed_index self false l) (λ '(i, by_group),
    by_group = false ∧ quorum_of self (acked_ge l i) ∧
    ∀ j, i < j → ¬ quorum_of self (acked_ge l j)).
Proof.
  intros Hne Hlen. destruct (committed_index_unfold self l false Hne Hlen) as (q & Hq & ->).
  apply returns_Done. split; [done|]. by apply quorum_position_spec.
Qed.

(** The characterisations above determine the answer, so it cannot depend on the
    order in which a hash table enumerates the voters. *)
Section order_independence.
Context {L} `{AckedIndexer L} (self : Configuration) (l : L).

Lemma largest_quorum_unique i j :
  (quorum_of self (acked_ge l i) ∧ ∀ k, i < k → ¬ quorum_of self (acked_ge l k)) →
  (quorum_of self (acked_ge l j) ∧ ∀ k, j < k → ¬ quorum_of self (acked_ge l k)) → i = j.
Proof.
  intros [Hi Hi'] [Hj Hj']. destruct (N.lt_trichotomy i j) as [|[|]]; [|done|]; exfalso; naive_solver.
Qed.

Lemma largest_group_unique i j :
  (quorum_of self (acked_ge l i) ∧ two_groups self l i ∧
   ∀ k, i < k → ¬ (quorum_of self (acked_ge l k) ∧ two_groups self l k)) →
  (quorum_of self (acked_ge l j) ∧ two_groups self l j ∧
   ∀ k, j < k → ¬ (quorum_of self (acked_ge l k) ∧ two_groups self l k)) → i = j.
Proof.
  intros (Hi & ? & Hi') (Hj & ? & Hj').
  destruct (N.lt_trichotomy i j) as [|[|]]; [|done|]; exfalso; naive_solver.
Qed.

Lemma smallest_position_unique i j :
  ((∃ v, v ∈ voters self ∧ i = i_index (acked_or_default l v)) ∧
   ∀ v, v ∈ voters self → acked_ge l i v) →
  ((∃ v, v ∈ voters self ∧ j = i_index (acked_or_default l v)) ∧
   ∀ v, v ∈ voters self → acked_ge l j v) → i = j.
Proof.
  unfold acked_ge. intros [(v & Hv & ->) Hi] [(w & Hw & ->) Hj].
  specialize (Hi w Hw). specialize (Hj v Hv). lia.
Qed.
End order_independence.

(** [committed_index] does not depend on the iteration order of the voter
    hash set, although group commit starts from the group of whichever voter the
    sort happens to put in the middle. *)
Theorem committed_index_order_independent (o1 o2 : HashOrder) {L} `{AckedIndexer L}
    self use_group_commit (l : L) :
  set_len self ≤ u64_max →
  committed_index (H:=o1) self use_group_commit l = committed_index (H:=o2) self use_group_commit l.
Proof.
  intros Hlen. destruct (decide (voters self = ∅)) as [He|Hne].
  { unfold committed_index. by rewrite !bool_decide_true. }
  destruct use_group_commit.
  - destruct (committed_index_group_spec (H:=o1) self l Hne Hlen) as ([i b] & -> & Hi).
    destruct (committed_index_group_spec (H:=o2) self l Hne Hlen) as ([j c] & -> & Hj).
    destruct Hi as [(-> & Hi)|(-> & Hni & Hi)], Hj as [(-> & Hj)|(-> & Hnj & Hj)].
    + by rewrite (largest_group_unique self l i j).
    + by destruct (Hnj i); destruct Hi as (? & ? & ?).
    + by destruct (Hni j); destruct Hj as (? & ? & ?).
    + f_equal. f_equal. destruct Hi as [[? Hi]|[? Hi]], Hj as [[? Hj]|[? Hj]]; try done.
      * by eapply largest_quorum_unique.
      * by eapply smallest_position_unique.
  - destruct (committed_index_unfold (H:=o1) self l false Hne Hlen) as (q1 & Hq1 & ->).
    destruct (committed_index_unfold (H:=o2) self l false Hne Hlen) as (q2 & Hq2 & ->).
    apply quorum_position_spec in Hq1, Hq2.
    by rewrite (largest_quorum_unique self l _ _ Hq1 Hq2).
Qed.

(** *** Votes *)

Lemma vote_fold `{HashOrder} check vs y m :
  fold_left (λ '(yes, missing) v,
    match check v with
    | Some true => (yes + 1, missing)
    | None => (yes, missing + 1)
    | _ => (yes, missing)
    end) vs (y, m)
  = (y + N.of_nat (length (filter (voted check (Some true)) vs)),
     m + N.of_nat (length (filter (voted check None) vs))).
Proof.
  revert y m. induction vs as [|v vs IH]; intros y m; simpl; [f_equal; lia|].
  destruct (check v) as [[|]|] eqn:E; rewrite IH.
  - rewrite filter_cons_True, filter_cons_False by (unfold voted; congruence). simpl. f_equal; lia.
  - rewrite !filter_cons_False by (unfold voted; congruence). done.
  - rewrite filter_cons_False, filter_cons_True by (unfold voted; congruence). simpl. f_equal; lia.
Qed.

Lemma vote_result_unfold `{HashOrder} self check :
  voters self ≠ ∅ → set_len self ≤ u64_max →
  vote_result self check = Done
    (if decide (quorum_of self (voted check (Some true))) then Won
     else if decide (set_len self / 2 < count self (voted check (Some true)) + count self (voted check None))
          then Pending else Lost).
Proof.
  intros Hne Hlen. unfold vote_result. rewrite bool_decide_false by done.
  rewrite vote_fold, !length_filter_iter, !N.add_0_l.
  fold (set_len self). rewrite majority_ok by done. simpl. unfold quorum_of.
  assert (count self (voted check (Some true)) + count self (voted check None) ≤ set_len self).
  { unfold count, set_len.
    rewrite <-!(length_filter_elements _ _ (elements (voters self))) by done.
    change (size (voters self)) with (length (elements (voters self))).
    induction (elements (voters self)) as [|v vs IH]; simpl; [lia|].
    rewrite !filter_cons. unfold voted in *. repeat case_decide; simpl; try lia. congruence. }
  repeat case_decide; case_bools; rewrite ?add64_ok by lia; simpl; case_bools.
Qed.

Lemma vote_result_empty `{HashOrder} self check :
  voters self = ∅ → vote_result self check = Done Won.
Proof. intros He. unfold vote_result. by rewrite bool_decide_true. Qed.

Lemma vote_result_won `{HashOrder} self check :
  set_len self ≤ u64_max →
  vote_result self check = Done Won ↔
  voters self = ∅ ∨ quorum_of self (voted check (Some true)).
Proof.
  intros Hlen. destruct (decide (voters self = ∅)) as [He|Hne].
  { rewrite vote_result_empty by done. naive_solver. }
  rewrite vote_result_unfold by done. repeat case_decide; naive_solver.
Qed.

Lemma extends_total check d : extends check (λ v, Some (default d (check v))).
Proof. intros v b Hv. by rewrite Hv. Qed.

Lemma count_elements self (P : N → Prop) `{∀ v, Decision (P v)} :
  count self P = N.of_nat (length (filter P (elements (voters self)))).
Proof. unfold count. by rewrite <-(length_filter_elements _ _ (elements (voters self))). Qed.

(** Further votes can only turn missing votes into cast ones. *)
Lemma count_votes_extend self check check' :
  extends check check' →
  count self (voted check (Some true)) ≤ count self (voted check' (Some true)) ∧
  count self (voted check' (Some true)) + count self (voted check' None) ≤
  count self (voted check (Some true)) + count self (voted check None).
Proof.
  intros Hx. split; [apply count_mono; unfold voted; naive_solver|].
  rewrite !count_elements. induction (elements (voters self)) as [|v vs IH]; simpl; [lia|].
  pose proof (Hx v) as Hxv. rewrite !filter_cons.
  repeat case_decide; simpl; unfold voted in *; try lia;
    destruct (check v) as [[]|], (check' v) as [[]|]; naive_solver.
Qed.

Lemma count_votes_all_yes self check :
  count self (voted check (Some true)) + count self (voted check None) ≤
  count self (voted (λ v, Some (default true (check v))) (Some true)).
Proof.
  rewrite !count_elements. induction (elements (voters self)) as [|v vs IH]; simpl; [lia|].
  rewrite !filter_cons.
  repeat case_decide; simpl; unfold voted in *; try lia; destruct (check v) as [[]|]; naive_solver.
Qed.

Lemma count_votes_all_no self check :
  count self (voted (λ v, Some (default false (check v))) (Some true)) ≤
    count self (voted check (Some true)) ∧
  count self (voted (λ v, Some (default false (check v))) None) = 0.
Proof.
  split; [|by rewrite count_elements, filter_none].
  apply count_mono. unfold voted. intros v _. by destruct (check v).
Qed.

Lemma vote_result_total `{HashOrder} self check :
  set_len self ≤ u64_max → ∃ r, vote_result self check = Done r.
Proof.
  intros. destruct (decide (voters self = ∅)).
  - rewrite vote_result_empty by done. eauto.
  - rewrite vote_result_unfold by done. eauto.
Qed.

Lemma vote_result_final `{HashOrder} self check check' r :
  set_len self ≤ u64_max → extends check check' → r ≠ Pending →
  vote_result self check = Done r → vote_result self check' = Done r.
Proof.
  intros Hlen Hx Hr. destruct (decide (voters self = ∅)); [by rewrite !vote_result_empty|].
  apply (count_votes_extend self) in Hx. rewrite !vote_result_unfold by done.
  unfold quorum_of. repeat case_decide; intros; simplify_eq; try lia; done.
Qed.

(** What becomes of a vote when all missing votes are yes, and when all are no. *)
Lemma vote_result_complete `{HashOrder} self check r :
  set_len self ≤ u64_max → vote_result self check = Done r →
  vote_result self (λ v, Some (default true (check v))) =
    Done (match r with Lost => Lost | _ => Won end) ∧
  vote_result self (λ v, Some (default false (check v))) =
    Done (match r with Won => Won | _ => Lost end).
Proof.
  intros Hlen Hr. destruct (decide (r = Pending)) as [->|Hp].
  2: { split; (rewrite (vote_result_final self check _ r); [| |apply extends_total|..]);
       try done; by destruct r. }
  destruct (decide (voters self = ∅)); [by rewrite vote_result_empty in Hr|].
  rewrite !vote_result_unfold in * by done. unfold quorum_of in *.
  pose proof (count_votes_all_yes self check). pose proof (count_votes_all_no self check).
  repeat case_decide; simplify_eq; try lia; done.
Qed.

(** the three vote results mean what they say: after [Won] (or [Lost]) no
    further vote can change the result, and while the vote is [Pending] some way
    of casting the missing votes wins it and another one loses it. *)
Theorem vote_result_meaning `{HashOrder} self check :
  set_len self ≤ u64_max →
  returns (vote_result self check) (λ r,
    match r with
    | Won => ∀ check', extends check check' → vote_result self check' = Done Won
    | Lost => ∀ check', extends check check' → vote_result self check' = Done Lost
    | Pending => (∃ check', extends check check' ∧ vote_result self check' = Done Won) ∧
                 (∃ check', extends check check' ∧ vote_result self check' = Done Lost)
    end).
Proof.
  intros Hlen. destruct (vote_result_total self check Hlen) as [r Hr].
  exists r. split; [done|].
  destruct r; [|intros check' Hx; by eapply vote_result_final..].
  destruct (vote_result_complete self check _ Hlen Hr) as [Ht Hf].
  split; eexists; (split; [|by apply Ht || apply Hf]); apply extends_total.
Qed.

(** ** Witnesses *)

Lemma committed_index_spec_witness :
  let _ := elements_order in
  let self := new {[1; 2; 3; 4; 5]} in
  let l : gmap N Index := {[1 := mkIndex 2 0; 2 := mkIndex 5 0; 3 := mkIndex 2 0; 4 := mkIndex 4 0]} in
  committed_index self false l = Done (2, false) ∧
  returns (committed_index self false l) (λ '(i, by_group),
    by_group = false ∧ quorum_of self (acked_ge l i) ∧
    ∀ j, i < j → ¬ quorum_of self (acked_ge l j)).
Proof.
  intros o self l. split; [by vm_compute|].
  apply committed_index_spec; vm_compute; discriminate.
Defined.

Lemma committed_index_group_spec_witness :
  let _ := elements_order in
  let self := new {[1; 2; 3]} in
  let l : gmap N Index := {[1 := mkIndex 1 1; 2 := mkIndex 2 2; 3 := mkIndex 3 2]} in
  committed_index self true l = Done (1, true) ∧
  returns (committed_index self true l) (λ '(i, by_group),
    (by_group = true ∧ quorum_of self (acked_ge l i) ∧ two_groups self l i ∧
     ∀ j, i < j → ¬ (quorum_of self (acked_ge l j) ∧ two_groups self l j)) ∨
    (by_group = false ∧ (∀ j, ¬ two_groups self l j) ∧
     ((all_grouped self l ∧ quorum_of self (acked_ge l i) ∧
       ∀ j, i < j → ¬ quorum_of self (acked_ge l j)) ∨
      (¬ all_grouped self l ∧
       (∃ v, v ∈ voters self ∧ i = i_index (acked_or_default l v)) ∧
       ∀ v, v ∈ voters self → acked_ge l i v)))).
Proof.
  intros o self l. split; [by vm_compute|].
  apply committed_index_group_spec; vm_compute; discriminate.
Defined.

(** An order that enumerates the voters backwards. *)
Definition reverse_order : HashOrder.
Proof.
  refine {| iter_set s := reverse (elements s) |}. intros s. apply reverse_Permutation.
Defined.

Lemma committed_index_order_independent_witness :
  let self := new {[1; 2; 3; 4; 5]} in
  let l : gmap N Index :=
    {[1 := mkIndex 3 1; 2 := mkIndex 2 1; 3 := mkIndex 2 0; 4 := mkIndex 2 2; 5 := mkIndex 1 2]} in
  committed_index (H:=elements_order) self true l = Done (2, true) ∧
  committed_index (H:=elements_order) self true l = committed_index (H:=reverse_order) self true l.
Proof.
  intros self l. split; [by vm_compute|].
  apply committed_index_order_independent. vm_compute. discriminate.
Defined.

Lemma vote_result_meaning_witness :
  let _ := elements_order in
  let self := new {[1; 2; 3]} in
  let check v := if v =? 1 then Some true else if v =? 2 then Some false else None in
  vote_result self check = Done Pending ∧
  returns (vote_result self check) (λ r,
    match r with
    | Won => ∀ check', extends check check' → vote_result self check' = Done Won
    | Lost => ∀ check', extends check check' → vote_result self check' = Done Lost
    | Pending => (∃ check', extends check check' ∧ vote_result self check' = Done Won) ∧
                 (∃ check', extends check check' ∧ vote_result self check' = Done Lost)
    end).
Proof.
  intros o self check. split; [by vm_compute|].
  apply vote_result_meaning. vm_compute. discriminate.
Defined.
