(* ===== verification/Joint.v ===== *)
(** * Joint quorums ([src/quorum/joint.rs]) *)
From S2P Require Import Prelude Errors Proto Util Quorum Majority.
#[local] Open Scope N_scope.

(** [struct Configuration] *)
Record JointConfig := mkJointConfig {
  incoming : Majority.Configuration;
  outgoing : Majority.Configuration }.
#[global] Instance JointConfig_eq_dec : EqDecision JointConfig.
Proof. solve_decision. Defined.

Definition new (voters : gset N) : JointConfig :=
  mkJointConfig (Majority.new voters) (mkConfiguration ∅).
Definition with_capacity (cap : usize) : JointConfig :=
  mkJointConfig (Majority.with_capacity cap) (mkConfiguration ∅).

Section with_order.
Context `{HashOrder}.

Definition committed_index {L} `{AckedIndexer L} (self : JointConfig)
    (use_group_commit : bool) (l : L) : outcome (u64 * bool) :=
  '(i_idx, i_use_gc) ← Majority.committed_index (incoming self) use_group_commit l;
  '(o_idx, o_use_gc) ← Majority.committed_index (outgoing self) use_group_commit l;
  Done (N.min i_idx o_idx, i_use_gc && o_use_gc).

Definition vote_result (self : JointConfig) (check : u64 → option bool) : outcome VoteResult :=
  i ← Majority.vote_result (incoming self) check;
  o ← Majority.vote_result (outgoing self) check;
  Done (match i, o with
        | Won, Won => Won
        | Lost, _ | _, Lost => Lost
        | _, _ => Pending
        end).
End with_order.

Definition clear (self : JointConfig) : JointConfig :=
  mkJointConfig (Majority.clear (incoming self)) (Majority.clear (outgoing self)).
Definition is_singleton (self : JointConfig) : bool :=
  Majority.is_empty (outgoing self) && (set_len (incoming self) =? 1).
Definition ids (self : JointConfig) : Union :=
  mkUnion (voters (incoming self)) (voters (outgoing self)).
Definition contains (self : JointConfig) (id : u64) : bool :=
  Majority.contains (incoming self) id || Majority.contains (outgoing self) id.

(** ** Specification *)

(** [P] holds of a majority of each half that has voters. *)
Definition joint_quorum_of (self : JointConfig) (P : N → Prop) `{∀ v, Decision (P v)} : Prop :=
  (voters (incoming self) = ∅ ∨ quorum_of (incoming self) P) ∧
  (voters (outgoing self) = ∅ ∨ quorum_of (outgoing self) P).

(** The table sizes are machine integers. *)
Definition joint_bounded (self : JointConfig) : Prop :=
  set_len (incoming self) ≤ u64_max ∧ set_len (outgoing self) ≤ u64_max.

(** ** Lemmas *)

Lemma joint_vote_result_won `{HashOrder} self check :
  joint_bounded self →
  vote_result self check = Done Won ↔ joint_quorum_of self (voted check (Some true)).
Proof.
  intros [Hi Ho]. unfold vote_result, joint_quorum_of.
  rewrite <-!Majority.vote_result_won by done. split.
  - intros Hv. inv_done. destruct x, x0; simplify_eq; auto.
  - intros [-> ->]. done.
Qed.

(** A half that has voters intersects any two joint quorums. *)
Lemma joint_quorum_intersect self (P Q : N → Prop) `{∀ v, Decision (P v), ∀ v, Decision (Q v)} half :
  half = incoming self ∨ half = outgoing self → voters half ≠ ∅ →
  joint_quorum_of self P → joint_quorum_of self Q → ∃ v, v ∈ voters half ∧ P v ∧ Q v.
Proof.
  intros Hhalf Hne [HPi HPo] [HQi HQo].
  destruct Hhalf as [-> | ->]; apply (quorum_of_intersect _ P Q); naive_solver.
Qed.

(** An index computed for one half, the empty half standing for "any index". *)
Lemma half_committed `{HashOrder} {L} `{AckedIndexer L} half (l : L) :
  set_len half ≤ u64_max → (∀ v, i_index (acked_or_default l v) ≤ u64_max) →
  returns (Majority.committed_index half false l) (λ '(i, _), i ≤ u64_max ∧
    ∀ j, j ≤ u64_max → (j ≤ i ↔ voters half = ∅ ∨ quorum_of half (acked_ge l j))).
Proof.
  intros Hlen Hb. destruct (decide (voters half = ∅)) as [He|Hne].
  { unfold Majority.committed_index. rewrite bool_decide_true by done.
    apply returns_Done. split; [done|]. tauto. }
  destruct (committed_index_unfold half l false Hne Hlen) as (q & Hq & ->).
  apply returns_Done. split.
  { apply list_elem_of_lookup_2, elem_of_sorted_positions in Hq as (v & _ & ->). apply Hb. }
  destruct (quorum_position_spec half l q Hq) as [Hquo Hmax].
  intros j Hj. split; [|intros [|Hqj]; [done|]].
  - intros Hji. right. unfold quorum_of in *. eapply N.lt_le_trans; [exact Hquo|].
    apply count_mono. unfold acked_ge. intros. lia.
  - destruct (decide (i_index q < j)); [|lia]. by destruct (Hmax j).
Qed.

(** Whatever the mode, a joint quorum has acknowledged the committed index. *)
Lemma joint_committed_quorum `{HashOrder} {L} `{AckedIndexer L} self (l : L) gc i b :
  joint_bounded self → committed_index self gc l = Done (i, b) → joint_quorum_of self (acked_ge l i).
Proof.
  intros [Hi Ho] E. unfold committed_index in E.
  apply bind_Done in E as ([ii bi] & Ei & E). apply bind_Done in E as ([io bo] & Eo & [= <- <-]).
  assert (∀ half j g, set_len half ≤ u64_max → Majority.committed_index half gc l = Done (j, g) → N.min ii io ≤ j →
    voters half = ∅ ∨ quorum_of half (acked_ge l (N.min ii io))) as Hhalf.
  { intros half j g Hb E Hle. destruct (decide (voters half = ∅)) as [|Hne]; [by left|right].
    eapply N.lt_le_trans; [by eapply committed_index_quorum|]. apply count_mono. unfold acked_ge. intros. lia. }
  split; [eapply (Hhalf _ ii)|eapply (Hhalf _ io)]; try done; lia.
Qed.

Lemma joint_committed_index_x `{HashOrder} {L} `{AckedIndexer L} self (l : L) :
  joint_bounded self → (∀ v, i_index (acked_or_default l v) ≤ u64_max) →
  returns (committed_index self false l) (λ '(i, _), i ≤ u64_max ∧
    ∀ j, j ≤ u64_max → (j ≤ i ↔ joint_quorum_of self (acked_ge l j))).
Proof.
  intros [Hi Ho] Hb. unfold committed_index.
  destruct (half_committed (incoming self) l Hi Hb) as ([i gi] & -> & Hib & Hi').
  destruct (half_committed (outgoing self) l Ho Hb) as ([o go] & -> & Hob & Ho').
  simpl. apply returns_Done. split; [lia|]. intros j Hj. unfold joint_quorum_of.
  rewrite <-Hi', <-Ho' by done. lia.
Qed.

(** the committed index of a joint configuration is the largest index that a
    majority of the incoming and a majority of the outgoing voters have both
    acknowledged; a half without voters imposes nothing. *)
Theorem joint_committed_index_spec `{HashOrder} {L} `{AckedIndexer L} self (l : L) :
  joint_bounded self → (∀ v, i_index (acked_or_default l v) ≤ u64_max) →
  returns (committed_index self false l) (λ '(i, _), i ≤ u64_max ∧
    ∀ j, j ≤ u64_max → (j ≤ i ↔ joint_quorum_of self (acked_ge l j))).
Proof. apply joint_committed_index_x. Qed.

(** an election over a joint configuration is won exactly when both halves
    have a majority of yes votes, and two elections won over it have a common
    yes-voter in every half that has voters. *)
Theorem joint_vote_won_intersect `{HashOrder} self c1 c2 half :
  joint_bounded self →
  half = incoming self ∨ half = outgoing self → voters half ≠ ∅ →
  vote_result self c1 = Done Won → vote_result self c2 = Done Won →
  quorum_of half (voted c1 (Some true)) ∧
  ∃ v, v ∈ voters half ∧ c1 v = Some true ∧ c2 v = Some true.
Proof.
  intros Hb Hhalf Hne H1%joint_vote_result_won H2%joint_vote_result_won; [|done..]. split.
  - unfold joint_quorum_of in H1. naive_solver.
  - by apply (joint_quorum_intersect self (voted c1 (Some true)) (voted c2 (Some true)) half).
Qed.

(** a joint vote result is final in the same sense as a majority vote: once
    [Won] or [Lost], further votes cannot change it; it stays [Pending] only if
    casting the missing votes one way wins and another way loses. *)
Theorem joint_vote_result_meaning `{HashOrder} self check :
  joint_bounded self →
  returns (vote_result self check) (λ r,
    match r with
    | Won => ∀ check', extends check check' → vote_result self check' = Done Won
    | Lost => ∀ check', extends check check' → vote_result self check' = Done Lost
    | Pending => (∃ check', extends check check' ∧ vote_result self check' = Done Won) ∧
                 (∃ check', extends check check' ∧ vote_result self check' = Done Lost)
    end).
Proof.
  intros [Hi Ho]. unfold vote_result.
  destruct (vote_result_total (incoming self) check Hi) as [i Hri].
  destruct (vote_result_total (outgoing self) check Ho) as [o Hro].
  destruct (vote_result_complete _ _ _ Hi Hri) as [Hti Hfi].
  destruct (vote_result_complete _ _ _ Ho Hro) as [Hto Hfo].
  assert (∀ check', extends check check' → ∃ i' o',
    Majority.vote_result (incoming self) check' = Done i' ∧
    Majority.vote_result (outgoing self) check' = Done o' ∧
    (i ≠ Pending → i' = i) ∧ (o ≠ Pending → o' = o)) as Hfin.
  { intros check' Hx.
    destruct (vote_result_total (incoming self) check' Hi) as [i' Hri'].
    destruct (vote_result_total (outgoing self) check' Ho) as [o' Hro'].
    exists i', o'. split_and!; [done..| |]; intros Hp.
    - pose proof (vote_result_final _ _ _ i Hi Hx Hp Hri). congruence.
    - pose proof (vote_result_final _ _ _ o Ho Hx Hp Hro). congruence. }
  rewrite Hri, Hro. simpl. apply returns_Done.
  destruct i, o; simpl;
    try (intros check' (i' & o' & -> & -> & Hi' & Ho')%Hfin; simpl;
         rewrite ?Hi', ?Ho' by done; by destruct i' || destruct o' || idtac).
  all: split;
    [exists (λ v, Some (default true (check v)))|exists (λ v, Some (default false (check v)))];
    (split; [apply extends_total|]); by rewrite ?Hti, ?Hto, ?Hfi, ?Hfo.
Qed.

(** ** Witnesses *)

Lemma joint_committed_index_spec_witness :
  let _ := elements_order in
  let self := mkJointConfig (mkConfiguration {[1; 2; 3]}) (mkConfiguration {[3; 4; 5]}) in
  let l : gmap N Index := {[1 := mkIndex 9 0; 2 := mkIndex 7 0; 3 := mkIndex 8 0; 4 := mkIndex 4 0]} in
  committed_index self false l = Done (4, false) ∧
  returns (committed_index self false l) (λ '(i, _), i ≤ u64_max ∧
    ∀ j, j ≤ u64_max → (j ≤ i ↔ joint_quorum_of self (acked_ge l j))).
Proof.
  intros o self l. split; [by vm_compute|]. apply joint_committed_index_spec.
  - split; vm_compute; discriminate.
  - intros v. unfold acked_or_default, acked_index, AckIndexer_acked, l.
    destruct (_ !! v) as [i|] eqn:E; [|done].
    rewrite !lookup_insert_Some, lookup_singleton_Some in E.
    destruct E as [[_ <-]|[_ [[_ <-]|[_ [[_ <-]|[_ [_ <-]]]]]]]; done.
Defined.

Lemma joint_vote_won_intersect_witness :
  let _ := elements_order in
  let self := mkJointConfig (mkConfiguration {[1; 2; 3]}) (mkConfiguration {[3; 4; 5]}) in
  let c1 v := Some (negb (v =? 1)) in
  let c2 v := Some (negb (v =? 4)) in
  quorum_of (incoming self) (voted c1 (Some true)) ∧
  ∃ v, v ∈ voters (incoming self) ∧ c1 v = Some true ∧ c2 v = Some true.
Proof.
  intros o self c1 c2. apply (joint_vote_won_intersect self c1 c2 (incoming self)).
  - split; vm_compute; discriminate.
  - by left.
  - vm_compute. discriminate.
  - by vm_compute.
  - by vm_compute.
Defined.

Lemma joint_vote_result_meaning_witness :
  let _ := elements_order in
  let self := mkJointConfig (mkConfiguration {[1; 2; 3]}) (mkConfiguration {[4; 5]}) in
  let check v := if v =? 3 then Some false else if v =? 1 then Some true else None in
  vote_result self check = Done Pending ∧
  returns (vote_result self check) (λ r,
    match r with
    | Won => ∀ check', extends check check' → vote_result self check' = Done Won
    | Lost => ∀ check', extends check check' → vote_result self check' = Done Lost
    | Pending => (∃ check', extends check check' ∧ vote_result self check' = Done Won) ∧
                 (∃ check', extends check check' ∧ vote_result self check' = Done Lost)
    end).
Proof.
  intros o self check. split; [by vm_compute|].
  apply joint_vote_result_meaning. split; vm_compute; discriminate.
Defined.
