(* ===== verification/Inflights.v ===== *)
(** * The window of in-flight messages ([src/tracker/inflights.rs])

    A ring buffer over a lazily allocated vector whose capacity can be changed
    while messages are in flight. [bcapacity] is [buffer.capacity()], as far as the
    [Vec] documentation fixes it: [with_capacity(n)] provides [n], an empty [vec![]]
    provides none, and [reserve] provides what was asked for. The theorems relate
    the ring buffer to a bounded queue. *)
From S2P Require Import Prelude Errors Proto Util.
#[local] Open Scope N_scope.

(** [struct Inflights] *)
Record Inflights := mkInflights {
  start : usize;
  count : usize;
  buffer : list u64;
  bcapacity : usize;
  cap : usize;
  incoming_cap : option usize }.
#[global] Instance Inflights_eq_dec : EqDecision Inflights.
Proof. solve_decision. Defined.

Definition new (cap : usize) : Inflights := mkInflights 0 0 [] cap cap None.

(** [Vec::reserve(additional)] on a vector of [n] elements *)
Definition reserve (capacity n additional : N) : outcome N :=
  m ← n +! additional; Done (N.max capacity m).

Definition set_cap (self : Inflights) (new_cap : usize) : outcome Inflights :=
  match N.compare (cap self) new_cap with
  | Eq => Done (mkInflights (start self) (count self) (buffer self) (bcapacity self) (cap self) None)
  | Lt =>
      e ← start self +! count self;
      if e <=? cap self then
        c ← (if 0 <? bcapacity self
             then additional ← new_cap -! len (buffer self);
                  reserve (bcapacity self) (len (buffer self)) additional
             else Done (bcapacity self));
        Done (mkInflights (start self) (count self) (buffer self) c new_cap None)
      else
        _ ← assert (cap self =? len (buffer self));
        b1 ← vslice_from (buffer self) (start self);
        d ← cap self -! start self;
        n ← count self -! d;
        b2 ← vslice (buffer self) 0 n;
        Done (mkInflights 0 (count self) (b1 ++ b2) new_cap new_cap None)
  | Gt =>
      if count self =? 0 then
        if 0 <? bcapacity self
        then Done (mkInflights 0 (count self) [] new_cap new_cap None)
        else Done (mkInflights 0 (count self) (buffer self) (bcapacity self) new_cap None)
      else Done (mkInflights (start self) (count self) (buffer self) (bcapacity self) (cap self)
                   (Some new_cap))
  end.

Definition full (self : Inflights) : bool :=
  (count self =? cap self) ||
  match incoming_cap self with Some c => c <=? count self | None => false end.

Definition add (self : Inflights) (inflight : u64) : outcome Inflights :=
  if full self then Panic Fatal
  else
    '(buf, bc) ←
      (if bcapacity self =? 0 then
         _ ← assert (count self =? 0);
         _ ← assert (start self =? 0);
         _ ← assert (bool_decide (incoming_cap self = None));
         Done ([], cap self)
       else Done (buffer self, bcapacity self));
    next ← start self +! count self;
    next ← (if cap self <=? next then next -! cap self else Done next);
    _ ← assert (next <=? len buf);
    let buf := if next =? len buf then buf ++ [inflight] else <[N.to_nat next := inflight]> buf in
    c ← count self +! 1;
    Done (mkInflights (start self) c buf bc (cap self) (incoming_cap self)).

(** The [while] loop of [free_to]; [n] is the number of entries not yet looked at. *)
Fixpoint free_loop (buf : list u64) (cap to : u64) (n : nat) (i idx : usize) : outcome (usize * usize) :=
  match n with
  | O => Done (i, idx)
  | S n =>
      x ← vindex buf idx;
      if to <? x then Done (i, idx)
      else
        idx ← idx +! 1;
        idx ← (if cap <=? idx then idx -! cap else Done idx);
        i ← i +! 1;
        free_loop buf cap to n i idx
  end.

Definition free_to (self : Inflights) (to : u64) : outcome Inflights :=
  left ← (if count self =? 0 then Done true
          else x ← vindex (buffer self) (start self); Done (to <? x));
  if (left : bool) then Done self
  else
    '(i, idx) ← free_loop (buffer self) (cap self) to (N.to_nat (count self)) 0 (start self);
    c ← count self -! i;
    match incoming_cap self with
    | Some ic =>
        if c =? 0 then Done (mkInflights 0 c [] ic ic None)
        else Done (mkInflights idx c (buffer self) (bcapacity self) (cap self) (Some ic))
    | None => Done (mkInflights idx c (buffer self) (bcapacity self) (cap self) None)
    end.

Definition free_first_one (self : Inflights) : outcome Inflights :=
  if 0 <? count self
  then x ← vindex (buffer self) (start self); free_to self x
  else Done self.

Definition reset (self : Inflights) : Inflights :=
  mkInflights 0 0 [] 0 (default (cap self) (incoming_cap self)) None.

Definition buffer_capacity (self : Inflights) : usize := bcapacity self.
Definition buffer_is_allocated (self : Inflights) : bool := 0 <? buffer_capacity self.

Definition maybe_free_buffer (self : Inflights) : Inflights :=
  if count self =? 0
  then mkInflights 0 (count self) [] 0 (cap self) (incoming_cap self)
  else self.

(** ** The abstract window

    A queue with a limit, and a smaller limit that takes over once the queue has
    drained. *)
Record Window := mkWindow {
  w_items : list N;
  w_cap : N;
  w_next_cap : option N }.

(** The operations of the window, as a client sees them. *)
Inductive op : Type :=
  | Add (x : N)
  | FreeTo (to : N)
  | FreeFirst
  | Reset
  | SetCap (c : N)
  | MaybeFreeBuffer.

Definition w_full (w : Window) : bool :=
  (len (w_items w) =? w_cap w) ||
  match w_next_cap w with Some c => c <=? len (w_items w) | None => false end.

Fixpoint drop_while_le (to : N) (l : list N) : list N :=
  match l with
  | [] => []
  | x :: l' => if to <? x then l else drop_while_le to l'
  end.

(** An emptied queue adopts the smaller limit. *)
Definition w_settle (w : Window) : Window :=
  match w_items w, w_next_cap w with
  | [], Some c => mkWindow [] c None
  | _, _ => w
  end.

Definition w_step (w : Window) (o : op) : outcome Window :=
  match o with
  | Add x => if w_full w then Panic Fatal
             else Done (mkWindow (w_items w ++ [x]) (w_cap w) (w_next_cap w))
  | FreeTo to => Done (w_settle (mkWindow (drop_while_le to (w_items w)) (w_cap w) (w_next_cap w)))
  | FreeFirst =>
      match w_items w with
      | [] => Done w
      | x :: _ => Done (w_settle (mkWindow (drop_while_le x (w_items w)) (w_cap w) (w_next_cap w)))
      end
  | Reset => Done (mkWindow [] (default (w_cap w) (w_next_cap w)) None)
  | SetCap c =>
      if w_cap w <=? c then Done (mkWindow (w_items w) c None)
      else Done (w_settle (mkWindow (w_items w) (w_cap w) (Some c)))
  | MaybeFreeBuffer => Done w
  end.

Definition step (s : Inflights) (o : op) : outcome Inflights :=
  match o with
  | Add x => add s x
  | FreeTo to => free_to s to
  | FreeFirst => free_first_one s
  | Reset => Done (reset s)
  | SetCap c => set_cap s c
  | MaybeFreeBuffer => Done (maybe_free_buffer s)
  end.

(** The queue that the ring buffer holds. *)
Definition contents (s : Inflights) : list N :=
  take (N.to_nat (count s)) (drop (N.to_nat (start s)) (buffer s) ++ buffer s).
Definition abs (s : Inflights) : Window := mkWindow (contents s) (cap s) (incoming_cap s).

(** A vector of [u64] has at most [isize::MAX / 8] elements. *)
Definition max_cap : N := 1152921504606846975.

(** The representation invariant. *)
Record inv (s : Inflights) : Prop := {
  inv_cap : cap s ≤ max_cap;
  inv_count : count s ≤ cap s;
  inv_start : start s < cap s ∨ start s = 0;
  inv_len : len (buffer s) ≤ cap s;
  inv_filled : start s + count s ≤ len (buffer s) ∨ len (buffer s) = cap s;
  inv_incoming : ∀ c, incoming_cap s = Some c → 0 < count s ∧ c < cap s;
  inv_alloc : if bcapacity s =? 0 then buffer s = [] ∧ count s = 0 ∧ start s = 0
              else cap s ≤ bcapacity s }.

Definition op_ok (o : op) : Prop :=
  match o with SetCap c => c ≤ max_cap | _ => True end.

(** ** Lemmas *)

(** Where the [i]-th message of the window is in the buffer. *)
Definition pos (s : Inflights) (i : N) : N :=
  if cap s <=? start s + i then start s + i - cap s else start s + i.

Lemma len_as_nat {A} (l : list A) : N.to_nat (len l) = length l.
Proof. unfold len. lia. Qed.

Section contents.
Context (s : Inflights) (Hinv : inv s).

Lemma contents_linear :
  start s + count s ≤ len (buffer s) →
  contents s = take (N.to_nat (count s)) (drop (N.to_nat (start s)) (buffer s)).
Proof using.
  intros. unfold contents. rewrite take_app_le; [done|]. rewrite length_drop, <-len_as_nat. lia.
Qed.

Lemma contents_wrapped :
  len (buffer s) ≤ start s + count s → start s ≤ len (buffer s) → count s ≤ len (buffer s) →
  contents s = drop (N.to_nat (start s)) (buffer s) ++
               take (N.to_nat (start s + count s - len (buffer s))) (buffer s).
Proof using.
  intros. unfold contents. rewrite take_app_ge by (rewrite length_drop, <-len_as_nat; lia).
  do 2 f_equal. rewrite length_drop, <-len_as_nat. lia.
Qed.

Lemma length_contents : length (contents s) = N.to_nat (count s).
Proof using Hinv.
  destruct Hinv as [? ? ? ? ? ? ?]. unfold contents.
  rewrite length_take, length_app, length_drop, <-len_as_nat. lia.
Qed.
Lemma len_contents : len (contents s) = count s.
Proof using Hinv. unfold len. rewrite length_contents. lia. Qed.

Lemma contents_lookup i :
  i < count s → contents s !! N.to_nat i = buffer s !! N.to_nat (pos s i).
Proof using Hinv.
  intros Hi. destruct Hinv as [? ? ? ? Hf ? ?]. unfold contents, pos.
  rewrite lookup_take_lt by lia.
  destruct (decide (start s + i < len (buffer s))) as [Hlt|Hge].
  - rewrite lookup_app_l by (rewrite length_drop, <-len_as_nat; lia).
    rewrite lookup_drop. f_equal. case_bools.
  - rewrite lookup_app_r by (rewrite length_drop, <-len_as_nat; lia).
    f_equal. rewrite length_drop, <-len_as_nat. case_bools.
Qed.

Lemma pos_in_buffer i : i < count s → pos s i < len (buffer s).
Proof using Hinv. destruct Hinv. intros. unfold pos. case_bools. Qed.

Lemma full_abs : full s = w_full (abs s).
Proof using Hinv. unfold full, w_full, abs; simpl. by rewrite len_contents. Qed.
End contents.

Lemma new_inv c : c ≤ max_cap → inv (new c) ∧ abs (new c) = mkWindow [] c None.
Proof.
  intros. split; [|done]. split; simpl; rewrite ?len_nil; try done; try lia; case_bools.
Qed.

(** *** [add] *)

Lemma add_linear_push (buf : list N) st n x :
  N.to_nat (st + n) = length buf →
  take (N.to_nat (n + 1)) (drop (N.to_nat st) (buf ++ [x])) =
  take (N.to_nat n) (drop (N.to_nat st) buf) ++ [x].
Proof.
  intros. rewrite drop_app_le by lia. rewrite take_app_ge by (rewrite length_drop; lia).
  rewrite (take_ge (drop _ _)) by (rewrite length_drop; lia). f_equal.
  rewrite length_drop. by replace (_ - _)%nat with 1%nat by lia.
Qed.

Lemma add_linear_overwrite (buf : list N) st n x :
  (N.to_nat (st + n) < length buf)%nat →
  take (N.to_nat (n + 1)) (drop (N.to_nat st) (<[N.to_nat (st + n) := x]> buf)) =
  take (N.to_nat n) (drop (N.to_nat st) buf) ++ [x].
Proof.
  intros. replace (N.to_nat (n + 1)) with (S (N.to_nat n)) by lia.
  rewrite (take_S_r _ _ x).
  - f_equal. rewrite drop_insert_ge by lia. rewrite take_insert_ge; [done|lia].
  - rewrite lookup_drop. replace (_ + _)%nat with (N.to_nat (st + n)) by lia.
    by apply list_lookup_insert_eq.
Qed.

Lemma add_wrapped_overwrite (buf : list N) st i x :
  (N.to_nat i < N.to_nat st)%nat → (N.to_nat i < length buf)%nat →
  drop (N.to_nat st) (<[N.to_nat i := x]> buf) ++ take (N.to_nat (i + 1)) (<[N.to_nat i := x]> buf) =
  (drop (N.to_nat st) buf ++ take (N.to_nat i) buf) ++ [x].
Proof.
  intros. rewrite drop_insert_lt by lia. rewrite <-app_assoc. f_equal.
  replace (N.to_nat (i + 1)) with (S (N.to_nat i)) by lia. rewrite (take_S_r _ _ x).
  - by rewrite take_insert_ge by lia.
  - by apply list_lookup_insert_eq.
Qed.

(** The buffer that [add] writes to, after its lazy allocation. *)
Lemma add_alloc s :
  inv s → count s ≠ cap s →
  returns (if bcapacity s =? 0
      then _ ← assert (count s =? 0); _ ← assert (start s =? 0);
           _ ← assert (bool_decide (incoming_cap s = None)); Done ([], cap s)
      else Done (buffer s, bcapacity s))
    (λ '(buf, bc), buf = buffer s ∧ cap s ≤ bc ∧ bc ≠ 0).
Proof.
  intros [Hcap Hcount Hstart Hlen Hfill Hinc Halloc] Hne.
  destruct (N.eqb_spec (bcapacity s) 0); [|by apply returns_Done].
  destruct Halloc as (-> & Hc & ->). rewrite Hc. simpl.
  destruct (incoming_cap s) as [n|] eqn:E; [destruct (Hinc n); done || lia|].
  apply returns_Done. split_and!; [done|lia|lia].
Qed.

Lemma add_spec s x :
  inv s → full s = false →
  returns (add s x) (λ s', inv s' ∧
    abs s' = mkWindow (contents s ++ [x]) (cap s) (incoming_cap s)).
Proof.
  intros Hinv Hfull. pose proof Hinv as [Hcap Hcount Hstart Hlen Hfill Hinc Halloc].
  unfold add. rewrite Hfull. unfold full in Hfull. apply orb_false_iff in Hfull as [Hne%N.eqb_neq Hic].
  unfold max_cap in *.
  destruct (add_alloc s Hinv Hne) as ([buf bc] & -> & -> & Hbc & Hbc0).
  simpl. rewrite (add64_ok (start s)), (add64_ok (count s)) by (unfold u64_max; lia). simpl.
  destruct (N.leb_spec (cap s) (start s + count s)) as [Hw|Hw]; simpl.
  - rewrite sub64_ok by lia. simpl. assert (len (buffer s) = cap s) as Hl by lia.
    rewrite (proj2 (N.leb_le _ _)), (proj2 (N.eqb_neq _ _)) by lia. simpl.
    apply returns_Done. pose proof (len_as_nat (buffer s)). split.
    + split; simpl; unfold len in *; rewrite ?length_insert; try lia; [unfold max_cap; lia| |].
      * intros c Hc. destruct (Hinc c Hc). lia.
      * by rewrite (proj2 (N.eqb_neq bc 0)).
    + unfold abs; simpl. f_equal.
      rewrite (contents_wrapped s), contents_wrapped; simpl;
        unfold len in *; rewrite ?length_insert; try lia.
      replace (start s + (count s + 1) - N.of_nat (length (buffer s)))
        with (start s + count s - cap s + 1) by lia.
      rewrite add_wrapped_overwrite by lia. do 3 f_equal. lia.
  - rewrite (proj2 (N.leb_le (start s + count s) (len (buffer s)))) by lia. simpl.
    apply returns_Done. pose proof (len_as_nat (buffer s)).
    destruct (N.eqb_spec (start s + count s) (len (buffer s))) as [Hp|Hp]; split.
    1, 3: split; simpl; unfold len in *; rewrite ?length_insert, ?length_app; simpl; try lia;
      [unfold max_cap; lia|intros c Hc; destruct (Hinc c Hc); lia|by rewrite (proj2 (N.eqb_neq bc 0))].
    all: unfold abs; simpl; f_equal; rewrite (contents_linear s), contents_linear; simpl;
      unfold len in *; rewrite ?length_insert, ?length_app; simpl; try lia.
    + apply add_linear_push. lia.
    + apply add_linear_overwrite. lia.
Qed.

(** *** [free_to] *)

Lemma free_loop_spec s to n i :
  inv s → N.of_nat n + i = count s →
  returns (free_loop (buffer s) (cap s) to n i (pos s i)) (λ '(i', idx),
    idx = pos s i' ∧ i ≤ i' ≤ count s ∧
    drop (N.to_nat i') (contents s) = drop_while_le to (drop (N.to_nat i) (contents s))).
Proof.
  intros Hinv. pose proof Hinv as [Hcap Hcount Hstart Hlen Hfill _ _]. revert i.
  induction n as [|n IH]; intros i Hi.
  { apply returns_Done. split_and!; [done|lia|lia|].
    rewrite drop_ge; [done|]. rewrite length_contents by done. lia. }
  cbn [free_loop].
  assert (i < count s) as Hic by lia.
  destruct (vindex_ok (buffer s) (pos s i)) as [x Hx]; [by apply pos_in_buffer|].
  rewrite Hx. simpl. apply vindex_Done in Hx. rewrite <-contents_lookup in Hx by done.
  rewrite (drop_S _ _ _ Hx). simpl. destruct (N.ltb_spec to x).
  { apply returns_Done. split_and!; [done|lia|lia|]. by rewrite (drop_S _ _ _ Hx). }
  unfold max_cap, u64_max in *. assert (pos s i < cap s) by (pose proof (pos_in_buffer s Hinv i Hic); lia).
  rewrite (add64_ok (pos s i)), (add64_ok i) by (unfold u64_max; lia). simpl.
  assert ((if cap s <=? pos s i + 1 then pos s i + 1 -! cap s else Done (pos s i + 1)) = Done (pos s (i + 1))) as ->.
  { unfold pos. case_bools; rewrite ?sub64_ok by lia; f_equal; lia. }
  simpl. destruct (IH (i + 1)) as ([i' idx] & -> & -> & ? & Hd); [lia|].
  eexists. split; [done|]. split_and!; [done|lia|lia|].
  rewrite Hd. do 2 f_equal. lia.
Qed.

(** Dropping the first [i] messages of a window. *)
Definition advanced (s : Inflights) (i : N) : Inflights :=
  mkInflights (pos s i) (count s - i) (buffer s) (bcapacity s) (cap s) (incoming_cap s).

Lemma advanced_spec s i :
  inv s → i ≤ count s → (i = count s → incoming_cap s = None) →
  0 < count s →
  inv (advanced s i) ∧ contents (advanced s i) = drop (N.to_nat i) (contents s).
Proof.
  intros Hinv Hi Hnone Hpos. pose proof Hinv as [Hcap Hcount Hstart Hlen Hfill Hinc Halloc].
  assert (inv (advanced s i)) as Hinv'.
  { unfold advanced, pos. split; simpl; try done; try lia.
    - case_bools.
    - case_bools.
    - intros c Hc. destruct (Hinc c Hc). split; [|done].
      assert (i ≠ count s) by (intros ->; by rewrite Hnone in Hc). lia.
    - destruct (bcapacity s =? 0); [|done]. lia. }
  split; [done|]. apply list_eq. intros k.
  rewrite lookup_drop. destruct (decide (N.of_nat k < count s - i)).
  - replace k with (N.to_nat (N.of_nat k)) by lia. rewrite contents_lookup by done.
    replace (N.to_nat i + _)%nat with (N.to_nat (i + N.of_nat k)) by lia.
    rewrite contents_lookup by (done || lia). f_equal. f_equal. unfold advanced, pos; simpl.
    repeat case_bool; lia.
  - rewrite !lookup_ge_None_2; [done|..]; rewrite length_contents by done; simpl; lia.
Qed.

Lemma free_to_spec s to :
  inv s →
  returns (free_to s to) (λ s', inv s' ∧
    abs s' = w_settle (mkWindow (drop_while_le to (contents s)) (cap s) (incoming_cap s))).
Proof.
  intros Hinv. pose proof Hinv as [Hcap Hcount Hstart Hlen Hfill Hinc Halloc]. unfold free_to.
  destruct (N.eqb_spec (count s) 0) as [Hc|Hc].
  { apply returns_Done. split; [done|]. unfold w_settle; simpl.
    assert (contents s = []) as Hnil by (apply len_0_iff; by rewrite len_contents).
    unfold abs. rewrite Hnil. simpl. destruct (incoming_cap s) as [c|] eqn:E; [|done].
    destruct (Hinc c); [done|lia]. }
  destruct (vindex_ok (buffer s) (pos s 0)) as [x Hx]; [apply pos_in_buffer; [done|lia]|].
  assert (pos s 0 = start s) as Hp0 by (unfold pos; case_bools).
  pose proof Hx as Hx0%vindex_Done. rewrite <-contents_lookup in Hx0 by (done || lia).
  rewrite <-Hp0, Hx. simpl.
  destruct (contents s) as [|y ys] eqn:Hcs; [done|]. simplify_eq/=.
  destruct (N.ltb_spec to x).
  { apply returns_Done. split; [done|]. unfold abs, w_settle. by rewrite Hcs. }
  destruct (free_loop_spec s to (N.to_nat (count s)) 0) as ([i idx] & -> & -> & Hi & Hd); [done|lia|].
  simpl. rewrite sub64_ok by lia. simpl.
  change (drop (N.to_nat 0) (contents s)) with (contents s) in Hd.
  rewrite Hcs in Hd at 2. simpl in Hd. rewrite (proj2 (N.ltb_ge to x)) in Hd by done.
  rewrite <-Hd. clear Hd.
  assert (len (drop (N.to_nat i) (contents s)) = count s - i) as Hld
    by (rewrite len_drop, len_contents; [lia|done]).
  destruct (decide (i = count s ∧ is_Some (incoming_cap s))) as [[Hic [c Hinc']]|Hn].
  - rewrite Hinc'. subst i. rewrite N.sub_diag in *. simpl. apply returns_Done.
    apply len_0_iff in Hld. rewrite Hld. destruct (Hinc c Hinc'). split; [|done].
    split; simpl; rewrite ?len_nil; try done; try lia; case_bools.
  - destruct (advanced_spec s i) as [Hinv' Hcon]; [done|lia| |lia|].
    { intros ->. destruct (incoming_cap s); [|done]. destruct Hn; eauto. }
    assert (∀ w, (drop (N.to_nat i) (contents s) = [] → incoming_cap s = None) →
      w = mkWindow (drop (N.to_nat i) (contents s)) (cap s) (incoming_cap s) → w = w_settle w) as Hset.
    { intros w Hw ->. unfold w_settle; simpl. destruct (drop _ _); [|done]. by rewrite Hw. }
    unfold abs, advanced in *; simpl in *.
    destruct (incoming_cap s) as [c|] eqn:E; [destruct (N.eqb_spec (count s - i) 0) as [Hz|Hz]|].
    + destruct Hn. split; [lia|eauto].
    + apply returns_Done. split; [done|]. rewrite Hcon. apply Hset; [|done].
      intros Hnil. rewrite Hnil in Hld. rewrite len_nil in Hld. lia.
    + apply returns_Done. split; [done|]. rewrite Hcon. by apply Hset.
Qed.

(** *** [set_cap], [reset], [maybe_free_buffer] *)

Lemma contents_empty s : inv s → count s = 0 → contents s = [].
Proof. intros Hinv Hc. apply len_0_iff. by rewrite len_contents. Qed.

(** Growing the window leaves its messages in place, unrolling a wrapped buffer. *)
Lemma set_cap_grow s c :
  inv s → cap s < c → c ≤ max_cap →
  returns (set_cap s c) (λ s', inv s' ∧ abs s' = mkWindow (contents s) c None).
Proof.
  intros Hinv Hc Hmax. pose proof Hinv as [Hcap Hcount Hstart Hlen Hfill Hinc Halloc].
  unfold set_cap. rewrite (proj2 (N.compare_lt_iff _ _)) by done.
  unfold max_cap in *. rewrite add64_ok by (unfold u64_max; lia). simpl.
  destruct (N.leb_spec (start s + count s) (cap s)) as [Hlin|Hwrap].
  - assert (returns (if 0 <? bcapacity s
        then additional ← c -! len (buffer s); reserve (bcapacity s) (len (buffer s)) additional
        else Done (bcapacity s)) (λ bc, if bcapacity s =? 0 then bc = 0 else c ≤ bc)) as (bc & -> & Hbc).
    { unfold reserve. destruct (N.ltb_spec 0 (bcapacity s)), (N.eqb_spec (bcapacity s) 0);
        try lia; [|by apply returns_Done].
      rewrite sub64_ok by lia. simpl. rewrite add64_ok by (unfold u64_max; lia).
      apply returns_Done. lia. }
    simpl. apply returns_Done. split; [|done].
    split; simpl; try done; try (unfold max_cap; lia).
    destruct (N.eqb_spec (bcapacity s) 0) as [|Hb]; case_bools.
  - assert (len (buffer s) = cap s) as Hl by lia.
    rewrite (proj2 (N.eqb_eq (cap s) (len (buffer s)))) by done. simpl.
    unfold vslice_from, vslice. rewrite (proj2 (N.leb_le (start s) (len (buffer s)))) by lia. simpl.
    rewrite !sub64_ok by lia. simpl.
    rewrite sub64_ok by lia. simpl.
    rewrite (proj2 (N.leb_le 0 _)), (proj2 (N.leb_le _ (len (buffer s)))) by lia. simpl.
    apply returns_Done. rewrite N.sub_0_r.
    pose proof (contents_wrapped s ltac:(lia) ltac:(lia) ltac:(lia)) as Hcon.
    replace (count s - (cap s - start s)) with (start s + count s - len (buffer s)) by lia.
    rewrite drop_0, <-Hcon. split.
    + split; simpl; rewrite ?len_contents by done; try done; try (unfold max_cap; lia).
      case_bools.
    + unfold abs; simpl. f_equal. unfold contents at 1; simpl.
      rewrite drop_0, take_app_le; rewrite ?length_contents by done; [|lia].
      apply take_ge. rewrite length_contents by done. lia.
Qed.

Lemma set_cap_spec s c :
  inv s → c ≤ max_cap →
  returns (set_cap s c) (λ s', inv s' ∧ Done (abs s') = w_step (abs s) (SetCap c)).
Proof.
  intros Hinv Hmax. simpl. destruct (N.lt_trichotomy (cap s) c) as [Hlt|[Heq|Hgt]].
  - eapply returns_mono; [by apply set_cap_grow|]. intros s' [? ->]. split; [done|]. case_bools.
  - unfold set_cap. rewrite (proj2 (N.compare_eq_iff _ _)) by done.
    apply returns_Done. pose proof Hinv as [? ? ? ? ? ? ?]. split; [by split|]. subst. case_bools.
  - unfold set_cap. rewrite (proj2 (N.compare_gt_iff _ _)) by done.
    rewrite (proj2 (N.leb_gt _ _)) by done.
    pose proof Hinv as [Hcap Hcount Hstart Hlen Hfill Hinc Halloc].
    destruct (N.eqb_spec (count s) 0) as [Hz|Hz].
    + rewrite (contents_empty s Hinv Hz). unfold w_settle, abs; simpl.
      destruct (N.ltb_spec 0 (bcapacity s)); apply returns_Done.
      * split; [split; simpl; rewrite ?len_nil; try done; try lia; case_bools|].
        by rewrite Hz.
      * assert (bcapacity s = 0) as Hb by lia. rewrite Hb in Halloc. destruct Halloc as (Hbuf & _ & _).
        rewrite Hb, Hbuf. split; [split; simpl; rewrite ?len_nil; try done; try lia|by rewrite Hz].
    + apply returns_Done. split; [split; simpl; try done; intros ? [= <-]; lia|].
      unfold w_settle, abs; simpl. unfold contents; simpl. fold (contents s).
      destruct (contents s) eqn:E; [|done]. pose proof (len_contents s Hinv) as Hlc.
      rewrite E, len_nil in Hlc. lia.
Qed.

Lemma free_first_one_spec s :
  inv s → returns (free_first_one s) (λ s', inv s' ∧ Done (abs s') = w_step (abs s) FreeFirst).
Proof.
  intros Hinv. unfold free_first_one. simpl. pose proof (len_contents s Hinv) as Hlc.
  destruct (contents s) as [|x xs] eqn:E.
  { rewrite len_nil in Hlc. rewrite <-Hlc. by apply returns_Done. }
  rewrite len_cons in Hlc. rewrite (proj2 (N.ltb_lt 0 (count s))) by lia.
  pose proof (contents_lookup s Hinv 0 ltac:(lia)) as H0. rewrite E in H0. simpl in H0.
  assert (pos s 0 = start s) as Hp by (destruct Hinv; unfold pos; case_bools).
  rewrite Hp in H0. unfold vindex. rewrite <-H0. simpl.
  eapply returns_mono; [by apply free_to_spec|]. intros s' [? ->]. by rewrite E.
Qed.

Lemma reset_spec s : inv s → inv (reset s) ∧ Done (abs (reset s)) = w_step (abs s) Reset.
Proof.
  intros [Hcap Hcount Hstart Hlen Hfill Hinc Halloc]. split; [|done].
  assert (default (cap s) (incoming_cap s) ≤ cap s).
  { destruct (incoming_cap s) as [c|]; simpl; [|lia]. destruct (Hinc c); [done|lia]. }
  split; simpl; rewrite ?len_nil; try done; try lia.
Qed.

Lemma maybe_free_buffer_spec s :
  inv s → inv (maybe_free_buffer s) ∧ abs (maybe_free_buffer s) = abs s.
Proof.
  intros Hinv. unfold maybe_free_buffer. destruct (N.eqb_spec (count s) 0) as [Hz|]; [|done].
  pose proof Hinv as [Hcap Hcount Hstart Hlen Hfill Hinc Halloc]. split.
  - split; simpl; rewrite ?len_nil; try done; lia.
  - unfold abs. rewrite (contents_empty s Hinv Hz). simpl. by rewrite Hz.
Qed.

(** C28: the ring buffer implements the bounded window: from a well-formed state,
    every operation that the window allows succeeds, keeps the representation
    invariant and commutes with the abstraction, and [add] panics exactly when
    the window is full (nothing else panics). *)
Theorem inflights_refines_window s o :
  inv s → op_ok o →
  match w_step (abs s) o with
  | Done w' => returns (step s o) (λ s', inv s' ∧ abs s' = w')
  | Panic p => step s o = Panic p
  | NoFuel => False
  end.
Proof.
  intros Hinv Hok.
  assert (∀ m w, returns m (λ s', inv s' ∧ Done (abs s') = w) →
    match w with Done w' => returns m (λ s', inv s' ∧ abs s' = w') | Panic p => m = Panic p | NoFuel => False end)
    as Hret. { intros m w (s' & -> & ? & <-). by apply returns_Done. }
  destruct o as [x|to| | |c|]; simpl in Hok; unfold step.
  - simpl. rewrite <-full_abs by done. destruct (full s) eqn:Hf; [|by apply add_spec].
    unfold add. by rewrite Hf.
  - by apply free_to_spec.
  - by apply Hret, free_first_one_spec.
  - by apply Hret, returns_Done, reset_spec.
  - by apply Hret, set_cap_spec.
  - by apply returns_Done, maybe_free_buffer_spec.
Qed.

(** An increasing window is freed exactly up to the acknowledged index. *)
Lemma drop_while_le_sorted to l :
  StronglySorted N.lt l → drop_while_le to l = filter (λ x, to < x) l.
Proof.
  induction 1 as [|x l Hl IH Hx]; simpl; [done|]. destruct (N.ltb_spec to x).
  - rewrite filter_cons_True by done. f_equal. symmetry. apply filter_all.
    rewrite Forall_forall in Hx. intros y Hy. specialize (Hx y Hy). lia.
  - by rewrite filter_cons_False by lia.
Qed.

Lemma inflights_refines_window_witness :
  let s := mkInflights 2 2 [7; 8; 5; 6] 4 4 (Some 2) in
  w_step (abs s) (FreeTo 6) = Done (mkWindow [] 2 None) ∧
  match w_step (abs s) (FreeTo 6) with
  | Done w' => returns (step s (FreeTo 6)) (λ s', inv s' ∧ abs s' = w')
  | Panic p => step s (FreeTo 6) = Panic p
  | NoFuel => False
  end.
Proof.
  intros s. split; [reflexivity|]. apply inflights_refines_window; [|done].
  split; simpl; try done; try (vm_compute; intuition discriminate).
  intros c [= <-]. done.
Defined.
