(* ===== verification/Progress.v ===== *)
(** * Replication progress of one peer ([src/tracker/progress.rs], [src/tracker/state.rs]) *)
From S2P Require Import Prelude Errors Proto Util.
From S2P Require Inflights.
#[local] Open Scope N_scope.

Abbreviation Inflights := Inflights.Inflights.

(** [INVALID_ID] and [INVALID_INDEX] of [src/raft.rs] *)
Definition INVALID_ID : u64 := 0.
Definition INVALID_INDEX : u64 := 0.

(** [enum ProgressState] *)
Inductive ProgressState : Set := Probe | Replicate | Snapshot.
#[global] Instance ProgressState_eq_dec : EqDecision ProgressState.
Proof. solve_decision. Defined.

(** [struct Progress] *)
Record Progress := mkProgress {
  pr_matched : u64;
  pr_next_idx : u64;
  pr_state : ProgressState;
  pr_paused : bool;
  pr_pending_snapshot : u64;
  pr_pending_request_snapshot : u64;
  pr_recent_active : bool;
  pr_ins : Inflights;
  pr_commit_group_id : u64;
  pr_committed_index : u64 }.
#[global] Instance Progress_eq_dec : EqDecision Progress.
Proof. solve_decision. Defined.

(** Assignments to one field. *)
Definition set_pr_matched (v : u64) (r : Progress) : Progress :=
  mkProgress v (pr_next_idx r) (pr_state r) (pr_paused r) (pr_pending_snapshot r) (pr_pending_request_snapshot r) (pr_recent_active r) (pr_ins r) (pr_commit_group_id r) (pr_committed_index r).
Definition set_pr_next_idx (v : u64) (r : Progress) : Progress :=
  mkProgress (pr_matched r) v (pr_state r) (pr_paused r) (pr_pending_snapshot r) (pr_pending_request_snapshot r) (pr_recent_active r) (pr_ins r) (pr_commit_group_id r) (pr_committed_index r).
Definition set_pr_state (v : ProgressState) (r : Progress) : Progress :=
  mkProgress (pr_matched r) (pr_next_idx r) v (pr_paused r) (pr_pending_snapshot r) (pr_pending_request_snapshot r) (pr_recent_active r) (pr_ins r) (pr_commit_group_id r) (pr_committed_index r).
Definition set_pr_paused (v : bool) (r : Progress) : Progress :=
  mkProgress (pr_matched r) (pr_next_idx r) (pr_state r) v (pr_pending_snapshot r) (pr_pending_request_snapshot r) (pr_recent_active r) (pr_ins r) (pr_commit_group_id r) (pr_committed_index r).
Definition set_pr_pending_snapshot (v : u64) (r : Progress) : Progress :=
  mkProgress (pr_matched r) (pr_next_idx r) (pr_state r) (pr_paused r) v (pr_pending_request_snapshot r) (pr_recent_active r) (pr_ins r) (pr_commit_group_id r) (pr_committed_index r).
Definition set_pr_pending_request_snapshot (v : u64) (r : Progress) : Progress :=
  mkProgress (pr_matched r) (pr_next_idx r) (pr_state r) (pr_paused r) (pr_pending_snapshot r) v (pr_recent_active r) (pr_ins r) (pr_commit_group_id r) (pr_committed_index r).
Definition set_pr_recent_active (v : bool) (r : Progress) : Progress :=
  mkProgress (pr_matched r) (pr_next_idx r) (pr_state r) (pr_paused r) (pr_pending_snapshot r) (pr_pending_request_snapshot r) v (pr_ins r) (pr_commit_group_id r) (pr_committed_index r).
Definition set_pr_ins (v : Inflights) (r : Progress) : Progress :=
  mkProgress (pr_matched r) (pr_next_idx r) (pr_state r) (pr_paused r) (pr_pending_snapshot r) (pr_pending_request_snapshot r) (pr_recent_active r) v (pr_commit_group_id r) (pr_committed_index r).
Definition set_pr_commit_group_id (v : u64) (r : Progress) : Progress :=
  mkProgress (pr_matched r) (pr_next_idx r) (pr_state r) (pr_paused r) (pr_pending_snapshot r) (pr_pending_request_snapshot r) (pr_recent_active r) (pr_ins r) v (pr_committed_index r).
Definition set_pr_committed_index (v : u64) (r : Progress) : Progress :=
  mkProgress (pr_matched r) (pr_next_idx r) (pr_state r) (pr_paused r) (pr_pending_snapshot r) (pr_pending_request_snapshot r) (pr_recent_active r) (pr_ins r) (pr_commit_group_id r) v.

Definition new (next_idx : u64) (ins_size : usize) : Progress :=
  mkProgress 0 next_idx Probe false 0 0 false (Inflights.new ins_size) 0 0.

Definition reset_state (state : ProgressState) (self : Progress) : Progress :=
  let self := set_pr_paused false self in
  let self := set_pr_pending_snapshot 0 self in
  let self := set_pr_state state self in
  set_pr_ins (Inflights.reset (pr_ins self)) self.

Definition reset (next_idx : u64) (self : Progress) : Progress :=
  let self := set_pr_matched 0 self in
  let self := set_pr_next_idx next_idx self in
  let self := set_pr_state Probe self in
  let self := set_pr_paused false self in
  let self := set_pr_pending_snapshot 0 self in
  let self := set_pr_pending_request_snapshot INVALID_INDEX self in
  let self := set_pr_recent_active false self in
  set_pr_ins (Inflights.reset (pr_ins self)) self.

Definition become_probe (self : Progress) : outcome Progress :=
  if bool_decide (pr_state self = Snapshot) then
    let pending_snapshot := pr_pending_snapshot self in
    let self := reset_state Probe self in
    a ← pr_matched self +! 1;
    b ← pending_snapshot +! 1;
    Done (set_pr_next_idx (N.max a b) self)
  else
    let self := reset_state Probe self in
    a ← pr_matched self +! 1;
    Done (set_pr_next_idx a self).

Definition become_replicate (self : Progress) : outcome Progress :=
  let self := reset_state Replicate self in
  a ← pr_matched self +! 1;
  Done (set_pr_next_idx a self).

Definition become_snapshot (snapshot_idx : u64) (self : Progress) : Progress :=
  set_pr_pending_snapshot snapshot_idx (reset_state Snapshot self).

Definition snapshot_failure (self : Progress) : Progress := set_pr_pending_snapshot 0 self.

Definition is_snapshot_caught_up (self : Progress) : bool :=
  bool_decide (pr_state self = Snapshot) && (pr_pending_snapshot self <=? pr_matched self).

Definition resume (self : Progress) : Progress := set_pr_paused false self.
Definition pause (self : Progress) : Progress := set_pr_paused true self.

Definition maybe_update (n : u64) (self : Progress) : outcome (Progress * bool) :=
  let need_update := pr_matched self <? n in
  let self := if need_update then resume (set_pr_matched n self) else self in
  n1 ← n +! 1;
  let self := if pr_next_idx self <? n1 then set_pr_next_idx n1 self else self in
  Done (self, need_update).

Definition update_committed (committed_index : u64) (self : Progress) : Progress :=
  if pr_committed_index self <? committed_index
  then set_pr_committed_index committed_index self else self.

Definition optimistic_update (n : u64) (self : Progress) : outcome Progress :=
  a ← n +! 1; Done (set_pr_next_idx a self).

Definition maybe_decr_to (rejected match_hint request_snapshot : u64) (self : Progress)
    : outcome (Progress * bool) :=
  if bool_decide (pr_state self = Replicate) then
    if (rejected <? pr_matched self)
       || ((rejected =? pr_matched self) && (request_snapshot =? INVALID_INDEX))
    then Done (self, false)
    else if request_snapshot =? INVALID_INDEX
    then a ← pr_matched self +! 1; Done (set_pr_next_idx a self, true)
    else Done (set_pr_pending_request_snapshot request_snapshot self, true)
  else
    stale ← (if pr_next_idx self =? 0 then Done true
             else p ← pr_next_idx self -! 1; Done (negb (p =? rejected)));
    if stale && (request_snapshot =? INVALID_INDEX) then Done (self, false)
    else
      self ← (if request_snapshot =? INVALID_INDEX then
                h ← match_hint +! 1;
                let self := set_pr_next_idx (N.min rejected h) self in
                a ← pr_matched self +! 1;
                Done (if pr_next_idx self <? a then set_pr_next_idx a self else self)
              else if pr_pending_request_snapshot self =? INVALID_INDEX
              then Done (set_pr_pending_request_snapshot request_snapshot self)
              else Done self);
      Done (resume self, true).

Definition is_paused (self : Progress) : bool :=
  match pr_state self with
  | Probe => pr_paused self
  | Replicate => Inflights.full (pr_ins self)
  | Snapshot => true
  end.

Definition update_state (last : u64) (self : Progress) : outcome Progress :=
  match pr_state self with
  | Replicate =>
      self ← optimistic_update last self;
      ins ← Inflights.add (pr_ins self) last;
      Done (set_pr_ins ins self)
  | Probe => Done (pause self)
  | Snapshot => Panic Fatal
  end.

(** ** Specification *)

(** What a leader may do to the progress of a peer, in any order. *)
Inductive op : Type :=
  | BecomeProbe | BecomeReplicate | BecomeSnapshot (i : u64) | SnapshotFailure
  | MaybeUpdate (n : u64) | UpdateCommitted (c : u64) | OptimisticUpdate (n : u64)
  | MaybeDecrTo (rejected match_hint request_snapshot : u64)
  | Resume | Pause | UpdateState (last : u64).

Definition step (o : op) (self : Progress) : outcome Progress :=
  match o with
  | BecomeProbe => become_probe self
  | BecomeReplicate => become_replicate self
  | BecomeSnapshot i => Done (become_snapshot i self)
  | SnapshotFailure => Done (snapshot_failure self)
  | MaybeUpdate n => fst <$> maybe_update n self
  | UpdateCommitted c => Done (update_committed c self)
  | OptimisticUpdate n => optimistic_update n self
  | MaybeDecrTo r h s => fst <$> maybe_decr_to r h s self
  | Resume => Done (resume self)
  | Pause => Done (pause self)
  | UpdateState last => update_state last self
  end.

(** The leader never believes a peer to have matched the next entry to send. *)
Record wf (self : Progress) : Prop := {
  wf_next : pr_matched self < pr_next_idx self;
  wf_next_bound : pr_next_idx self ≤ u64_max;
  wf_pending : pr_pending_snapshot self < u64_max;
  wf_ins : Inflights.inv (pr_ins self) }.

(** The arguments are log positions below the last [u64], and what is sent
    optimistically lies beyond what is matched. *)
Definition op_ok (self : Progress) (o : op) : Prop :=
  match o with
  | BecomeSnapshot i => i < u64_max
  | MaybeUpdate n => n < u64_max
  | OptimisticUpdate n | UpdateState n => pr_matched self ≤ n < u64_max
  | MaybeDecrTo r h s => h < u64_max
  | _ => True
  end.

(** The operations that panic by design: recording a sent message for a peer that
    is receiving a snapshot, or whose window is full. *)
Definition op_panics (self : Progress) (o : op) : bool :=
  match o with
  | UpdateState _ =>
      match pr_state self with
      | Snapshot => true | Replicate => Inflights.full (pr_ins self) | Probe => false
      end
  | _ => false
  end.

(** ** Lemmas *)

Lemma reset_ins_inv self : Inflights.inv (pr_ins self) → Inflights.inv (Inflights.reset (pr_ins self)).
Proof. apply Inflights.reset_spec. Qed.
#[export] Hint Resolve reset_ins_inv : raft.

(** Runs the checked additions of the code and solves what the tests leave: a
    well-formedness goal field by field, an equation or a comparison by [lia]. *)
Ltac run_progress :=
  repeat (case_bools; rewrite ?sub64_ok, ?add64_ok by (unfold u64_max in *; lia); simpl).
Ltac solve_progress :=
  apply returns_Done; split_and?;
  first [done | lia | constructor; simpl; unfold u64_max in *; auto with raft; lia | idtac].

Section progress_ops.
Context (self : Progress) (Hwf : wf self).

Lemma maybe_decr_to_wf rejected match_hint request_snapshot :
  match_hint < u64_max →
  returns (maybe_decr_to rejected match_hint request_snapshot self) (λ '(self', changed),
    wf self' ∧ pr_matched self' = pr_matched self).
Proof.
  intros Hh. destruct Hwf. unfold maybe_decr_to, INVALID_INDEX.
  run_progress; solve_progress.
Qed.

(** Acknowledging [n] raises both positions as far as needed, and resumes
    sending exactly when the acknowledgement is news. *)
Lemma maybe_update_spec n :
  n < u64_max →
  returns (maybe_update n self) (λ '(self', updated),
    wf self' ∧ updated = (pr_matched self <? n) ∧
    pr_matched self' = N.max (pr_matched self) n ∧
    pr_next_idx self' = N.max (pr_next_idx self) (n + 1) ∧
    pr_paused self' = pr_paused self && negb updated ∧
    pr_state self' = pr_state self ∧ pr_ins self' = pr_ins self).
Proof.
  intros Hn. destruct Hwf. unfold maybe_update.
  run_progress; solve_progress; simpl; rewrite ?andb_true_r, ?andb_false_r; done || lia.
Qed.

(** Changing state empties the window and restarts from the matched position. *)
Lemma become_wf o :
  o = BecomeProbe ∨ o = BecomeReplicate →
  returns (step o self) (λ self', wf self' ∧ pr_matched self' = pr_matched self ∧
    Inflights.contents (pr_ins self') = []).
Proof.
  intros Ho. destruct Hwf. destruct (Inflights.reset_spec _ wf_ins0) as [Hi _].
  unfold step, become_probe, become_replicate.
  destruct Ho as [->| ->]; run_progress; solve_progress; simpl; auto.
Qed.

Lemma update_state_wf last :
  pr_matched self ≤ last < u64_max →
  if op_panics self (UpdateState last) then ∃ p, update_state last self = Panic p
  else returns (update_state last self) (λ self', wf self' ∧ pr_matched self' = pr_matched self).
Proof.
  intros Hl. destruct Hwf. unfold update_state, optimistic_update, op_panics.
  destruct (pr_state self); [solve_progress| |by eexists].
  rewrite add64_ok by (unfold u64_max in *; lia); simpl.
  destruct (Inflights.full (pr_ins self)) eqn:Hf.
  - unfold Inflights.add. rewrite Hf. by eexists.
  - destruct (Inflights.add_spec (pr_ins self) last wf_ins0 Hf) as (ins & -> & Hi & _); simpl.
    solve_progress.
Qed.
End progress_ops.

(** C32: whatever a leader does to the progress of a peer, the next index to send
    stays above the matched index, the in-flight window stays consistent and the
    matched index never goes back; the only panics are recording a message sent
    to a peer in snapshot state or with a full window. *)
Theorem progress_step_invariant self o :
  wf self → op_ok self o →
  if op_panics self o then ∃ p, step o self = Panic p
  else returns (step o self) (λ self', wf self' ∧ pr_matched self ≤ pr_matched self').
Proof.
  intros Hwf Hok.
  assert (∀ m, returns m (λ self', wf self' ∧ pr_matched self' = pr_matched self) →
    returns m (λ self', wf self' ∧ pr_matched self ≤ pr_matched self')) as Hmono.
  { intros m Hm. eapply returns_mono; [done|]. simpl. intros ? [? ->]. split; [done|lia]. }
  destruct o; simpl in Hok |- *; pose proof Hwf as [].
  - apply Hmono. eapply returns_mono; [apply (become_wf self Hwf BecomeProbe); auto|]. naive_solver.
  - apply Hmono. eapply returns_mono; [apply (become_wf self Hwf BecomeReplicate); auto|]. naive_solver.
  - solve_progress.
  - solve_progress.
  - apply returns_fst. eapply returns_mono; [by apply maybe_update_spec|].
    intros [self' u] (? & _ & -> & _). split; [done|lia].
  - unfold update_committed. case_bools; solve_progress.
  - unfold optimistic_update. run_progress. solve_progress.
  - apply Hmono, returns_fst. by apply maybe_decr_to_wf.
  - solve_progress.
  - solve_progress.
  - pose proof (update_state_wf self Hwf _ Hok) as Hu. simpl in Hu.
    destruct (match pr_state self with Probe => _ | _ => _ end); auto.
Qed.

(** a rejection that answers the probe in flight moves the probe strictly
    backwards, to the follower's hint but never below the first unmatched entry,
    and lets the leader send again; a stale rejection changes nothing. *)
Theorem maybe_decr_to_probe self rejected match_hint :
  wf self → pr_state self ≠ Replicate → match_hint < u64_max →
  returns (maybe_decr_to rejected match_hint INVALID_INDEX self) (λ '(self', changed),
    if bool_decide (pr_next_idx self = rejected + 1) then
      changed = true ∧ pr_paused self' = false ∧ pr_matched self' = pr_matched self ∧
      pr_next_idx self' = N.max (N.min rejected (match_hint + 1)) (pr_matched self + 1) ∧
      (pr_matched self + 1 < pr_next_idx self → pr_next_idx self' < pr_next_idx self)
    else changed = false ∧ self' = self).
Proof.
  intros [] Hs Hh. unfold maybe_decr_to, INVALID_INDEX.
  run_progress; solve_progress; simpl; case_bools; split_and?; done || lia.
Qed.

(** ** Witnesses *)

Lemma progress_step_invariant_witness :
  let self := become_snapshot 7 (set_pr_matched 3 (new 9 4)) in
  (wf self ∧ op_ok self BecomeProbe) ∧
  returns (step BecomeProbe self) (λ self', wf self' ∧ pr_matched self ≤ pr_matched self').
Proof.
  intros self.
  assert (wf self) as Hwf.
  { constructor; [by vm_compute..|]. apply Inflights.reset_spec, Inflights.new_inv. by vm_compute. }
  split; [by split|]. by apply (progress_step_invariant self BecomeProbe).
Defined.

Lemma maybe_decr_to_probe_witness :
  let self := pause (set_pr_matched 3 (new 9 4)) in
  maybe_decr_to 8 5 INVALID_INDEX self = Done (set_pr_next_idx 6 (resume self), true) ∧
  returns (maybe_decr_to 8 5 INVALID_INDEX self) (λ '(self', changed),
    if bool_decide (pr_next_idx self = 8 + 1) then
      changed = true ∧ pr_paused self' = false ∧ pr_matched self' = pr_matched self ∧
      pr_next_idx self' = N.max (N.min 8 (5 + 1)) (pr_matched self + 1) ∧
      (pr_matched self + 1 < pr_next_idx self → pr_next_idx self' < pr_next_idx self)
    else changed = false ∧ self' = self).
Proof.
  intros self. split; [by vm_compute|]. apply maybe_decr_to_probe; [|done|by vm_compute].
  constructor; [by vm_compute..|]. apply Inflights.new_inv. by vm_compute.
Defined.
