(* ===== verification/Tracker.v ===== *)
(** * Progress tracker ([src/tracker.rs])

    The configuration in force (voters of both halves, learners, staged
    learners), the progress of every peer, and the votes of the current
    election. *)
From S2P Require Import Prelude Errors Proto Util Quorum Majority Joint Progress.
#[local] Open Scope N_scope.

(** [struct Configuration] *)
Record Configuration := mkConfiguration {
  c_voters : JointConfig;
  c_learners : gset N;
  c_learners_next : gset N;
  c_auto_leave : bool }.
#[global] Instance Configuration_eq_dec : EqDecision Configuration.
Proof. solve_decision. Defined.

Definition set_c_voters (v : JointConfig) (r : Configuration) : Configuration :=
  mkConfiguration v (c_learners r) (c_learners_next r) (c_auto_leave r).
Definition set_c_learners (v : gset N) (r : Configuration) : Configuration :=
  mkConfiguration (c_voters r) v (c_learners_next r) (c_auto_leave r).
Definition set_c_learners_next (v : gset N) (r : Configuration) : Configuration :=
  mkConfiguration (c_voters r) (c_learners r) v (c_auto_leave r).
Definition set_c_auto_leave (v : bool) (r : Configuration) : Configuration :=
  mkConfiguration (c_voters r) (c_learners r) (c_learners_next r) v.

(** [type ProgressMap] *)
Abbreviation ProgressMap := (gmap N Progress).

(** [impl AckedIndexer for ProgressMap] *)
#[global] Instance ProgressMap_acked : AckedIndexer ProgressMap := λ m voter_id,
  (λ p, mkIndex (pr_matched p) (pr_commit_group_id p)) <$> m !! voter_id.

(** [struct ProgressTracker] *)
Record ProgressTracker := mkProgressTracker {
  pt_progress : ProgressMap;
  pt_conf : Configuration;
  pt_votes : gmap N bool;
  pt_max_inflight : usize;
  pt_group_commit : bool }.

Definition set_pt_progress (v : ProgressMap) (r : ProgressTracker) : ProgressTracker :=
  mkProgressTracker v (pt_conf r) (pt_votes r) (pt_max_inflight r) (pt_group_commit r).
Definition set_pt_conf (v : Configuration) (r : ProgressTracker) : ProgressTracker :=
  mkProgressTracker (pt_progress r) v (pt_votes r) (pt_max_inflight r) (pt_group_commit r).
Definition set_pt_votes (v : gmap N bool) (r : ProgressTracker) : ProgressTracker :=
  mkProgressTracker (pt_progress r) (pt_conf r) v (pt_max_inflight r) (pt_group_commit r).
Definition set_pt_max_inflight (v : usize) (r : ProgressTracker) : ProgressTracker :=
  mkProgressTracker (pt_progress r) (pt_conf r) (pt_votes r) v (pt_group_commit r).
Definition set_pt_group_commit (v : bool) (r : ProgressTracker) : ProgressTracker :=
  mkProgressTracker (pt_progress r) (pt_conf r) (pt_votes r) (pt_max_inflight r) v.

(** [Configuration::new], [with_capacity], [clear] *)
Definition Configuration_new (voters learners : list u64) : Configuration :=
  mkConfiguration (Joint.new (list_to_set voters)) (list_to_set learners) ∅ false.
Definition Configuration_with_capacity (voters learners : usize) : Configuration :=
  mkConfiguration (Joint.with_capacity voters) ∅ ∅ false.
Definition Configuration_clear (self : Configuration) : Configuration :=
  mkConfiguration (Joint.clear (c_voters self)) ∅ ∅ false.

(** [enum MapChangeType] and [type MapChange] of [src/confchange/changer.rs] *)
Inductive MapChangeType : Set := Add | Remove.
Abbreviation MapChange := (list (u64 * MapChangeType)).

Definition with_capacity (voters learners max_inflight : usize) : outcome ProgressTracker :=
  _ ← voters +! learners;
  Done (mkProgressTracker ∅ (Configuration_with_capacity voters learners) ∅ max_inflight false).
Definition new (max_inflight : usize) : outcome ProgressTracker :=
  with_capacity 0 0 max_inflight.

Definition enable_group_commit (enable : bool) (self : ProgressTracker) : ProgressTracker :=
  set_pt_group_commit enable self.
Definition clear (self : ProgressTracker) : ProgressTracker :=
  let self := set_pt_progress ∅ self in
  let self := set_pt_conf (Configuration_clear (pt_conf self)) self in
  set_pt_votes ∅ self.
Definition is_singleton (self : ProgressTracker) : bool :=
  Joint.is_singleton (c_voters (pt_conf self)).
Definition get (id : u64) (self : ProgressTracker) : option Progress := pt_progress self !! id.
(** Writing back through the reference that [get_mut] returned. *)
Definition put (id : u64) (pr : Progress) (self : ProgressTracker) : ProgressTracker :=
  set_pt_progress (<[id := pr]> (pt_progress self)) self.
Definition reset_votes (self : ProgressTracker) : ProgressTracker := set_pt_votes ∅ self.
Definition record_vote (id : u64) (vote : bool) (self : ProgressTracker) : ProgressTracker :=
  match pt_votes self !! id with
  | Some _ => self
  | None => set_pt_votes (<[id := vote]> (pt_votes self)) self
  end.

(** The loop of [apply_conf] over the recorded changes. *)
Definition apply_change (next_idx : u64) (self : ProgressTracker) (c : u64 * MapChangeType)
    : ProgressTracker :=
  match c with
  | (id, Add) =>
      let pr := Progress.new next_idx (pt_max_inflight self) in
      let pr := set_pr_recent_active true pr in
      put id pr self
  | (id, Remove) => set_pt_progress (delete id (pt_progress self)) self
  end.
Definition apply_conf (conf : Configuration) (changes : MapChange) (next_idx : u64)
    (self : ProgressTracker) : ProgressTracker :=
  foldl (apply_change next_idx) (set_pt_conf conf self) changes.

Section with_order.
Context `{HashOrder}.

Definition to_conf_state (self : Configuration) : ConfState :=
  mkConfState (raw_slice (incoming (c_voters self))) (iter_set (c_learners self))
    (raw_slice (outgoing (c_voters self))) (iter_set (c_learners_next self))
    (c_auto_leave self).

Definition maximal_committed_index (self : ProgressTracker) : outcome (u64 * bool) :=
  Joint.committed_index (c_voters (pt_conf self)) (pt_group_commit self) (pt_progress self).

Definition vote_result (votes : gmap N bool) (self : ProgressTracker) : outcome VoteResult :=
  Joint.vote_result (c_voters (pt_conf self)) (λ id, votes !! id).

(** The counting loop of [tally_votes]. *)
Fixpoint tally_loop (voters : JointConfig) (granted rejected : usize) (votes : list (N * bool))
    : outcome (usize * usize) :=
  match votes with
  | [] => Done (granted, rejected)
  | (id, vote) :: votes =>
      if negb (Joint.contains voters id) then tally_loop voters granted rejected votes
      else if (vote : bool) then granted ← granted +! 1; tally_loop voters granted rejected votes
      else rejected ← rejected +! 1; tally_loop voters granted rejected votes
  end.
Definition tally_votes (self : ProgressTracker) : outcome (usize * usize * VoteResult) :=
  '(granted, rejected) ← tally_loop (c_voters (pt_conf self)) 0 0 (iter_map (pt_votes self));
  result ← vote_result (pt_votes self) self;
  Done (granted, rejected, result).

Definition has_quorum (potential_quorum : gset N) (self : ProgressTracker) : outcome bool :=
  r ← Joint.vote_result (c_voters (pt_conf self))
        (λ id, if bool_decide (id ∈ potential_quorum) then Some true else None);
  Done (bool_decide (r = Won)).

(** The loop of [quorum_recently_active]: the progress map and the active set
    after visiting one more peer. *)
Definition activity_step (perspective_of : u64) (acc : ProgressMap * gset N) (p : N * Progress)
    : ProgressMap * gset N :=
  let '(m, active) := acc in
  let '(id, pr) := p in
  if id =? perspective_of then (<[id := set_pr_recent_active true pr]> m, {[id]} ∪ active)
  else if pr_recent_active pr then (<[id := set_pr_recent_active false pr]> m, {[id]} ∪ active)
  else (m, active).
Definition quorum_recently_active (perspective_of : u64) (self : ProgressTracker)
    : outcome (ProgressTracker * bool) :=
  let '(m, active) :=
    foldl (activity_step perspective_of) (pt_progress self, ∅) (iter_map (pt_progress self)) in
  let self := set_pt_progress m self in
  b ← has_quorum active self;
  Done (self, b).
End with_order.

(** ** Specification *)

#[global] Instance joint_quorum_of_dec self (P : N → Prop) `{∀ v, Decision (P v)} :
  Decision (joint_quorum_of self P).
Proof. unfold joint_quorum_of. apply _. Defined.

(** All voters, of either half. *)
Definition all_voters (c : Configuration) : gset N :=
  voters (incoming (c_voters c)) ∪ voters (outgoing (c_voters c)).

(** The peer answered since the last check, or is the node that checks. *)
Definition recently_active (perspective_of : N) (m : ProgressMap) (v : N) : Prop :=
  match m !! v with
  | Some pr => v = perspective_of ∨ pr_recent_active pr = true
  | None => False
  end.
#[global] Instance recently_active_dec p m v : Decision (recently_active p m v).
Proof. unfold recently_active. destruct (m !! v); apply _. Defined.

(** Activity flags cleared, except that of the node that checks. *)
Definition clear_activity (perspective_of : N) (m : ProgressMap) : ProgressMap :=
  map_imap (λ id pr, Some (set_pr_recent_active (id =? perspective_of) pr)) m.

(** ** Lemmas *)

Lemma elem_of_all_voters c id : Joint.contains (c_voters c) id = true ↔ id ∈ all_voters c.
Proof.
  unfold Joint.contains, Majority.contains, all_voters.
  rewrite orb_true_iff, !bool_decide_eq_true. set_solver.
Qed.

Lemma quorum_of_ext self (P Q : N → Prop) `{∀ v, Decision (P v), ∀ v, Decision (Q v)} :
  (∀ v, P v ↔ Q v) → quorum_of self P ↔ quorum_of self Q.
Proof.
  intros HPQ. unfold quorum_of.
  assert (count self P = count self Q) as ->; [|done].
  apply N.le_antisymm; apply count_mono; naive_solver.
Qed.
Lemma joint_quorum_of_ext self (P Q : N → Prop) `{∀ v, Decision (P v), ∀ v, Decision (Q v)} :
  (∀ v, P v ↔ Q v) → joint_quorum_of self P ↔ joint_quorum_of self Q.
Proof. intros HPQ. unfold joint_quorum_of. by rewrite !(quorum_of_ext _ P Q) by done. Qed.

Lemma joint_vote_result_total `{HashOrder} self check :
  joint_bounded self → ∃ r, Joint.vote_result self check = Done r.
Proof.
  intros [Hi Ho]. unfold Joint.vote_result.
  destruct (vote_result_total _ check Hi) as [i ->], (vote_result_total _ check Ho) as [o ->].
  by eexists.
Qed.

(** [has_quorum] holds exactly of the sets that contain a majority of each half. *)
Lemma has_quorum_spec `{HashOrder} s self :
  joint_bounded (c_voters (pt_conf self)) →
  has_quorum s self = Done (bool_decide (joint_quorum_of (c_voters (pt_conf self)) (.∈ s))).
Proof.
  intros Hb. unfold has_quorum.
  set (check := λ id, if bool_decide (id ∈ s) then Some true else None).
  destruct (joint_vote_result_total _ check Hb) as [r Hr]. rewrite Hr. simpl. f_equal.
  apply bool_decide_ext.
  assert (r = Won ↔ Joint.vote_result (c_voters (pt_conf self)) check = Done Won) as ->
    by (rewrite Hr; naive_solver).
  rewrite joint_vote_result_won by done. apply joint_quorum_of_ext.
  intros v. unfold voted, check. case_bool_decide; naive_solver.
Qed.

Lemma set_recent_active_same pr b : pr_recent_active pr = b → set_pr_recent_active b pr = pr.
Proof. intros <-. by destruct pr. Qed.

Lemma activity_loop perspective_of l m a m' a' :
  NoDup l.*1 → (∀ id pr, (id, pr) ∈ l → m !! id = Some pr) →
  foldl (activity_step perspective_of) (m, a) l = (m', a') →
  (∀ id, m' !! id = if bool_decide (id ∈ l.*1)
                    then set_pr_recent_active (id =? perspective_of) <$> m !! id else m !! id) ∧
  (∀ id, id ∈ a' ↔ id ∈ a ∨ ∃ pr, (id, pr) ∈ l ∧ (id = perspective_of ∨ pr_recent_active pr = true)).
Proof.
  revert m a. induction l as [|[id pr] l IH]; intros m a Hnd Hm Hf; simpl in Hf.
  - injection Hf as <- <-. split; [done|]. set_solver.
  - apply NoDup_cons in Hnd as [Hid Hnd]. simpl in Hid.
    assert (m !! id = Some pr) as Hmid by (apply Hm; set_solver).
    assert (∃ m1 a1, activity_step perspective_of (m, a) (id, pr) = (m1, a1) ∧
      m1 = <[id := set_pr_recent_active (id =? perspective_of) pr]> m ∧
      (∀ i, i ∈ a1 ↔ i ∈ a ∨ (i = id ∧ (id = perspective_of ∨ pr_recent_active pr = true))))
      as (m1 & a1 & Hs & -> & Ha1).
    { simpl. destruct (N.eqb_spec id perspective_of) as [->|].
      - do 2 eexists. split_and!; [done..|]. set_solver.
      - destruct (pr_recent_active pr) eqn:E; do 2 eexists; split_and!; try done.
        + set_solver.
        + rewrite set_recent_active_same, insert_id; done.
        + set_solver. }
    unfold activity_step in Hs; rewrite Hs in Hf. apply IH in Hf as [Hm' Ha']; [|done|].
    + split.
      * intros i. rewrite Hm'. destruct (decide (i = id)) as [->|Hne].
        -- rewrite lookup_insert_eq, Hmid.
           rewrite bool_decide_eq_false_2, bool_decide_eq_true_2 by set_solver. done.
        -- rewrite lookup_insert_ne by done.
           rewrite (bool_decide_ext (i ∈ l.*1) (i ∈ ((id, pr) :: l).*1)) by set_solver. done.
      * intros i. rewrite Ha', Ha1. set_solver.
    + intros i p Hip. rewrite lookup_insert_ne; [apply Hm; set_solver|].
      intros <-. apply Hid, list_elem_of_fmap. by exists (id, p).
Qed.

(** The counters of [tally_votes] count the votes of the voters. *)
Definition tallied (voters : JointConfig) (b : bool) (p : N * bool) : Prop :=
  p.2 = b ∧ Joint.contains voters p.1 = true.
#[global] Instance tallied_dec voters b p : Decision (tallied voters b p).
Proof. unfold tallied. apply _. Defined.

Lemma tally_loop_spec voters g r votes :
  g + len votes ≤ u64_max → r + len votes ≤ u64_max →
  tally_loop voters g r votes =
    Done (g + len (filter (tallied voters true) votes), r + len (filter (tallied voters false) votes)).
Proof.
  revert g r. induction votes as [|[id v] votes IH]; intros g r Hg Hr; simpl.
  - by autorewrite with len; rewrite !N.add_0_r.
  - rewrite len_cons in *.
    destruct (Joint.contains voters id) eqn:E; simpl;
      [destruct v; simpl; rewrite add64_ok by lia; simpl|]; rewrite IH by lia.
    + rewrite filter_cons_True, filter_cons_False, len_cons by (unfold tallied; naive_solver).
      by rewrite (N.add_comm (len _)), N.add_assoc.
    + rewrite filter_cons_False, filter_cons_True, len_cons by (unfold tallied; naive_solver).
      by rewrite (N.add_comm (len _)), N.add_assoc.
    + rewrite !filter_cons_False by (unfold tallied; simpl; rewrite E; naive_solver). done.
Qed.

Lemma filter_tallied_size `{HashOrder} (c : Configuration) (votes : gmap N bool) b :
  len (filter (tallied (c_voters c) b) (iter_map votes)) =
  N.of_nat (size (filter (λ v, votes !! v = Some b) (all_voters c))).
Proof.
  unfold len. f_equal. rewrite <-(length_fmap fst).
  change (size ?s) with (length (elements s)). apply Permutation_length, NoDup_Permutation.
  - eapply sublist_NoDup; [apply (NoDup_iter_map_keys votes)|]. apply fmap_sublist, sublist_filter.
  - apply NoDup_elements.
  - intros v. rewrite list_elem_of_fmap, elem_of_elements, elem_of_filter, <-elem_of_all_voters.
    setoid_rewrite list_elem_of_filter. unfold tallied. split.
    + intros ([v' b'] & -> & [Hb Hc] & Hin%elem_of_iter_map). simpl in *. by subst.
    + intros [Hv Hc]. exists (v, b). by rewrite elem_of_iter_map.
Qed.

(** [tally_votes] counts the granted and rejected votes of the members of
    either half, each once, ignores the votes of everybody else, and reports the
    outcome of the election over the joint configuration. *)
Theorem tally_votes_spec `{HashOrder} self :
  joint_bounded (c_voters (pt_conf self)) → N.of_nat (size (pt_votes self)) ≤ u64_max →
  returns (tally_votes self) (λ '(granted, rejected, result),
    granted = N.of_nat (size (filter (λ v, pt_votes self !! v = Some true) (all_voters (pt_conf self)))) ∧
    rejected = N.of_nat (size (filter (λ v, pt_votes self !! v = Some false) (all_voters (pt_conf self)))) ∧
    (result = Won ↔ joint_quorum_of (c_voters (pt_conf self)) (λ v, pt_votes self !! v = Some true))).
Proof.
  intros Hb Hv. unfold tally_votes, vote_result.
  assert (len (iter_map (pt_votes self)) ≤ u64_max) as Hl.
  { unfold len. rewrite length_iter_map. done. }
  rewrite tally_loop_spec by lia. simpl.
  set (check := λ id, pt_votes self !! id).
  destruct (joint_vote_result_total _ check Hb) as [r Hr]. rewrite Hr. simpl.
  apply returns_Done. rewrite !N.add_0_l. split_and!; [apply filter_tallied_size..|].
  change (joint_quorum_of (c_voters (pt_conf self)) (λ v, pt_votes self !! v = Some true))
    with (joint_quorum_of (c_voters (pt_conf self)) (voted check (Some true))).
  rewrite <-joint_vote_result_won by done. rewrite Hr. naive_solver.
Qed.

Lemma quorum_recently_active_x `{HashOrder} perspective_of self :
  joint_bounded (c_voters (pt_conf self)) →
  quorum_recently_active perspective_of self =
    Done (set_pt_progress (clear_activity perspective_of (pt_progress self)) self,
      bool_decide (joint_quorum_of (c_voters (pt_conf self))
                     (recently_active perspective_of (pt_progress self)))).
Proof.
  intros Hb. unfold quorum_recently_active.
  destruct (foldl _ _ _) as [m a] eqn:Hf.
  apply activity_loop in Hf as [Hm Ha]; [|apply NoDup_iter_map_keys|intros id pr; apply elem_of_iter_map].
  assert (m = clear_activity perspective_of (pt_progress self)) as ->.
  { apply map_eq. intros id. rewrite Hm. unfold clear_activity. rewrite map_lookup_imap.
    case_bool_decide as Hk; rewrite elem_of_iter_map_keys in Hk; [by destruct (_ !! id)|].
    destruct (_ !! id); [|done]. by destruct Hk. }
  rewrite has_quorum_spec by done. simpl. do 2 f_equal. apply bool_decide_ext, joint_quorum_of_ext.
  intros v. rewrite Ha. unfold recently_active. setoid_rewrite elem_of_iter_map.
  destruct (_ !! v); set_solver.
Qed.

(** the check-quorum round keeps the leader exactly when the peers heard
    from since the last round (and itself) form a quorum of both halves, clears
    the activity flags of all other peers and changes nothing else, in whatever
    order the peers are visited. *)
Theorem quorum_recently_active_spec `{HashOrder} perspective_of self :
  joint_bounded (c_voters (pt_conf self)) →
  quorum_recently_active perspective_of self =
    Done (set_pt_progress (clear_activity perspective_of (pt_progress self)) self,
      bool_decide (joint_quorum_of (c_voters (pt_conf self))
                     (recently_active perspective_of (pt_progress self)))).
Proof. apply quorum_recently_active_x. Qed.

(** ** Witnesses *)

Lemma tally_votes_spec_witness :
  let _ := elements_order in
  let conf := mkConfiguration (mkJointConfig (Majority.mkConfiguration {[1; 2; 3]})
                                 (Majority.mkConfiguration {[3; 4]})) {[7]} ∅ false in
  let self := mkProgressTracker ∅ conf {[1 := true; 2 := true; 3 := true; 4 := false; 7 := true]} 8 false in
  tally_votes self = Done (3, 1, Lost) ∧
  returns (tally_votes self) (λ '(granted, rejected, result),
    granted = N.of_nat (size (filter (λ v, pt_votes self !! v = Some true) (all_voters (pt_conf self)))) ∧
    rejected = N.of_nat (size (filter (λ v, pt_votes self !! v = Some false) (all_voters (pt_conf self)))) ∧
    (result = Won ↔ joint_quorum_of (c_voters (pt_conf self)) (λ v, pt_votes self !! v = Some true))).
Proof.
  intros o conf self. split; [by vm_compute|].
  apply tally_votes_spec; [split|]; vm_compute; discriminate.
Defined.

Lemma quorum_recently_active_spec_witness :
  let _ := elements_order in
  let pr b := set_pr_recent_active b (Progress.new 1 4) in
  let self := mkProgressTracker {[1 := pr false; 2 := pr true; 3 := pr false]}
    (Configuration_new [1; 2; 3] []) ∅ 4 false in
  (snd <$> quorum_recently_active 1 self) = Done true ∧
  quorum_recently_active 1 self =
    Done (set_pt_progress (clear_activity 1 (pt_progress self)) self,
      bool_decide (joint_quorum_of (c_voters (pt_conf self)) (recently_active 1 (pt_progress self)))).
Proof.
  intros o pr self. split; [by vm_compute|].
  apply quorum_recently_active_spec. split; vm_compute; discriminate.
Defined.
