(* ===== verification/ConfChange.v ===== *)
(** * Configuration changes ([src/confchange.rs], [src/confchange/changer.rs], [src/confchange/restore.rs])

    The [Changer] computes, from a tracker and a list of single changes, the next
    configuration and the progress entries to add or remove; nothing is applied
    before every check has passed. [restore] replays a stored [ConfState]. *)
From S2P Require Import Prelude Errors Proto Util Quorum Majority Joint Progress Tracker.
#[local] Open Scope N_scope.

(** [confchange::joint] *)
Definition joint (cfg : Configuration) : bool :=
  negb (Majority.is_empty (outgoing (c_voters cfg))).

(** [struct IncrChangeMap] *)
Record IncrChangeMap := mkIncrChangeMap {
  icm_changes : MapChange;
  icm_base : ProgressMap }.
Definition into_changes (self : IncrChangeMap) : MapChange := icm_changes self.

Definition push_change (id : u64) (t : MapChangeType) (self : IncrChangeMap) : IncrChangeMap :=
  mkIncrChangeMap (icm_changes self ++ [(id, t)]) (icm_base self).

(** [changes.iter().rfind(|(i, _)| *i == id)] *)
Fixpoint rfind_change (id : u64) (changes : MapChange) : option MapChangeType :=
  match changes with
  | [] => None
  | (i, t) :: changes =>
      match rfind_change id changes with
      | Some t' => Some t'
      | None => if i =? id then Some t else None
      end
  end.
Definition contains (self : IncrChangeMap) (id : u64) : bool :=
  match rfind_change id (icm_changes self) with
  | Some Remove => false
  | Some Add => true
  | None => bool_decide (is_Some (icm_base self !! id))
  end.

(** Updates of one of the sets of a configuration. *)
Definition with_incoming (f : gset N → gset N) (cfg : Configuration) : Configuration :=
  set_c_voters (mkJointConfig (Majority.mkConfiguration (f (voters (incoming (c_voters cfg)))))
                  (outgoing (c_voters cfg))) cfg.
Definition with_outgoing (f : gset N → gset N) (cfg : Configuration) : Configuration :=
  set_c_voters (mkJointConfig (incoming (c_voters cfg))
                  (Majority.mkConfiguration (f (voters (outgoing (c_voters cfg)))))) cfg.
Definition with_learners (f : gset N → gset N) (cfg : Configuration) : Configuration :=
  set_c_learners (f (c_learners cfg)) cfg.
Definition with_learners_next (f : gset N → gset N) (cfg : Configuration) : Configuration :=
  set_c_learners_next (f (c_learners_next cfg)) cfg.

Definition insert_id (id : N) (s : gset N) : gset N := {[id]} ∪ s.
Definition remove_id (id : N) (s : gset N) : gset N := s ∖ {[id]}.

(** What the [&mut] arguments of the helpers below hold. *)
Abbreviation draft := (Configuration * IncrChangeMap)%type.

Definition init_progress (id : u64) (is_learner : bool) (d : draft) : draft :=
  let '(cfg, prs) := d in
  let cfg := if negb is_learner then with_incoming (insert_id id) cfg
             else with_learners (insert_id id) cfg in
  (cfg, push_change id Add prs).

Definition make_voter (id : u64) (d : draft) : draft :=
  let '(cfg, prs) := d in
  if negb (contains prs id) then init_progress id false d
  else
    let cfg := with_incoming (insert_id id) cfg in
    let cfg := with_learners (remove_id id) cfg in
    let cfg := with_learners_next (remove_id id) cfg in
    (cfg, prs).

Definition make_learner (id : u64) (d : draft) : draft :=
  let '(cfg, prs) := d in
  if negb (contains prs id) then init_progress id true d
  else if bool_decide (id ∈ c_learners cfg) then d
  else
    let cfg := with_incoming (remove_id id) cfg in
    let cfg := with_learners (remove_id id) cfg in
    let cfg := with_learners_next (remove_id id) cfg in
    let cfg := if Majority.contains (outgoing (c_voters cfg)) id
               then with_learners_next (insert_id id) cfg
               else with_learners (insert_id id) cfg in
    (cfg, prs).

Definition remove (id : u64) (d : draft) : draft :=
  let '(cfg, prs) := d in
  if negb (contains prs id) then d
  else
    let cfg := with_incoming (remove_id id) cfg in
    let cfg := with_learners (remove_id id) cfg in
    let cfg := with_learners_next (remove_id id) cfg in
    let prs := if negb (Majority.contains (outgoing (c_voters cfg)) id)
               then push_change id Remove prs else prs in
    (cfg, prs).

(** The body of the loop of [apply]. *)
Definition apply_single (d : draft) (cc : ConfChangeSingle) : draft :=
  if ccs_node_id cc =? 0 then d
  else match ccs_change_type cc with
       | AddNode => make_voter (ccs_node_id cc) d
       | AddLearnerNode => make_learner (ccs_node_id cc) d
       | RemoveNode => remove (ccs_node_id cc) d
       end.
Definition apply (d : draft) (ccs : list ConfChangeSingle) : result draft :=
  let d := foldl apply_single d ccs in
  if Majority.is_empty (incoming (c_voters d.1))
  then Err (ConfChangeError "removed all voters") else Ok d.

(** A [for] loop whose body may return an error. *)
Fixpoint for_each {A} (f : A → result unit) (l : list A) : result unit :=
  match l with
  | [] => Ok ()
  | x :: l => _ ← f x; for_each f l
  end.

Section with_order.
Context `{HashOrder}.

Definition check_invariants (cfg : Configuration) (prs : IncrChangeMap) : result unit :=
  _ ← for_each (λ id,
        if negb (contains prs id)
        then Err (ConfChangeError ("no progress for voter " +:+ pretty id)) else Ok ())
        (Union_iter (ids (c_voters cfg)));
  _ ← for_each (λ id,
        if negb (contains prs id)
        then Err (ConfChangeError ("no progress for learner " +:+ pretty id))
        else if Majority.contains (outgoing (c_voters cfg)) id
        then Err (ConfChangeError (pretty id +:+ " is in learners and outgoing voters"))
        else if Majority.contains (incoming (c_voters cfg)) id
        then Err (ConfChangeError (pretty id +:+ " is in learners and incoming voters"))
        else Ok ())
        (iter_set (c_learners cfg));
  _ ← for_each (λ id,
        if negb (contains prs id)
        then Err (ConfChangeError ("no progress for learner(next) " +:+ pretty id))
        else if negb (Majority.contains (outgoing (c_voters cfg)) id)
        then Err (ConfChangeError (pretty id +:+ " is in learners_next and outgoing voters"))
        else Ok ())
        (iter_set (c_learners_next cfg));
  if negb (joint cfg) then
    if negb (bool_decide (c_learners_next cfg = ∅))
    then Err (ConfChangeError "learners_next must be empty when not joint")
    else if c_auto_leave cfg
    then Err (ConfChangeError "auto_leave must be false when not joint")
    else Ok ()
  else Ok ().

Definition check_and_copy (tracker : ProgressTracker) : result draft :=
  let prs := mkIncrChangeMap [] (pt_progress tracker) in
  _ ← check_invariants (pt_conf tracker) prs;
  Ok (pt_conf tracker, prs).

Definition enter_joint (auto_leave : bool) (ccs : list ConfChangeSingle) (tracker : ProgressTracker)
    : result (Configuration * MapChange) :=
  if joint (pt_conf tracker) then Err (ConfChangeError "config is already joint")
  else
    '(cfg, prs) ← check_and_copy tracker;
    if Majority.is_empty (incoming (c_voters cfg))
    then Err (ConfChangeError "can't make a zero-voter config joint")
    else
      let cfg := with_outgoing (λ s, s ∪ voters (incoming (c_voters cfg))) cfg in
      '(cfg, prs) ← apply (cfg, prs) ccs;
      let cfg := set_c_auto_leave auto_leave cfg in
      _ ← check_invariants cfg prs;
      Ok (cfg, into_changes prs).

(** The rendering of the configuration is left out of the text of the second
    error; it cannot occur after the first test. *)
Definition leave_joint (tracker : ProgressTracker) : result (Configuration * MapChange) :=
  if negb (joint (pt_conf tracker)) then Err (ConfChangeError "can't leave a non-joint config")
  else
    '(cfg, prs) ← check_and_copy tracker;
    if Majority.is_empty (outgoing (c_voters cfg))
    then Err (ConfChangeError "configuration is not joint")
    else
      let next := c_learners_next cfg in
      let cfg := set_c_learners_next ∅ cfg in
      let cfg := with_learners (λ s, s ∪ next) cfg in
      let prs := foldl (λ prs id,
        if negb (Majority.contains (incoming (c_voters cfg)) id)
           && negb (bool_decide (id ∈ c_learners cfg))
        then push_change id Remove prs else prs) prs (Majority.ids (outgoing (c_voters cfg))) in
      let cfg := with_outgoing (λ _, ∅) cfg in
      let cfg := set_c_auto_leave false cfg in
      _ ← check_invariants cfg prs;
      Ok (cfg, into_changes prs).

Definition simple (ccs : list ConfChangeSingle) (tracker : ProgressTracker)
    : result (Configuration * MapChange) :=
  if joint (pt_conf tracker)
  then Err (ConfChangeError "can't apply simple config change in joint config")
  else
    d ← check_and_copy tracker;
    '(cfg, prs) ← apply d ccs;
    let old := voters (incoming (c_voters (pt_conf tracker))) in
    let cur := voters (incoming (c_voters cfg)) in
    if (1 <? size ((cur ∖ old) ∪ (old ∖ cur)))%nat
    then Err (ConfChangeError "more than one voter changed without entering joint config")
    else
      _ ← check_invariants cfg prs;
      Ok (cfg, into_changes prs).

(** ** [src/confchange/restore.rs] *)

Definition to_conf_change_single (cs : ConfState) : list ConfChangeSingle * list ConfChangeSingle :=
  let add id := new_conf_change_single id AddNode in
  let del id := new_conf_change_single id RemoveNode in
  let add_learner id := new_conf_change_single id AddLearnerNode in
  (add <$> cs_voters_outgoing cs,
   (del <$> cs_voters_outgoing cs) ++ (add <$> cs_voters cs)
     ++ (add_learner <$> cs_learners cs) ++ (add_learner <$> cs_learners_next cs)).

(** One change at a time: the tracker so far and, on an error, the error. *)
Fixpoint restore_simple (next_idx : u64) (ccs : list ConfChangeSingle) (tracker : ProgressTracker)
    : ProgressTracker * result unit :=
  match ccs with
  | [] => (tracker, Ok ())
  | i :: ccs =>
      match simple [i] tracker with
      | Err e => (tracker, Err e)
      | Ok (cfg, changes) => restore_simple next_idx ccs (apply_conf cfg changes next_idx tracker)
      end
  end.
Definition restore (next_idx : u64) (cs : ConfState) (tracker : ProgressTracker)
    : ProgressTracker * result unit :=
  let '(outgoing, incoming) := to_conf_change_single cs in
  if bool_decide (outgoing = []) then restore_simple next_idx incoming tracker
  else
    match restore_simple next_idx outgoing tracker with
    | (tracker, Err e) => (tracker, Err e)
    | (tracker, Ok _) =>
        match enter_joint (cs_auto_leave cs) incoming tracker with
        | Err e => (tracker, Err e)
        | Ok (cfg, changes) => (apply_conf cfg changes next_idx tracker, Ok ())
        end
    end.
End with_order.

(** ** Specification *)

Abbreviation vin cfg := (voters (incoming (c_voters cfg))).
Abbreviation vout cfg := (voters (outgoing (c_voters cfg))).

(** Everybody with a role in the configuration. *)
Definition members (cfg : Configuration) : gset N := all_voters cfg ∪ c_learners cfg.

(** The roles of a configuration fit together. *)
Record roles_ok (cfg : Configuration) : Prop := {
  ro_learners : c_learners cfg ## all_voters cfg;
  ro_next : c_learners_next cfg ⊆ vout cfg;
  ro_next_in : c_learners_next cfg ## vin cfg;
  ro_zero : 0 ∉ members cfg }.

Record conf_ok (cfg : Configuration) : Prop := {
  co_roles : roles_ok cfg;
  co_simple : vout cfg = ∅ → c_auto_leave cfg = false;
  co_empty : vin cfg = ∅ → members cfg = ∅ }.

(** A tracker has progress for the members of its configuration, and only for them. *)
Record tracker_ok (t : ProgressTracker) : Prop := {
  to_conf : conf_ok (pt_conf t);
  to_progress : dom (pt_progress t) = members (pt_conf t) }.

(** What a single change asks for, on the configuration alone. *)
Definition spec_single (cfg : Configuration) (cc : ConfChangeSingle) : Configuration :=
  let id := ccs_node_id cc in
  if id =? 0 then cfg
  else match ccs_change_type cc with
       | AddNode =>
           with_learners_next (remove_id id) (with_learners (remove_id id) (with_incoming (insert_id id) cfg))
       | AddLearnerNode =>
           let cfg := with_incoming (remove_id id) cfg in
           if bool_decide (id ∈ vout cfg) then with_learners_next (insert_id id) cfg
           else with_learners (insert_id id) cfg
       | RemoveNode =>
           with_learners_next (remove_id id) (with_learners (remove_id id) (with_incoming (remove_id id) cfg))
       end.
Definition spec_changes (cfg : Configuration) (ccs : list ConfChangeSingle) : Configuration :=
  foldl spec_single cfg ccs.

(** The draft keeps exactly the members of its configuration. *)
Record draft_ok (d : draft) : Prop := {
  do_roles : roles_ok d.1;
  do_members : ∀ id, contains d.2 id = true ↔ id ∈ members d.1 }.

(** ** Lemmas *)

Lemma rfind_change_snoc id changes i t :
  rfind_change id (changes ++ [(i, t)]) = if i =? id then Some t else rfind_change id changes.
Proof.
  induction changes as [|[j u] changes IH]; simpl; [done|]. rewrite IH. by case_bool.
Qed.

Lemma contains_push id t prs i :
  contains (push_change id t prs) i = true ↔
  if bool_decide (id = i) then t = Add else contains prs i = true.
Proof.
  unfold contains, push_change. simpl. rewrite rfind_change_snoc.
  case_bools; destruct t; done.
Qed.

(** Applying the recorded changes gives a progress map with the recorded keys. *)
Lemma apply_conf_contains cfg changes next_idx t id :
  is_Some (pt_progress (apply_conf cfg changes next_idx t) !! id) ↔
  contains (mkIncrChangeMap changes (pt_progress t)) id = true.
Proof.
  unfold apply_conf. induction changes as [|[i ty] changes IH] using rev_ind; simpl.
  - unfold contains. simpl. by rewrite bool_decide_eq_true.
  - rewrite foldl_snoc.
    rewrite (contains_push i ty (mkIncrChangeMap changes (pt_progress t)) id).
    destruct ty; simpl; case_bool_decide as Hi.
    + subst. rewrite lookup_insert_eq. naive_solver.
    + by rewrite lookup_insert_ne.
    + subst. rewrite lookup_delete_eq. split; [by intros []|done].
    + by rewrite lookup_delete_ne.
Qed.

Lemma apply_conf_conf cfg changes next_idx t :
  pt_conf (apply_conf cfg changes next_idx t) = cfg.
Proof.
  unfold apply_conf. induction changes as [|[i []] changes IH] using rev_ind; [done|..];
    by rewrite foldl_snoc.
Qed.

(** Equality of configurations is equality of their sets, pointwise. *)
Lemma Configuration_ext c1 c2 :
  (∀ x, x ∈ vin c1 ↔ x ∈ vin c2) → (∀ x, x ∈ vout c1 ↔ x ∈ vout c2) →
  (∀ x, x ∈ c_learners c1 ↔ x ∈ c_learners c2) →
  (∀ x, x ∈ c_learners_next c1 ↔ x ∈ c_learners_next c2) →
  c_auto_leave c1 = c_auto_leave c2 → c1 = c2.
Proof.
  destruct c1 as [[[] []]], c2 as [[[] []]]; simpl. intros.
  repeat f_equal; try apply set_eq; done.
Qed.

(** Splits the goals about one identifier on whether it is the changed one. *)
Ltac set_cases :=
  unfold members, all_voters, with_incoming, with_outgoing, with_learners, with_learners_next,
    insert_id, remove_id in *; simpl in *; set_solver.

Lemma spec_single_roles cfg cc : roles_ok cfg → roles_ok (spec_single cfg cc).
Proof.
  intros [Hl Hn Hi Hz]. unfold spec_single. destruct (N.eqb_spec (ccs_node_id cc) 0); [by constructor|].
  destruct (ccs_change_type cc); [| |simpl; case_bool_decide]; constructor; set_cases.
Qed.

(** On a draft that keeps exactly its members, one step of [apply] does what the
    change asks for. *)
Lemma apply_single_spec d cc :
  draft_ok d →
  (apply_single d cc).1 = spec_single d.1 cc ∧ draft_ok (apply_single d cc) ∧
  icm_base (apply_single d cc).2 = icm_base d.2.
Proof.
  destruct d as [cfg prs]. intros [Hr Hm]. simpl in *.
  assert ((apply_single (cfg, prs) cc).1 = spec_single cfg cc ∧
    (∀ id, contains (apply_single (cfg, prs) cc).2 id = true ↔ id ∈ members (spec_single cfg cc)) ∧
    icm_base (apply_single (cfg, prs) cc).2 = icm_base prs) as (H1 & H2 & H3).
  2: { split_and!; [done| |done]. constructor; rewrite H1; [by apply spec_single_roles|done]. }
  unfold apply_single, spec_single. destruct (N.eqb_spec (ccs_node_id cc) 0) as [|Hz]; [done|].
  set (id := ccs_node_id cc) in *. destruct Hr as [Hl Hn Hi Hzero].
  specialize (Hm id) as Hid.
  assert (Hcid : if contains prs id then id ∈ members cfg else id ∉ members cfg)
    by (destruct (contains prs id); naive_solver).
  clear Hid. unfold make_voter, make_learner, remove, Majority.contains.
  destruct (ccs_change_type cc), (contains prs id); simpl;
    repeat (case_bool_decide; simpl);
    (split_and!; [apply Configuration_ext; try done; intros x; destruct (decide (x = id)); subst; set_cases
                 |intros x; rewrite ?contains_push, ?Hm; destruct (decide (id = x));
                  [rewrite ?bool_decide_eq_true_2 by done|rewrite ?bool_decide_eq_false_2 by done];
                  subst; set_cases
                 |done]).
Qed.
