(* ===== verification/ConfChangeSafety.v ===== *)
(** * Safety of configuration changes *)
From S2P Require Import Prelude Errors Proto Util Quorum Majority Joint Progress Tracker ConfChange.
#[local] Open Scope N_scope.

Lemma apply_singles_spec d ccs :
  draft_ok d →
  (foldl apply_single d ccs).1 = spec_changes d.1 ccs ∧ draft_ok (foldl apply_single d ccs) ∧
  icm_base (foldl apply_single d ccs).2 = icm_base d.2.
Proof.
  revert d. induction ccs as [|cc ccs IH]; intros d Hd; [done|]. simpl.
  destruct (apply_single_spec d cc Hd) as (H1 & H2 & H3).
  destruct (IH _ H2) as (H4 & H5 & H6). by rewrite H4, H6, H1, H3.
Qed.

Lemma spec_changes_outgoing cfg ccs :
  outgoing (c_voters (spec_changes cfg ccs)) = outgoing (c_voters cfg) ∧
  c_auto_leave (spec_changes cfg ccs) = c_auto_leave cfg.
Proof.
  revert cfg. induction ccs as [|cc ccs IH]; intros cfg; [done|]. simpl.
  rewrite (proj1 (IH _)), (proj2 (IH _)). unfold spec_single.
  case_bool; [done|]. destruct (ccs_change_type cc); [done..|]. simpl. by case_bool_decide.
Qed.

Lemma for_each_Ok {A} (f : A → result unit) l :
  for_each f l = Ok () ↔ ∀ x, x ∈ l → f x = Ok ().
Proof.
  rewrite <-Forall_forall. induction l as [|x l IH]; simpl.
  - by split; [constructor|].
  - rewrite Forall_cons, <-IH. destruct (f x) as [[]|e]; simpl; naive_solver.
Qed.

Lemma bind_unit_Ok (m : result unit) (f : unit → result unit) :
  m ≫= f = Ok () ↔ m = Ok () ∧ f () = Ok ().
Proof. destruct m as [[]|]; naive_solver. Qed.

(** What [check_invariants] checks, whatever the iteration order. *)
Definition checked (cfg : Configuration) (prs : IncrChangeMap) : Prop :=
  (∀ id, id ∈ members cfg ∪ c_learners_next cfg → contains prs id = true) ∧
  c_learners cfg ## all_voters cfg ∧ c_learners_next cfg ⊆ vout cfg ∧
  (vout cfg = ∅ → c_auto_leave cfg = false).

Lemma is_empty_spec c : Majority.is_empty c = bool_decide (voters c = ∅).
Proof. done. Qed.

Section with_order_lemmas.
Context `{HashOrder}.

Lemma check_invariants_spec cfg prs :
  check_invariants cfg prs = Ok () ↔ checked cfg prs.
Proof.
  unfold check_invariants. rewrite !bind_unit_Ok, !for_each_Ok.
  setoid_rewrite elem_of_iter_set. setoid_rewrite Union_iter_perm. setoid_rewrite elem_of_elements.
  unfold checked, joint, Majority.contains. rewrite is_empty_spec.
  rewrite negb_involutive. unfold members, all_voters. simpl. split.
  - intros (Hv & Hl & Hn & Hj).
    assert (∀ x, x ∈ vin cfg ∪ vout cfg → contains prs x = true) as Hv'
      by (intros x Hx; specialize (Hv x Hx); by destruct (contains prs x)).
    assert (∀ x, x ∈ c_learners cfg → contains prs x = true ∧ x ∉ vin cfg ∪ vout cfg) as Hl'.
    { intros x Hx. specialize (Hl x Hx). destruct (contains prs x); [|done].
      repeat case_bool_decide; set_solver. }
    assert (∀ x, x ∈ c_learners_next cfg → contains prs x = true ∧ x ∈ vout cfg) as Hn'.
    { intros x Hx. specialize (Hn x Hx). destruct (contains prs x); [|done].
      destruct (bool_decide_reflect (x ∈ vout cfg)); [by split|done]. }
    split_and!; [set_solver..|]. intros Ho. rewrite Ho in Hj. simpl in Hj.
    rewrite bool_decide_eq_true_2 in Hj by done. by destruct (negb _), (c_auto_leave cfg).
  - intros (Hc & Hl & Hn & Hj). split_and!.
    + intros x Hx. rewrite Hc by set_solver. done.
    + intros x Hx. rewrite Hc, !bool_decide_eq_false_2 by set_solver. done.
    + intros x Hx. rewrite Hc, bool_decide_eq_true_2 by set_solver. done.
    + case_bool_decide as Ho; [|done]. rewrite Hj by done.
      by rewrite bool_decide_eq_true_2 by set_solver.
Qed.

Lemma check_and_copy_spec t :
  tracker_ok t →
  check_and_copy t = Ok (pt_conf t, mkIncrChangeMap [] (pt_progress t)) ∧
  draft_ok (pt_conf t, mkIncrChangeMap [] (pt_progress t)).
Proof.
  intros [[[Hl Hn Hi Hz] Hs He] Hp].
  assert (∀ id, contains (mkIncrChangeMap [] (pt_progress t)) id = true ↔ id ∈ members (pt_conf t)) as Hc.
  { intros id. rewrite <-Hp, elem_of_dom. unfold contains. simpl. apply bool_decide_eq_true. }
  split; [|by constructor; [constructor|]]. unfold check_and_copy.
  assert (check_invariants (pt_conf t) (mkIncrChangeMap [] (pt_progress t)) = Ok ()) as ->; [|done].
  apply check_invariants_spec. split_and!; [|done..].
  intros id Hid. apply Hc. unfold members, all_voters in *. set_solver.
Qed.

(** A draft that passes the checks becomes a consistent tracker. *)
Lemma draft_tracker_ok t d next_idx :
  draft_ok d → icm_base d.2 = pt_progress t → vin d.1 ≠ ∅ →
  (vout d.1 = ∅ → c_auto_leave d.1 = false) →
  check_invariants d.1 d.2 = Ok () ∧
  tracker_ok (apply_conf d.1 (into_changes d.2) next_idx t).
Proof.
  destruct d as [cfg [changes base]]. intros [Hr Hm] Hb Hne Ha. simpl in *. subst base. split.
  - apply check_invariants_spec. destruct Hr. split_and!; [|done..].
    intros id Hid. apply Hm. unfold members, all_voters in *. set_solver.
  - constructor.
    + rewrite apply_conf_conf. constructor; done.
    + apply set_eq. intros id. rewrite apply_conf_conf, elem_of_dom, apply_conf_contains.
      apply Hm.
Qed.

(** [apply] fails only when it would leave no voter. *)
Lemma apply_spec d ccs :
  draft_ok d →
  match apply d ccs with
  | Ok d' => d'.1 = spec_changes d.1 ccs ∧ draft_ok d' ∧ icm_base d'.2 = icm_base d.2 ∧ vin d'.1 ≠ ∅
  | Err e => e = ConfChangeError "removed all voters" ∧ vin (spec_changes d.1 ccs) = ∅
  end.
Proof.
  intros Hd. unfold apply. destruct (apply_singles_spec d ccs Hd) as (H1 & H2 & H3).
  rewrite is_empty_spec. case_bool_decide as He.
  - by rewrite <-H1.
  - done.
Qed.

Lemma joint_false t : joint (pt_conf t) = false ↔ vout (pt_conf t) = ∅.
Proof. unfold joint. rewrite negb_false_iff. apply bool_decide_eq_true. Qed.
Lemma joint_true t : joint (pt_conf t) = true ↔ vout (pt_conf t) ≠ ∅.
Proof. unfold joint. rewrite negb_true_iff. apply bool_decide_eq_false. Qed.

Definition sym_diff (a b : gset N) : gset N := (a ∖ b) ∪ (b ∖ a).

(** From a consistent tracker, [simple] either computes what was asked for, or
    fails for one of its three documented reasons. *)
Lemma simple_spec ccs t next_idx :
  tracker_ok t →
  let cfg' := spec_changes (pt_conf t) ccs in
  match simple ccs t with
  | Ok (cfg, changes) =>
      vout (pt_conf t) = ∅ ∧ cfg = cfg' ∧ vin cfg' ≠ ∅ ∧
      (size (sym_diff (vin cfg') (vin (pt_conf t))) ≤ 1)%nat ∧
      tracker_ok (apply_conf cfg changes next_idx t)
  | Err e => vout (pt_conf t) ≠ ∅ ∨ vin cfg' = ∅ ∨
      (1 < size (sym_diff (vin cfg') (vin (pt_conf t))))%nat
  end.
Proof.
  intros Ht cfg'. unfold simple.
  destruct (joint (pt_conf t)) eqn:Hj; [left; by apply joint_true|]. apply joint_false in Hj.
  destruct (check_and_copy_spec t Ht) as [-> Hd]. simpl.
  pose proof (apply_spec _ ccs Hd) as Ha.
  destruct (apply _ ccs) as [[cfg prs]|e]; simpl; [|right; left; apply Ha].
  destruct Ha as (Hcfg & Hd' & Hb & Hne). simpl in *. subst cfg.
  fold cfg' in Hd', Hne |- *.
  change (vin cfg' ∖ vin (pt_conf t) ∪ _) with (sym_diff (vin cfg') (vin (pt_conf t))).
  destruct (Nat.ltb_spec 1 (size (sym_diff (vin cfg') (vin (pt_conf t))))) as [Hs|Hs];
    [by right; right|].
  destruct (draft_tracker_ok t (cfg', prs) next_idx) as [Hci Hok]; [done..| |].
  - simpl. unfold cfg'. rewrite (proj2 (spec_changes_outgoing _ _)). intros _. apply Ht, Hj.
  - simpl in Hci. by rewrite Hci.
Qed.

(** The joint configuration before the changes are applied to its first half. *)
Definition entered (cfg : Configuration) : Configuration :=
  with_outgoing (λ _, vin cfg) cfg.

Lemma enter_joint_spec auto_leave ccs t next_idx :
  tracker_ok t →
  let cfg' := set_c_auto_leave auto_leave (spec_changes (entered (pt_conf t)) ccs) in
  match enter_joint auto_leave ccs t with
  | Ok (cfg, changes) =>
      vout (pt_conf t) = ∅ ∧ vin (pt_conf t) ≠ ∅ ∧ cfg = cfg' ∧ vin cfg' ≠ ∅ ∧
      vout cfg' = vin (pt_conf t) ∧ tracker_ok (apply_conf cfg changes next_idx t)
  | Err e => vout (pt_conf t) ≠ ∅ ∨ vin (pt_conf t) = ∅ ∨ vin cfg' = ∅
  end.
Proof.
  intros Ht cfg'. unfold enter_joint.
  destruct (joint (pt_conf t)) eqn:Hj; [left; by apply joint_true|]. apply joint_false in Hj.
  destruct (check_and_copy_spec t Ht) as [-> Hd]. simpl. rewrite is_empty_spec.
  case_bool_decide as He; [by right; left|].
  assert (with_outgoing (λ s, s ∪ vin (pt_conf t)) (pt_conf t) = entered (pt_conf t)) as ->.
  { unfold entered, with_outgoing. do 3 f_equal. rewrite Hj. set_solver. }
  assert (draft_ok (entered (pt_conf t), mkIncrChangeMap [] (pt_progress t))) as Hd1.
  { destruct Hd as [[Hl Hn Hi Hz] Hm]. simpl in *. rewrite Hj in Hn.
    constructor; [constructor|intros id; simpl; rewrite Hm]; unfold entered; set_cases. }
  pose proof (apply_spec _ ccs Hd1) as Ha.
  destruct (apply _ ccs) as [[cfg prs]|e]; simpl; [|right; right; apply Ha].
  destruct Ha as (Hcfg & Hd' & Hb & Hne). simpl in *. subst cfg.
  assert (vout (spec_changes (entered (pt_conf t)) ccs) = vin (pt_conf t)) as Ho
    by (by rewrite (proj1 (spec_changes_outgoing _ _))).
  destruct (draft_tracker_ok t (cfg', prs) next_idx) as [Hci Hok]; [|done..| |].
  - destruct Hd' as [[] ?]. by constructor; [constructor|].
  - simpl. by rewrite Ho.
  - simpl in Hci. fold cfg'. by rewrite Hci.
Qed.

(** The loop that drops the progress of the peers that leave. *)
Lemma push_removed (keep : N → bool) l prs id :
  contains (foldl (λ prs id, if keep id then prs else push_change id Remove prs) prs l) id = true ↔
  contains prs id = true ∧ (id ∈ l → keep id = true).
Proof.
  revert prs. induction l as [|x l IH]; intros prs; simpl.
  { split; [|by intros []]. intros. split; [done|]. by intros ?%not_elem_of_nil. }
  rewrite IH, elem_of_cons. destruct (keep x) eqn:E; [|rewrite contains_push; case_bool_decide; subst].
  - split; intros [? Hk]; (split; [done|]); [intros [->|]|]; auto.
  - split; [by intros []|]. intros [_ Hk]. rewrite Hk in E; auto. done.
  - split; intros [? Hk]; (split; [done|]); [intros [->|]|]; auto; done.
Qed.

Definition left_joint (cfg : Configuration) : Configuration :=
  mkConfiguration (mkJointConfig (incoming (c_voters cfg)) (Majority.mkConfiguration ∅))
    (c_learners cfg ∪ c_learners_next cfg) ∅ false.

Lemma leave_joint_spec t next_idx :
  tracker_ok t →
  match leave_joint t with
  | Ok (cfg, changes) =>
      vout (pt_conf t) ≠ ∅ ∧ cfg = left_joint (pt_conf t) ∧
      tracker_ok (apply_conf cfg changes next_idx t)
  | Err e => vout (pt_conf t) = ∅
  end.
Proof.
  intros Ht. unfold leave_joint.
  destruct (joint (pt_conf t)) eqn:Hj; simpl; [apply joint_true in Hj|by apply joint_false].
  destruct (check_and_copy_spec t Ht) as [-> Hd]. simpl. rewrite is_empty_spec.
  rewrite bool_decide_eq_false_2 by done.
  set (prs := foldl _ _ _).
  change (set_c_auto_leave _ _) with (left_joint (pt_conf t)).
  destruct Hd as [[Hl Hn Hi Hz] Hm]. simpl in *.
  set (keep := λ id, bool_decide (id ∈ vin (pt_conf t)) || bool_decide (id ∈ c_learners (pt_conf t) ∪ c_learners_next (pt_conf t))).
  assert (prs = foldl (λ prs id, if keep id then prs else push_change id Remove prs)
    (mkIncrChangeMap [] (pt_progress t)) (Majority.ids (outgoing (c_voters (pt_conf t))))) as Hprs.
  { subst prs. generalize (mkIncrChangeMap [] (pt_progress t)) as p.
    induction (Majority.ids _) as [|id l IH]; intros p; [done|]. simpl. rewrite IH. f_equal.
    unfold keep, Majority.contains. simpl.
    by destruct (bool_decide (_ ∈ vin _)), (bool_decide (_ ∈ _ ∪ _)). }
  destruct (draft_tracker_ok t (left_joint (pt_conf t), prs) next_idx) as [Hci Hok]; simpl; [|..|done|].
  - constructor; simpl; [constructor; unfold left_joint; set_cases|].
    intros id. rewrite Hprs, push_removed, Hm. unfold Majority.ids. rewrite elem_of_iter_set.
    unfold keep. rewrite orb_true_iff, !bool_decide_eq_true. unfold left_joint. set_cases.
  - rewrite Hprs. generalize (Majority.ids (outgoing (c_voters (pt_conf t)))) as l.
    induction l as [|x l IH] using rev_ind; [done|]. rewrite foldl_snoc. by case_match.
  - intros He. destruct Ht as [[_ _ Hemp] _]. specialize (Hemp He).
    apply Hj. unfold members, all_voters in Hemp. set_solver.
  - simpl in Hci. by rewrite Hci.
Qed.
End with_order_lemmas.

(** ** The life of a tracker's configuration *)

(** A committed configuration change, as [Raft::apply_conf_change] carries it out. *)
Inductive change : Type :=
  | Simple (ccs : list ConfChangeSingle)
  | EnterJoint (auto_leave : bool) (ccs : list ConfChangeSingle)
  | LeaveJoint.

Definition run_change `{HashOrder} (next_idx : u64) (c : change) (t : ProgressTracker)
    : result ProgressTracker :=
  '(cfg, changes) ← match c with
                    | Simple ccs => simple ccs t
                    | EnterJoint auto_leave ccs => enter_joint auto_leave ccs t
                    | LeaveJoint => leave_joint t
                    end;
  Ok (apply_conf cfg changes next_idx t).

(** The configuration a change asks for. *)
Definition spec_change (c : change) (cfg : Configuration) : Configuration :=
  match c with
  | Simple ccs => spec_changes cfg ccs
  | EnterJoint auto_leave ccs => set_c_auto_leave auto_leave (spec_changes (entered cfg) ccs)
  | LeaveJoint => left_joint cfg
  end.

(** When a change is allowed. *)
Definition allowed (c : change) (cfg : Configuration) : Prop :=
  match c with
  | Simple _ => vout cfg = ∅ ∧ vin (spec_change c cfg) ≠ ∅ ∧
                (size (sym_diff (vin (spec_change c cfg)) (vin cfg)) ≤ 1)%nat
  | EnterJoint _ _ => vout cfg = ∅ ∧ vin cfg ≠ ∅ ∧ vin (spec_change c cfg) ≠ ∅
  | LeaveJoint => vout cfg ≠ ∅
  end.

Lemma run_change_spec `{HashOrder} next_idx c t :
  tracker_ok t →
  match run_change next_idx c t with
  | Ok t' => allowed c (pt_conf t) ∧ pt_conf t' = spec_change c (pt_conf t) ∧ tracker_ok t'
  | Err _ => ¬ allowed c (pt_conf t)
  end.
Proof.
  intros Ht. unfold run_change. destruct c as [ccs|auto_leave ccs|]; simpl.
  - pose proof (simple_spec ccs t next_idx Ht) as Hs. simpl in Hs.
    destruct (simple ccs t) as [[cfg changes]|e]; simpl; [rewrite apply_conf_conf; naive_solver|].
    intros (? & ? & ?). destruct Hs as [|[|]]; [done..|lia].
  - pose proof (enter_joint_spec auto_leave ccs t next_idx Ht) as Hs. simpl in Hs.
    destruct (enter_joint _ _ _) as [[cfg changes]|e]; simpl; [rewrite apply_conf_conf; naive_solver|].
    naive_solver.
  - pose proof (leave_joint_spec t next_idx Ht) as Hs.
    destruct (leave_joint t) as [[cfg changes]|e]; simpl; [rewrite apply_conf_conf; naive_solver|].
    naive_solver.
Qed.

Lemma size_union_inter (X Y : gset N) : (size (X ∪ Y) + size (X ∩ Y) = size X + size Y)%nat.
Proof.
  rewrite size_union_alt.
  assert (size Y = size (X ∩ Y) + size (Y ∖ X))%nat as ->; [|lia].
  rewrite <-size_union by set_solver. f_equal. apply set_eq. intros x.
  destruct (decide (x ∈ X)); set_solver.
Qed.

(** Majorities of two voter sets that differ in at most one voter intersect. *)
Lemma quorum_overlap_one a b (P Q : N → Prop) `{∀ v, Decision (P v), ∀ v, Decision (Q v)} :
  (size (sym_diff (voters a) (voters b)) ≤ 1)%nat →
  quorum_of a P → quorum_of b Q → ∃ v, P v ∧ Q v.
Proof.
  unfold quorum_of, count, set_len. set (A := voters a). set (B := voters b). intros Hd HP HQ.
  assert (size (filter P A ∩ filter Q B) ≠ 0)%nat as Hne.
  { assert (size (filter P A ∪ filter Q B) ≤ size (A ∪ B))%nat as Hu
      by (apply subseteq_size; set_solver).
    assert (size (A ∪ B) = size (A ∩ B) + size (sym_diff A B))%nat as Hs.
    { rewrite <-size_union by (unfold sym_diff; set_solver). f_equal. apply set_eq. intros x.
      unfold sym_diff. destruct (decide (x ∈ A)), (decide (x ∈ B)); set_solver. }
    pose proof (size_union_inter (filter P A) (filter Q B)).
    pose proof (size_union_inter A B).
    pose proof (N.div_mod' (N.of_nat (size A)) 2). pose proof (N.mod_lt (N.of_nat (size A)) 2).
    pose proof (N.div_mod' (N.of_nat (size B)) 2). pose proof (N.mod_lt (N.of_nat (size B)) 2).
    lia. }
  apply size_non_empty_iff, set_choose in Hne as [v Hv]. exists v. set_solver.
Qed.

(** C23: from a consistent tracker a configuration change is carried out exactly
    when it is allowed (not in the wrong mode, voters left, and at most one voter
    changed outside joint mode); it then yields the configuration asked for,
    again consistent: roles disjoint, staged learners among the outgoing voters,
    progress kept for the members and for nobody else. *)
Theorem run_change_correct `{HashOrder} next_idx c t :
  tracker_ok t →
  match run_change next_idx c t with
  | Ok t' => allowed c (pt_conf t) ∧ pt_conf t' = spec_change c (pt_conf t) ∧ tracker_ok t'
  | Err _ => ¬ allowed c (pt_conf t)
  end.
Proof. apply run_change_spec. Qed.

(** C21: every configuration change is safe: a quorum of the configuration before
    it and a quorum of the configuration after it have a voter in common, for
    simple changes and for entering and leaving joint configurations. *)
Theorem change_quorums_overlap `{HashOrder} next_idx c t t' (P Q : N → Prop)
    `{∀ v, Decision (P v), ∀ v, Decision (Q v)} :
  tracker_ok t → vin (pt_conf t) ≠ ∅ → run_change next_idx c t = Ok t' →
  joint_quorum_of (c_voters (pt_conf t)) P → joint_quorum_of (c_voters (pt_conf t')) Q →
  ∃ v, P v ∧ Q v.
Proof.
  intros Ht Hne Hc [HP _] [HQ HQo]. pose proof (run_change_spec next_idx c t Ht) as Hs.
  rewrite Hc in Hs. destruct Hs as (Ha & Heq & _). rewrite Heq in HQ, HQo.
  destruct HP as [|HP]; [done|]. destruct c as [ccs|auto_leave ccs|]; simpl in *.
  - destruct Ha as (_ & Hne' & Hd). destruct HQ as [|HQ]; [done|].
    apply (quorum_overlap_one _ _ Q P) in Hd as (v & ? & ?); [by exists v|done..].
  - rewrite (proj1 (spec_changes_outgoing _ _)) in HQo. destruct HQo as [He|HQo]; [done|].
    by destruct (quorum_of_intersect _ P Q HP HQo) as (v & _ & ? & ?); [exists v].
  - destruct HQ as [|HQ]; [done|].
    by destruct (quorum_of_intersect _ P Q HP HQ) as (v & _ & ? & ?); [exists v].
Qed.

(** ** Restoring a stored configuration *)

Abbreviation singles ty l := ((λ id, new_conf_change_single id ty) <$> l).
Abbreviation set_of l := (list_to_set l : gset N).

Lemma spec_adds cfg l :
  0 ∉ l → spec_changes cfg (singles AddNode l) =
    mkConfiguration (mkJointConfig (Majority.mkConfiguration (vin cfg ∪ set_of l)) (outgoing (c_voters cfg)))
      (c_learners cfg ∖ set_of l) (c_learners_next cfg ∖ set_of l) (c_auto_leave cfg).
Proof.
  revert cfg. induction l as [|id l IH]; intros cfg Hz; simpl.
  - apply Configuration_ext; set_solver.
  - apply not_elem_of_cons in Hz as [Hid Hz]. rewrite IH by done. unfold spec_single. simpl.
    rewrite (proj2 (N.eqb_neq _ _)) by done. apply Configuration_ext; set_cases.
Qed.

Lemma spec_dels cfg l :
  0 ∉ l → spec_changes cfg (singles RemoveNode l) =
    mkConfiguration (mkJointConfig (Majority.mkConfiguration (vin cfg ∖ set_of l)) (outgoing (c_voters cfg)))
      (c_learners cfg ∖ set_of l) (c_learners_next cfg ∖ set_of l) (c_auto_leave cfg).
Proof.
  revert cfg. induction l as [|id l IH]; intros cfg Hz; simpl.
  - apply Configuration_ext; set_solver.
  - apply not_elem_of_cons in Hz as [Hid Hz]. rewrite IH by done. unfold spec_single. simpl.
    rewrite (proj2 (N.eqb_neq _ _)) by done. apply Configuration_ext; set_cases.
Qed.

Lemma spec_add_learners cfg l :
  0 ∉ l → spec_changes cfg (singles AddLearnerNode l) =
    mkConfiguration (mkJointConfig (Majority.mkConfiguration (vin cfg ∖ set_of l)) (outgoing (c_voters cfg)))
      (c_learners cfg ∪ (set_of l ∖ vout cfg)) (c_learners_next cfg ∪ (set_of l ∩ vout cfg)) (c_auto_leave cfg).
Proof.
  revert cfg. induction l as [|id l IH]; intros cfg Hz; simpl.
  - apply Configuration_ext; set_solver.
  - apply not_elem_of_cons in Hz as [Hid Hz]. rewrite IH by done. unfold spec_single. simpl.
    rewrite (proj2 (N.eqb_neq _ _)) by done.
    case_bool_decide; apply Configuration_ext; set_cases.
Qed.

Lemma spec_single_one cfg cc :
  (size (sym_diff (vin (spec_single cfg cc)) (vin cfg)) ≤ 1)%nat.
Proof.
  transitivity (size ({[ccs_node_id cc]} : gset N)); [|by rewrite size_singleton].
  apply subseteq_size. unfold sym_diff, spec_single. case_bool; [set_solver|].
  intros x. destruct (decide (x = ccs_node_id cc)); [set_solver|].
  destruct (ccs_change_type cc); [| |simpl; case_bool_decide]; set_cases.
Qed.

Section restore.
Context `{HashOrder} (next_idx : u64).

(** Changes that keep a voter go through one by one. *)
Lemma restore_simple_spec (I : Configuration → Prop) ccs t :
  (∀ cfg cc, cc ∈ ccs → I cfg → vin (spec_single cfg cc) ≠ ∅ ∧ I (spec_single cfg cc)) →
  tracker_ok t → vout (pt_conf t) = ∅ → I (pt_conf t) →
  ∃ t', restore_simple next_idx ccs t = (t', Ok ()) ∧
    pt_conf t' = spec_changes (pt_conf t) ccs ∧ tracker_ok t'.
Proof.
  revert t. induction ccs as [|cc ccs IH]; intros t Hstep Ht Ho HI; simpl; [by exists t|].
  destruct (Hstep (pt_conf t) cc ltac:(set_solver) HI) as [Hne HI'].
  pose proof (simple_spec [cc] t next_idx Ht) as Hs. simpl in Hs.
  destruct (simple [cc] t) as [[cfg changes]|e].
  - destruct Hs as (_ & -> & _ & _ & Ht').
    destruct (IH _ ltac:(set_solver) Ht') as (t' & Hr & Hc & Ht''); rewrite ?apply_conf_conf; [|done|].
    + pose proof (proj1 (spec_changes_outgoing (pt_conf t) [cc])) as E. simpl in E. by rewrite E.
    + exists t'. by rewrite apply_conf_conf in Hc.
  - pose proof (spec_single_one (pt_conf t) cc). destruct Hs as [|[|]]; [done..|lia].
Qed.

Lemma restore_simple_app l1 l2 t t1 :
  restore_simple next_idx l1 t = (t1, Ok ()) →
  restore_simple next_idx (l1 ++ l2) t = restore_simple next_idx l2 t1.
Proof.
  revert t. induction l1 as [|cc l1 IH]; intros t; simpl; [by intros [= ->]|].
  destruct (simple [cc] t) as [[cfg changes]|e]; [apply IH|done].
Qed.

Lemma restore_adds l t :
  0 ∉ l → tracker_ok t → vout (pt_conf t) = ∅ →
  ∃ t', restore_simple next_idx (singles AddNode l) t = (t', Ok ()) ∧
    pt_conf t' = spec_changes (pt_conf t) (singles AddNode l) ∧ tracker_ok t'.
Proof.
  intros Hz Ht Ho. apply (restore_simple_spec (λ _, True)); try done.
  intros cfg cc (id & -> & Hid)%list_elem_of_fmap _. split; [|done].
  unfold spec_single. simpl. rewrite (proj2 (N.eqb_neq _ _)) by set_solver. set_cases.
Qed.

Lemma restore_add_learners l t :
  tracker_ok t → vout (pt_conf t) = ∅ → vin (pt_conf t) ≠ ∅ → set_of l ## vin (pt_conf t) →
  ∃ t', restore_simple next_idx (singles AddLearnerNode l) t = (t', Ok ()) ∧
    pt_conf t' = spec_changes (pt_conf t) (singles AddLearnerNode l) ∧ tracker_ok t'.
Proof.
  intros Ht Ho Hne Hd.
  apply (restore_simple_spec (λ cfg, vin cfg = vin (pt_conf t))); try done.
  intros cfg cc (id & -> & Hid)%list_elem_of_fmap HI.
  assert (vin (spec_single cfg (new_conf_change_single id AddLearnerNode)) = vin cfg) as ->;
    [|by rewrite HI].
  unfold spec_single. simpl. case_bool; [done|]. case_bool_decide; set_cases.
Qed.
End restore.

(** The tracker that [restore] starts from. *)
Definition empty_tracker (t : ProgressTracker) : Prop :=
  pt_conf t = Configuration_with_capacity 0 0 ∧ pt_progress t = ∅.

Lemma empty_tracker_ok t : empty_tracker t → tracker_ok t.
Proof.
  intros [Hc Hp]. constructor; rewrite ?Hc, ?Hp; [|set_solver].
  constructor; [|done|done]. constructor; set_solver.
Qed.

Lemma set_of_iter `{HashOrder} s : set_of (iter_set s) = s.
Proof. apply set_eq. intros x. by rewrite elem_of_list_to_set, elem_of_iter_set. Qed.
Lemma zero_iter `{HashOrder} s : 0 ∉ s → 0 ∉ iter_set s.
Proof. by rewrite elem_of_iter_set. Qed.
Lemma iter_set_empty `{HashOrder} s : s = ∅ → iter_set s = [].
Proof. intros ->. apply Permutation_nil_r. rewrite iter_set_perm. by rewrite elements_empty. Qed.
Lemma spec_changes_app cfg l1 l2 :
  spec_changes cfg (l1 ++ l2) = spec_changes (spec_changes cfg l1) l2.
Proof. apply foldl_app. Qed.

Section roundtrip.
Context (o1 o2 : HashOrder) (next_idx : u64) (cfg : Configuration) (t : ProgressTracker).
Context (Hcfg : conf_ok cfg) (Hempty : empty_tracker t).

Lemma restore_simple_conf :
  vout cfg = ∅ →
  ∃ t', restore (H:=o2) next_idx (to_conf_state (H:=o1) cfg) t = (t', Ok ()) ∧
    pt_conf t' = cfg ∧ tracker_ok t'.
Proof using Hcfg Hempty.
  intros Ho. destruct Hcfg as [[Hl Hn Hi Hz] Hs He]. pose proof (empty_tracker_ok t Hempty) as Ht.
  destruct Hempty as [Hc _].
  assert (c_learners_next cfg = ∅) as Hnext by set_solver.
  unfold restore, to_conf_change_single, to_conf_state, raw_slice. simpl.
  rewrite (@iter_set_empty o1 (vout cfg)), (@iter_set_empty o1 (c_learners_next cfg)) by done. simpl.
  rewrite app_nil_r.
  destruct (restore_adds (H:=o2) next_idx (@iter_set o1 (vin cfg)) t) as (t1 & Hr1 & Hc1 & Ht1); [|done|by rewrite Hc|].
  { apply zero_iter. unfold members, all_voters in Hz. set_solver. }
  rewrite (restore_simple_app (H:=o2) _ _ _ _ _ Hr1).
  rewrite Hc, spec_adds, (@set_of_iter o1) in Hc1; [|apply zero_iter; unfold members, all_voters in Hz; set_solver].
  destruct (decide (vin cfg = ∅)) as [Hv|Hv].
  - specialize (He Hv). unfold members, all_voters in He.
    rewrite (@iter_set_empty o1 (c_learners cfg)) by set_solver. simpl.
    exists t1. split_and!; [done| |done]. rewrite Hc1.
    apply Configuration_ext; simpl; set_solver.
  - destruct (restore_add_learners (H:=o2) next_idx (@iter_set o1 (c_learners cfg)) t1) as (t2 & Hr2 & Hc2 & Ht2);
      rewrite ?(@set_of_iter o1), ?Hc1; simpl; [done..|set_solver| |].
    { unfold all_voters in Hl. set_solver. }
    exists t2. split_and!; [done| |done]. rewrite Hc2, Hc1, spec_add_learners, (@set_of_iter o1).
    + apply Configuration_ext; simpl; unfold all_voters in *; set_solver.
    + apply zero_iter. unfold members in Hz. set_solver.
Qed.

Lemma restore_joint_conf :
  vout cfg ≠ ∅ →
  ∃ t', restore (H:=o2) next_idx (to_conf_state (H:=o1) cfg) t = (t', Ok ()) ∧
    pt_conf t' = cfg ∧ tracker_ok t'.
Proof using Hcfg Hempty.
  intros Ho. destruct Hcfg as [[Hl Hn Hi Hz] Hs He]. pose proof (empty_tracker_ok t Hempty) as Ht.
  destruct Hempty as [Hc _]. unfold members, all_voters in *.
  assert (vin cfg ≠ ∅) as Hv by set_solver.
  unfold restore, to_conf_change_single, to_conf_state, raw_slice. simpl.
  rewrite bool_decide_eq_false_2.
  2: { intros Hnil%fmap_nil_inv. apply Ho. by rewrite <-(@set_of_iter o1 (vout cfg)), Hnil. }
  destruct (restore_adds (H:=o2) next_idx (@iter_set o1 (vout cfg)) t) as (t1 & -> & Hc1 & Ht1); [|done|by rewrite Hc|].
  { apply zero_iter. set_solver. }
  rewrite Hc, spec_adds, (@set_of_iter o1) in Hc1 by (apply zero_iter; set_solver).
  match goal with |- context [enter_joint (H:=o2) ?al ?ccs t1] =>
    pose proof (enter_joint_spec (H:=o2) al ccs t1 next_idx Ht1) as Hj end.
  simpl in Hj. rewrite !spec_changes_app in Hj.
  rewrite spec_dels, spec_adds, !spec_add_learners, !(@set_of_iter o1) in Hj by (apply zero_iter; set_solver).
  rewrite Hc1 in Hj. simpl in Hj.
  destruct (enter_joint _ _ _) as [[cfg' changes]|e].
  - destruct Hj as (_ & _ & Hcfg' & _ & _ & Hok). eexists. split; [done|].
    rewrite apply_conf_conf. split; [|done]. rewrite Hcfg'.
    apply Configuration_ext; simpl; try done; set_solver.
  - exfalso. destruct Hj as [?|[?|Hj]]; [set_solver..|]. apply Hv. set_solver.
Qed.
End roundtrip.

(** C27: a configuration written with [to_conf_state] and replayed by [restore]
    on an empty tracker comes back unchanged (joint or not, whatever the hash
    orders on both sides), with progress for exactly its members. *)
Theorem restore_roundtrip (o1 o2 : HashOrder) next_idx cfg t :
  conf_ok cfg → empty_tracker t →
  ∃ t', restore (H:=o2) next_idx (to_conf_state (H:=o1) cfg) t = (t', Ok ()) ∧
    pt_conf t' = cfg ∧ tracker_ok t'.
Proof.
  intros Hc Ht. destruct (decide (vout cfg = ∅)).
  - by apply restore_simple_conf.
  - by apply restore_joint_conf.
Qed.

(** ** Witnesses *)

(** Three voters and a learner. *)
Definition example_tracker : ProgressTracker :=
  let pr := Progress.new 5 4 in
  mkProgressTracker {[1 := pr; 2 := pr; 3 := pr; 7 := pr]} (Configuration_new [1; 2; 3] [7]) ∅ 4 false.

Lemma example_tracker_ok : tracker_ok example_tracker.
Proof.
  repeat constructor; try (apply (bool_decide_unpack _); by vm_compute).
  all: by intros ?%(f_equal size).
Defined.

Lemma run_change_correct_witness :
  let _ := elements_order in
  let c := EnterJoint true [new_conf_change_single 3 AddLearnerNode; new_conf_change_single 4 AddNode] in
  (pt_conf <$> match run_change 9 c example_tracker with Ok t => Some t | Err _ => None end)
    = Some (mkConfiguration (mkJointConfig (Majority.mkConfiguration {[1; 2; 4]})
              (Majority.mkConfiguration {[1; 2; 3]})) {[7]} {[3]} true) ∧
  match run_change 9 c example_tracker with
  | Ok t' => allowed c (pt_conf example_tracker) ∧
      pt_conf t' = spec_change c (pt_conf example_tracker) ∧ tracker_ok t'
  | Err _ => ¬ allowed c (pt_conf example_tracker)
  end.
Proof.
  intros o c. split.
  - apply (bool_decide_unpack _). by vm_compute.
  - apply run_change_correct, example_tracker_ok.
Defined.

Lemma change_quorums_overlap_witness :
  let _ := elements_order in
  ∃ t', run_change 9 (Simple [new_conf_change_single 4 AddNode]) example_tracker = Ok t' ∧
    ∃ v, v ∈ ({[1; 2]} : gset N) ∧ v ∈ ({[2; 3; 4]} : gset N).
Proof.
  intros o. destruct (run_change 9 _ example_tracker) as [t'|e] eqn:E.
  - exists t'. split; [done|].
    apply (change_quorums_overlap 9 (Simple [new_conf_change_single 4 AddNode]) example_tracker t'
             (.∈ ({[1; 2]} : gset N)) (.∈ ({[2; 3; 4]} : gset N)) example_tracker_ok).
    + by intros ?%(f_equal size).
    + done.
    + apply (bool_decide_unpack _). by vm_compute.
    + pose proof (run_change_spec 9 (Simple [new_conf_change_single 4 AddNode]) example_tracker
        example_tracker_ok) as Hs. rewrite E in Hs. destruct Hs as (_ & -> & _).
      apply (bool_decide_unpack _). by vm_compute.
  - exfalso. revert E. by vm_compute.
Defined.

Lemma restore_roundtrip_witness :
  let cfg := mkConfiguration (mkJointConfig (Majority.mkConfiguration {[1; 2; 3]})
                                (Majority.mkConfiguration {[1; 2; 4; 6]})) {[5]} {[4]} true in
  let t := mkProgressTracker ∅ (Configuration_with_capacity 0 0) ∅ 4 false in
  conf_ok cfg ∧
  ∃ t', restore (H:=reverse_order) 9 (to_conf_state (H:=elements_order) cfg) t = (t', Ok ()) ∧
    pt_conf t' = cfg ∧ tracker_ok t'.
Proof.
  intros cfg t.
  assert (conf_ok cfg) as Hc.
  { repeat constructor; try (apply (bool_decide_unpack _); by vm_compute).
    all: by intros ?%(f_equal size). }
  split; [done|]. apply restore_roundtrip; [done|by split].
Defined.
