(* ===== verification/Storage.v ===== *)
(** * The storage interface ([src/storage.rs])

    [Storage] is the trait through which the log reads what the application has
    persisted. [entries] and [snapshot] take the storage by shared reference but
    may update it through interior mutability (an asynchronous fetch records its
    context), so they return the storage as well.

    [StorageLaws] states what the documentation of the trait promises to the log:
    a contiguous run of entries, the term of each, and of the entry before the
    first as long as the storage remembers it. The theorems on the log are proved
    against it; [MemStorage] is the implementation that discharges it. *)
From S2P Require Import Prelude Errors Proto Util.
#[local] Open Scope N_scope.

(** [struct RaftState] *)
Record RaftState := mkRaftState {
  rs_hard_state : HardState;
  rs_conf_state : ConfState }.
#[global] Instance RaftState_eq_dec : EqDecision RaftState.
Proof. solve_decision. Defined.

Definition RaftState_new (hard_state : HardState) (conf_state : ConfState) : RaftState :=
  mkRaftState hard_state conf_state.
Definition initialized (self : RaftState) : bool :=
  negb (bool_decide (rs_conf_state self = ConfState_default)).

(** [enum GetEntriesFor] and [struct GetEntriesContext] *)
Inductive GetEntriesFor : Type :=
  | SendAppend (to term : u64) (aggressively : bool)
  | GenReady
  | TransferLeader
  | CommitByVote
  | Empty (can_async : bool).
Abbreviation GetEntriesContext := GetEntriesFor.
#[global] Instance GetEntriesFor_eq_dec : EqDecision GetEntriesFor.
Proof. solve_decision. Defined.

Definition context_empty (can_async : bool) : GetEntriesContext := Empty can_async.
Definition can_async (self : GetEntriesContext) : bool :=
  match self with
  | SendAppend _ _ _ => true
  | Empty can_async => can_async
  | _ => false
  end.

(** [trait Storage] *)
Class Storage (S : Type) := {
  initial_state : S → result RaftState;
  entries : u64 → u64 → option u64 → GetEntriesContext → S → outcome (S * result (list Entry));
  term : u64 → S → outcome (result u64);
  first_index : S → outcome (result u64);
  last_index : S → outcome (result u64);
  snapshot : u64 → u64 → S → outcome (S * result Snapshot) }.

(** ** What the trait promises *)

(** Entry [i] of a run that starts at position [first] has index [first + i]. *)
Definition contiguous (first : u64) (es : list Entry) : Prop :=
  ∀ i e, es !! i = Some e → e_index e = first + N.of_nat i.

(** The log positions [lo, hi) of a run that starts at [first]. *)
Definition range (first : u64) (es : list Entry) (lo hi : u64) : list Entry :=
  take (N.to_nat (hi - lo)) (drop (N.to_nat (lo - first)) es).

(** [es] is what a size limit leaves of [full]: a prefix, not empty unless
    [full] is, and all of it when there is no limit. *)
Definition limited (max : option u64) (full es : list Entry) : Prop :=
  es `prefix_of` full ∧ (full ≠ [] → es ≠ []) ∧ (max = None ∨ max = Some NO_LIMIT → es = full).

Class StorageLaws (S : Type) `{Storage S} := {
  st_ok : S → Prop;
  st_first : S → u64;
  st_entries : S → list Entry;
  st_dummy_term : S → option u64;

  st_first_pos s : st_ok s → 1 ≤ st_first s;
  st_bound s : st_ok s → st_first s + len (st_entries s) ≤ u64_max;
  st_contiguous s : st_ok s → contiguous (st_first s) (st_entries s);
  st_first_index s : st_ok s → first_index s = Done (Ok (st_first s));
  st_last_index s : st_ok s →
    last_index s = Done (Ok (st_first s + len (st_entries s) - 1));
  st_term_entry s i e : st_ok s → st_entries s !! i = Some e →
    term (st_first s + N.of_nat i) s = Done (Ok (e_term e));
  st_term_dummy s : st_ok s →
    term (st_first s - 1) s =
      Done (match st_dummy_term s with Some t => Ok t | None => Err (Store Compacted) end);
  st_term_above s i : st_ok s → st_first s + len (st_entries s) ≤ i →
    term i s = Done (Err (Store Unavailable));
  st_term_below s i : st_ok s → i < st_first s → ∃ r, term i s = Done r;
  st_entries_compacted s lo hi max ctx : st_ok s → lo < st_first s →
    entries lo hi max ctx s = Done (s, Err (Store Compacted));
  st_entries_range s lo hi max ctx : st_ok s →
    st_first s ≤ lo → lo < hi → hi ≤ st_first s + len (st_entries s) →
    returns (entries lo hi max ctx s) (λ '(s', r),
      st_ok s' ∧ st_first s' = st_first s ∧ st_entries s' = st_entries s ∧
      st_dummy_term s' = st_dummy_term s ∧
      match r with
      | Ok es => limited max (range (st_first s) (st_entries s) lo hi) es
      | Err e => e = Store LogTemporarilyUnavailable ∧ can_async ctx = true
      end);
  st_snapshot s request_index to : st_ok s →
    match snapshot request_index to s with
    | Done (s', _) => st_ok s' ∧ st_first s' = st_first s ∧ st_entries s' = st_entries s ∧
        st_dummy_term s' = st_dummy_term s
    | Panic _ => True
    | NoFuel => False
    end }.

(** ** Lemmas *)

Lemma contiguous_app first es1 es2 :
  contiguous first (es1 ++ es2) ↔ contiguous first es1 ∧ contiguous (first + len es1) es2.
Proof.
  unfold contiguous, len. split.
  - intros Hc. split; intros i e Hi.
    + apply Hc. by apply lookup_app_l_Some.
    + rewrite (Hc (length es1 + i)%nat e); [lia|]. rewrite lookup_app_r by lia. by rewrite Nat.add_comm, Nat.add_sub.
  - intros [H1 H2] i e [Hi|[Hl Hi]]%lookup_app_Some; [by apply H1|].
    rewrite (H2 _ _ Hi). lia.
Qed.
Lemma contiguous_take first es n : contiguous first es → contiguous first (take n es).
Proof. intros Hc i e Hi. apply Hc. by apply lookup_take_Some in Hi as [? _]. Qed.
Lemma contiguous_drop first es n : contiguous first es → contiguous (first + N.of_nat n) (drop n es).
Proof. intros Hc i e Hi. rewrite lookup_drop in Hi. rewrite (Hc _ _ Hi). lia. Qed.
Lemma contiguous_nil first : contiguous first [].
Proof. by intros i e. Qed.
Lemma contiguous_prefix first es es' : contiguous first es → es' `prefix_of` es → contiguous first es'.
Proof. intros Hc [k ->]. by apply contiguous_app in Hc as [? _]. Qed.
#[export] Hint Resolve contiguous_take contiguous_nil : raft.

(** The last entry of a contiguous run. *)
Lemma contiguous_last first es e :
  contiguous first es → last es = Some e → e_index e = first + len es - 1.
Proof.
  intros Hc He. rewrite last_lookup in He. rewrite (Hc _ _ He). unfold len.
  apply lookup_lt_Some in He. lia.
Qed.
Lemma contiguous_head first es e : contiguous first es → head es = Some e → e_index e = first.
Proof. intros Hc He. destruct es; [done|]. injection He as ->. rewrite (Hc 0%nat e); [lia|done]. Qed.

Lemma len_range first es lo hi :
  first ≤ lo → lo ≤ hi → hi ≤ first + len es → len (range first es lo hi) = hi - lo.
Proof. intros. unfold range. autorewrite with len. lia. Qed.

Lemma limited_limit_size `{PbMessage} es max :
  total_size es ≤ u64_max → returns (limit_size es max) (limited max es).
Proof.
  intros Hs. eapply returns_mono; [by apply limit_size_kept|].
  intros kept (n & -> & Hk). destruct Hk as (Hn & Hpos & Hall & _). split_and!.
  - exists (drop n es). by rewrite take_drop.
  - intros Hne. specialize (Hpos Hne). destruct es, n; done || lia.
  - intros Hm. rewrite Hall by done. apply firstn_all.
Qed.

Lemma limited_total_size `{PbMessage} max full es :
  limited max full es → total_size es ≤ total_size full.
Proof. intros [[k ->] _]. rewrite total_size_app. lia. Qed.

(** Asking for a term never fails in other ways than by an answer. *)
Lemma st_term_total {S} `{StorageLaws S} (s : S) i : st_ok s → ∃ r, term i s = Done r.
Proof.
  intros Hs. destruct (N.lt_ge_cases i (st_first s)); [by apply st_term_below|].
  destruct (N.lt_ge_cases i (st_first s + len (st_entries s))).
  - destruct (lookup_lt_is_Some_2 (st_entries s) (N.to_nat (i - st_first s))) as [e He]; [unfold len in *; lia|].
    replace i with (st_first s + N.of_nat (N.to_nat (i - st_first s))) by lia.
    rewrite (st_term_entry _ _ _ Hs He). by eexists.
  - rewrite st_term_above by done. by eexists.
Qed.
