(* ===== verification/MemStorage.v ===== *)
(** * The in-memory storage ([src/storage.rs])

    [MemStorageCore] with all its operations, and the [Storage] implementation of
    [MemStorage]. A [MemStorage] is a shared, lock-protected core; every operation
    takes the lock for its whole duration, so an execution is a sequence of
    operations on the core, and the core is the state modelled here. *)
From S2P Require Import Prelude Errors Proto Util Storage.
#[local] Open Scope N_scope.

(** [struct MemStorageCore] *)
Record MemStorageCore := mkMemStorageCore {
  ms_raft_state : RaftState;
  ms_entries : list Entry;
  ms_snapshot_metadata : SnapshotMetadata;
  ms_trigger_snap_unavailable : bool;
  ms_trigger_log_unavailable : bool;
  ms_get_entries_context : option GetEntriesContext }.

Definition set_ms_raft_state (v : RaftState) (r : MemStorageCore) : MemStorageCore :=
  mkMemStorageCore v (ms_entries r) (ms_snapshot_metadata r) (ms_trigger_snap_unavailable r) (ms_trigger_log_unavailable r) (ms_get_entries_context r).
Definition set_ms_entries (v : list Entry) (r : MemStorageCore) : MemStorageCore :=
  mkMemStorageCore (ms_raft_state r) v (ms_snapshot_metadata r) (ms_trigger_snap_unavailable r) (ms_trigger_log_unavailable r) (ms_get_entries_context r).
Definition set_ms_snapshot_metadata (v : SnapshotMetadata) (r : MemStorageCore) : MemStorageCore :=
  mkMemStorageCore (ms_raft_state r) (ms_entries r) v (ms_trigger_snap_unavailable r) (ms_trigger_log_unavailable r) (ms_get_entries_context r).
Definition set_ms_trigger_snap_unavailable (v : bool) (r : MemStorageCore) : MemStorageCore :=
  mkMemStorageCore (ms_raft_state r) (ms_entries r) (ms_snapshot_metadata r) v (ms_trigger_log_unavailable r) (ms_get_entries_context r).
Definition set_ms_trigger_log_unavailable (v : bool) (r : MemStorageCore) : MemStorageCore :=
  mkMemStorageCore (ms_raft_state r) (ms_entries r) (ms_snapshot_metadata r) (ms_trigger_snap_unavailable r) v (ms_get_entries_context r).
Definition set_ms_get_entries_context (v : option GetEntriesContext) (r : MemStorageCore) : MemStorageCore :=
  mkMemStorageCore (ms_raft_state r) (ms_entries r) (ms_snapshot_metadata r) (ms_trigger_snap_unavailable r) (ms_trigger_log_unavailable r) v.

Definition set_hardstate (hs : HardState) (self : MemStorageCore) : MemStorageCore :=
  set_ms_raft_state (mkRaftState hs (rs_conf_state (ms_raft_state self))) self.
Definition hard_state (self : MemStorageCore) : HardState := rs_hard_state (ms_raft_state self).
Definition set_conf_state (cs : ConfState) (self : MemStorageCore) : MemStorageCore :=
  set_ms_raft_state (mkRaftState (rs_hard_state (ms_raft_state self)) cs) self.

Definition first_index (self : MemStorageCore) : outcome u64 :=
  match head (ms_entries self) with
  | Some e => Done (e_index e)
  | None => sm_index (ms_snapshot_metadata self) +! 1
  end.
Definition last_index (self : MemStorageCore) : u64 :=
  match last (ms_entries self) with
  | Some e => e_index e
  | None => sm_index (ms_snapshot_metadata self)
  end.
Definition has_entry_at (index : u64) (self : MemStorageCore) : outcome bool :=
  if bool_decide (ms_entries self = []) then Done false
  else first ← first_index self; Done ((first <=? index) && (index <=? last_index self)).

Definition commit_to (index : u64) (self : MemStorageCore) : outcome (MemStorageCore * result unit) :=
  has ← has_entry_at index self;
  _ ← assert has;
  e0 ← vindex (ms_entries self) 0;
  diff ← index -! e_index e0;
  let hs := hard_state self in
  let self := set_hardstate (mkHardState (hs_term hs) (hs_vote hs) index) self in
  e ← vindex (ms_entries self) diff;
  let self := set_hardstate (mkHardState (e_term e) (hs_vote hs) index) self in
  Done (self, Ok ()).

Definition apply_snapshot (snapshot : Snapshot) (self : MemStorageCore)
    : outcome (MemStorageCore * result unit) :=
  let meta := s_metadata snapshot in
  let index := sm_index meta in
  first ← first_index self;
  if index <? first then Done (self, Err (Store SnapshotOutOfDate))
  else
    let self := set_ms_snapshot_metadata meta self in
    let hs := hard_state self in
    let self := set_hardstate (mkHardState (N.max (hs_term hs) (sm_term meta)) (hs_vote hs) index) self in
    let self := set_ms_entries [] self in
    Done (set_conf_state (sm_conf_state meta) self, Ok ()).

(** [MemStorageCore::snapshot] *)
Definition core_snapshot (self : MemStorageCore) : outcome Snapshot :=
  let index := hs_commit (hard_state self) in
  term ← match index ?= sm_index (ms_snapshot_metadata self) with
         | Eq => Done (sm_term (ms_snapshot_metadata self))
         | Gt => e0 ← vindex (ms_entries self) 0;
                 i ← index -! e_index e0;
                 e ← vindex (ms_entries self) i;
                 Done (e_term e)
         | Lt => Panic Fatal
         end;
  Done (mkSnapshot [] (mkSnapshotMetadata (rs_conf_state (ms_raft_state self)) index term)).

Definition compact (compact_index : u64) (self : MemStorageCore)
    : outcome (MemStorageCore * result unit) :=
  first ← first_index self;
  if compact_index <=? first then Done (self, Ok ())
  else
    end_ ← last_index self +! 1;
    if end_ <? compact_index then Panic Fatal
    else match head (ms_entries self) with
         | Some entry =>
             offset ← compact_index -! e_index entry;
             ents ← vslice_from (ms_entries self) offset;
             Done (set_ms_entries ents self, Ok ())
         | None => Done (self, Ok ())
         end.

Definition append (ents : list Entry) (self : MemStorageCore) : outcome (MemStorageCore * result unit) :=
  match head ents with
  | None => Done (self, Ok ())
  | Some e0 =>
      first ← first_index self;
      if e_index e0 <? first then Panic Fatal
      else
        end_ ← last_index self +! 1;
        if end_ <? e_index e0 then Panic Fatal
        else
          first ← first_index self;
          diff ← e_index e0 -! first;
          kept ← vslice (ms_entries self) 0 diff;
          Done (set_ms_entries (kept ++ ents) self, Ok ())
  end.

Definition commit_to_and_set_conf_states (idx : u64) (cs : option ConfState) (self : MemStorageCore)
    : outcome (MemStorageCore * result unit) :=
  '(self, r) ← commit_to idx self;
  match r with
  | Err e => Done (self, Err e)
  | Ok _ => Done (match cs with Some cs => set_conf_state cs self | None => self end, Ok ())
  end.

Definition trigger_snap_unavailable (self : MemStorageCore) : MemStorageCore :=
  set_ms_trigger_snap_unavailable true self.
Definition trigger_log_unavailable (v : bool) (self : MemStorageCore) : MemStorageCore :=
  set_ms_trigger_log_unavailable v self.
Definition take_get_entries_context (self : MemStorageCore)
    : MemStorageCore * option GetEntriesContext :=
  (set_ms_get_entries_context None self, ms_get_entries_context self).

(** [MemStorage::new] and [initialize_with_conf_state] *)
Definition new : MemStorageCore :=
  mkMemStorageCore (mkRaftState HardState_default ConfState_default) [] SnapshotMetadata_default
    false false None.
Definition initialize_with_conf_state (conf_state : ConfState) (self : MemStorageCore)
    : outcome MemStorageCore :=
  _ ← assert (negb (initialized (ms_raft_state self)));
  Done (set_conf_state conf_state self).
Definition new_with_conf_state (conf_state : ConfState) : outcome MemStorageCore :=
  initialize_with_conf_state conf_state new.

(** ** [impl Storage for MemStorage] *)

Definition entries `{PbMessage} (low high : u64) (max_size : option u64) (context : GetEntriesContext)
    (core : MemStorageCore) : outcome (MemStorageCore * result (list Entry)) :=
  first ← first_index core;
  if low <? first then Done (core, Err (Store Compacted))
  else
    end_ ← last_index core +! 1;
    if end_ <? high then Panic Fatal
    else if ms_trigger_log_unavailable core && can_async context then
      Done (set_ms_get_entries_context (Some context) core, Err (Store LogTemporarilyUnavailable))
    else
      e0 ← vindex (ms_entries core) 0;
      lo ← low -! e_index e0;
      hi ← high -! e_index e0;
      ents ← vslice (ms_entries core) lo hi;
      ents ← limit_size ents max_size;
      Done (core, Ok ents).

Definition term (idx : u64) (core : MemStorageCore) : outcome (result u64) :=
  if idx =? sm_index (ms_snapshot_metadata core)
  then Done (Ok (sm_term (ms_snapshot_metadata core)))
  else
    offset ← first_index core;
    if idx <? offset then Done (Err (Store Compacted))
    else if last_index core <? idx then Done (Err (Store Unavailable))
    else
      i ← idx -! offset;
      e ← vindex (ms_entries core) i;
      Done (Ok (e_term e)).

Definition snapshot (request_index to : u64) (core : MemStorageCore)
    : outcome (MemStorageCore * result Snapshot) :=
  if ms_trigger_snap_unavailable core then
    Done (set_ms_trigger_snap_unavailable false core, Err (Store SnapshotTemporarilyUnavailable))
  else
    snap ← core_snapshot core;
    let meta := s_metadata snap in
    let snap := if sm_index meta <? request_index
                then mkSnapshot (s_data snap)
                       (mkSnapshotMetadata (sm_conf_state meta) request_index (sm_term meta))
                else snap in
    Done (core, Ok snap).

#[global] Instance MemStorage_Storage `{PbMessage} : Storage MemStorageCore := {
  Storage.initial_state core := Ok (ms_raft_state core);
  Storage.entries := entries;
  Storage.term := term;
  Storage.first_index core := Ok <$> first_index core;
  Storage.last_index core := Done (Ok (last_index core));
  Storage.snapshot := snapshot }.

(** ** Specification *)

(** Where the entries begin. *)
Definition mem_first (core : MemStorageCore) : u64 :=
  match head (ms_entries core) with
  | Some e => e_index e
  | None => sm_index (ms_snapshot_metadata core) + 1
  end.
(** The term before the first entry is the snapshot's, until it is compacted away. *)
Definition mem_dummy_term (core : MemStorageCore) : option u64 :=
  if mem_first core =? sm_index (ms_snapshot_metadata core) + 1
  then Some (sm_term (ms_snapshot_metadata core)) else None.

Record mem_ok `{PbMessage} (core : MemStorageCore) : Prop := {
  mo_contiguous : contiguous (mem_first core) (ms_entries core);
  mo_snapshot : sm_index (ms_snapshot_metadata core) < mem_first core;
  mo_bound : mem_first core + len (ms_entries core) ≤ u64_max;
  mo_size : total_size (ms_entries core) ≤ u64_max }.

(** ** Lemmas *)

Section mem.
Context `{PbMessage} (core : MemStorageCore) (Hok : mem_ok core).

Lemma mem_first_index : first_index core = Done (mem_first core).
Proof using Hok.
  destruct Hok. unfold first_index, mem_first in *. destruct (head _); [done|].
  apply add64_ok. lia.
Qed.

Lemma mem_last_index : last_index core = mem_first core + len (ms_entries core) - 1.
Proof using Hok.
  destruct Hok. unfold last_index. destruct (last _) as [e|] eqn:E.
  - by apply contiguous_last.
  - apply last_None in E. unfold mem_first. rewrite E. simpl. rewrite len_nil. lia.
Qed.

Lemma head_index e : head (ms_entries core) = Some e → e_index e = mem_first core.
Proof using Hok. intros He. unfold mem_first. by rewrite He. Qed.

Lemma vindex_head : ms_entries core ≠ [] →
  ∃ e, vindex (ms_entries core) 0 = Done e ∧ e_index e = mem_first core.
Proof using Hok.
  intros Hne. destruct (ms_entries core) as [|e es] eqn:E; [done|].
  exists e. split; [done|]. apply head_index. by rewrite E.
Qed.

Lemma term_entry i e :
  ms_entries core !! i = Some e → term (mem_first core + N.of_nat i) core = Done (Ok (e_term e)).
Proof using Hok.
  intros Hi. pose proof (lookup_lt_Some _ _ _ Hi) as Hlt. pose proof Hok as [].
  unfold term. rewrite mem_first_index, mem_last_index. simpl. unfold len in *.
  case_bools. rewrite sub64_ok by lia. simpl. unfold vindex.
  replace (N.to_nat _) with i by lia. by rewrite Hi.
Qed.

Lemma term_dummy :
  term (mem_first core - 1) core =
    Done (match mem_dummy_term core with Some t => Ok t | None => Err (Store Compacted) end).
Proof using Hok.
  pose proof Hok as []. unfold term, mem_dummy_term. rewrite mem_first_index. simpl.
  case_bools.
Qed.

Lemma term_above i :
  mem_first core + len (ms_entries core) ≤ i → term i core = Done (Err (Store Unavailable)).
Proof using Hok.
  intros Hi. pose proof Hok as []. unfold term. rewrite mem_first_index, mem_last_index. simpl.
  case_bools.
Qed.

Lemma entries_range lo hi max ctx :
  mem_first core ≤ lo → lo < hi → hi ≤ mem_first core + len (ms_entries core) →
  returns (entries lo hi max ctx core) (λ '(core', r),
    mem_ok core' ∧ mem_first core' = mem_first core ∧ ms_entries core' = ms_entries core ∧
    mem_dummy_term core' = mem_dummy_term core ∧
    match r with
    | Ok es => limited max (range (mem_first core) (ms_entries core) lo hi) es
    | Err e => e = Store LogTemporarilyUnavailable ∧ can_async ctx = true
    end).
Proof using Hok.
  intros Hlo Hlt Hhi. pose proof Hok as [Hc Hs Hb Hsz]. unfold entries.
  rewrite mem_first_index, mem_last_index. simpl. rewrite add64_ok by lia. simpl.
  case_bools. destruct (_ && can_async ctx) eqn:E.
  - apply returns_Done. apply andb_true_iff in E as [_ E].
    split_and!; [by constructor|done..].
  - destruct vindex_head as (e & -> & He); [intros Hn; rewrite Hn in *; unfold len in *; simpl in *; lia|].
    simpl. rewrite He. rewrite !sub64_ok by lia. simpl. unfold vslice.
    rewrite (proj2 (N.leb_le _ _)), (proj2 (N.leb_le _ _)) by lia. simpl.
    replace (hi - mem_first core - (lo - mem_first core)) with (hi - lo) by lia.
    change (take _ (drop _ _)) with (range (mem_first core) (ms_entries core) lo hi).
    destruct (limited_limit_size (range (mem_first core) (ms_entries core) lo hi) max) as (es & -> & Hes).
    { unfold range. etrans; [apply total_size_take|].
      rewrite <-(take_drop (N.to_nat (lo - mem_first core)) (ms_entries core)), total_size_app in Hsz. lia. }
    apply returns_Done. split_and!; done.
Qed.
End mem.

(** The in-memory storage keeps every promise of the storage interface. *)
#[global, program] Instance MemStorage_laws `{PbMessage} : StorageLaws MemStorageCore := {|
  st_ok := mem_ok;
  st_first := mem_first;
  st_entries := ms_entries;
  st_dummy_term := mem_dummy_term |}.
Next Obligation. intros ? s []. lia. Qed.
Next Obligation. by intros ? s []. Qed.
Next Obligation. by intros ? s []. Qed.
Next Obligation. intros. simpl. by rewrite mem_first_index. Qed.
Next Obligation. intros. simpl. by rewrite mem_last_index. Qed.
Next Obligation. intros. by apply term_entry. Qed.
Next Obligation. intros. by apply term_dummy. Qed.
Next Obligation. intros. by apply term_above. Qed.
Next Obligation.
  intros ? s i Hs Hi. simpl. unfold term. case_match; [by eexists|]. rewrite mem_first_index by done. simpl.
  rewrite (proj2 (N.ltb_lt _ _)) by done. by eexists.
Qed.
Next Obligation.
  intros ? s lo hi max ctx Hs Hlo. simpl. unfold entries. rewrite mem_first_index by done. simpl.
  by rewrite (proj2 (N.ltb_lt _ _)).
Qed.
Next Obligation. intros. by apply entries_range. Qed.
Next Obligation.
  intros ? s ri to Hs. simpl. unfold snapshot. destruct (ms_trigger_snap_unavailable s).
  { simpl. split_and!; [|done..]. by destruct Hs. }
  assert (fueled (core_snapshot s)) as Hn by (unfold core_snapshot; fueled).
  by destruct (core_snapshot s).
Qed.

(** appending a contiguous run that starts inside the log or right after it
    replaces the log from there on (and the result reads back, since it is again
    a lawful storage); a run that starts before the first entry or leaves a gap
    panics. *)
Theorem mem_append_spec `{PbMessage} core e0 es :
  mem_ok core → contiguous (e_index e0) (e0 :: es) →
  e_index e0 + len (e0 :: es) ≤ u64_max →
  total_size (ms_entries core) + total_size (e0 :: es) ≤ u64_max →
  if bool_decide (mem_first core ≤ e_index e0 ≤ mem_first core + len (ms_entries core)) then
    returns (append (e0 :: es) core) (λ '(core', r),
      r = Ok () ∧ mem_ok core' ∧ mem_first core' = mem_first core ∧
      mem_dummy_term core' = mem_dummy_term core ∧
      ms_entries core' = range (mem_first core) (ms_entries core) (mem_first core) (e_index e0) ++ e0 :: es)
  else append (e0 :: es) core = Panic Fatal.
Proof.
  intros Hok Hce Hbe Hse. pose proof Hok as [Hc Hs Hb Hsz]. unfold append. simpl.
  rewrite mem_first_index, mem_last_index by done. simpl. rewrite add64_ok by lia. simpl.
  case_bools. rewrite sub64_ok by lia. simpl. unfold vslice, range.
  rewrite (proj2 (N.leb_le 0 _)), (proj2 (N.leb_le _ (len _))) by lia. simpl.
  rewrite N.sub_0_r, N.sub_diag, drop_0.
  set (kept := take _ _).
  assert (len kept = e_index e0 - mem_first core) as Hk by (unfold kept; autorewrite with len; lia).
  assert (mem_first (set_ms_entries (kept ++ e0 :: es) core) = mem_first core) as Hf.
  { unfold mem_first at 1. simpl. destruct kept as [|k kept'] eqn:E; simpl.
    - rewrite len_nil in Hk. lia.
    - apply (contiguous_head _ (k :: kept')); [|done]. rewrite <-E. by apply contiguous_take. }
  apply returns_Done. split_and!; [done| |done| |done].
  - constructor; rewrite ?Hf; simpl; [|done|..].
    + apply contiguous_app. split; [by apply contiguous_take|].
      replace (mem_first core + len kept) with (e_index e0) by lia. done.
    + autorewrite with len in *. lia.
    + rewrite total_size_app. pose proof (total_size_take (N.to_nat (e_index e0 - mem_first core)) (ms_entries core)).
      unfold kept. simpl in *. lia.
  - unfold mem_dummy_term. by rewrite Hf.
Qed.

(** compacting up to an index inside the log keeps the entries from there on
    and forgets the term before them; compacting what is already gone changes
    nothing, compacting beyond the next index panics, and a snapshot replaces the
    log unless it is older than the log's first entry. *)
Theorem mem_compact_spec `{PbMessage} core i :
  mem_ok core →
  if bool_decide (i ≤ mem_first core) then compact i core = Done (core, Ok ())
  else if bool_decide (i < mem_first core + len (ms_entries core)) then
    returns (compact i core) (λ '(core', r),
      r = Ok () ∧ mem_ok core' ∧ mem_first core' = i ∧ mem_dummy_term core' = None ∧
      ms_entries core' = range (mem_first core) (ms_entries core) i (mem_first core + len (ms_entries core)))
  else mem_first core + len (ms_entries core) < i → compact i core = Panic Fatal.
Proof.
  intros Hok. pose proof Hok as [Hc Hs Hb Hsz]. unfold compact.
  rewrite mem_first_index, mem_last_index by done. simpl. rewrite add64_ok by lia.
  case_bools.
  destruct (head (ms_entries core)) as [e|] eqn:He.
  2: { apply head_None in He. rewrite He, len_nil in *. lia. }
  rewrite (head_index core Hok e He). rewrite sub64_ok by lia. simpl.
  unfold vslice_from. rewrite (proj2 (N.leb_le _ _)) by lia. simpl. apply returns_Done.
  set (d := N.to_nat (i - mem_first core)).
  assert (range (mem_first core) (ms_entries core) i (mem_first core + len (ms_entries core)) = drop d (ms_entries core)) as Hr.
  { unfold range. apply take_ge. rewrite length_drop. unfold len. lia. }
  assert (contiguous i (drop d (ms_entries core))) as Hcd.
  { replace i with (mem_first core + N.of_nat d) by (unfold d; lia). by apply contiguous_drop. }
  assert (mem_first (set_ms_entries (drop d (ms_entries core)) core) = i) as Hf.
  { unfold mem_first at 1. simpl. destruct (head (drop d (ms_entries core))) as [e'|] eqn:He'.
    - by apply (contiguous_head _ (drop d (ms_entries core))).
    - apply head_None in He'. apply (f_equal len) in He'. autorewrite with len in He'. unfold d in *. lia. }
  split_and!; [done| |done| |by rewrite Hr].
  - constructor; rewrite ?Hf; simpl; [done|lia|autorewrite with len; unfold d; lia|].
    rewrite <-(take_drop d (ms_entries core)), total_size_app in Hsz. lia.
  - unfold mem_dummy_term. rewrite Hf. simpl. case_bools.
Qed.

(** C40: Compacting everything (an index the documentation allows) leaves no entry to
    remember the position by: the first index falls back behind the snapshot. *)
Theorem mem_compact_all_forgets `{PbMessage} core :
  mem_ok core → sm_index (ms_snapshot_metadata core) + 1 < mem_first core + len (ms_entries core) →
  ms_entries core ≠ [] →
  returns (compact (mem_first core + len (ms_entries core)) core) (λ '(core', r),
    r = Ok () ∧ first_index core' = Done (sm_index (ms_snapshot_metadata core) + 1)).
Proof.
  intros Hok Hlt Hne. pose proof Hok as [Hc Hs Hb Hsz]. unfold compact.
  rewrite mem_first_index, mem_last_index by done. simpl. rewrite add64_ok by lia. simpl.
  apply len_pos in Hne. case_bools.
  destruct (head (ms_entries core)) as [e|] eqn:He.
  2: { apply head_None in He. rewrite He, len_nil in *. lia. }
  rewrite (head_index core Hok e He). rewrite sub64_ok by lia. simpl.
  unfold vslice_from. rewrite (proj2 (N.leb_le _ _)) by lia. simpl. apply returns_Done.
  split; [done|]. unfold first_index. simpl. rewrite drop_ge by (unfold len; lia). simpl.
  apply add64_ok. lia.
Qed.

Lemma apply_snapshot_spec `{PbMessage} core snap :
  mem_ok core → sm_index (s_metadata snap) < u64_max →
  returns (apply_snapshot snap core) (λ '(core', r),
    if bool_decide (sm_index (s_metadata snap) < mem_first core)
    then r = Err (Store SnapshotOutOfDate) ∧ core' = core
    else r = Ok () ∧ mem_ok core' ∧ ms_entries core' = [] ∧
      mem_first core' = sm_index (s_metadata snap) + 1 ∧
      mem_dummy_term core' = Some (sm_term (s_metadata snap)) ∧
      hs_commit (hard_state core') = sm_index (s_metadata snap)).
Proof.
  intros Hok Hi. unfold apply_snapshot. rewrite mem_first_index by done. simpl.
  case_bools; apply returns_Done; split_and!; try done.
  - constructor; simpl; unfold mem_first; simpl; [apply contiguous_nil|lia|rewrite len_nil; lia|].
    unfold u64_max. lia.
  - unfold mem_dummy_term, mem_first. simpl. by rewrite N.eqb_refl.
Qed.

(** ** Witnesses *)

Definition example_core : MemStorageCore :=
  mkMemStorageCore (mkRaftState (mkHardState 2 0 4) ConfState_default)
    [mkEntry EntryNormal 1 4 [] [] false; mkEntry EntryNormal 2 5 [] [] false]
    (mkSnapshotMetadata ConfState_default 3 1) false false None.

Lemma example_contiguous first t1 t2 :
  contiguous first [mkEntry EntryNormal t1 first [] [] false; mkEntry EntryNormal t2 (first + 1) [] [] false].
Proof. intros [|[|i]] e Hi; simplify_eq/=; lia. Defined.

Section witnesses.
#[local] Instance PB : PbMessage := {| compute_size e := 4 + len (e_data e) |}.

Lemma example_core_ok : mem_ok example_core.
Proof. constructor; [apply (example_contiguous 4)|done..]. Defined.

Lemma mem_append_spec_witness :
  let e0 := mkEntry EntryNormal 3 5 [] [] false in
  let e1 := mkEntry EntryNormal 3 6 [] [] false in
  returns (append [e0; e1] example_core) (λ '(core', r),
    r = Ok () ∧ mem_ok core' ∧ mem_first core' = 4 ∧
    mem_dummy_term core' = mem_dummy_term example_core ∧
    ms_entries core' = [mkEntry EntryNormal 1 4 [] [] false; e0; e1]).
Proof.
  intros e0 e1.
  apply (mem_append_spec example_core e0 [e1] example_core_ok (example_contiguous 5 3 3)); done.
Defined.

Lemma mem_compact_spec_witness :
  returns (compact 5 example_core) (λ '(core', r),
    r = Ok () ∧ mem_ok core' ∧ mem_first core' = 5 ∧ mem_dummy_term core' = None ∧
    ms_entries core' = [mkEntry EntryNormal 2 5 [] [] false]).
Proof. apply (mem_compact_spec example_core 5 example_core_ok). Defined.

Lemma mem_compact_all_forgets_witness :
  first_index example_core = Done 4 ∧
  returns (compact 6 example_core) (λ '(core', r), r = Ok () ∧ first_index core' = Done 4).
Proof. split; [done|]. by apply (mem_compact_all_forgets example_core example_core_ok). Defined.
End witnesses.
