(* ===== verification/Unstable.v ===== *)
(** * Unstable entries ([src/log_unstable.rs])

    The entries and the snapshot that are not in the storage yet. *)
From S2P Require Import Prelude Errors Proto Util Storage.
#[local] Open Scope N_scope.

(** [struct Unstable] *)
Record Unstable := mkUnstable {
  u_snapshot : option Snapshot;
  u_entries : list Entry;
  u_entries_size : usize;
  u_offset : u64 }.

Definition set_u_snapshot (v : option Snapshot) (r : Unstable) : Unstable :=
  mkUnstable v (u_entries r) (u_entries_size r) (u_offset r).
Definition set_u_entries (v : list Entry) (r : Unstable) : Unstable :=
  mkUnstable (u_snapshot r) v (u_entries_size r) (u_offset r).
Definition set_u_entries_size (v : usize) (r : Unstable) : Unstable :=
  mkUnstable (u_snapshot r) (u_entries r) v (u_offset r).
Definition set_u_offset (v : u64) (r : Unstable) : Unstable :=
  mkUnstable (u_snapshot r) (u_entries r) (u_entries_size r) v.

Definition new (offset : u64) : Unstable := mkUnstable None [] 0 offset.

Definition maybe_first_index (self : Unstable) : outcome (option u64) :=
  match u_snapshot self with
  | Some snap => i ← sm_index (s_metadata snap) +! 1; Done (Some i)
  | None => Done None
  end.

Definition maybe_last_index (self : Unstable) : outcome (option u64) :=
  if len (u_entries self) =? 0 then Done ((λ snap, sm_index (s_metadata snap)) <$> u_snapshot self)
  else i ← u_offset self +! len (u_entries self); i ← i -! 1; Done (Some i).

Definition maybe_term (idx : u64) (self : Unstable) : outcome (option u64) :=
  if idx <? u_offset self then
    match u_snapshot self with
    | None => Done None
    | Some snapshot =>
        let meta := s_metadata snapshot in
        if idx =? sm_index meta then Done (Some (sm_term meta)) else Done None
    end
  else
    last ← maybe_last_index self;
    match last with
    | None => Done None
    | Some last =>
        if last <? idx then Done None
        else i ← idx -! u_offset self; e ← vindex (u_entries self) i; Done (Some (e_term e))
    end.

Definition stable_entries (index term : u64) (self : Unstable) : outcome Unstable :=
  _ ← assert (bool_decide (u_snapshot self = None));
  match last (u_entries self) with
  | Some entry =>
      if negb (e_index entry =? index) || negb (e_term entry =? term) then Panic Fatal
      else
        offset ← e_index entry +! 1;
        let self := set_u_offset offset self in
        let self := set_u_entries [] self in
        Done (set_u_entries_size 0 self)
  | None => Panic Fatal
  end.

Definition stable_snap (index : u64) (self : Unstable) : outcome Unstable :=
  match u_snapshot self with
  | Some snap =>
      if negb (sm_index (s_metadata snap) =? index) then Panic Fatal
      else Done (set_u_snapshot None self)
  | None => Panic Fatal
  end.

Definition restore (snap : Snapshot) (self : Unstable) : outcome Unstable :=
  let self := set_u_entries [] self in
  let self := set_u_entries_size 0 self in
  offset ← sm_index (s_metadata snap) +! 1;
  let self := set_u_offset offset self in
  Done (set_u_snapshot (Some snap) self).

Definition must_check_outofbounds (lo hi : u64) (self : Unstable) : outcome unit :=
  if hi <? lo then Panic Fatal
  else
    upper ← u_offset self +! len (u_entries self);
    if (lo <? u_offset self) || (upper <? hi) then Panic Fatal else Done ().

(** [for e in ents { size -= entry_approximate_size(e) }] *)
Fixpoint subtract_sizes (size : usize) (ents : list Entry) : outcome usize :=
  match ents with
  | [] => Done size
  | e :: ents => n ← entry_approximate_size e; size ← size -! n; subtract_sizes size ents
  end.
(** [ents.iter().map(entry_approximate_size).sum::<usize>()] *)
Fixpoint sum_sizes (acc : usize) (ents : list Entry) : outcome usize :=
  match ents with
  | [] => Done acc
  | e :: ents => n ← entry_approximate_size e; acc ← acc +! n; sum_sizes acc ents
  end.

(** The three cases of [truncate_and_append], before the entries are added. *)
Definition truncate_to (after : u64) (self : Unstable) : outcome Unstable :=
  end_ ← u_offset self +! len (u_entries self);
  if after =? end_ then Done self
  else if after <=? u_offset self then
    let self := set_u_offset after self in
    let self := set_u_entries [] self in
    Done (set_u_entries_size 0 self)
  else
    let off := u_offset self in
    _ ← must_check_outofbounds off after self;
    n ← after -! off;
    dropped ← vslice_from (u_entries self) n;
    size ← subtract_sizes (u_entries_size self) dropped;
    let self := set_u_entries_size size self in
    Done (set_u_entries (vtruncate n (u_entries self)) self).
Definition truncate_and_append (ents : list Entry) (self : Unstable) : outcome Unstable :=
  e0 ← vindex ents 0;
  let after := e_index e0 in
  self ← truncate_to after self;
  let self := set_u_entries (u_entries self ++ ents) self in
  added ← sum_sizes 0 ents;
  size ← u_entries_size self +! added;
  Done (set_u_entries_size size self).

Definition slice (lo hi : u64) (self : Unstable) : outcome (list Entry) :=
  _ ← must_check_outofbounds lo hi self;
  let off := u_offset self in
  l ← lo -! off;
  h ← hi -! off;
  vslice (u_entries self) l h.

(** ** Specification *)

(** The memory taken by a list of entries, as [entry_approximate_size] counts it. *)
Definition approximate_size (es : list Entry) : N :=
  foldr (λ e n, len (e_data e) + len (e_context e) + 12 + n) 0 es.

Record unstable_ok (self : Unstable) : Prop := {
  uo_contiguous : contiguous (u_offset self) (u_entries self);
  uo_bound : u_offset self + len (u_entries self) ≤ u64_max;
  uo_pos : 1 ≤ u_offset self;
  uo_size : u_entries_size self = approximate_size (u_entries self);
  uo_snapshot : ∀ s, u_snapshot self = Some s → u_offset self = sm_index (s_metadata s) + 1 }.

(** ** Lemmas *)

Lemma approximate_size_app es1 es2 :
  approximate_size (es1 ++ es2) = approximate_size es1 + approximate_size es2.
Proof. induction es1 as [|e es1 IH]; simpl; [done|]. rewrite IH. lia. Qed.

Lemma entry_approximate_size_ok e :
  len (e_data e) + len (e_context e) + 12 ≤ u64_max →
  entry_approximate_size e = Done (len (e_data e) + len (e_context e) + 12).
Proof. intros. unfold entry_approximate_size. by step_ok. Qed.

Lemma subtract_sizes_spec size es :
  approximate_size es ≤ size → size ≤ u64_max →
  subtract_sizes size es = Done (size - approximate_size es).
Proof.
  revert size. induction es as [|e es IH]; intros size Hle Hb; simpl in *; [by rewrite N.sub_0_r|].
  rewrite entry_approximate_size_ok by lia. simpl. rewrite sub64_ok by lia. simpl.
  rewrite IH by lia. f_equal. lia.
Qed.

Lemma sum_sizes_spec acc es :
  acc + approximate_size es ≤ u64_max → sum_sizes acc es = Done (acc + approximate_size es).
Proof.
  revert acc. induction es as [|e es IH]; intros acc Hb; simpl in *; [by rewrite N.add_0_r|].
  rewrite entry_approximate_size_ok by lia. simpl. rewrite add64_ok by lia. simpl.
  rewrite IH by lia. f_equal. lia.
Qed.

Section unstable.
Context (self : Unstable) (Hok : unstable_ok self).

Lemma maybe_first_index_spec :
  maybe_first_index self = Done (_ ← u_snapshot self; Some (u_offset self)).
Proof using Hok.
  destruct Hok. unfold maybe_first_index. destruct (u_snapshot self) as [s|]; [|done].
  rewrite add64_ok; [simpl; by rewrite (uo_snapshot0 s)|]. rewrite <-(uo_snapshot0 s) by done. lia.
Qed.

Lemma maybe_last_index_spec :
  maybe_last_index self = Done (
    if decide (u_entries self ≠ [] ∨ u_snapshot self ≠ None)
    then Some (u_offset self + len (u_entries self) - 1) else None).
Proof using Hok.
  destruct Hok. unfold maybe_last_index. destruct (N.eqb_spec (len (u_entries self)) 0) as [E|E].
  - apply len_0_iff in E. rewrite E. destruct (u_snapshot self) as [s|]; case_decide; try naive_solver.
    simpl. rewrite (uo_snapshot0 s), len_nil by done. do 2 f_equal. lia.
  - assert (u_entries self ≠ []) by (intros Hn; rewrite Hn in E; done).
    rewrite add64_ok by lia. simpl. rewrite sub64_ok by lia. simpl. rewrite decide_True by auto. done.
Qed.

Lemma maybe_term_spec idx :
  maybe_term idx self = Done (
    if idx <? u_offset self
    then s ← u_snapshot self; if idx =? u_offset self - 1 then Some (sm_term (s_metadata s)) else None
    else e_term <$> u_entries self !! N.to_nat (idx - u_offset self)).
Proof using Hok.
  pose proof Hok as []. unfold maybe_term. destruct (N.ltb_spec idx (u_offset self)) as [Hlt|Hge].
  - destruct (u_snapshot self) as [s|]; [|done]. simpl. specialize (uo_snapshot0 s eq_refl).
    case_bools.
  - rewrite maybe_last_index_spec. simpl. case_decide as Hd.
    + destruct (N.ltb_spec (u_offset self + len (u_entries self) - 1) idx) as [Hl|Hl].
      * rewrite lookup_ge_None_2; [done|]. unfold len in Hl. lia.
      * rewrite sub64_ok by lia. simpl. destruct (vindex_ok (u_entries self) (idx - u_offset self)) as [e He].
        { unfold len in *. lia. }
        rewrite He. apply vindex_Done in He. by rewrite He.
    + rewrite lookup_ge_None_2; [done|]. destruct (u_entries self); [simpl; lia|naive_solver].
Qed.

Lemma approximate_size_split n :
  approximate_size (take n (u_entries self)) + approximate_size (drop n (u_entries self)) =
  approximate_size (u_entries self).
Proof. by rewrite <-approximate_size_app, take_drop. Qed.

Lemma truncate_to_spec after :
  approximate_size (u_entries self) ≤ u64_max →
  if after <=? u_offset self + len (u_entries self) then
    returns (truncate_to after self) (λ self',
      let kept := take (N.to_nat (after - u_offset self)) (u_entries self) in
      u_snapshot self' = u_snapshot self ∧ u_offset self' = N.min (u_offset self) after ∧
      u_entries self' = kept ∧ u_entries_size self' = approximate_size kept)
  else truncate_to after self = Panic Fatal.
Proof using Hok.
  intros Hsz. pose proof Hok as [Hc Hb Ho Hs Hsn].
  pose proof (approximate_size_split (N.to_nat (after - u_offset self))) as Hsplit.
  unfold truncate_to, must_check_outofbounds. rewrite add64_ok by done. simpl.
  destruct (N.eqb_spec after (u_offset self + len (u_entries self))) as [->|Hne].
  { rewrite (proj2 (N.leb_le _ _)) by lia. apply returns_Done.
    rewrite take_ge by (unfold len; lia). split_and!; [done|lia|done..]. }
  destruct (N.leb_spec after (u_offset self)) as [Hle|Hgt].
  { rewrite (proj2 (N.leb_le _ _)) by lia. apply returns_Done.
    replace (N.to_nat (after - u_offset self)) with 0%nat by lia. simpl. split_and!; [done|lia|done..]. }
  case_bools. rewrite sub64_ok by lia. simpl. unfold vslice_from.
  rewrite (proj2 (N.leb_le _ _)) by lia. simpl. rewrite subtract_sizes_spec by lia.
  apply returns_Done. simpl. split_and!; [done|lia|done|lia].
Qed.

(** Appending replaces the unstable entries from the first new index on; entries
    that would leave a gap are refused with a panic. *)
Lemma truncate_and_append_spec e0 es :
  contiguous (e_index e0) (e0 :: es) → 1 ≤ e_index e0 → e_index e0 + len (e0 :: es) ≤ u64_max →
  (u_snapshot self ≠ None → u_offset self ≤ e_index e0) →
  approximate_size (u_entries self) + approximate_size (e0 :: es) ≤ u64_max →
  if e_index e0 <=? u_offset self + len (u_entries self) then
    returns (truncate_and_append (e0 :: es) self) (λ self',
      unstable_ok self' ∧ u_snapshot self' = u_snapshot self ∧
      u_offset self' = N.min (u_offset self) (e_index e0) ∧
      u_entries self' = take (N.to_nat (e_index e0 - u_offset self)) (u_entries self) ++ e0 :: es)
  else truncate_and_append (e0 :: es) self = Panic Fatal.
Proof using Hok.
  intros Hce Hpos Hbe Hsnap Hsz. pose proof Hok as [Hc Hb Ho Hs Hsn].
  pose proof (approximate_size_split (N.to_nat (e_index e0 - u_offset self))) as Hsplit.
  pose proof (truncate_to_spec (e_index e0) ltac:(lia)) as Ht.
  unfold truncate_and_append. change (vindex (e0 :: es) 0) with (Done e0). cbn [mbind outcome_bind].
  destruct (N.leb_spec (e_index e0) (u_offset self + len (u_entries self))) as [Hin|Hout]; [|by rewrite Ht].
  destruct Ht as (self1 & -> & H1 & H2 & H3 & H4). cbn [mbind outcome_bind u_entries_size set_u_entries].
  rewrite sum_sizes_spec by lia. cbn [mbind outcome_bind]. rewrite H4, N.add_0_l, add64_ok by lia.
  apply returns_Done. simpl. rewrite H1, H2, H3. split_and!; [|done..].
  set (kept := take _ _) in *.
  assert (len kept = e_index e0 - u_offset self) as Hk by (unfold kept; autorewrite with len; lia).
  constructor; simpl; rewrite ?H1, ?H2, ?H3, ?approximate_size_app; [|autorewrite with len in *; lia|lia|done|].
  - apply contiguous_app. split.
    + destruct (N.le_gt_cases (u_offset self) (e_index e0)).
      * rewrite N.min_l by done. by apply contiguous_take.
      * rewrite (proj1 (len_0_iff kept)) by lia. apply contiguous_nil.
    + by replace (N.min (u_offset self) (e_index e0) + len kept) with (e_index e0) by lia.
  - intros s Hss. rewrite <-(Hsn s Hss), N.min_l; [done|]. apply Hsnap. congruence.
Qed.

Lemma unstable_slice lo hi :
  u_offset self ≤ lo → lo ≤ hi → hi ≤ u_offset self + len (u_entries self) →
  slice lo hi self = Done (range (u_offset self) (u_entries self) lo hi).
Proof using Hok.
  intros. pose proof Hok as []. unfold slice, must_check_outofbounds, range.
  rewrite add64_ok by done. simpl. case_bools. rewrite !sub64_ok by lia. simpl.
  unfold vslice. rewrite !(proj2 (N.leb_le _ _)) by lia. simpl. do 3 f_equal. lia.
Qed.
End unstable.
