(* ===== verification/ReadOnly.v ===== *)
(** * Read-only requests ([src/read_only.rs])

    Linearizable reads: a queue of request contexts, and for each its request, the
    commit index when it arrived, and who confirmed the leader since. *)
From S2P Require Import Prelude Errors Proto Util.
#[local] Open Scope N_scope.

Inductive ReadOnlyOption : Set := Safe | LeaseBased.
#[global] Instance ReadOnlyOption_eq_dec : EqDecision ReadOnlyOption.
Proof. solve_decision. Defined.

Record ReadState := mkReadState { rd_index : u64; rd_request_ctx : bytes }.
#[global] Instance ReadState_eq_dec : EqDecision ReadState.
Proof. solve_decision. Defined.

Record ReadIndexStatus := mkReadIndexStatus {
  ris_req : Message;
  ris_index : u64;
  ris_acks : gset N }.

Record ReadOnly := mkReadOnly {
  ro_option : ReadOnlyOption;
  ro_pending_read_index : gmap bytes ReadIndexStatus;
  ro_read_index_queue : list bytes }.

Definition set_ro_option (v : ReadOnlyOption) (r : ReadOnly) : ReadOnly :=
  mkReadOnly v (ro_pending_read_index r) (ro_read_index_queue r).
Definition set_ro_pending_read_index (v : gmap bytes ReadIndexStatus) (r : ReadOnly) : ReadOnly :=
  mkReadOnly (ro_option r) v (ro_read_index_queue r).
Definition set_ro_read_index_queue (v : list bytes) (r : ReadOnly) : ReadOnly :=
  mkReadOnly (ro_option r) (ro_pending_read_index r) v.

Definition new (option : ReadOnlyOption) : ReadOnly := mkReadOnly option ∅ [].

Definition add_request (index : u64) (req : Message) (self_id : u64) (self : ReadOnly)
    : outcome ReadOnly :=
  e0 ← vindex (m_entries req) 0;
  let ctx := e_data e0 in
  if bool_decide (is_Some (ro_pending_read_index self !! ctx)) then Done self
  else
    let acks := {[self_id]} in
    let status := mkReadIndexStatus req index acks in
    let self := set_ro_pending_read_index (<[ctx := status]> (ro_pending_read_index self)) self in
    Done (set_ro_read_index_queue (ro_read_index_queue self ++ [ctx]) self).

Definition recv_ack (id : u64) (ctx : bytes) (self : ReadOnly) : ReadOnly * option (gset N) :=
  match ro_pending_read_index self !! ctx with
  | Some rs =>
      let acks := {[id]} ∪ ris_acks rs in
      let rs := mkReadIndexStatus (ris_req rs) (ris_index rs) acks in
      (set_ro_pending_read_index (<[ctx := rs]> (ro_pending_read_index self)) self, Some acks)
  | None => (self, None)
  end.

(** [read_index_queue.iter().position(..)], whose closure panics on a context
    that is not pending *)
Fixpoint position (pending : gmap bytes ReadIndexStatus) (ctx : bytes) (queue : list bytes)
    : outcome (option nat) :=
  match queue with
  | [] => Done None
  | x :: queue =>
      if bool_decide (pending !! x = None) then Panic Fatal
      else if bool_decide (x = ctx) then Done (Some 0%nat)
      else r ← position pending ctx queue; Done (option_map S r)
  end.
(** [for _ in 0..=i] : [n] requests are taken off the queue. *)
Fixpoint pop_requests (n : nat) (self : ReadOnly) : outcome (ReadOnly * list ReadIndexStatus) :=
  match n with
  | O => Done (self, [])
  | S n =>
      rs ← unwrap (head (ro_read_index_queue self));
      let self := set_ro_read_index_queue (tail (ro_read_index_queue self)) self in
      status ← unwrap (ro_pending_read_index self !! rs);
      let self := set_ro_pending_read_index (delete rs (ro_pending_read_index self)) self in
      '(self, rss) ← pop_requests n self;
      Done (self, status :: rss)
  end.
Definition advance (ctx : bytes) (self : ReadOnly) : outcome (ReadOnly * list ReadIndexStatus) :=
  i ← position (ro_pending_read_index self) ctx (ro_read_index_queue self);
  match i with
  | Some i => pop_requests (S i) self
  | None => Done (self, [])
  end.

Definition last_pending_request_ctx (self : ReadOnly) : option bytes :=
  last (ro_read_index_queue self).
Definition pending_read_count (self : ReadOnly) : usize := len (ro_read_index_queue self).

(** ** Specification *)

(** The queue lists the pending requests, each once, in the order of the commit
    index they arrived at. *)
Record ro_ok (self : ReadOnly) : Prop := {
  ro_nodup : NoDup (ro_read_index_queue self);
  ro_dom : ∀ ctx, ctx ∈ ro_read_index_queue self ↔ is_Some (ro_pending_read_index self !! ctx);
  ro_ctx : ∀ ctx rs, ro_pending_read_index self !! ctx = Some rs →
    e_data <$> head (m_entries (ris_req rs)) = Some ctx }.

(** The pending requests in queue order. *)
Definition statuses (self : ReadOnly) : list ReadIndexStatus :=
  omap (λ ctx, ro_pending_read_index self !! ctx) (ro_read_index_queue self).

(** ** Lemmas *)

Lemma new_ok o : ro_ok (new o).
Proof.
  constructor; simpl; [constructor| |done].
  intros ctx. rewrite elem_of_nil. split; [done|]. by intros [].
Qed.

Lemma position_spec pending ctx queue :
  (∀ x, x ∈ queue → is_Some (pending !! x)) →
  match position pending ctx queue with
  | Done (Some i) => ∃ q1 q2, queue = q1 ++ ctx :: q2 ∧ length q1 = i ∧ ctx ∉ q1
  | Done None => ctx ∉ queue
  | _ => False
  end.
Proof.
  induction queue as [|x queue IH]; intros Hq; simpl; [set_solver|].
  destruct (Hq x) as [rs Hrs]; [set_solver|]. rewrite Hrs. simpl.
  case_bool_decide as Hx; [subst; exists [], queue; set_solver|].
  specialize (IH ltac:(set_solver)). destruct (position pending ctx queue) as [[i|]| |]; simpl; try done.
  - destruct IH as (q1 & q2 & -> & <- & Hn). exists (x :: q1), q2. set_solver.
  - set_solver.
Qed.

Lemma ro_ok_tail self x q rs :
  ro_ok self → ro_read_index_queue self = x :: q → ro_pending_read_index self !! x = Some rs →
  ro_ok (set_ro_pending_read_index (delete x (ro_pending_read_index self))
           (set_ro_read_index_queue q self)).
Proof.
  intros [Hnd Hd Hc] Hq Hx. rewrite Hq in *. apply NoDup_cons in Hnd as [Hn Hnd].
  constructor; simpl; [done|..].
  - intros ctx. destruct (decide (ctx = x)) as [->|Hne].
    + rewrite lookup_delete_eq. split; [done|by intros []].
    + rewrite lookup_delete_ne, <-Hd by done. rewrite elem_of_cons. naive_solver.
  - intros ctx rs' [_ Hl]%lookup_delete_Some. eauto.
Qed.

(** [rss] are the pending statuses of the contexts [q]. *)
Abbreviation pending_of self q rss :=
  (Forall2 (λ ctx rs, ro_pending_read_index self !! ctx = Some rs) q rss).

Lemma pop_requests_spec q1 q2 self :
  ro_ok self → ro_read_index_queue self = q1 ++ q2 →
  returns (pop_requests (length q1) self) (λ '(self', rss),
    ro_ok self' ∧ ro_option self' = ro_option self ∧ ro_read_index_queue self' = q2 ∧
    pending_of self q1 rss ∧
    ∀ ctx, ctx ∈ q2 → ro_pending_read_index self' !! ctx = ro_pending_read_index self !! ctx).
Proof.
  revert self. induction q1 as [|x q1 IH]; intros self Hok Hq; simpl.
  { apply returns_Done. split_and!; try done. }
  assert (is_Some (ro_pending_read_index self !! x)) as [rs Hrs].
  { apply Hok. rewrite Hq. set_solver. }
  pose proof (ro_nodup _ Hok) as Hnd. rewrite Hq in Hnd. simpl in Hnd.
  apply NoDup_cons in Hnd as [Hx Hnd].
  rewrite Hq. simpl. rewrite Hrs. simpl.
  destruct (IH (set_ro_pending_read_index (delete x (ro_pending_read_index self))
    (set_ro_read_index_queue (q1 ++ q2) self))) as ([self' rss] & Hpop & Hok' & Ho & Hq' & Hrss & Hrest).
  { by apply (ro_ok_tail self x (q1 ++ q2) rs). }
  { done. }
  unfold set_ro_pending_read_index, set_ro_read_index_queue in *. simpl in *. rewrite Hpop. simpl.
  apply returns_Done. split_and!; [done..| |].
  - constructor; [done|]. eapply Forall2_impl; [done|]. simpl.
    intros ctx st [_ Hl]%lookup_delete_Some. done.
  - intros ctx Hctx. rewrite Hrest by done. rewrite lookup_delete_ne; [done|set_solver].
Qed.

(** C38: confirming a read request releases it together with every request queued
    before it, in order, and keeps the later ones; an unknown context releases
    nothing. The queue and the pending map never disagree, so none of the
    internal lookups panics. *)
Theorem advance_fifo ctx self :
  ro_ok self →
  returns (advance ctx self) (λ '(self', rss),
    ro_ok self' ∧
    if bool_decide (ctx ∈ ro_read_index_queue self) then
      ∃ q1 q2, ro_read_index_queue self = q1 ++ ctx :: q2 ∧ ro_read_index_queue self' = q2 ∧
        pending_of self (q1 ++ [ctx]) rss ∧
        ∀ c, c ∈ q2 → ro_pending_read_index self' !! c = ro_pending_read_index self !! c
    else self' = self ∧ rss = []).
Proof.
  intros Hok. unfold advance.
  pose proof (position_spec (ro_pending_read_index self) ctx (ro_read_index_queue self)
    (λ x, proj1 (ro_dom _ Hok x))) as Hp.
  destruct (position _ _ _) as [[i|]| |]; simpl in *; [|..|done|done].
  - destruct Hp as (q1 & q2 & Hq & <- & Hn).
    destruct (pop_requests_spec (q1 ++ [ctx]) q2 self) as ([self' rss] & Hpop & Hok' & _ & Hq' & Hrss & Hrest);
      [done|by rewrite Hq, <-app_assoc|].
    rewrite length_app, Nat.add_1_r in Hpop. simpl in Hpop. rewrite Hpop.
    apply returns_Done. split; [done|]. rewrite bool_decide_eq_true_2 by (rewrite Hq; set_solver).
    by exists q1, q2.
  - apply returns_Done. by rewrite bool_decide_eq_false_2.
Qed.

(** a new read request is queued last with the leader's own confirmation, a
    repeated context is ignored, and a confirmation only adds its sender to the
    request it names. *)
Theorem read_request_recorded index req e es id self :
  ro_ok self → m_entries req = e :: es →
  returns (add_request index req id self) (λ self',
    ro_ok self' ∧
    if bool_decide (e_data e ∈ ro_read_index_queue self) then self' = self
    else ro_read_index_queue self' = ro_read_index_queue self ++ [e_data e] ∧
         ro_pending_read_index self' =
           <[e_data e := mkReadIndexStatus req index {[id]}]> (ro_pending_read_index self)) ∧
  ∀ from ctx self' acks, recv_ack from ctx self = (self', acks) →
    ro_ok self' ∧ ro_read_index_queue self' = ro_read_index_queue self ∧
    acks = (λ rs, {[from]} ∪ ris_acks rs) <$> ro_pending_read_index self !! ctx.
Proof.
  intros [Hnd Hd Hc] Hreq. split.
  - unfold add_request. rewrite Hreq. simpl.
    case_bool_decide as Hp; rewrite <-Hd in Hp; apply returns_Done.
    + by rewrite bool_decide_eq_true_2.
    + rewrite bool_decide_eq_false_2 by done. split; [|done]. constructor; simpl.
      * apply NoDup_app. split_and!; [done|set_solver|apply NoDup_singleton].
      * intros ctx. rewrite elem_of_app, list_elem_of_singleton, Hd.
        destruct (decide (ctx = e_data e)) as [->|Hne].
        -- rewrite lookup_insert_eq. naive_solver.
        -- rewrite lookup_insert_ne by done. naive_solver.
      * intros ctx rs [[<- <-]|[Hne Hl]]%lookup_insert_Some; [simpl; by rewrite Hreq|by apply Hc].
  - intros from ctx self' acks. unfold recv_ack.
    destruct (ro_pending_read_index self !! ctx) as [rs|] eqn:E; intros [= <- <-]; [|by split_and!].
    split_and!; [|done..]. constructor; simpl; [done|..].
    + intros c. rewrite Hd. destruct (decide (c = ctx)) as [->|Hne].
      * rewrite lookup_insert_eq, E. naive_solver.
      * by rewrite lookup_insert_ne.
    + intros c rs' [[<- <-]|[Hne Hl]]%lookup_insert_Some; [simpl; by apply (Hc ctx rs)|by apply Hc].
Qed.

(** ** Witnesses *)

(** A request with the given context. *)
Definition example_req (ctx : bytes) : Message :=
  mkMessage MsgReadIndex 1 1 0 0 0 [mkEntry EntryNormal 0 0 ctx [] false] 0 0 Snapshot_default
    0 false 0 [] 0 0%Z.
Definition example_ro : ReadOnly :=
  mkReadOnly Safe {[ [Byte.x01] := mkReadIndexStatus (example_req [Byte.x01]) 4 {[1]};
                     [Byte.x02] := mkReadIndexStatus (example_req [Byte.x02]) 5 {[1]} ]}
    [[Byte.x01]; [Byte.x02]].
Lemma example_ro_ok : ro_ok example_ro.
Proof.
  constructor; simpl.
  - apply (bool_decide_unpack _). by vm_compute.
  - intros ctx. rewrite !elem_of_cons, elem_of_nil.
    rewrite lookup_insert_is_Some, <-not_eq_None_Some, lookup_singleton_None.
    split; [intros [->|[->|[]]]; [by left|by right; split; [done|by intros ?]]|].
    intros [<-|[_ Hn]]; [by left|]. right; left. by destruct (decide (ctx = [Byte.x02])); [|destruct Hn].
  - intros ctx rs. rewrite lookup_insert_Some, lookup_singleton_Some.
    by intros [[<- <-]|[_ [<- <-]]].
Defined.

Lemma advance_fifo_witness :
  ('(_, rss) ← advance [Byte.x02] example_ro; Done (map ris_index rss)) = Done [4; 5] ∧
  returns (advance [Byte.x02] example_ro) (λ '(self', rss),
    ro_ok self' ∧
    if bool_decide ([Byte.x02] ∈ ro_read_index_queue example_ro) then
      ∃ q1 q2, ro_read_index_queue example_ro = q1 ++ [Byte.x02] :: q2 ∧ ro_read_index_queue self' = q2 ∧
        pending_of example_ro (q1 ++ [[Byte.x02]]) rss ∧
        ∀ c, c ∈ q2 → ro_pending_read_index self' !! c = ro_pending_read_index example_ro !! c
    else self' = example_ro ∧ rss = []).
Proof. split; [by vm_compute|]. apply advance_fifo, example_ro_ok. Defined.

Lemma read_request_recorded_witness :
  ∃ self', add_request 9 (example_req [Byte.x03]) 1 example_ro = Done self' ∧ ro_ok self' ∧
    ro_read_index_queue self' = [[Byte.x01]; [Byte.x02]; [Byte.x03]].
Proof.
  destruct (read_request_recorded 9 (example_req [Byte.x03]) (mkEntry EntryNormal 0 0 [Byte.x03] [] false) []
    1 example_ro example_ro_ok eq_refl) as [(self' & Ha & Hok & Hq) _].
  exists self'. split_and!; [done..|]. rewrite bool_decide_eq_false_2 in Hq; [apply Hq|].
  apply (bool_decide_unpack _). by vm_compute.
Defined.
