(* ===== verification/Config.v ===== *)
(** * Node configuration ([src/config.rs]) *)
From S2P Require Import Prelude Errors Proto Util Progress ReadOnly.
#[local] Open Scope N_scope.

(** [struct Config] *)
Record Config := mkConfig {
  cfg_id : u64;
  cfg_election_tick : usize;
  cfg_heartbeat_tick : usize;
  cfg_applied : u64;
  cfg_max_size_per_msg : u64;
  cfg_max_inflight_msgs : usize;
  cfg_check_quorum : bool;
  cfg_pre_vote : bool;
  cfg_min_election_tick : usize;
  cfg_max_election_tick : usize;
  cfg_read_only_option : ReadOnlyOption;
  cfg_skip_bcast_commit : bool;
  cfg_batch_append : bool;
  cfg_priority : Z;
  cfg_max_uncommitted_size : u64;
  cfg_max_committed_size_per_ready : u64;
  cfg_max_apply_unpersisted_log_limit : u64;
  cfg_disable_proposal_forwarding : bool }.

(** [Config::new]: the defaults with an id *)
Definition new (id : u64) : Config :=
  mkConfig id 20 2 0 0 256 false false 0 0 Safe false false 0%Z NO_LIMIT NO_LIMIT 0 false.
Definition default_config : Config := new 0.

Definition min_election_tick (self : Config) : usize :=
  if cfg_min_election_tick self =? 0 then cfg_election_tick self else cfg_min_election_tick self.
Definition max_election_tick (self : Config) : outcome usize :=
  if cfg_max_election_tick self =? 0 then 2 *! cfg_election_tick self
  else Done (cfg_max_election_tick self).

Definition validate (self : Config) : outcome (result unit) :=
  if cfg_id self =? INVALID_ID then Done (Err (ConfigInvalid "invalid node id"))
  else if cfg_heartbeat_tick self =? 0
  then Done (Err (ConfigInvalid "heartbeat tick must greater than 0"))
  else if cfg_election_tick self <=? cfg_heartbeat_tick self
  then Done (Err (ConfigInvalid "election tick must be greater than heartbeat tick"))
  else
    let min_timeout := min_election_tick self in
    max_timeout ← max_election_tick self;
    if min_timeout <? cfg_election_tick self
    then Done (Err (ConfigInvalid ("min election tick " +:+ pretty min_timeout
                 +:+ " must not be less than election_tick " +:+ pretty (cfg_election_tick self))))
    else if max_timeout <=? min_timeout
    then Done (Err (ConfigInvalid ("min election tick " +:+ pretty min_timeout
                 +:+ " should be less than max election tick " +:+ pretty max_timeout)))
    else if cfg_max_inflight_msgs self =? 0
    then Done (Err (ConfigInvalid "max inflight messages must be greater than 0"))
    else if bool_decide (cfg_read_only_option self = LeaseBased) && negb (cfg_check_quorum self)
    then Done (Err (ConfigInvalid "read_only_option == LeaseBased requires check_quorum == true"))
    else if cfg_max_uncommitted_size self <? cfg_max_size_per_msg self
    then Done (Err (ConfigInvalid "max uncommitted size should greater than max_size_per_msg"))
    else Done (Ok ()).

(** ** Specification *)

(** The configurations a node can run with. *)
Record valid (self : Config) : Prop := {
  v_id : cfg_id self ≠ INVALID_ID;
  v_heartbeat : 0 < cfg_heartbeat_tick self;
  v_election : cfg_heartbeat_tick self < cfg_election_tick self;
  v_min : cfg_election_tick self ≤ min_election_tick self;
  v_max : ∃ m, max_election_tick self = Done m ∧ min_election_tick self < m;
  v_inflight : 0 < cfg_max_inflight_msgs self;
  v_lease : cfg_read_only_option self = LeaseBased → cfg_check_quorum self = true;
  v_size : cfg_max_size_per_msg self ≤ cfg_max_uncommitted_size self }.

(** C39: [validate] accepts exactly the valid configurations, so a node never runs
    with an empty election-timeout range; the only configurations on which it
    panics are those whose default upper timeout overflows. *)
Theorem validate_spec self :
  match validate self with
  | Done (Ok _) => valid self
  | Done (Err _) => ¬ valid self
  | Panic p => p = Overflow ∧ cfg_max_election_tick self = 0 ∧ u64_max < 2 * cfg_election_tick self
  | NoFuel => False
  end.
Proof.
  unfold validate.
  destruct (N.eqb_spec (cfg_id self) INVALID_ID); [by intros []|].
  destruct (N.eqb_spec (cfg_heartbeat_tick self) 0); [intros []; lia|].
  destruct (N.leb_spec (cfg_election_tick self) (cfg_heartbeat_tick self)); [intros []; lia|].
  destruct (max_election_tick self) as [m|p|] eqn:Hm; simpl.
  2: { revert Hm. unfold max_election_tick, mul64. case_bools. by intros [= <-]. }
  2: { revert Hm. unfold max_election_tick, mul64. case_bools. }
  destruct (N.ltb_spec (min_election_tick self) (cfg_election_tick self)); [intros []; lia|].
  destruct (N.leb_spec m (min_election_tick self)) as [Hle|Hlt]; [intros [_ _ _ _ (m' & Hm' & ?) _ _ _]; rewrite Hm in Hm'; simplify_eq; lia|].
  destruct (N.eqb_spec (cfg_max_inflight_msgs self) 0); [intros []; lia|].
  destruct (bool_decide_reflect (cfg_read_only_option self = LeaseBased)) as [Hl|Hl],
    (cfg_check_quorum self) eqn:Hc; simpl; try (by intros [_ _ _ _ _ _ Hv _]; specialize (Hv Hl); congruence).
  all: destruct (N.ltb_spec (cfg_max_uncommitted_size self) (cfg_max_size_per_msg self));
    [by intros []; lia|]; constructor; try done; try lia; by exists m.
Qed.
