(* ===== verification/RaftLog.v ===== *)
(** * The raft log ([src/raft_log.rs])

    The log of a node is what the storage has persisted followed by the unstable
    entries; [RaftLog] keeps both, with the committed, persisted and applied
    positions. Methods that read entries or a snapshot from the storage return the
    log as well, because the storage may record the access. *)
From S2P Require Import Prelude Errors Proto Util Storage Unstable Config.
#[local] Open Scope N_scope.

(** [struct RaftLog] *)
Record RaftLog (S : Type) := mkRaftLog {
  l_store : S;
  l_unstable : Unstable;
  l_committed : u64;
  l_persisted : u64;
  l_applied : u64;
  l_max_apply_unpersisted_log_limit : u64 }.
Arguments mkRaftLog {S} _ _ _ _ _ _.
Arguments l_store {S} _.
Arguments l_unstable {S} _.
Arguments l_committed {S} _.
Arguments l_persisted {S} _.
Arguments l_applied {S} _.
Arguments l_max_apply_unpersisted_log_limit {S} _.

Section raft_log.
Context {S : Type} `{Storage S}.

Definition set_l_store (v : S) (r : RaftLog S) : RaftLog S :=
  mkRaftLog v (l_unstable r) (l_committed r) (l_persisted r) (l_applied r) (l_max_apply_unpersisted_log_limit r).
Definition set_l_unstable (v : Unstable) (r : RaftLog S) : RaftLog S :=
  mkRaftLog (l_store r) v (l_committed r) (l_persisted r) (l_applied r) (l_max_apply_unpersisted_log_limit r).
Definition set_l_committed (v : u64) (r : RaftLog S) : RaftLog S :=
  mkRaftLog (l_store r) (l_unstable r) v (l_persisted r) (l_applied r) (l_max_apply_unpersisted_log_limit r).
Definition set_l_persisted (v : u64) (r : RaftLog S) : RaftLog S :=
  mkRaftLog (l_store r) (l_unstable r) (l_committed r) v (l_applied r) (l_max_apply_unpersisted_log_limit r).
Definition set_l_applied (v : u64) (r : RaftLog S) : RaftLog S :=
  mkRaftLog (l_store r) (l_unstable r) (l_committed r) (l_persisted r) v (l_max_apply_unpersisted_log_limit r).
Definition set_l_max_apply_unpersisted_log_limit (v : u64) (r : RaftLog S) : RaftLog S :=
  mkRaftLog (l_store r) (l_unstable r) (l_committed r) (l_persisted r) (l_applied r) v.

Definition new (store : S) (cfg : Config) : outcome (RaftLog S) :=
  r ← Storage.first_index store; first_index ← unwrap_r r;
  r ← Storage.last_index store; last_index ← unwrap_r r;
  committed ← first_index -! 1;
  applied ← first_index -! 1;
  offset ← last_index +! 1;
  Done (mkRaftLog store (Unstable.new offset) committed last_index applied
          (cfg_max_apply_unpersisted_log_limit cfg)).

Definition first_index (self : RaftLog S) : outcome u64 :=
  i ← maybe_first_index (l_unstable self);
  match i with
  | Some idx => Done idx
  | None => r ← Storage.first_index (l_store self); unwrap_r r
  end.

Definition last_index (self : RaftLog S) : outcome u64 :=
  i ← maybe_last_index (l_unstable self);
  match i with
  | Some idx => Done idx
  | None => r ← Storage.last_index (l_store self); unwrap_r r
  end.

Definition term (idx : u64) (self : RaftLog S) : outcome (result u64) :=
  first ← first_index self;
  dummy_idx ← first -! 1;
  out ← (if idx <? dummy_idx then Done true else last ← last_index self; Done (last <? idx));
  if (out : bool) then Done (Ok 0)
  else
    t ← maybe_term idx (l_unstable self);
    match t with
    | Some term => Done (Ok term)
    | None =>
        r ← Storage.term idx (l_store self);
        match r with
        | Ok t => Done (Ok t)
        | Err (Store Compacted) | Err (Store Unavailable) => Done r
        | Err _ => Panic Fatal
        end
    end.

Definition last_term (self : RaftLog S) : outcome u64 :=
  last ← last_index self;
  r ← term last self;
  match r with Ok t => Done t | Err _ => Panic Fatal end.

Definition match_term (idx t : u64) (self : RaftLog S) : outcome bool :=
  r ← term idx self;
  Done (match r with Ok t' => t' =? t | Err _ => false end).

Fixpoint find_conflict (ents : list Entry) (self : RaftLog S) : outcome u64 :=
  match ents with
  | [] => Done 0
  | e :: ents =>
      m ← match_term (e_index e) (e_term e) self;
      if negb m then _ ← last_index self; Done (e_index e)
      else find_conflict ents self
  end.

(** The loop of [find_conflict_by_term]; it moves down one position at a time. *)
Fixpoint conflict_loop (fuel : nat) (conflict_index t : u64) (self : RaftLog S)
    : outcome (u64 * option u64) :=
  match fuel with
  | O => NoFuel
  | Datatypes.S fuel =>
      r ← term conflict_index self;
      match r with
      | Ok t' => if t <? t' then i ← conflict_index -! 1; conflict_loop fuel i t self
                 else Done (conflict_index, Some t')
      | Err _ => Done (conflict_index, None)
      end
  end.
Definition find_conflict_by_term (index t : u64) (self : RaftLog S) : outcome (u64 * option u64) :=
  last ← last_index self;
  if last <? index then Done (index, None)
  else conflict_loop (Datatypes.S (N.to_nat index)) index t self.

Definition commit_to (to_commit : u64) (self : RaftLog S) : outcome (RaftLog S) :=
  if to_commit <=? l_committed self then Done self
  else
    last ← last_index self;
    if last <? to_commit then Panic Fatal else Done (set_l_committed to_commit self).

Definition append (ents : list Entry) (self : RaftLog S) : outcome (RaftLog S * u64) :=
  match ents with
  | [] => i ← last_index self; Done (self, i)
  | e0 :: _ =>
      after ← e_index e0 -! 1;
      if after <? l_committed self then Panic Fatal
      else
        u ← truncate_and_append ents (l_unstable self);
        let self := set_l_unstable u self in
        i ← last_index self;
        Done (self, i)
  end.

Definition maybe_append (idx t committed : u64) (ents : list Entry) (self : RaftLog S)
    : outcome (RaftLog S * option (u64 * u64)) :=
  m ← match_term idx t self;
  if (m : bool) then
    conflict_idx ← find_conflict ents self;
    self ← (if conflict_idx =? 0 then Done self
            else if conflict_idx <=? l_committed self then Panic Fatal
            else
              next ← idx +! 1;
              start ← conflict_idx -! next;
              suffix ← vslice_from ents start;
              '(self, _) ← append suffix self;
              p ← conflict_idx -! 1;
              Done (if p <? l_persisted self then set_l_persisted p self else self));
    last_new_index ← idx +! len ents;
    self ← commit_to (N.min committed last_new_index) self;
    Done (self, Some (conflict_idx, last_new_index))
  else Done (self, None).

Definition applied_to_unchecked (idx : u64) (self : RaftLog S) : RaftLog S := set_l_applied idx self.
Definition applied_to (idx : u64) (self : RaftLog S) : outcome (RaftLog S) :=
  if idx =? 0 then Done self
  else if (l_committed self <? idx) || (idx <? l_applied self) then Panic Fatal
  else Done (applied_to_unchecked idx self).

Definition stable_entries (index t : u64) (self : RaftLog S) : outcome (RaftLog S) :=
  u ← Unstable.stable_entries index t (l_unstable self); Done (set_l_unstable u self).
Definition stable_snap (index : u64) (self : RaftLog S) : outcome (RaftLog S) :=
  u ← Unstable.stable_snap index (l_unstable self); Done (set_l_unstable u self).

Definition unstable_entries (self : RaftLog S) : list Entry := u_entries (l_unstable self).
Definition unstable_snapshot (self : RaftLog S) : option Snapshot := u_snapshot (l_unstable self).
Definition pending_snapshot (self : RaftLog S) : option Snapshot := u_snapshot (l_unstable self).

Definition must_check_outofbounds (low high : u64) (self : RaftLog S) : outcome (option Error) :=
  if high <? low then Panic Fatal
  else
    first ← first_index self;
    if low <? first then Done (Some (Store Compacted))
    else
      last ← last_index self;
      end_ ← last +! 1;
      length ← end_ -! first;
      bound ← first +! length;
      if (low <? first) || (bound <? high) then Panic Fatal
      else Done None.

Definition slice `{PbMessage} (low high : u64) (max_size : option u64) (context : GetEntriesContext)
    (self : RaftLog S) : outcome (RaftLog S * result (list Entry)) :=
  err ← must_check_outofbounds low high self;
  match err with
  | Some err => Done (self, Err err)
  | None =>
      if low =? high then Done (self, Ok [])
      else
        let offset := u_offset (l_unstable self) in
        (* [inl]: the early return of the storage's part *)
        '(self, part) ←
          (if low <? offset then
             let unstable_high := N.min high offset in
             '(store, r) ← Storage.entries low unstable_high max_size context (l_store self);
             let self := set_l_store store self in
             match r with
             | Err (Store Compacted) | Err (Store LogTemporarilyUnavailable) => Done (self, inl r)
             | Err _ => Panic Fatal
             | Ok ents =>
                 d ← unstable_high -! low;
                 if len ents <? d then Done (self, inl (Ok ents)) else Done (self, inr ents)
             end
           else Done (self, inr []));
        match part with
        | inl r => Done (self, r)
        | inr ents =>
            ents ← (if offset <? high then
                      unstable ← Unstable.slice (N.max low offset) high (l_unstable self);
                      Done (ents ++ unstable)
                    else Done ents);
            ents ← limit_size ents max_size;
            Done (self, Ok ents)
        end
  end.

Definition entries `{PbMessage} (idx : u64) (max_size : option u64) (context : GetEntriesContext)
    (self : RaftLog S) : outcome (RaftLog S * result (list Entry)) :=
  last ← last_index self;
  if last <? idx then Done (self, Ok [])
  else end_ ← last +! 1; slice idx end_ max_size context self.

(** [fuel] bounds the retries after a racing compaction. *)
Fixpoint all_entries `{PbMessage} (fuel : nat) (self : RaftLog S)
    : outcome (RaftLog S * list Entry) :=
  match fuel with
  | O => NoFuel
  | Datatypes.S fuel =>
      first ← first_index self;
      '(self, r) ← entries first None (context_empty false) self;
      match r with
      | Err e => if Error_eq e (Store Compacted) then all_entries fuel self else Panic Fatal
      | Ok ents => Done (self, ents)
      end
  end.

Definition is_up_to_date (idx t : u64) (self : RaftLog S) : outcome bool :=
  lt ← last_term self;
  if lt <? t then Done true
  else if t =? lt then last ← last_index self; Done (last <=? idx)
  else Done false.

Definition applied_index_upper_bound (self : RaftLog S) : outcome u64 :=
  b ← l_persisted self +! l_max_apply_unpersisted_log_limit self;
  Done (N.min (l_committed self) b).

Definition next_entries_since `{PbMessage} (since_idx : u64) (max_size : option u64) (self : RaftLog S)
    : outcome (RaftLog S * option (list Entry)) :=
  s ← since_idx +! 1;
  first ← first_index self;
  let offset := N.max s first in
  b ← applied_index_upper_bound self;
  high ← b +! 1;
  if offset <? high then
    '(self, r) ← slice offset high max_size GenReady self;
    match r with
    | Ok vec => Done (self, Some vec)
    | Err _ => Panic Fatal
    end
  else Done (self, None).
Definition next_entries `{PbMessage} (max_size : option u64) (self : RaftLog S)
    : outcome (RaftLog S * option (list Entry)) :=
  next_entries_since (l_applied self) max_size self.

Definition has_next_entries_since (since_idx : u64) (self : RaftLog S) : outcome bool :=
  s ← since_idx +! 1;
  first ← first_index self;
  let offset := N.max s first in
  b ← applied_index_upper_bound self;
  high ← b +! 1;
  Done (offset <? high).
Definition has_next_entries (self : RaftLog S) : outcome bool :=
  has_next_entries_since (l_applied self) self.

Definition snapshot (request_index to : u64) (self : RaftLog S)
    : outcome (RaftLog S * result Snapshot) :=
  let from_store :=
    '(store, r) ← Storage.snapshot request_index to (l_store self);
    Done (set_l_store store self, r) in
  match u_snapshot (l_unstable self) with
  | Some snap =>
      if request_index <=? sm_index (s_metadata snap) then Done (self, Ok snap) else from_store
  | None => from_store
  end.

Definition maybe_commit (max_index t : u64) (self : RaftLog S) : outcome (RaftLog S * bool) :=
  ok ← (if l_committed self <? max_index
        then r ← term max_index self; Done (is_ok_and r (λ t', t' =? t))
        else Done false);
  if (ok : bool) then self ← commit_to max_index self; Done (self, true)
  else Done (self, false).

Definition maybe_persist (index t : u64) (self : RaftLog S) : outcome (RaftLog S * bool) :=
  let first_update_index :=
    match u_snapshot (l_unstable self) with
    | Some s => sm_index (s_metadata s)
    | None => u_offset (l_unstable self)
    end in
  ok ← (if (l_persisted self <? index) && (index <? first_update_index)
        then r ← Storage.term index (l_store self); Done (is_ok_and r (λ t', t' =? t))
        else Done false);
  if (ok : bool) then Done (set_l_persisted index self, true) else Done (self, false).

Definition maybe_persist_snap (index : u64) (self : RaftLog S) : outcome (RaftLog S * bool) :=
  if l_persisted self <? index then
    if l_committed self <? index then Panic Fatal
    else if u_offset (l_unstable self) <=? index then Panic Fatal
    else Done (set_l_persisted index self, true)
  else Done (self, false).

(** [v] is the callback, a closure with its own state of type [A]; [fuel] bounds
    the iterations, each of which moves [lo] forward. *)
Fixpoint scan_loop `{PbMessage} {A} (fuel : nat) (lo hi page_size : u64) (context : GetEntriesContext)
    (v : list Entry → A → A * bool) (a : A) (self : RaftLog S)
    : outcome (RaftLog S * A * result unit) :=
  match fuel with
  | O => NoFuel
  | Datatypes.S fuel =>
      if lo <? hi then
        '(self, r) ← slice lo hi (Some page_size) context self;
        match r with
        | Err e => Done (self, a, Err e)
        | Ok ents =>
            if bool_decide (ents = [])
            then Done (self, a, Err (Store (Other ("got 0 entries in [" +:+ pretty lo +:+ ", "
                                                     +:+ pretty hi +:+ ")"))))
            else
              lo ← lo +! len ents;
              let '(a, continue_) := v ents a in
              if negb continue_ then Done (self, a, Ok ())
              else scan_loop fuel lo hi page_size context v a self
        end
      else Done (self, a, Ok ())
  end.
Definition scan `{PbMessage} {A} (lo hi page_size : u64) (context : GetEntriesContext)
    (v : list Entry → A → A * bool) (a : A) (self : RaftLog S)
    : outcome (RaftLog S * A * result unit) :=
  scan_loop (Datatypes.S (N.to_nat (hi - lo))) lo hi page_size context v a self.

Definition restore (snapshot : Snapshot) (self : RaftLog S) : outcome (RaftLog S) :=
  let index := sm_index (s_metadata snapshot) in
  _ ← assert (l_committed self <=? index);
  let self := if l_committed self <? l_persisted self
              then set_l_persisted (l_committed self) self else self in
  let self := set_l_committed index self in
  u ← Unstable.restore snapshot (l_unstable self);
  Done (set_l_unstable u self).

Definition commit_info (self : RaftLog S) : outcome (u64 * u64) :=
  r ← term (l_committed self) self;
  match r with
  | Ok t => Done (l_committed self, t)
  | Err _ => Panic Fatal
  end.
End raft_log.
