(* ===== verification/RaftLogSpec.v ===== *)
(** * The log as one sequence

    What [RaftLog] promises, stated on the single sequence of entries that the
    storage and the unstable part make up together: where it begins, the term
    before it, and its entries. Every theorem holds for any storage that keeps
    the laws of the interface. *)
From S2P Require Import Prelude Errors Proto Util Storage Unstable Config RaftLog.
#[local] Open Scope N_scope.

Section spec.
Context {S : Type} `{StorageLaws S}.
Implicit Types l : RaftLog S.

Definition first l : u64 :=
  match u_snapshot (l_unstable l) with
  | Some _ => u_offset (l_unstable l)
  | None => st_first (l_store l)
  end.
Definition dummy l : option u64 :=
  match u_snapshot (l_unstable l) with
  | Some s => Some (sm_term (s_metadata s))
  | None => st_dummy_term (l_store l)
  end.
(** The part of the storage that the unstable entries do not replace. *)
Definition stable_part l : list Entry :=
  match u_snapshot (l_unstable l) with
  | Some _ => []
  | None => take (N.to_nat (u_offset (l_unstable l) - st_first (l_store l))) (st_entries (l_store l))
  end.
Definition ents l : list Entry := stable_part l ++ u_entries (l_unstable l).
(** The position after the last entry. *)
Definition log_end l : u64 := first l + len (ents l).

(** What [term] answers. *)
Definition log_term l (idx : u64) : result u64 :=
  if (idx <? first l - 1) || (log_end l <=? idx) then Ok 0
  else if idx =? first l - 1 then
    match dummy l with Some t => Ok t | None => Err (Store Compacted) end
  else match ents l !! N.to_nat (idx - first l) with Some e => Ok (e_term e) | None => Ok 0 end.

(** The entry at a position. *)
Definition entry_at l (i : u64) : option Entry := if i <? first l then None else ents l !! N.to_nat (i - first l).

Definition log_matches l (idx t : u64) : Prop := log_term l idx = Ok t.
#[global] Instance log_matches_dec l idx t : Decision (log_matches l idx t).
Proof. unfold log_matches. apply _. Defined.

(** The storage and the unstable part fit together. *)
Record joined l : Prop := {
  jo_store : st_ok (l_store l);
  jo_unstable : unstable_ok (l_unstable l);
  jo_gap : u_snapshot (l_unstable l) = None →
    st_first (l_store l) ≤ u_offset (l_unstable l) ≤ st_first (l_store l) + len (st_entries (l_store l));
  jo_empty : u_snapshot (l_unstable l) = None → u_entries (l_unstable l) = [] →
    u_offset (l_unstable l) = st_first (l_store l) + len (st_entries (l_store l)) }.

(** ** Lemmas *)

Section joined.
Context l (Hj : joined l).

Lemma stable_part_len : first l + len (stable_part l) = u_offset (l_unstable l).
Proof using Hj.
  destruct Hj as [Hs Hu Hg He]. unfold first, stable_part.
  destruct (u_snapshot (l_unstable l)); [rewrite len_nil; lia|].
  specialize (Hg eq_refl). rewrite len_take. lia.
Qed.

Lemma log_end_unstable : log_end l = u_offset (l_unstable l) + len (u_entries (l_unstable l)).
Proof using Hj. unfold log_end, ents. rewrite len_app, <-stable_part_len. lia. Qed.

Lemma first_pos : 1 ≤ first l.
Proof using Hj.
  destruct Hj as [Hs Hu _ _]. unfold first. destruct (u_snapshot (l_unstable l)).
  - apply Hu.
  - by apply st_first_pos.
Qed.
Lemma log_end_bound : log_end l ≤ u64_max.
Proof using Hj. rewrite log_end_unstable. apply Hj. Qed.
Lemma first_le_end : first l ≤ log_end l.
Proof. unfold log_end. lia. Qed.

Lemma ents_contiguous : contiguous (first l) (ents l).
Proof using Hj.
  unfold ents. apply contiguous_app. rewrite stable_part_len. split; [|apply Hj].
  unfold first, stable_part. destruct (u_snapshot (l_unstable l)); [apply contiguous_nil|].
  apply contiguous_take, st_contiguous, Hj.
Qed.

Lemma first_index_spec : first_index l = Done (first l).
Proof using Hj.
  destruct Hj as [Hs Hu _ _]. unfold first_index, first. rewrite (maybe_first_index_spec _ Hu). simpl.
  destruct (u_snapshot (l_unstable l)); simpl; [done|]. by rewrite (st_first_index _ Hs).
Qed.

Lemma last_index_spec : last_index l = Done (log_end l - 1).
Proof using Hj.
  pose proof Hj as [Hs Hu _ He]. unfold last_index. rewrite (maybe_last_index_spec _ Hu), log_end_unstable. simpl.
  case_decide as Hd; [done|]. rewrite (st_last_index _ Hs). simpl.
  destruct (u_snapshot (l_unstable l)); [naive_solver|].
  destruct (u_entries (l_unstable l)) eqn:E; [|naive_solver].
  rewrite (He eq_refl eq_refl), len_nil, N.add_0_r. done.
Qed.

Lemma lookup_ents_stable idx :
  first l ≤ idx → idx < u_offset (l_unstable l) →
  ents l !! N.to_nat (idx - first l) = stable_part l !! N.to_nat (idx - first l).
Proof using Hj.
  intros. unfold ents. apply lookup_app_l. pose proof stable_part_len. unfold len in *. lia.
Qed.
Lemma lookup_ents_unstable idx :
  u_offset (l_unstable l) ≤ idx →
  ents l !! N.to_nat (idx - first l) = u_entries (l_unstable l) !! N.to_nat (idx - u_offset (l_unstable l)).
Proof using Hj.
  intros. unfold ents. pose proof stable_part_len as Hl. unfold len in Hl.
  rewrite lookup_app_r by lia. f_equal. lia.
Qed.

Lemma term_spec idx : term idx l = Done (log_term l idx).
Proof using Hj.
  pose proof first_pos. pose proof first_le_end. pose proof stable_part_len as Hlen.
  unfold term. rewrite first_index_spec, last_index_spec. simpl. rewrite sub64_ok by done. simpl.
  unfold log_term.
  destruct (N.ltb_spec idx (first l - 1)) as [|Hlo]; simpl; [done|].
  destruct (N.ltb_spec (log_end l - 1) idx), (N.leb_spec (log_end l) idx) as [|Hhi]; try lia; simpl; [done|].
  rewrite maybe_term_spec by apply Hj. simpl.
  destruct (N.ltb_spec idx (u_offset (l_unstable l))) as [Ho|Ho].
  - destruct (u_snapshot (l_unstable l)) as [s|] eqn:Es; simpl.
    + assert (first l = u_offset (l_unstable l)) as Hf by (unfold first; by rewrite Es).
      rewrite <-Hf. unfold dummy. rewrite Es. case_bools.
    + assert (first l = st_first (l_store l)) as Hf by (unfold first; by rewrite Es).
      unfold dummy. rewrite Es. destruct (N.eqb_spec idx (first l - 1)) as [->|Hne].
      * rewrite Hf, st_term_dummy by apply Hj. simpl. by destruct (st_dummy_term _).
      * rewrite lookup_ents_stable by lia.
        destruct (stable_part l !! N.to_nat (idx - first l)) as [e|] eqn:Ee.
        -- unfold stable_part in Ee. rewrite Es in Ee. apply lookup_take_Some in Ee as [Ee _].
           replace idx with (st_first (l_store l) + N.of_nat (N.to_nat (idx - first l))) by lia.
           rewrite (st_term_entry _ _ _ (jo_store _ Hj) Ee). done.
        -- apply lookup_ge_None in Ee. unfold len in Hlen. lia.
  - rewrite (proj2 (N.eqb_neq _ _)) by lia. rewrite lookup_ents_unstable by done.
    destruct (u_entries (l_unstable l) !! _) as [e|] eqn:Ee; simpl; [done|].
    apply lookup_ge_None in Ee. pose proof log_end_unstable. unfold len in *. lia.
Qed.

Lemma match_term_spec idx t : match_term idx t l = Done (bool_decide (log_matches l idx t)).
Proof using Hj.
  unfold match_term. rewrite term_spec. simpl. f_equal. symmetry.
  destruct (log_term l idx) as [t'|e] eqn:E.
  - destruct (N.eqb_spec t' t) as [->|Hne].
    + by apply bool_decide_eq_true_2.
    + apply bool_decide_eq_false_2. unfold log_matches. rewrite E. by intros [= ?].
  - apply bool_decide_eq_false_2. unfold log_matches. by rewrite E.
Qed.
End joined.

(** ** The invariant of the log *)

Record log_ok `{PbMessage} l : Prop := {
  lo_joined : joined l;
  lo_committed : first l - 1 ≤ l_committed l < log_end l;
  lo_persisted : l_persisted l < u_offset (l_unstable l);
  lo_applied : l_applied l ≤ l_committed l;
  lo_size : total_size (ents l) ≤ u64_max;
  lo_mem : approximate_size (u_entries (l_unstable l)) ≤ u64_max }.

(** New entries fit: they are contiguous and the log stays addressable. *)
Record fits `{PbMessage} l (start : u64) (es : list Entry) : Prop := {
  fi_contiguous : contiguous start es;
  fi_bound : start + len es ≤ u64_max;
  fi_size : total_size (ents l) + total_size es ≤ u64_max;
  fi_mem : approximate_size (u_entries (l_unstable l)) + approximate_size es ≤ u64_max }.

(** Replacing the unstable part by one that starts at [start]. *)
Lemma append_joined l u' start es :
  joined l → unstable_ok u' → first l ≤ start → start ≤ log_end l → es ≠ [] →
  u_snapshot u' = u_snapshot (l_unstable l) → u_offset u' = N.min (u_offset (l_unstable l)) start →
  u_entries u' = take (N.to_nat (start - u_offset (l_unstable l))) (u_entries (l_unstable l)) ++ es →
  let l' := set_l_unstable u' l in
  joined l' ∧ first l' = first l ∧ dummy l' = dummy l ∧
  ents l' = take (N.to_nat (start - first l)) (ents l) ++ es.
Proof.
  intros Hj Hu Hf He Hne Hs Ho Hents l'.
  pose proof (stable_part_len l Hj) as Hlen. pose proof (log_end_unstable l Hj) as Hend.
  assert (first l' = first l ∧ dummy l' = dummy l) as [Hf' Hd'].
  { unfold first, dummy, l'. simpl. rewrite Hs, Ho.
    destruct (u_snapshot (l_unstable l)) as [s|] eqn:Es; [|done]. split; [|done].
    unfold first in Hf. rewrite Es in Hf. lia. }
  split_and!; [|done..|].
  - destruct Hj as [Hst Hun Hg Hem]. constructor; simpl; [done..| |].
    + rewrite Hs, Ho. intros Hsn. specialize (Hg Hsn). unfold first in Hf. rewrite Hsn in Hf. lia.
    + rewrite Hents. intros _ [_ Hnil]%app_eq_nil. done.
  - unfold ents at 1. unfold l'. simpl. rewrite Hents, app_assoc. f_equal.
    unfold ents. rewrite take_app.
    replace (N.to_nat (start - first l) - length (stable_part l))%nat
      with (N.to_nat (start - u_offset (l_unstable l))) by (unfold len in Hlen; lia).
    f_equal. unfold stable_part. simpl. rewrite Hs, Ho. unfold first.
    destruct (u_snapshot (l_unstable l)) as [s|] eqn:Es; [by rewrite take_nil|].
    rewrite take_take. f_equal. lia.
Qed.

Section append.
Context `{PbMessage} l (Hok : log_ok l).

Lemma total_size_cut n es : total_size (take n (ents l) ++ es) ≤ total_size (ents l) + total_size es.
Proof. rewrite total_size_app. pose proof (total_size_take n (ents l)). lia. Qed.

(** [append] replaces the log from the first new index on. *)
Lemma append_spec e0 es :
  fits l (e_index e0) (e0 :: es) → l_committed l < e_index e0 →
  if e_index e0 <=? log_end l then
    returns (append (e0 :: es) l) (λ '(l', last),
      joined l' ∧ first l' = first l ∧ dummy l' = dummy l ∧
      ents l' = take (N.to_nat (e_index e0 - first l)) (ents l) ++ e0 :: es ∧
      u_offset (l_unstable l') = N.min (u_offset (l_unstable l)) (e_index e0) ∧
      approximate_size (u_entries (l_unstable l')) ≤ u64_max ∧
      l' = set_l_unstable (l_unstable l') l ∧ last = log_end l' - 1)
  else append (e0 :: es) l = Panic Fatal.
Proof using Hok.
  intros [Hc Hb Hsz Hmem] Hcom. pose proof (lo_joined _ Hok) as Hj. destruct (lo_committed _ Hok) as [Hcl Hch].
  pose proof (first_pos l Hj) as Hpos.
  pose proof (truncate_and_append_spec _ (jo_unstable _ Hj) e0 es Hc ltac:(lia) Hb) as Ht.
  rewrite <-(log_end_unstable l Hj) in Ht.
  unfold append. rewrite sub64_ok by lia. cbn [mbind outcome_bind].
  rewrite (proj2 (N.ltb_ge _ _)) by lia.
  assert (u_snapshot (l_unstable l) ≠ None → u_offset (l_unstable l) ≤ e_index e0) as Hsn.
  { unfold first in Hcl. destruct (u_snapshot (l_unstable l)); [lia|done]. }
  specialize (Ht Hsn Hmem). destruct (N.leb_spec (e_index e0) (log_end l)) as [Hle|Hgt]; [|by rewrite Ht].
  destruct Ht as (u' & -> & Hu' & Hs' & Ho' & He'). cbn [mbind outcome_bind].
  destruct (append_joined l u' (e_index e0) (e0 :: es)) as (Hj' & Hf' & Hd' & Hents'); try done; [lia|].
  rewrite (last_index_spec _ Hj'). cbn [mbind outcome_bind]. apply returns_Done.
  split_and!; try done. simpl. rewrite He', approximate_size_app.
  pose proof (approximate_size_split (l_unstable l) (N.to_nat (e_index e0 - u_offset (l_unstable l)))). lia.
Qed.
End append.

(** ** Conflicts *)

Lemma log_term_lookup l i e :
  joined l → first l ≤ i → ents l !! N.to_nat (i - first l) = Some e → log_term l i = Ok (e_term e).
Proof.
  intros Hj Hi He. pose proof (lookup_lt_Some _ _ _ He). pose proof (first_pos l Hj).
  unfold log_term, log_end, len. rewrite He. case_bools.
Qed.
Lemma log_matches_lookup l i t :
  joined l → first l ≤ i → t ≠ 0 → log_matches l i t →
  ∃ e, ents l !! N.to_nat (i - first l) = Some e ∧ e_term e = t.
Proof.
  intros Hj Hi Ht. pose proof (first_pos l Hj). unfold log_matches, log_term.
  case_bools; destruct (ents l !! _) as [e|]; intros Hm; try congruence. exists e. naive_solver.
Qed.

(** An entry that the log does not have. *)
Definition mismatch l (e : Entry) : Prop := ¬ log_matches l (e_index e) (e_term e).
#[global] Instance mismatch_dec l e : Decision (mismatch l e).
Proof. unfold mismatch. apply _. Defined.
(** The index of the first entry that the log does not have, or 0. *)
Definition conflict_of l (es : list Entry) : u64 :=
  match list_find (mismatch l) es with Some (_, e) => e_index e | None => 0 end.

Lemma find_conflict_spec l es : joined l → find_conflict es l = Done (conflict_of l es).
Proof.
  intros Hj. unfold conflict_of. induction es as [|e es IH]; simpl; [done|].
  rewrite match_term_spec by done. simpl. destruct (decide (mismatch l e)) as [Hm|Hm].
  - rewrite bool_decide_eq_false_2 by done. simpl. by rewrite last_index_spec.
  - rewrite bool_decide_eq_true_2 by (by apply dec_stable). simpl. rewrite IH.
    by destruct (list_find (mismatch l) es) as [[i e']|].
Qed.

(** What a leader sends after position [idx]: real entries, in order. *)
Definition real_entries (es : list Entry) : Prop := Forall (λ e, e_term e ≠ 0) es.

Lemma conflict_of_cases l idx es :
  joined l → first l ≤ idx + 1 → idx < log_end l → contiguous (idx + 1) es → real_entries es →
  (conflict_of l es = 0 ∧ idx + len es < log_end l ∧
     ∀ e, e ∈ es → log_matches l (e_index e) (e_term e)) ∨
  (idx < conflict_of l es ≤ log_end l ∧ conflict_of l es < idx + 1 + len es ∧
     ∀ i e, es !! i = Some e → idx + 1 + N.of_nat i < conflict_of l es →
       log_matches l (e_index e) (e_term e)).
Proof.
  intros Hj Hf Hi Hc Hr. unfold conflict_of.
  assert (∀ k e, es !! k = Some e → log_matches l (e_index e) (e_term e) →
    idx + 1 + N.of_nat k < log_end l) as Hin.
  { intros k e Hk Hm. rewrite (Hc k e Hk) in Hm.
    apply log_matches_lookup in Hm as (e' & He' & _); [|done|lia|].
    - apply lookup_lt_Some in He'. unfold log_end, len. lia.
    - by apply (Forall_lookup_1 _ _ _ _ Hr Hk). }
  destruct (list_find (mismatch l) es) as [[k e]|] eqn:E.
  - right. apply list_find_Some in E as (Hk & Hm & Hbefore).
    pose proof (lookup_lt_Some _ _ _ Hk). rewrite (Hc k e Hk).
    assert (∀ i e, es !! i = Some e → (i < k)%nat → log_matches l (e_index e) (e_term e)) as Hb
      by (intros i e' Hi' Hlt; apply dec_stable; by apply (Hbefore i e')).
    split_and!; [lia| |unfold len; lia|].
    + destruct k as [|k]; [lia|]. destruct (lookup_lt_is_Some_2 es k) as [e' He']; [lia|].
      pose proof (Hin k e' He' (Hb k e' He' ltac:(lia))). lia.
    + intros i e' Hi' Hlt. apply (Hb i e' Hi'). lia.
  - left. apply list_find_None in E. rewrite Forall_forall in E.
    assert (∀ e, e ∈ es → log_matches l (e_index e) (e_term e)) as Hall
      by (intros e He; by apply dec_stable, E).
    split_and!; [done| |done]. destruct es as [|e es'] using rev_ind; [rewrite len_nil; lia|].
    rewrite len_app, len_cons, len_nil.
    pose proof (Hin (length es') e (list_lookup_middle es' [] e _ eq_refl) (Hall e ltac:(set_solver))).
    unfold len. lia.
Qed.

Lemma commit_to_spec l c :
  joined l → c < log_end l → commit_to c l = Done (set_l_committed (N.max (l_committed l) c) l).
Proof.
  intros Hj Hc. unfold commit_to. rewrite last_index_spec by done. simpl. destruct l as [? ? co]; simpl in *.
  case_bools; unfold set_l_committed; simpl; repeat f_equal; lia.
Qed.

Section maybe_append.
Context `{PbMessage} l (Hok : log_ok l) (idx t committed : u64) (es : list Entry).
Context (Hfit : fits l (idx + 1) es) (Hreal : real_entries es).
Context (Hrange : log_matches l idx t → first l ≤ idx + 1 ∧ idx < log_end l).

Definition new_committed : u64 := N.max (l_committed l) (N.min committed (idx + len es)).

Lemma maybe_append_mismatch :
  ¬ log_matches l idx t → maybe_append idx t committed es l = Done (l, None).
Proof using Hok.
  intros Hm. unfold maybe_append. rewrite match_term_spec by apply Hok. simpl.
  by rewrite bool_decide_eq_false_2.
Qed.

(** Everything is already there: only the commit index moves. *)
Lemma maybe_append_known :
  log_matches l idx t → conflict_of l es = 0 →
  maybe_append idx t committed es l =
    Done (set_l_committed new_committed l, Some (0, idx + len es)) ∧
  idx + len es < log_end l.
Proof using Hok Hfit Hreal Hrange.
  intros Hm Hc. pose proof (lo_joined _ Hok) as Hj. destruct (Hrange Hm) as [Hf Hi].
  destruct Hfit as [Hcont Hb _ _].
  destruct (conflict_of_cases l idx es) as [(_ & Hend & _)|(? & _)]; [done..| |lia].
  split; [|done]. unfold maybe_append. rewrite match_term_spec, find_conflict_spec by done. simpl.
  rewrite bool_decide_eq_true_2 by done. rewrite Hc. simpl.
  rewrite add64_ok by lia. simpl. by rewrite commit_to_spec by (try done; lia).
Qed.

(** A conflict with a committed entry stops the node. *)
Lemma maybe_append_committed_conflict :
  log_matches l idx t → 0 < conflict_of l es ≤ l_committed l →
  maybe_append idx t committed es l = Panic Fatal.
Proof using Hok.
  clear Hrange. intros Hm Hc. unfold maybe_append.
  rewrite match_term_spec, find_conflict_spec by apply Hok. simpl.
  rewrite bool_decide_eq_true_2 by done. case_bools.
Qed.

(** The entries from the first conflict on, as [append] sees them. *)
Lemma conflict_suffix c :
  idx < c → c < idx + 1 + len es →
  ∃ e0 es', drop (N.to_nat (c - (idx + 1))) es = e0 :: es' ∧ e_index e0 = c ∧
    fits l c (e0 :: es') ∧ c + len (e0 :: es') = idx + 1 + len es.
Proof using Hfit.
  clear Hrange. intros Hc1 Hc2. destruct Hfit as [Hcont Hb Hsz Hmem]. set (k := N.to_nat (c - (idx + 1))).
  destruct (drop k es) as [|e0 es'] eqn:Ed.
  { apply (f_equal len) in Ed. autorewrite with len in Ed. unfold k in Ed. lia. }
  assert (contiguous c (e0 :: es')) as Hcd.
  { rewrite <-Ed. replace c with (idx + 1 + N.of_nat k) by (unfold k; lia). by apply contiguous_drop. }
  assert (len (e0 :: es') = idx + 1 + len es - c) by (rewrite <-Ed, len_drop; unfold k; lia).
  assert (total_size es = total_size (take k es) + total_size (e0 :: es') ∧
    approximate_size es = approximate_size (take k es) + approximate_size (e0 :: es')) as [Hts Has].
  { by rewrite <-Ed, <-total_size_app, <-approximate_size_app, take_drop. }
  exists e0, es'. split_and!; [done|by apply (contiguous_head c (e0 :: es'))| |lia].
  constructor; [done|lia..].
Qed.

(** Otherwise the log is cut at the first conflict and the rest appended. *)
Lemma maybe_append_new :
  log_matches l idx t → l_committed l < conflict_of l es →
  let c := conflict_of l es in
  returns (maybe_append idx t committed es l) (λ '(l', r),
    r = Some (c, idx + len es) ∧ log_ok l' ∧ first l' = first l ∧ dummy l' = dummy l ∧
    l_store l' = l_store l ∧ log_end l' = idx + 1 + len es ∧ idx < c ≤ log_end l ∧
    ents l' = take (N.to_nat (c - first l)) (ents l) ++ drop (N.to_nat (c - (idx + 1))) es ∧
    l_committed l' = new_committed ∧ l_persisted l' = N.min (l_persisted l) (c - 1) ∧
    l_applied l' = l_applied l).
Proof using Hok Hfit Hreal Hrange.
  intros Hm Hc c. pose proof (lo_joined _ Hok) as Hj. destruct (Hrange Hm) as [Hf Hi].
  pose proof Hok as [_ Hco Hp Ha Hs1 Hs2].
  destruct (conflict_of_cases l idx es) as [(? & _)|(Hc1 & Hc2 & _)]; [done..|apply Hfit|done|lia|].
  fold c in Hc, Hc1, Hc2.
  destruct (conflict_suffix c) as (e0 & es' & Ed & He0 & Hfit' & Hlen); [lia..|].
  pose proof (append_spec l Hok e0 es') as Happ. rewrite He0, (proj2 (N.leb_le _ _)) in Happ by lia.
  destruct (Happ Hfit' Hc) as ([l1 i1] & Happ' & Hj1 & Hf1 & Hd1 & Hents & Hoff & Hmem1 & Hl1 & _).
  set (u1 := l_unstable l1) in *. clearbody u1. subst l1.
  set (l1 := set_l_unstable u1 l) in *.
  assert (log_end l1 = idx + 1 + len es) as Hend.
  { unfold log_end. rewrite Hf1, Hents, len_app, len_take. unfold log_end in *. lia. }
  pose proof (fi_bound _ _ _ Hfit). unfold maybe_append.
  rewrite match_term_spec, find_conflict_spec by done. simpl. fold c.
  rewrite bool_decide_eq_true_2 by done. rewrite (proj2 (N.eqb_neq _ _)), (proj2 (N.leb_gt _ _)) by lia.
  rewrite (add64_ok idx 1) by lia. cbn [mbind outcome_bind].
  rewrite (sub64_ok c (idx + 1)) by lia. cbn [mbind outcome_bind].
  rewrite (proj2 (vslice_from_Done es (c - (idx + 1)) (e0 :: es'))) by (split; [lia|done]).
  cbn [mbind outcome_bind].
  rewrite Happ'. cbn [mbind outcome_bind]. rewrite (sub64_ok c 1) by lia. cbn [mbind outcome_bind].
  replace (if c - 1 <? l_persisted l1 then set_l_persisted (c - 1) l1 else l1)
    with (set_l_persisted (N.min (l_persisted l) (c - 1)) l1).
  2: { unfold l1. simpl. case_bools; unfold set_l_persisted, set_l_unstable; simpl; f_equal; lia. }
  rewrite (add64_ok idx (len es)) by lia. cbn [mbind outcome_bind].
  rewrite commit_to_spec; [|by destruct Hj1; constructor|].
  2: { change (N.min committed (idx + len es) < log_end l1). lia. }
  apply returns_Done.
  unfold new_committed. split_and!; try done; try lia; [|by rewrite Ed].
  constructor; simpl.
  - by destruct Hj1; constructor.
  - change (first l1 - 1 ≤ N.max (l_committed l) (N.min committed (idx + len es)) < log_end l1).
    rewrite Hf1, Hend. lia.
  - rewrite Hoff. lia.
  - lia.
  - change (total_size (ents l1) ≤ u64_max). rewrite Hents.
    pose proof (total_size_cut l (N.to_nat (c - first l)) (e0 :: es')). pose proof (fi_size _ _ _ Hfit'). lia.
  - done.
Qed.
End maybe_append.

Lemma conflict_of_mismatch l es :
  conflict_of l es ≠ 0 → ∃ e, e ∈ es ∧ e_index e = conflict_of l es ∧ mismatch l e.
Proof.
  unfold conflict_of. destruct (list_find (mismatch l) es) as [[k e]|] eqn:E; [|done].
  intros _. apply list_find_Some in E as (Hk & Hm & _). exists e.
  split_and!; [by apply list_elem_of_lookup_2 in Hk|done..].
Qed.

(** Below the cut nothing changes; from the cut on the log is what was appended. *)
Lemma log_term_cut l l' c es' i :
  joined l → joined l' → first l' = first l → dummy l' = dummy l → first l ≤ c ≤ log_end l →
  ents l' = take (N.to_nat (c - first l)) (ents l) ++ es' →
  i < c → log_term l' i = log_term l i.
Proof.
  intros Hj Hj' Hf Hd Hc He Hi. pose proof (first_pos l Hj). unfold log_term. rewrite Hf, Hd.
  assert (log_end l' = c + len es') as Hend.
  { unfold log_end in *. rewrite He, len_app, len_take, Hf. lia. }
  rewrite Hend. case_bools. rewrite He, lookup_app_l.
  - by rewrite lookup_take_lt by lia.
  - rewrite length_take. unfold log_end, len in *. lia.
Qed.
Lemma entry_at_cut l l' c es' :
  first l' = first l → first l ≤ c ≤ log_end l → ents l' = take (N.to_nat (c - first l)) (ents l) ++ es' →
  ∀ i, entry_at l' i = if i <? c then entry_at l i else es' !! N.to_nat (i - c).
Proof.
  intros Hf Hc He i. unfold entry_at. rewrite Hf, He. assert (length (take (N.to_nat (c - first l)) (ents l)) = N.to_nat (c - first l)) as Hl
    by (rewrite length_take; unfold log_end, len in *; lia).
  destruct (N.ltb_spec i c), (N.ltb_spec i (first l)); [done| |lia|].
  - rewrite lookup_app_l by lia. by rewrite lookup_take_lt by lia.
  - rewrite lookup_app_r, Hl by lia. f_equal. lia.
Qed.
Lemma log_matches_entry l i t :
  joined l → first l ≤ i → t ≠ 0 → log_matches l i t → ∃ e, entry_at l i = Some e ∧ e_term e = t.
Proof.
  intros Hj Hi Ht Hm. destruct (log_matches_lookup l i t) as (e & He & Het); [done..|]. exists e. split; [|done].
  unfold entry_at. by rewrite (proj2 (N.ltb_ge _ _)).
Qed.
End spec.

(** What an accepted or refused append leaves of the log. *)
Definition appended {S} `{StorageLaws S} `{PbMessage} (idx t committed : u64) (es : list Entry)
    (l l' : RaftLog S) (r : option (u64 * u64)) : Prop :=
  log_ok l' ∧ first l' = first l ∧ l_applied l' = l_applied l ∧ l_committed l ≤ l_committed l' ∧
  (∀ i, i ≤ l_committed l → entry_at l' i = entry_at l i ∧ log_term l' i = log_term l i) ∧
  if bool_decide (log_matches l idx t) then
    let c := conflict_of l es in
    r = Some (c, idx + len es) ∧
    l_committed l' = N.max (l_committed l) (N.min committed (idx + len es)) ∧
    (∀ i, i ≤ idx → entry_at l' i = entry_at l i ∧ log_term l' i = log_term l i) ∧
    (∀ e, e ∈ es → ∃ e', entry_at l' (e_index e) = Some e' ∧ e_term e' = e_term e) ∧
    if c =? 0 then ents l' = ents l
    else
      l_committed l < c ∧ ents l' = take (N.to_nat (c - first l)) (ents l) ++ drop (N.to_nat (c - (idx + 1))) es ∧
      ∀ e, e ∈ es → c ≤ e_index e → entry_at l' (e_index e) = Some e
  else r = None ∧ l' = l.

Section agrees.
Context {S : Type} `{StorageLaws S} `{PbMessage} (l : RaftLog S) (idx t committed : u64) (es : list Entry).
Context (Hok : log_ok l) (Hfit : fits l (idx + 1) es) (Hreal : real_entries es).
Context (Hrange : log_matches l idx t → first l ≤ idx + 1 ∧ idx < log_end l).

(** Entries of the terms that were sent, from positions of the log. *)
Lemma sent_entries (l' : RaftLog S) :
  joined l' → first l' ≤ idx + 1 → (∀ e, e ∈ es → log_matches l' (e_index e) (e_term e)) →
  ∀ e, e ∈ es → ∃ e', entry_at l' (e_index e) = Some e' ∧ e_term e' = e_term e.
Proof using Hfit Hreal.
  clear Hrange. intros Hj Hf Hm e He. pose proof He as [k Hk]%list_elem_of_lookup_1.
  apply log_matches_entry; [done| | |by apply Hm].
  - rewrite (fi_contiguous _ _ _ Hfit k e Hk). lia.
  - by apply (Forall_lookup_1 _ _ _ _ Hreal Hk).
Qed.

Lemma maybe_append_known_agrees :
  log_matches l idx t → conflict_of l es = 0 →
  returns (maybe_append idx t committed es l) (λ '(l', r), appended idx t committed es l l' r).
Proof using Hok Hfit Hreal Hrange.
  intros Hm Hz. pose proof (lo_joined _ Hok) as Hj. destruct (Hrange Hm) as [Hf Hi].
  destruct (maybe_append_known l Hok idx t committed es Hfit Hreal Hrange Hm Hz) as [-> Hend].
  destruct (conflict_of_cases l idx es) as [(_ & _ & Hall)|(? & _)]; [done..|apply Hfit|done| |lia].
  apply returns_Done. unfold appended, new_committed. rewrite bool_decide_eq_true_2, Hz by done.
  split_and!; try done; [|simpl; lia|by apply (sent_entries l)]. pose proof Hok as [_ Hco Hp Ha Hs1 Hs2].
  constructor; simpl; try done; [by destruct Hj; constructor| |lia].
  change (first l - 1 ≤ N.max (l_committed l) (N.min committed (idx + len es)) < log_end l). lia.
Qed.

Lemma maybe_append_new_agrees :
  log_matches l idx t → l_committed l < conflict_of l es →
  returns (maybe_append idx t committed es l) (λ '(l', r), appended idx t committed es l l' r).
Proof using Hok Hfit Hreal Hrange.
  intros Hm Hc. pose proof (lo_joined _ Hok) as Hj. destruct (Hrange Hm) as [Hf Hi].
  destruct (maybe_append_new l Hok idx t committed es Hfit Hreal Hrange Hm Hc)
    as ([l' r] & -> & -> & Hok' & Hf' & Hd' & _ & Hend' & Hcr & Hents' & Hco' & _ & Happ).
  apply returns_Done. pose proof (lo_committed _ Hok) as [Hcl _].
  assert (∀ i, entry_at l' i = if i <? conflict_of l es then entry_at l i
            else drop (N.to_nat (conflict_of l es - (idx + 1))) es !! N.to_nat (i - conflict_of l es)) as Hat
    by (eapply entry_at_cut; [done|lia|done]).
  assert (∀ i, i < conflict_of l es → entry_at l' i = entry_at l i ∧ log_term l' i = log_term l i) as Hcut.
  { intros i Hlt. split; [by rewrite Hat, (proj2 (N.ltb_lt _ _))|].
    eapply (log_term_cut l l'); [done|apply Hok'|done|done| |done|done]. lia. }
  assert (∀ e, e ∈ es → conflict_of l es ≤ e_index e → entry_at l' (e_index e) = Some e) as Hnew.
  { intros e [k Hk]%list_elem_of_lookup_1 Hge. rewrite Hat, (proj2 (N.ltb_ge _ _)), lookup_drop by done.
    rewrite (fi_contiguous _ _ _ Hfit k e Hk) in *. by replace (_ + _)%nat with k by lia. }
  unfold appended. rewrite bool_decide_eq_true_2, (proj2 (N.eqb_neq (conflict_of l es) 0)) by (done || lia).
  unfold new_committed in Hco'.
  split_and!; try done; [lia|intros i ?; apply Hcut; lia..|apply sent_entries; [apply Hok'|lia|]].
  intros e He. destruct (N.lt_ge_cases (e_index e) (conflict_of l es)) as [Hlt|Hge].
  - unfold log_matches. rewrite (proj2 (Hcut _ Hlt)). pose proof He as [k Hk]%list_elem_of_lookup_1.
    destruct (conflict_of_cases l idx es) as [(? & _)|(_ & _ & Hb)]; [done..|apply Hfit|done|lia|].
    apply (Hb k e Hk). rewrite <-(fi_contiguous _ _ _ Hfit k e Hk). done.
  - specialize (Hnew e He Hge). unfold entry_at in Hnew. destruct (N.ltb_spec (e_index e) (first l')); [done|].
    apply log_term_lookup; [apply Hok'|done..].
Qed.

Lemma maybe_append_agrees :
  (∀ e, e ∈ es → e_index e ≤ l_committed l → log_matches l (e_index e) (e_term e)) →
  returns (maybe_append idx t committed es l) (λ '(l', r), appended idx t committed es l l' r).
Proof using Hok Hfit Hreal Hrange.
  intros Hsafe. destruct (decide (log_matches l idx t)) as [Hm|Hm].
  - destruct (decide (conflict_of l es = 0)) as [Hz|Hz]; [by apply maybe_append_known_agrees|].
    apply maybe_append_new_agrees; [done|]. destruct (conflict_of_mismatch l es Hz) as (ec & Hec & Hci & Hmis).
    destruct (N.lt_ge_cases (l_committed l) (conflict_of l es)); [done|].
    destruct Hmis. apply Hsafe; [done|lia].
  - rewrite maybe_append_mismatch by done. apply returns_Done. unfold appended.
    rewrite bool_decide_eq_false_2 by done. by split_and!.
Qed.
End agrees.

(** C9: an accepted append makes the log agree with the leader. At every position
    that was sent the log has an entry of the term that was sent; from the first
    position on where it had none, its entries are those that were sent, and nothing
    is left behind them; if there is no such position, no entry changes at all.
    Whatever is up to the previous position, and every committed entry, is the same
    entry as before, and the commit index moves forward, at most to the last entry
    sent. A message that does not match changes nothing. *)
Theorem maybe_append_safe {S} `{StorageLaws S} `{PbMessage} (l : RaftLog S) idx t committed es :
  log_ok l → fits l (idx + 1) es → real_entries es →
  (log_matches l idx t → first l ≤ idx + 1 ∧ idx < log_end l) →
  (∀ e, e ∈ es → e_index e ≤ l_committed l → log_matches l (e_index e) (e_term e)) →
  returns (maybe_append idx t committed es l) (λ '(l', r),
    log_ok l' ∧ first l' = first l ∧ l_applied l' = l_applied l ∧ l_committed l ≤ l_committed l' ∧
    (∀ i, i ≤ l_committed l → entry_at l' i = entry_at l i ∧ log_term l' i = log_term l i) ∧
    if bool_decide (log_matches l idx t) then
      let c := conflict_of l es in
      r = Some (c, idx + len es) ∧
      l_committed l' = N.max (l_committed l) (N.min committed (idx + len es)) ∧
      (∀ i, i ≤ idx → entry_at l' i = entry_at l i ∧ log_term l' i = log_term l i) ∧
      (∀ e, e ∈ es → ∃ e', entry_at l' (e_index e) = Some e' ∧ e_term e' = e_term e) ∧
      if c =? 0 then ents l' = ents l
      else
        l_committed l < c ∧ ents l' = take (N.to_nat (c - first l)) (ents l) ++ drop (N.to_nat (c - (idx + 1))) es ∧
        ∀ e, e ∈ es → c ≤ e_index e → entry_at l' (e_index e) = Some e
    else r = None ∧ l' = l).
Proof. apply maybe_append_agrees. Qed.
