(* ===== verification/RaftLogReads.v ===== *)
(** * Reading the log

    [slice], [scan], the entries to apply, and the searches by term, against the
    single sequence of entries of [RaftLogSpec]. *)
From S2P Require Import Prelude Errors Proto Util Storage Unstable Config RaftLog RaftLogSpec.
#[local] Open Scope N_scope.

Section reads.
Context {S : Type} `{StorageLaws S} `{PbMessage}.
Implicit Types l : RaftLog S.

(** A read may make the storage record the access, but nothing else. *)
Record same_log l l' : Prop := {
  sl_store : st_ok (l_store l');
  sl_first : st_first (l_store l') = st_first (l_store l);
  sl_entries : st_entries (l_store l') = st_entries (l_store l);
  sl_dummy : st_dummy_term (l_store l') = st_dummy_term (l_store l);
  sl_unstable : l_unstable l' = l_unstable l;
  sl_committed : l_committed l' = l_committed l;
  sl_persisted : l_persisted l' = l_persisted l;
  sl_applied : l_applied l' = l_applied l;
  sl_limit : l_max_apply_unpersisted_log_limit l' = l_max_apply_unpersisted_log_limit l }.

Lemma same_log_refl l : st_ok (l_store l) → same_log l l.
Proof. by constructor. Qed.
Lemma same_log_trans l1 l2 l3 : same_log l1 l2 → same_log l2 l3 → same_log l1 l3.
Proof. intros [] []. constructor; congruence. Qed.

Lemma same_log_ents l l' : same_log l l' →
  first l' = first l ∧ dummy l' = dummy l ∧ ents l' = ents l ∧ log_end l' = log_end l.
Proof.
  intros []. unfold log_end, ents, first, dummy, stable_part.
  rewrite sl_unstable0, sl_first0, sl_entries0, sl_dummy0. done.
Qed.
Lemma same_log_ok l l' : same_log l l' → log_ok l → log_ok l'.
Proof.
  intros Hs [[Hst Hun Hg He] Hc Hp Ha Hs1 Hs2].
  destruct (same_log_ents l l' Hs) as (Hf & Hd & Hents & Hend). destruct Hs.
  constructor; rewrite ?Hents, ?Hf, ?Hend, ?sl_committed0, ?sl_persisted0, ?sl_applied0, ?sl_unstable0; try done.
  constructor; rewrite ?sl_unstable0, ?sl_first0, ?sl_entries0; done.
Qed.

Lemma must_check_outofbounds_spec l lo hi :
  joined l →
  must_check_outofbounds lo hi l =
    if hi <? lo then Panic Fatal
    else if lo <? first l then Done (Some (Store Compacted))
    else if log_end l <? hi then Panic Fatal else Done None.
Proof.
  intros Hj. pose proof (first_pos l Hj). pose proof (first_le_end l). pose proof (log_end_bound l Hj).
  unfold must_check_outofbounds. rewrite first_index_spec, last_index_spec by done. simpl.
  destruct (hi <? lo); [done|]. destruct (N.ltb_spec lo (first l)); [done|].
  rewrite add64_ok by lia. simpl. rewrite sub64_ok by lia. simpl. rewrite add64_ok by lia. simpl.
  replace (first l + (log_end l - 1 + 1 - first l)) with (log_end l) by lia. done.
Qed.

(** A range of the log is its part in the storage followed by its unstable part. *)
Lemma range_split l lo hi :
  joined l → first l ≤ lo → lo ≤ hi → hi ≤ log_end l →
  let off := u_offset (l_unstable l) in
  range (first l) (ents l) lo hi =
    range (first l) (stable_part l) lo (N.min hi off) ++
    range off (u_entries (l_unstable l)) (N.max lo off) hi.
Proof.
  intros Hj Hlo Hle Hhi off. pose proof (stable_part_len l Hj) as Hl. fold off in Hl. unfold len in Hl.
  unfold range, ents. rewrite drop_app, take_app. f_equal.
  - destruct (N.le_gt_cases lo off).
    + destruct (N.le_gt_cases hi off); [by rewrite N.min_l|].
      rewrite N.min_r by lia. rewrite !take_ge; rewrite ?length_drop; try done; lia.
    + rewrite !drop_ge by lia. by rewrite !take_nil.
  - rewrite length_drop. f_equal; [lia|f_equal; lia].
Qed.

Lemma range_stable l lo hi :
  joined l → u_snapshot (l_unstable l) = None → first l ≤ lo → lo ≤ hi → hi ≤ u_offset (l_unstable l) →
  range (first l) (stable_part l) lo hi = range (st_first (l_store l)) (st_entries (l_store l)) lo hi.
Proof.
  intros Hj Hs Hlo Hle Hhi. unfold range, stable_part, first in *. rewrite Hs in *.
  rewrite skipn_firstn_comm, take_take. f_equal; lia.
Qed.

Lemma limited_full max full es : limited max full es → len full ≤ len es → es = full.
Proof.
  intros [[k ->] _] Hl. rewrite len_app in Hl. rewrite (proj1 (len_0_iff k)) by lia. by rewrite app_nil_r.
Qed.
Lemma limited_short max full es rest :
  limited max full es → len es < len full → limited max (full ++ rest) es.
Proof.
  intros (Hp & Hne & Hall) Hl. split_and!.
  - etrans; [done|]. by exists rest.
  - intros _ ->. apply Hne; [|done]. intros ->. rewrite len_nil in Hl. lia.
  - intros Hm. rewrite Hall in Hl by done. lia.
Qed.

Lemma total_size_range f es lo hi : total_size (range f es lo hi) ≤ total_size es.
Proof.
  unfold range. etrans; [apply total_size_take|].
  rewrite <-(take_drop (N.to_nat (lo - f)) es) at 2. rewrite total_size_app. lia.
Qed.

Lemma range_nil f es lo hi : hi ≤ lo → range f es lo hi = [].
Proof. intros. unfold range. by rewrite (proj2 (N.sub_0_le hi lo)). Qed.

(** The two steps of [slice] that produce entries. *)
Lemma slice_unstable l lo hi :
  joined l → first l ≤ lo → lo < hi → hi ≤ log_end l →
  (if u_offset (l_unstable l) <? hi
   then unstable ← Unstable.slice (N.max lo (u_offset (l_unstable l))) hi (l_unstable l);
        Done (range (first l) (stable_part l) lo (N.min hi (u_offset (l_unstable l))) ++ unstable)
   else Done (range (first l) (stable_part l) lo (N.min hi (u_offset (l_unstable l))))) =
  Done (range (first l) (ents l) lo hi).
Proof.
  intros Hj Hf Hlt Hhi. pose proof (log_end_unstable l Hj). rewrite (range_split l lo hi) by (done || lia).
  destruct (N.ltb_spec (u_offset (l_unstable l)) hi) as [Ho|Ho].
  - rewrite unstable_slice; [done|apply Hj|lia..].
  - by rewrite (range_nil (u_offset _)), app_nil_r by lia.
Qed.

Lemma slice_ok l lo hi max ctx :
  log_ok l → first l ≤ lo → lo ≤ hi → hi ≤ log_end l →
  returns (slice lo hi max ctx l) (λ '(l', r),
    same_log l l' ∧
    match r with
    | Ok es => limited max (range (first l) (ents l) lo hi) es
    | Err e => e = Store LogTemporarilyUnavailable ∧ can_async ctx = true
    end).
Proof.
  intros Hok Hf Hle Hhi. pose proof (lo_joined _ Hok) as Hj. unfold slice.
  rewrite must_check_outofbounds_spec by done.
  rewrite (proj2 (N.ltb_ge hi lo)), (proj2 (N.ltb_ge lo (first l))),
    (proj2 (N.ltb_ge (log_end l) hi)) by lia.
  cbn [mbind outcome_bind].
  pose proof (same_log_refl l (jo_store _ Hj)) as Hrefl.
  destruct (N.eqb_spec lo hi) as [->|Hne].
  { apply returns_Done. split; [done|]. unfold range. rewrite N.sub_diag. simpl. split_and!; done. }
  pose proof (total_size_range (first l) (ents l) lo hi). pose proof (lo_size _ Hok).
  set (off := u_offset (l_unstable l)).
  destruct (N.ltb_spec lo off) as [Ho|Ho]; cbn [mbind outcome_bind].
  - assert (u_snapshot (l_unstable l) = None) as Hsn.
    { unfold first in Hf. destruct (u_snapshot (l_unstable l)); [fold off in Hf; lia|done]. }
    assert (first l = st_first (l_store l)) as Hfs by (unfold first; by rewrite Hsn).
    destruct (jo_gap _ Hj Hsn) as [Hg1 Hg2]. fold off in Hg1, Hg2.
    destruct (st_entries_range (l_store l) lo (N.min hi off) max ctx)
      as ([st r] & -> & Hst & Hst1 & Hst2 & Hst3 & Hr); [apply Hj|lia..|].
    assert (same_log l (set_l_store st l)) as Hsame by (by constructor).
    cbn [mbind outcome_bind]. rewrite <-(range_stable l) in Hr by (done || lia).
    destruct r as [es|e]; [|destruct Hr as [-> ?]; apply returns_Done; done].
    rewrite sub64_ok by lia. cbn [mbind outcome_bind].
    assert (len (range (first l) (stable_part l) lo (N.min hi off)) = N.min hi off - lo) as Hlr.
    { apply len_range; [lia|lia|]. rewrite (stable_part_len l Hj). lia. }
    destruct (N.ltb_spec (len es) (N.min hi off - lo)) as [Hs|Hs]; cbn [mbind outcome_bind].
    + apply returns_Done. split; [done|]. rewrite (range_split l lo hi) by (done || lia).
      apply limited_short; [done|]. unfold off in *. by rewrite Hlr.
    + rewrite (limited_full max _ es Hr) by lia. unfold off. cbn [l_unstable set_l_store].
      rewrite (slice_unstable l lo hi) by (done || lia). cbn [mbind outcome_bind].
      destruct (limited_limit_size (range (first l) (ents l) lo hi) max) as (kept & -> & Hk); [lia|].
      by apply returns_Done.
  - assert (range (first l) (stable_part l) lo (N.min hi off) = []) as Hnil.
    { apply range_nil. lia. }
    pose proof (slice_unstable l lo hi Hj Hf ltac:(lia) Hhi) as Hu. fold off in Hu. rewrite Hnil in Hu.
    rewrite Hu. cbn [mbind outcome_bind].
    destruct (limited_limit_size (range (first l) (ents l) lo hi) max) as (kept & -> & Hk); [lia|].
    by apply returns_Done.
Qed.

(** ** Scanning *)

(** The callback applied to successive pages until it answers false. *)
Fixpoint run_pages {A} (v : list Entry → A → A * bool) (pages : list (list Entry)) (a : A) : A * bool :=
  match pages with
  | [] => (a, true)
  | es :: pages => let '(a, c) := v es a in if c then run_pages v pages a else (a, false)
  end.

Lemma range_prefix f xs lo hi es :
  f ≤ lo → hi ≤ f + len xs → es `prefix_of` range f xs lo hi →
  lo + len es ≤ N.max lo hi ∧ range f xs lo hi = es ++ range f xs (lo + len es) hi.
Proof.
  intros Hf Hh [k Hk]. destruct (N.le_gt_cases hi lo) as [Hle|Hlt].
  { rewrite range_nil in Hk by done. symmetry in Hk. apply app_eq_nil in Hk as [-> ->].
    rewrite len_nil, !range_nil by lia. split; [lia|done]. }
  pose proof (f_equal len Hk) as Hl. rewrite len_range, len_app in Hl by lia. split; [lia|].
  rewrite Hk. f_equal. apply (f_equal (drop (length es))) in Hk. rewrite drop_app_length in Hk.
  rewrite <-Hk. unfold range. rewrite skipn_firstn_comm, drop_drop. unfold len. f_equal; [lia|f_equal; lia].
Qed.

Lemma scan_loop_spec {A} fuel lo hi page ctx (v : list Entry → A → A * bool) a l :
  log_ok l → first l ≤ lo → hi ≤ log_end l → (N.to_nat (hi - lo) < fuel)%nat →
  returns (scan_loop fuel lo hi page ctx v a l) (λ '(l', a', r),
    same_log l l' ∧ ∃ pages c, (a', c) = run_pages v pages a ∧ ([] ∉ pages) ∧
      (concat pages) `prefix_of` (range (first l) (ents l) lo hi) ∧
      match r with
      | Ok _ => c = true → concat pages = range (first l) (ents l) lo hi
      | Err e => c = true ∧ e = Store LogTemporarilyUnavailable ∧ can_async ctx = true
      end).
Proof.
  revert lo a l. induction fuel as [|fuel IH]; intros lo a l Hok Hf Hh Hfuel; [lia|]. cbn [scan_loop].
  assert (st_ok (l_store l)) as Hst by apply Hok. pose proof (log_end_bound l (lo_joined _ Hok)).
  destruct (N.ltb_spec lo hi) as [Hlt|Hge].
  2: { apply returns_Done. split; [by apply same_log_refl|]. exists [], true. rewrite range_nil by done.
       split_and!; try done. apply not_elem_of_nil. }
  destruct (slice_ok l lo hi (Some page) ctx Hok Hf) as ([l1 r] & -> & Hs & Hr); [lia..|].
  cbn [mbind outcome_bind]. destruct r as [es|e].
  2: { destruct Hr as [-> Hca]. apply returns_Done. split; [done|]. exists [], true.
       split_and!; try done; [apply not_elem_of_nil|apply prefix_nil]. }
  destruct Hr as (Hpre & Hne & _).
  assert (es ≠ []) as Hes.
  { apply Hne. intros Hnil. apply (f_equal len) in Hnil. rewrite len_nil, len_range in Hnil; unfold log_end in *; lia. }
  rewrite bool_decide_eq_false_2 by done. apply len_pos in Hes as Hpos.
  destruct (range_prefix (first l) (ents l) lo hi es) as [Hle Hsplit]; [done|unfold log_end in *; lia|done|].
  rewrite add64_ok by lia. cbn [mbind outcome_bind]. rewrite N.max_r in Hle by lia.
  destruct (v es a) as [a1 [|]] eqn:Ev; cbn [negb].
  2: { apply returns_Done. split; [done|]. exists [es], false. simpl. rewrite Ev, app_nil_r. split_and!; try done.
       by rewrite list_elem_of_singleton. }
  destruct (same_log_ents l l1 Hs) as (Hf1 & _ & He1 & Hend1).
  destruct (IH (lo + len es) a1 l1) as ([[l2 a2] r] & -> & Hs2 & pages & c & Hrun & Hno & Hpp & Hr);
    [by apply (same_log_ok l)|lia|lia|lia|].
  apply returns_Done. split; [by apply (same_log_trans l l1)|]. rewrite Hf1, He1 in *.
  exists (es :: pages), c. simpl. rewrite Ev, Hsplit. split_and!; [done| |by apply prefix_app|].
  + rewrite not_elem_of_cons. auto.
  + destruct r; [|done]. intros Hc. by rewrite Hr.
Qed.

(** ** Searching by term *)

Lemma conflict_loop_spec fuel i t l :
  joined l → (N.to_nat i < fuel)%nat → log_term l 0 = Ok 0 ∨ log_term l 0 = Err (Store Compacted) →
  returns (conflict_loop fuel i t l) (λ '(c, r),
    c ≤ i ∧ (∀ j, c < j ≤ i → ∃ t', log_term l j = Ok t' ∧ t < t') ∧
    match r with
    | Some t' => log_term l c = Ok t' ∧ t' ≤ t
    | None => log_term l c = Err (Store Compacted)
    end).
Proof.
  intros Hj Hfuel H0'. revert i Hfuel. induction fuel as [|fuel IH]; intros i Hfuel; [lia|].
  cbn [conflict_loop]. rewrite term_spec by done. cbn [mbind outcome_bind].
  destruct (log_term l i) as [t'|e] eqn:E.
  - destruct (N.ltb_spec t t') as [Hlt|Hge].
    + destruct (decide (i = 0)) as [->|Hne]; [destruct H0' as [Hz|Hz]; rewrite Hz in E; simplify_eq; lia|].
      rewrite sub64_ok by lia. cbn [mbind outcome_bind].
      destruct (IH (i - 1)) as ([c r] & -> & Hc & Hall & Hr); [lia|]. apply returns_Done.
      split_and!; [lia| |done]. intros j Hji. destruct (decide (j = i)) as [->|]; [by exists t'|].
      apply Hall. lia.
    + apply returns_Done. split_and!; try done. intros j ?. lia.
  - apply returns_Done. split_and!; [done|intros j ?; lia|].
    revert E. unfold log_term. repeat case_match; congruence.
Qed.
End reads.

(** C30: a slice of the log inside its bounds is a prefix of the entries at those
    positions, wherever they are kept, never empty when entries were asked for,
    and complete when there is no size limit; the only error is an asynchronous
    fetch under way. Positions before the first entry are reported compacted, and
    an inverted or overlong range panics. *)
Theorem slice_spec {S} `{StorageLaws S} `{PbMessage} (l : RaftLog S) lo hi max ctx :
  log_ok l →
  if hi <? lo then slice lo hi max ctx l = Panic Fatal
  else if lo <? first l then slice lo hi max ctx l = Done (l, Err (Store Compacted))
  else if log_end l <? hi then slice lo hi max ctx l = Panic Fatal
  else returns (slice lo hi max ctx l) (λ '(l', r),
    same_log l l' ∧
    match r with
    | Ok es => limited max (range (first l) (ents l) lo hi) es
    | Err e => e = Store LogTemporarilyUnavailable ∧ can_async ctx = true
    end).
Proof.
  intros Hok. pose proof (must_check_outofbounds_spec l lo hi (lo_joined _ Hok)) as Hb.
  destruct (N.ltb_spec hi lo); [unfold slice; by rewrite Hb|].
  destruct (N.ltb_spec lo (first l)); [unfold slice; by rewrite Hb|].
  destruct (N.ltb_spec (log_end l) hi); [unfold slice; by rewrite Hb|].
  by apply slice_ok.
Qed.

(** C33: [scan] terminates, hands the callback consecutive non-empty pages of the
    range in order, stops when the callback says so, and otherwise visits the
    whole range unless the storage starts an asynchronous fetch. *)
Theorem scan_spec {S} `{StorageLaws S} `{PbMessage} {A} (l : RaftLog S) lo hi page ctx
    (v : list Entry → A → A * bool) a :
  log_ok l → first l ≤ lo → hi ≤ log_end l →
  returns (scan lo hi page ctx v a l) (λ '(l', a', r),
    same_log l l' ∧ ∃ pages c, (a', c) = run_pages v pages a ∧ ([] ∉ pages) ∧
      (concat pages) `prefix_of` (range (first l) (ents l) lo hi) ∧
      match r with
      | Ok _ => c = true → concat pages = range (first l) (ents l) lo hi
      | Err e => c = true ∧ e = Store LogTemporarilyUnavailable ∧ can_async ctx = true
      end).
Proof. intros Hok Hlo Hhi. apply scan_loop_spec; [done..|lia]. Qed.

(** The entries after any position that are committed and persisted far enough. *)
Lemma next_entries_since_ok {S} `{StorageLaws S} `{PbMessage} (l : RaftLog S) since max :
  log_ok l → l_persisted l + l_max_apply_unpersisted_log_limit l ≤ u64_max → since < u64_max →
  let lo := N.max (since + 1) (first l) in
  let hi := N.min (l_committed l) (l_persisted l + l_max_apply_unpersisted_log_limit l) + 1 in
  has_next_entries_since since l = Done (lo <? hi) ∧
  returns (next_entries_since since max l) (λ '(l', r),
    same_log l l' ∧
    match r with
    | Some es => lo < hi ∧ limited max (range (first l) (ents l) lo hi) es ∧ es ≠ []
    | None => hi ≤ lo
    end).
Proof.
  intros Hok Hlim Hsince lo hi. pose proof Hok as [Hj [Hc1 Hc2] Hp Ha _ _]. pose proof (log_end_bound l Hj).
  unfold has_next_entries_since, next_entries_since, applied_index_upper_bound.
  rewrite first_index_spec by done. rewrite !add64_ok by lia. cbn [mbind outcome_bind].
  rewrite add64_ok by lia. cbn [mbind outcome_bind]. fold lo hi. split; [done|].
  destruct (N.ltb_spec lo hi) as [Hlt|Hge].
  2: { apply returns_Done. split; [apply same_log_refl, Hok|done]. }
  destruct (slice_ok l lo hi max GenReady Hok) as ([l' r] & -> & Hs & Hr); [lia..|].
  cbn [mbind outcome_bind]. destruct r as [es|e]; [|by destruct Hr].
  apply returns_Done. split_and!; [done..|]. apply Hr. intros Hnil. apply (f_equal len) in Hnil.
  rewrite len_nil, len_range in Hnil; unfold log_end in *; lia.
Qed.

(** C31: the entries handed out to apply are exactly the next committed ones that
    are persisted far enough: a non-empty prefix of the positions after the
    applied index (or from the first entry) up to the bound, and nothing when
    there are none; reading them never fails. *)
Theorem next_entries_spec {S} `{StorageLaws S} `{PbMessage} (l : RaftLog S) max :
  log_ok l → l_persisted l + l_max_apply_unpersisted_log_limit l ≤ u64_max →
  let lo := N.max (l_applied l + 1) (first l) in
  let hi := N.min (l_committed l) (l_persisted l + l_max_apply_unpersisted_log_limit l) + 1 in
  has_next_entries l = Done (lo <? hi) ∧
  returns (next_entries max l) (λ '(l', r),
    same_log l l' ∧
    match r with
    | Some es => lo < hi ∧ limited max (range (first l) (ents l) lo hi) es ∧ es ≠ []
    | None => hi ≤ lo
    end).
Proof.
  intros Hok Hlim. pose proof (log_end_bound l (lo_joined _ Hok)). pose proof (lo_committed _ Hok). pose proof (lo_applied _ Hok).
  apply (next_entries_since_ok l (l_applied l) max); [done..|lia].
Qed.

(** C34: [find_conflict_by_term] terminates with the last position at or below the
    given one whose term is small enough (every position in between has a larger
    term), or stops where the term is no longer known. *)
Theorem find_conflict_by_term_spec {S} `{StorageLaws S} (l : RaftLog S) index t :
  joined l → log_term l 0 = Ok 0 ∨ log_term l 0 = Err (Store Compacted) →
  returns (find_conflict_by_term index t l) (λ '(c, r),
    if bool_decide (log_end l ≤ index) then c = index ∧ r = None
    else c ≤ index ∧ (∀ j, c < j ≤ index → ∃ t', log_term l j = Ok t' ∧ t < t') ∧
      match r with
      | Some t' => log_term l c = Ok t' ∧ t' ≤ t
      | None => log_term l c = Err (Store Compacted)
      end).
Proof.
  intros Hj H0'. pose proof (first_pos l Hj). pose proof (first_le_end l).
  unfold find_conflict_by_term. rewrite last_index_spec by done. cbn [mbind outcome_bind].
  destruct (N.ltb_spec (log_end l - 1) index) as [Hlt|Hge].
  - apply returns_Done. by rewrite bool_decide_eq_true_2 by lia.
  - rewrite bool_decide_eq_false_2 by lia. apply conflict_loop_spec; [done|lia|done].
Qed.

Lemma is_up_to_date_x {S} `{StorageLaws S} (l : RaftLog S) idx t lt :
  joined l → log_term l (log_end l - 1) = Ok lt →
  is_up_to_date idx t l = Done (bool_decide (lt < t ∨ t = lt ∧ log_end l - 1 ≤ idx)).
Proof.
  intros Hj Ht. unfold is_up_to_date, last_term. rewrite last_index_spec by done. cbn [mbind outcome_bind].
  rewrite term_spec by done. cbn [mbind outcome_bind]. rewrite Ht. cbn [mbind outcome_bind].
  case_bools; rewrite ?bool_decide_eq_true_2, ?bool_decide_eq_false_2 by lia; done.
Qed.

(** [is_up_to_date] compares the last terms, then the last positions. *)
Theorem is_up_to_date_spec {S} `{StorageLaws S} (l : RaftLog S) idx t lt :
  joined l → log_term l (log_end l - 1) = Ok lt →
  is_up_to_date idx t l = Done (bool_decide (lt < t ∨ t = lt ∧ log_end l - 1 ≤ idx)).
Proof. apply is_up_to_date_x. Qed.
