(* ===== verification/RaftLogInv.v ===== *)
(** * The life of a log

    Every operation that changes the log, in any order: the invariant of the log
    is kept, the commit index never moves back, and a committed entry that is
    still in the log never changes. *)
From S2P Require Import Prelude Errors Proto Util Storage Unstable Config RaftLog RaftLogSpec.
#[local] Open Scope N_scope.

Section inv.
Context {S : Type} `{StorageLaws S} `{PbMessage}.
Implicit Types l : RaftLog S.

Inductive log_op : Type :=
  | MaybeAppend (idx t committed : u64) (es : list Entry)
  | Append (e0 : Entry) (es : list Entry)
  | CommitTo (i : u64)
  | MaybeCommit (i t : u64)
  | AppliedTo (i : u64)
  | MaybePersist (i t : u64)
  | MaybePersistSnap (i : u64)
  | Restore (snap : Snapshot)
  | WriteStore (store : S)          (* the application persists entries or a snapshot *)
  | StableEntries (i t : u64)
  | StableSnap (i : u64).

Definition log_step (o : log_op) l : outcome (RaftLog S) :=
  match o with
  | MaybeAppend idx t committed es => fst <$> maybe_append idx t committed es l
  | Append e0 es => fst <$> append (e0 :: es) l
  | CommitTo i => commit_to i l
  | MaybeCommit i t => fst <$> maybe_commit i t l
  | AppliedTo i => applied_to i l
  | MaybePersist i t => fst <$> maybe_persist i t l
  | MaybePersistSnap i => fst <$> maybe_persist_snap i l
  | Restore snap => restore snap l
  | WriteStore store => Done (set_l_store store l)
  | StableEntries i t => stable_entries i t l
  | StableSnap i => stable_snap i l
  end.

(** What the callers guarantee. *)
Definition log_pre (o : log_op) l : Prop :=
  match o with
  | MaybeAppend idx t committed es =>
      fits l (idx + 1) es ∧ real_entries es ∧
      (log_matches l idx t → first l ≤ idx + 1 ∧ idx < log_end l) ∧
      (∀ e, e ∈ es → e_index e ≤ l_committed l → log_matches l (e_index e) (e_term e))
  | Append e0 es =>
      fits l (e_index e0) (e0 :: es) ∧ l_committed l < e_index e0 ≤ log_end l ∧ l_persisted l < e_index e0
  | CommitTo i => i < log_end l
  | MaybeCommit i t => t ≠ 0
  | AppliedTo i => l_applied l ≤ i ≤ l_committed l
  | MaybePersist i t => True
  | MaybePersistSnap i => i ≤ l_committed l ∧ i < u_offset (l_unstable l)
  | Restore snap => l_committed l ≤ sm_index (s_metadata snap) < u64_max
  | WriteStore store =>
      let l' := set_l_store store l in
      joined l' ∧ first l' = first l ∧ dummy l' = dummy l ∧ ents l' = ents l
  | StableEntries i t =>
      u_snapshot (l_unstable l) = None ∧ ents l = st_entries (l_store l) ∧
      ∃ e, last (u_entries (l_unstable l)) = Some e ∧ e_index e = i ∧ e_term e = t
  | StableSnap i =>
      ∃ s, u_snapshot (l_unstable l) = Some s ∧ sm_index (s_metadata s) = i ∧
        st_first (l_store l) = i + 1 ∧ st_dummy_term (l_store l) = Some (sm_term (s_metadata s)) ∧
        (u_entries (l_unstable l) = [] → st_entries (l_store l) = [])
  end.

(** What every step guarantees. *)
Definition preserved l l' : Prop :=
  log_ok l' ∧ l_committed l ≤ l_committed l' ∧ l_applied l ≤ l_applied l' ∧
  ∀ i, first l' ≤ i ≤ l_committed l → entry_at l' i = entry_at l i ∧ log_term l' i = log_term l i.

(** A step that keeps the sequence of entries keeps its terms. *)
Lemma preserved_same l l' :
  log_ok l' → l_committed l ≤ l_committed l' → l_applied l ≤ l_applied l' →
  first l' = first l → dummy l' = dummy l → ents l' = ents l → preserved l l'.
Proof.
  intros Hok Hc Ha Hf Hd He. split_and!; try done. intros i _.
  unfold entry_at, log_term, log_end. by rewrite Hf, Hd, He.
Qed.

Lemma set_committed_ok l c :
  log_ok l → l_committed l ≤ c < log_end l → preserved l (set_l_committed c l).
Proof.
  intros [[] Hc Hp Ha Hs1 Hs2] Hcc. apply preserved_same; try done; simpl; [|lia].
  constructor; simpl; [by constructor|change (first l - 1 ≤ c < log_end l); lia|done|lia|done..].
Qed.
Lemma set_persisted_ok l p :
  log_ok l → p < u_offset (l_unstable l) → preserved l (set_l_persisted p l).
Proof. intros [[] Hc Hp Ha Hs1 Hs2] Hpp. apply preserved_same; try done. Qed.

Lemma preserved_refl l : log_ok l → preserved l l.
Proof. intros. by apply preserved_same. Qed.

Lemma maybe_commit_preserved i t l :
  log_ok l → t ≠ 0 → returns (maybe_commit i t l) (λ '(l', done_),
    preserved l l' ∧ done_ = bool_decide (l_committed l < i ∧ log_matches l i t) ∧
    l' = set_l_committed (if done_ then i else l_committed l) l).
Proof.
  assert (set_l_committed (l_committed l) l = l) as Hid by (by destruct l).
  intros Hok Ht. pose proof (lo_joined _ Hok) as Hj. unfold maybe_commit.
  destruct (N.ltb_spec (l_committed l) i) as [Hlt|Hge]; cbn [mbind outcome_bind].
  2: { apply returns_Done. rewrite bool_decide_eq_false_2 by lia. by split_and!; [apply preserved_refl|..]. }
  rewrite term_spec by done. cbn [mbind outcome_bind].
  destruct (is_ok_and (log_term l i) (λ t', t' =? t)) eqn:E.
  - assert (log_matches l i t) as Hm.
    { unfold log_matches. destruct (log_term l i) as [t'|]; [|done]. apply N.eqb_eq in E. by subst. }
    destruct (log_matches_lookup l i t) as (e & He & _); [done|pose proof (lo_committed _ Hok); lia|done..|].
    apply lookup_lt_Some in He. assert (i < log_end l) by (unfold log_end, len; lia).
    rewrite commit_to_spec by done. cbn [mbind outcome_bind]. apply returns_Done.
    rewrite bool_decide_eq_true_2 by done. rewrite N.max_r by lia.
    split_and!; [|done..]. apply set_committed_ok; [done|lia].
  - apply returns_Done. rewrite bool_decide_eq_false_2; [split_and!; [by apply preserved_refl|done..]|].
    intros [_ Hm]. unfold log_matches in Hm. rewrite Hm in E. simpl in E. by rewrite N.eqb_refl in E.
Qed.

Lemma maybe_persist_preserved i t l :
  log_ok l → returns (maybe_persist i t l) (λ '(l', _), preserved l l').
Proof.
  intros Hok. unfold maybe_persist.
  set (fui := match u_snapshot (l_unstable l) with Some s => _ | None => _ end).
  assert (fui ≤ u_offset (l_unstable l)) as Hfui.
  { unfold fui. destruct (u_snapshot (l_unstable l)) as [s|] eqn:E; [|done].
    rewrite (uo_snapshot _ (jo_unstable _ (lo_joined _ Hok)) s E). lia. }
  destruct (N.ltb_spec (l_persisted l) i), (N.ltb_spec i fui); simpl;
    try (apply returns_Done; by apply preserved_refl).
  destruct (st_term_total (l_store l) i) as [r ->]; [apply Hok|]. simpl. destruct (is_ok_and _ _); apply returns_Done.
  - apply set_persisted_ok; [done|lia].
  - by apply preserved_refl.
Qed.

Lemma append_preserved e0 es l :
  log_ok l → log_pre (Append e0 es) l → returns (append (e0 :: es) l) (λ '(l', _), preserved l l').
Proof.
  intros Hok (Hfit & Hc & Hp). pose proof (lo_joined _ Hok) as Hj.
  pose proof (append_spec l Hok e0 es Hfit ltac:(lia)) as Ha. rewrite (proj2 (N.leb_le _ _)) in Ha by lia.
  eapply returns_mono; [done|]. intros [l' i] (Hj' & Hf & Hd & He & Ho & Hm & Hl' & _).
  pose proof Hok as [_ Hco Hpe Hap Hs _]. pose proof (fi_size _ _ _ Hfit).
  assert (log_end l' = e_index e0 + len (e0 :: es)) as Hend.
  { unfold log_end in *. rewrite He, len_app, len_take, Hf. lia. }
  set (u' := l_unstable l') in *. clearbody u'. subst l'.
  pose proof (len_cons e0 es). split_and!; try done.
  - constructor; rewrite ?Hf, ?He, ?Hend; simpl; try done; try lia.
    pose proof (total_size_cut l (N.to_nat (e_index e0 - first l)) (e0 :: es)) as Hcut. simpl in *. lia.
  - intros i' Hi. split; [|eapply (log_term_cut l); [done..| |done|]; lia].
    rewrite (entry_at_cut l _ (e_index e0) (e0 :: es)) by (done || lia). by rewrite (proj2 (N.ltb_lt _ _)) by lia.
Qed.

Lemma restore_preserved snap l :
  log_ok l → log_pre (Restore snap) l → returns (restore snap l) (λ l',
    preserved l l' ∧ first l' = sm_index (s_metadata snap) + 1 ∧ ents l' = [] ∧
    dummy l' = Some (sm_term (s_metadata snap)) ∧ l_committed l' = sm_index (s_metadata snap)).
Proof.
  intros Hok [Hlo Hhi]. pose proof Hok as [Hj Hc Hp Ha Hs1 Hs2]. unfold restore, Unstable.restore.
  rewrite (proj2 (N.leb_le _ _)) by done. cbn [assert mbind outcome_bind].
  rewrite add64_ok by lia. cbn [mbind outcome_bind]. apply returns_Done.
  set (p := if l_committed l <? l_persisted l then l_committed l else l_persisted l).
  assert (p ≤ l_committed l) as Hpp by (unfold p; case_bools).
  set (l' := set_l_unstable _ _).
  assert (l_persisted l' = p ∧ l_applied l' = l_applied l ∧ l_committed l' = sm_index (s_metadata snap)) as (E1 & E2 & E3)
    by (unfold l', p; by case_bools).
  assert (l_unstable l' = mkUnstable (Some snap) [] 0 (sm_index (s_metadata snap) + 1)) as E4 by done.
  assert (l_store l' = l_store l) as E5 by (unfold l'; by case_bools).
  assert (first l' = sm_index (s_metadata snap) + 1 ∧ ents l' = [] ∧ log_end l' = sm_index (s_metadata snap) + 1)
    as (F1 & F2 & F3) by (unfold log_end, ents, first, stable_part; rewrite E4; simpl; rewrite len_nil, N.add_0_r; done).
  assert (dummy l' = Some (sm_term (s_metadata snap))) as F4 by (unfold dummy; by rewrite E4).
  split; [|by split_and!]. unfold preserved. rewrite E2, E3, F1.
  split_and!; [|lia|lia|intros i ?; lia].
  constructor; rewrite ?F1, ?F2, ?F3, ?E1, ?E2, ?E3, ?E4; simpl; try lia; try done.
  constructor; rewrite ?E4, ?E5; simpl; [apply Hj| |done..].
  constructor; simpl; [apply contiguous_nil|rewrite len_nil; lia|lia|done|by intros s [= <-]].
Qed.

Lemma write_store_preserved store l :
  log_ok l → log_pre (WriteStore store) l → preserved l (set_l_store store l).
Proof.
  intros [Hj Hc Hp Ha Hs1 Hs2] (Hj' & Hf & Hd & He). apply preserved_same; try done.
  constructor; try done; simpl; rewrite ?He; try done.
  unfold log_end in *. by rewrite Hf, He.
Qed.

Lemma stable_entries_ok i t l :
  log_ok l → log_pre (StableEntries i t) l → returns (stable_entries i t l) (λ l',
    preserved l l' ∧ l' = set_l_unstable (mkUnstable None [] 0 (i + 1)) l ∧ ents l' = ents l ∧ first l' = first l).
Proof.
  intros Hok (Hsn & He & e & Hlast & <- & <-). pose proof Hok as [Hj Hc Hp Ha Hs1 Hs2].
  pose proof (log_end_unstable l Hj) as Hend. pose proof (jo_unstable _ Hj) as [Huc Hub Hup Hus _].
  unfold stable_entries, Unstable.stable_entries. rewrite Hsn, Hlast. cbn -[N.add].
  rewrite !N.eqb_refl. cbn [negb orb]. rewrite (contiguous_last _ _ _ Huc Hlast).
  assert (0 < len (u_entries (l_unstable l))) as Hpos.
  { apply len_pos. intros Hn. by rewrite Hn in Hlast. }
  rewrite add64_ok by lia. cbn [mbind outcome_bind]. apply returns_Done.
  rewrite <-Hend. replace (log_end l - 1 + 1) with (log_end l) by lia.
  set (l' := set_l_unstable _ l).
  assert (st_first (l_store l) = first l) as Hf by (unfold first; by rewrite Hsn).
  assert (first l' = first l) as Hf' by (unfold first, l'; simpl; by rewrite Hsn).
  assert (ents l' = ents l) as He'.
  { unfold ents at 1, stable_part. unfold l'. simpl. rewrite Hsn, app_nil_r, Hf, <-He.
    apply take_ge. unfold log_end, len. lia. }
  assert (dummy l' = dummy l) as Hd' by (unfold dummy, l'; simpl; by rewrite Hsn).
  split; [|split_and!; [unfold l', set_u_entries_size; cbn; by rewrite Hsn|done..]].
  apply preserved_same; try done.
  assert (log_end l' = log_end l) as Hend' by (unfold log_end; by rewrite Hf', He').
  constructor; rewrite ?He', ?Hend', ?Hf'; try done; [|simpl; lia].
  assert (log_end l = st_first (l_store l) + len (st_entries (l_store l))) as Hse
    by (unfold log_end; by rewrite Hf, He).
  constructor; simpl; [apply Hj| |intros _; lia|done].
  constructor; simpl; [apply contiguous_nil|rewrite len_nil; lia|lia|done|by rewrite Hsn].
Qed.

Lemma stable_entries_preserved i t l :
  log_ok l → log_pre (StableEntries i t) l → returns (stable_entries i t l) (preserved l).
Proof. intros. eapply returns_mono; [by apply stable_entries_ok|]. by intros l' [? _]. Qed.

Lemma stable_snap_preserved i l :
  log_ok l → log_pre (StableSnap i) l → returns (stable_snap i l) (preserved l).
Proof.
  intros Hok (s & Hsn & <- & Hf & Hd & He). pose proof Hok as [Hj Hc Hp Ha Hs1 Hs2].
  pose proof (jo_unstable _ Hj) as [Huc Hub Hup Hus Husn]. specialize (Husn s Hsn).
  unfold stable_snap, Unstable.stable_snap. rewrite Hsn. simpl. rewrite N.eqb_refl. simpl.
  apply returns_Done. set (l' := set_l_unstable _ l).
  assert (first l' = first l) as Hf' by (unfold first, l'; simpl; rewrite Hsn; lia).
  assert (ents l' = ents l) as He'.
  { unfold ents, stable_part, l'. simpl. rewrite Hsn, Husn, Hf, N.sub_diag. done. }
  assert (dummy l' = dummy l) as Hd' by (unfold dummy, l'; simpl; by rewrite Hsn).
  apply preserved_same; try done.
  assert (log_end l' = log_end l) as Hend' by (unfold log_end; by rewrite Hf', He').
  constructor; rewrite ?He', ?Hend', ?Hf'; try done.
  constructor; simpl; [apply Hj| |intros _; lia|].
  - by constructor.
  - intros _ Hn. rewrite (He Hn), len_nil. lia.
Qed.

Lemma log_step_preserved o l : log_ok l → log_pre o l → returns (log_step o l) (preserved l).
Proof.
  intros Hok Hpre. pose proof (lo_joined _ Hok) as Hj. destruct o; simpl in *.
  - destruct Hpre as (Hfit & Hreal & Hrange & Hsafe). apply returns_fst.
    eapply returns_mono; [by apply (maybe_append_agrees l idx t committed es)|].
    intros [l' r] (Hok' & Hf & Ha & Hc & Hcom & Hr). split_and!; [done..|lia|intros i ?; apply Hcom; lia].
  - by apply returns_fst, append_preserved.
  - rewrite commit_to_spec by done. apply returns_Done, set_committed_ok; [done|].
    pose proof (lo_committed _ Hok). lia.
  - apply returns_fst. eapply returns_mono; [by apply maybe_commit_preserved|]. by intros [l' b] [? _].
  - unfold applied_to. destruct (N.eqb_spec i 0); [by apply returns_Done, preserved_refl|].
    rewrite (proj2 (N.ltb_ge _ _)), (proj2 (N.ltb_ge _ _)) by lia. apply returns_Done.
    destruct Hok as [[] Hc Hp Ha Hs1 Hs2]. apply preserved_same; try done; simpl; [|lia].
    constructor; try done. simpl. lia.
  - apply returns_fst. by apply maybe_persist_preserved.
  - apply returns_fst. unfold maybe_persist_snap. destruct Hpre as [H1' H2'].
    destruct (N.ltb_spec (l_persisted l) i); [|by apply returns_Done, preserved_refl].
    rewrite (proj2 (N.ltb_ge _ _)), (proj2 (N.leb_gt _ _)) by lia.
    apply returns_Done. by apply set_persisted_ok.
  - eapply returns_mono; [by apply restore_preserved|]. by intros l' [? _].
  - apply returns_Done. by apply write_store_preserved.
  - by apply stable_entries_preserved.
  - by apply stable_snap_preserved.
Qed.
End inv.

(** C22: whatever sequence of operations a node performs on its log (appends from
    the leader, its own proposals, commits, persisting, applying, snapshots), the
    log stays consistent, none of the internal checks panics, the commit and
    applied indexes never move back, and a committed entry that is still in the
    log stays the same entry. *)
Theorem log_step_invariant {S} `{StorageLaws S} `{PbMessage} (o : log_op) (l : RaftLog S) :
  log_ok l → log_pre o l →
  returns (log_step o l) (λ l',
    log_ok l' ∧ l_committed l ≤ l_committed l' ∧ l_applied l ≤ l_applied l' ∧
    ∀ i, first l' ≤ i ≤ l_committed l → entry_at l' i = entry_at l i ∧ log_term l' i = log_term l i).
Proof. apply log_step_preserved. Qed.

(** a leader's attempt to commit succeeds exactly for a new index whose entry
    is of the given (current) term, and then commits that index. *)
Theorem maybe_commit_spec {S} `{StorageLaws S} `{PbMessage} (l : RaftLog S) i t :
  log_ok l → t ≠ 0 →
  returns (maybe_commit i t l) (λ '(l', committed),
    log_ok l' ∧ committed = bool_decide (l_committed l < i ∧ log_matches l i t) ∧
    l' = set_l_committed (if committed then i else l_committed l) l).
Proof.
  intros Hok Ht. eapply returns_mono; [by apply maybe_commit_preserved|].
  intros [l' b] ((Hok' & _) & Hb & Hc). done.
Qed.
