(* ===== verification/RaftLogWitness.v ===== *)
(** * The log theorems at work

    The theorems of [RaftLogSpec], [RaftLogReads] and [RaftLogInv] applied to a log
    over the in-memory storage: a snapshot up to position 3, entries 4 and 5
    persisted, entry 6 unstable, position 4 committed. *)
From S2P Require Import Prelude Errors Proto Util Storage MemStorage Unstable Config.
From S2P Require Import RaftLog RaftLogSpec RaftLogReads RaftLogInv.
#[local] Open Scope N_scope.

Definition entry (t i : u64) : Entry := mkEntry EntryNormal t i [] [] false.

Definition example_log : RaftLog MemStorageCore :=
  mkRaftLog example_core (mkUnstable None [entry 2 6] 12 6) 4 5 4 0.

Section witnesses.
#[local] Instance PB : PbMessage := {| compute_size e := 4 + len (e_data e) |}.

Lemma one_contiguous t i : contiguous i [entry t i].
Proof. intros [|k] e Hk; simplify_eq/=; lia. Defined.

Lemma example_unstable_ok : unstable_ok (l_unstable example_log).
Proof. constructor; [apply (one_contiguous 2 6)|done..]. Defined.

Lemma example_log_ok : log_ok example_log.
Proof.
  constructor; try done. constructor; [apply example_core_ok|apply example_unstable_ok|done|done].
Defined.

Lemma example_fits : fits example_log 6 [entry 3 6].
Proof. constructor; [apply one_contiguous|done..]. Defined.

(** Entry 6 of term 2 is replaced by the leader's entry 6 of term 3. *)
Lemma maybe_append_safe_witness :
  returns (maybe_append 5 2 6 [entry 3 6] example_log) (λ '(l', r),
    log_ok l' ∧ r = Some (6, 6) ∧ l_committed l' = 6 ∧ entry_at l' 6 = Some (entry 3 6) ∧
    entry_at l' 5 = entry_at example_log 5).
Proof.
  eapply returns_mono.
  - apply (maybe_append_safe example_log 5 2 6 [entry 3 6]).
    + apply example_log_ok.
    + apply example_fits.
    + by repeat constructor.
    + done.
    + intros e ->%list_elem_of_singleton. done.
  - intros [l' r] (Hok & _ & _ & _ & _ & Hr). simpl in Hr.
    destruct Hr as (-> & -> & Hk & _ & _ & _ & He). split_and!; [done..| |by apply Hk].
    apply (He (entry 3 6)); [by left|done].
Defined.

(** A slice across the storage and the unstable part. *)
Lemma slice_spec_witness :
  (snd <$> slice 5 7 None GenReady example_log) = Done (Ok [entry 2 5; entry 2 6]) ∧
  returns (slice 5 7 None GenReady example_log) (λ '(l', r),
    same_log example_log l' ∧
    match r with
    | Ok es => limited None (range (first example_log) (ents example_log) 5 7) es
    | Err e => e = Store LogTemporarilyUnavailable ∧ can_async GenReady = true
    end).
Proof. split; [done|]. apply (slice_spec example_log 5 7 None GenReady example_log_ok). Defined.

(** Pages of one entry each. *)
Lemma scan_spec_witness :
  let v (es : list Entry) (a : list u64) := (a ++ map e_index es, true) in
  ('(_, a, _) ← scan 4 7 1 GenReady v [] example_log; Done a) = Done [4; 5; 6] ∧
  returns (scan 4 7 1 GenReady v [] example_log) (λ '(l', a', r),
    same_log example_log l' ∧ ∃ pages c, (a', c) = run_pages v pages [] ∧ ([] ∉ pages) ∧
      (concat pages) `prefix_of` (range (first example_log) (ents example_log) 4 7) ∧
      match r with
      | Ok _ => c = true → concat pages = range (first example_log) (ents example_log) 4 7
      | Err e => c = true ∧ e = Store LogTemporarilyUnavailable ∧ can_async GenReady = true
      end).
Proof.
  intros v. split; [by vm_compute|].
  apply (scan_spec example_log 4 7 1 GenReady v []); [apply example_log_ok|done..].
Defined.

Lemma next_entries_spec_witness :
  let l := set_l_committed 6 example_log in
  (snd <$> next_entries None l) = Done (Some [entry 2 5]) ∧
  has_next_entries l = Done true ∧
  returns (next_entries None l) (λ '(l', r),
    same_log l l' ∧
    match r with
    | Some es => 5 < 6 ∧ limited None (range (first l) (ents l) 5 6) es ∧ es ≠ []
    | None => 6 ≤ 5
    end).
Proof.
  intros l. split; [by vm_compute|].
  assert (log_ok l) as Hok by (apply (set_committed_ok example_log 6); [apply example_log_ok|done]).
  exact (next_entries_spec l None Hok ltac:(done)).
Defined.

Lemma find_conflict_by_term_spec_witness :
  find_conflict_by_term 6 1 example_log = Done (4, Some 1) ∧
  returns (find_conflict_by_term 6 1 example_log) (λ '(c, r),
    if bool_decide (log_end example_log ≤ 6) then c = 6 ∧ r = None
    else c ≤ 6 ∧ (∀ j, c < j ≤ 6 → ∃ t', log_term example_log j = Ok t' ∧ 1 < t') ∧
      match r with
      | Some t' => log_term example_log c = Ok t' ∧ t' ≤ 1
      | None => log_term example_log c = Err (Store Compacted)
      end).
Proof.
  split; [by vm_compute|]. apply (find_conflict_by_term_spec example_log 6 1).
  - apply example_log_ok.
  - by left.
Defined.

Lemma is_up_to_date_spec_witness :
  is_up_to_date 5 2 example_log = Done (bool_decide (2 < 2 ∨ 2 = 2 ∧ log_end example_log - 1 ≤ 5)).
Proof. apply is_up_to_date_spec; [apply example_log_ok|done]. Defined.

Lemma log_step_invariant_witness :
  is_Some (entry_at example_log (l_committed example_log)) ∧ first example_log ≤ l_committed example_log ∧
  returns (log_step (MaybeAppend 5 2 6 [entry 3 6]) example_log) (λ l',
    log_ok l' ∧ first l' = first example_log ∧
    entry_at l' (l_committed example_log) = entry_at example_log (l_committed example_log)).
Proof.
  assert (log_pre (MaybeAppend 5 2 6 [entry 3 6]) example_log) as Hpre.
  { split; [apply example_fits|]. split; [by repeat constructor|]. split; [done|].
    intros e ->%list_elem_of_singleton. done. }
  assert (first <$> log_step (MaybeAppend 5 2 6 [entry 3 6]) example_log = Done (first example_log)) as Hf by by vm_compute.
  split_and!; [by eexists; vm_compute|done|].
  destruct (log_step_invariant (MaybeAppend 5 2 6 [entry 3 6]) example_log example_log_ok Hpre)
    as (l' & E & Hok & _ & _ & He).
  exists l'. rewrite E in Hf. injection Hf as Hf. split_and!; try done. apply He. rewrite Hf. done.
Defined.

Lemma maybe_commit_spec_witness :
  returns (maybe_commit 6 2 example_log) (λ '(l', committed),
    log_ok l' ∧ committed = bool_decide (l_committed example_log < 6 ∧ log_matches example_log 6 2) ∧
    l' = set_l_committed (if committed then 6 else l_committed example_log) example_log).
Proof. apply (maybe_commit_spec example_log 6 2); [apply example_log_ok|done]. Defined.
End witnesses.
