(* ===== verification/LogTotal.v ===== *)
(** * The log never runs out of fuel

    On a log whose parts fit together ([joined]) every operation ends: it returns
    or panics. Reading it leaves the sequence of entries alone, and extending it
    at its end keeps it [joined]; unlike the lemmas of [RaftLogSpec] these hold
    without a bound on the sizes, where the code may panic. *)
From S2P Require Import Prelude Errors Proto Util Storage Unstable Config RaftLog RaftLogSpec RaftLogReads.
#[local] Open Scope N_scope.

Section total.
Context {S : Type} `{StorageLaws S} `{PbMessage}.
Implicit Types l : RaftLog S.

Lemma same_log_joined l l' : same_log l l' → joined l → joined l'.
Proof.
  intros [Hst Hf He _ Hu _ _ _ _] []. by constructor; rewrite ?Hu, ?Hf, ?He.
Qed.
Lemma joined_refl l : joined l → same_log l l.
Proof. intros Hj. apply same_log_refl, Hj. Qed.

(** The outcome of a read: it ends, and the log is the same if it returns. *)
Definition reads {A} l (m : outcome (RaftLog S * A)) : Prop :=
  match m with Done (l', _) => same_log l l' | Panic _ => True | NoFuel => False end.

Lemma reads_ret {A} l (a : A) : joined l → reads l (Done (l, a)).
Proof. apply joined_refl. Qed.
Lemma reads_bind {A B} l (m : outcome A) (f : A → outcome (RaftLog S * B)) :
  fueled m → (∀ a, m = Done a → reads l (f a)) → reads l (m ≫= f).
Proof. intros Hm Hf. destruct m; [by apply Hf|done|done]. Qed.
Lemma reads_bind_log {A B} l (m : outcome (RaftLog S * A)) (f : RaftLog S * A → outcome (RaftLog S * B)) :
  joined l → reads l m → (∀ l' a, m = Done (l', a) → joined l' → reads l' (f (l', a))) → reads l (m ≫= f).
Proof.
  intros Hj Hm Hf. destruct m as [[l' a]| |]; simpl in *; [|done|done].
  specialize (Hf l' a eq_refl (same_log_joined _ _ Hm Hj)).
  destruct (f (l', a)) as [[l2 b]| |]; [|done|done]. by apply (same_log_trans l l').
Qed.
Lemma reads_fueled {A} l (m : outcome (RaftLog S * A)) : reads l m → fueled m.
Proof. unfold reads, fueled. by destruct m. Qed.

Lemma first_index_fueled l : joined l → fueled (first_index l).
Proof. intros. by rewrite first_index_spec. Qed.
Lemma last_index_fueled l : joined l → fueled (last_index l).
Proof. intros. by rewrite last_index_spec. Qed.
Lemma term_fueled i l : joined l → fueled (term i l).
Proof. intros. by rewrite term_spec. Qed.
Hint Resolve first_index_fueled last_index_fueled term_fueled : fueled.
Lemma match_term_fueled i t l : joined l → fueled (match_term i t l).
Proof. intros. unfold match_term. fueled. Qed.
Hint Resolve match_term_fueled : fueled.
Lemma last_term_fueled l : joined l → fueled (last_term l).
Proof. intros. unfold last_term. fueled. Qed.
Lemma is_up_to_date_fueled i t l : joined l → fueled (is_up_to_date i t l).
Proof. intros. pose proof last_term_fueled. unfold is_up_to_date. fueled. Qed.
Lemma commit_info_fueled l : joined l → fueled (commit_info l).
Proof. intros. unfold commit_info. fueled. Qed.
Lemma find_conflict_fueled es l : joined l → fueled (find_conflict es l).
Proof. intros Hj. induction es as [|e es IH]; simpl; fueled. Qed.
Lemma commit_to_fueled i l : joined l → fueled (commit_to i l).
Proof. intros. unfold commit_to. fueled. Qed.
Hint Resolve last_term_fueled is_up_to_date_fueled commit_info_fueled find_conflict_fueled commit_to_fueled : fueled.

(** The search by term moves down one position at a time and stops below zero. *)
Lemma find_conflict_by_term_fueled i t l : joined l → fueled (find_conflict_by_term i t l).
Proof.
  intros Hj. unfold find_conflict_by_term. fueled.
  assert (∀ fuel i, (N.to_nat i < fuel)%nat → fueled (conflict_loop fuel i t l)) as Hl; [|apply Hl; lia].
  clear - Hj. induction fuel as [|fuel IH]; intros i Hi; [lia|]. simpl. fueled.
  inv_done. apply IH. lia.
Qed.
Hint Resolve find_conflict_by_term_fueled : fueled.

Lemma limit_size_fueled es max : fueled (limit_size es max).
Proof.
  assert (∀ m es s, fueled (limit_count m s es)) as Hc.
  { intros m es'. induction es' as [|e es' IH]; intros s; simpl; fueled. }
  unfold limit_size. fueled.
Qed.
Hint Resolve limit_size_fueled : fueled.
Lemma unstable_slice_fueled lo hi u : fueled (Unstable.slice lo hi u).
Proof. unfold Unstable.slice, Unstable.must_check_outofbounds. fueled. Qed.
Hint Resolve unstable_slice_fueled : fueled.

Lemma check_in_range l lo hi :
  joined l → must_check_outofbounds lo hi l = Done None → first l ≤ lo ≤ hi ∧ hi ≤ log_end l.
Proof. intros Hj. rewrite must_check_outofbounds_spec by done. intros E. repeat case_bool; simplify_eq; lia. Qed.
Lemma check_fueled l lo hi : joined l → fueled (must_check_outofbounds lo hi l).
Proof. intros Hj. rewrite must_check_outofbounds_spec by done. fueled. Qed.
Hint Resolve check_fueled : fueled.

Lemma slice_reads lo hi max ctx l : joined l → reads l (slice lo hi max ctx l).
Proof.
  intros Hj. unfold slice. apply reads_bind; [by apply check_fueled|]. intros [err|] Hc; [by apply reads_ret|].
  apply check_in_range in Hc as [[Hf Hle] Hhi]; [|done].
  destruct (N.eqb_spec lo hi); [by apply reads_ret|].
  set (off := u_offset (l_unstable l)).
  apply reads_bind_log; [done| |].
  - destruct (N.ltb_spec lo off) as [Ho|Ho]; [|by apply reads_ret].
    assert (u_snapshot (l_unstable l) = None) as Hsn.
    { unfold first in Hf. destruct (u_snapshot (l_unstable l)); [fold off in Hf; lia|done]. }
    assert (first l = st_first (l_store l)) as Hfs by (unfold first; by rewrite Hsn).
    destruct (jo_gap _ Hj Hsn) as [Hg1 Hg2]. fold off in Hg1, Hg2.
    destruct (st_entries_range (l_store l) lo (N.min hi off) max ctx)
      as ([st r] & -> & Hst & Hst1 & Hst2 & Hst3 & Hr); [apply Hj|lia..|].
    assert (same_log l (set_l_store st l)) as Hsame by (by constructor).
    cbn [mbind outcome_bind]. destruct r as [es|e]; [|destruct Hr as [-> _]; done].
    destruct (N.min hi off -! lo) eqn:Hd; [|done|by apply fueled_sub64 in Hd]. simpl. by case_match.
  - intros l' part _ Hj'. destruct part as [r|es]; [by apply reads_ret|].
    apply reads_bind; [fueled|]. intros es' _. apply reads_bind; [fueled|]. intros es'' _. by apply reads_ret.
Qed.

(** What a read returns are entries of the range asked for. *)
Lemma limit_size_prefix es max kept : limit_size es max = Done kept → kept `prefix_of` es.
Proof.
  unfold limit_size. destruct (_ <=? 1); [by intros [= ->]|]. destruct max as [max|]; [|by intros [= ->]].
  destruct (max =? NO_LIMIT); [by intros [= ->]|]. intros (n & _ & [= <-])%bind_Done.
  exists (drop n es). by rewrite take_drop.
Qed.
Lemma slice_prefix lo hi max ctx l l' es :
  joined l → slice lo hi max ctx l = Done (l', Ok es) → es `prefix_of` range (first l) (ents l) lo hi.
Proof.
  intros Hj E. unfold slice in E. apply bind_Done in E as (err & Hc & E).
  destruct err as [err|]; [by simplify_eq|]. apply check_in_range in Hc as [[Hf Hle] Hhi]; [|done].
  destruct (N.eqb_spec lo hi); [simplify_eq; apply prefix_nil|].
  set (off := u_offset (l_unstable l)) in *.
  apply bind_Done in E as ([l1 part] & Hp & E).
  assert (l_unstable l1 = l_unstable l ∧ match part with
    | inl (Ok es) => es `prefix_of` range (first l) (ents l) lo hi
    | inl (Err _) => True
    | inr es => es = range (first l) (stable_part l) lo (N.min hi off)
    end) as [Hu Hpart].
  { destruct (N.ltb_spec lo off) as [Ho|Ho]; [|simplify_eq; split; [done|]; symmetry; apply range_nil; lia].
    assert (u_snapshot (l_unstable l) = None) as Hsn.
    { unfold first in Hf. destruct (u_snapshot (l_unstable l)); [fold off in Hf; lia|done]. }
    assert (first l = st_first (l_store l)) as Hfs by (unfold first; by rewrite Hsn).
    destruct (jo_gap _ Hj Hsn) as [Hg1 Hg2]. fold off in Hg1, Hg2.
    destruct (st_entries_range (l_store l) lo (N.min hi off) max ctx)
      as ([st r] & Hst & _ & _ & _ & _ & Hr); [apply Hj|lia..|].
    rewrite Hst in Hp. cbn [mbind outcome_bind] in Hp.
    assert (len (range (first l) (stable_part l) lo (N.min hi off)) = N.min hi off - lo) as Hlr.
    { apply len_range; [lia|lia|]. rewrite (stable_part_len l Hj). lia. }
    destruct r as [es1|e]; [|destruct Hr as [-> _]; by simplify_eq].
    rewrite <-(range_stable l) in Hr by (done || lia).
    rewrite sub64_ok in Hp by lia. cbn [mbind outcome_bind] in Hp.
    destruct (N.ltb_spec (len es1) (N.min hi off - lo)); simplify_eq; (split; [done|]).
    - destruct Hr as [Hpre _]. rewrite (range_split l lo hi) by (done || lia). by apply prefix_app_r.
    - apply (limited_full max); [done|]. lia. }
  destruct part as [r|es1]; [by simplify_eq|]. simpl in Hpart. subst es1. rewrite Hu in E.
  apply bind_Done in E as (all & Hall & E). apply bind_Done in E as (kept & Hk & E). simplify_eq.
  fold off in Hall. apply limit_size_prefix in Hk.
  rewrite (slice_unstable l lo hi) in Hall by (done || lia). by simplify_eq.
Qed.

(** Inside the log, a slice only fails because the storage is not ready. *)
Lemma slice_error lo hi max ctx l l' e :
  joined l → slice lo hi max ctx l = Done (l', Err e) → lo < first l ∨ e = Store LogTemporarilyUnavailable.
Proof.
  intros Hj E. unfold slice in E. apply bind_Done in E as (err & Hc & E).
  rewrite must_check_outofbounds_spec in Hc by done. destruct (N.ltb_spec hi lo); [done|]. destruct (N.ltb_spec lo (first l)); [by left|right].
  destruct (N.ltb_spec (log_end l) hi); [done|]. injection Hc as <-. destruct (N.eqb_spec lo hi); [done|].
  apply bind_Done in E as ([l1 part] & Hp & E). destruct part as [r|es].
  - injection E as <- ->. destruct (N.ltb_spec lo (u_offset (l_unstable l))) as [Ho|]; [|done].
    assert (u_snapshot (l_unstable l) = None) as Hsn.
    { unfold first in *. destruct (u_snapshot (l_unstable l)); [lia|done]. }
    assert (first l = st_first (l_store l)) as Hfs by (unfold first; by rewrite Hsn).
    destruct (jo_gap _ Hj Hsn) as [Hg1 Hg2].
    destruct (st_entries_range (l_store l) lo (N.min hi (u_offset (l_unstable l))) max ctx)
      as ([st r] & Hst & _ & _ & _ & _ & Hr); [apply Hj|lia..|].
    rewrite Hst in Hp. cbn [mbind outcome_bind] in Hp. destruct r as [es1|e1]; [|destruct Hr as [-> _]; by simplify_eq].
    apply bind_Done in Hp as (d & _ & Hp). by case_match.
  - by repeat (apply bind_Done in E as (? & _ & E)).
Qed.

Lemma range_mono f (es : list Entry) lo hi hi' : hi ≤ hi' → range f es lo hi `prefix_of` range f es lo hi'.
Proof.
  intros Hle. unfold range. exists (drop (N.to_nat (hi - lo)) (take (N.to_nat (hi' - lo)) (drop (N.to_nat (lo - f)) es))).
  rewrite <-(take_drop (N.to_nat (hi - lo)) (take (N.to_nat (hi' - lo)) _)) at 1. f_equal.
  rewrite take_take. f_equal. lia.
Qed.
Lemma range_contiguous l lo hi : joined l → first l ≤ lo → contiguous lo (range (first l) (ents l) lo hi).
Proof.
  intros Hj Hlo. unfold range. apply contiguous_take.
  pose proof (contiguous_drop _ _ (N.to_nat (lo - first l)) (ents_contiguous l Hj)) as Hc.
  by replace (first l + N.of_nat (N.to_nat (lo - first l))) with lo in Hc by lia.
Qed.
(** What [next_entries_since] hands out: a run of committed entries of the log,
    from the position after [since] on. *)
Lemma next_entries_since_range since max l l' r :
  joined l → next_entries_since since max l = Done (l', r) →
  let lo := N.max (since + 1) (first l) in
  since < u64_max ∧ default [] r `prefix_of` range (first l) (ents l) lo (l_committed l + 1).
Proof.
  intros Hj E lo. unfold next_entries_since, applied_index_upper_bound in E.
  rewrite first_index_spec in E by done. inv_done. split; [lia|].
  destruct (N.ltb_spec (N.max (since + 1) (first l))
             (N.min (l_committed l) (l_persisted l + l_max_apply_unpersisted_log_limit l) + 1)) as [Hlt|Hge];
    [|injection E as <- <-; apply prefix_nil].
  apply bind_Done in E as ([l1 [es|e]] & Es & E); [|done]. injection E as <- <-. simpl.
  apply slice_prefix in Es; [|done]. etrans; [exact Es|].
  apply range_mono. lia.
Qed.

Lemma entries_last i max ctx l l' es e :
  joined l → entries i max ctx l = Done (l', Ok es) → last es = Some e → i ≤ e_index e < log_end l.
Proof.
  intros Hj E He. unfold entries in E. rewrite last_index_spec in E by done. cbn [mbind outcome_bind] in E.
  destruct (N.ltb_spec (log_end l - 1) i); [by simplify_eq|].
  pose proof (first_pos l Hj). pose proof (first_le_end l). apply bind_Done in E as (hi & [_ ->]%add64_Done & E).
  apply slice_prefix in E as Hp; [|done].
  assert (first l ≤ i) as Hf.
  { unfold slice in E. apply bind_Done in E as (err & Hc & E). destruct err as [err|]; [by simplify_eq|].
    apply check_in_range in Hc; [lia|done]. }
  replace (log_end l - 1 + 1) with (log_end l) in Hp by lia.
  rewrite last_lookup in He. apply lookup_lt_Some in He as Hlt.
  destruct Hp as [k Hk]. pose proof (lookup_app_l_Some es k _ _ He) as Hlk. rewrite <-Hk in Hlk.
  unfold range in Hlk. apply lookup_take_Some in Hlk as [Hlk Hb]. rewrite lookup_drop in Hlk.
  rewrite (ents_contiguous l Hj _ _ Hlk). lia.
Qed.

Lemma entries_reads i max ctx l : joined l → reads l (entries i max ctx l).
Proof.
  intros Hj. unfold entries. apply reads_bind; [fueled|]. intros last _.
  destruct (_ <? _); [by apply reads_ret|]. apply reads_bind; [fueled|]. intros e _. by apply slice_reads.
Qed.
Lemma snapshot_reads ri to l : joined l → reads l (snapshot ri to l).
Proof.
  intros Hj. unfold snapshot. set (from_store := _ ≫= _).
  assert (reads l from_store) as Hs; [|destruct (u_snapshot _); [case_match|]; auto; by apply reads_ret].
  unfold from_store. pose proof (st_snapshot (l_store l) ri to (jo_store _ Hj)) as Hs.
  destruct (Storage.snapshot _ _ _) as [[st r]| |]; [|done|done]. destruct Hs as (? & ? & ? & ?). by constructor.
Qed.

(** Every page moves the scan forward. *)
Lemma scan_reads {A} lo hi page ctx (v : list Entry → A → A * bool) a l :
  joined l → match scan lo hi page ctx v a l with Done (l', _, _) => same_log l l' | Panic _ => True | NoFuel => False end.
Proof.
  unfold scan. assert (∀ fuel lo a l, (N.to_nat (hi - lo) < fuel)%nat → joined l →
    match scan_loop fuel lo hi page ctx v a l with Done (l', _, _) => same_log l l' | Panic _ => True | NoFuel => False end) as Hl.
  2: { apply Hl. lia. }
  clear. induction fuel as [|fuel IH]; intros lo a l Hf Hj; [lia|]. simpl.
  destruct (N.ltb_spec lo hi); [|by apply joined_refl].
  pose proof (slice_reads lo hi (Some page) ctx l Hj) as Hs.
  destruct (slice _ _ _ _ _) as [[l1 r]| |]; simpl in *; [|done|done].
  destruct r as [es|]; [|done]. case_bool_decide as Hes; [done|]. apply len_pos in Hes.
  destruct (lo +! len es) as [lo'| |] eqn:Hlo; simpl; [|done|by apply fueled_add64 in Hlo].
  apply add64_Done in Hlo as [_ ->]. destruct (v es a) as [a1 [|]]; simpl; [|done].
  specialize (IH (lo + len es) a1 l1 ltac:(lia) (same_log_joined _ _ Hs Hj)).
  destruct (scan_loop _ _ _ _ _ _ _ _) as [[[l2 a2] r2]| |]; [|done|done]. by apply (same_log_trans l l1).
Qed.

(** ** Writing *)

(** A step on the log that ends, and keeps it fitting together when it returns. *)
Definition writes {A} (m : outcome (RaftLog S * A)) : Prop :=
  match m with Done (l', _) => joined l' | Panic _ => True | NoFuel => False end.

Lemma joined_same l l' : l_store l' = l_store l → l_unstable l' = l_unstable l → joined l → joined l'.
Proof. intros E1 E2 []. constructor; rewrite ?E1, ?E2; done. Qed.

Lemma maybe_commit_writes i t l : joined l → writes (maybe_commit i t l).
Proof.
  intros Hj. unfold maybe_commit. destruct (_ <? _); simpl; [|done].
  rewrite term_spec by done. simpl. destruct (is_ok_and _ _); simpl; [|done].
  unfold commit_to. destruct (_ <=? _); [done|]. rewrite last_index_spec by done. simpl.
  destruct (_ <? _); [done|]. by apply (joined_same l).
Qed.
Lemma maybe_persist_writes i t l : joined l → writes (maybe_persist i t l).
Proof.
  intros Hj. unfold maybe_persist. destruct (_ && _); simpl; [|done].
  destruct (st_term_total (l_store l) i) as [r ->]; [apply Hj|]. simpl. destruct (is_ok_and _ _); [|done].
  by apply (joined_same l).
Qed.
Lemma truncate_and_append_fueled es u : fueled (truncate_and_append es u).
Proof.
  assert (∀ es n, fueled (subtract_sizes n es)) as Hd
    by (intros es'; induction es' as [|e es' IH]; intros n; simpl; unfold entry_approximate_size; fueled).
  assert (∀ es n, fueled (sum_sizes n es)) as Hs
    by (intros es'; induction es' as [|e es' IH]; intros n; simpl; unfold entry_approximate_size; fueled).
  unfold truncate_and_append, truncate_to, Unstable.must_check_outofbounds. fueled.
Qed.

Lemma last_index_st_fueled l : st_ok (l_store l) → fueled (last_index l).
Proof.
  intros Hst. unfold last_index, maybe_last_index. apply fueled_bind; [fueled|]. intros [i|] _; [done|].
  by rewrite st_last_index.
Qed.
Lemma append_fueled es l : st_ok (l_store l) → fueled (append es l).
Proof.
  intros Hst. pose proof truncate_and_append_fueled. unfold append.
  assert (∀ u, fueled (last_index (set_l_unstable u l))) by (intros; by apply last_index_st_fueled).
  destruct es; fueled; by apply last_index_st_fueled.
Qed.
Lemma append_store es l l' i : append es l = Done (l', i) → l_store l' = l_store l.
Proof. unfold append. intros E. destruct es; inv_done; [done|]. destruct (_ <? _); by inv_done. Qed.

Lemma sum_sizes_Done es n m : sum_sizes n es = Done m → m = n + approximate_size es.
Proof.
  revert n. induction es as [|e es IH]; intros n E; simpl in E; [inv_done; simpl; lia|].
  unfold entry_approximate_size in E. inv_done. apply IH in E. simpl. lia.
Qed.

(** Entries that continue the log are added at its end. *)
Lemma append_end es l l' i :
  joined l → contiguous (log_end l) es → append es l = Done (l', i) →
  joined l' ∧ ents l' = ents l ++ es ∧ first l' = first l ∧ dummy l' = dummy l ∧
  l' = set_l_unstable (l_unstable l') l.
Proof.
  intros Hj Hc E. unfold append in E. destruct es as [|e0 es].
  { inv_done. rewrite app_nil_r. split_and!; try done. by destruct l'. }
  assert (e_index e0 = log_end l) as H0' by (rewrite (Hc 0%nat e0); [lia|done]).
  pose proof (log_end_unstable l Hj) as Hend. pose proof (jo_unstable _ Hj) as [Huc Hub Hup Hus Hsn].
  apply bind_Done in E as (after & _ & E). destruct (_ <? _); [done|].
  apply bind_Done in E as (u' & Hu & E). apply bind_Done in E as (last & Hlast & E). simplify_eq.
  unfold truncate_and_append in Hu. change (vindex (e0 :: es) 0) with (Done e0) in Hu. cbn [mbind outcome_bind] in Hu.
  unfold truncate_to in Hu. rewrite add64_ok in Hu by done. cbn [mbind outcome_bind] in Hu.
  rewrite H0', Hend, N.eqb_refl in Hu. cbn [mbind outcome_bind] in Hu.
  apply bind_Done in Hu as (added & Ha%sum_sizes_Done & Hu). apply bind_Done in Hu as (size & [_ ->]%add64_Done & Hu).
  assert (u' = mkUnstable (u_snapshot (l_unstable l)) (u_entries (l_unstable l) ++ e0 :: es)
    (u_entries_size (l_unstable l) + added) (u_offset (l_unstable l))) as -> by (by destruct (l_unstable l); simplify_eq).
  clear Hu. subst added. split_and!; try done.
  - assert (u_offset (l_unstable l) + len (u_entries (l_unstable l) ++ e0 :: es) ≤ u64_max) as Hb.
    { unfold last_index, maybe_last_index in Hlast. simpl in Hlast.
      destruct (N.eqb_spec (len (u_entries (l_unstable l) ++ e0 :: es)) 0) as [Hz|]; [|by inv_done].
      apply len_0_iff in Hz. by destruct (app_cons_not_nil _ _ _ (eq_sym Hz)). }
    constructor; simpl; [apply Hj| |apply Hj|].
    + constructor; simpl; try done; [|rewrite approximate_size_app, Hus; simpl; lia]. apply contiguous_app. by rewrite <-Hend.
    + intros _ Hnil. by destruct (app_cons_not_nil _ _ _ (eq_sym Hnil)).
  - unfold ents, stable_part. simpl. by rewrite app_assoc.
Qed.
Lemma append_end_writes es l : joined l → contiguous (log_end l) es → writes (append es l).
Proof.
  intros Hj Hc. pose proof (append_fueled es l (jo_store _ Hj)) as Hf. unfold writes.
  destruct (append es l) as [[l' i]| |] eqn:E; [|done..]. by eapply append_end.
Qed.

Lemma restore_writes snap l : joined l →
  match restore snap l with Done l' => joined l' | Panic _ => True | NoFuel => False end.
Proof.
  intros Hj. unfold restore. destruct (_ <=? _); simpl; [|done]. set (l1 := set_l_committed _ _).
  assert (l_store l1 = l_store l) as Hst by (unfold l1; by destruct (_ <? _)). clearbody l1.
  unfold Unstable.restore. destruct (sm_index (s_metadata snap) +! 1) eqn:Ei; simpl; [|done|by apply fueled_add64 in Ei].
  apply add64_Done in Ei as [Hb ->]. constructor; simpl; rewrite ?Hst; [apply Hj| |done..].
  constructor; simpl; [apply contiguous_nil|rewrite len_nil; lia|lia|done|by intros s [= <-]].
Qed.

(** Entries from the network may be anything; what is left is that the search
    and the append end, and that a refusal changes nothing. *)
Lemma maybe_append_fueled idx t c es l : joined l → fueled (maybe_append idx t c es l).
Proof.
  intros Hj. unfold maybe_append. apply fueled_bind; [fueled|]. intros [|] _; [|done].
  apply fueled_bind; [fueled|]. intros ci _. apply fueled_bind.
  - destruct (ci =? 0); [done|]. destruct (_ <=? _); [done|]. fueled.
    apply append_fueled, Hj.
  - intros l1 Hl1. assert (l_store l1 = l_store l) as Hst.
    { destruct (ci =? 0); [by inv_done|]. destruct (_ <=? _); [done|]. revert Hl1. rewrite !bind_Done.
      intros (n & _ & (k & _ & (suf & _ & ([l2 i] & Ha & (p & _ & Hl)%bind_Done)%bind_Done)%bind_Done)%bind_Done).
      apply append_store in Ha. injection Hl as <-. by destruct (p <? _). }
    apply fueled_bind; [fueled|]. intros n _. unfold commit_to.
    assert (fueled (last_index l1)) by (apply last_index_st_fueled; rewrite Hst; apply Hj). fueled.
Qed.
Lemma maybe_append_refused idx t c es l l' : maybe_append idx t c es l = Done (l', None) → l' = l.
Proof. unfold maybe_append. intros E. inv_done. destruct x; by inv_done. Qed.
End total.

#[export] Hint Resolve first_index_fueled last_index_fueled term_fueled match_term_fueled last_term_fueled
  is_up_to_date_fueled commit_info_fueled find_conflict_fueled commit_to_fueled find_conflict_by_term_fueled : fueled.
