(* ===== verification/LogFinal.v ===== *)
(** * Committed entries are final

    Every operation on a log, whenever it returns, keeps the log well-formed, moves
    the commit and applied indexes forward only, and leaves every committed entry
    that is still in the log as it is. Unlike in [RaftLogInv] nothing is assumed
    about sizes, and a message may name any position: the checks of the code
    itself protect what is committed. *)
From S2P Require Import Prelude Errors Proto Util Storage Unstable ReadOnly Config RaftLog RaftLogSpec RaftLogReads LogTotal.
#[local] Open Scope N_scope.

(** ** The unstable part after an append that returned *)
Lemma subtract_sizes_Done es n m : subtract_sizes n es = Done m → n = m + approximate_size es.
Proof.
  revert n. induction es as [|e es IH]; intros n E; simpl in E; [inv_done; simpl; lia|].
  unfold entry_approximate_size in E. inv_done. apply IH in E. simpl. lia.
Qed.

Lemma truncate_to_Done u u' after :
  unstable_ok u → truncate_to after u = Done u' →
  after ≤ u_offset u + len (u_entries u) ∧ u_snapshot u' = u_snapshot u ∧ u_offset u' = N.min (u_offset u) after ∧
  u_entries u' = take (N.to_nat (after - u_offset u)) (u_entries u) ∧ u_entries_size u' = approximate_size (u_entries u').
Proof.
  intros [Hc Hb Hp Hs Hsn] E. unfold truncate_to in E. rewrite add64_ok in E by done. cbn [mbind outcome_bind] in E.
  destruct (N.eqb_spec after (u_offset u + len (u_entries u))) as [->|Hne].
  { injection E as <-. rewrite take_ge by (unfold len; lia). split_and!; [lia|done|lia|done|done]. }
  destruct (N.leb_spec after (u_offset u)) as [Hle|Hgt].
  { injection E as <-. simpl. replace (N.to_nat (after - u_offset u)) with 0%nat by lia. split_and!; [lia|done|lia|done|done]. }
  unfold Unstable.must_check_outofbounds in E. inv_done. repeat case_match; inv_done.
  repeat match goal with E : (_ <? _) = false |- _ => apply N.ltb_ge in E | E : _ || _ = false |- _ => apply orb_false_iff in E as [? ?] end.
  match goal with E : subtract_sizes _ _ = Done _ |- _ => apply subtract_sizes_Done in E; rename E into Hd end.
  simpl. unfold vtruncate. split_and!; [lia|done|lia|done|].
  rewrite Hs in Hd. rewrite <-(take_drop (N.to_nat (after - u_offset u)) (u_entries u)) in Hd at 1.
  rewrite approximate_size_app in Hd. lia.
Qed.

Lemma truncate_and_append_Done u u' e0 es :
  unstable_ok u → contiguous (e_index e0) (e0 :: es) → 1 ≤ e_index e0 →
  (u_snapshot u ≠ None → u_offset u ≤ e_index e0) →
  truncate_and_append (e0 :: es) u = Done u' →
  e_index e0 ≤ u_offset u + len (u_entries u) ∧ u_snapshot u' = u_snapshot u ∧
  u_offset u' = N.min (u_offset u) (e_index e0) ∧
  u_entries u' = take (N.to_nat (e_index e0 - u_offset u)) (u_entries u) ++ e0 :: es ∧
  (u_offset u' + len (u_entries u') ≤ u64_max → unstable_ok u').
Proof.
  intros Hok Hce Hpos Hsnap E. pose proof Hok as [Hc Hb Hp Hs Hsn]. unfold truncate_and_append in E.
  change (vindex (e0 :: es) 0) with (Done e0) in E. cbn [mbind outcome_bind] in E.
  apply bind_Done in E as (u1 & (Hle & H1 & H2 & H3 & H4)%truncate_to_Done & E); [|done].
  apply bind_Done in E as (added & Ha%sum_sizes_Done & E). inv_done. simpl. rewrite H1, H2, H3.
  split_and!; try done. intros Hbound. set (kept := take _ _) in *.
  assert (len kept = e_index e0 - u_offset u) as Hk by (unfold kept; autorewrite with len; lia).
  constructor; simpl; rewrite ?H1, ?H2, ?H3, ?approximate_size_app; [|done|lia|rewrite H4, H3; simpl in *; lia|].
  2: { intros s Hss. rewrite <-(Hsn s Hss), N.min_l; [done|]. apply Hsnap. congruence. }
  - apply contiguous_app. split.
    + destruct (N.le_gt_cases (u_offset u) (e_index e0)).
      * rewrite N.min_l by done. by apply contiguous_take.
      * rewrite (proj1 (len_0_iff kept)) by lia. apply contiguous_nil.
    + by replace (N.min (u_offset u) (e_index e0) + len kept) with (e_index e0) by lia.
Qed.

Section final.
Context {S : Type} `{StorageLaws S} `{PbMessage}.
Implicit Types l : RaftLog S.

(** [log_ok] without its bounds on sizes. *)
Record log_wf l : Prop := {
  lw_joined : joined l;
  lw_committed : first l - 1 ≤ l_committed l < log_end l;
  lw_persisted : l_persisted l < u_offset (l_unstable l);
  lw_applied : l_applied l ≤ l_committed l }.

(** What every operation guarantees. *)
Record kept l l' : Prop := {
  ke_first : first l ≤ first l';
  ke_committed : l_committed l ≤ l_committed l';
  ke_applied : l_applied l ≤ l_applied l';
  ke_entries i : first l' ≤ i ≤ l_committed l → entry_at l' i = entry_at l i }.
Definition final l l' : Prop := log_wf l → log_wf l' ∧ kept l l'.

#[global] Instance kept_preorder : PreOrder kept.
Proof.
  split; [by intros l|]. intros l1 l2 l3 [F1 C1 A1 E1] [F2 C2 A2 E2]. constructor; [lia..|].
  intros i Hi. rewrite E2, E1 by lia. done.
Qed.
#[global] Instance final_preorder : PreOrder final.
Proof.
  split; [by intros l|]. intros l1 l2 l3 H12 H23 Hl. destruct (H12 Hl) as [Hl2 K12].
  destruct (H23 Hl2) as [Hl3 K23]. split; [done|by etrans].
Qed.

Lemma wf_ok l : log_ok l → log_wf l.
Proof. by intros []. Qed.

Lemma unchanged l l' : l' = l → log_wf l → log_wf l' ∧ kept l l'.
Proof. by intros -> ?. Qed.

(** The same entries, with the indexes moved forward. *)
Lemma final_same l l' :
  l_unstable l' = l_unstable l → joined l' → st_first (l_store l') = st_first (l_store l) →
  st_entries (l_store l') = st_entries (l_store l) →
  log_wf l → l_committed l ≤ l_committed l' < log_end l → l_persisted l' < u_offset (l_unstable l) →
  l_applied l ≤ l_applied l' ≤ l_committed l' → log_wf l' ∧ kept l l'.
Proof.
  intros Eu Hj Ef Ee [_ Hc Hp Ha] Hcc Hpp Haa.
  assert (first l' = first l ∧ ents l' = ents l) as [F E].
  { unfold ents, stable_part, first. by rewrite Eu, Ef, Ee. }
  split; constructor; unfold log_end, entry_at in *; rewrite ?F, ?E, ?Eu; done || lia.
Qed.

Lemma append_final e0 es l l' i :
  log_wf l → contiguous (e_index e0) (e0 :: es) → append (e0 :: es) l = Done (l', i) →
  l_committed l < e_index e0 ≤ log_end l ∧ joined l' ∧ first l' = first l ∧
  ents l' = take (N.to_nat (e_index e0 - first l)) (ents l) ++ e0 :: es ∧
  u_offset (l_unstable l') = N.min (u_offset (l_unstable l)) (e_index e0) ∧ l' = set_l_unstable (l_unstable l') l.
Proof.
  intros [Hj Hc Hp Ha] Hce E. pose proof (jo_unstable _ Hj) as Hu. pose proof (first_pos l Hj).
  unfold append in E. apply bind_Done in E as (after & [Hpos ->]%sub64_Done & E).
  destruct (N.ltb_spec (e_index e0 - 1) (l_committed l)) as [|Hge]; [done|].
  apply bind_Done in E as (u' & Hu' & E). apply bind_Done in E as (last & Hlast & E). simplify_eq.
  assert (u_snapshot (l_unstable l) ≠ None → u_offset (l_unstable l) ≤ e_index e0) as Hsn.
  { intros Hs. unfold first in Hc. destruct (u_snapshot (l_unstable l)); [lia|done]. }
  apply truncate_and_append_Done in Hu' as (Hle & Hs & Ho & He & Hok); [|done..].
  rewrite <-(log_end_unstable l Hj) in Hle.
  assert (u_entries u' ≠ []) as Hne by (rewrite He; apply not_eq_sym, app_cons_not_nil).
  assert (unstable_ok u') as Hu''.
  { apply Hok. unfold last_index, maybe_last_index in Hlast. simpl in Hlast.
    destruct (N.eqb_spec (len (u_entries u')) 0) as [Hz|]; [by apply len_0_iff in Hz|by inv_done]. }
  destruct (append_joined l u' (e_index e0) (e0 :: es)) as (Hj' & Hf & _ & Hents); try done; [lia|].
  split_and!; try done. lia.
Qed.

(** The log is replaced from a position above the commit index on. *)
Lemma final_cut l l' c es' :
  log_wf l → joined l' → first l' = first l → ents l' = take (N.to_nat (c - first l)) (ents l) ++ es' →
  l_committed l < c ≤ log_end l → l_committed l ≤ l_committed l' < log_end l' →
  l_persisted l' < u_offset (l_unstable l') → l_applied l' = l_applied l → log_wf l' ∧ kept l l'.
Proof.
  intros [Hj [Hc1 Hc2] Hp Ha] Hj' Hf He Hcut Hco Hper Hap. pose proof (first_pos l Hj).
  split; constructor; rewrite ?Hf, ?Hap; try done; try lia.
  intros i Hi. unfold entry_at. rewrite Hf, He. case_bools. rewrite lookup_app_l.
  - by rewrite lookup_take_lt by lia.
  - rewrite length_take. unfold log_end, len in *. lia.
Qed.

(** Closes what is left when only indexes have changed. *)
Ltac indexes l := first [by apply (joined_same l) | change (log_end _) with (log_end l); lia | lia].

Lemma append_end_final es l l' i :
  joined l → contiguous (log_end l) es → append es l = Done (l', i) → log_wf l → log_wf l' ∧ kept l l'.
Proof.
  intros Hj Hc E Hw. pose proof (log_end_unstable l Hj) as Hend. pose proof Hw as [_ Hco Hp Ha].
  destruct es as [|e0 es]; [unfold append in E; by inv_done|].
  assert (e_index e0 = log_end l) as H0' by (rewrite (Hc 0%nat e0); [lia|done]).
  pose proof E as E'. apply append_final in E as (Hcc & Hj' & Hf & He & Ho & Hl); [|done|by rewrite H0'].
  assert (log_end l' = e_index e0 + len (e0 :: es)) as Hend'.
  { unfold log_end in *. rewrite He, len_app, len_take, Hf. lia. }
  apply (final_cut l l' (e_index e0) (e0 :: es)); rewrite ?Hend', ?Ho; try done; rewrite Hl; simpl; lia.
Qed.

Lemma commit_to_final i l l' : commit_to i l = Done l' → final l l'.
Proof.
  intros E Hw. pose proof Hw as [Hj Hc Hp Ha]. unfold commit_to in E.
  destruct (N.leb_spec i (l_committed l)); [apply unchanged; by inv_done|]. rewrite last_index_spec in E by done.
  cbn [mbind outcome_bind] in E. destruct (N.ltb_spec (log_end l - 1) i); [done|]. injection E as <-.
  pose proof (first_pos l Hj). pose proof (first_le_end l).
  apply final_same; try done; simpl; indexes l.
Qed.
Lemma maybe_commit_final i t l l' b : maybe_commit i t l = Done (l', b) → final l l'.
Proof.
  intros E. unfold maybe_commit in E. apply bind_Done in E as (ok & _ & E). destruct ok; [|by inv_done].
  apply bind_Done in E as (l1 & Hc & E). inv_done. by eapply commit_to_final.
Qed.
Lemma applied_to_final i l l' : applied_to i l = Done l' → final l l'.
Proof.
  intros E Hw. pose proof Hw as [Hj Hc Hp Ha]. unfold applied_to in E. destruct (i =? 0); [inv_done; apply unchanged; done|].
  destruct (N.ltb_spec (l_committed l) i), (N.ltb_spec i (l_applied l)); try done. injection E as <-.
  apply final_same; try done; simpl; indexes l.
Qed.
Lemma maybe_persist_final i t l l' b : maybe_persist i t l = Done (l', b) → final l l'.
Proof.
  intros E Hw. pose proof Hw as [Hj Hc Hp Ha]. unfold maybe_persist in E.
  set (fui := match u_snapshot (l_unstable l) with Some s => _ | None => _ end) in E.
  assert (fui ≤ u_offset (l_unstable l)) as Hfui.
  { unfold fui. destruct (u_snapshot (l_unstable l)) as [s|] eqn:Es; [|done].
    rewrite (uo_snapshot _ (jo_unstable _ Hj) s Es). lia. }
  destruct (N.ltb_spec (l_persisted l) i), (N.ltb_spec i fui); simpl in E; try (apply unchanged; by inv_done).
  apply bind_Done in E as (ok & _ & E). destruct ok; [|by inv_done]. injection E as <- _.
  apply final_same; try done; simpl; indexes l.
Qed.
Lemma limit_final n l : final l (set_l_max_apply_unpersisted_log_limit n l).
Proof.
  intros Hw. pose proof Hw as [Hj Hc Hp Ha].
  apply final_same; try done; simpl; indexes l.
Qed.
Lemma read_final l l' : (joined l → same_log l l') → final l l'.
Proof.
  intros Hs Hw. pose proof Hw as [Hj Hc Hp Ha]. specialize (Hs Hj).
  pose proof (same_log_joined _ _ Hs Hj) as Hj'. destruct Hs as [Hst Hf He Hd Hu E1 E2 E3 _].
  assert (log_end l' = log_end l) as Hend.
  { unfold log_end, ents, stable_part, first. by rewrite Hu, Hf, He. }
  apply final_same; try done; rewrite ?E1, ?E2, ?E3, ?Hend; done || lia.
Qed.
Lemma restore_final snap l l' : restore snap l = Done l' → final l l'.
Proof.
  intros E Hw. pose proof Hw as [Hj Hc Hp Ha]. pose proof (restore_writes snap l Hj) as Hj'. rewrite E in Hj'.
  unfold restore in E. destruct (N.leb_spec (l_committed l) (sm_index (s_metadata snap))) as [Hle|]; [|done].
  cbn [assert mbind outcome_bind] in E. apply bind_Done in E as (u & Hu & E). unfold Unstable.restore in Hu.
  apply bind_Done in Hu as (off & [Hb ->]%add64_Done & Hu). injection Hu as <-.
  assert (l_committed l' = sm_index (s_metadata snap) ∧ l_applied l' = l_applied l ∧ l_persisted l' ≤ l_committed l ∧
    l_unstable l' = mkUnstable (Some snap) [] 0 (sm_index (s_metadata snap) + 1)) as (E1 & E2 & E3 & E4).
  { injection E as <-. by destruct (N.ltb_spec (l_committed l) (l_persisted l)). }
  assert (first l' = sm_index (s_metadata snap) + 1) as Ef by (unfold first; by rewrite E4).
  assert (log_end l' = sm_index (s_metadata snap) + 1) as Ee
    by (rewrite (log_end_unstable l' Hj'), E4; simpl; rewrite len_nil; lia).
  split; constructor; rewrite ?Ef, ?Ee, ?E1, ?E2, ?E4; simpl; try done; lia.
Qed.

(** ** Entries from a leader, whatever they are *)
Lemma conflict_of_contiguous l j es :
  contiguous j es → conflict_of l es ≠ 0 →
  ∃ k e, es !! k = Some e ∧ e_index e = conflict_of l es ∧ conflict_of l es = j + N.of_nat k ∧ mismatch l e ∧
    ∀ k' e', (k' < k)%nat → es !! k' = Some e' → log_matches l (e_index e') (e_term e').
Proof.
  unfold conflict_of. intros Hc. destruct (list_find (mismatch l) es) as [[k e]|] eqn:E; [|done].
  intros _. apply list_find_Some in E as (Hk & Hm & Hb). exists k, e.
  split_and!; [done..|by rewrite (Hc k e Hk)|done|]. intros k' e' Hlt He'. apply dec_stable. by apply (Hb k' e').
Qed.
Lemma conflict_of_none l j es k e :
  1 ≤ j → contiguous j es → conflict_of l es = 0 → es !! k = Some e → log_matches l (e_index e) (e_term e).
Proof.
  unfold conflict_of. intros Hj Hc. destruct (list_find (mismatch l) es) as [[k' e']|] eqn:E.
  - apply list_find_Some in E as (Hk & _ & _). rewrite (Hc k' e' Hk). lia.
  - intros _ He. apply list_find_None in E. rewrite Forall_forall in E. apply dec_stable. apply E. by eapply list_elem_of_lookup_2.
Qed.

(** From position [k] of the message on, the log is the message's. *)
Definition spliced (idx : u64) (es : list Entry) l l' : Prop :=
  ∃ k e0, es !! k = Some e0 ∧
    (∀ k' e', (k' < k)%nat → es !! k' = Some e' → log_matches l (e_index e') (e_term e')) ∧
    let c := idx + 1 + N.of_nat k in
    l_committed l < c ≤ log_end l ∧ joined l' ∧ first l' = first l ∧
    ents l' = take (N.to_nat (c - first l)) (ents l) ++ drop k es ∧
    u_offset (l_unstable l') = N.min (u_offset (l_unstable l)) c ∧
    l_persisted l' = N.min (l_persisted l) (c - 1) ∧ l_committed l' = l_committed l ∧ l_applied l' = l_applied l ∧
    mismatch l e0.
(** What comes of a message: a refusal; or its entries are in the log, with or
    without a change. *)
Lemma maybe_append_outcome idx t committed es l l' res :
  contiguous (idx + 1) es → log_wf l → maybe_append idx t committed es l = Done (l', res) →
  match res with
  | None => l' = l
  | Some (_, last) => last = idx + len es ∧ log_matches l idx t ∧ ∃ l1,
      ((l1 = l ∧ ∀ k e, es !! k = Some e → log_matches l (e_index e) (e_term e)) ∨ spliced idx es l l1) ∧
      commit_to (N.min committed (idx + len es)) l1 = Done l'
  end.
Proof.
  intros Hce Hw E. pose proof Hw as [Hj Hc Hp Ha]. unfold maybe_append in E. rewrite match_term_spec in E by done.
  cbn [mbind outcome_bind] in E. case_bool_decide as Hm; [|by inv_done].
  rewrite find_conflict_spec in E by done. cbn [mbind outcome_bind] in E.
  apply bind_Done in E as (l1 & E1 & E). apply bind_Done in E as (last & [_ ->]%add64_Done & E).
  apply bind_Done in E as (l2 & E2 & E). injection E as -> <-. split; [done|]. split; [done|]. exists l1. split; [|done].
  clear E2. destruct (N.eqb_spec (conflict_of l es) 0) as [Hz|Hz].
  { left. injection E1 as <-. split; [done|]. intros k e. eapply conflict_of_none; [|done..]. lia. }
  right. destruct (N.leb_spec (conflict_of l es) (l_committed l)) as [|Hgt]; [done|].
  destruct (conflict_of_contiguous l _ es Hce Hz) as (k & e0 & Hk & He0 & Hkk & Hmis & Hb).
  apply bind_Done in E1 as (next & [_ ->]%add64_Done & E1). apply bind_Done in E1 as (start & [_ ->]%sub64_Done & E1).
  apply bind_Done in E1 as (suffix & [_ ->]%vslice_from_Done & E1).
  apply bind_Done in E1 as ([l2' i] & Happ & E1). apply bind_Done in E1 as (p & [_ ->]%sub64_Done & E1).
  replace (N.to_nat (conflict_of l es - (idx + 1))) with k in Happ by lia.
  rewrite (drop_S _ _ _ Hk) in Happ.
  assert (contiguous (e_index e0) (e0 :: drop (Datatypes.S k) es)) as Hcs.
  { rewrite <-(drop_S _ _ _ Hk), He0, Hkk. by apply contiguous_drop. }
  apply append_final in Happ as (Hcc & Hj2 & Hf & He & Ho & Hl); [|done..]. rewrite <-(drop_S _ _ _ Hk), He0, Hkk in *.
  assert (l1 = set_l_persisted (N.min (l_persisted l) (idx + 1 + N.of_nat k - 1)) l2') as ->.
  { injection E1 as <-. rewrite Hl. simpl. case_bools; unfold set_l_persisted, set_l_unstable; simpl; f_equal; lia. }
  exists k, e0. do 3 (split; [done|]). split_and!; try done; simpl; [by apply (joined_same l2')|by rewrite Hl..].
Qed.
Lemma maybe_append_Done idx t committed es l l' res :
  contiguous (idx + 1) es → log_wf l → maybe_append idx t committed es l = Done (l', res) →
  l' = l ∨ (log_matches l idx t ∧ ∃ l1, (l1 = l ∨ spliced idx es l l1) ∧
    commit_to (N.min committed (idx + len es)) l1 = Done l').
Proof.
  intros Hce Hw E. apply maybe_append_outcome in E; [|done..]. destruct res as [[ci last]|]; [right|by left].
  destruct E as (_ & Hm & l1 & Hl1 & Hc). split; [done|]. exists l1. split; [|done]. destruct Hl1 as [[-> _]|]; auto.
Qed.
Lemma spliced_final idx es l l' : log_wf l → spliced idx es l l' → log_wf l' ∧ kept l l'.
Proof.
  intros Hw (k & e0 & Hk & _ & Hcc & Hj' & Hf & He & Ho & Hper & Hco & Hap & _). pose proof Hw as [Hj Hc Hp Ha].
  apply (final_cut l _ _ _ Hw Hj' Hf He Hcc); [|rewrite Ho, Hper; lia|done]. rewrite Hco.
  apply lookup_lt_Some in Hk. unfold log_end in *. rewrite He, len_app, len_take, len_drop, Hf. unfold len in *. lia.
Qed.
Lemma maybe_append_final idx t committed es l l' res :
  contiguous (idx + 1) es → maybe_append idx t committed es l = Done (l', res) → final l l'.
Proof.
  intros Hce E Hw. destruct (maybe_append_Done _ _ _ _ _ _ _ Hce Hw E) as [->|(_ & l1 & Hl1 & Hc)]; [done|].
  apply commit_to_final in Hc. assert (log_wf l1 ∧ kept l l1) as [Hw1 Hk1].
  { destruct Hl1 as [->|Hs]; [done|by eapply spliced_final]. }
  destruct (Hc Hw1). split; [done|by transitivity l1].
Qed.

(** ** The same sequence of entries *)
Definition same_ents l l' : Prop := joined l → joined l' ∧ first l' = first l ∧ ents l' = ents l.
#[global] Instance same_ents_preorder : PreOrder same_ents.
Proof.
  split; [by intros l|]. intros l1 l2 l3 H12 H23 Hj. destruct (H12 Hj) as (Hj2 & F2 & E2).
  destruct (H23 Hj2) as (Hj3 & F3 & E3). split_and!; [done|congruence..].
Qed.
Lemma same_ents_indexes l l' : l_store l' = l_store l → l_unstable l' = l_unstable l → same_ents l l'.
Proof.
  intros E1 E2 Hj. split; [by apply (joined_same l)|]. unfold ents, stable_part, first. by rewrite E1, E2.
Qed.
Lemma same_ents_read l l' : (joined l → same_log l l') → same_ents l l'.
Proof.
  intros Hs Hj. specialize (Hs Hj). split; [by apply (same_log_joined l)|].
  by destruct (same_log_ents _ _ Hs) as (? & _ & ? & _).
Qed.
Lemma same_ents_commit_to i l l' : commit_to i l = Done l' → same_ents l l'.
Proof.
  unfold commit_to. intros E. destruct (_ <=? _); [by injection E as <-|].
  apply bind_Done in E as (last & _ & E). destruct (_ <? _); [done|]. injection E as <-. by apply same_ents_indexes.
Qed.
Lemma same_ents_commit i t l l' b : maybe_commit i t l = Done (l', b) → same_ents l l'.
Proof.
  unfold maybe_commit. intros E. apply bind_Done in E as (ok & _ & E). destruct ok; [|by inv_done].
  apply bind_Done in E as (l1 & Hc & E). injection E as <- <-. by eapply same_ents_commit_to.
Qed.
Lemma same_ents_persist i t l l' b : maybe_persist i t l = Done (l', b) → same_ents l l'.
Proof.
  unfold maybe_persist. intros E. apply bind_Done in E as (ok & _ & E).
  destruct ok; injection E as <- _; by apply same_ents_indexes.
Qed.
Lemma same_ents_apply i l l' : applied_to i l = Done l' → same_ents l l'.
Proof.
  unfold applied_to. intros E. destruct (i =? 0); [by injection E as <-|].
  destruct (_ || _); [done|]. injection E as <-. by apply same_ents_indexes.
Qed.

(** Both: the entries stay, and what is committed is final. *)
Definition calm l l' : Prop := same_ents l l' ∧ final l l'.
#[global] Instance calm_preorder : PreOrder calm.
Proof. split; [by intros l|]. intros l1 l2 l3 [] []. split; by transitivity l2. Qed.
Lemma calm_read l l' : (joined l → same_log l l') → calm l l'.
Proof. split; [by apply same_ents_read|by apply read_final]. Qed.
Lemma calm_limit n l : calm l (set_l_max_apply_unpersisted_log_limit n l).
Proof. split; [by apply same_ents_indexes|apply limit_final]. Qed.
Lemma calm_commit_to i l l' : commit_to i l = Done l' → calm l l'.
Proof. split; [by eapply same_ents_commit_to|by eapply commit_to_final]. Qed.
Lemma calm_commit i t l l' b : maybe_commit i t l = Done (l', b) → calm l l'.
Proof. split; [by eapply same_ents_commit|by eapply maybe_commit_final]. Qed.
Lemma calm_persist i t l l' b : maybe_persist i t l = Done (l', b) → calm l l'.
Proof. split; [by eapply same_ents_persist|by eapply maybe_persist_final]. Qed.
Lemma calm_apply i l l' : applied_to i l = Done l' → calm l l'.
Proof. split; [by eapply same_ents_apply|by eapply applied_to_final]. Qed.

(** ** A log that only grows *)
Definition grows l l' : Prop := joined l → joined l' ∧ first l' = first l ∧ ents l `prefix_of` ents l'.
#[global] Instance grows_preorder : PreOrder grows.
Proof.
  split; [by intros l|]. intros l1 l2 l3 H12 H23 Hj. destruct (H12 Hj) as (Hj2 & F2 & P2).
  destruct (H23 Hj2) as (Hj3 & F3 & P3). split_and!; [done|congruence|by etrans].
Qed.
Lemma grows_same l l' : same_ents l l' → grows l l'.
Proof. intros Hs Hj. destruct (Hs Hj) as (Hj' & Hf & He). by rewrite He. Qed.
End final.
