(* ===== verification/RaftState.v ===== *)
(** * The state of a Raft node ([src/raft.rs])

    The record, the monad its methods run in, and the bookkeeping of uncommitted
    entries. [Raft] and the [RaftCore] it dereferences to are one record here.

    What the program takes from outside is a parameter: the storage, the protobuf
    runtime, the order of the hash tables, the decoding of configuration changes,
    and the random generator. Logging is left out. *)
From S2P Require Import Prelude Errors Proto Util Quorum Storage Unstable ReadOnly Config RaftLog.
From S2P Require Import Progress Tracker.
#[local] Open Scope N_scope.

(** The generated protobuf decoders of the two kinds of configuration changes
    ([merge_from_bytes] into a default message); [None] is a decoding error. *)
Class ConfChangeCodec := {
  decode_conf_change : bytes → option ConfChange;
  decode_conf_change_v2 : bytes → option ConfChangeV2 }.

(** The thread's random generator: its [n]-th answer for a range [lo..hi]. *)
Class Rng := { gen_range : N → u64 → u64 → u64 }.
Class RngOk `{Rng} : Prop := gen_range_spec n lo hi : lo < hi → lo ≤ gen_range n lo hi < hi.

(** [enum StateRole] *)
Inductive StateRole : Set := Follower | Candidate | Leader | PreCandidate.
#[global] Instance StateRole_eq_dec : EqDecision StateRole.
Proof. solve_decision. Defined.

Definition CAMPAIGN_PRE_ELECTION : bytes := String.list_byte_of_string "CampaignPreElection".
Definition CAMPAIGN_ELECTION : bytes := String.list_byte_of_string "CampaignElection".
Definition CAMPAIGN_TRANSFER : bytes := String.list_byte_of_string "CampaignTransfer".

(** [struct SoftState] *)
Record SoftState := mkSoftState { ss_leader_id : u64; ss_raft_state : StateRole }.
#[global] Instance SoftState_eq_dec : EqDecision SoftState.
Proof. solve_decision. Defined.

(** [struct UncommittedState] *)
Record UncommittedState := mkUncommittedState {
  us_max_uncommitted_size : usize;
  us_uncommitted_size : usize;
  us_last_log_tail_index : u64 }.

Definition set_us_max_uncommitted_size (v : usize) (r : UncommittedState) : UncommittedState :=
  mkUncommittedState v (us_uncommitted_size r) (us_last_log_tail_index r).
Definition set_us_uncommitted_size (v : usize) (r : UncommittedState) : UncommittedState :=
  mkUncommittedState (us_max_uncommitted_size r) v (us_last_log_tail_index r).
Definition set_us_last_log_tail_index (v : u64) (r : UncommittedState) : UncommittedState :=
  mkUncommittedState (us_max_uncommitted_size r) (us_uncommitted_size r) v.

Definition is_no_limit (self : UncommittedState) : bool := us_max_uncommitted_size self =? NO_LIMIT.

(** [ents.iter().map(|ent| ent.get_data().len()).sum()] *)
Definition data_size (ents : list Entry) : outcome usize :=
  sum64 (map (λ e, len (e_data e)) ents).

Definition maybe_increase_uncommitted (ents : list Entry) (self : UncommittedState)
    : outcome (UncommittedState * bool) :=
  if is_no_limit self then Done (self, true)
  else
    size ← data_size ents;
    ok ← (if (size =? 0) || (us_uncommitted_size self =? 0) then Done true
          else total ← size +! us_uncommitted_size self; Done (total <=? us_max_uncommitted_size self));
    if (ok : bool)
    then n ← us_uncommitted_size self +! size; Done (set_us_uncommitted_size n self, true)
    else Done (self, false).

(** [iter().skip_while(|ent| ent.index <= tail)] *)
Fixpoint skip_until (tail : u64) (ents : list Entry) : list Entry :=
  match ents with
  | [] => []
  | e :: ents' => if e_index e <=? tail then skip_until tail ents' else ents
  end.
Definition maybe_reduce_uncommitted (ents : list Entry) (self : UncommittedState)
    : outcome (UncommittedState * bool) :=
  if is_no_limit self || bool_decide (ents = []) then Done (self, true)
  else
    size ← data_size (skip_until (us_last_log_tail_index self) ents);
    if us_uncommitted_size self <? size then Done (set_us_uncommitted_size 0 self, false)
    else n ← us_uncommitted_size self -! size; Done (set_us_uncommitted_size n self, true).

(** [struct Raft] with [struct RaftCore]. [r_draws] counts the random numbers
    drawn so far; the program keeps this in the generator of the thread. *)
Record Raft (S : Type) := mkRaft {
  r_term : u64;
  r_vote : u64;
  r_id : u64;
  r_read_states : list ReadState;
  r_raft_log : RaftLog S;
  r_max_inflight : usize;
  r_max_msg_size : u64;
  r_pending_request_snapshot : u64;
  r_state : StateRole;
  r_promotable : bool;
  r_leader_id : u64;
  r_lead_transferee : option u64;
  r_pending_conf_index : u64;
  r_read_only : ReadOnly;
  r_election_elapsed : usize;
  r_heartbeat_elapsed : usize;
  r_check_quorum : bool;
  r_pre_vote : bool;
  r_skip_bcast_commit : bool;
  r_batch_append : bool;
  r_disable_proposal_forwarding : bool;
  r_heartbeat_timeout : usize;
  r_election_timeout : usize;
  r_randomized_election_timeout : usize;
  r_min_election_timeout : usize;
  r_max_election_timeout : usize;
  r_priority : Z;
  r_uncommitted_state : UncommittedState;
  r_max_committed_size_per_ready : u64;
  r_prs : ProgressTracker;
  r_msgs : list Message;
  r_draws : N }.
Arguments mkRaft {S} _ _ _ _ _ _ _ _ _ _ _ _ _ _ _ _ _ _ _ _ _ _ _ _ _ _ _ _ _ _ _ _.
Arguments r_term {S} _.
Arguments r_vote {S} _.
Arguments r_id {S} _.
Arguments r_read_states {S} _.
Arguments r_raft_log {S} _.
Arguments r_max_inflight {S} _.
Arguments r_max_msg_size {S} _.
Arguments r_pending_request_snapshot {S} _.
Arguments r_state {S} _.
Arguments r_promotable {S} _.
Arguments r_leader_id {S} _.
Arguments r_lead_transferee {S} _.
Arguments r_pending_conf_index {S} _.
Arguments r_read_only {S} _.
Arguments r_election_elapsed {S} _.
Arguments r_heartbeat_elapsed {S} _.
Arguments r_check_quorum {S} _.
Arguments r_pre_vote {S} _.
Arguments r_skip_bcast_commit {S} _.
Arguments r_batch_append {S} _.
Arguments r_disable_proposal_forwarding {S} _.
Arguments r_heartbeat_timeout {S} _.
Arguments r_election_timeout {S} _.
Arguments r_randomized_election_timeout {S} _.
Arguments r_min_election_timeout {S} _.
Arguments r_max_election_timeout {S} _.
Arguments r_priority {S} _.
Arguments r_uncommitted_state {S} _.
Arguments r_max_committed_size_per_ready {S} _.
Arguments r_prs {S} _.
Arguments r_msgs {S} _.
Arguments r_draws {S} _.

(** Assignments to one field. *)
Definition set_r_term {S} (v : u64) (r : Raft S) : Raft S :=
  mkRaft v (r_vote r) (r_id r) (r_read_states r) (r_raft_log r) (r_max_inflight r) (r_max_msg_size r) (r_pending_request_snapshot r) (r_state r) (r_promotable r) (r_leader_id r) (r_lead_transferee r) (r_pending_conf_index r) (r_read_only r) (r_election_elapsed r) (r_heartbeat_elapsed r) (r_check_quorum r) (r_pre_vote r) (r_skip_bcast_commit r) (r_batch_append r) (r_disable_proposal_forwarding r) (r_heartbeat_timeout r) (r_election_timeout r) (r_randomized_election_timeout r) (r_min_election_timeout r) (r_max_election_timeout r) (r_priority r) (r_uncommitted_state r) (r_max_committed_size_per_ready r) (r_prs r) (r_msgs r) (r_draws r).
Definition set_r_vote {S} (v : u64) (r : Raft S) : Raft S :=
  mkRaft (r_term r) v (r_id r) (r_read_states r) (r_raft_log r) (r_max_inflight r) (r_max_msg_size r) (r_pending_request_snapshot r) (r_state r) (r_promotable r) (r_leader_id r) (r_lead_transferee r) (r_pending_conf_index r) (r_read_only r) (r_election_elapsed r) (r_heartbeat_elapsed r) (r_check_quorum r) (r_pre_vote r) (r_skip_bcast_commit r) (r_batch_append r) (r_disable_proposal_forwarding r) (r_heartbeat_timeout r) (r_election_timeout r) (r_randomized_election_timeout r) (r_min_election_timeout r) (r_max_election_timeout r) (r_priority r) (r_uncommitted_state r) (r_max_committed_size_per_ready r) (r_prs r) (r_msgs r) (r_draws r).
Definition set_r_id {S} (v : u64) (r : Raft S) : Raft S :=
  mkRaft (r_term r) (r_vote r) v (r_read_states r) (r_raft_log r) (r_max_inflight r) (r_max_msg_size r) (r_pending_request_snapshot r) (r_state r) (r_promotable r) (r_leader_id r) (r_lead_transferee r) (r_pending_conf_index r) (r_read_only r) (r_election_elapsed r) (r_heartbeat_elapsed r) (r_check_quorum r) (r_pre_vote r) (r_skip_bcast_commit r) (r_batch_append r) (r_disable_proposal_forwarding r) (r_heartbeat_timeout r) (r_election_timeout r) (r_randomized_election_timeout r) (r_min_election_timeout r) (r_max_election_timeout r) (r_priority r) (r_uncommitted_state r) (r_max_committed_size_per_ready r) (r_prs r) (r_msgs r) (r_draws r).
Definition set_r_read_states {S} (v : list ReadState) (r : Raft S) : Raft S :=
  mkRaft (r_term r) (r_vote r) (r_id r) v (r_raft_log r) (r_max_inflight r) (r_max_msg_size r) (r_pending_request_snapshot r) (r_state r) (r_promotable r) (r_leader_id r) (r_lead_transferee r) (r_pending_conf_index r) (r_read_only r) (r_election_elapsed r) (r_heartbeat_elapsed r) (r_check_quorum r) (r_pre_vote r) (r_skip_bcast_commit r) (r_batch_append r) (r_disable_proposal_forwarding r) (r_heartbeat_timeout r) (r_election_timeout r) (r_randomized_election_timeout r) (r_min_election_timeout r) (r_max_election_timeout r) (r_priority r) (r_uncommitted_state r) (r_max_committed_size_per_ready r) (r_prs r) (r_msgs r) (r_draws r).
Definition set_r_raft_log {S} (v : RaftLog S) (r : Raft S) : Raft S :=
  mkRaft (r_term r) (r_vote r) (r_id r) (r_read_states r) v (r_max_inflight r) (r_max_msg_size r) (r_pending_request_snapshot r) (r_state r) (r_promotable r) (r_leader_id r) (r_lead_transferee r) (r_pending_conf_index r) (r_read_only r) (r_election_elapsed r) (r_heartbeat_elapsed r) (r_check_quorum r) (r_pre_vote r) (r_skip_bcast_commit r) (r_batch_append r) (r_disable_proposal_forwarding r) (r_heartbeat_timeout r) (r_election_timeout r) (r_randomized_election_timeout r) (r_min_election_timeout r) (r_max_election_timeout r) (r_priority r) (r_uncommitted_state r) (r_max_committed_size_per_ready r) (r_prs r) (r_msgs r) (r_draws r).
Definition set_r_max_inflight {S} (v : usize) (r : Raft S) : Raft S :=
  mkRaft (r_term r) (r_vote r) (r_id r) (r_read_states r) (r_raft_log r) v (r_max_msg_size r) (r_pending_request_snapshot r) (r_state r) (r_promotable r) (r_leader_id r) (r_lead_transferee r) (r_pending_conf_index r) (r_read_only r) (r_election_elapsed r) (r_heartbeat_elapsed r) (r_check_quorum r) (r_pre_vote r) (r_skip_bcast_commit r) (r_batch_append r) (r_disable_proposal_forwarding r) (r_heartbeat_timeout r) (r_election_timeout r) (r_randomized_election_timeout r) (r_min_election_timeout r) (r_max_election_timeout r) (r_priority r) (r_uncommitted_state r) (r_max_committed_size_per_ready r) (r_prs r) (r_msgs r) (r_draws r).
Definition set_r_max_msg_size {S} (v : u64) (r : Raft S) : Raft S :=
  mkRaft (r_term r) (r_vote r) (r_id r) (r_read_states r) (r_raft_log r) (r_max_inflight r) v (r_pending_request_snapshot r) (r_state r) (r_promotable r) (r_leader_id r) (r_lead_transferee r) (r_pending_conf_index r) (r_read_only r) (r_election_elapsed r) (r_heartbeat_elapsed r) (r_check_quorum r) (r_pre_vote r) (r_skip_bcast_commit r) (r_batch_append r) (r_disable_proposal_forwarding r) (r_heartbeat_timeout r) (r_election_timeout r) (r_randomized_election_timeout r) (r_min_election_timeout r) (r_max_election_timeout r) (r_priority r) (r_uncommitted_state r) (r_max_committed_size_per_ready r) (r_prs r) (r_msgs r) (r_draws r).
Definition set_r_pending_request_snapshot {S} (v : u64) (r : Raft S) : Raft S :=
  mkRaft (r_term r) (r_vote r) (r_id r) (r_read_states r) (r_raft_log r) (r_max_inflight r) (r_max_msg_size r) v (r_state r) (r_promotable r) (r_leader_id r) (r_lead_transferee r) (r_pending_conf_index r) (r_read_only r) (r_election_elapsed r) (r_heartbeat_elapsed r) (r_check_quorum r) (r_pre_vote r) (r_skip_bcast_commit r) (r_batch_append r) (r_disable_proposal_forwarding r) (r_heartbeat_timeout r) (r_election_timeout r) (r_randomized_election_timeout r) (r_min_election_timeout r) (r_max_election_timeout r) (r_priority r) (r_uncommitted_state r) (r_max_committed_size_per_ready r) (r_prs r) (r_msgs r) (r_draws r).
Definition set_r_state {S} (v : StateRole) (r : Raft S) : Raft S :=
  mkRaft (r_term r) (r_vote r) (r_id r) (r_read_states r) (r_raft_log r) (r_max_inflight r) (r_max_msg_size r) (r_pending_request_snapshot r) v (r_promotable r) (r_leader_id r) (r_lead_transferee r) (r_pending_conf_index r) (r_read_only r) (r_election_elapsed r) (r_heartbeat_elapsed r) (r_check_quorum r) (r_pre_vote r) (r_skip_bcast_commit r) (r_batch_append r) (r_disable_proposal_forwarding r) (r_heartbeat_timeout r) (r_election_timeout r) (r_randomized_election_timeout r) (r_min_election_timeout r) (r_max_election_timeout r) (r_priority r) (r_uncommitted_state r) (r_max_committed_size_per_ready r) (r_prs r) (r_msgs r) (r_draws r).
Definition set_r_promotable {S} (v : bool) (r : Raft S) : Raft S :=
  mkRaft (r_term r) (r_vote r) (r_id r) (r_read_states r) (r_raft_log r) (r_max_inflight r) (r_max_msg_size r) (r_pending_request_snapshot r) (r_state r) v (r_leader_id r) (r_lead_transferee r) (r_pending_conf_index r) (r_read_only r) (r_election_elapsed r) (r_heartbeat_elapsed r) (r_check_quorum r) (r_pre_vote r) (r_skip_bcast_commit r) (r_batch_append r) (r_disable_proposal_forwarding r) (r_heartbeat_timeout r) (r_election_timeout r) (r_randomized_election_timeout r) (r_min_election_timeout r) (r_max_election_timeout r) (r_priority r) (r_uncommitted_state r) (r_max_committed_size_per_ready r) (r_prs r) (r_msgs r) (r_draws r).
Definition set_r_leader_id {S} (v : u64) (r : Raft S) : Raft S :=
  mkRaft (r_term r) (r_vote r) (r_id r) (r_read_states r) (r_raft_log r) (r_max_inflight r) (r_max_msg_size r) (r_pending_request_snapshot r) (r_state r) (r_promotable r) v (r_lead_transferee r) (r_pending_conf_index r) (r_read_only r) (r_election_elapsed r) (r_heartbeat_elapsed r) (r_check_quorum r) (r_pre_vote r) (r_skip_bcast_commit r) (r_batch_append r) (r_disable_proposal_forwarding r) (r_heartbeat_timeout r) (r_election_timeout r) (r_randomized_election_timeout r) (r_min_election_timeout r) (r_max_election_timeout r) (r_priority r) (r_uncommitted_state r) (r_max_committed_size_per_ready r) (r_prs r) (r_msgs r) (r_draws r).
Definition set_r_lead_transferee {S} (v : option u64) (r : Raft S) : Raft S :=
  mkRaft (r_term r) (r_vote r) (r_id r) (r_read_states r) (r_raft_log r) (r_max_inflight r) (r_max_msg_size r) (r_pending_request_snapshot r) (r_state r) (r_promotable r) (r_leader_id r) v (r_pending_conf_index r) (r_read_only r) (r_election_elapsed r) (r_heartbeat_elapsed r) (r_check_quorum r) (r_pre_vote r) (r_skip_bcast_commit r) (r_batch_append r) (r_disable_proposal_forwarding r) (r_heartbeat_timeout r) (r_election_timeout r) (r_randomized_election_timeout r) (r_min_election_timeout r) (r_max_election_timeout r) (r_priority r) (r_uncommitted_state r) (r_max_committed_size_per_ready r) (r_prs r) (r_msgs r) (r_draws r).
Definition set_r_pending_conf_index {S} (v : u64) (r : Raft S) : Raft S :=
  mkRaft (r_term r) (r_vote r) (r_id r) (r_read_states r) (r_raft_log r) (r_max_inflight r) (r_max_msg_size r) (r_pending_request_snapshot r) (r_state r) (r_promotable r) (r_leader_id r) (r_lead_transferee r) v (r_read_only r) (r_election_elapsed r) (r_heartbeat_elapsed r) (r_check_quorum r) (r_pre_vote r) (r_skip_bcast_commit r) (r_batch_append r) (r_disable_proposal_forwarding r) (r_heartbeat_timeout r) (r_election_timeout r) (r_randomized_election_timeout r) (r_min_election_timeout r) (r_max_election_timeout r) (r_priority r) (r_uncommitted_state r) (r_max_committed_size_per_ready r) (r_prs r) (r_msgs r) (r_draws r).
Definition set_r_read_only {S} (v : ReadOnly) (r : Raft S) : Raft S :=
  mkRaft (r_term r) (r_vote r) (r_id r) (r_read_states r) (r_raft_log r) (r_max_inflight r) (r_max_msg_size r) (r_pending_request_snapshot r) (r_state r) (r_promotable r) (r_leader_id r) (r_lead_transferee r) (r_pending_conf_index r) v (r_election_elapsed r) (r_heartbeat_elapsed r) (r_check_quorum r) (r_pre_vote r) (r_skip_bcast_commit r) (r_batch_append r) (r_disable_proposal_forwarding r) (r_heartbeat_timeout r) (r_election_timeout r) (r_randomized_election_timeout r) (r_min_election_timeout r) (r_max_election_timeout r) (r_priority r) (r_uncommitted_state r) (r_max_committed_size_per_ready r) (r_prs r) (r_msgs r) (r_draws r).
Definition set_r_election_elapsed {S} (v : usize) (r : Raft S) : Raft S :=
  mkRaft (r_term r) (r_vote r) (r_id r) (r_read_states r) (r_raft_log r) (r_max_inflight r) (r_max_msg_size r) (r_pending_request_snapshot r) (r_state r) (r_promotable r) (r_leader_id r) (r_lead_transferee r) (r_pending_conf_index r) (r_read_only r) v (r_heartbeat_elapsed r) (r_check_quorum r) (r_pre_vote r) (r_skip_bcast_commit r) (r_batch_append r) (r_disable_proposal_forwarding r) (r_heartbeat_timeout r) (r_election_timeout r) (r_randomized_election_timeout r) (r_min_election_timeout r) (r_max_election_timeout r) (r_priority r) (r_uncommitted_state r) (r_max_committed_size_per_ready r) (r_prs r) (r_msgs r) (r_draws r).
Definition set_r_heartbeat_elapsed {S} (v : usize) (r : Raft S) : Raft S :=
  mkRaft (r_term r) (r_vote r) (r_id r) (r_read_states r) (r_raft_log r) (r_max_inflight r) (r_max_msg_size r) (r_pending_request_snapshot r) (r_state r) (r_promotable r) (r_leader_id r) (r_lead_transferee r) (r_pending_conf_index r) (r_read_only r) (r_election_elapsed r) v (r_check_quorum r) (r_pre_vote r) (r_skip_bcast_commit r) (r_batch_append r) (r_disable_proposal_forwarding r) (r_heartbeat_timeout r) (r_election_timeout r) (r_randomized_election_timeout r) (r_min_election_timeout r) (r_max_election_timeout r) (r_priority r) (r_uncommitted_state r) (r_max_committed_size_per_ready r) (r_prs r) (r_msgs r) (r_draws r).
Definition set_r_check_quorum {S} (v : bool) (r : Raft S) : Raft S :=
  mkRaft (r_term r) (r_vote r) (r_id r) (r_read_states r) (r_raft_log r) (r_max_inflight r) (r_max_msg_size r) (r_pending_request_snapshot r) (r_state r) (r_promotable r) (r_leader_id r) (r_lead_transferee r) (r_pending_conf_index r) (r_read_only r) (r_election_elapsed r) (r_heartbeat_elapsed r) v (r_pre_vote r) (r_skip_bcast_commit r) (r_batch_append r) (r_disable_proposal_forwarding r) (r_heartbeat_timeout r) (r_election_timeout r) (r_randomized_election_timeout r) (r_min_election_timeout r) (r_max_election_timeout r) (r_priority r) (r_uncommitted_state r) (r_max_committed_size_per_ready r) (r_prs r) (r_msgs r) (r_draws r).
Definition set_r_pre_vote {S} (v : bool) (r : Raft S) : Raft S :=
  mkRaft (r_term r) (r_vote r) (r_id r) (r_read_states r) (r_raft_log r) (r_max_inflight r) (r_max_msg_size r) (r_pending_request_snapshot r) (r_state r) (r_promotable r) (r_leader_id r) (r_lead_transferee r) (r_pending_conf_index r) (r_read_only r) (r_election_elapsed r) (r_heartbeat_elapsed r) (r_check_quorum r) v (r_skip_bcast_commit r) (r_batch_append r) (r_disable_proposal_forwarding r) (r_heartbeat_timeout r) (r_election_timeout r) (r_randomized_election_timeout r) (r_min_election_timeout r) (r_max_election_timeout r) (r_priority r) (r_uncommitted_state r) (r_max_committed_size_per_ready r) (r_prs r) (r_msgs r) (r_draws r).
Definition set_r_skip_bcast_commit {S} (v : bool) (r : Raft S) : Raft S :=
  mkRaft (r_term r) (r_vote r) (r_id r) (r_read_states r) (r_raft_log r) (r_max_inflight r) (r_max_msg_size r) (r_pending_request_snapshot r) (r_state r) (r_promotable r) (r_leader_id r) (r_lead_transferee r) (r_pending_conf_index r) (r_read_only r) (r_election_elapsed r) (r_heartbeat_elapsed r) (r_check_quorum r) (r_pre_vote r) v (r_batch_append r) (r_disable_proposal_forwarding r) (r_heartbeat_timeout r) (r_election_timeout r) (r_randomized_election_timeout r) (r_min_election_timeout r) (r_max_election_timeout r) (r_priority r) (r_uncommitted_state r) (r_max_committed_size_per_ready r) (r_prs r) (r_msgs r) (r_draws r).
Definition set_r_batch_append {S} (v : bool) (r : Raft S) : Raft S :=
  mkRaft (r_term r) (r_vote r) (r_id r) (r_read_states r) (r_raft_log r) (r_max_inflight r) (r_max_msg_size r) (r_pending_request_snapshot r) (r_state r) (r_promotable r) (r_leader_id r) (r_lead_transferee r) (r_pending_conf_index r) (r_read_only r) (r_election_elapsed r) (r_heartbeat_elapsed r) (r_check_quorum r) (r_pre_vote r) (r_skip_bcast_commit r) v (r_disable_proposal_forwarding r) (r_heartbeat_timeout r) (r_election_timeout r) (r_randomized_election_timeout r) (r_min_election_timeout r) (r_max_election_timeout r) (r_priority r) (r_uncommitted_state r) (r_max_committed_size_per_ready r) (r_prs r) (r_msgs r) (r_draws r).
Definition set_r_disable_proposal_forwarding {S} (v : bool) (r : Raft S) : Raft S :=
  mkRaft (r_term r) (r_vote r) (r_id r) (r_read_states r) (r_raft_log r) (r_max_inflight r) (r_max_msg_size r) (r_pending_request_snapshot r) (r_state r) (r_promotable r) (r_leader_id r) (r_lead_transferee r) (r_pending_conf_index r) (r_read_only r) (r_election_elapsed r) (r_heartbeat_elapsed r) (r_check_quorum r) (r_pre_vote r) (r_skip_bcast_commit r) (r_batch_append r) v (r_heartbeat_timeout r) (r_election_timeout r) (r_randomized_election_timeout r) (r_min_election_timeout r) (r_max_election_timeout r) (r_priority r) (r_uncommitted_state r) (r_max_committed_size_per_ready r) (r_prs r) (r_msgs r) (r_draws r).
Definition set_r_heartbeat_timeout {S} (v : usize) (r : Raft S) : Raft S :=
  mkRaft (r_term r) (r_vote r) (r_id r) (r_read_states r) (r_raft_log r) (r_max_inflight r) (r_max_msg_size r) (r_pending_request_snapshot r) (r_state r) (r_promotable r) (r_leader_id r) (r_lead_transferee r) (r_pending_conf_index r) (r_read_only r) (r_election_elapsed r) (r_heartbeat_elapsed r) (r_check_quorum r) (r_pre_vote r) (r_skip_bcast_commit r) (r_batch_append r) (r_disable_proposal_forwarding r) v (r_election_timeout r) (r_randomized_election_timeout r) (r_min_election_timeout r) (r_max_election_timeout r) (r_priority r) (r_uncommitted_state r) (r_max_committed_size_per_ready r) (r_prs r) (r_msgs r) (r_draws r).
Definition set_r_election_timeout {S} (v : usize) (r : Raft S) : Raft S :=
  mkRaft (r_term r) (r_vote r) (r_id r) (r_read_states r) (r_raft_log r) (r_max_inflight r) (r_max_msg_size r) (r_pending_request_snapshot r) (r_state r) (r_promotable r) (r_leader_id r) (r_lead_transferee r) (r_pending_conf_index r) (r_read_only r) (r_election_elapsed r) (r_heartbeat_elapsed r) (r_check_quorum r) (r_pre_vote r) (r_skip_bcast_commit r) (r_batch_append r) (r_disable_proposal_forwarding r) (r_heartbeat_timeout r) v (r_randomized_election_timeout r) (r_min_election_timeout r) (r_max_election_timeout r) (r_priority r) (r_uncommitted_state r) (r_max_committed_size_per_ready r) (r_prs r) (r_msgs r) (r_draws r).
Definition set_r_randomized_election_timeout {S} (v : usize) (r : Raft S) : Raft S :=
  mkRaft (r_term r) (r_vote r) (r_id r) (r_read_states r) (r_raft_log r) (r_max_inflight r) (r_max_msg_size r) (r_pending_request_snapshot r) (r_state r) (r_promotable r) (r_leader_id r) (r_lead_transferee r) (r_pending_conf_index r) (r_read_only r) (r_election_elapsed r) (r_heartbeat_elapsed r) (r_check_quorum r) (r_pre_vote r) (r_skip_bcast_commit r) (r_batch_append r) (r_disable_proposal_forwarding r) (r_heartbeat_timeout r) (r_election_timeout r) v (r_min_election_timeout r) (r_max_election_timeout r) (r_priority r) (r_uncommitted_state r) (r_max_committed_size_per_ready r) (r_prs r) (r_msgs r) (r_draws r).
Definition set_r_min_election_timeout {S} (v : usize) (r : Raft S) : Raft S :=
  mkRaft (r_term r) (r_vote r) (r_id r) (r_read_states r) (r_raft_log r) (r_max_inflight r) (r_max_msg_size r) (r_pending_request_snapshot r) (r_state r) (r_promotable r) (r_leader_id r) (r_lead_transferee r) (r_pending_conf_index r) (r_read_only r) (r_election_elapsed r) (r_heartbeat_elapsed r) (r_check_quorum r) (r_pre_vote r) (r_skip_bcast_commit r) (r_batch_append r) (r_disable_proposal_forwarding r) (r_heartbeat_timeout r) (r_election_timeout r) (r_randomized_election_timeout r) v (r_max_election_timeout r) (r_priority r) (r_uncommitted_state r) (r_max_committed_size_per_ready r) (r_prs r) (r_msgs r) (r_draws r).
Definition set_r_max_election_timeout {S} (v : usize) (r : Raft S) : Raft S :=
  mkRaft (r_term r) (r_vote r) (r_id r) (r_read_states r) (r_raft_log r) (r_max_inflight r) (r_max_msg_size r) (r_pending_request_snapshot r) (r_state r) (r_promotable r) (r_leader_id r) (r_lead_transferee r) (r_pending_conf_index r) (r_read_only r) (r_election_elapsed r) (r_heartbeat_elapsed r) (r_check_quorum r) (r_pre_vote r) (r_skip_bcast_commit r) (r_batch_append r) (r_disable_proposal_forwarding r) (r_heartbeat_timeout r) (r_election_timeout r) (r_randomized_election_timeout r) (r_min_election_timeout r) v (r_priority r) (r_uncommitted_state r) (r_max_committed_size_per_ready r) (r_prs r) (r_msgs r) (r_draws r).
Definition set_r_priority {S} (v : Z) (r : Raft S) : Raft S :=
  mkRaft (r_term r) (r_vote r) (r_id r) (r_read_states r) (r_raft_log r) (r_max_inflight r) (r_max_msg_size r) (r_pending_request_snapshot r) (r_state r) (r_promotable r) (r_leader_id r) (r_lead_transferee r) (r_pending_conf_index r) (r_read_only r) (r_election_elapsed r) (r_heartbeat_elapsed r) (r_check_quorum r) (r_pre_vote r) (r_skip_bcast_commit r) (r_batch_append r) (r_disable_proposal_forwarding r) (r_heartbeat_timeout r) (r_election_timeout r) (r_randomized_election_timeout r) (r_min_election_timeout r) (r_max_election_timeout r) v (r_uncommitted_state r) (r_max_committed_size_per_ready r) (r_prs r) (r_msgs r) (r_draws r).
Definition set_r_uncommitted_state {S} (v : UncommittedState) (r : Raft S) : Raft S :=
  mkRaft (r_term r) (r_vote r) (r_id r) (r_read_states r) (r_raft_log r) (r_max_inflight r) (r_max_msg_size r) (r_pending_request_snapshot r) (r_state r) (r_promotable r) (r_leader_id r) (r_lead_transferee r) (r_pending_conf_index r) (r_read_only r) (r_election_elapsed r) (r_heartbeat_elapsed r) (r_check_quorum r) (r_pre_vote r) (r_skip_bcast_commit r) (r_batch_append r) (r_disable_proposal_forwarding r) (r_heartbeat_timeout r) (r_election_timeout r) (r_randomized_election_timeout r) (r_min_election_timeout r) (r_max_election_timeout r) (r_priority r) v (r_max_committed_size_per_ready r) (r_prs r) (r_msgs r) (r_draws r).
Definition set_r_max_committed_size_per_ready {S} (v : u64) (r : Raft S) : Raft S :=
  mkRaft (r_term r) (r_vote r) (r_id r) (r_read_states r) (r_raft_log r) (r_max_inflight r) (r_max_msg_size r) (r_pending_request_snapshot r) (r_state r) (r_promotable r) (r_leader_id r) (r_lead_transferee r) (r_pending_conf_index r) (r_read_only r) (r_election_elapsed r) (r_heartbeat_elapsed r) (r_check_quorum r) (r_pre_vote r) (r_skip_bcast_commit r) (r_batch_append r) (r_disable_proposal_forwarding r) (r_heartbeat_timeout r) (r_election_timeout r) (r_randomized_election_timeout r) (r_min_election_timeout r) (r_max_election_timeout r) (r_priority r) (r_uncommitted_state r) v (r_prs r) (r_msgs r) (r_draws r).
Definition set_r_prs {S} (v : ProgressTracker) (r : Raft S) : Raft S :=
  mkRaft (r_term r) (r_vote r) (r_id r) (r_read_states r) (r_raft_log r) (r_max_inflight r) (r_max_msg_size r) (r_pending_request_snapshot r) (r_state r) (r_promotable r) (r_leader_id r) (r_lead_transferee r) (r_pending_conf_index r) (r_read_only r) (r_election_elapsed r) (r_heartbeat_elapsed r) (r_check_quorum r) (r_pre_vote r) (r_skip_bcast_commit r) (r_batch_append r) (r_disable_proposal_forwarding r) (r_heartbeat_timeout r) (r_election_timeout r) (r_randomized_election_timeout r) (r_min_election_timeout r) (r_max_election_timeout r) (r_priority r) (r_uncommitted_state r) (r_max_committed_size_per_ready r) v (r_msgs r) (r_draws r).
Definition set_r_msgs {S} (v : list Message) (r : Raft S) : Raft S :=
  mkRaft (r_term r) (r_vote r) (r_id r) (r_read_states r) (r_raft_log r) (r_max_inflight r) (r_max_msg_size r) (r_pending_request_snapshot r) (r_state r) (r_promotable r) (r_leader_id r) (r_lead_transferee r) (r_pending_conf_index r) (r_read_only r) (r_election_elapsed r) (r_heartbeat_elapsed r) (r_check_quorum r) (r_pre_vote r) (r_skip_bcast_commit r) (r_batch_append r) (r_disable_proposal_forwarding r) (r_heartbeat_timeout r) (r_election_timeout r) (r_randomized_election_timeout r) (r_min_election_timeout r) (r_max_election_timeout r) (r_priority r) (r_uncommitted_state r) (r_max_committed_size_per_ready r) (r_prs r) v (r_draws r).
Definition set_r_draws {S} (v : N) (r : Raft S) : Raft S :=
  mkRaft (r_term r) (r_vote r) (r_id r) (r_read_states r) (r_raft_log r) (r_max_inflight r) (r_max_msg_size r) (r_pending_request_snapshot r) (r_state r) (r_promotable r) (r_leader_id r) (r_lead_transferee r) (r_pending_conf_index r) (r_read_only r) (r_election_elapsed r) (r_heartbeat_elapsed r) (r_check_quorum r) (r_pre_vote r) (r_skip_bcast_commit r) (r_batch_append r) (r_disable_proposal_forwarding r) (r_heartbeat_timeout r) (r_election_timeout r) (r_randomized_election_timeout r) (r_min_election_timeout r) (r_max_election_timeout r) (r_priority r) (r_uncommitted_state r) (r_max_committed_size_per_ready r) (r_prs r) (r_msgs r) v.

(** ** The monad of the methods *)

Definition rm (S A : Type) : Type := Raft S → outcome (Raft S * A).
#[global] Instance rm_ret {S} : MRet (rm S) := λ A a r, Done (r, a).
#[global] Instance rm_bind {S} : MBind (rm S) := λ A B f m r, '(r, a) ← m r; f a r.

Definition lift {S A} (m : outcome A) : rm S A := λ r, a ← m; Done (r, a).
Definition gets {S A} (f : Raft S → A) : rm S A := λ r, Done (r, f r).
Definition modify {S} (f : Raft S → Raft S) : rm S unit := λ r, Done (f r, ()).
(** A read that may panic. *)
Definition asks {S A} (f : Raft S → outcome A) : rm S A := λ r, a ← f r; Done (r, a).
Definition panics {S A} (p : panic) : rm S A := λ _, Panic p.
Definition when {S} (b : bool) (m : rm S unit) : rm S unit := if b then m else mret ().

(** A method of the log, of the tracker, and of the progress of a peer that must
    be there ([get_mut(id).unwrap()]). *)
Definition with_log {S A} (f : RaftLog S → outcome (RaftLog S * A)) : rm S A := λ r,
  '(l, a) ← f (r_raft_log r); Done (set_r_raft_log l r, a).
Definition update_log {S} (f : RaftLog S → outcome (RaftLog S)) : rm S unit := λ r,
  l ← f (r_raft_log r); Done (set_r_raft_log l r, ()).
Definition with_prs {S A} (f : ProgressTracker → outcome (ProgressTracker * A)) : rm S A := λ r,
  '(p, a) ← f (r_prs r); Done (set_r_prs p r, a).
Definition modify_prs {S} (f : ProgressTracker → ProgressTracker) : rm S unit :=
  modify (λ r, set_r_prs (f (r_prs r)) r).
Definition put_pr {S} (id : u64) (pr : Progress) : rm S unit := modify_prs (Tracker.put id pr).
Definition unwrap_pr {S} (id : u64) : rm S Progress := asks (λ r, unwrap (Tracker.get id (r_prs r))).

(** [for (id, pr) in prs.iter_mut() { .. }]: the body gets and returns the progress. *)
Fixpoint for_progress_list {S} (f : u64 → Progress → rm S Progress) (l : list (N * Progress)) : rm S unit :=
  match l with
  | [] => mret ()
  | (id, pr) :: l => pr ← f id pr; put_pr id pr;; for_progress_list f l
  end.
Definition for_progress {S} `{HashOrder} (f : u64 → Progress → rm S Progress) : rm S unit :=
  l ← gets (λ r, iter_map (pt_progress (r_prs r))); for_progress_list f l.
(** The same for everybody but this node. *)
Definition for_peers {S} `{HashOrder} (f : u64 → Progress → rm S Progress) : rm S unit :=
  self_id ← gets r_id;
  l ← gets (λ r, iter_map (pt_progress (r_prs r)));
  for_progress_list f (filter (λ p, p.1 ≠ self_id) l).

Definition new_message (to : u64) (field_type : MessageType) (from : option u64) : Message :=
  let m := set_m_to to Message_default in
  let m := match from with Some id => set_m_from id m | None => m end in
  set_m_type field_type m.

Definition i64_max : Z := 9223372036854775807.
Definition get_priority (m : Message) : Z :=
  if negb (m_priority m =? 0)%Z then m_priority m
  else Z.min (Z.of_N (m_deprecated_priority m)) i64_max.

Definition vote_resp_msg_type (t : MessageType) : outcome MessageType :=
  match t with
  | MsgRequestVote => Done MsgRequestVoteResponse
  | MsgRequestPreVote => Done MsgRequestPreVoteResponse
  | _ => Panic Fatal
  end.

(** ** Accessors and switches *)

Definition snap {S} (self : Raft S) : option Proto.Snapshot := u_snapshot (l_unstable (r_raft_log self)).
Definition soft_state {S} (self : Raft S) : SoftState := mkSoftState (r_leader_id self) (r_state self).
Definition hard_state {S} (self : Raft S) : HardState :=
  mkHardState (r_term self) (r_vote self) (l_committed (r_raft_log self)).
Definition in_lease {S} (self : Raft S) : bool :=
  bool_decide (r_state self = Leader) && r_check_quorum self.
Definition has_pending_conf {S} (self : Raft S) : bool :=
  l_applied (r_raft_log self) <? r_pending_conf_index self.
Definition should_bcast_commit {S} (self : Raft S) : bool :=
  negb (r_skip_bcast_commit self) || has_pending_conf self.
Definition pass_election_timeout {S} (self : Raft S) : bool :=
  r_randomized_election_timeout self <=? r_election_elapsed self.
Definition group_commit {S} (self : Raft S) : bool := pt_group_commit (r_prs self).
Definition pending_read_count {S} (self : Raft S) : usize := ReadOnly.pending_read_count (r_read_only self).
Definition ready_read_count {S} (self : Raft S) : usize := len (r_read_states self).

Definition set_priority {S} (priority : Z) : rm S unit := modify (set_r_priority priority).
Definition set_randomized_election_timeout {S} (t : usize) : rm S unit :=
  asks (λ r, assert ((r_min_election_timeout r <=? t) && (t <? r_max_election_timeout r)));;
  modify (set_r_randomized_election_timeout t).
Definition skip_bcast_commit {S} (skip : bool) : rm S unit := modify (set_r_skip_bcast_commit skip).
Definition set_batch_append {S} (batch_append : bool) : rm S unit := modify (set_r_batch_append batch_append).
Definition set_max_committed_size_per_ready {S} (size : u64) : rm S unit :=
  modify (set_r_max_committed_size_per_ready size).
Definition set_check_quorum {S} (check_quorum : bool) : rm S unit := modify (set_r_check_quorum check_quorum).
Definition set_max_apply_unpersisted_log_limit {S} (limit : u64) : rm S unit :=
  modify (λ r, set_r_raft_log (set_l_max_apply_unpersisted_log_limit limit (r_raft_log r)) r).
Definition abort_leader_transfer {S} : rm S unit := modify (set_r_lead_transferee None).
