(* ===== verification/RaftSend.v ===== *)
(** * Sending ([src/raft.rs], [impl RaftCore] and the broadcasts of [impl Raft])

    What the node puts into its outbox: heartbeats, appends with their batching
    and their fallback to snapshots, and read-index answers. The methods of
    [RaftCore] get the progress of the receiver by reference and do not touch the
    tracker; here they take it and return it. *)
From S2P Require Import Prelude Errors Proto Util Quorum Storage Unstable ReadOnly Config.
From S2P Require Import Progress Tracker RaftLog RaftState.
#[local] Open Scope N_scope.

Section sending.
Context {S : Type} `{Storage S, PbMessage, HashOrder}.

Definition is_vote_msg (t : MessageType) : bool :=
  match t with
  | MsgRequestVote | MsgRequestPreVote | MsgRequestVoteResponse | MsgRequestPreVoteResponse => true
  | _ => false
  end.

(** [RaftCore::send] up to the push: the message as it leaves the node. *)
Definition stamp (m : Message) (self : Raft S) : outcome Message :=
  let m := if m_from m =? INVALID_ID then set_m_from (r_id self) m else m in
  m ← (if is_vote_msg (m_type m)
       then if m_term m =? 0 then Panic Fatal else Done m
       else if negb (m_term m =? 0) then Panic Fatal
       else match m_type m with
            | MsgPropose | MsgReadIndex => Done m
            | _ => Done (set_m_term (r_term self) m)
            end);
  match m_type m with
  | MsgRequestVote | MsgRequestPreVote =>
      let m := if (0 <? r_priority self)%Z
               then set_m_deprecated_priority (Z.to_N (r_priority self)) m else m in
      Done (set_m_priority (r_priority self) m)
  | _ => Done m
  end.

Definition push_msg (m : Message) : rm S unit := modify (λ r, set_r_msgs (r_msgs r ++ [m]) r).
Definition send (m : Message) : rm S unit := m ← asks (stamp m); push_msg m.

Definition prepare_send_snapshot (m : Message) (pr : Progress) (to : u64)
    : rm S (Message * Progress * bool) :=
  if negb (pr_recent_active pr) then mret (m, pr, false)
  else
    let m := set_m_type MsgSnapshot m in
    snapshot_r ← with_log (RaftLog.snapshot (pr_pending_request_snapshot pr) to);
    match snapshot_r with
    | Err e =>
        if Error_eq e (Store SnapshotTemporarilyUnavailable)
        then mret (m, pr, false) else panics Fatal
    | Ok snapshot =>
        let sindex := sm_index (s_metadata snapshot) in
        if sindex =? 0 then panics Fatal
        else mret (set_m_snapshot snapshot m, become_snapshot sindex pr, true)
    end.

Definition prepare_send_entries (m : Message) (pr : Progress) (term : u64) (ents : list Entry)
    : rm S (Message * Progress) :=
  let m := set_m_type MsgAppend m in
  index ← lift (pr_next_idx pr -! 1);
  committed ← gets (λ r, l_committed (r_raft_log r));
  let m := set_m_index index m in
  let m := set_m_log_term term m in
  let m := set_m_entries ents m in
  let m := set_m_commit committed m in
  match last ents with
  | Some e => pr ← lift (update_state (e_index e) pr); mret (m, pr)
  | None => mret (m, pr)
  end.

(** The loop of [try_batching] over the messages already in the outbox; the
    result tells whether the entries went into one of them. *)
Fixpoint batch_into (to committed : u64) (ents : list Entry) (msgs : list Message) (pr : Progress)
    : outcome (list Message * Progress * bool) :=
  match msgs with
  | [] => Done ([], pr, false)
  | msg :: msgs' =>
      if bool_decide (m_type msg = MsgAppend) && (m_to msg =? to) then
        if bool_decide (ents = []) then Done (set_m_commit committed msg :: msgs', pr, true)
        else
          continuous ← is_continuous_ents msg ents;
          if negb continuous then Done (msgs, pr, false)
          else
            let batched := m_entries msg ++ ents in
            last_entry ← unwrap (last batched);
            pr ← update_state (e_index last_entry) pr;
            Done (set_m_commit committed (set_m_entries batched msg) :: msgs', pr, true)
      else
        '(msgs', pr, is_batched) ← batch_into to committed ents msgs' pr;
        Done (msg :: msgs', pr, is_batched)
  end.
Definition try_batching (to : u64) (pr : Progress) (ents : list Entry) : rm S (Progress * bool) := λ r,
  '(msgs, pr, is_batched) ← batch_into to (l_committed (r_raft_log r)) ents (r_msgs r) pr;
  Done (set_r_msgs msgs r, (pr, is_batched)).

(** The last step of [maybe_send_append] on the snapshot paths. *)
Definition send_snapshot_instead (m : Message) (pr : Progress) (to : u64) : rm S (Progress * bool) :=
  '(m, pr, ok) ← prepare_send_snapshot m pr to;
  if negb ok then mret (pr, false) else send m;; mret (pr, true).

Definition maybe_send_append (to : u64) (pr : Progress) (allow_empty : bool) : rm S (Progress * bool) :=
  if is_paused pr then mret (pr, false)
  else
    let m := set_m_to to Message_default in
    if negb (pr_pending_request_snapshot pr =? INVALID_INDEX) then send_snapshot_instead m pr to
    else
      max_msg_size ← gets r_max_msg_size;
      term ← gets r_term;
      ents ← with_log (RaftLog.entries (pr_next_idx pr) (Some max_msg_size)
                         (SendAppend to term (negb allow_empty)));
      if negb allow_empty && match ents with Ok e => bool_decide (e = []) | Err _ => true end
      then mret (pr, false)
      else
        prev ← lift (pr_next_idx pr -! 1);
        term ← asks (λ r, RaftLog.term prev (r_raft_log r));
        match term, ents with
        | Ok term, Ok ents =>
            batch_append ← gets r_batch_append;
            '(pr, batched) ← (if batch_append : bool then try_batching to pr ents else mret (pr, false));
            if (batched : bool) then mret (pr, true)
            else
              '(m, pr) ← prepare_send_entries m pr term ents;
              send m;; mret (pr, true)
        | _, Err (Store LogTemporarilyUnavailable) => mret (pr, false)
        | _, _ => send_snapshot_instead m pr to
        end.

(** [RaftCore::send_append], [RaftCore::send_append_aggressively] *)
Definition core_send_append (to : u64) (pr : Progress) : rm S Progress :=
  '(pr, _) ← maybe_send_append to pr true; mret pr.

(** [while maybe_send_append(..) {}] *)
Fixpoint send_append_loop (fuel : nat) (to : u64) (pr : Progress) : rm S Progress :=
  match fuel with
  | O => λ _, NoFuel
  | Datatypes.S fuel =>
      '(pr, sent) ← maybe_send_append to pr false;
      if (sent : bool) then send_append_loop fuel to pr else mret pr
  end.
(** Every round but the last sends an entry beyond [next_idx], or pauses the peer. *)
Definition core_send_append_aggressively (to : u64) (pr : Progress) : rm S Progress :=
  fuel ← gets (λ r, match RaftLog.last_index (r_raft_log r) with
                    | Done last => N.to_nat (last + 1 - pr_next_idx pr)
                    | _ => O
                    end);
  send_append_loop (fuel + 3) to pr.

Definition core_send_heartbeat (to : u64) (pr : Progress) (ctx : option bytes) : rm S unit :=
  let m := set_m_type MsgHeartbeat (set_m_to to Message_default) in
  committed ← gets (λ r, l_committed (r_raft_log r));
  let m := set_m_commit (N.min (pr_matched pr) committed) m in
  send (match ctx with Some context => set_m_context context m | None => m end).

(** ** [impl Raft] *)

(** [self.prs.get_mut(to).unwrap()] followed by a method of [RaftCore] on it. *)
Definition on_peer (to : u64) (f : Progress → rm S Progress) : rm S unit :=
  pr ← unwrap_pr to; pr ← f pr; put_pr to pr.
Definition send_append (to : u64) : rm S unit := on_peer to (core_send_append to).
Definition send_append_aggressively (to : u64) : rm S unit :=
  on_peer to (core_send_append_aggressively to).
Definition bcast_append : rm S unit := for_peers core_send_append.
Definition bcast_heartbeat_with_ctx (ctx : option bytes) : rm S unit :=
  for_peers (λ id pr, core_send_heartbeat id pr ctx;; mret pr).
Definition bcast_heartbeat : rm S unit :=
  ctx ← gets (λ r, last_pending_request_ctx (r_read_only r)); bcast_heartbeat_with_ctx ctx.
Definition ping : rm S unit :=
  st ← gets r_state; when (bool_decide (st = Leader)) bcast_heartbeat.

Definition send_timeout_now (to : u64) : rm S unit := send (new_message to MsgTimeoutNow None).

Definition maybe_commit : rm S bool :=
  '(mci, _) ← asks (λ r, maximal_committed_index (r_prs r));
  term ← gets r_term;
  ok ← with_log (RaftLog.maybe_commit mci term);
  if (ok : bool) then
    self_id ← gets r_id;
    committed ← gets (λ r, l_committed (r_raft_log r));
    pr ← unwrap_pr self_id;
    put_pr self_id (update_committed committed pr);;
    mret true
  else mret false.

Definition send_request_snapshot : rm S unit :=
  reject_hint ← asks (λ r, RaftLog.last_index (r_raft_log r));
  log_term ← asks (λ r, t ← RaftLog.term reject_hint (r_raft_log r); unwrap_r t);
  committed ← gets (λ r, l_committed (r_raft_log r));
  leader_id ← gets r_leader_id;
  pending ← gets r_pending_request_snapshot;
  send (set_m_log_term log_term
         (set_m_request_snapshot pending
           (set_m_to leader_id
             (set_m_reject_hint reject_hint
               (set_m_reject true
                 (set_m_index committed
                   (set_m_type MsgAppendResponse Message_default))))))).

Definition handle_ready_read_index (req : Message) (index : u64) : rm S (option Message) :=
  self_id ← gets r_id;
  if (m_from req =? INVALID_ID) || (m_from req =? self_id) then
    e ← lift (vindex (m_entries req) 0);
    modify (λ r, set_r_read_states (r_read_states r ++ [mkReadState index (e_data e)]) r);;
    mret None
  else
    mret (Some (set_m_entries (m_entries req)
                 (set_m_index index
                   (set_m_to (m_from req)
                     (set_m_type MsgReadIndexResp Message_default))))).

(** [if let Some(m) = self.handle_ready_read_index(m, index) { send(m) }] *)
Definition answer_read (m : Message) (index : u64) : rm S unit :=
  resp ← handle_ready_read_index m index;
  match resp with Some m => send m | None => mret () end.
Fixpoint answer_reads (rss : list ReadIndexStatus) : rm S unit :=
  match rss with
  | [] => mret ()
  | rs :: rss => answer_read (ris_req rs) (ris_index rs);; answer_reads rss
  end.
(** [for rs in self.r.read_only.advance(ctx, ..) { .. }] *)
Definition release_reads (ctx : bytes) : rm S unit :=
  rss ← (λ r, '(ro, rss) ← advance ctx (r_read_only r); Done (set_r_read_only ro r, rss));
  answer_reads rss.
End sending.
