(* ===== verification/RaftLogic.v ===== *)
(** * A logic for the methods of [Raft]

    [keeps R m]: when [m] returns, the state before and after are related by the
    preorder [R]. [safe I m]: from a state in [I], [m] never runs out of fuel, and
    when it returns the state is in [I] again. The tactics [keeps] and [safe] walk
    through a method; the database [raft_keeps] holds the methods already done. *)
From S2P Require Import Prelude Errors Proto Util Quorum Storage Unstable ReadOnly Config.
From S2P Require Import Progress Tracker RaftLog RaftState RaftSend.
#[local] Open Scope N_scope.

Definition keeps {S A} (R : relation (Raft S)) (m : rm S A) : Prop :=
  ∀ r r' a, m r = Done (r', a) → R r r'.

Definition safe {S A} (I : Raft S → Prop) (m : rm S A) : Prop :=
  ∀ r, I r → match m r with Done (r', _) => I r' | Panic _ => True | NoFuel => False end.

(** ** Structural rules *)
Section keeps.
Context {S : Type} (R : relation (Raft S)) `{!PreOrder R}.

Lemma keeps_ret {A} (a : A) : keeps R (mret a : rm S A).
Proof. intros r r' a' E. injection E as <- <-. reflexivity. Qed.
Lemma keeps_bind {A B} (m : rm S A) (f : A → rm S B) :
  keeps R m → (∀ a, keeps R (f a)) → keeps R (m ≫= f).
Proof.
  intros Hm Hf r r' b E. unfold mbind, rm_bind in E. apply bind_Done in E as ([r1 a] & E1 & E2).
  transitivity r1; [by eapply Hm|by eapply Hf].
Qed.
(** The bind rule when the rest depends on what is known of the value. *)
Lemma keeps_bind_val {A B} (Q : A → Prop) (m : rm S A) (f : A → rm S B) :
  keeps R m → (∀ r r' a, m r = Done (r', a) → Q a) → (∀ a, Q a → keeps R (f a)) → keeps R (m ≫= f).
Proof.
  intros Hm HQ Hf r r' b E. unfold mbind, rm_bind in E. apply bind_Done in E as ([r1 a] & E1 & E2).
  transitivity r1; [by eapply Hm|]. eapply Hf; [|done]. by eapply HQ.
Qed.
Lemma keeps_lift {A} (m : outcome A) : keeps R (lift m : rm S A).
Proof. intros r r' a E. unfold lift in E. inv_done. reflexivity. Qed.
Lemma keeps_gets {A} (f : Raft S → A) : keeps R (gets f).
Proof. intros r r' a E. injection E as <- <-. reflexivity. Qed.
Lemma keeps_asks {A} (f : Raft S → outcome A) : keeps R (asks f).
Proof. intros r r' a E. unfold asks in E. inv_done. reflexivity. Qed.
Lemma keeps_panics {A} p : keeps R (panics p : rm S A).
Proof. done. Qed.
Lemma keeps_nofuel {A} : keeps R ((λ _, NoFuel) : rm S A).
Proof. done. Qed.
Lemma keeps_modify f : (∀ r, R r (f r)) → keeps R (modify f).
Proof. intros Hf r r' a E. injection E as <- <-. apply Hf. Qed.
Lemma keeps_when b (m : rm S unit) : keeps R m → keeps R (when b m).
Proof. destruct b; [done|]. intros _. apply keeps_ret. Qed.
Lemma keeps_with_log {A} (f : RaftLog S → outcome (RaftLog S * A)) :
  (∀ r l a, f (r_raft_log r) = Done (l, a) → R r (set_r_raft_log l r)) → keeps R (with_log f).
Proof.
  intros Hf r r' a E. unfold with_log in E. apply bind_Done in E as ([l x] & E1 & E2).
  injection E2 as <- <-. by eapply Hf.
Qed.
Lemma keeps_update_log (f : RaftLog S → outcome (RaftLog S)) :
  (∀ r l, f (r_raft_log r) = Done l → R r (set_r_raft_log l r)) → keeps R (update_log f).
Proof.
  intros Hf r r' a E. unfold update_log in E. apply bind_Done in E as (l & E1 & E2).
  injection E2 as <- <-. by apply Hf.
Qed.
Lemma keeps_with_prs {A} (f : ProgressTracker → outcome (ProgressTracker * A)) :
  (∀ r p a, f (r_prs r) = Done (p, a) → R r (set_r_prs p r)) → keeps R (with_prs f).
Proof.
  intros Hf r r' a E. unfold with_prs in E. apply bind_Done in E as ([p x] & E1 & E2).
  injection E2 as <- <-. by eapply Hf.
Qed.
Lemma keeps_modify_prs f : (∀ r, R r (set_r_prs (f (r_prs r)) r)) → keeps R (modify_prs f).
Proof. apply keeps_modify. Qed.
Lemma keeps_for_progress_list f l :
  (∀ id pr r, R r (set_r_prs (Tracker.put id pr (r_prs r)) r)) →
  (∀ id pr, keeps R (f id pr)) → keeps R (for_progress_list f l).
Proof.
  intros Hput Hf. induction l as [|[id pr] l IH]; simpl; [apply keeps_ret|].
  apply keeps_bind; [apply Hf|]. intros pr'. apply keeps_bind; [|intros _; apply IH].
  apply keeps_modify_prs. intros r. apply Hput.
Qed.

Lemma keeps_sub (R' : relation (Raft S)) {A} (m : rm S A) :
  keeps R' m → (∀ r r', R' r r' → R r r') → keeps R m.
Proof. intros Hm Hs r r' a E. by eapply Hs, Hm. Qed.
End keeps.

Create HintDb raft_keeps.
#[export] Hint Resolve keeps_ret keeps_lift keeps_gets keeps_asks keeps_panics keeps_nofuel : raft_keeps.

(** One step through a method. A leaf is closed by the database or left to
    [tac], which has to show that one assignment respects the relation. *)
Ltac keeps_step tac :=
  match goal with
  | |- ∀ _, _ => intro
  | |- keeps _ (mbind _ _) => solve [eauto 3 with raft_keeps typeclass_instances]
  | |- keeps _ (mbind _ _) => apply keeps_bind; [typeclasses eauto| |]
  | |- keeps _ (when _ _) => apply keeps_when; [typeclasses eauto|]
  | |- keeps _ (match ?x with _ => _ end) => destruct x eqn:?
  | |- keeps _ _ => solve [eauto with raft_keeps typeclass_instances]
  | |- keeps _ (modify _) => apply keeps_modify; intro; tac
  | |- keeps _ (modify_prs _) => apply keeps_modify_prs; intro; tac
  | |- keeps _ (put_pr _ _) => apply keeps_modify_prs; intro; tac
  | |- keeps _ (with_log _) => apply keeps_with_log; intros; tac
  | |- keeps _ (update_log _) => apply keeps_update_log; intros; tac
  | |- keeps _ (with_prs _) => apply keeps_with_prs; intros; tac
  end.
Ltac keeps tac := repeat (keeps_step tac).
(** The same for what is left of a run that has been inverted so far. *)
Ltac keeps_run E tac :=
  match type of E with
  | ?m _ = _ => match goal with
                | |- ?R _ _ => let Hk := fresh in assert (keeps R m) as Hk by (keeps tac); by eapply Hk
                end
  end.

(** ** Inverting a run of a method *)
Section invert.
Context {S : Type}.
Implicit Types r : Raft S.

Lemma rm_bind_Done {A B} (m : rm S A) (f : A → rm S B) r r' b :
  (m ≫= f) r = Done (r', b) ↔ ∃ r1 a, m r = Done (r1, a) ∧ f a r1 = Done (r', b).
Proof.
  unfold mbind, rm_bind. rewrite bind_Done. split.
  - intros ([r1 a] & E1 & E2). eauto.
  - intros (r1 & a & E1 & E2). by exists (r1, a).
Qed.
Lemma rm_ret_Done {A} (a a' : A) r r' : (mret a : rm S A) r = Done (r', a') ↔ r' = r ∧ a' = a.
Proof. unfold mret, rm_ret. naive_solver. Qed.
Lemma rm_gets_Done {A} (f : Raft S → A) a r r' : gets f r = Done (r', a) ↔ r' = r ∧ a = f r.
Proof. unfold gets. naive_solver. Qed.
Lemma rm_modify_Done (f : Raft S → Raft S) u r r' : modify f r = Done (r', u) ↔ r' = f r.
Proof. unfold modify. destruct u. naive_solver. Qed.
Lemma rm_asks_Done {A} (f : Raft S → outcome A) a r r' : asks f r = Done (r', a) ↔ r' = r ∧ f r = Done a.
Proof. unfold asks. rewrite bind_Done. naive_solver. Qed.
Lemma rm_lift_Done {A} (m : outcome A) a r r' : (lift m : rm S A) r = Done (r', a) ↔ r' = r ∧ m = Done a.
Proof. unfold lift. rewrite bind_Done. naive_solver. Qed.
Lemma rm_with_log_Done {A} (f : RaftLog S → outcome (RaftLog S * A)) a r r' :
  with_log f r = Done (r', a) ↔ ∃ l, f (r_raft_log r) = Done (l, a) ∧ r' = set_r_raft_log l r.
Proof. unfold with_log. rewrite bind_Done. split; [intros ([? ?] & ? & ?)|intros (? & ? & ?); eexists (_, _)]; naive_solver. Qed.
Lemma rm_update_log_Done (f : RaftLog S → outcome (RaftLog S)) u r r' :
  update_log f r = Done (r', u) ↔ ∃ l, f (r_raft_log r) = Done l ∧ r' = set_r_raft_log l r.
Proof. unfold update_log. rewrite bind_Done. destruct u. naive_solver. Qed.
Lemma rm_with_prs_Done {A} (f : ProgressTracker → outcome (ProgressTracker * A)) a r r' :
  with_prs f r = Done (r', a) ↔ ∃ p, f (r_prs r) = Done (p, a) ∧ r' = set_r_prs p r.
Proof. unfold with_prs. rewrite bind_Done. split; [intros ([? ?] & ? & ?)|intros (? & ? & ?); eexists (_, _)]; naive_solver. Qed.
Lemma rm_unwrap_pr_Done id pr r r' :
  unwrap_pr id r = Done (r', pr) ↔ r' = r ∧ Tracker.get id (r_prs r) = Some pr.
Proof. unfold unwrap_pr. by rewrite rm_asks_Done, unwrap_Done. Qed.
Lemma rm_when_Done b (m : rm S unit) u r r' :
  when b m r = Done (r', u) ↔ if b then m r = Done (r', ()) else r' = r.
Proof. unfold when. destruct b, u; [done|]. rewrite rm_ret_Done. naive_solver. Qed.
End invert.

Ltac inv_rm1 :=
  match goal with
  | H : mbind _ _ _ = Done (_, _) |- _ =>
      let r := fresh "r" in let a := fresh "a" in let Hr := fresh "Hr" in
      apply rm_bind_Done in H as (r & a & Hr & H)
  | H : mret _ _ = Done (_, _) |- _ => apply rm_ret_Done in H as [? ?]; subst
  | H : gets _ _ = Done (_, _) |- _ => apply rm_gets_Done in H as [? ?]; subst
  | H : modify _ _ = Done (_, _) |- _ => apply rm_modify_Done in H; subst
  | H : modify_prs _ _ = Done (_, _) |- _ => apply rm_modify_Done in H; subst
  | H : put_pr _ _ _ = Done (_, _) |- _ => apply rm_modify_Done in H; subst
  | H : asks _ _ = Done (_, _) |- _ => apply rm_asks_Done in H as [? H]; subst
  | H : lift _ _ = Done (_, _) |- _ => apply rm_lift_Done in H as [? H]; subst
  | H : with_log _ _ = Done (_, _) |- _ =>
      let l := fresh "l" in apply rm_with_log_Done in H as (l & H & ?); subst
  | H : update_log _ _ = Done (_, _) |- _ =>
      let l := fresh "l" in apply rm_update_log_Done in H as (l & H & ?); subst
  | H : with_prs _ _ = Done (_, _) |- _ =>
      let p := fresh "p" in apply rm_with_prs_Done in H as (p & H & ?); subst
  | H : unwrap_pr _ _ = Done (_, _) |- _ => apply rm_unwrap_pr_Done in H as [? H]; subst
  | H : panics _ _ = Done (_, _) |- _ => discriminate H
  | H : when ?b _ _ = Done (_, _) |- _ => apply rm_when_Done in H
  | x : unit |- _ => destruct x
  end.
Ltac inv_rm := repeat inv_rm1.

(** ** What sending may change *)
(** A vote granted to a candidate: the only kind of message that promises
    something about the sender. *)
Definition is_grant (m : Message) : bool :=
  bool_decide (m_type m = MsgRequestVoteResponse) && negb (m_reject m).
Definition grants (ms : list Message) : list Message := filter (λ m, is_grant m = true) ms.

Lemma grants_app ms1 ms2 : grants (ms1 ++ ms2) = grants ms1 ++ grants ms2.
Proof. apply filter_app. Qed.
Lemma grants_other m : is_grant m = false → grants [m] = [].
Proof. intros Hm. unfold grants. by rewrite filter_cons_False, filter_nil by congruence. Qed.

Ltac solve_grant :=
  first [ assumption | reflexivity | solve [unfold is_grant; simpl; apply andb_false_r]
        | match goal with E : m_type _ = _ |- _ => unfold is_grant; simpl; rewrite E; reflexivity end ].

Section sends.
Context {S : Type} `{Storage S, PbMessage, HashOrder}.

(** Only the outbox (but no new grants), the answered reads, the progress of the peers, and whatever
    the storage records about an access. *)
Definition sends (r r' : Raft S) : Prop :=
  ∃ store progress msgs reads ro,
    r' = set_r_raft_log (set_l_store store (r_raft_log r))
          (set_r_prs (set_pt_progress progress (r_prs r))
            (set_r_msgs msgs (set_r_read_states reads (set_r_read_only ro r)))) ∧
    dom (pt_progress (r_prs r)) ⊆ dom progress ∧ grants msgs = grants (r_msgs r).

#[export] Instance sends_preorder : PreOrder sends.
Proof.
  split.
  - intros r. exists (l_store (r_raft_log r)), (pt_progress (r_prs r)), (r_msgs r), (r_read_states r), (r_read_only r).
    split; [|done]. by destruct r as [? ? ? ? [] ? ? ? ? ? ? ? ? ? ? ? ? ? ? ? ? ? ? ? ? ? ? ? ? [] ? ?].
  - intros r1 r2 r3 (st & p & ms & rs & ro & -> & Hd & Hg) (st' & p' & ms' & rs' & ro' & -> & Hd' & Hg').
    exists st', p', ms', rs', ro'. split; [done|]. simpl in Hd', Hg'. split; [set_solver|congruence].
Qed.

Lemma sends_conf r r' : sends r r' → r_pending_conf_index r' = r_pending_conf_index r.
Proof. by intros (st & p & ms & rs & ro & -> & _). Qed.

(** Assignments to one of these parts. *)
Lemma sends_msgs r ms : grants ms = grants (r_msgs r) → sends r (set_r_msgs ms r).
Proof.
  intros Hg. exists (l_store (r_raft_log r)), (pt_progress (r_prs r)), ms, (r_read_states r), (r_read_only r).
  split; [|done]. by destruct r as [? ? ? ? [] ? ? ? ? ? ? ? ? ? ? ? ? ? ? ? ? ? ? ? ? ? ? ? ? [] ? ?].
Qed.
Lemma sends_reads r rs : sends r (set_r_read_states rs r).
Proof.
  exists (l_store (r_raft_log r)), (pt_progress (r_prs r)), (r_msgs r), rs, (r_read_only r).
  split; [|done]. by destruct r as [? ? ? ? [] ? ? ? ? ? ? ? ? ? ? ? ? ? ? ? ? ? ? ? ? ? ? ? ? [] ? ?].
Qed.
Lemma sends_read_only r ro : sends r (set_r_read_only ro r).
Proof.
  exists (l_store (r_raft_log r)), (pt_progress (r_prs r)), (r_msgs r), (r_read_states r), ro.
  split; [|done]. by destruct r as [? ? ? ? [] ? ? ? ? ? ? ? ? ? ? ? ? ? ? ? ? ? ? ? ? ? ? ? ? [] ? ?].
Qed.
Lemma sends_store r st : sends r (set_r_raft_log (set_l_store st (r_raft_log r)) r).
Proof.
  exists st, (pt_progress (r_prs r)), (r_msgs r), (r_read_states r), (r_read_only r).
  split; [|done]. by destruct r as [? ? ? ? [] ? ? ? ? ? ? ? ? ? ? ? ? ? ? ? ? ? ? ? ? ? ? ? ? [] ? ?].
Qed.
Lemma sends_put r id pr : sends r (set_r_prs (Tracker.put id pr (r_prs r)) r).
Proof.
  exists (l_store (r_raft_log r)), (<[id := pr]> (pt_progress (r_prs r))), (r_msgs r), (r_read_states r), (r_read_only r).
  split; [by destruct r as [? ? ? ? [] ? ? ? ? ? ? ? ? ? ? ? ? ? ? ? ? ? ? ? ? ? ? ? ? [] ? ?]|].
  rewrite dom_insert. split; [set_solver|done].
Qed.

(** Reading the log only touches the storage. *)
Lemma set_store_id (l : RaftLog S) : ∃ st, l = set_l_store st l.
Proof. exists (l_store l). by destruct l. Qed.
Hint Resolve set_store_id : core.

Lemma slice_store lo hi max ctx (l l' : RaftLog S) res :
  RaftLog.slice lo hi max ctx l = Done (l', res) → ∃ st, l' = set_l_store st l.
Proof.
  unfold RaftLog.slice. intros E. inv_done. destruct x as [err|]; inv_done; [eauto|].
  destruct (lo =? hi); inv_done; [eauto|]. destruct x as [l1 part].
  assert (∃ st, l1 = set_l_store st l) as Hl1.
  { clear E. destruct (lo <? _); inv_done; [|eauto]. destruct x as [st r].
    repeat (case_match; inv_done; simplify_eq); eauto. }
  destruct part; inv_done; done.
Qed.
Lemma entries_store idx max ctx (l l' : RaftLog S) res :
  RaftLog.entries idx max ctx l = Done (l', res) → ∃ st, l' = set_l_store st l.
Proof.
  unfold RaftLog.entries. intros E. inv_done. destruct (_ <? _); inv_done; [eauto|].
  by eapply slice_store.
Qed.
Lemma snapshot_store ri to (l l' : RaftLog S) res :
  RaftLog.snapshot ri to l = Done (l', res) → ∃ st, l' = set_l_store st l.
Proof.
  unfold RaftLog.snapshot. intros E.
  repeat (case_match; inv_done; simplify_eq); eauto.
Qed.
Lemma scan_loop_store {A} fuel lo hi ps ctx v (a a' : A) (l l' : RaftLog S) res :
  scan_loop fuel lo hi ps ctx v a l = Done (l', a', res) → ∃ st, l' = set_l_store st l.
Proof.
  revert lo a l. induction fuel as [|fuel IH]; intros lo a l E; [done|]. simpl in E.
  destruct (lo <? hi); [|inv_done; eauto].
  apply bind_Done in E as ([l1 r] & E1 & E2). apply slice_store in E1 as [st ->].
  destruct r as [es|]; [|inv_done; eauto]. case_bool_decide; [inv_done; eauto|].
  inv_done. destruct (v es a) as [a1 c]. destruct c; simpl in *; [|inv_done; eauto].
  apply IH in E2 as [st' ->]. by exists st'.
Qed.

Lemma sends_with_log {A} (f : RaftLog S → outcome (RaftLog S * A)) :
  (∀ l l' a, f l = Done (l', a) → ∃ st, l' = set_l_store st l) → keeps sends (with_log f).
Proof. intros Hf. apply keeps_with_log. intros r l a [st ->]%Hf. apply sends_store. Qed.
Lemma sends_entries idx max ctx : keeps sends (with_log (RaftLog.entries idx max ctx)).
Proof. apply sends_with_log. intros *. apply entries_store. Qed.
Lemma sends_snapshot ri to : keeps sends (with_log (RaftLog.snapshot (S := S) ri to)).
Proof. apply sends_with_log. intros *. apply snapshot_store. Qed.
Hint Resolve sends_entries sends_snapshot sends_reads sends_read_only sends_put : raft_keeps.

(** ** Every sending method *)
Ltac leaf := solve [eauto with raft_keeps].
Hint Extern 2 (is_grant _ = false) => solve_grant : raft_keeps.

(** Stamping fills in the sender, the term and the priority, and nothing else. *)
Lemma stamp_spec m (r : Raft S) m' :
  stamp m r = Done m' →
  m_type m' = m_type m ∧ m_reject m' = m_reject m ∧ m_to m' = m_to m ∧
  m_from m' = (if m_from m =? INVALID_ID then r_id r else m_from m) ∧
  (is_vote_msg (m_type m) = true → m_term m' = m_term m ∧ m_term m ≠ 0).
Proof.
  unfold stamp. intros E. apply bind_Done in E as (m1 & E1 & E).
  set (m0 := if m_from m =? INVALID_ID then set_m_from (r_id r) m else m) in *.
  assert (m_type m0 = m_type m ∧ m_reject m0 = m_reject m ∧ m_to m0 = m_to m ∧ m_term m0 = m_term m ∧
    m_from m0 = (if m_from m =? INVALID_ID then r_id r else m_from m)) as (Ht & Hr & Hto & Htm & Hf)
    by (unfold m0; by destruct (m_from m =? INVALID_ID)).
  assert (m_type m1 = m_type m0 ∧ m_reject m1 = m_reject m0 ∧ m_to m1 = m_to m0 ∧ m_from m1 = m_from m0 ∧
    (is_vote_msg (m_type m) = true → m_term m1 = m_term m ∧ m_term m ≠ 0)) as (Ht1 & Hr1 & Hto1 & Hf1 & Htm1).
  { rewrite <-Ht, <-Htm. destruct (is_vote_msg (m_type m0)) eqn:Hv.
    - destruct (N.eqb_spec (m_term m0) 0); [done|]. by simplify_eq.
    - destruct (negb _); [done|]. destruct (m_type m0) eqn:Em; injection E1 as <-; simpl; by rewrite ?Em. }
  clear E1. clearbody m0. destruct (m_type m1) eqn:Em; injection E as <-;
    try (rewrite ?Em; split_and!; [congruence..|done]).
  all: destruct (0 <? r_priority r)%Z; simpl; split_and!; solve [congruence|done].
Qed.

Lemma send_spec m (r r' : Raft S) u :
  send m r = Done (r', u) → ∃ m', stamp m r = Done m' ∧ r' = set_r_msgs (r_msgs r ++ [m']) r.
Proof. intros E. unfold send, push_msg in E. inv_rm. eauto. Qed.

Lemma send_sends m : is_grant m = false → keeps sends (send (S := S) m).
Proof.
  intros Hm r r' u (m' & Hs & ->)%send_spec. apply sends_msgs.
  rewrite grants_app, grants_other, app_nil_r; [done|].
  apply stamp_spec in Hs as (Ht & Hr & _). unfold is_grant. by rewrite Ht, Hr.
Qed.
Hint Resolve send_sends : raft_keeps.
Lemma prepare_send_snapshot_sends m pr to : keeps sends (prepare_send_snapshot (S := S) m pr to).
Proof. unfold prepare_send_snapshot. keeps leaf. Qed.
Lemma prepare_send_entries_sends m pr t es : keeps sends (prepare_send_entries (S := S) m pr t es).
Proof. unfold prepare_send_entries. keeps leaf. Qed.
Lemma batch_into_grants to c es ms pr ms' pr' b :
  batch_into to c es ms pr = Done (ms', pr', b) → grants ms' = grants ms.
Proof.
  revert pr ms' pr' b. induction ms as [|m ms IH]; intros pr ms' pr' b E; simpl in E; [by simplify_eq|].
  destruct (_ && _) eqn:Hm.
  - apply andb_true_iff in Hm as [Ht%bool_decide_eq_true _].
    assert (∀ m', m_type m' = MsgAppend → grants (m' :: ms) = grants ms) as Hg.
    { intros m' Hm'. unfold grants. rewrite filter_cons_False; [done|]. unfold is_grant. by rewrite Hm'. }
    rewrite (Hg m) by done. case_bool_decide; inv_done; [by apply Hg|].
    destruct x; simpl in E; inv_done; by apply Hg.
  - apply bind_Done in E as ([[ms1 pr1] b1] & E & E'). simplify_eq.
    unfold grants in *. rewrite !filter_cons, (IH _ _ _ _ E). done.
Qed.
Lemma try_batching_sends to pr es : keeps sends (try_batching (S := S) to pr es).
Proof.
  intros r r' a E. unfold try_batching in E. apply bind_Done in E as ([[ms pr'] b] & Hb & E).
  injection E as <- <-. by eapply sends_msgs, batch_into_grants.
Qed.
Hint Resolve prepare_send_snapshot_sends prepare_send_entries_sends try_batching_sends : raft_keeps.
Lemma send_snapshot_instead_sends m pr to :
  is_grant m = false → keeps sends (send_snapshot_instead (S := S) m pr to).
Proof.
  intros Hm. unfold send_snapshot_instead.
  apply (keeps_bind_val _ (λ '(m', _, _), is_grant m' = false)); [leaf| |].
  - intros r r' [[m' pr'] b] E. unfold prepare_send_snapshot in E.
    destruct (negb _); [inv_rm; by simplify_eq|]. inv_rm. repeat (case_match; inv_rm; simplify_eq); done.
  - intros [[m' pr'] b] Hm'. keeps leaf.
Qed.
Hint Resolve send_snapshot_instead_sends : raft_keeps.
Lemma send_entries_sends m pr t es :
  keeps sends ('(m, pr) ← prepare_send_entries (S := S) m pr t es; send m;; mret (pr, true)).
Proof.
  apply (keeps_bind_val _ (λ '(m', _), is_grant m' = false)); [leaf| |].
  - intros r r' [m' pr'] E. unfold prepare_send_entries in E. inv_rm.
    destruct (last _); inv_rm; by simplify_eq.
  - intros [m' pr'] Hm'. keeps leaf.
Qed.
Hint Resolve send_entries_sends : raft_keeps.
Lemma maybe_send_append_sends to pr b : keeps sends (maybe_send_append (S := S) to pr b).
Proof. unfold maybe_send_append. keeps leaf. Qed.
Hint Resolve maybe_send_append_sends : raft_keeps.
Lemma core_send_append_sends to pr : keeps sends (core_send_append (S := S) to pr).
Proof. unfold core_send_append. keeps leaf. Qed.
Lemma core_send_append_aggressively_sends to pr :
  keeps sends (core_send_append_aggressively (S := S) to pr).
Proof.
  assert (∀ fuel pr, keeps sends (send_append_loop (S := S) fuel to pr)) as Hl.
  { intros fuel. induction fuel as [|fuel IH]; intros pr'; simpl; keeps leaf. }
  unfold core_send_append_aggressively. keeps leaf.
Qed.
Lemma core_send_heartbeat_sends to pr ctx : keeps sends (core_send_heartbeat (S := S) to pr ctx).
Proof. unfold core_send_heartbeat. destruct ctx; keeps leaf. Qed.
Hint Resolve core_send_append_sends core_send_append_aggressively_sends core_send_heartbeat_sends : raft_keeps.

Lemma on_peer_sends to f : (∀ pr, keeps sends (f pr)) → keeps sends (on_peer (S := S) to f).
Proof. intros Hf. unfold on_peer, unwrap_pr. keeps leaf. Qed.
Lemma for_peers_sends f : (∀ id pr, keeps sends (f id pr)) → keeps sends (for_peers (S := S) f).
Proof.
  intros Hf. unfold for_peers. keeps leaf.
  apply keeps_for_progress_list; [typeclasses eauto| |done]. intros. apply sends_put.
Qed.
Lemma bcast_append_sends : keeps sends (bcast_append (S := S)).
Proof. apply for_peers_sends. leaf. Qed.
Lemma bcast_heartbeat_with_ctx_sends ctx : keeps sends (bcast_heartbeat_with_ctx (S := S) ctx).
Proof. apply for_peers_sends. intros. keeps leaf. Qed.
Lemma send_append_sends to : keeps sends (send_append (S := S) to).
Proof. apply on_peer_sends. leaf. Qed.
Lemma send_append_aggressively_sends to : keeps sends (send_append_aggressively (S := S) to).
Proof. apply on_peer_sends. leaf. Qed.
Hint Resolve bcast_append_sends bcast_heartbeat_with_ctx_sends send_append_sends
  send_append_aggressively_sends : raft_keeps.
Lemma bcast_heartbeat_sends : keeps sends (bcast_heartbeat (S := S)).
Proof. unfold bcast_heartbeat. keeps leaf. Qed.
Lemma send_timeout_now_sends to : keeps sends (send_timeout_now (S := S) to).
Proof. unfold send_timeout_now. leaf. Qed.
Lemma send_request_snapshot_sends : keeps sends (send_request_snapshot (S := S)).
Proof. unfold send_request_snapshot. keeps leaf. Qed.
Lemma handle_ready_read_index_sends req i : keeps sends (handle_ready_read_index (S := S) req i).
Proof. unfold handle_ready_read_index. keeps leaf. Qed.
Lemma handle_ready_read_index_grant req i (r r' : Raft S) m :
  handle_ready_read_index req i r = Done (r', Some m) → is_grant m = false.
Proof. intros E. unfold handle_ready_read_index in E. inv_rm. case_match; inv_rm; by simplify_eq. Qed.
Hint Resolve bcast_heartbeat_sends send_timeout_now_sends send_request_snapshot_sends
  handle_ready_read_index_sends : raft_keeps.
(** The answer to a read request goes out unless the request was the node's own. *)
Lemma answer_read_sends req i : keeps sends (answer_read (S := S) req i).
Proof.
  unfold answer_read. apply (keeps_bind_val _ (λ resp, ∀ m, resp = Some m → is_grant m = false)); [leaf| |].
  - intros r r' a E m ->. by eapply handle_ready_read_index_grant.
  - intros a Ha. destruct a as [m|]; [specialize (Ha m eq_refl)|]; keeps leaf.
Qed.
Hint Resolve answer_read_sends : raft_keeps.
Lemma release_reads_sends ctx : keeps sends (release_reads (S := S) ctx).
Proof.
  assert (∀ rss, keeps sends (answer_reads (S := S) rss)) as Ha.
  { intros rss. induction rss as [|rs rss IH]; simpl; keeps leaf. }
  unfold release_reads. apply keeps_bind; [typeclasses eauto| |apply Ha].
  intros r r' a E. apply bind_Done in E as ([ro rss] & _ & E). injection E as <- <-. apply sends_read_only.
Qed.
End sends.

#[export] Hint Extern 2 (is_grant _ = false) => solve_grant : raft_keeps.
#[export] Hint Resolve sends_reads sends_read_only sends_put send_sends
  sends_entries sends_snapshot prepare_send_snapshot_sends prepare_send_entries_sends try_batching_sends
  send_snapshot_instead_sends maybe_send_append_sends answer_read_sends core_send_append_sends core_send_append_aggressively_sends core_send_heartbeat_sends
  bcast_append_sends bcast_heartbeat_with_ctx_sends bcast_heartbeat_sends send_append_sends
  send_append_aggressively_sends send_timeout_now_sends send_request_snapshot_sends
  handle_ready_read_index_sends release_reads_sends : raft_keeps.
