(* ===== verification/RaftRole.v ===== *)
(** * Roles, elections and commitment ([src/raft.rs])

    The transitions between the four roles, the campaign, the own part of the
    commit rule (persistence of the own log, applied entries, group commit), and
    the fast-forward of the commit index by vote messages. *)
From S2P Require Import Prelude Errors Proto Util Quorum Storage Unstable ReadOnly Config.
From S2P Require Import Progress Tracker RaftLog RaftState RaftSend.
#[local] Open Scope N_scope.

Section roles.
Context {S : Type} `{Storage S, PbMessage, HashOrder, Rng}.

(** [thread_rng().gen_range(min..max)] panics on an empty range. *)
Definition reset_randomized_election_timeout : rm S unit :=
  asks (λ r, assert (r_min_election_timeout r <? r_max_election_timeout r));;
  modify (λ r,
    set_r_draws (r_draws r + 1)
      (set_r_randomized_election_timeout
        (gen_range (r_draws r) (r_min_election_timeout r) (r_max_election_timeout r)) r)).

(** One round of the loop of [reset]. *)
Definition reset_progress (last_index committed persisted self_id id : u64) (pr : Progress)
    : outcome Progress :=
  next ← last_index +! 1;
  let pr := Progress.reset next pr in
  Done (if id =? self_id then set_pr_committed_index committed (set_pr_matched persisted pr) else pr).

Definition reset (term : u64) : rm S unit :=
  cur ← gets r_term;
  when (negb (cur =? term)) (modify (set_r_term term);; modify (set_r_vote INVALID_ID));;
  modify (set_r_leader_id INVALID_ID);;
  reset_randomized_election_timeout;;
  modify (set_r_election_elapsed 0);;
  modify (set_r_heartbeat_elapsed 0);;
  abort_leader_transfer;;
  modify_prs reset_votes;;
  modify (set_r_pending_conf_index 0);;
  modify (λ r, set_r_read_only (ReadOnly.new (ro_option (r_read_only r))) r);;
  modify (set_r_pending_request_snapshot INVALID_INDEX);;
  last_index ← asks (λ r, RaftLog.last_index (r_raft_log r));
  committed ← gets (λ r, l_committed (r_raft_log r));
  persisted ← gets (λ r, l_persisted (r_raft_log r));
  self_id ← gets r_id;
  for_progress (λ id pr, lift (reset_progress last_index committed persisted self_id id pr)).

Definition maybe_increase_uncommitted_size (ents : list Entry) : rm S bool := λ r,
  '(us, ok) ← maybe_increase_uncommitted ents (r_uncommitted_state r);
  Done (set_r_uncommitted_state us r, ok).

(** The numbering loop of [append_entry]; [i] is the position in the slice. *)
Fixpoint number_entries (term li i : N) (es : list Entry) : outcome (list Entry) :=
  match es with
  | [] => Done []
  | e :: es =>
      next ← li +! 1;
      index ← next +! i;
      es ← number_entries term li (i + 1) es;
      Done (mkEntry (e_type e) term index (e_data e) (e_context e) (e_sync_log e) :: es)
  end.

Definition append_entry (es : list Entry) : rm S bool :=
  ok ← maybe_increase_uncommitted_size es;
  if negb ok then mret false
  else
    li ← asks (λ r, RaftLog.last_index (r_raft_log r));
    term ← gets r_term;
    es ← lift (number_entries term li 0 es);
    _ ← with_log (RaftLog.append es);
    mret true.
(** [if !self.append_entry(..) { panic!(..) }] *)
Definition append_entry_or_panic (es : list Entry) : rm S unit :=
  ok ← append_entry es; if negb ok then panics Fatal else mret ().

(** An empty [ConfChangeV2]: leave the joint configuration. *)
Definition leave_joint_entry : Entry := mkEntry EntryConfChangeV2 0 0 [] [] false.

Definition commit_apply_internal (applied : u64) (skip_check : bool) : rm S unit :=
  old_applied ← gets (λ r, l_applied (r_raft_log r));
  (if negb skip_check then update_log (applied_to applied)
   else lift (assert (0 <? applied));; update_log (λ l, Done (applied_to_unchecked applied l)));;
  leave ← gets (λ r, c_auto_leave (pt_conf (r_prs r))
                     && (old_applied <=? r_pending_conf_index r)
                     && (r_pending_conf_index r <=? applied)
                     && bool_decide (r_state r = Leader));
  when leave
    (append_entry_or_panic [leave_joint_entry];;
     last ← asks (λ r, RaftLog.last_index (r_raft_log r));
     modify (set_r_pending_conf_index last)).
Definition commit_apply (applied : u64) : rm S unit := commit_apply_internal applied false.

Definition on_persist_entries (index term : u64) : rm S unit :=
  update ← with_log (maybe_persist index term);
  st ← gets r_state;
  when (update && bool_decide (st = Leader))
    (self_id ← gets r_id;
     pr ← unwrap_pr self_id;
     '(pr, updated) ← lift (maybe_update index pr);
     put_pr self_id pr;;
     if negb updated then mret ()
     else
       committed ← maybe_commit;
       if negb committed then mret ()
       else bcast ← gets should_bcast_commit; when bcast bcast_append).
Definition on_persist_snap (index : u64) : rm S unit := _ ← with_log (maybe_persist_snap index); mret ().

Definition become_follower (term leader_id : u64) : rm S unit :=
  pending_request_snapshot ← gets r_pending_request_snapshot;
  reset term;;
  modify (set_r_leader_id leader_id);;
  modify (set_r_state Follower);;
  modify (set_r_pending_request_snapshot pending_request_snapshot);;
  set_max_apply_unpersisted_log_limit 0.

(** [assert_ne!(self.state, st)] *)
Definition assert_state_ne (st : StateRole) : rm S unit :=
  asks (λ r, assert (negb (bool_decide (r_state r = st)))).

Definition become_candidate : rm S unit :=
  assert_state_ne Leader;;
  term ← asks (λ r, r_term r +! 1);
  reset term;;
  modify (λ r, set_r_vote (r_id r) r);;
  modify (set_r_state Candidate).

Definition become_pre_candidate : rm S unit :=
  assert_state_ne Leader;;
  modify (set_r_state PreCandidate);;
  modify_prs reset_votes;;
  modify (set_r_leader_id INVALID_ID).

Definition become_leader : rm S unit :=
  assert_state_ne Follower;;
  term ← gets r_term;
  reset term;;
  modify (λ r, set_r_leader_id (r_id r) r);;
  modify (set_r_state Leader);;
  last_index ← asks (λ r, RaftLog.last_index (r_raft_log r));
  asks (λ r, assert (last_index =? l_persisted (r_raft_log r)));;
  modify (λ r, set_r_uncommitted_state
                 (set_us_last_log_tail_index last_index
                   (set_us_uncommitted_size 0 (r_uncommitted_state r))) r);;
  id ← gets r_id;
  pr ← unwrap_pr id;
  pr ← lift (become_replicate pr);
  put_pr id pr;;
  modify (set_r_pending_conf_index last_index);;
  append_entry_or_panic [Entry_default].

(** ** Elections *)

(** The vote requests of [campaign], one to every voter but this node. *)
Fixpoint request_votes (vote_msg : MessageType) (term commit commit_term : u64) (transfer : bool)
    (ids : list u64) : rm S unit :=
  match ids with
  | [] => mret ()
  | id :: ids =>
      self_id ← gets r_id;
      (if id =? self_id then mret ()
       else
         let m := set_m_term term (new_message id vote_msg None) in
         index ← asks (λ r, RaftLog.last_index (r_raft_log r));
         log_term ← asks (λ r, RaftLog.last_term (r_raft_log r));
         let m := set_m_commit_term commit_term
                    (set_m_commit commit (set_m_log_term log_term (set_m_index index m))) in
         send (if transfer then set_m_context CAMPAIGN_TRANSFER m else m));;
      request_votes vote_msg term commit commit_term transfer ids
  end.

(** [poll] and [campaign] call each other; [again] is the recursive call. *)
Definition poll_with (again : rm S unit) (from : u64) (vote : bool) : rm S VoteResult :=
  modify_prs (record_vote from vote);;
  '(_, _, res) ← asks (λ r, tally_votes (r_prs r));
  match res with
  | Won =>
      st ← gets r_state;
      if bool_decide (st = PreCandidate) then again else become_leader;; bcast_append
  | Lost => term ← gets r_term; become_follower term INVALID_ID
  | Pending => mret ()
  end;;
  mret res.

Fixpoint campaign_at (depth : nat) (campaign_type : bytes) : rm S unit :=
  match depth with
  | O => λ _, NoFuel
  | Datatypes.S depth =>
      '(vote_msg, term) ←
        (if bool_decide (campaign_type = CAMPAIGN_PRE_ELECTION)
         then become_pre_candidate;; term ← asks (λ r, r_term r +! 1); mret (MsgRequestPreVote, term)
         else become_candidate;; term ← gets r_term; mret (MsgRequestVote, term));
      self_id ← gets r_id;
      res ← poll_with (campaign_at depth CAMPAIGN_ELECTION) self_id true;
      if bool_decide (res = Won) then mret ()
      else
        '(commit, commit_term) ← asks (λ r, commit_info (r_raft_log r));
        ids ← gets (λ r, Union_iter (Joint.ids (c_voters (pt_conf (r_prs r)))));
        request_votes vote_msg term commit commit_term
          (bool_decide (campaign_type = CAMPAIGN_TRANSFER)) ids
  end.

(** A pre-election that is won at once starts the election, which does not start
    another one: two levels. *)
Definition campaign : bytes → rm S unit := campaign_at 2.
Definition poll (from : u64) (vote : bool) : rm S VoteResult :=
  poll_with (campaign_at 1 CAMPAIGN_ELECTION) from vote.

Definition is_conf_change (e : Entry) : bool :=
  match e_type e with EntryConfChange | EntryConfChangeV2 => true | EntryNormal => false end.

(** The callback given to [scan]; the state is the captured [found]. *)
Definition find_conf_change (ents : list Entry) (found : bool) : bool * bool :=
  if existsb is_conf_change ents then (true, false) else (found, true).
Definition has_unapplied_conf_changes (lo hi : u64) (context : GetEntriesContext) : rm S bool :=
  up_to_date ← gets (λ r, l_committed (r_raft_log r) <=? l_applied (r_raft_log r));
  if (up_to_date : bool) then mret false
  else
    page_size ← gets r_max_committed_size_per_ready;
    '(found, res) ← with_log (λ l,
      '(l, found, res) ← scan lo hi page_size context find_conf_change false l; Done (l, (found, res)));
    match res with Err _ => panics Fatal | Ok _ => mret found end.

Definition hup (transfer_leader : bool) : rm S unit :=
  st ← gets r_state;
  if bool_decide (st = Leader) then mret ()
  else
    low ← asks (λ r,
      i ← maybe_first_index (l_unstable (r_raft_log r));
      match i with Some idx => Done idx | None => l_applied (r_raft_log r) +! 1 end);
    high ← asks (λ r, l_committed (r_raft_log r) +! 1);
    pending ← has_unapplied_conf_changes low high TransferLeader;
    if (pending : bool) then mret ()
    else
      pre_vote ← gets r_pre_vote;
      campaign (if transfer_leader then CAMPAIGN_TRANSFER
                else if pre_vote : bool then CAMPAIGN_PRE_ELECTION else CAMPAIGN_ELECTION).

Definition maybe_commit_by_vote (m : Message) : rm S unit :=
  if (m_commit m =? 0) || (m_commit_term m =? 0) then mret ()
  else
    last_commit ← gets (λ r, l_committed (r_raft_log r));
    st ← gets r_state;
    if (m_commit m <=? last_commit) || bool_decide (st = Leader) then mret ()
    else
      ok ← with_log (RaftLog.maybe_commit (m_commit m) (m_commit_term m));
      if negb ok then mret ()
      else if negb (bool_decide (st = Candidate)) && negb (bool_decide (st = PreCandidate))
      then mret ()
      else
        low ← lift (last_commit +! 1);
        high ← asks (λ r, l_committed (r_raft_log r) +! 1);
        pending ← has_unapplied_conf_changes low high CommitByVote;
        when pending (term ← gets r_term; become_follower term INVALID_ID).

(** ** Group commit *)

(** [if .. && self.maybe_commit() { self.bcast_append() }] *)
Definition commit_and_bcast (b : bool) : rm S unit :=
  when b (ok ← maybe_commit; when ok bcast_append).

Definition enable_group_commit (enable : bool) : rm S unit :=
  modify_prs (Tracker.enable_group_commit enable);;
  st ← gets r_state;
  commit_and_bcast (bool_decide (st = Leader) && negb enable).

Fixpoint assign_groups (ids : list (u64 * u64)) : rm S unit :=
  match ids with
  | [] => mret ()
  | (peer_id, group_id) :: ids =>
      lift (assert (0 <? group_id));;
      pr ← gets (λ r, Tracker.get peer_id (r_prs r));
      match pr with
      | Some pr => put_pr peer_id (set_pr_commit_group_id group_id pr)
      | None => mret ()
      end;;
      assign_groups ids
  end.
Definition assign_commit_groups (ids : list (u64 * u64)) : rm S unit :=
  assign_groups ids;;
  st ← gets r_state;
  gc ← gets group_commit;
  commit_and_bcast (bool_decide (st = Leader) && gc).

Definition clear_commit_group : rm S unit :=
  for_progress (λ _ pr, mret (set_pr_commit_group_id 0 pr)).

Definition commit_to_current_term (self : Raft S) : outcome bool :=
  t ← RaftLog.term (l_committed (r_raft_log self)) (r_raft_log self);
  Done (is_ok_and t (λ t, t =? r_term self)).
Definition apply_to_current_term (self : Raft S) : outcome bool :=
  t ← RaftLog.term (l_applied (r_raft_log self)) (r_raft_log self);
  Done (is_ok_and t (λ t, t =? r_term self)).

Definition check_group_commit_consistent : rm S (option bool) :=
  st ← gets r_state;
  if negb (bool_decide (st = Leader)) then mret None
  else
    ok ← asks apply_to_current_term;
    if negb ok then mret None
    else
      '(index, use_group_commit) ← asks (λ r, maximal_committed_index (r_prs r));
      committed ← gets (λ r, l_committed (r_raft_log r));
      mret (Some (use_group_commit && (index =? committed))).
End roles.
