(* ===== verification/RaftStep.v ===== *)
(** * The message handlers ([src/raft.rs]): [Raft::step] and what it dispatches to

    The handlers of the leader, the candidates and the follower, configuration
    changes and snapshots, the logical clock, and the construction of a node.
    Every [debug_assert!] is checked, as in a debug build. *)
From S2P Require Import Prelude Errors Proto Util Quorum Storage Unstable ReadOnly Config.
From S2P Require Import Progress Tracker RaftLog RaftState RaftSend RaftRole.
From S2P Require ConfChange.
#[local] Open Scope N_scope.

Section steps.
Context {S : Type} `{Storage S, PbMessage, HashOrder, Rng, ConfChangeCodec}.

(** ** The leader's handlers *)

Definition get_pr (id : u64) : rm S (option Progress) := gets (λ r, Tracker.get id (r_prs r)).

(** The end of [handle_append_response], once the progress has advanced. *)
Definition after_progress (from : u64) (old_paused : bool) : rm S unit :=
  committed ← maybe_commit;
  (if (committed : bool) then bcast ← gets should_bcast_commit; when bcast bcast_append
   else when old_paused (send_append from));;
  send_append_aggressively from;;
  transferee ← gets r_lead_transferee;
  when (bool_decide (transferee = Some from))
    (last_index ← asks (λ r, RaftLog.last_index (r_raft_log r));
     pr ← unwrap_pr from;
     when (pr_matched pr =? last_index) (send_timeout_now from)).

(** [match pr.state { .. }] after an accepted append. *)
Definition accept_progress (index : u64) (pr : Progress) : outcome Progress :=
  match pr_state pr with
  | Probe => become_replicate pr
  | Snapshot => if is_snapshot_caught_up pr then become_probe pr else Done pr
  | Replicate => ins ← Inflights.free_to (pr_ins pr) index; Done (set_pr_ins ins pr)
  end.

Definition handle_append_response (m : Message) : rm S unit :=
  next_probe_index ←
    (if m_reject m && (0 <? m_log_term m)
     then '(i, _) ← asks (λ r, find_conflict_by_term (m_reject_hint m) (m_log_term m) (r_raft_log r)); mret i
     else mret (m_reject_hint m));
  p ← get_pr (m_from m);
  match p with
  | None => mret ()
  | Some pr =>
      let pr := update_committed (m_commit m) (set_pr_recent_active true pr) in
      if m_reject m then
        '(pr, decreased) ← lift (maybe_decr_to (m_index m) next_probe_index (m_request_snapshot m) pr);
        if negb decreased then put_pr (m_from m) pr
        else
          pr ← (if bool_decide (pr_state pr = Replicate) then lift (become_probe pr) else mret pr);
          put_pr (m_from m) pr;;
          send_append (m_from m)
      else
        let old_paused := is_paused pr in
        '(pr, updated) ← lift (maybe_update (m_index m) pr);
        if negb updated then put_pr (m_from m) pr
        else
          pr ← lift (accept_progress (m_index m) pr);
          put_pr (m_from m) pr;;
          after_progress (m_from m) old_paused
  end.

Definition handle_heartbeat_response (m : Message) : rm S unit :=
  p ← get_pr (m_from m);
  match p with
  | None => mret ()
  | Some pr =>
      let pr := resume (set_pr_recent_active true (update_committed (m_commit m) pr)) in
      pr ← (if bool_decide (pr_state pr = Replicate) && Inflights.full (pr_ins pr)
            then ins ← lift (Inflights.free_first_one (pr_ins pr)); mret (set_pr_ins ins pr)
            else mret pr);
      last_index ← asks (λ r, RaftLog.last_index (r_raft_log r));
      pr ← (if (pr_matched pr <? last_index)
               || negb (pr_pending_request_snapshot pr =? INVALID_INDEX)
            then core_send_append (m_from m) pr else mret pr);
      put_pr (m_from m) pr;;
      option ← gets (λ r, ro_option (r_read_only r));
      if negb (bool_decide (option = Safe)) || bool_decide (m_context m = []) then mret ()
      else
        acks ← (λ r, let '(ro, acks) := recv_ack (m_from m) (m_context m) (r_read_only r) in
                     Done (set_r_read_only ro r, acks));
        match acks with
        | None => mret ()
        | Some acks =>
            quorum ← asks (λ r, has_quorum acks (r_prs r));
            when quorum (release_reads (m_context m))
        end
  end.

Definition handle_transfer_leader (m : Message) : rm S unit :=
  let from := m_from m in
  p ← get_pr from;
  match p with
  | None => mret ()
  | Some pr =>
      learner ← gets (λ r, bool_decide (from ∈ c_learners (pt_conf (r_prs r))));
      transferee ← gets r_lead_transferee;
      if (learner : bool) then mret ()
      else if bool_decide (transferee = Some from) then mret ()
      else
        when (bool_decide (is_Some transferee)) abort_leader_transfer;;
        self_id ← gets r_id;
        if from =? self_id then mret ()
        else
          modify (set_r_election_elapsed 0);;
          modify (set_r_lead_transferee (Some from));;
          last_index ← asks (λ r, RaftLog.last_index (r_raft_log r));
          if pr_matched pr =? last_index then send_timeout_now from else send_append from
  end.

Definition handle_snapshot_status (m : Message) : rm S unit :=
  p ← get_pr (m_from m);
  match p with
  | None => mret ()
  | Some pr =>
      if negb (bool_decide (pr_state pr = Snapshot)) then mret ()
      else
        pr ← lift (become_probe (if m_reject m then snapshot_failure pr else pr));
        put_pr (m_from m) (set_pr_pending_request_snapshot INVALID_INDEX (pause pr))
  end.

Definition handle_unreachable (m : Message) : rm S unit :=
  p ← get_pr (m_from m);
  match p with
  | None => mret ()
  | Some pr =>
      if bool_decide (pr_state pr = Replicate)
      then pr ← lift (become_probe pr); put_pr (m_from m) pr else mret ()
  end.

Definition check_quorum_active : rm S bool :=
  self_id ← gets r_id; with_prs (quorum_recently_active self_id).

(** The reason why a leader refuses to propose a configuration change now. *)
Definition refuse_conf_change (cc : ConfChangeV2) (self : Raft S) : bool :=
  if has_pending_conf self then true
  else
    let already_joint := ConfChange.joint (pt_conf (r_prs self)) in
    let want_leave := bool_decide (ccv2_changes cc = []) in
    if already_joint && negb want_leave then true
    else negb already_joint && want_leave.

(** The change an entry carries: [None] for a normal entry, an error for a
    payload that does not decode. *)
Definition entry_conf_change (e : Entry) : option (option ConfChangeV2) :=
  match e_type e with
  | EntryNormal => None
  | EntryConfChange => Some (option_map ConfChange_into_v2 (decode_conf_change (e_data e)))
  | EntryConfChangeV2 => Some (decode_conf_change_v2 (e_data e))
  end.

(** The loop of [step_leader] over the proposed entries; [i] is the position. *)
Fixpoint screen_entries (i : N) (es : list Entry) : rm S (result (list Entry)) :=
  match es with
  | [] => mret (Ok [])
  | e :: es =>
      match entry_conf_change e with
      | Some None => mret (Err ProposalDropped)
      | Some (Some cc) =>
          refuse ← gets (refuse_conf_change cc);
          e ← (if (refuse : bool) then mret Entry_default
               else
                 last ← asks (λ r, RaftLog.last_index (r_raft_log r));
                 n ← lift (last +! i); n ← lift (n +! 1);
                 modify (set_r_pending_conf_index n);; mret e);
          rest ← screen_entries (i + 1) es;
          mret (match rest with Ok es => Ok (e :: es) | Err err => Err err end)
      | None =>
          rest ← screen_entries (i + 1) es;
          mret (match rest with Ok es => Ok (e :: es) | Err err => Err err end)
      end
  end.

Definition propose (m : Message) : rm S (result unit) :=
  if bool_decide (m_entries m = []) then panics Fatal
  else
    self_id ← gets r_id;
    self_pr ← get_pr self_id;
    transferee ← gets r_lead_transferee;
    if bool_decide (self_pr = None) then mret (Err ProposalDropped)
    else if bool_decide (is_Some transferee) then mret (Err ProposalDropped)
    else
      res ← screen_entries 0 (m_entries m);
      match res with
      | Err e => mret (Err e)
      | Ok es =>
          ok ← append_entry es;
          if negb ok then mret (Err ProposalDropped) else bcast_append;; mret (Ok ())
      end.

Definition leader_read_index (m : Message) : rm S unit :=
  ok ← asks commit_to_current_term;
  if negb ok then mret ()
  else
    singleton ← gets (λ r, is_singleton (r_prs r));
    committed ← gets (λ r, l_committed (r_raft_log r));
    if (singleton : bool) then answer_read m committed
    else
      option ← gets (λ r, ro_option (r_read_only r));
      match option with
      | Safe =>
          e ← lift (vindex (m_entries m) 0);
          (λ r, ro ← add_request committed m (r_id r) (r_read_only r);
                Done (set_r_read_only ro r, ()));;
          bcast_heartbeat_with_ctx (Some (e_data e))
      | LeaseBased => answer_read m committed
      end.

Definition ok_ : rm S (result unit) := mret (Ok ()).

Definition step_leader (m : Message) : rm S (result unit) :=
  match m_type m with
  | MsgBeat => bcast_heartbeat;; ok_
  | MsgCheckQuorum =>
      active ← check_quorum_active;
      when (negb active) (term ← gets r_term; become_follower term INVALID_ID);; ok_
  | MsgPropose => propose m
  | MsgReadIndex => leader_read_index m;; ok_
  | MsgAppendResponse => handle_append_response m;; ok_
  | MsgHeartbeatResponse => handle_heartbeat_response m;; ok_
  | MsgSnapStatus => handle_snapshot_status m;; ok_
  | MsgUnreachable => handle_unreachable m;; ok_
  | MsgTransferLeader => handle_transfer_leader m;; ok_
  | _ => ok_
  end.

(** ** The follower's handlers *)

Definition append_response (to : u64) : Message :=
  set_m_to to (set_m_type MsgAppendResponse Message_default).

(** The answer to an append that does not start below the commit index: the new
    last index, or a rejection with a hint where to probe next. *)
Definition answer_append (m : Message) : rm S Message :=
  res ← with_log (maybe_append (m_index m) (m_log_term m) (m_commit m) (m_entries m));
  match res with
  | Some (_, last_idx) => mret (set_m_index last_idx (append_response (m_from m)))
  | None =>
      last ← asks (λ r, RaftLog.last_index (r_raft_log r));
      '(hint_index, hint_term) ←
        asks (λ r, find_conflict_by_term (N.min (m_index m) last) (m_log_term m) (r_raft_log r));
      match hint_term with
      | None => panics Fatal
      | Some hint_term =>
          mret (set_m_log_term hint_term
                 (set_m_reject_hint hint_index
                   (set_m_reject true
                     (set_m_index (m_index m) (append_response (m_from m))))))
      end
  end.

Definition handle_append_entries (m : Message) : rm S unit :=
  pending ← gets r_pending_request_snapshot;
  committed ← gets (λ r, l_committed (r_raft_log r));
  if negb (pending =? INVALID_INDEX) then send_request_snapshot
  else if m_index m <? committed
  then send (set_m_commit committed (set_m_index committed (append_response (m_from m))))
  else
    to_send ← answer_append m;
    committed ← gets (λ r, l_committed (r_raft_log r));
    send (set_m_commit committed to_send).

Definition handle_heartbeat (m : Message) : rm S unit :=
  update_log (commit_to (m_commit m));;
  pending ← gets r_pending_request_snapshot;
  if negb (pending =? INVALID_INDEX) then send_request_snapshot
  else
    committed ← gets (λ r, l_committed (r_raft_log r));
    send (set_m_commit committed
           (set_m_context (m_context m)
             (set_m_to (m_from m) (set_m_type MsgHeartbeatResponse Message_default)))).

(** ** Configuration changes *)

Definition post_conf_change : rm S ConfState :=
  cs ← gets (λ r, to_conf_state (pt_conf (r_prs r)));
  is_voter ← gets (λ r, Joint.contains (c_voters (pt_conf (r_prs r))) (r_id r));
  modify (set_r_promotable is_voter);;
  st ← gets r_state;
  if negb is_voter && bool_decide (st = Leader) then mret cs
  else if negb (bool_decide (st = Leader)) || bool_decide (cs_voters cs = []) then mret cs
  else
    committed ← maybe_commit;
    (if (committed : bool) then bcast_append
     else for_peers (λ id pr, '(pr, _) ← maybe_send_append id pr false; mret pr));;
    ctx ← gets (λ r, last_pending_request_ctx (r_read_only r));
    match ctx with
    | None => mret ()
    | Some ctx =>
        acks ← (λ r, let '(ro, acks) := recv_ack (r_id r) ctx (r_read_only r) in
                     Done (set_r_read_only ro r, acks));
        match acks with
        | None => mret ()
        | Some acks =>
            quorum ← asks (λ r, has_quorum acks (r_prs r));
            when quorum (release_reads ctx)
        end
    end;;
    stale ← gets (λ r, match r_lead_transferee r with
                       | Some e => negb (Joint.contains (c_voters (pt_conf (r_prs r))) e)
                       | None => false
                       end);
    when stale abort_leader_transfer;;
    mret cs.

Definition apply_conf_change (cc : ConfChangeV2) : rm S (result ConfState) :=
  prs ← gets r_prs;
  let changed :=
    if Proto.leave_joint cc then ConfChange.leave_joint prs
    else match Proto.enter_joint cc with
         | Some auto_leave => ConfChange.enter_joint auto_leave (ccv2_changes cc) prs
         | None => ConfChange.simple (ccv2_changes cc) prs
         end in
  match changed with
  | Err e => mret (Err e)
  | Ok (cfg, changes) =>
      last_index ← asks (λ r, RaftLog.last_index (r_raft_log r));
      modify_prs (apply_conf cfg changes last_index);;
      cs ← post_conf_change;
      mret (Ok cs)
  end.

(** ** Snapshots *)

Definition restore (snap : Proto.Snapshot) : rm S bool :=
  let meta := s_metadata snap in
  let cs := sm_conf_state meta in
  committed ← gets (λ r, l_committed (r_raft_log r));
  st ← gets r_state;
  self_id ← gets r_id;
  if sm_index meta <? committed then mret false
  else if negb (bool_decide (st = Follower)) then
    term ← asks (λ r, r_term r +! 1);
    become_follower term INVALID_INDEX;; mret false
  else if forallb (λ id, negb (id =? self_id))
            (cs_voters cs ++ cs_learners cs ++ cs_voters_outgoing cs)
  then mret false
  else
    pending ← gets r_pending_request_snapshot;
    matches ← (if pending =? INVALID_INDEX
               then asks (λ r, match_term (sm_index meta) (sm_term meta) (r_raft_log r))
               else mret false);
    if (matches : bool) then update_log (commit_to (sm_index meta));; mret false
    else
      update_log (RaftLog.restore snap);;
      modify_prs Tracker.clear;;
      last_index ← asks (λ r, RaftLog.last_index (r_raft_log r));
      restored ← (λ r, let '(prs, res) := ConfChange.restore last_index cs (r_prs r) in
                       Done (set_r_prs prs r, res));
      match restored with
      | Err _ => panics Fatal
      | Ok _ =>
          new_cs ← post_conf_change;
          if negb (conf_state_eq cs new_cs) then panics Fatal
          else
            pr ← unwrap_pr self_id;
            n ← lift (pr_next_idx pr -! 1);
            '(pr, _) ← lift (maybe_update n pr);
            put_pr self_id pr;;
            modify (set_r_pending_request_snapshot INVALID_INDEX);;
            mret true
      end.

Definition handle_snapshot (m : Message) : rm S unit :=
  restored ← restore (m_snapshot m);
  index ← (if (restored : bool) then asks (λ r, RaftLog.last_index (r_raft_log r))
           else gets (λ r, l_committed (r_raft_log r)));
  send (set_m_index index (append_response (m_from m))).

Definition request_snapshot : rm S (result unit) :=
  st ← gets r_state;
  leader ← gets r_leader_id;
  pending ← gets r_pending_request_snapshot;
  has_snap ← gets (λ r, bool_decide (is_Some (snap r)));
  if bool_decide (st = Leader) || (leader =? INVALID_ID) || has_snap
     || negb (pending =? INVALID_INDEX)
  then mret (Err RequestSnapshotDropped)
  else
    request_index ← asks (λ r, RaftLog.last_index (r_raft_log r));
    request_index_term ← asks (λ r, t ← RaftLog.term request_index (r_raft_log r); unwrap_r t);
    term ← gets r_term;
    if term =? request_index_term then
      modify (set_r_pending_request_snapshot request_index);;
      send_request_snapshot;; ok_
    else mret (Err RequestSnapshotDropped).

(** ** Candidates and followers *)

(** [debug_assert_eq!(self.term, m.term)] and the step down that follows it. *)
Definition follow_sender (m : Message) : rm S unit :=
  asks (λ r, assert (r_term r =? m_term m));;
  become_follower (m_term m) (m_from m).

(** A vote response counts only for the kind of candidacy that asked for it. *)
Definition handle_vote_response (m : Message) : rm S (result unit) :=
  st ← gets r_state;
  if (bool_decide (st = PreCandidate) && negb (bool_decide (m_type m = MsgRequestPreVoteResponse)))
     || (bool_decide (st = Candidate) && negb (bool_decide (m_type m = MsgRequestVoteResponse)))
  then ok_
  else
    poll (m_from m) (negb (m_reject m));;
    maybe_commit_by_vote m;; ok_.

Definition step_candidate (m : Message) : rm S (result unit) :=
  match m_type m with
  | MsgPropose => mret (Err ProposalDropped)
  | MsgAppend => follow_sender m;; handle_append_entries m;; ok_
  | MsgHeartbeat => follow_sender m;; handle_heartbeat m;; ok_
  | MsgSnapshot => follow_sender m;; handle_snapshot m;; ok_
  | MsgRequestPreVoteResponse | MsgRequestVoteResponse => handle_vote_response m
  | _ => ok_
  end.

(** [self.election_elapsed = 0; self.leader_id = m.from] *)
Definition heard_from (leader : u64) : rm S unit :=
  modify (set_r_election_elapsed 0);; modify (set_r_leader_id leader).

Definition step_follower (m : Message) : rm S (result unit) :=
  leader_id ← gets r_leader_id;
  match m_type m with
  | MsgPropose =>
      disabled ← gets r_disable_proposal_forwarding;
      if (leader_id =? INVALID_ID) || disabled then mret (Err ProposalDropped)
      else send (set_m_to leader_id m);; ok_
  | MsgAppend => heard_from (m_from m);; handle_append_entries m;; ok_
  | MsgHeartbeat => heard_from (m_from m);; handle_heartbeat m;; ok_
  | MsgSnapshot => heard_from (m_from m);; handle_snapshot m;; ok_
  | MsgTransferLeader | MsgReadIndex =>
      if leader_id =? INVALID_ID then ok_ else send (set_m_to leader_id m);; ok_
  | MsgTimeoutNow =>
      promotable ← gets r_promotable;
      when promotable (hup true);; ok_
  | MsgReadIndexResp =>
      match m_entries m with
      | [e] =>
          modify (λ r, set_r_read_states
                         (r_read_states r ++ [mkReadState (m_index m) (e_data e)]) r);;
          _ ← with_log (RaftLog.maybe_commit (m_index m) (m_term m));
          ok_
      | _ => ok_
      end
  | _ => ok_
  end.

(** ** [Raft::step] *)

(** The node heard from a leader within the election timeout. *)
Definition lease_active (self : Raft S) : bool :=
  r_check_quorum self && negb (r_leader_id self =? INVALID_ID)
  && (r_election_elapsed self <? r_election_timeout self).

Definition can_vote (m : Message) (self : Raft S) : bool :=
  (r_vote self =? m_from m)
  || ((r_vote self =? INVALID_ID) && (r_leader_id self =? INVALID_ID))
  || (bool_decide (m_type m = MsgRequestPreVote) && (r_term self <? m_term m)).

(** The whole condition under which a vote is granted. *)
Definition grant_vote (m : Message) (self : Raft S) : outcome bool :=
  if negb (can_vote m self) then Done false
  else
    up_to_date ← is_up_to_date (m_index m) (m_log_term m) (r_raft_log self);
    if negb up_to_date then Done false
    else
      last ← RaftLog.last_index (r_raft_log self);
      Done ((last <? m_index m) || (r_priority self <=? get_priority m)%Z).

Definition handle_vote_request (m : Message) : rm S unit :=
  grant ← asks (grant_vote m);
  resp ← lift (vote_resp_msg_type (m_type m));
  if (grant : bool) then
    send (set_m_term (m_term m) (set_m_reject false (new_message (m_from m) resp None)));;
    when (bool_decide (m_type m = MsgRequestVote))
      (modify (set_r_election_elapsed 0);; modify (set_r_vote (m_from m)))
  else
    term ← gets r_term;
    '(commit, commit_term) ← asks (λ r, commit_info (r_raft_log r));
    send (set_m_commit_term commit_term
           (set_m_commit commit
             (set_m_term term (set_m_reject true (new_message (m_from m) resp None)))));;
    maybe_commit_by_vote m.

(** The first part of [step]: the term of the message. The answer tells whether
    the message is to be handled. *)
Definition step_term (m : Message) : rm S bool :=
  self ← gets id;
  let t := m_type m in
  if m_term m =? 0 then mret true
  else if r_term self <? m_term m then
    if (bool_decide (t = MsgRequestVote) || bool_decide (t = MsgRequestPreVote))
       && (negb (bool_decide (m_context m = CAMPAIGN_TRANSFER)) && lease_active self)
    then mret false
    else if bool_decide (t = MsgRequestPreVote)
            || (bool_decide (t = MsgRequestPreVoteResponse) && negb (m_reject m))
    then mret true
    else
      let from_leader := bool_decide (t = MsgAppend) || bool_decide (t = MsgHeartbeat)
                         || bool_decide (t = MsgSnapshot) in
      become_follower (m_term m) (if from_leader then m_from m else INVALID_ID);; mret true
  else if m_term m <? r_term self then
    (if (r_check_quorum self || r_pre_vote self)
        && (bool_decide (t = MsgHeartbeat) || bool_decide (t = MsgAppend))
     then send (new_message (m_from m) MsgAppendResponse None)
     else if bool_decide (t = MsgRequestPreVote)
     then send (set_m_reject true
                 (set_m_term (r_term self) (new_message (m_from m) MsgRequestPreVoteResponse None)))
     else mret ());;
    mret false
  else mret true.

(** The second part of [step]. *)
Definition step_handle (m : Message) : rm S (result unit) :=
  match m_type m with
  | MsgHup => hup false;; ok_
  | MsgRequestVote | MsgRequestPreVote => handle_vote_request m;; ok_
  | _ =>
      st ← gets r_state;
      match st with
      | PreCandidate | Candidate => step_candidate m
      | Follower => step_follower m
      | Leader => step_leader m
      end
  end.

Definition step (m : Message) : rm S (result unit) :=
  continue_ ← step_term m;
  if negb continue_ then ok_ else step_handle m.

(** ** The clock *)

(** [let _ = self.step(m)] with a message from the node to itself. *)
Definition step_self (t : MessageType) : rm S unit :=
  self_id ← gets r_id;
  _ ← step (new_message INVALID_ID t (Some self_id));
  mret ().

Definition tick_election : rm S bool :=
  n ← asks (λ r, r_election_elapsed r +! 1);
  modify (set_r_election_elapsed n);;
  fire ← gets (λ r, pass_election_timeout r && r_promotable r);
  if negb fire then mret false
  else
    modify (set_r_election_elapsed 0);;
    step_self MsgHup;; mret true.

Definition tick_heartbeat : rm S bool :=
  n ← asks (λ r, r_heartbeat_elapsed r +! 1);
  modify (set_r_heartbeat_elapsed n);;
  n ← asks (λ r, r_election_elapsed r +! 1);
  modify (set_r_election_elapsed n);;
  has_ready ←
    (over ← gets (λ r, r_election_timeout r <=? r_election_elapsed r);
     if negb over then mret false
     else
       modify (set_r_election_elapsed 0);;
       check ← gets r_check_quorum;
       when check (step_self MsgCheckQuorum);;
       drop ← gets (λ r, bool_decide (r_state r = Leader) && bool_decide (is_Some (r_lead_transferee r)));
       when drop abort_leader_transfer;;
       mret check);
  st ← gets r_state;
  if negb (bool_decide (st = Leader)) then mret has_ready
  else
    beat ← gets (λ r, r_heartbeat_timeout r <=? r_heartbeat_elapsed r);
    if negb beat then mret has_ready
    else
      modify (set_r_heartbeat_elapsed 0);;
      step_self MsgBeat;; mret true.

Definition tick : rm S bool :=
  st ← gets r_state;
  match st with
  | Follower | PreCandidate | Candidate => tick_election
  | Leader => tick_heartbeat
  end.

(** ** Bookkeeping *)

Definition reduce_uncommitted_size (ents : list Entry) : rm S unit := λ r,
  if negb (bool_decide (r_state r = Leader)) then Done (r, ())
  else '(us, _) ← maybe_reduce_uncommitted ents (r_uncommitted_state r);
       Done (set_r_uncommitted_state us r, ()).
Definition uncommitted_size (self : Raft S) : usize := us_uncommitted_size (r_uncommitted_state self).

Definition maybe_free_inflight_buffers : rm S unit :=
  for_progress (λ _ pr, mret (set_pr_ins (Inflights.maybe_free_buffer (pr_ins pr)) pr)).
Definition adjust_max_inflight_msgs (target : u64) (cap : usize) : rm S unit :=
  p ← get_pr target;
  match p with
  | Some pr => ins ← lift (Inflights.set_cap (pr_ins pr) cap); put_pr target (set_pr_ins ins pr)
  | None => mret ()
  end.
(** 8 bytes per slot *)
Definition inflight_buffers_size (self : Raft S) : outcome usize :=
  foldl (λ total p,
    total ← total; n ← Inflights.buffer_capacity (pr_ins p.2) *! 8; total +! n)
    (Done 0) (iter_map (pt_progress (r_prs self))).

(** ** Construction *)

Definition load_state (hs : HardState) : rm S unit :=
  committed ← gets (λ r, l_committed (r_raft_log r));
  last ← asks (λ r, RaftLog.last_index (r_raft_log r));
  if (hs_commit hs <? committed) || (last <? hs_commit hs) then panics Fatal
  else
    modify (λ r, set_r_raft_log (set_l_committed (hs_commit hs) (r_raft_log r)) r);;
    modify (set_r_term (hs_term hs));;
    modify (set_r_vote (hs_vote hs)).

(** The fields of the node before the configuration is restored. *)
Definition initial_raft (c : Config) (store : S) (conf_state : ConfState) : outcome (Raft S) :=
  prs ← Tracker.with_capacity (len (cs_voters conf_state)) (len (cs_learners conf_state))
          (cfg_max_inflight_msgs c);
  raft_log ← RaftLog.new store c;
  max_timeout ← max_election_tick c;
  Done {|
    r_term := 0; r_vote := 0; r_id := cfg_id c; r_read_states := []; r_raft_log := raft_log;
    r_max_inflight := cfg_max_inflight_msgs c; r_max_msg_size := cfg_max_size_per_msg c;
    r_pending_request_snapshot := INVALID_INDEX; r_state := Follower; r_promotable := false;
    r_leader_id := 0; r_lead_transferee := None; r_pending_conf_index := 0;
    r_read_only := ReadOnly.new (cfg_read_only_option c); r_election_elapsed := 0;
    r_heartbeat_elapsed := 0; r_check_quorum := cfg_check_quorum c; r_pre_vote := cfg_pre_vote c;
    r_skip_bcast_commit := cfg_skip_bcast_commit c; r_batch_append := cfg_batch_append c;
    r_disable_proposal_forwarding := cfg_disable_proposal_forwarding c;
    r_heartbeat_timeout := cfg_heartbeat_tick c; r_election_timeout := cfg_election_tick c;
    r_randomized_election_timeout := 0; r_min_election_timeout := min_election_tick c;
    r_max_election_timeout := max_timeout; r_priority := cfg_priority c;
    r_uncommitted_state := mkUncommittedState (cfg_max_uncommitted_size c) 0 0;
    r_max_committed_size_per_ready := cfg_max_committed_size_per_ready c;
    r_prs := prs; r_msgs := []; r_draws := 0 |}.

Definition start (c : Config) (raft_state : Storage.RaftState) : rm S (result unit) :=
  let conf_state := rs_conf_state raft_state in
  last_index ← asks (λ r, RaftLog.last_index (r_raft_log r));
  restored ← (λ r, let '(prs, res) := ConfChange.restore last_index conf_state (r_prs r) in
                   Done (set_r_prs prs r, res));
  match restored with
  | Err e => mret (Err e)
  | Ok _ =>
      new_cs ← post_conf_change;
      if negb (conf_state_eq new_cs conf_state) then panics Fatal
      else
        when (negb (bool_decide (rs_hard_state raft_state = HardState_default)))
          (load_state (rs_hard_state raft_state));;
        when (0 <? cfg_applied c) (commit_apply_internal (cfg_applied c) true);;
        term ← gets r_term;
        become_follower term INVALID_ID;; ok_
  end.

(** [Raft::new] *)
Definition new (c : Config) (store : S) : outcome (result (Raft S)) :=
  valid ← validate c;
  match valid, Storage.initial_state store with
  | Err e, _ | Ok _, Err e => Done (Err e)
  | Ok _, Ok raft_state =>
      r ← initial_raft c store (rs_conf_state raft_state);
      '(r, res) ← start c raft_state r;
      Done (match res with Ok _ => Ok r | Err e => Err e end)
  end.
End steps.
