(* ===== verification/RaftReset.v ===== *)
(** * What the role changes do

    The exact effect of [reset] and of the four [become_..] methods on every
    field that the election and commit rules look at. *)
From S2P Require Import Prelude Errors Proto Util Quorum Storage Unstable ReadOnly Config.
From S2P Require Import Progress Tracker RaftLog RaftState RaftSend RaftRole RaftLogic.
#[local] Open Scope N_scope.

Section resets.
Context {S : Type} `{Storage S, PbMessage, HashOrder, Rng}.
Implicit Types r : Raft S.

(** The fields that no role change touches. *)
Record same_node r r' : Prop := {
  sn_id : r_id r' = r_id r;
  sn_msgs : r_msgs r' = r_msgs r;
  sn_reads : r_read_states r' = r_read_states r;
  sn_conf : pt_conf (r_prs r') = pt_conf (r_prs r);
  sn_peers : dom (pt_progress (r_prs r')) = dom (pt_progress (r_prs r));
  sn_group : pt_group_commit (r_prs r') = pt_group_commit (r_prs r);
  sn_promotable : r_promotable r' = r_promotable r;
  sn_check_quorum : r_check_quorum r' = r_check_quorum r;
  sn_pre_vote : r_pre_vote r' = r_pre_vote r;
  sn_priority : r_priority r' = r_priority r;
  sn_timeouts : r_election_timeout r' = r_election_timeout r ∧ r_min_election_timeout r' = r_min_election_timeout r
                ∧ r_max_election_timeout r' = r_max_election_timeout r;
  sn_page : r_max_committed_size_per_ready r' = r_max_committed_size_per_ready r;
  sn_batch : r_batch_append r' = r_batch_append r }.

#[export] Instance same_node_preorder : PreOrder same_node.
Proof.
  split.
  - by constructor.
  - intros r1 r2 r3 [] []. constructor; naive_solver congruence.
Qed.

Record resets (t : u64) r r' : Prop := {
  rs_same : same_node r r';
  rs_term : r_term r' = t;
  rs_vote : r_vote r' = (if r_term r =? t then r_vote r else INVALID_ID);
  rs_state : r_state r' = r_state r;
  rs_leader : r_leader_id r' = INVALID_ID;
  rs_log : r_raft_log r' = r_raft_log r;
  rs_votes : pt_votes (r_prs r') = ∅;
  rs_transferee : r_lead_transferee r' = None;
  rs_pending_conf : r_pending_conf_index r' = 0;
  rs_elapsed : r_election_elapsed r' = 0;
  rs_uncommitted : r_uncommitted_state r' = r_uncommitted_state r;
  rs_timeout : RngOk →
    r_min_election_timeout r ≤ r_randomized_election_timeout r' < r_max_election_timeout r }.

(** The loop over the peers changes nothing but their progress. *)
Lemma for_progress_lift f r r' u :
  for_progress (λ id pr, lift (f id pr)) r = Done (r', u) →
  ∃ p, r' = set_r_prs (set_pt_progress p (r_prs r)) r ∧ dom p = dom (pt_progress (r_prs r)).
Proof.
  unfold for_progress. intros E. apply rm_bind_Done in E as (r1 & l & [-> Hl]%rm_gets_Done & E).
  assert (∀ id, id ∈ l.*1 → id ∈ dom (pt_progress (r_prs r))) as Hin.
  { intros id. by rewrite Hl, elem_of_iter_map_keys, elem_of_dom. }
  clear Hl. revert r E Hin. induction l as [|[id pr] l IH]; intros r E Hin; simpl in *.
  - apply rm_ret_Done in E as [-> _]. exists (pt_progress (r_prs r)). split; [|done].
    by destruct r as [? ? ? ? ? ? ? ? ? ? ? ? ? ? ? ? ? ? ? ? ? ? ? ? ? ? ? ? ? [] ? ?].
  - apply rm_bind_Done in E as (r1 & pr' & [-> _]%rm_lift_Done & E).
    apply rm_bind_Done in E as (r2 & [] & ->%rm_modify_Done & E).
    apply IH in E as (p & -> & Hd).
    + exists p. split; [done|]. rewrite Hd. simpl. rewrite dom_insert_lookup_L; [done|].
      apply elem_of_dom, Hin. set_solver.
    + intros id' Hid. simpl. rewrite dom_insert. set_solver.
Qed.

Lemma reset_resets t r r' u : reset t r = Done (r', u) → resets t r r'.
Proof.
  intros E. unfold reset in E.
  apply rm_bind_Done in E as (r1 & cur & [-> ->]%rm_gets_Done & E).
  apply rm_bind_Done in E as (r1 & [] & Ht & E).
  assert (r1 = (if r_term r =? t then r else set_r_vote INVALID_ID (set_r_term t r))) as ->.
  { destruct (r_term r =? t); simpl in Ht; inv_rm; done. }
  unfold reset_randomized_election_timeout, abort_leader_transfer in E.
  repeat (apply rm_bind_Done in E as (? & ? & ? & E)). inv_rm.
  apply for_progress_lift in E as (p & -> & Hd). simpl in *.
  rename Hr into Hto. apply assert_Done in Hto.
  clear Ht. destruct (N.eqb_spec (r_term r) t) as [Heq|Hne]; simpl in *; constructor; simpl; try done.
  all: try by constructor.
  - by rewrite Heq, N.eqb_refl.
  - intros Hrng. apply gen_range_spec. by apply N.ltb_lt.
  - by rewrite (proj2 (N.eqb_neq _ _)).
  - intros Hrng. apply gen_range_spec. by apply N.ltb_lt.
Qed.

(** No peer counts as heard from. *)
Definition inactive r : Prop := ∀ id pr, pt_progress (r_prs r) !! id = Some pr → pr_recent_active pr = false.

(** Every progress the loop has been at has the property. *)
Lemma for_progress_list_all (P : Progress → Prop) f l r r' u :
  (∀ id pr pr', f id pr = Done pr' → P pr') →
  for_progress_list (λ id pr, lift (f id pr)) l r = Done (r', u) →
  ∀ id pr, pt_progress (r_prs r') !! id = Some pr → P pr ∨ (id ∉ l.*1) ∧ pt_progress (r_prs r) !! id = Some pr.
Proof.
  intros Hf. revert r. induction l as [|[id0 pr0] l IH]; intros r E id pr Hl; simpl in *.
  - apply rm_ret_Done in E as [-> _]. right. split; [set_solver|done].
  - apply rm_bind_Done in E as (r1 & pr' & [-> Hpr]%rm_lift_Done & E).
    apply rm_bind_Done in E as (r2 & [] & ->%rm_modify_Done & E).
    destruct (IH _ E id pr Hl) as [|[Hn Hi]]; [by left|]. simpl in Hi. destruct (decide (id = id0)) as [->|Hne].
    + rewrite lookup_insert_eq in Hi. simplify_eq. left. by eapply Hf.
    + rewrite lookup_insert_ne in Hi by done. right. set_solver.
Qed.
Lemma reset_inactive t r r' u : reset t r = Done (r', u) → inactive r'.
Proof.
  intros E id pr Hl. unfold reset, reset_randomized_election_timeout, abort_leader_transfer in E.
  repeat match type of E with mbind _ _ _ = _ => apply rm_bind_Done in E as (? & ? & _ & E) end.
  unfold for_progress in E. apply rm_bind_Done in E as (r1 & l & [-> ->]%rm_gets_Done & E).
  eapply (for_progress_list_all (λ pr, pr_recent_active pr = false)) in E as [|[Hn Hi]]; [done| | |exact Hl].
  - destruct Hn. rewrite elem_of_iter_map_keys. eauto.
  - clear. intros id pr pr' Hpr. unfold reset_progress in Hpr. inv_done. by case_match; inv_done.
Qed.

Record becomes (st : StateRole) (t vote leader : u64) r r' : Prop := {
  bc_same : same_node r r';
  bc_state : r_state r' = st;
  bc_term : r_term r' = t;
  bc_vote : r_vote r' = vote;
  bc_leader : r_leader_id r' = leader;
  bc_votes : pt_votes (r_prs r') = ∅;
  bc_transferee : r_lead_transferee r' = None;
  bc_timeout : RngOk →
    r_min_election_timeout r ≤ r_randomized_election_timeout r' < r_max_election_timeout r }.

(** The vote after moving to term [t]: it is forgotten in a new term only. *)
Definition vote_in (t : u64) r : u64 := if r_term r =? t then r_vote r else INVALID_ID.

Lemma become_follower_spec t leader r r' u :
  become_follower t leader r = Done (r', u) →
  becomes Follower t (vote_in t r) leader r r' ∧ r_election_elapsed r' = 0 ∧
  r_pending_request_snapshot r' = r_pending_request_snapshot r ∧
  r_pending_conf_index r' = 0 ∧ r_uncommitted_state r' = r_uncommitted_state r ∧
  r_raft_log r' = set_l_max_apply_unpersisted_log_limit 0 (r_raft_log r).
Proof.
  intros E. unfold become_follower, set_max_apply_unpersisted_log_limit in E.
  apply rm_bind_Done in E as (r1 & prs & [-> ->]%rm_gets_Done & E).
  apply rm_bind_Done in E as (r2 & [] & Hr%reset_resets & E). inv_rm.
  destruct Hr as [Hs Ht Hv _ _ Hl Hvs Htr Hpc He Hu Hto].
  split; [|by rewrite <-Hl]. constructor; simpl; try done.
  destruct Hs. by constructor.
Qed.

Lemma become_follower_inactive t leader r r' u : become_follower t leader r = Done (r', u) → inactive r'.
Proof.
  intros E. unfold become_follower, set_max_apply_unpersisted_log_limit in E.
  apply rm_bind_Done in E as (r1 & prs & [-> ->]%rm_gets_Done & E).
  apply rm_bind_Done in E as (r2 & [] & Hr%reset_inactive & E). by inv_rm.
Qed.

Lemma become_candidate_spec r r' u :
  become_candidate r = Done (r', u) →
  becomes Candidate (r_term r + 1) (r_id r) INVALID_ID r r' ∧ r_election_elapsed r' = 0 ∧
  r_raft_log r' = r_raft_log r ∧ r_state r ≠ Leader.
Proof.
  intros E. unfold become_candidate, assert_state_ne in E.
  apply rm_bind_Done in E as (r1 & [] & [-> Ha]%rm_asks_Done & E). apply assert_Done in Ha.
  apply rm_bind_Done in E as (r1 & t & [-> Ht]%rm_asks_Done & E). apply add64_Done in Ht as [_ ->].
  apply rm_bind_Done in E as (r2 & [] & Hr%reset_resets & E). inv_rm.
  destruct Hr as [Hs Ht Hv _ Hld Hl Hvs Htr Hpc He Hu Hto].
  split_and!; [|done..|by case_bools]. constructor; simpl; try done.
  - destruct Hs. by constructor.
  - apply (sn_id _ _ Hs).
Qed.

Lemma become_pre_candidate_spec r r' u :
  become_pre_candidate r = Done (r', u) →
  r' = set_r_leader_id INVALID_ID (set_r_prs (reset_votes (r_prs r)) (set_r_state PreCandidate r)) ∧
  r_state r ≠ Leader.
Proof.
  intros E. unfold become_pre_candidate, assert_state_ne in E. inv_rm.
  apply assert_Done in Hr. split; [done|]. by case_bools.
Qed.

(** What [append_entry] leaves alone. *)
Lemma append_entry_spec es r r' b :
  append_entry es r = Done (r', b) →
  ∃ us l, r' = set_r_raft_log l (set_r_uncommitted_state us r) ∧
    if b then
      maybe_increase_uncommitted es (r_uncommitted_state r) = Done (us, true) ∧
      ∃ li es' i, RaftLog.last_index (r_raft_log r) = Done li ∧
        number_entries (r_term r) li 0 es = Done es' ∧
        RaftLog.append es' (r_raft_log r) = Done (l, i)
    else maybe_increase_uncommitted es (r_uncommitted_state r) = Done (us, false) ∧ l = r_raft_log r.
Proof.
  intros E. unfold append_entry in E. apply rm_bind_Done in E as (r1 & ok & Hu & E).
  unfold maybe_increase_uncommitted_size in Hu. apply bind_Done in Hu as ([us ok'] & Hu & Eu).
  injection Eu as <- <-. destruct ok'; simpl in E.
  - inv_rm. eauto 10.
  - apply rm_ret_Done in E as [-> ->]. exists us, (r_raft_log r). split; [|done]. by destruct r.
Qed.

Lemma append_entry_or_panic_spec es r r' u :
  append_entry_or_panic es r = Done (r', u) →
  append_entry es r = Done (r', true).
Proof. intros E. unfold append_entry_or_panic in E. inv_rm. destruct a; simpl in E; inv_rm; done. Qed.

Lemma become_leader_spec r r' u :
  become_leader r = Done (r', u) →
  becomes Leader (r_term r) (r_vote r) (r_id r) r r' ∧ r_state r ≠ Follower ∧
  is_Some (Tracker.get (r_id r) (r_prs r)) ∧
  ∃ last es i us,
    RaftLog.last_index (r_raft_log r) = Done last ∧ l_persisted (r_raft_log r) = last ∧
    r_pending_conf_index r' = last ∧ number_entries (r_term r) last 0 [Entry_default] = Done es ∧
    RaftLog.append es (r_raft_log r) = Done (r_raft_log r', i) ∧
    maybe_increase_uncommitted [Entry_default]
      (set_us_last_log_tail_index last (set_us_uncommitted_size 0 (r_uncommitted_state r))) = Done (us, true) ∧
    r_uncommitted_state r' = us.
Proof.
  intros E. unfold become_leader, assert_state_ne in E.
  apply rm_bind_Done in E as (r1 & [] & [-> Ha]%rm_asks_Done & E). apply assert_Done in Ha.
  apply rm_bind_Done in E as (r1 & t & [-> ->]%rm_gets_Done & E).
  apply rm_bind_Done in E as (r2 & [] & Hr%reset_resets & E). inv_rm.
  destruct Hr as [Hs Ht Hv Hst Hld Hl Hvs Htr Hpc He Hu Hto]. simpl in *.
  apply append_entry_or_panic_spec, append_entry_spec in E as (us & l & -> & Hus & li & es & i & Hli & Hes & Hap).
  rename Hr2 into Hli', Hr3 into Hp, Hr6 into Hpr, a1 into last. apply assert_Done, N.eqb_eq in Hp.
  simpl in *. rewrite Hl in *. assert (li = last) as -> by congruence.
  rewrite Ht in Hes. rewrite N.eqb_refl in Hv. destruct Hs as [Hid ? ? ? Hdom]. split_and!.
  - constructor; simpl; try done.
    constructor; simpl; try done. rewrite Hid in *. rewrite dom_insert_L, Hdom.
    assert (r_id r ∈ dom (pt_progress (r_prs r))); [|set_solver].
    rewrite <-Hdom, elem_of_dom. by eexists.
  - by case_bools.
  - rewrite Hid in Hpr. apply elem_of_dom. rewrite <-Hdom, elem_of_dom. by eexists.
  - exists last, es, i, us. split_and!; try done. by rewrite <-Hu.
Qed.
End resets.
