(* ===== verification/RaftVote.v ===== *)
(** * Terms and votes

    A node never goes back to an older term, and within a term it keeps the vote
    it has cast: the two facts about a single node on which the uniqueness of the
    leader of a term rests. They are shown for every message and every tick. *)
From S2P Require Import Prelude Errors Proto Util Quorum Storage Unstable ReadOnly Config.
From S2P Require Import Progress Tracker RaftLog RaftState RaftSend RaftLogic RaftRole RaftStep RaftReset.
From S2P Require ConfChange.
#[local] Open Scope N_scope.

Section vote.
Context {S : Type} `{Storage S, PbMessage, HashOrder, Rng, ConfChangeCodec}.
Implicit Types r : Raft S.

(** The term does not decrease, and while it stays the same a vote cast stays. *)
Definition vote_order r r' : Prop :=
  r_term r ≤ r_term r' ∧
  (r_term r' = r_term r → r_vote r = INVALID_ID ∨ r_vote r' = r_vote r).

#[export] Instance vote_order_preorder : PreOrder vote_order.
Proof.
  split.
  - intros r. split; [done|by right].
  - intros r1 r2 r3 [Ht1 Hv1] [Ht2 Hv2]. split; [lia|]. intros Ht.
    destruct Hv1 as [|Hv1]; [lia|by left|]. destruct Hv2 as [|Hv2]; [lia|left; congruence|right; congruence].
Qed.

Lemma vote_order_same r r' : r_term r' = r_term r → r_vote r' = r_vote r → vote_order r r'.
Proof. intros Ht Hv. split; [lia|by right]. Qed.
Lemma vote_order_sends r r' : sends r r' → vote_order r r'.
Proof. intros (st & p & ms & rs & ro & -> & _). by apply vote_order_same. Qed.
Lemma vote_order_becomes st t v l r r' :
  becomes st t v l r r' → r_term r ≤ t → (t = r_term r → v = r_vote r) → vote_order r r'.
Proof. intros Hb Ht Hv. destruct Hb. split; [congruence|]. intros E. right. rewrite bc_vote, Hv; congruence. Qed.

Lemma sends_vote {A} (m : rm S A) : keeps sends m → keeps vote_order m.
Proof. intros Hm. eapply keeps_sub; [done|]. apply vote_order_sends. Qed.

Ltac leaf := solve [by apply vote_order_same].
Lemma send_vote m : keeps vote_order (send (S := S) m).
Proof. intros r r' u (m' & _ & ->)%send_spec. by apply vote_order_same. Qed.
Hint Resolve send_vote : raft_keeps.
Hint Extern 4 (keeps vote_order _) => apply sends_vote; solve [eauto with raft_keeps] : raft_keeps.

(** ** Roles *)

Lemma step_down_vote lead : keeps vote_order (term ← gets r_term; become_follower (S := S) term lead).
Proof.
  intros r r' u E. inv_rm. apply become_follower_spec in E as [Hb _].
  eapply vote_order_becomes; [done..|]. intros _. unfold vote_in. by rewrite N.eqb_refl.
Qed.
Lemma step_up_vote lead (b : bool) :
  keeps vote_order (term ← asks (λ r, r_term r +! 1); become_follower (S := S) term lead;; mret b).
Proof.
  intros r r' u E. inv_rm. apply add64_Done in Hr as [_ ->]. apply become_follower_spec in Hr0 as [Hb _].
  eapply vote_order_becomes; [done|lia..].
Qed.
Lemma follow_sender_vote m : keeps vote_order (follow_sender (S := S) m).
Proof.
  intros r r' u E. unfold follow_sender in E. inv_rm. apply assert_Done, N.eqb_eq in Hr.
  apply become_follower_spec in E as [Hb _].
  eapply vote_order_becomes; [done|lia|]. intros _. unfold vote_in. by rewrite Hr, N.eqb_refl.
Qed.
Lemma become_candidate_vote : keeps vote_order (become_candidate (S := S)).
Proof. intros r r' u E. apply become_candidate_spec in E as [Hb _]. eapply vote_order_becomes; [done|lia..]. Qed.
Lemma become_pre_candidate_vote : keeps vote_order (become_pre_candidate (S := S)).
Proof. intros r r' u E. apply become_pre_candidate_spec in E as [-> _]. by apply vote_order_same. Qed.
Lemma become_leader_vote : keeps vote_order (become_leader (S := S)).
Proof. intros r r' u E. apply become_leader_spec in E as [Hb _]. by eapply vote_order_becomes. Qed.
Hint Resolve step_down_vote step_up_vote follow_sender_vote become_candidate_vote
  become_pre_candidate_vote become_leader_vote : raft_keeps.

Lemma maybe_commit_vote : keeps vote_order (maybe_commit (S := S)).
Proof. unfold maybe_commit, unwrap_pr. keeps leaf. Qed.
Lemma append_entry_vote es : keeps vote_order (append_entry (S := S) es).
Proof. intros r r' b E. apply append_entry_spec in E as (us & l & -> & _). by apply vote_order_same. Qed.
Hint Resolve maybe_commit_vote append_entry_vote : raft_keeps.

Lemma has_unapplied_vote lo hi ctx : keeps vote_order (has_unapplied_conf_changes (S := S) lo hi ctx).
Proof. unfold has_unapplied_conf_changes. keeps leaf. Qed.
Hint Resolve has_unapplied_vote : raft_keeps.
Lemma request_votes_vote vm t c ct b ids : keeps vote_order (request_votes (S := S) vm t c ct b ids).
Proof. induction ids as [|id ids IH]; simpl; keeps leaf. Qed.
Hint Resolve request_votes_vote : raft_keeps.
Lemma poll_with_vote again from v : keeps vote_order again → keeps vote_order (poll_with (S := S) again from v).
Proof. intros Ha. unfold poll_with. keeps leaf. Qed.
Hint Resolve poll_with_vote : raft_keeps.
Lemma campaign_at_vote depth ty : keeps vote_order (campaign_at (S := S) depth ty).
Proof. revert ty. induction depth as [|depth IH]; intros ty; simpl; keeps leaf. Qed.
Hint Resolve campaign_at_vote : raft_keeps.
Lemma hup_vote b : keeps vote_order (hup (S := S) b).
Proof. unfold hup, campaign. keeps leaf. Qed.
Lemma maybe_commit_by_vote_vote m : keeps vote_order (maybe_commit_by_vote (S := S) m).
Proof. unfold maybe_commit_by_vote. keeps leaf. Qed.
Hint Resolve hup_vote maybe_commit_by_vote_vote : raft_keeps.

(** ** Handlers *)

Lemma after_progress_vote from b : keeps vote_order (after_progress (S := S) from b).
Proof. unfold after_progress, unwrap_pr. keeps leaf. Qed.
Hint Resolve after_progress_vote : raft_keeps.
Lemma handle_append_response_vote m : keeps vote_order (handle_append_response (S := S) m).
Proof. unfold handle_append_response, get_pr. keeps leaf. Qed.
Lemma recv_ack_vote (id : Raft S → N) ctx :
  keeps vote_order (λ r, let '(ro, acks) := recv_ack (id r) ctx (r_read_only r) in Done (set_r_read_only ro r, acks)).
Proof. intros r r' a E. destruct (recv_ack _ _ _). injection E as <- <-. by apply vote_order_same. Qed.
Hint Resolve handle_append_response_vote recv_ack_vote : raft_keeps.
Lemma handle_heartbeat_response_vote m : keeps vote_order (handle_heartbeat_response (S := S) m).
Proof. pose proof (recv_ack_vote (λ _, m_from m)). unfold handle_heartbeat_response, get_pr. keeps leaf. Qed.
Lemma handle_transfer_leader_vote m : keeps vote_order (handle_transfer_leader (S := S) m).
Proof. unfold handle_transfer_leader, get_pr, abort_leader_transfer. keeps leaf. Qed.
Lemma handle_snapshot_status_vote m : keeps vote_order (handle_snapshot_status (S := S) m).
Proof. unfold handle_snapshot_status, get_pr. keeps leaf. Qed.
Lemma handle_unreachable_vote m : keeps vote_order (handle_unreachable (S := S) m).
Proof. unfold handle_unreachable, get_pr. keeps leaf. Qed.
Hint Resolve handle_heartbeat_response_vote handle_transfer_leader_vote handle_snapshot_status_vote
  handle_unreachable_vote : raft_keeps.
Lemma screen_entries_vote i es : keeps vote_order (screen_entries (S := S) i es).
Proof. revert i. induction es as [|e es IH]; intros i; simpl; keeps leaf. Qed.
Hint Resolve screen_entries_vote : raft_keeps.
Lemma propose_vote m : keeps vote_order (propose (S := S) m).
Proof. unfold propose, get_pr. keeps leaf. Qed.
Lemma answer_read_vote m i : keeps vote_order (answer_read (S := S) m i).
Proof. unfold answer_read. keeps leaf. Qed.
Hint Resolve propose_vote answer_read_vote : raft_keeps.
Lemma add_request_vote c m :
  keeps vote_order (λ r, ro ← add_request c m (r_id r) (r_read_only r); Done (set_r_read_only ro r, ())).
Proof. intros r r' a E. apply bind_Done in E as (ro & _ & E). injection E as <-. by apply vote_order_same. Qed.
Hint Resolve add_request_vote : raft_keeps.
Lemma leader_read_index_vote m : keeps vote_order (leader_read_index (S := S) m).
Proof. unfold leader_read_index. keeps leaf. Qed.
Hint Resolve leader_read_index_vote : raft_keeps.
Lemma step_leader_vote m : keeps vote_order (step_leader (S := S) m).
Proof. unfold step_leader, ok_, check_quorum_active. keeps leaf. Qed.
Hint Resolve step_leader_vote : raft_keeps.

Lemma handle_append_entries_vote m : keeps vote_order (handle_append_entries (S := S) m).
Proof. unfold handle_append_entries, answer_append. keeps leaf. Qed.
Lemma handle_heartbeat_vote m : keeps vote_order (handle_heartbeat (S := S) m).
Proof. unfold handle_heartbeat. keeps leaf. Qed.
Lemma post_conf_change_vote : keeps vote_order (post_conf_change (S := S)).
Proof.
  pose proof (λ f Hf, sends_vote _ (for_peers_sends (S := S) f Hf)) as Hpeers.
  unfold post_conf_change, abort_leader_transfer. keeps leaf. apply Hpeers. intros. keeps leaf.
Qed.
Hint Resolve handle_append_entries_vote handle_heartbeat_vote post_conf_change_vote : raft_keeps.
Lemma conf_restore_vote i cs :
  keeps vote_order (λ r : Raft S, let '(prs, res) := ConfChange.restore i cs (r_prs r) in Done (set_r_prs prs r, res)).
Proof. intros r r' a E. destruct (ConfChange.restore _ _ _). injection E as <- <-. by apply vote_order_same. Qed.
Hint Resolve conf_restore_vote : raft_keeps.
Lemma restore_vote snap : keeps vote_order (restore (S := S) snap).
Proof.
  unfold restore, unwrap_pr. keeps leaf.
Qed.
Hint Resolve restore_vote : raft_keeps.
Lemma handle_snapshot_vote m : keeps vote_order (handle_snapshot (S := S) m).
Proof. unfold handle_snapshot. keeps leaf. Qed.
Hint Resolve handle_snapshot_vote : raft_keeps.
Lemma step_candidate_vote m : keeps vote_order (step_candidate (S := S) m).
Proof. unfold step_candidate, handle_vote_response, poll, ok_. keeps leaf. Qed.
Lemma step_follower_vote m : keeps vote_order (step_follower (S := S) m).
Proof. unfold step_follower, heard_from, ok_. keeps leaf. Qed.
Hint Resolve step_candidate_vote step_follower_vote : raft_keeps.

(** ** Messages and ticks *)

Lemma step_term_vote m : keeps vote_order (step_term (S := S) m).
Proof.
  intros r r' b E. unfold step_term in E. apply rm_bind_Done in E as (r1 & self & [-> ->]%rm_gets_Done & E).
  destruct (m_term m =? 0); [by inv_rm|]. unfold id in *. destruct (N.ltb_spec (r_term r) (m_term m)) as [Ht|Ht].
  - destruct (_ && _); [by inv_rm|]. destruct (_ || _); [by inv_rm|]. inv_rm.
    apply become_follower_spec in Hr as [Hb _]. eapply vote_order_becomes; [done|lia..].
  - keeps_run E leaf.
Qed.

(** A vote is recorded only when it repeats the vote of this term or is the first. *)
Lemma handle_vote_request_vote m : keeps vote_order (handle_vote_request (S := S) m).
Proof.
  intros r r' u E. unfold handle_vote_request in E.
  apply rm_bind_Done in E as (r1 & grant & [-> Hg]%rm_asks_Done & E).
  apply rm_bind_Done in E as (r1 & resp & [-> Hresp]%rm_lift_Done & E).
  destruct grant.
  - apply rm_bind_Done in E as (r1 & [] & (m' & _ & ->)%send_spec & E).
    apply rm_when_Done in E. case_bool_decide as Ht; [|subst; by apply vote_order_same].
    inv_rm. split; [done|intros _; simpl].
    unfold grant_vote in Hg. destruct (can_vote m r) eqn:Hc; [|done]. unfold can_vote in Hc.
    rewrite (bool_decide_eq_false_2 (m_type m = _)) in Hc by congruence. simpl in Hc.
    apply orb_true_iff in Hc as [Hc|]; [|done]. apply orb_true_iff in Hc as [->%N.eqb_eq|Hc]; [by right|].
    apply andb_true_iff in Hc as [->%N.eqb_eq _]. by left.
  - keeps_run E leaf.
Qed.
Hint Resolve step_term_vote handle_vote_request_vote : raft_keeps.

Lemma step_handle_vote m : keeps vote_order (step_handle (S := S) m).
Proof. unfold step_handle, ok_. keeps leaf. Qed.
Hint Resolve step_handle_vote : raft_keeps.
Lemma step_vote m : keeps vote_order (step (S := S) m).
Proof. unfold step, ok_. keeps leaf. Qed.
Hint Resolve step_vote : raft_keeps.
Lemma step_self_vote t : keeps vote_order (step_self (S := S) t).
Proof. unfold step_self. keeps leaf. Qed.
Hint Resolve step_self_vote : raft_keeps.
Lemma tick_vote : keeps vote_order (tick (S := S)).
Proof. unfold tick, tick_election, tick_heartbeat, abort_leader_transfer. keeps leaf. Qed.
Lemma commit_apply_vote i : keeps vote_order (commit_apply (S := S) i).
Proof. unfold commit_apply, commit_apply_internal, append_entry_or_panic. keeps leaf. Qed.
Lemma apply_conf_change_vote cc : keeps vote_order (apply_conf_change (S := S) cc).
Proof. unfold apply_conf_change. keeps leaf. Qed.
Lemma on_persist_entries_vote i t : keeps vote_order (on_persist_entries (S := S) i t).
Proof. unfold on_persist_entries, unwrap_pr. keeps leaf. Qed.
End vote.
