(* ===== verification/RaftStays.v ===== *)
(** * What does not take part in an election

    [stays]: a method that grants no vote and leaves a candidate or a leader with
    its term, its vote and no more votes than before. Everything but the campaign
    and the handling of votes is of this kind. *)
From S2P Require Import Prelude Errors Proto Util Quorum Storage Unstable ReadOnly Config.
From S2P Require Import Progress Tracker RaftLog RaftState RaftSend RaftLogic RaftRole RaftStep RaftReset.
From S2P Require ConfChange.
#[local] Open Scope N_scope.

Section stays.
Context {S : Type} `{Storage S, PbMessage, HashOrder, Rng, ConfChangeCodec}.
Implicit Types r : Raft S.

Definition campaigning (st : StateRole) : Prop := st = Candidate ∨ st = Leader.

Definition stays r r' : Prop :=
  r_id r' = r_id r ∧ grants (r_msgs r') = grants (r_msgs r) ∧
  (campaigning (r_state r') →
     r_state r' = r_state r ∧ r_term r' = r_term r ∧ r_vote r' = r_vote r ∧
     ∀ v, pt_votes (r_prs r') !! v = Some true → pt_votes (r_prs r) !! v = Some true).

#[export] Instance stays_preorder : PreOrder stays.
Proof.
  split.
  - done.
  - intros r1 r2 r3 (Hi1 & Hg1 & Hc1) (Hi2 & Hg2 & Hc2). split_and!; [congruence..|].
    intros Hc. destruct (Hc2 Hc) as (Hs2 & Ht2 & Hv2 & Hvs2). rewrite Hs2 in Hc.
    destruct (Hc1 Hc) as (Hs1 & Ht1 & Hv1 & Hvs1). split_and!; [congruence..|auto].
Qed.

Lemma stays_same r r' :
  r_id r' = r_id r → r_msgs r' = r_msgs r → r_state r' = r_state r → r_term r' = r_term r →
  r_vote r' = r_vote r → pt_votes (r_prs r') = pt_votes (r_prs r) → stays r r'.
Proof. unfold stays. intros -> -> -> -> -> ->. done. Qed.
Lemma stays_quiet r r' :
  r_id r' = r_id r → r_msgs r' = r_msgs r → ¬ campaigning (r_state r') → stays r r'.
Proof. unfold stays. by intros -> -> ?. Qed.
Lemma stays_sends r r' : sends r r' → stays r r'.
Proof. intros (st & p & ms & rs & ro & -> & _ & Hg). split_and!; [done..|]. done. Qed.
Lemma sends_stays {A} (m : rm S A) : keeps sends m → keeps stays m.
Proof. intros Hm. eapply keeps_sub; [done|]. apply stays_sends. Qed.

Ltac leaf := solve [by apply stays_same].
Hint Extern 4 (keeps stays _) => apply sends_stays; solve [eauto with raft_keeps] : raft_keeps.

(** ** Roles *)

Lemma become_follower_stays t lead : keeps stays (become_follower (S := S) t lead).
Proof.
  intros r r' u (Hb & _)%become_follower_spec. destruct Hb as [[Hid Hms] Hst _ _ _ _ _ _].
  apply stays_quiet; [done..|]. rewrite Hst. by intros [|].
Qed.
Lemma become_pre_candidate_stays : keeps stays (become_pre_candidate (S := S)).
Proof.
  intros r r' u (-> & _)%become_pre_candidate_spec. apply stays_quiet; [done..|]. by intros [|].
Qed.
Lemma maybe_commit_stays : keeps stays (maybe_commit (S := S)).
Proof. unfold maybe_commit, unwrap_pr. keeps leaf. Qed.
Lemma append_entry_stays es : keeps stays (append_entry (S := S) es).
Proof. intros r r' b (us & l & -> & _)%append_entry_spec. leaf. Qed.
(** Looking for a configuration change only reads the log. *)
Lemma has_unapplied_store lo hi ctx r r' b :
  has_unapplied_conf_changes lo hi ctx r = Done (r', b) →
  ∃ st, r' = set_r_raft_log (set_l_store st (r_raft_log r)) r.
Proof.
  assert (r = set_r_raft_log (set_l_store (l_store (r_raft_log r)) (r_raft_log r)) r) as Hid
    by (destruct r as [? ? ? ? [] ? ? ? ? ? ? ? ? ? ? ? ? ? ? ? ? ? ? ? ? ? ? ? ? ? ? ?]; done).
  unfold has_unapplied_conf_changes. intros E.
  apply rm_bind_Done in E as (r1 & u & [-> ->]%rm_gets_Done & E).
  destruct (l_committed _ <=? _); [inv_rm; eauto|].
  apply rm_bind_Done in E as (r1 & ps & [-> ->]%rm_gets_Done & E).
  apply rm_bind_Done in E as (r1 & [f res] & (l & Es & ->)%rm_with_log_Done & E).
  apply bind_Done in Es as ([[l1 f1] r2] & Es & E'). simplify_eq.
  apply scan_loop_store in Es as [st ->]. exists st. destruct res; [|done]. by inv_rm.
Qed.
Lemma has_unapplied_sends lo hi ctx : keeps sends (has_unapplied_conf_changes (S := S) lo hi ctx).
Proof. intros r r' b [st ->]%has_unapplied_store. apply sends_store. Qed.
Lemma request_votes_sends vm t c ct b ids :
  vm ≠ MsgRequestVoteResponse → keeps sends (request_votes (S := S) vm t c ct b ids).
Proof.
  intros Hvm. assert (∀ m, m_type m = vm → is_grant m = false) as Hg.
  { intros m <-. unfold is_grant. by rewrite bool_decide_eq_false_2. }
  induction ids as [|id ids IH]; simpl; [keeps idtac|].
  destruct b; keeps idtac; apply send_sends; by apply Hg.
Qed.
Hint Resolve become_follower_stays become_pre_candidate_stays maybe_commit_stays append_entry_stays
  has_unapplied_sends : raft_keeps.
Lemma maybe_commit_by_vote_stays m : keeps stays (maybe_commit_by_vote (S := S) m).
Proof. unfold maybe_commit_by_vote. keeps leaf. Qed.
Hint Resolve maybe_commit_by_vote_stays : raft_keeps.

(** ** Trackers keep the votes *)

Lemma quorum_recently_active_votes id p p' b :
  quorum_recently_active id p = Done (p', b) → pt_votes p' = pt_votes p ∧ pt_conf p' = pt_conf p.
Proof.
  unfold quorum_recently_active. destruct (foldl _ _ _) as [m a]. intros E. by inv_done.
Qed.
Lemma quorum_recently_active_conf id p p' b : quorum_recently_active id p = Done (p', b) → pt_conf p' = pt_conf p.
Proof. by intros [_ ?]%quorum_recently_active_votes. Qed.
Lemma apply_conf_votes c ch i p : pt_votes (apply_conf c ch i p) = pt_votes p.
Proof.
  unfold apply_conf. change (pt_votes p) with (pt_votes (set_pt_conf c p)).
  generalize (set_pt_conf c p) as q. induction ch as [|[id []] ch IH]; intros q; simpl; [done|..]; by rewrite IH.
Qed.
Lemma restore_simple_votes i cs p : pt_votes (ConfChange.restore_simple i cs p).1 = pt_votes p.
Proof.
  revert p. induction cs as [|c cs IH]; intros p; simpl; [done|].
  destruct (ConfChange.simple _ _) as [[cfg ch]|]; [|done]. by rewrite IH, apply_conf_votes.
Qed.
Lemma conf_restore_votes i cs p p' res :
  ConfChange.restore i cs p = (p', res) → pt_votes p' = pt_votes p.
Proof.
  unfold ConfChange.restore. destruct (ConfChange.to_conf_change_single cs) as [out inc].
  destruct (bool_decide _); [intros E; change p' with (p', res).1; rewrite <-E; apply restore_simple_votes|].
  pose proof (restore_simple_votes i out p) as Hv.
  destruct (ConfChange.restore_simple i out p) as [p1 [|]]; simpl in Hv; [|intros E; by simplify_eq].
  destruct (ConfChange.enter_joint _ _ _) as [[cfg ch]|]; intros E; simplify_eq; [|done].
  by rewrite apply_conf_votes.
Qed.

(** ** Handlers *)

Lemma after_progress_stays from b : keeps stays (after_progress (S := S) from b).
Proof. unfold after_progress, unwrap_pr. keeps leaf. Qed.
Hint Resolve after_progress_stays : raft_keeps.
Lemma handle_append_response_stays m : keeps stays (handle_append_response (S := S) m).
Proof. unfold handle_append_response, get_pr. keeps leaf. Qed.
Lemma recv_ack_sends (id : Raft S → N) ctx :
  keeps sends (λ r, let '(ro, acks) := recv_ack (id r) ctx (r_read_only r) in Done (set_r_read_only ro r, acks)).
Proof. intros r r' a E. destruct (recv_ack _ _ _). injection E as <- <-. apply sends_read_only. Qed.
Hint Resolve handle_append_response_stays recv_ack_sends : raft_keeps.
Lemma handle_heartbeat_response_stays m : keeps stays (handle_heartbeat_response (S := S) m).
Proof. pose proof (recv_ack_sends (λ _, m_from m)). unfold handle_heartbeat_response, get_pr. keeps leaf. Qed.
Lemma handle_transfer_leader_stays m : keeps stays (handle_transfer_leader (S := S) m).
Proof. unfold handle_transfer_leader, get_pr, abort_leader_transfer. keeps leaf. Qed.
Lemma handle_snapshot_status_stays m : keeps stays (handle_snapshot_status (S := S) m).
Proof. unfold handle_snapshot_status, get_pr. keeps leaf. Qed.
Lemma handle_unreachable_stays m : keeps stays (handle_unreachable (S := S) m).
Proof. unfold handle_unreachable, get_pr. keeps leaf. Qed.
Hint Resolve handle_heartbeat_response_stays handle_transfer_leader_stays handle_snapshot_status_stays
  handle_unreachable_stays : raft_keeps.
Lemma screen_entries_stays i es : keeps stays (screen_entries (S := S) i es).
Proof. revert i. induction es as [|e es IH]; intros i; simpl; keeps leaf. Qed.
Hint Resolve screen_entries_stays : raft_keeps.
Lemma propose_stays m : keeps stays (propose (S := S) m).
Proof. unfold propose, get_pr. keeps leaf. Qed.
Lemma add_request_sends c m :
  keeps sends (λ r : Raft S, ro ← add_request c m (r_id r) (r_read_only r); Done (set_r_read_only ro r, ())).
Proof. intros r r' a E. apply bind_Done in E as (ro & _ & E). injection E as <-. apply sends_read_only. Qed.
Hint Resolve propose_stays add_request_sends : raft_keeps.
Lemma leader_read_index_stays m : keeps stays (leader_read_index (S := S) m).
Proof. unfold leader_read_index. keeps leaf. Qed.
Lemma check_quorum_active_stays : keeps stays (check_quorum_active (S := S)).
Proof.
  unfold check_quorum_active. keeps idtac.
  match goal with E : quorum_recently_active _ _ = _ |- _ => apply quorum_recently_active_votes in E as [Hv _] end.
  by apply stays_same.
Qed.
Hint Resolve leader_read_index_stays check_quorum_active_stays : raft_keeps.
Lemma step_leader_stays m : keeps stays (step_leader (S := S) m).
Proof. unfold step_leader, ok_. keeps leaf. Qed.
Hint Resolve step_leader_stays : raft_keeps.

Lemma handle_append_entries_stays m : keeps stays (handle_append_entries (S := S) m).
Proof.
  assert (keeps stays (answer_append (S := S) m)) as Ha by (unfold answer_append; keeps leaf).
  assert (keeps stays (to_send ← answer_append m; committed ← gets (λ r, l_committed (r_raft_log r));
                       send (set_m_commit committed to_send))) as Hs.
  { apply (keeps_bind_val _ (λ m', m_type m' = MsgAppendResponse)); [done| |intros m' Hm'; keeps leaf].
    intros r r' m' E. unfold answer_append in E. inv_rm. destruct a as [[? ?]|]; inv_rm; [done|].
    destruct a0 as [hi [ht|]]; by inv_rm. }
  unfold handle_append_entries. keeps leaf.
Qed.
Lemma handle_heartbeat_stays m : keeps stays (handle_heartbeat (S := S) m).
Proof. unfold handle_heartbeat. keeps leaf. Qed.
Lemma post_conf_change_stays : keeps stays (post_conf_change (S := S)).
Proof.
  pose proof (λ f Hf, sends_stays _ (for_peers_sends (S := S) f Hf)) as Hpeers.
  unfold post_conf_change, abort_leader_transfer. keeps leaf. apply Hpeers. intros. keeps leaf.
Qed.
Hint Resolve handle_append_entries_stays handle_heartbeat_stays post_conf_change_stays : raft_keeps.
Lemma conf_restore_stays i cs :
  keeps stays (λ r : Raft S, let '(prs, res) := ConfChange.restore i cs (r_prs r) in Done (set_r_prs prs r, res)).
Proof.
  intros r r' a E. destruct (ConfChange.restore _ _ _) as [p res] eqn:Er. injection E as <- <-.
  apply conf_restore_votes in Er. by apply stays_same.
Qed.
Lemma tracker_clear_stays : keeps stays (modify_prs (S := S) Tracker.clear).
Proof. intros r r' u ->%rm_modify_Done. split_and!; [done..|]. intros _. split_and!; [done..|]. intros v Hv. done. Qed.
Hint Resolve conf_restore_stays tracker_clear_stays : raft_keeps.
Lemma restore_stays snap : keeps stays (restore (S := S) snap).
Proof. unfold restore, unwrap_pr. keeps leaf. Qed.
Hint Resolve restore_stays : raft_keeps.
Lemma handle_snapshot_stays m : keeps stays (handle_snapshot (S := S) m).
Proof. unfold handle_snapshot. keeps leaf. Qed.
Hint Resolve handle_snapshot_stays : raft_keeps.
Lemma commit_apply_stays i : keeps stays (commit_apply (S := S) i).
Proof. unfold commit_apply, commit_apply_internal, append_entry_or_panic. keeps leaf. Qed.
Lemma on_persist_entries_stays i t : keeps stays (on_persist_entries (S := S) i t).
Proof. unfold on_persist_entries, unwrap_pr. keeps leaf. Qed.
Lemma apply_conf_stays c ch i : keeps stays (modify_prs (S := S) (apply_conf c ch i)).
Proof. intros r r' u ->%rm_modify_Done. apply stays_same; try done. apply apply_conf_votes. Qed.
Hint Resolve apply_conf_stays : raft_keeps.
Lemma apply_conf_change_stays cc : keeps stays (apply_conf_change (S := S) cc).
Proof. unfold apply_conf_change. keeps leaf. Qed.
End stays.

#[export] Hint Extern 4 (keeps stays _) => apply sends_stays; solve [eauto with raft_keeps] : raft_keeps.
#[export] Hint Resolve become_follower_stays become_pre_candidate_stays maybe_commit_stays append_entry_stays
  has_unapplied_sends maybe_commit_by_vote_stays step_leader_stays handle_append_entries_stays
  handle_heartbeat_stays handle_snapshot_stays : raft_keeps.
#[export] Hint Extern 3 (keeps sends (request_votes _ _ _ _ _ _)) =>
  apply request_votes_sends; discriminate : raft_keeps.
