(* ===== verification/RaftElect.v ===== *)
(** * Elections, seen from one node

    What one event does to a node as a voter and as a candidate: which votes it
    grants, whose votes it counts, and when it becomes a leader. *)
From S2P Require Import Prelude Errors Proto Util Quorum Storage Unstable ReadOnly Config.
From S2P Require Import Majority Joint Progress Tracker RaftLog RaftState RaftSend RaftLogic RaftRole RaftStep.
From S2P Require Import RaftReset RaftVote RaftStays.
#[local] Open Scope N_scope.

Section elect.
Context {S : Type} `{Storage S, PbMessage, HashOrder, Rng, ConfChangeCodec}.
Implicit Types r : Raft S.

(** The votes [vs] win an election in the configuration of [r]. *)
Definition wins (vs : gmap N bool) r : Prop :=
  joint_quorum_of (c_voters (pt_conf (r_prs r))) (λ v, vs !! v = Some true).

(** [m] brings the vote of [v] for term [t]. *)
Definition brings_vote (m : Message) (t v : u64) : Prop :=
  is_grant m = true ∧ m_from m = v ∧ m_term m = t.

(** Whose votes the node may count after an event with message [m]: its own, those
    it had already counted as a candidate of the same term, and the one of [m]. *)
Definition counted (m : Message) r r' (v : u64) : Prop :=
  v = r_id r ∨
  (r_state r = Candidate ∧ r_term r' = r_term r ∧ pt_votes (r_prs r) !! v = Some true) ∨
  brings_vote m (r_term r') v.

Record contest (m : Message) r r' : Prop := {
  ct_id : r_id r' = r_id r;
  ct_candidate : r_state r' = Candidate →
    r_vote r' = r_id r ∧ ∀ v, pt_votes (r_prs r') !! v = Some true → counted m r r' v;
  ct_leader : r_state r' = Leader →
    r_vote r' = r_id r ∧
    ((r_state r = Leader ∧ r_term r' = r_term r) ∨
     ∃ vs, wins vs r ∧ ∀ v, vs !! v = Some true → counted m r r' v) }.

(** A candidate and a leader have voted for themselves. *)
Definition voted_self r : Prop := campaigning (r_state r) → r_vote r = r_id r.

Lemma contest_stays m r r' : voted_self r → stays r r' → contest m r r'.
Proof.
  intros Hv (Hid & _ & Hc). split; [done|..]; intros Hst.
  - destruct Hc as (Hs & Ht & Hvo & Hvs); [by left|]. split; [|intros v ?; right; left; split_and!; [congruence|done|auto]].
    rewrite Hvo. apply Hv. left. congruence.
  - destruct Hc as (Hs & Ht & Hvo & Hvs); [by right|]. split; [rewrite Hvo; apply Hv; right; congruence|].
    left. split; [congruence|done].
Qed.

Lemma contest_then_stays m r r1 r' : contest m r r1 → stays r1 r' → contest m r r'.
Proof.
  intros [Hid Hca Hle] (Hid' & _ & Hc). split; [congruence|..]; intros Hst.
  - destruct Hc as (Hs & Ht & Hvo & Hvs); [by left|]. destruct Hca as [Hv1 Hvs1]; [congruence|].
    split; [congruence|]. intros v Hv. unfold counted in *. rewrite Ht. auto.
  - destruct Hc as (Hs & Ht & Hvo & Hvs); [by right|]. destruct Hle as [Hv1 Hl1]; [congruence|].
    split; [congruence|]. unfold counted in *. rewrite Ht. done.
Qed.

(** Before the contest: the candidacy and the configuration stay. *)
Lemma stays_then_contest m r r1 r' :
  stays r r1 → pt_conf (r_prs r1) = pt_conf (r_prs r) → contest m r1 r' → contest m r r'.
Proof.
  intros (Hid & _ & Hc) Hconf [Hid' Hca Hle].
  assert (∀ v, counted m r1 r' v → counted m r r' v) as Hcount.
  { intros v [->|[(Hs & Ht & Hv)|Hb]]; [by left|right; left|by right; right].
    destruct Hc as (Hs1 & Ht1 & _ & Hvs); [by left|]. split_and!; [congruence..|auto]. }
  split; [congruence|..]; intros Hst.
  - destruct (Hca Hst). split; [congruence|]. auto.
  - destruct (Hle Hst) as [Hv Hl]. split; [congruence|]. destruct Hl as [[Hs Ht]|(vs & Hw & Hvs)].
    + left. destruct Hc as (Hs1 & Ht1 & _); [by right|]. split; congruence.
    + right. exists vs. split; [unfold wins in *; by rewrite <-Hconf|auto].
Qed.

Lemma wins_same vs r r' : pt_conf (r_prs r') = pt_conf (r_prs r) → wins vs r' → wins vs r.
Proof. unfold wins. by intros ->. Qed.

(** Votes that win the count are a quorum of both halves of the configuration. *)
Lemma tally_won p g rj :
  joint_bounded (c_voters (pt_conf p)) → tally_votes p = Done (g, rj, Won) →
  joint_quorum_of (c_voters (pt_conf p)) (λ v, pt_votes p !! v = Some true).
Proof.
  intros Hb E. unfold tally_votes in E. apply bind_Done in E as ([g1 r1] & _ & E).
  apply bind_Done in E as (res & Hr & E). simplify_eq. unfold Tracker.vote_result in Hr.
  by apply joint_vote_result_won in Hr.
Qed.

Lemma won_leader r r' u :
  (become_leader;; bcast_append) r = Done (r', u) →
  r_state r' = Leader ∧ r_term r' = r_term r ∧ r_vote r' = r_vote r ∧ r_id r' = r_id r ∧
  grants (r_msgs r') = grants (r_msgs r).
Proof.
  intros E. apply rm_bind_Done in E as (r1 & [] & [[[Hid Hms] Hst Ht Hv _ _ _ _] _]%become_leader_spec & E).
  apply bcast_append_sends in E as (st & p & ms & rs & ro & -> & _ & Hg). simpl. split_and!; congruence.
Qed.

(** Counting one more vote as a candidate. *)
Lemma poll_candidate again from vote r r' res :
  joint_bounded (c_voters (pt_conf (r_prs r))) → r_state r = Candidate →
  poll_with again from vote r = Done (r', res) →
  r_id r' = r_id r ∧ grants (r_msgs r') = grants (r_msgs r) ∧
  match res with
  | Won => r_state r' = Leader ∧ r_term r' = r_term r ∧ r_vote r' = r_vote r ∧
           wins (pt_votes (record_vote from vote (r_prs r))) r
  | Lost => r_state r' = Follower
  | Pending => r' = set_r_prs (record_vote from vote (r_prs r)) r
  end.
Proof.
  intros Hb Hst E. unfold poll_with in E.
  apply rm_bind_Done in E as (r1 & [] & ->%rm_modify_Done & E).
  apply rm_bind_Done in E as (r1 & [[g rj] res'] & [-> Ht]%rm_asks_Done & E).
  assert (pt_conf (record_vote from vote (r_prs r)) = pt_conf (r_prs r)) as Hconf
    by (unfold record_vote; by destruct (_ !! from)).
  apply rm_bind_Done in E as (r1 & [] & E1 & [-> ->]%rm_ret_Done). destruct res'.
  - inv_rm. split_and!; done.
  - inv_rm. apply become_follower_spec in E1 as [[[Hid Hms] Hs _ _ _ _ _ _] _]. simpl in *. by rewrite Hms.
  - apply rm_bind_Done in E1 as (r2 & st & [-> ->]%rm_gets_Done & E1). simpl in E1.
    rewrite Hst in E1. apply won_leader in E1 as (Hs & Htm & Hv & Hid & Hg). simpl in *.
    split_and!; try done. simpl in Ht. unfold wins. rewrite <-Hconf. eapply tally_won; [|done]. by rewrite Hconf.
Qed.

Lemma record_vote_true from vote p v :
  pt_votes (record_vote from vote p) !! v = Some true →
  pt_votes p !! v = Some true ∨ (v = from ∧ vote = true).
Proof.
  unfold record_vote. case_match; [by left|]. simpl. rewrite lookup_insert_Some. naive_solver.
Qed.

(** A real campaign: a new term, the own vote, and the votes asked from the others. *)
Lemma campaign_contest m depth ty r r' u :
  joint_bounded (c_voters (pt_conf (r_prs r))) → ty ≠ CAMPAIGN_PRE_ELECTION →
  campaign_at depth ty r = Done (r', u) →
  contest m r r' ∧ grants (r_msgs r') = grants (r_msgs r).
Proof.
  intros Hb Hty E. destruct depth as [|depth]; [discriminate E|]. cbn [campaign_at] in E.
  rewrite (bool_decide_eq_false_2 (ty = CAMPAIGN_PRE_ELECTION)) in E by done.
  apply rm_bind_Done in E as (r1 & [vm t] & E1 & E).
  apply rm_bind_Done in E1 as (r1' & [] & Hc%become_candidate_spec & E1).
  apply rm_bind_Done in E1 as (r1'' & t' & [-> ->]%rm_gets_Done & E1). apply rm_ret_Done in E1 as [-> E1].
  injection E1 as -> ->. destruct Hc as ([Hs1 Hst1 Ht1 Hv1 _ Hvs1 _ _] & _ & _ & _).
  apply rm_bind_Done in E as (r2 & id & [-> ->]%rm_gets_Done & E).
  apply rm_bind_Done in E as (r2 & res & Hp & E).
  pose proof (sn_id _ _ Hs1) as Hid1. pose proof (sn_conf _ _ Hs1) as Hconf1. pose proof (sn_msgs _ _ Hs1) as Hms1.
  apply poll_candidate in Hp as (Hid2 & Hg2 & Hres); [|by rewrite Hconf1|done].
  assert (∀ v, pt_votes (record_vote (r_id r1') true (r_prs r1')) !! v = Some true → v = r_id r) as Hself.
  { intros v [Hv|[-> _]]%record_vote_true; [by rewrite Hvs1 in Hv|done]. }
  assert (contest m r r2) as Hcon.
  { split; [congruence|..]; intros Hst; destruct res; try congruence.
    - subst r2. split; [simpl; congruence|]. intros v Hv%Hself. by left.
    - destruct Hres as (Hs2 & _). congruence.
    - subst r2. simpl in Hst. congruence.
    - destruct Hres as (_ & Ht2 & Hv2 & Hw). split; [congruence|]. right.
      eexists. split; [by eapply wins_same|]. intros v Hv%Hself. by left. }
  case_bool_decide as Hw; [apply rm_ret_Done in E as [-> _]; split; [done|congruence]|].
  assert (sends r2 r') as Hse.
  { keeps_run E idtac. }
  split; [by eapply contest_then_stays, stays_sends|].
  destruct Hse as (? & ? & ? & ? & ? & -> & _ & ?). simpl. congruence.
Qed.

(** A pre-campaign becomes a campaign when it is won, and changes no vote otherwise. *)
Lemma pre_poll_contest m depth from vote r r' res :
  joint_bounded (c_voters (pt_conf (r_prs r))) → r_state r = PreCandidate →
  poll_with (campaign_at depth CAMPAIGN_ELECTION) from vote r = Done (r', res) →
  contest m r r' ∧ grants (r_msgs r') = grants (r_msgs r) ∧ (res = Pending → r_state r' = PreCandidate).
Proof.
  intros Hb Hst E. unfold poll_with in E.
  apply rm_bind_Done in E as (r1 & [] & ->%rm_modify_Done & E).
  apply rm_bind_Done in E as (r1 & [[g rj] res'] & [-> Ht]%rm_asks_Done & E).
  set (r1 := set_r_prs _ r) in *.
  assert (pt_conf (r_prs r1) = pt_conf (r_prs r)) as Hconf
    by (unfold r1, record_vote; simpl; by destruct (_ !! from)).
  assert (stays r r1) as Hstay by (apply stays_quiet; [done..|]; simpl; rewrite Hst; by intros [|]).
  assert (voted_self r) as Hself by (intros Hc; rewrite Hst in Hc; by destruct Hc).
  apply rm_bind_Done in E as (r2 & [] & E1 & [-> ->]%rm_ret_Done). destruct res'.
  - inv_rm. split_and!; [by apply contest_stays|done|done].
  - inv_rm. apply (become_follower_stays) in E1. assert (stays r r2) as Hs2 by (by transitivity r1).
    split_and!; [by apply contest_stays|apply Hs2|done].
  - apply rm_bind_Done in E1 as (r3 & st & [-> ->]%rm_gets_Done & E1). simpl in E1. rewrite Hst in E1. simpl in E1.
    apply (campaign_contest m) in E1 as [Hc Hg]; [|by rewrite Hconf|done].
    split_and!; [by eapply stays_then_contest|done|done].
Qed.

Lemma campaign_any_contest m depth ty r r' u :
  joint_bounded (c_voters (pt_conf (r_prs r))) → campaign_at depth ty r = Done (r', u) →
  contest m r r' ∧ grants (r_msgs r') = grants (r_msgs r).
Proof.
  intros Hb E. destruct (decide (ty = CAMPAIGN_PRE_ELECTION)) as [->|Hty]; [|by eapply campaign_contest].
  destruct depth as [|depth]; [discriminate E|]. cbn [campaign_at] in E.
  rewrite (bool_decide_eq_true_2 (CAMPAIGN_PRE_ELECTION = CAMPAIGN_PRE_ELECTION)) in E by done.
  apply rm_bind_Done in E as (r1 & [vm t] & E1 & E).
  apply rm_bind_Done in E1 as (r1' & [] & [-> Hnl]%become_pre_candidate_spec & E1).
  apply rm_bind_Done in E1 as (r1'' & t' & [-> _]%rm_asks_Done & E1). apply rm_ret_Done in E1 as [-> E1].
  injection E1 as -> ->. set (r1 := set_r_leader_id _ _) in *.
  apply rm_bind_Done in E as (r2 & id & [-> ->]%rm_gets_Done & E).
  apply rm_bind_Done in E as (r2 & res & Hp & E).
  apply (pre_poll_contest m) in Hp as (Hc & Hg & Hpend); [|done|done].
  assert (stays r r1) as Hs1 by (apply stays_quiet; [done..|]; by intros [|]).
  assert (contest m r r2) as Hc2 by (by eapply stays_then_contest).
  case_bool_decide as Hw; [apply rm_ret_Done in E as [-> _]; done|].
  assert (sends r2 r') as Hse by keeps_run E idtac.
  split; [by eapply contest_then_stays, stays_sends|].
  destruct Hse as (? & ? & ? & ? & ? & -> & _ & Hg'). simpl. by rewrite Hg', Hg.
Qed.

(** What an event did to the outbox: it adds only votes granted in the current
    term to the node the vote went to. *)
Definition grants_honest r r' : Prop :=
  ∀ g, g ∈ grants (r_msgs r') → g ∈ grants (r_msgs r) ∨
    (m_from g = r_id r ∧ m_term g = r_term r' ∧ m_term g ≠ 0 ∧ m_to g = r_vote r').

Lemma honest_same r r' : grants (r_msgs r') = grants (r_msgs r) → grants_honest r r'.
Proof. intros Hg g. rewrite Hg. by left. Qed.

(** Granting or refusing a vote. *)
Lemma handle_vote_request_contest m r r' u :
  r_id r ≠ INVALID_ID → voted_self r → (m_type m = MsgRequestVote → m_term m = 0 ∨ m_term m = r_term r) →
  handle_vote_request m r = Done (r', u) → contest m r r' ∧ grants_honest r r'.
Proof.
  intros Hid0 Hself Hterm E. unfold handle_vote_request in E.
  apply rm_bind_Done in E as (r1 & grant & [-> Hg]%rm_asks_Done & E).
  apply rm_bind_Done in E as (r1 & resp & [-> Hresp]%rm_lift_Done & E).
  destruct grant.
  2: { assert (stays r r') as Hs by keeps_run E idtac. split; [by apply contest_stays|apply honest_same, Hs]. }
  apply rm_bind_Done in E as (r1 & [] & (g & Hs & ->)%send_spec & E).
  apply stamp_spec in Hs as (Hgt & Hgr & Hgto & Hgf & Hgtm). simpl in *.
  apply rm_when_Done in E. case_bool_decide as Ht.
  - rewrite Ht in Hresp. simpl in Hresp. injection Hresp as <-. inv_rm.
    specialize (Hgtm eq_refl) as [Hgtm Hne]. destruct (Hterm Ht) as [|Htm]; [done|].
    assert (campaigning (r_state r) → m_from m = r_id r) as Hv.
    { intros Hc. specialize (Hself Hc). unfold grant_vote in Hg.
      destruct (can_vote m r) eqn:Hcv; [|done]. unfold can_vote in Hcv.
      rewrite (bool_decide_eq_false_2 (m_type m = _)) in Hcv by congruence. simpl in Hcv.
      apply orb_true_iff in Hcv as [Hcv|]; [|done].
      apply orb_true_iff in Hcv as [Hcv%N.eqb_eq|Hcv]; [congruence|].
      apply andb_true_iff in Hcv as [Hcv%N.eqb_eq _]. congruence. }
    split.
    + split; simpl; [done|..]; intros Hst.
      * split; [apply Hv; by left|]. intros v Hvv. right; left. done.
      * split; [apply Hv; by right|]. by left.
    + intros g'. simpl. rewrite grants_app, elem_of_app. intros [Hg'|Hg']; [by left|right].
      unfold grants in Hg'. apply list_elem_of_filter in Hg' as [_ ->%list_elem_of_singleton].
      split_and!; congruence.
  - assert (grants [g] = []) as Hgg.
    { apply grants_other. unfold is_grant. rewrite Hgt. destruct (m_type m); try discriminate Hresp; injection Hresp as <-; [by destruct Ht|done]. }
    subst r'. assert (stays r (set_r_msgs (r_msgs r ++ [g]) r)) as Hs.
    { apply stays_sends, sends_msgs. by rewrite grants_app, Hgg, app_nil_r. }
    split; [by apply contest_stays|apply honest_same, Hs].
Qed.

Lemma hup_contest m transfer r r' u :
  joint_bounded (c_voters (pt_conf (r_prs r))) → voted_self r →
  hup transfer r = Done (r', u) → contest m r r' ∧ grants_honest r r'.
Proof.
  intros Hb Hself E. unfold hup in E.
  apply rm_bind_Done in E as (r1 & st & [-> ->]%rm_gets_Done & E).
  assert (contest m r r ∧ grants_honest r r) as Hid by (split; [by apply contest_stays|by apply honest_same]).
  case_bool_decide; [by apply rm_ret_Done in E as [-> _]|].
  apply rm_bind_Done in E as (r1 & lo & [-> _]%rm_asks_Done & E).
  apply rm_bind_Done in E as (r1 & hi & [-> _]%rm_asks_Done & E).
  apply rm_bind_Done in E as (r1 & pend & Hs%has_unapplied_sends & E).
  assert (pt_conf (r_prs r1) = pt_conf (r_prs r) ∧ grants (r_msgs r1) = grants (r_msgs r)) as [Hconf Hg]
    by (by destruct Hs as (? & ? & ? & ? & ? & -> & _ & ?)).
  apply stays_sends in Hs. destruct pend.
  { apply rm_ret_Done in E as [-> _]. split; [by apply contest_stays|by apply honest_same]. }
  apply rm_bind_Done in E as (r2 & pv & [-> ->]%rm_gets_Done & E).
  apply (campaign_any_contest m) in E as [Hc Hg']; [|by rewrite Hconf].
  split; [by eapply stays_then_contest|apply honest_same; congruence].
Qed.

(** A vote response counts for a candidate that is waiting for it in this term. *)
Lemma poll_contest m r r' res :
  joint_bounded (c_voters (pt_conf (r_prs r))) → voted_self r →
  r_state r = PreCandidate ∨
    (r_state r = Candidate ∧ m_type m = MsgRequestVoteResponse ∧ (m_reject m = false → m_term m = r_term r)) →
  poll (m_from m) (negb (m_reject m)) r = Done (r', res) →
  contest m r r' ∧ grants (r_msgs r') = grants (r_msgs r).
Proof.
  intros Hb Hself Hst E. unfold poll in E. destruct Hst as [Hst|(Hst & Hty & Htm)].
  { by apply (pre_poll_contest m) in E as (? & ? & _). }
  apply poll_candidate in E as (Hid & Hg & Hres); [|done..]. split; [|done].
  assert (r_vote r = r_id r) as Hv by (apply Hself; by left).
  assert (∀ v t, t = r_term r → pt_votes (record_vote (m_from m) (negb (m_reject m)) (r_prs r)) !! v = Some true →
    v = r_id r ∨ (r_state r = Candidate ∧ t = r_term r ∧ pt_votes (r_prs r) !! v = Some true) ∨
    brings_vote m t v) as Hcount.
  { intros v t -> [Hvv|[-> Hr]]%record_vote_true; [by right; left|]. right; right. apply negb_true_iff in Hr.
    split_and!; [|done|by apply Htm]. unfold is_grant. by rewrite Hty, Hr. }
  split; [done|..]; intros Hs; destruct res; try congruence.
  - subst r'. split; [done|]. intros v Hvv. by apply Hcount.
  - destruct Hres. congruence.
  - subst r'. simpl in Hs. congruence.
  - destruct Hres as (_ & Ht & Hvo & Hw). split; [congruence|]. right. eexists. split; [done|].
    intros v Hvv. unfold counted. by apply Hcount.
Qed.

(** ** One message *)

(** After the term check: the node is as before, or a follower of the new term. *)
Lemma step_term_spec m r r' c :
  step_term m r = Done (r', c) →
  stays r r' ∧ pt_conf (r_prs r') = pt_conf (r_prs r) ∧
  (c = true → (r' = r ∧ (m_term m = 0 ∨ m_term m = r_term r ∨
                 (r_term r < m_term m ∧ m_type m ≠ MsgRequestVote ∧ m_type m ≠ MsgRequestVoteResponse))) ∨
              (r_state r' = Follower ∧ r_term r' = m_term m)).
Proof.
  intros E. unfold step_term in E. apply rm_bind_Done in E as (r1 & self & [-> ->]%rm_gets_Done & E).
  unfold id in E. destruct (N.eqb_spec (m_term m) 0); [apply rm_ret_Done in E as [-> ->]; naive_solver|].
  destruct (N.ltb_spec (r_term r) (m_term m)).
  - destruct (_ && _); [by apply rm_ret_Done in E as [-> ->]|].
    destruct (_ || _) eqn:Hpv.
    { apply rm_ret_Done in E as [-> ->]. split_and!; [done..|]. intros _. left. split; [done|].
      right; right. apply orb_true_iff in Hpv as [Hpv%bool_decide_eq_true|[Hpv%bool_decide_eq_true _]%andb_true_iff];
      rewrite Hpv; done. }
    inv_rm. pose proof (become_follower_stays _ _ _ _ _ Hr) as Hs.
    apply become_follower_spec in Hr as [[Hsn Hst Ht _ _ _ _ _] _]. split_and!; [done|apply Hsn|].
    intros _. by right.
  - destruct (N.ltb_spec (m_term m) (r_term r)).
    + assert (sends r r') as Hs by keeps_run E idtac.
      apply rm_bind_Done in E as (r1 & [] & E1 & [-> ->]%rm_ret_Done).
      split_and!; [by apply stays_sends|by destruct Hs as (? & ? & ? & ? & ? & -> & _)|done].
    + apply rm_ret_Done in E as [-> ->]. split_and!; [done..|]. intros _. left. split; [done|]. lia.
Qed.

Lemma voted_self_stays r r' : voted_self r → stays r r' → voted_self r'.
Proof.
  intros Hv (Hid & _ & Hc) Hcam. destruct (Hc Hcam) as (Hs & _ & Hvo & _).
  rewrite Hvo, Hid. apply Hv. by rewrite <-Hs.
Qed.

Lemma honest_stays r r1 r' : stays r r1 → grants_honest r1 r' → grants_honest r r'.
Proof. intros (Hid & Hg & _) Hh g. rewrite <-Hg, <-Hid. apply Hh. Qed.

Lemma handle_vote_response_contest m r r' res :
  joint_bounded (c_voters (pt_conf (r_prs r))) → voted_self r →
  r_state r = PreCandidate ∨ r_state r = Candidate →
  (is_grant m = true → r_state r = Candidate → m_term m = r_term r) →
  handle_vote_response m r = Done (r', res) → contest m r r' ∧ grants_honest r r'.
Proof.
  intros Hb Hself Hst Hgrant E. unfold handle_vote_response, ok_ in E.
  apply rm_bind_Done in E as (r1 & st & [-> ->]%rm_gets_Done & E).
  destruct (_ || _) eqn:Hskip.
  { apply rm_ret_Done in E as [-> _]. split; [by apply contest_stays|by apply honest_same]. }
  apply rm_bind_Done in E as (r1 & vr & Hp & E).
  apply poll_contest in Hp as [Hc Hg]; [|done|done|].
  - assert (stays r1 r') as Hs by keeps_run E idtac.
    split; [by eapply contest_then_stays|]. apply honest_same. destruct Hs as (_ & Hg' & _). congruence.
  - destruct Hst as [|Hst]; [by left|right]. rewrite Hst in Hskip. simpl in Hskip.
    case_bool_decide as Ht; [|done]. split_and!; [done..|]. intros Hr. apply Hgrant; [|done].
    unfold is_grant. by rewrite Ht, Hr.
Qed.

Lemma step_candidate_stays m :
  m_type m ≠ MsgRequestVoteResponse → m_type m ≠ MsgRequestPreVoteResponse → keeps stays (step_candidate (S := S) m).
Proof. intros H1' H2'. unfold step_candidate, follow_sender, ok_. keeps idtac; congruence. Qed.
Lemma step_follower_stays m : m_type m ≠ MsgTimeoutNow → keeps stays (step_follower (S := S) m).
Proof.
  intros Ht. unfold step_follower, heard_from, ok_.
  keeps ltac:(solve [by apply stays_same]); congruence.
Qed.

(** What a node does with a message that is not about a vote, as a non-leader. *)
Lemma step_handle_contest m r r' res :
  joint_bounded (c_voters (pt_conf (r_prs r))) → r_id r ≠ INVALID_ID → voted_self r →
  (m_type m = MsgRequestVote → m_term m = 0 ∨ m_term m = r_term r) →
  (is_grant m = true → r_state r = Candidate → m_term m = r_term r) →
  step_handle m r = Done (r', res) → contest m r r' ∧ grants_honest r r'.
Proof.
  intros Hb Hid Hself Hreq Hgrant E.
  assert (∀ r', stays r r' → contest m r r' ∧ grants_honest r r') as Hstay.
  { intros r1 Hs. split; [by apply contest_stays|apply honest_same, Hs]. }
  unfold step_handle, ok_ in E.
  destruct (decide (m_type m = MsgHup)) as [Ht|Ht1]; [rewrite Ht in E; inv_rm; by eapply hup_contest|].
  destruct (decide (m_type m = MsgRequestVote)) as [Ht|Ht2];
    [rewrite Ht in E; inv_rm; by eapply handle_vote_request_contest|].
  destruct (decide (m_type m = MsgRequestPreVote)) as [Ht|Ht3];
    [rewrite Ht in E; inv_rm; eapply handle_vote_request_contest; [done..|by rewrite Ht|done]|].
  assert ((st ← gets r_state; match st with
     | PreCandidate | Candidate => step_candidate m | Follower => step_follower m | Leader => step_leader m end) r
    = Done (r', res)) as E' by (destruct (m_type m); done). clear E.
  apply rm_bind_Done in E' as (r1 & st & [-> ->]%rm_gets_Done & E).
  assert (r_state r = PreCandidate ∨ r_state r = Candidate → step_candidate m r = Done (r', res) →
    contest m r r' ∧ grants_honest r r') as Hcand.
  { clear E. intros Hst E. destruct (decide (m_type m = MsgRequestVoteResponse)) as [Ht|Ht4];
      [unfold step_candidate in E; rewrite Ht in E; by eapply handle_vote_response_contest|].
    destruct (decide (m_type m = MsgRequestPreVoteResponse)) as [Ht|Ht5];
      [unfold step_candidate in E; rewrite Ht in E; by eapply handle_vote_response_contest|].
    apply Hstay. by eapply step_candidate_stays. }
  destruct (r_state r) eqn:Hst; [|by apply Hcand; [right|]| |by apply Hcand; [left|]].
  - destruct (decide (m_type m = MsgTimeoutNow)) as [Ht|Ht4]; [|apply Hstay; by eapply step_follower_stays].
    unfold step_follower, ok_ in E. rewrite Ht in E.
    apply rm_bind_Done in E as (r1 & ld & [-> ->]%rm_gets_Done & E).
    apply rm_bind_Done in E as (r1 & pr & [-> ->]%rm_gets_Done & E).
    apply rm_bind_Done in E as (r1 & [] & Hh%rm_when_Done & [-> _]%rm_ret_Done).
    destruct (r_promotable r); [by eapply hup_contest|subst; by apply Hstay].
  - apply Hstay. by eapply step_leader_stays.
Qed.

(** One message, from the network or from the node itself. *)
Lemma step_contest m r r' res :
  joint_bounded (c_voters (pt_conf (r_prs r))) → r_id r ≠ INVALID_ID → voted_self r →
  (is_grant m = true → m_term m ≠ 0) →
  step m r = Done (r', res) → contest m r r' ∧ grants_honest r r'.
Proof.
  intros Hb Hid Hself Hgrant E. unfold step in E.
  apply rm_bind_Done in E as (r1 & c & (Hs & Hconf & Hc)%step_term_spec & E). destruct c; simpl in E.
  2: { unfold ok_ in E. inv_rm. split; [by apply contest_stays|apply honest_same, Hs]. }
  specialize (Hc eq_refl). apply step_handle_contest in E as [Hcon Hh].
  - split; [by eapply stays_then_contest|by eapply honest_stays].
  - by rewrite Hconf.
  - destruct Hs as (-> & _). done.
  - by eapply voted_self_stays.
  - intros Ht. destruct Hc as [(-> & [?|[?|(_ & ? & _)]])|[_ Ht1]]; auto; done.
  - intros Hg Hst. destruct Hc as [(-> & [?|[?|(_ & _ & Hne)]])|[Hst1 Ht1]]; [by destruct Hgrant|done| |congruence].
    unfold is_grant in Hg. by apply andb_true_iff in Hg as [?%bool_decide_eq_true _].
Qed.

(** Messages that are not about elections, and the clock. *)
Definition about_election (t : MessageType) : bool :=
  match t with
  | MsgHup | MsgRequestVote | MsgRequestPreVote | MsgRequestVoteResponse | MsgRequestPreVoteResponse
  | MsgTimeoutNow => true
  | _ => false
  end.
Lemma step_other_stays m : about_election (m_type m) = false → keeps stays (step (S := S) m).
Proof.
  intros Ht r r' res E. unfold step in E.
  apply rm_bind_Done in E as (r1 & c & (Hs & _)%step_term_spec & E). transitivity r1; [done|].
  destruct c; simpl in E; [|unfold ok_ in E; by inv_rm].
  assert (keeps stays (step_candidate (S := S) m)) as Hc by (apply step_candidate_stays; intros Hm; by rewrite Hm in Ht).
  assert (keeps stays (step_follower (S := S) m)) as Hf by (apply step_follower_stays; intros Hm; by rewrite Hm in Ht).
  unfold step_handle, ok_ in E. destruct (m_type m); try discriminate Ht;
    (apply rm_bind_Done in E as (r2 & st & [-> ->]%rm_gets_Done & E);
     destruct (r_state r1); solve [by eapply Hf|by eapply Hc|by eapply step_leader_stays]).
Qed.
Lemma step_self_stays t : about_election t = false → keeps stays (step_self (S := S) t).
Proof.
  intros Ht. unfold step_self. keeps idtac. by apply step_other_stays.
Qed.

Lemma tick_contest m r r' b :
  joint_bounded (c_voters (pt_conf (r_prs r))) → r_id r ≠ INVALID_ID → voted_self r → is_grant m = false →
  tick r = Done (r', b) → contest m r r' ∧ grants_honest r r'.
Proof.
  intros Hb Hid Hself Hm E. unfold tick in E.
  apply rm_bind_Done in E as (r1 & st & [-> ->]%rm_gets_Done & E).
  assert (tick_election r = Done (r', b) → contest m r r' ∧ grants_honest r r') as Hel.
  { clear E. intros E. unfold tick_election in E.
    apply rm_bind_Done in E as (r1 & n & [-> _]%rm_asks_Done & E).
    apply rm_bind_Done in E as (r1 & [] & ->%rm_modify_Done & E).
    apply rm_bind_Done in E as (r1 & fire & [-> ->]%rm_gets_Done & E).
    set (r1 := set_r_election_elapsed n r) in *. assert (stays r r1) as Hs by (by apply stays_same).
    destruct (negb _); [apply rm_ret_Done in E as [-> _]; split; [by apply contest_stays|apply honest_same, Hs]|].
    apply rm_bind_Done in E as (r2 & [] & ->%rm_modify_Done & E).
    apply rm_bind_Done in E as (r3 & [] & E & [-> _]%rm_ret_Done).
    unfold step_self in E. apply rm_bind_Done in E as (r4 & id & [-> ->]%rm_gets_Done & E).
    apply rm_bind_Done in E as (r5 & res & E & [-> _]%rm_ret_Done).
    set (r2 := set_r_election_elapsed 0 r1) in *. assert (stays r r2) as Hs2 by (by apply stays_same).
    apply step_contest in E as [Hc Hh]; [|done..]. split; [|by eapply honest_stays].
    destruct Hc as [Hci Hcc Hcl]. split; [done|..]; intros Hst.
    - destruct (Hcc Hst) as [Hv Hvs]. split; [done|]. intros v [Hvv|[Hvv|(? & _)]]%Hvs; [by left|by right; left|done].
    - destruct (Hcl Hst) as [Hv [Hl|(vs & Hw & Hvs)]]; (split; [done|]); [by left|right].
      exists vs. split; [done|]. intros v [Hvv|[Hvv|(? & _)]]%Hvs; [by left|by right; left|done]. }
  destruct (r_state r) eqn:Hst; [by apply Hel..| |by apply Hel].
  assert (keeps stays (tick_heartbeat (S := S))) as Hk.
  { pose proof (step_self_stays MsgCheckQuorum eq_refl). pose proof (step_self_stays MsgBeat eq_refl).
    unfold tick_heartbeat, abort_leader_transfer. keeps ltac:(solve [by apply stays_same]). }
  apply Hk in E. split; [by apply contest_stays|apply honest_same, E].
Qed.

(** ** Start *)

Lemma post_conf_change_follower r r' cs :
  r_state r = Follower → post_conf_change r = Done (r', cs) → ∃ b, r' = set_r_promotable b r.
Proof.
  intros Hst E. unfold post_conf_change in E.
  apply rm_bind_Done in E as (r1 & cs' & [-> _]%rm_gets_Done & E).
  apply rm_bind_Done in E as (r1 & v & [-> ->]%rm_gets_Done & E).
  apply rm_bind_Done in E as (r1 & [] & ->%rm_modify_Done & E).
  apply rm_bind_Done in E as (r1 & st & [-> ->]%rm_gets_Done & E). simpl in E. rewrite Hst in E.
  simpl in E. rewrite andb_false_r in E. apply rm_ret_Done in E as [-> _]. eauto.
Qed.

(** The log of a node that has just been created: nothing is unstable, and the
    indexes are those of the hard state and the configuration. *)
Definition loaded (c : Config) (store : S) (hs : HardState) (l' : RaftLog S) : Prop :=
  ∃ l committed, RaftLog.new store c = Done l ∧
    l' = set_l_max_apply_unpersisted_log_limit 0
      (set_l_applied (if 0 <? cfg_applied c then cfg_applied c else l_applied l) (set_l_committed committed l)) ∧
    if bool_decide (hs = HardState_default) then committed = l_committed l
    else committed = hs_commit hs ∧ l_committed l ≤ committed ∧
         ∃ last, RaftLog.last_index l = Done last ∧ committed ≤ last.

(** The configuration is the one that the storage names. *)
Definition configured (c : Config) (rs : Storage.RaftState) (r' : Raft S) : Prop :=
  ∃ p0 p next, Tracker.with_capacity (len (cs_voters (rs_conf_state rs))) (len (cs_learners (rs_conf_state rs))) (cfg_max_inflight_msgs c) = Done p0 ∧
    ConfChange.restore next (rs_conf_state rs) p0 = (p, Ok ()) ∧ pt_conf (r_prs r') = pt_conf p.

(** The steps of the construction. *)
Lemma load_stored hs r r' :
  r_term r = 0 → r_vote r = 0 → when (negb (bool_decide (hs = HardState_default))) (load_state (S := S) hs) r = Done (r', ()) →
  ∃ committed, r' = set_r_vote (hs_vote hs) (set_r_term (hs_term hs) (set_r_raft_log (set_l_committed committed (r_raft_log r)) r)) ∧
    if bool_decide (hs = HardState_default) then committed = l_committed (r_raft_log r)
    else committed = hs_commit hs ∧ l_committed (r_raft_log r) ≤ committed ∧
         ∃ last, RaftLog.last_index (r_raft_log r) = Done last ∧ committed ≤ last.
Proof.
  intros Ht Hv Hl%rm_when_Done. case_bool_decide as Hd; simpl in Hl.
  - subst hs r'. exists (l_committed (r_raft_log r)). split; [|done].
    destruct r as [? ? ? ? [] ? ? ? ? ? ? ? ? ? ? ? ? ? ? ? ? ? ? ? ? ? ? ? ? ? ? ?]. simpl in *. by subst.
  - unfold load_state in Hl. exists (hs_commit hs).
    apply rm_bind_Done in Hl as (r3 & com & [-> ->]%rm_gets_Done & Hl).
    apply rm_bind_Done in Hl as (r3 & last & [-> Hlast]%rm_asks_Done & Hl).
    destruct (N.ltb_spec (hs_commit hs) (l_committed (r_raft_log r))); [done|].
    destruct (N.ltb_spec last (hs_commit hs)); [done|]. injection Hl as <-. split; [done|]. eauto.
Qed.
Lemma apply_stored i r r' :
  r_state r = Follower → when (0 <? i) (commit_apply_internal (S := S) i true) r = Done (r', ()) →
  r' = set_r_raft_log (set_l_applied (if 0 <? i then i else l_applied (r_raft_log r)) (r_raft_log r)) r.
Proof.
  intros Hst Ha%rm_when_Done. destruct (0 <? i); [|simpl in Ha; rewrite Ha; clear Ha; by destruct r as [? ? ? ? []]].
  unfold commit_apply_internal in Ha. apply rm_bind_Done in Ha as (r4 & oa & [-> _]%rm_gets_Done & Ha). simpl in Ha.
  apply rm_bind_Done in Ha as (r4 & [] & Hu & Ha). inv_rm. simpl in *. rewrite Hst in Ha.
  rewrite (bool_decide_eq_false_2 (Follower = Leader)), andb_false_r in Ha by done. subst. simplify_eq/=. done.
Qed.
(** A node starts as a follower with the term and the vote it has persisted. *)
Lemma new_spec c store rs r' :
  RaftStep.new c store = Done (Ok r') → Storage.initial_state store = Ok rs →
  r_id r' = cfg_id c ∧ r_msgs r' = [] ∧ r_state r' = Follower ∧
  r_term r' = hs_term (rs_hard_state rs) ∧ r_vote r' = hs_vote (rs_hard_state rs) ∧
  r_leader_id r' = INVALID_ID ∧ r_lead_transferee r' = None ∧ r_batch_append r' = cfg_batch_append c ∧
  r_pending_request_snapshot r' = 0 ∧ configured c rs r' ∧ loaded c store (rs_hard_state rs) (r_raft_log r').
Proof.
  intros E Hrs. unfold RaftStep.new in E. rewrite Hrs in E.
  apply bind_Done in E as (valid & _ & E). destruct valid; [|done].
  apply bind_Done in E as (r0 & Hr0 & E). apply bind_Done in E as ([r1 res] & Es & E).
  destruct res; [|done]. simplify_eq.
  assert (r_id r0 = cfg_id c ∧ r_msgs r0 = [] ∧ r_state r0 = Follower ∧ r_term r0 = 0 ∧ r_vote r0 = 0 ∧
    r_batch_append r0 = cfg_batch_append c ∧ r_pending_request_snapshot r0 = 0 ∧
    Tracker.with_capacity (len (cs_voters (rs_conf_state rs))) (len (cs_learners (rs_conf_state rs))) (cfg_max_inflight_msgs c) = Done (r_prs r0) ∧
    RaftLog.new store c = Done (r_raft_log r0))
    as (Hid & Hms & Hst & Ht & Hv & Hb & Hp & Hpr0 & Hl0) by (unfold initial_raft in Hr0; inv_done; done).
  clear Hr0. unfold start in Es. apply rm_bind_Done in Es as (r2 & li & [-> _]%rm_asks_Done & Es).
  apply rm_bind_Done in Es as (r2 & cres & Ec & Es). destruct (ConfChange.restore _ _ _) as [prs cr] eqn:Hres.
  injection Ec as <- <-. destruct cr as [[]|]; [|unfold ok_ in Es; by inv_rm].
  apply rm_bind_Done in Es as (r2 & ncs & [b ->]%post_conf_change_follower & Es); [|done].
  destruct (negb _); [done|].
  apply rm_bind_Done in Es as (r2 & [] & (com & -> & Hcom)%load_stored & Es); [|simpl; assumption..].
  apply rm_bind_Done in Es as (r2 & [] & ->%apply_stored & Es); [|done].
  apply rm_bind_Done in Es as (r3 & t & [-> ->]%rm_gets_Done & Es).
  apply rm_bind_Done in Es as (r3 & [] & ([Hsn Hs Htt Hvv Hld _ Htr _] & _ & Hpr & _ & _ & Hlog)%become_follower_spec & [-> _]%rm_ret_Done).
  simpl in *. split_and!; try congruence.
  - rewrite (sn_id _ _ Hsn). done.
  - rewrite (sn_msgs _ _ Hsn). done.
  - rewrite Hvv. unfold vote_in. by rewrite N.eqb_refl.
  - rewrite (sn_batch _ _ Hsn). done.
  - exists (r_prs r0), prs, li. split_and!; [done..|]. rewrite (sn_conf _ _ Hsn). done.
  - exists (r_raft_log r0), com. split_and!; [done| |done]. by rewrite Hlog.
Qed.
Lemma new_follower c store rs r' :
  RaftStep.new c store = Done (Ok r') → Storage.initial_state store = Ok rs →
  r_id r' = cfg_id c ∧ r_msgs r' = [] ∧ r_state r' = Follower ∧
  r_term r' = hs_term (rs_hard_state rs) ∧ r_vote r' = hs_vote (rs_hard_state rs) ∧
  r_leader_id r' = INVALID_ID ∧ r_lead_transferee r' = None.
Proof. intros E Hrs. by destruct (new_spec c store rs r' E Hrs) as (? & ? & ? & ? & ? & ? & ? & _). Qed.
End elect.
