(* ===== verification/Replication.v ===== *)
(** * Replication in the abstract

    An abstract account of the protocol, which the nodes of [RaftStep] are shown to
    follow in [RaftFollow]: nodes have terms and logs, in memory and on disk; they
    vote for candidates whose logs are new enough; the winner of an election is the
    only one who adds to the log of its term, and the others acknowledge how much
    of that log they hold. What a quorum has acknowledged is [chosen]; the theorem
    is that two chosen logs never differ. *)
From stdpp Require Import functions.
From S2P Require Import Prelude Errors Proto.
#[local] Open Scope N_scope.

(** ** Logs as lists *)

(** Every entry of [L] was written by the leader of its term, whose log [T] gives,
    and the leader's log agrees with [L] up to there. *)
Definition anchored (T : u64 → list Entry) (L : list Entry) : Prop :=
  ∀ k e, L !! k = Some e → e_term e ≠ 0 ∧ take (S k) L `prefix_of` T (e_term e).

Lemma anchored_mono T T' L : (∀ t, T t `prefix_of` T' t) → anchored T L → anchored T' L.
Proof. intros Hm Ha k e He. destruct (Ha k e He) as [Hne Hp]. split; [done|]. by transitivity (T (e_term e)). Qed.
Lemma anchored_nil T : anchored T [].
Proof. by intros k e He. Qed.
Lemma take_prefix {A} (L1 L2 X : list A) n :
  take n L1 `prefix_of` X → take n L2 `prefix_of` X → (n ≤ length L1)%nat → (n ≤ length L2)%nat → take n L1 = take n L2.
Proof.
  intros [k1 E1] [k2 E2] H1 H2. assert (take n X = take n L1) as <-.
  { rewrite E1, take_app_le by (rewrite length_take; lia). rewrite take_take. f_equal. lia. }
  rewrite E2, take_app_le by (rewrite length_take; lia). rewrite take_take. f_equal. lia.
Qed.
Lemma prefix_take_le {A} (X : list A) j n : (j ≤ n)%nat → take j X `prefix_of` take n X.
Proof. intros Hj. exists (drop j (take n X)). by rewrite <-(take_drop j (take n X)), take_take, Nat.min_l at 1. Qed.
Lemma prefix_app_short {A} (X L1 L2 : list A) : X `prefix_of` L1 ++ L2 → (length X ≤ length L1)%nat → X `prefix_of` L1.
Proof.
  intros Hp Hl. destruct (prefix_weak_total _ _ _ Hp (prefix_app_r L1 L1 L2 (reflexivity _))) as [|Hx]; [done|].
  by rewrite (prefix_length_eq _ _ Hx).
Qed.
(** Two anchored logs that agree on a term agree on everything before. *)
Lemma anchored_agree T L1 L2 k e1 e2 :
  anchored T L1 → anchored T L2 → L1 !! k = Some e1 → L2 !! k = Some e2 → e_term e1 = e_term e2 →
  take (S k) L1 = take (S k) L2.
Proof.
  intros A1 A2 H1 H2 Ht. destruct (A1 k e1 H1) as [_ P1]. destruct (A2 k e2 H2) as [_ P2]. rewrite <-Ht in P2.
  eapply take_prefix; [done|done|by apply lookup_lt_Some in H1|by apply lookup_lt_Some in H2].
Qed.
Lemma anchored_take T L n : anchored T L → anchored T (take n L).
Proof.
  intros Ha k e He. apply lookup_take_Some in He as [He Hk]. destruct (Ha k e He) as [Hne Hp]. split; [done|].
  rewrite take_take. by replace (S k `min` n)%nat with (S k) by lia.
Qed.
(** A leader's new entries. *)
Lemma anchored_grow T t L es :
  anchored T L → t ≠ 0 → Forall (λ e, e_term e = t) es → T t = L ++ es → anchored T (L ++ es).
Proof.
  intros Ha Hne Hes HT k e He. apply lookup_app_Some in He as [He|[Hk He]].
  - destruct (Ha k e He) as [H1 H2]. split; [done|]. rewrite take_app_le; [done|]. by apply lookup_lt_Some in He.
  - rewrite (Forall_lookup_1 _ _ _ _ Hes He). split; [done|]. rewrite HT. apply prefix_take.
Qed.
(** Entries of a leader, put where the log agrees with the leader's. *)
Lemma splice_leader T t L es idx k pt :
  anchored T L → anchored T (T t) → es `prefix_of` drop idx (T t) → (k < length es)%nat →
  (idx = 0%nat ∨ ((∃ e, T t !! (idx - 1)%nat = Some e ∧ e_term e = pt) ∧ ∃ e, L !! (idx - 1)%nat = Some e ∧ e_term e = pt)) →
  (∀ k' e', (k' < k)%nat → es !! k' = Some e' → ∃ e, L !! (idx + k')%nat = Some e ∧ e_term e = e_term e') →
  take (idx + k) L ++ drop k es = take (idx + length es) (T t).
Proof.
  intros Ha HaT [rest Hes] Hk Hprev Hb.
  assert (∀ j e', es !! j = Some e' → T t !! (idx + j)%nat = Some e') as Hin.
  { intros j e' Hj. rewrite <-lookup_drop, Hes. by apply lookup_app_l_Some. }
  assert (idx + length es ≤ length (T t))%nat as Hlen.
  { pose proof (f_equal length Hes) as Hl. rewrite length_drop, length_app in Hl. lia. }
  assert (take (idx + k) L = take (idx + k) (T t)) as ->.
  { destruct (decide (idx + k = 0)%nat) as [->|Hnz]; [done|].
    assert (∃ e1 e2, L !! (idx + k - 1)%nat = Some e1 ∧ T t !! (idx + k - 1)%nat = Some e2 ∧ e_term e1 = e_term e2)
      as (e1 & e2 & H1 & H2 & Ht).
    { destruct k as [|k].
      - destruct Hprev as [|[(e2 & H2 & <-) (e1 & H1 & Ht)]]; [lia|]. rewrite Nat.add_0_r. eauto.
      - destruct (lookup_lt_is_Some_2 es k) as [e' He']; [lia|]. destruct (Hb k e' ltac:(lia) He') as (e & He & Ht).
        replace (idx + S k - 1)%nat with (idx + k)%nat by lia. exists e, e'. split_and!; [done|by apply Hin|done]. }
    replace (idx + k)%nat with (S (idx + k - 1)) by lia. by eapply anchored_agree. }
  rewrite <-(take_drop (idx + k) (take (idx + length es) (T t))). f_equal.
  - rewrite take_take. f_equal. lia.
  - rewrite skipn_firstn_comm, Nat.add_comm, <-drop_drop, Hes, drop_app_le, take_app_le by (rewrite ?length_drop; lia).
    symmetry. apply take_ge. rewrite length_drop. lia.
Qed.

(** ** The protocol *)
Section replication.
(** Which sets of nodes are quorums: any two have a common member. *)
Context (quorum : gset u64 → Prop).
Context (quorum_meet : ∀ P Q, quorum P → quorum Q → ∃ v, v ∈ P ∧ v ∈ Q).

Record group := mkGroup {
  g_term : u64 → u64;                     (* the term of a node *)
  g_log : u64 → list Entry;               (* its log in memory *)
  g_disk : u64 → list Entry;              (* its log on disk *)
  g_runs : u64 → bool;                    (* it is a candidate *)
  g_vote : u64 → u64 → option u64;        (* its vote in a term *)
  g_said : u64 → list (u64 * nat);        (* acknowledgements it has not sent yet: term and length *)
  g_acks : u64 → list (u64 * nat);        (* acknowledgements it has sent *)
  g_won : u64 → option u64;               (* the leader of a term *)
  g_led : u64 → list Entry }.             (* the log of the leader of a term *)

Definition set_term i t b G := mkGroup (<[i:=t]> (g_term G)) (g_log G) (g_disk G) (<[i:=b]> (g_runs G))
  (g_vote G) (g_said G) (g_acks G) (g_won G) (g_led G).
Definition set_vote v c G := mkGroup (g_term G) (g_log G) (g_disk G) (g_runs G)
  (<[v:=<[g_term G v:=Some c]> (g_vote G v)]> (g_vote G)) (g_said G) (g_acks G) (g_won G) (g_led G).
Definition set_won i G := mkGroup (g_term G) (g_log G) (g_disk G) (<[i:=false]> (g_runs G))
  (g_vote G) (g_said G) (g_acks G) (<[g_term G i:=Some i]> (g_won G)) (<[g_term G i:=g_log G i]> (g_led G)).
Definition extend i es G := mkGroup (g_term G) (<[i:=g_log G i ++ es]> (g_log G)) (g_disk G) (g_runs G)
  (g_vote G) (g_said G) (g_acks G) (g_won G) (<[g_term G i:=g_log G i ++ es]> (g_led G)).
Definition set_log v L G := mkGroup (g_term G) (<[v:=L]> (g_log G)) (g_disk G) (g_runs G)
  (g_vote G) (g_said G) (g_acks G) (g_won G) (g_led G).
Definition add_said v n G := mkGroup (g_term G) (g_log G) (g_disk G) (g_runs G)
  (g_vote G) (<[v:=(g_term G v, n) :: g_said G v]> (g_said G)) (g_acks G) (g_won G) (g_led G).
Definition add_ack v n G := mkGroup (g_term G) (g_log G) (g_disk G) (g_runs G)
  (g_vote G) (g_said G) (<[v:=(g_term G v, n) :: g_acks G v]> (g_acks G)) (g_won G) (g_led G).
Definition save v G := mkGroup (g_term G) (g_log G) (<[v:=g_log G v]> (g_disk G)) (g_runs G)
  (g_vote G) (g_said G) (g_acks G) (g_won G) (g_led G).
Definition publish v G := mkGroup (g_term G) (g_log G) (g_disk G) (g_runs G)
  (g_vote G) (<[v:=[]]> (g_said G)) (<[v:=g_said G v ++ g_acks G v]> (g_acks G)) (g_won G) (g_led G).
Definition crash v G := mkGroup (g_term G) (<[v:=g_disk G v]> (g_log G)) (g_disk G) (<[v:=false]> (g_runs G))
  (g_vote G) (<[v:=[]]> (g_said G)) (g_acks G) (g_won G) (g_led G).

(** Node [v] has sent an acknowledgement of at least [n] entries of the log of term [t]. *)
Definition durable G v t n : Prop := ∃ n', (n ≤ n')%nat ∧ (t, n') ∈ g_acks G v.
(** ..., or is about to. *)
Definition said G v t n : Prop := ∃ n', (n ≤ n')%nat ∧ ((t, n') ∈ g_said G v ∨ (t, n') ∈ g_acks G v).
Lemma elem_of_pairs (l : list (u64 * nat)) t n :
  List.Exists (λ p : (u64 * nat)%type, p.1 = t ∧ (n ≤ p.2)%nat) l ↔ ∃ n', (n ≤ n')%nat ∧ (t, n') ∈ l.
Proof using.
  rewrite Exists_exists. split; [intros ([t' n'] & Hin & <- & ?); by exists n'|intros (n' & ? & ?); by exists (t, n')].
Qed.
#[global] Instance durable_dec G v t n : Decision (durable G v t n).
Proof.
  destruct (decide (List.Exists (λ p : (u64 * nat)%type, p.1 = t ∧ (n ≤ p.2)%nat) (g_acks G v))) as [Hd|Hd]; rewrite elem_of_pairs in Hd; solve [by left|by right].
Defined.
#[global] Instance said_dec G v t n : Decision (said G v t n).
Proof.
  destruct (decide (List.Exists (λ p : (u64 * nat)%type, p.1 = t ∧ (n ≤ p.2)%nat) (g_said G v ++ g_acks G v))) as [Hd|Hd]; rewrite elem_of_pairs in Hd;
    setoid_rewrite elem_of_app in Hd; solve [by left|by right].
Defined.
(** The leader of [t] has written position [j] of its log itself. *)
Definition own (T : u64 → list Entry) (t : u64) (j : nat) : Prop := ∃ e, T t !! j = Some e ∧ e_term e = t.
(** A log that a quorum has acknowledged. *)
Definition chosen G (L : list Entry) : Prop := ∃ t j Q,
  own (g_led G) t j ∧ quorum Q ∧ (∀ v, v ∈ Q → durable G v t (S j)) ∧ L `prefix_of` take (S j) (g_led G t).
(** [L1] is at least as new as [L2]. *)
Definition newer (L1 L2 : list Entry) : Prop := ∀ e2, last L2 = Some e2 →
  ∃ e1, last L1 = Some e1 ∧ ((e_term e2 < e_term e1)%N ∨ (e_term e2 = e_term e1 ∧ (length L2 ≤ length L1)%nat)).

Inductive group_step G : group → Prop :=
  | gs_rise i t b : (g_term G i ≤ t)%N → (b = true → (g_term G i < t)%N) → group_step G (set_term i t b G)
  | gs_vote v c :
      g_vote G v (g_term G v) = None ∨ g_vote G v (g_term G v) = Some c → (g_term G v ≤ g_term G c)%N →
      (g_runs G c = true → g_term G c = g_term G v → newer (g_log G c) (g_log G v)) → group_step G (set_vote v c G)
  | gs_win i Q :
      g_runs G i = true → g_won G (g_term G i) = None → quorum Q →
      (∀ v, v ∈ Q → g_vote G v (g_term G i) = Some i) → group_step G (set_won i G)
  | gs_extend i es :
      g_runs G i = false → g_won G (g_term G i) = Some i → g_log G i = g_led G (g_term G i) →
      Forall (λ e, e_term e = g_term G i) es → group_step G (extend i es G)
  | gs_accept v n :
      g_runs G v = false → is_Some (g_won G (g_term G v)) →
      ¬ take n (g_led G (g_term G v)) `prefix_of` g_log G v →
      group_step G (set_log v (take n (g_led G (g_term G v))) G)
  | gs_say v n :
      is_Some (g_won G (g_term G v)) →
      (n ≤ length (g_led G (g_term G v)))%nat ∧ take n (g_led G (g_term G v)) `prefix_of` g_log G v ∨
      (n ≤ length (g_log G v))%nat ∧ chosen G (take n (g_log G v)) → group_step G (add_said v n G)
  | gs_report i n :
      is_Some (g_won G (g_term G i)) → (n ≤ length (g_led G (g_term G i)))%nat →
      take n (g_led G (g_term G i)) `prefix_of` g_log G i → take n (g_led G (g_term G i)) `prefix_of` g_disk G i →
      group_step G (add_ack i n G)
  | gs_save v : group_step G (save v G)
  | gs_publish v :
      g_disk G v = g_log G v ∨ (g_log G v `prefix_of` g_disk G v ∧ g_won G (g_term G v) = None) → group_step G (publish v G)
  | gs_crash v : group_step G (crash v G).

(** ** The invariant *)

(** A later leader does without position [j] of term [t]. *)
Definition forgotten G (t : u64) (j : nat) : Prop :=
  ∃ t', (t < t')%N ∧ is_Some (g_won G t') ∧ ¬ take (S j) (g_led G t) `prefix_of` g_led G t'.
Definition holds G (L : list Entry) (t : u64) (j : nat) : Prop :=
  take (S j) (g_led G t) `prefix_of` L ∨ forgotten G t j.
(** What an acknowledgement of the current term amounts to. *)
Definition near G (L : list Entry) (t : u64) (n : nat) : Prop :=
  (∃ P, P `prefix_of` L ∧ (n ≤ length P)%nat ∧ (P `prefix_of` g_led G t ∨ chosen G P)) ∨ L `prefix_of` g_led G t.

Record group_ok G : Prop := {
  gk_log v : anchored (g_led G) (g_log G v) ∧ ∀ e, e ∈ g_log G v → (e_term e ≤ g_term G v)%N;
  gk_disk v : anchored (g_led G) (g_disk G v) ∧ ∀ e, e ∈ g_disk G v → (e_term e ≤ g_term G v)%N;
  gk_led t : anchored (g_led G) (g_led G t) ∧ ∀ e, e ∈ g_led G t → (e_term e ≤ t)%N;
  gk_empty t : g_won G t = None → g_led G t = [];
  gk_won t : is_Some (g_won G t) → t ≠ 0%N ∧ ∃ Q, quorum Q ∧ ∀ v, v ∈ Q → (t ≤ g_term G v)%N;
  gk_runs i : g_runs G i = true → g_term G i ≠ 0%N;
  gk_vote v t c : g_vote G v t = Some c → (t ≤ g_term G v)%N ∧ (t ≤ g_term G c)%N;
  gk_said v t n : said G v t n → is_Some (g_won G t) ∧ (t ≤ g_term G v)%N ∧
    ((n ≤ length (g_led G t))%nat ∨ ∃ t', (t < t')%N ∧ is_Some (g_won G t'));
  gk_holds v t j : own (g_led G) t j → said G v t (S j) → holds G (g_log G v) t j;
  gk_keeps v t j : own (g_led G) t j → durable G v t (S j) → holds G (g_disk G v) t j;
  gk_near v n : said G v (g_term G v) n → near G (g_log G v) (g_term G v) n;
  gk_near_disk v n : durable G v (g_term G v) n → near G (g_disk G v) (g_term G v) n;
  (** The candidate one has voted for holds what one has acknowledged. *)
  gk_covered v c t j : g_runs G c = true → g_vote G v (g_term G c) = Some c → (t < g_term G c)%N →
    own (g_led G) t j → said G v t (S j) → holds G (g_log G c) t j;
  (** What a later leader does without will never be acknowledged by a quorum. *)
  gk_blocked t t' j : is_Some (g_won G t) → is_Some (g_won G t') → (t < t')%N →
    (own (g_led G) t j ∧ ¬ take (S j) (g_led G t) `prefix_of` g_led G t') ∨ (length (g_led G t) ≤ j)%nat →
    ∃ P, quorum P ∧ ∀ v, v ∈ P → (t < g_term G v)%N ∧ ¬ said G v t (S j) }.

(** ** Consequences *)
Section facts.
Context (G : group) (Hok : group_ok G).

Lemma own_lt t j : own (g_led G) t j → (j < length (g_led G t))%nat.
Proof using. intros (e & He & _). by apply lookup_lt_Some in He. Qed.
Lemma own_prefix t j L : own (g_led G) t j → take (S j) (g_led G t) `prefix_of` L → ∃ e, L !! j = Some e ∧ e_term e = t.
Proof using.
  intros (e & He & Ht) Hp. exists e. split; [|done]. eapply prefix_lookup_Some; [|exact Hp]. rewrite lookup_take_lt by lia. done.
Qed.
(** A leader holds what is chosen in an earlier term. *)
Lemma leader_complete t t' j Q :
  own (g_led G) t j → quorum Q → (∀ v, v ∈ Q → durable G v t (S j)) →
  is_Some (g_won G t') → (t < t')%N → take (S j) (g_led G t) `prefix_of` g_led G t'.
Proof using Hok quorum_meet.
  intros Ho HQ Ha Hw Hlt. destruct (decide (take (S j) (g_led G t) `prefix_of` g_led G t')) as [|Hn]; [done|exfalso].
  destruct (gk_blocked _ Hok t t' j) as (P & HP & Hb); [|done..|by left|].
  - destruct (g_won G t) eqn:E; [done|]. apply (gk_empty _ Hok) in E. apply own_lt in Ho. rewrite E in Ho. simpl in Ho. lia.
  - destruct (quorum_meet _ _ HP HQ) as (v & Hv1 & Hv2). destruct (Hb v Hv1) as [_ []].
    destruct (Ha v Hv2) as (n & Hn1 & Hn2). exists n. auto.
Qed.
Lemma prefix_comparable (L1 L2 X : list Entry) : L1 `prefix_of` X → L2 `prefix_of` X → L1 `prefix_of` L2 ∨ L2 `prefix_of` L1.
Proof using. apply prefix_weak_total. Qed.
Lemma chosen_agree L1 L2 : chosen G L1 → chosen G L2 → L1 `prefix_of` L2 ∨ L2 `prefix_of` L1.
Proof using Hok quorum_meet.
  intros (t1 & j1 & Q1 & O1 & HQ1 & A1 & P1) (t2 & j2 & Q2 & O2 & HQ2 & A2 & P2).
  assert (∀ t j Q, own (g_led G) t j → quorum Q → (∀ v, v ∈ Q → durable G v t (S j)) → is_Some (g_won G t)) as Hw.
  { intros t j Q (e & He & _) _ _. destruct (g_won G t) eqn:E; [done|]. apply (gk_empty _ Hok) in E. by rewrite E in He. }
  destruct (N.lt_trichotomy t1 t2) as [Hlt|[->|Hlt]].
  - pose proof (leader_complete t1 t2 j1 Q1 O1 HQ1 A1 (Hw _ _ _ O2 HQ2 A2) Hlt).
    apply (prefix_comparable _ _ (g_led G t2)); [by transitivity (take (S j1) (g_led G t1))|].
    etrans; [exact P2|apply prefix_take].
  - apply (prefix_comparable _ _ (g_led G t2)); (etrans; [eassumption|apply prefix_take]).
  - pose proof (leader_complete t2 t1 j2 Q2 O2 HQ2 A2 (Hw _ _ _ O1 HQ1 A1) Hlt).
    apply (prefix_comparable _ _ (g_led G t1)); [|by transitivity (take (S j2) (g_led G t2))].
    etrans; [exact P1|apply prefix_take].
Qed.
Lemma chosen_prefix L L' : L `prefix_of` L' → chosen G L' → chosen G L.
Proof using. intros HL (t & j & Q & ? & ? & ? & ?). exists t, j, Q. split_and!; try done. by etrans. Qed.
Lemma said_durable v t n : durable G v t n → said G v t n.
Proof using. intros (n' & ? & ?). exists n'. auto. Qed.
Lemma said_le v t n m : (m ≤ n)%nat → said G v t n → said G v t m.
Proof using. intros ? (n' & ? & ?). exists n'. split; [lia|done]. Qed.

(** A log that is at least as new holds as much. *)
Lemma newer_holds t j L1 L2 :
  anchored (g_led G) L1 → anchored (g_led G) L2 →
  newer L1 L2 → own (g_led G) t j → holds G L2 t j → holds G L1 t j.
Proof using Hok.
  intros A1 A2 Hn Ho [H2|]; [|by right]. destruct (own_prefix t j L2 Ho H2) as (e & He & Ht).
  pose proof (lookup_lt_Some _ _ _ He) as Hj. destruct (last L2) as [e2|] eqn:El2; [|apply last_None in El2 as ->; by rewrite lookup_nil in He].
  destruct (Hn e2 El2) as (e1 & El1 & Hterm). rewrite last_lookup in El1, El2.
  destruct (A2 _ _ El2) as [_ P2].
  assert (t ≤ e_term e2)%N as Ht2.
  { rewrite <-Ht. apply (gk_led _ Hok (e_term e2)). eapply (list_elem_of_lookup_2 _ j). eapply prefix_lookup_Some; [|exact P2].
    rewrite lookup_take_lt by lia. done. }
  destruct (A1 _ _ El1) as [_ P1]. pose proof (lookup_lt_Some _ _ _ El1) as Hl1.
  rewrite take_ge in P1 by lia. destruct (decide (e_term e1 = t)) as [E1|E1].
  - left. rewrite E1 in P1. destruct Hterm as [|[_ Hlen]]; [lia|].
    assert (take (S j) (g_led G t) = take (S j) L1) as ->; [|apply prefix_take].
    apply (take_prefix _ _ (g_led G t)); [apply prefix_take| |by apply own_lt|lia].
    etrans; [apply prefix_take|done].
  - assert (t < e_term e1)%N as Hlt by (destruct Hterm; lia).
    destruct (decide (take (S j) (g_led G t) `prefix_of` g_led G (e_term e1))) as [Hp|Hp].
    + destruct (prefix_comparable _ _ _ Hp P1) as [|Hc]; [by left|]. exfalso.
      assert (e1 ∈ g_led G t) as Hin.
      { eapply list_elem_of_lookup_2. eapply prefix_lookup_Some; [exact El1|]. etrans; [exact Hc|apply prefix_take]. }
      apply (gk_led _ Hok t) in Hin. lia.
    + right. exists (e_term e1). split_and!; [done| |done]. destruct (g_won G (e_term e1)) eqn:E; [done|].
      apply (gk_empty _ Hok) in E. rewrite E in P1. apply prefix_nil_inv in P1 as ->. done.
Qed.
End facts.

(** ** Every step keeps the invariant *)
Ltac at_node v i := destruct (decide (v = i)) as [->|?];
  [rewrite ?fn_lookup_insert in *|rewrite ?fn_lookup_insert_ne in * by done].

Section keep.
Context (G : group) (Hok : group_ok G).

Lemma chosen_mono G' L :
  (∀ t, g_led G t `prefix_of` g_led G' t) → (∀ v t n, durable G v t n → durable G' v t n) → chosen G L → chosen G' L.
Proof using.
  intros Hl Hd (t & j & Q & (e & He & Ht) & HQ & Ha & Hp). exists t, j, Q.
  pose proof (lookup_lt_Some _ _ _ He) as Hj. split_and!; [|done|by auto|].
  - exists e. split; [|done]. by eapply prefix_lookup_Some.
  - destruct (Hl t) as [k Hk]. rewrite Hk, take_app_le by lia. done.
Qed.
Lemma near_mono G' L t n :
  (∀ t, g_led G t `prefix_of` g_led G' t) → (∀ v t n, durable G v t n → durable G' v t n) → near G L t n → near G' L t n.
Proof using.
  intros Hl Hd [(P & HP & Hn & [Ht|Hc])|Hr]; [left; exists P..|right].
  - split_and!; [done..|left]. by etrans.
  - split_and!; [done..|right]. by eapply chosen_mono.
  - by etrans.
Qed.
(** What is chosen is in the log of a leader, this one or a later one. *)
Lemma chosen_led L t : chosen G L → is_Some (g_won G t) →
  L `prefix_of` g_led G t ∨ ∃ t', t < t' ∧ is_Some (g_won G t') ∧ L `prefix_of` g_led G t'.
Proof using Hok quorum_meet.
  intros (t1 & j & Q & Ho & HQ & Ha & Hp) Hw. destruct (N.lt_trichotomy t1 t) as [Hlt|[->|Hlt]].
  - left. etrans; [exact Hp|]. by eapply leader_complete.
  - left. etrans; [exact Hp|apply prefix_take].
  - right. exists t1. split_and!; [done| |etrans; [exact Hp|apply prefix_take]].
    destruct (g_won G t1) eqn:E; [done|]. apply (gk_empty _ Hok) in E. destruct Ho as (e & He & _). by rewrite E in He.
Qed.

Lemma rise_ok i t b : g_term G i ≤ t → (b = true → g_term G i < t) → group_ok (set_term i t b G).
Proof using Hok.
  intros Hle Hb. assert (∀ v, g_term G v ≤ <[i:=t]> (g_term G) v) as Ht by (intros v; at_node v i; [done|lia]).
  constructor; simpl.
  - intros v. destruct (gk_log _ Hok v) as [? Hbd]. split; [done|]. intros e He. etrans; [by apply Hbd|done].
  - intros v. destruct (gk_disk _ Hok v) as [? Hbd]. split; [done|]. intros e He. etrans; [by apply Hbd|done].
  - apply Hok.
  - apply Hok.
  - intros t' [Hnz (Q & HQ & Hq)]%(gk_won _ Hok). split; [done|]. exists Q. split; [done|]. intros v Hv. etrans; [by apply Hq|done].
  - intros v. at_node v i; [|apply Hok]. intros ->. specialize (Hb eq_refl). lia.
  - intros v t' c [H1 H2]%(gk_vote _ Hok). split; [by etrans; [exact H1|]|by etrans; [exact H2|]].
  - intros v t' n (? & H2 & ?)%(gk_said _ Hok). split_and!; [done|by etrans|done].
  - apply Hok.
  - apply Hok.
  - intros v n. at_node v i; [|apply Hok]. intros Hs. pose proof (gk_said _ Hok _ _ _ Hs) as (_ & Hle' & _).
    assert (t = g_term G i) as -> by lia. by apply (gk_near _ Hok).
  - intros v n. at_node v i; [|apply Hok]. intros Hs. pose proof (gk_said _ Hok _ _ _ (said_durable _ _ _ _ Hs)) as (_ & Hle' & _).
    assert (t = g_term G i) as -> by lia. by apply (gk_near_disk _ Hok).
  - intros v c. at_node c i; [|apply Hok]. intros t' j -> [_ Hv]%(gk_vote _ Hok). specialize (Hb eq_refl). lia.
  - intros t1 t2 j Hw1 Hw2 Hlt Hj. destruct (gk_blocked _ Hok t1 t2 j Hw1 Hw2 Hlt Hj) as (P & HP & Hq). exists P.
    split; [done|]. intros v [Hv1 Hv2]%Hq. split; [|done]. by eapply N.lt_le_trans.
Qed.

Lemma vote_ok v c :
  g_term G v ≤ g_term G c → (g_runs G c = true → g_term G c = g_term G v → newer (g_log G c) (g_log G v)) →
  group_ok (set_vote v c G).
Proof using Hok.
  intros Hle Hn. constructor; simpl; try apply Hok.
  - intros v' t c'. at_node v' v; [|apply Hok]. at_node t (g_term G v); [|apply Hok]. intros [= <-]. done.
  - intros v' c' t j Hr. at_node v' v; [|by apply Hok]. destruct (decide (g_term G c' = g_term G v)) as [E|E].
    + rewrite E, fn_lookup_insert. intros [= <-] Hlt Ho Hs. apply (newer_holds G Hok t j _ (g_log G v)); [apply Hok..|by apply Hn|done|].
      by apply (gk_holds _ Hok).
    + rewrite fn_lookup_insert_ne by done. by apply (gk_covered _ Hok v c').
Qed.

(** Entries of the leader's log, put over a log that lacks some of them. *)
Lemma accept_ok v n :
  g_runs G v = false → is_Some (g_won G (g_term G v)) → ¬ take n (g_led G (g_term G v)) `prefix_of` g_log G v →
  group_ok (set_log v (take n (g_led G (g_term G v))) G).
Proof using Hok.
  intros Hr Hw Hn. set (t := g_term G v) in *.
  assert (∀ X, X `prefix_of` g_led G t → X `prefix_of` g_log G v → X `prefix_of` take n (g_led G t)) as Hkeep.
  { intros X HX Hv. destruct (prefix_weak_total _ _ _ HX (prefix_take (g_led G t) n)) as [|Hc]; [done|]. destruct Hn. by etrans. }
  constructor; simpl; try apply Hok.
  - intros v'. at_node v' v; [|apply Hok]. destruct (gk_led _ Hok t) as [Ha Hb]. split; [by apply anchored_take|].
    intros e He. apply Hb. eapply elem_of_prefix; [exact He|apply prefix_take].
  - intros v' t0 j Ho Hs. at_node v' v; [|by apply (gk_holds _ Hok)].
    destruct (gk_holds _ Hok v t0 j Ho Hs) as [Hp|]; [|by right]. destruct (gk_said _ Hok _ _ _ Hs) as (_ & Hle & _).
    destruct (N.eq_dec t0 t) as [->|Hne]; [left; by apply Hkeep; [apply prefix_take|]|].
    destruct (decide (take (S j) (g_led G t0) `prefix_of` g_led G t)) as [Hl|Hl]; [left; by apply Hkeep|].
    right. exists t. split_and!; [unfold t in *; lia|done..].
  - intros v' m. at_node v' v; [|apply Hok]. intros _. right. apply prefix_take.
  - intros v' c t0 j Hc. rewrite fn_lookup_insert_ne by congruence. by apply (gk_covered _ Hok v' c).
Qed.

(** A new acknowledgement, of the current term, that is true or of what is chosen. *)
Definition truthful v (L : list Entry) n : Prop :=
  (n ≤ length (g_led G (g_term G v)))%nat ∧ take n (g_led G (g_term G v)) `prefix_of` L ∨
  (n ≤ length L)%nat ∧ chosen G (take n L).
Lemma truthful_holds v L n t j :
  is_Some (g_won G (g_term G v)) → truthful v L n → t = g_term G v → own (g_led G) t j → (S j ≤ n)%nat → holds G L t j.
Proof using Hok quorum_meet.
  intros Hw Ht -> Ho Hj. destruct Ht as [[Hn Hp]|[Hn Hc]].
  - left. etrans; [|exact Hp]. by apply prefix_take_le.
  - destruct (chosen_led _ _ Hc Hw) as [Hl|(t' & Hlt & Hw' & Hl)].
    + left. destruct (prefix_weak_total _ _ _ Hl (prefix_take (g_led G (g_term G v)) (S j))) as [Hx|Hx].
      * apply prefix_length in Hx as Hlen. rewrite !length_take in Hlen. pose proof (own_lt G _ _ Ho).
        assert (take n L = take (S j) (g_led G (g_term G v))) as <-; [|apply prefix_take].
        apply prefix_length_eq; [done|]. rewrite !length_take. lia.
      * etrans; [exact Hx|apply prefix_take].
    + destruct (decide (take (S j) (g_led G (g_term G v)) `prefix_of` g_led G t')) as [Hd|Hd]; [left|right; by exists t'].
      destruct (prefix_weak_total _ _ _ Hl Hd) as [Hx|Hx]; [|etrans; [exact Hx|apply prefix_take]].
      apply prefix_length in Hx as Hlen. rewrite !length_take in Hlen. pose proof (own_lt G _ _ Ho).
      assert (take n L = take (S j) (g_led G (g_term G v))) as <-; [|apply prefix_take].
      apply prefix_length_eq; [done|]. rewrite !length_take. lia.
Qed.
Lemma truthful_length v L n : is_Some (g_won G (g_term G v)) → truthful v L n →
  (n ≤ length (g_led G (g_term G v)))%nat ∨ ∃ t', g_term G v < t' ∧ is_Some (g_won G t').
Proof using Hok quorum_meet.
  intros Hw [[Hn _]|[Hn Hc]]; [by left|]. destruct (chosen_led _ _ Hc Hw) as [Hl%prefix_length|(t' & ? & ? & _)]; [left|right; by exists t'].
  rewrite length_take in Hl. lia.
Qed.
Lemma truthful_near v L n m : truthful v L n → (m ≤ n)%nat → near G L (g_term G v) m.
Proof using.
  intros [[Hn Hp]|[Hn Hc]] Hm; left.
  - exists (take n (g_led G (g_term G v))). split_and!; [done|rewrite length_take; lia|left; apply prefix_take].
  - exists (take n L). split_and!; [apply prefix_take|rewrite length_take; lia|by right].
Qed.

Lemma said_add_said v n v' t m :
  said (add_said v n G) v' t m ↔ said G v' t m ∨ (v' = v ∧ t = g_term G v ∧ (m ≤ n)%nat).
Proof using.
  unfold said. simpl. at_node v' v; [|naive_solver]. setoid_rewrite elem_of_cons. split.
  - intros (n' & Hn' & [[[= -> ->]|Hin]|Hin]); [by right|left; exists n'; auto..].
  - intros [(n' & Hn' & [Hin|Hin])|(_ & -> & Hm)]; [exists n'; auto..|]. exists n. auto.
Qed.
Lemma durable_add_ack v n v' t m :
  durable (add_ack v n G) v' t m ↔ durable G v' t m ∨ (v' = v ∧ t = g_term G v ∧ (m ≤ n)%nat).
Proof using.
  unfold durable. simpl. at_node v' v; [|naive_solver]. setoid_rewrite elem_of_cons. split.
  - intros (n' & Hn' & [[= -> ->]|Hin]); [by right|left; exists n'; auto].
  - intros [(n' & Hn' & Hin)|(_ & -> & Hm)]; [exists n'; auto|]. exists n. auto.
Qed.
Lemma said_add_ack v n v' t m :
  said (add_ack v n G) v' t m ↔ said G v' t m ∨ (v' = v ∧ t = g_term G v ∧ (m ≤ n)%nat).
Proof using.
  unfold said. simpl. at_node v' v; [|naive_solver]. setoid_rewrite elem_of_cons. split.
  - intros (n' & Hn' & [Hin|[[= -> ->]|Hin]]); [left; exists n'; auto|by right|left; exists n'; auto].
  - intros [(n' & Hn' & [Hin|Hin])|(_ & -> & Hm)]; [exists n'; auto..|]. exists n. auto.
Qed.

(** Whatever else changes, one more acknowledgement by [v] in its term. *)
Lemma add_ok G' v n :
  is_Some (g_won G (g_term G v)) → truthful v (g_log G v) n →
  g_term G' = g_term G → g_log G' = g_log G → g_disk G' = g_disk G → g_runs G' = g_runs G → g_vote G' = g_vote G →
  g_won G' = g_won G → g_led G' = g_led G →
  (∀ v' t m, said G' v' t m → said G v' t m ∨ (v' = v ∧ t = g_term G v ∧ (m ≤ n)%nat)) →
  (∀ v' t m, durable G v' t m → durable G' v' t m) →
  (∀ v' t m, durable G' v' t m → durable G v' t m ∨ (v' = v ∧ t = g_term G v ∧ (m ≤ n)%nat ∧ truthful v (g_disk G v) n)) →
  group_ok G'.
Proof using Hok quorum_meet.
  intros Hw Ht E1 E2 E3 E4 E5 E6 E7 Hs Hd1 Hd2.
  assert (∀ L t m, near G L t m → near G' L t m) as Hnear by (intros *; apply near_mono; [by rewrite E7|done]).
  assert (∀ L t j, holds G L t j → holds G' L t j) as Hh by (intros L t j; unfold holds, forgotten; by rewrite E6, E7).
  constructor; rewrite ?E1, ?E2, ?E3, ?E4, ?E5, ?E6, ?E7; try apply Hok.
  - intros v' t m [H1|(-> & -> & Hm)]%Hs; [by apply (gk_said _ Hok)|]. split_and!; [done|done|].
    destruct (truthful_length _ _ _ Hw Ht); [left; lia|by right].
  - intros v' t j Ho [H1|(-> & E & Hm)]%Hs; apply Hh; [by apply (gk_holds _ Hok)|]. by apply (truthful_holds v _ n).
  - intros v' t j Ho [H1|(-> & E & Hm & Ht')]%Hd2; apply Hh; [by apply (gk_keeps _ Hok)|]. by apply (truthful_holds v _ n).
  - intros v' m [H1|(-> & E & Hm)]%Hs; apply Hnear; [by apply (gk_near _ Hok)|]. by eapply truthful_near.
  - intros v' m [H1|(-> & E & Hm & Ht')]%Hd2; apply Hnear; [by apply (gk_near_disk _ Hok)|]. by eapply truthful_near.
  - intros v' c t j Hr Hv Hlt Ho [H1|(-> & -> & Hm)]%Hs; [by apply Hh, (gk_covered _ Hok v')|].
    apply (gk_vote _ Hok) in Hv as [Hv _]. lia.
  - intros t1 t2 j H1 H2 Hlt Hj. destruct (gk_blocked _ Hok t1 t2 j H1 H2 Hlt Hj) as (P & HP & Hq). exists P. split; [done|].
    intros v' [Hv1 Hv2]%Hq. split; [done|]. intros [|(-> & -> & _)]%Hs; [done|lia].
Qed.
Lemma say_ok v n : is_Some (g_won G (g_term G v)) → truthful v (g_log G v) n → group_ok (add_said v n G).
Proof using Hok quorum_meet.
  intros Hw Ht. eapply (add_ok _ v n); try done; [|by left]. intros v' t m. apply said_add_said.
Qed.
Lemma report_ok i n :
  is_Some (g_won G (g_term G i)) → (n ≤ length (g_led G (g_term G i)))%nat →
  take n (g_led G (g_term G i)) `prefix_of` g_log G i → take n (g_led G (g_term G i)) `prefix_of` g_disk G i →
  group_ok (add_ack i n G).
Proof using Hok quorum_meet.
  intros Hw Hn Hl Hd. eapply (add_ok _ i n); try done; [by left|..].
  - intros v' t m. apply said_add_ack.
  - intros v' t m H1. apply durable_add_ack. by left.
  - intros v' t m [|(-> & -> & ?)]%durable_add_ack; [by left|right]. split_and!; [done..|by left].
Qed.

Lemma save_ok v : group_ok (save v G).
Proof using Hok.
  constructor; simpl; try apply Hok.
  - intros v'. at_node v' v; apply Hok.
  - intros v' t j Ho Hd. at_node v' v; [|by apply (gk_keeps _ Hok)]. apply (gk_holds _ Hok); [done|]. by apply said_durable.
  - intros v' n Hd. at_node v' v; [|by apply (gk_near_disk _ Hok)]. apply (gk_near _ Hok). by apply said_durable.
Qed.

Lemma said_publish v v' t n : said (publish v G) v' t n ↔ said G v' t n.
Proof using.
  unfold said. simpl. at_node v' v; [|done]. setoid_rewrite elem_of_app. setoid_rewrite elem_of_nil. naive_solver.
Qed.
Lemma durable_publish v v' t n : durable (publish v G) v' t n → durable G v' t n ∨ (v' = v ∧ said G v t n).
Proof using. unfold durable, said. simpl. at_node v' v; [|by left]. setoid_rewrite elem_of_app. naive_solver. Qed.
Lemma publish_durable v t n : said G v t n → durable (publish v G) v t n.
Proof using. intros (n' & Hn & Hin). exists n'. split; [done|]. simpl. by rewrite fn_lookup_insert, elem_of_app. Qed.
Lemma publish_ok v :
  g_disk G v = g_log G v ∨ (g_log G v `prefix_of` g_disk G v ∧ g_won G (g_term G v) = None) → group_ok (publish v G).
Proof using Hok.
  intros Hdisk.
  assert (∀ v' t m, durable G v' t m → durable (publish v G) v' t m) as Hd.
  { intros v' t m (n & Hn & Hin). exists n. split; [done|]. simpl. at_node v' v; [|done]. rewrite elem_of_app. by right. }
  assert (∀ L t m, near G L t m → near (publish v G) L t m) as Hnear by (intros *; by apply near_mono).
  constructor; simpl; try apply Hok.
  - intros v' t n ?%said_publish. by apply (gk_said _ Hok).
  - intros v' t j Ho ?%said_publish. by apply (gk_holds _ Hok).
  - intros v' t j Ho [H1|[-> H1]]%durable_publish; [by apply (gk_keeps _ Hok)|].
    destruct (gk_holds _ Hok v t j Ho H1) as [Hp|]; [left|by right]. etrans; [exact Hp|]. by destruct Hdisk as [-> |[? _]].
  - intros v' n ?%said_publish. by apply Hnear, (gk_near _ Hok).
  - intros v' n [H1|[-> H1]]%durable_publish; apply Hnear; [by apply (gk_near_disk _ Hok)|].
    destruct Hdisk as [-> |[_ Hn]]; [by apply (gk_near _ Hok)|]. apply (gk_said _ Hok) in H1 as [Hw _]. rewrite Hn in Hw. by destruct Hw.
  - intros v' c t j Hr Hv Hlt Ho ?%said_publish. by apply (gk_covered _ Hok v').
  - intros t1 t2 j H1 H2 Hlt Hj. destruct (gk_blocked _ Hok t1 t2 j H1 H2 Hlt Hj) as (P & HP & Hq). exists P. split; [done|].
    intros v' [Hv1 Hv2]%Hq. split; [done|]. by rewrite said_publish.
Qed.

Lemma said_crash v v' t n : said (crash v G) v' t n → said G v' t n ∧ (v' = v → durable G v t n).
Proof using. unfold said, durable. simpl. at_node v' v; [|naive_solver]. setoid_rewrite elem_of_nil. naive_solver. Qed.
Lemma crash_ok v : group_ok (crash v G).
Proof using Hok.
  constructor; simpl; try apply Hok.
  - intros v'. at_node v' v; apply Hok.
  - intros i. at_node i v; [done|apply Hok].
  - intros v' t n [? _]%said_crash. by apply (gk_said _ Hok).
  - intros v' t j Ho [H1 H2]%said_crash. at_node v' v; [apply (gk_keeps _ Hok); auto|by apply (gk_holds _ Hok)].
  - intros v' n [H1 H2]%said_crash. at_node v' v; [apply (gk_near_disk _ Hok); auto|by apply (gk_near _ Hok)].
  - intros v' c t j. at_node c v; [done|]. intros Hr Hv Hlt Ho [? _]%said_crash. by apply (gk_covered _ Hok v').
  - intros t1 t2 j H1 H2 Hlt Hj. destruct (gk_blocked _ Hok t1 t2 j H1 H2 Hlt Hj) as (P & HP & Hq). exists P. split; [done|].
    intros v' [Hv1 Hv2]%Hq. split; [done|]. by intros [? _]%said_crash.
Qed.

(** The winner of an election begins the log of its term. *)
Section win.
Context (i : u64) (Q : gset u64) (Hr : g_runs G i = true) (Hw : g_won G (g_term G i) = None) (HQ : quorum Q).
Context (Hv : ∀ v, v ∈ Q → g_vote G v (g_term G i) = Some i).
Let t := g_term G i.
Let led' := <[t:=g_log G i]> (g_led G).
Lemma win_grows t0 : g_led G t0 `prefix_of` led' t0.
Proof using Hok Hw. pose proof (gk_empty _ Hok t Hw) as HT. unfold led'. at_node t0 t; [rewrite HT; apply prefix_nil|done]. Qed.
Lemma win_own t0 j : own led' t0 j → t0 ≠ t ∧ own (g_led G) t0 j.
Proof using Hok Hw.
  pose proof (gk_empty _ Hok t Hw) as HT. intros (e & He & Ht). unfold led' in He. at_node t0 t; [|split; [done|by exists e]].
  destruct (proj1 (gk_log _ Hok i) j e He) as [_ Hp]. rewrite Ht, HT in Hp. apply prefix_nil_inv in Hp.
  destruct (g_log G i); [by rewrite lookup_nil in He|done].
Qed.
Lemma win_won t0 : is_Some (g_won G t0) → is_Some (<[t:=Some i]> (g_won G) t0).
Proof using. intros ?. at_node t0 t; done. Qed.
Lemma win_holds L t0 j : t0 ≠ t → holds G L t0 j → holds (set_won i G) L t0 j.
Proof using Hw.
  intros Hne [Hp|(t' & Hlt & Hw' & Hn)]; [left|right]; simpl; fold t; [by rewrite fn_lookup_insert_ne|].
  exists t'. simpl. fold t. rewrite (fn_lookup_insert_ne (g_led G)) by done.
  split_and!; [done|by apply win_won|]. rewrite fn_lookup_insert_ne; [done|]. intros <-. unfold t in Hw'. rewrite Hw in Hw'. by destruct Hw'.
Qed.
(** Who has voted for the new leader will not acknowledge what its log lacks. *)
Lemma win_blocked t0 t' j :
  is_Some (<[t:=Some i]> (g_won G) t0) → is_Some (<[t:=Some i]> (g_won G) t') → t0 < t' →
  (own led' t0 j ∧ ¬ take (S j) (led' t0) `prefix_of` led' t') ∨ (length (led' t0) ≤ j)%nat →
  ∃ P, quorum P ∧ ∀ v, v ∈ P → t0 < g_term G v ∧ ¬ said G v t0 (S j).
Proof using Hok Hr Hw HQ Hv.
  intros Hw0 Hw' Hlt Hj. destruct (decide (t0 = t)) as [->|Hne0].
  { rewrite fn_lookup_insert_ne in Hw' by lia. destruct (gk_won _ Hok t' Hw') as (_ & P & HP & Hq). exists P. split; [done|].
    intros v Hvp. split; [apply Hq in Hvp; lia|]. intros (Hs & _)%(gk_said _ Hok). unfold t in Hs. rewrite Hw in Hs. by destruct Hs. }
  unfold led' in Hj. rewrite (fn_lookup_insert_ne (g_won G)) in Hw0 by done. rewrite !(fn_lookup_insert_ne (g_led G) t t0) in Hj by done. fold led' in Hj.
  pose proof (λ t'', gk_blocked _ Hok t0 t'' j Hw0) as Hold.
  destruct (decide (t' = t)) as [->|Hne]; cycle 1.
  { rewrite (fn_lookup_insert_ne (g_won G)) in Hw' by done. apply (Hold t'); [done..|]. unfold led' in Hj at 2.
    rewrite (fn_lookup_insert_ne (g_led G)) in Hj by done. destruct Hj as [[[_ Ho]%win_own Hj]|]; auto. }
  unfold led' in Hj at 2. rewrite fn_lookup_insert in Hj.
  destruct (decide (set_Exists (λ v, said G v t0 (S j)) Q)) as [(v & Hvq & Hs)|Hno]; cycle 1.
  { exists Q. split; [done|]. intros v Hvq. split; [|intros Hs; apply Hno; by exists v].
    pose proof (gk_vote _ Hok v t i (Hv v Hvq)). lia. }
  destruct Hj as [[[_ Ho]%win_own Hj]|Hj].
  - destruct (gk_covered _ Hok v i t0 j Hr (Hv v Hvq) Hlt Ho Hs) as [|(t'' & H1 & H2 & H3)]; [done|]. apply (Hold t''); auto.
  - destruct (gk_said _ Hok _ _ _ Hs) as (_ & _ & [|(t'' & H1 & H2)]); [lia|]. apply (Hold t''); auto.
Qed.
Lemma win_ok : group_ok (set_won i G).
Proof using Hok Hr Hw HQ Hv.
  assert (∀ L t0 n, near G L t0 n → near (set_won i G) L t0 n) as Hnear by (intros *; apply near_mono; [apply win_grows|done]).
  constructor; simpl; fold t led'; try apply Hok.
  - intros v. split; [eapply anchored_mono; [exact win_grows|]|]; apply Hok.
  - intros v. split; [eapply anchored_mono; [exact win_grows|]|]; apply Hok.
  - intros t0. pose proof (λ L, anchored_mono _ _ L win_grows) as Hm. unfold led' at 2 3. at_node t0 t; (split; [apply Hm|]); apply Hok.
  - intros t0. unfold led'. at_node t0 t; [done|apply Hok].
  - intros t0. at_node t0 t; [intros _|apply Hok]. split; [by apply (gk_runs _ Hok)|]. exists Q. split; [done|].
    intros v Hq. by apply (gk_vote _ Hok v t i), Hv.
  - intros i'. at_node i' i; [done|apply Hok].
  - intros v t0 n (H1 & H2 & H3)%(gk_said _ Hok). split_and!; [by apply win_won|done|].
    destruct H3 as [H3|(t' & ? & ?)]; [left|right; exists t'; split; [done|by apply win_won]]. etrans; [exact H3|]. apply prefix_length, win_grows.
  - intros v t0 j [Hne Ho]%win_own Hs. by apply win_holds, (gk_holds _ Hok).
  - intros v t0 j [Hne Ho]%win_own Hs. by apply win_holds, (gk_keeps _ Hok).
  - intros v n Hs. by apply Hnear, (gk_near _ Hok).
  - intros v n Hs. by apply Hnear, (gk_near_disk _ Hok).
  - intros v c t0 j. at_node c i; [done|]. intros Hrc Hvc Hlt [Hne Ho]%win_own Hs. by apply win_holds, (gk_covered _ Hok v c).
  - exact win_blocked.
Qed.
End win.

(** The leader adds entries of its term to its log. *)
Section extend.
Context (i : u64) (es : list Entry).
Context (Hr : g_runs G i = false) (Hw : g_won G (g_term G i) = Some i) (HL : g_log G i = g_led G (g_term G i)).
Context (Hes : Forall (λ e, e_term e = g_term G i) es).
Let t := g_term G i.
Let led' := <[t:=g_log G i ++ es]> (g_led G).
Lemma extend_led : led' t = g_led G t ++ es.
Proof using HL. unfold led'. by rewrite fn_lookup_insert, HL. Qed.
Lemma extend_other t0 : t0 ≠ t → led' t0 = g_led G t0.
Proof using. intros. unfold led'. by rewrite fn_lookup_insert_ne. Qed.
Lemma extend_grows t0 : g_led G t0 `prefix_of` led' t0.
Proof using HL. destruct (decide (t0 = t)) as [->|]; [rewrite extend_led; by apply prefix_app_r|by rewrite extend_other]. Qed.
Lemma extend_own t0 j : own led' t0 j → own (g_led G) t0 j ∨ (t0 = t ∧ (length (g_led G t) ≤ j)%nat).
Proof using HL.
  intros (e & He & Ht). destruct (decide (t0 = t)) as [->|]; [|left; rewrite extend_other in He by done; by exists e].
  rewrite extend_led in He. apply lookup_app_Some in He as [He|[Hj _]]; [left; by exists e|by right].
Qed.
Lemma extend_take t0 j : own (g_led G) t0 j → take (S j) (led' t0) = take (S j) (g_led G t0).
Proof using HL. intros Ho%own_lt. destruct (extend_grows t0) as [k ->]. rewrite take_app_le by lia. done. Qed.
Lemma extend_forgotten t0 j : own (g_led G) t0 j → forgotten G t0 j → forgotten (extend i es G) t0 j.
Proof using HL Hes.
  intros Ho (t' & Hlt & Hw' & Hn). exists t'. simpl. fold t led'. split_and!; [done..|]. rewrite (extend_take _ _ Ho). intros Hp. apply Hn.
  destruct (decide (t' = t)) as [->|]; [|by rewrite extend_other in Hp]. rewrite extend_led in Hp.
  destruct (own_prefix G t0 j _ Ho Hp) as (e & He & Ht). apply lookup_app_Some in He as [He|[_ He]].
  - apply lookup_lt_Some in He. eapply prefix_app_short; [exact Hp|]. rewrite length_take. lia.
  - pose proof (Forall_lookup_1 _ _ _ _ Hes He). simpl in *. lia.
Qed.
(** No other log has the new entries. *)
Lemma extend_new j t' : own led' t j → (length (g_led G t) ≤ j)%nat → t' ≠ t → ¬ take (S j) (led' t) `prefix_of` led' t'.
Proof using Hok.
  intros (e & He & Ht) Hj Hne Hp. rewrite (extend_other t') in Hp by done.
  assert (g_led G t' !! j = Some e) as He'.
  { eapply prefix_lookup_Some; [|exact Hp]. rewrite lookup_take_lt by lia. done. }
  destruct (proj1 (gk_led _ Hok t') j e He') as [_ Hp']. rewrite Ht in Hp'. apply prefix_length in Hp'.
  apply lookup_lt_Some in He'. rewrite length_take in Hp'. lia.
Qed.
Lemma extend_said v L t0 j :
  own led' t0 j → said G v t0 (S j) → holds G L t0 j ∨ ¬ own (g_led G) t0 j → holds (extend i es G) L t0 j.
Proof using Hok HL Hes.
  intros Ho Hs HL'. destruct (decide (j < length (g_led G t0))%nat) as [Hj|Hj].
  - destruct (extend_own _ _ Ho) as [Ho'|[-> ?]]; [|lia]. destruct HL' as [[Hp|]|]; [left|right; by apply extend_forgotten|done].
    simpl. fold t led'. by rewrite extend_take.
  - right. destruct (extend_own _ _ Ho) as [?%own_lt|[-> _]]; [lia|]. destruct (gk_said _ Hok _ _ _ Hs) as (_ & _ & [|(t' & Hlt & Hw')]); [lia|].
    exists t'. split_and!; [done..|]. apply extend_new; [done|lia..].
Qed.
Lemma own_or_not t0 j : own (g_led G) t0 j ∨ ¬ own (g_led G) t0 j.
Proof using.
  unfold own. destruct (g_led G t0 !! j) as [e|]; [|right; by intros (? & ? & _)].
  destruct (decide (e_term e = t0)); [left; by exists e|right; intros (? & [= <-] & ?); done].
Qed.
Lemma extend_anchored L : anchored (g_led G) L → anchored led' L.
Proof using HL. apply anchored_mono, extend_grows. Qed.
Lemma extend_log : anchored led' (g_log G i ++ es) ∧ ∀ e, e ∈ g_log G i ++ es → e_term e ≤ t.
Proof using Hok Hw HL Hes.
  split.
  - eapply (anchored_grow led' t); [apply extend_anchored, (gk_log _ Hok i)| |exact Hes|by rewrite extend_led, HL].
    apply (gk_won _ Hok t). unfold t. rewrite Hw. by eexists.
  - intros e [He|He]%elem_of_app; [by apply (gk_log _ Hok i)|]. rewrite Forall_forall in Hes. by rewrite Hes.
Qed.
Lemma extend_ok : group_ok (extend i es G).
Proof using Hok Hr Hw HL Hes.
  assert (is_Some (g_won G t)) as Hsw by (unfold t; rewrite Hw; by eexists). destruct extend_log as [Hgrow Hbound].
  assert (∀ L t0 n, near G L t0 n → near (extend i es G) L t0 n) as Hnear by (intros *; apply near_mono; [apply extend_grows|done]).
  constructor; simpl; fold t led'; try apply Hok.
  - intros v. at_node v i; [done|]. split; [apply extend_anchored|]; apply Hok.
  - intros v. split; [apply extend_anchored|]; apply Hok.
  - intros t0. destruct (decide (t0 = t)) as [->|Hne].
    + rewrite extend_led. unfold t. rewrite <-HL. done.
    + rewrite extend_other by done. split; [apply extend_anchored|]; apply Hok.
  - intros t0 Hn. rewrite extend_other; [by apply (gk_empty _ Hok)|]. intros ->. rewrite Hn in Hsw. by destruct Hsw.
  - intros v t0 n (H1 & H2 & H3)%(gk_said _ Hok). split_and!; [done..|]. destruct H3; [left|by right]. etrans; [done|]. apply prefix_length, extend_grows.
  - intros v t0 j Ho Hs. assert (holds (extend i es G) (g_log G v) t0 j) as Hv.
    { apply (extend_said v); [done..|]. destruct (own_or_not t0 j); [left; by apply (gk_holds _ Hok)|by right]. }
    at_node v i; [|done]. destruct Hv as [Hp|]; [left|by right]. etrans; [exact Hp|]. by apply prefix_app_r.
  - intros v t0 j Ho Hs. apply (extend_said v); [done|by apply said_durable|]. destruct (own_or_not t0 j); [left; by apply (gk_keeps _ Hok)|by right].
  - intros v n Hs. at_node v i; [right; simpl; fold t led'; by rewrite extend_led, HL|]. by apply Hnear, (gk_near _ Hok).
  - intros v n Hs. by apply Hnear, (gk_near_disk _ Hok).
  - intros v c t0 j Hc Hv Hlt Ho Hs. rewrite fn_lookup_insert_ne by congruence. apply (extend_said v); [done..|].
    destruct (own_or_not t0 j); [left; by apply (gk_covered _ Hok v c)|by right].
  - intros t0 t' j H1 H2 Hlt Hj. apply (gk_blocked _ Hok t0 t' j); [done..|]. destruct Hj as [[Ho Hn]|Hj].
    + destruct (extend_own _ _ Ho) as [Ho'|[-> ?]]; [left|by right]. split; [done|]. rewrite <-(extend_take _ _ Ho'). intros Hp. apply Hn.
      etrans; [exact Hp|apply extend_grows].
    + right. etrans; [|exact Hj]. apply prefix_length, extend_grows.
Qed.
End extend.
End keep.

Lemma group_step_ok G G' : group_ok G → group_step G G' → group_ok G'.
Proof using quorum_meet.
  intros Hok []; [by apply rise_ok|by apply vote_ok|by eapply win_ok|by apply extend_ok|by apply accept_ok|by apply say_ok
    |by apply report_ok|by apply save_ok|by apply publish_ok|by apply crash_ok].
Qed.
(** The logs of leaders only grow, and so do the acknowledgements. *)
Lemma group_step_grows G G' : group_ok G → group_step G G' →
  (∀ t, g_led G t `prefix_of` g_led G' t) ∧ (∀ v t n, durable G v t n → durable G' v t n).
Proof using.
  intros Hok Hs. split.
  - destruct Hs as [| |i Q Hr Hw _ _|i es _ _ HL _| | | | | |]; simpl; try done; intros t; at_node t (g_term G i); try done.
    + rewrite (gk_empty _ Hok _ Hw). apply prefix_nil.
    + rewrite HL. by apply prefix_app_r.
  - destruct Hs as [| | | | | |i n| |v Hv|]; try done; intros v' t m (n' & Hn' & Hin); exists n'; (split; [done|]); simpl.
    + at_node v' i; [by right|done].
    + at_node v' v; [|done]. apply elem_of_app. by right.
Qed.
Lemma group_steps_ok G G' : group_ok G → rtc group_step G G' →
  group_ok G' ∧ (∀ t, g_led G t `prefix_of` g_led G' t) ∧ (∀ v t n, durable G v t n → durable G' v t n).
Proof using quorum_meet.
  intros Hok Hs. induction Hs as [G|G1 G2 G3 Hs _ IH]; [done|]. destruct (group_step_grows _ _ Hok Hs) as [Hl Hd].
  destruct IH as (Hok' & Hl' & Hd'); [by eapply group_step_ok|]. split_and!; [done| |by auto]. intros t. etrans; [apply Hl|apply Hl'].
Qed.

(** A group that has just started. *)
Record group_starts G : Prop := {
  gs_logs v : g_log G v = [] ∧ g_disk G v = [];
  gs_idle v : g_runs G v = false ∧ g_said G v = [] ∧ g_acks G v = [] ∧ ∀ t, g_vote G v t = None;
  gs_leaderless t : g_won G t = None ∧ g_led G t = [] }.
Lemma group_starts_ok G : group_starts G → group_ok G.
Proof using.
  intros [Hl Hi Hw].
  assert (∀ v t n, ¬ said G v t n) as Hs.
  { intros v t n (n' & _ & Hin). destruct (Hi v) as (_ & H1 & H2 & _). rewrite H1, H2 in Hin. by destruct Hin as [?%elem_of_nil|?%elem_of_nil]. }
  assert (∀ v t n, ¬ durable G v t n) as Hd by (intros v t n ?%said_durable; by eapply Hs).
  assert (∀ t, ¬ is_Some (g_won G t)) as Hn by (intros t; rewrite (proj1 (Hw t)); by intros [? [=]]).
  constructor.
  - intros v. rewrite (proj1 (Hl v)). split; [apply anchored_nil|by intros e ?%elem_of_nil].
  - intros v. rewrite (proj2 (Hl v)). split; [apply anchored_nil|by intros e ?%elem_of_nil].
  - intros t. rewrite (proj2 (Hw t)). split; [apply anchored_nil|by intros e ?%elem_of_nil].
  - intros t _. apply Hw.
  - by intros t ?%Hn.
  - intros i. by rewrite (proj1 (Hi i)).
  - intros v t c. destruct (Hi v) as (_ & _ & _ & Hv). by rewrite Hv.
  - by intros v t n ?%Hs.
  - by intros v t j _ ?%Hs.
  - by intros v t j _ ?%Hd.
  - by intros v n ?%Hs.
  - by intros v n ?%Hd.
  - by intros v c t j _ _ _ _ ?%Hs.
  - by intros t t' j ?%Hn.
Qed.
(** What is chosen at any two moments of a run agrees. *)
Lemma chosen_safe G0 G G' L L' :
  group_starts G0 → rtc group_step G0 G → rtc group_step G G' → chosen G L → chosen G' L' →
  L `prefix_of` L' ∨ L' `prefix_of` L.
Proof using quorum_meet.
  intros H0 H1 H2 HL HL'. destruct (group_steps_ok _ _ (group_starts_ok _ H0) H1) as (Hok & _ & _).
  destruct (group_steps_ok _ _ Hok H2) as (Hok' & Hl & Hd). apply (chosen_agree G' Hok'); [|done].
  by apply (chosen_mono G).
Qed.
End replication.
