(* ===== verification/RaftCluster.v ===== *)
(** * A cluster of nodes

    The nodes run the methods of [RaftStep]; the network may lose, delay, reorder
    and repeat messages, and bring in messages that nobody sent, except that it
    cannot invent a granted vote. Nodes may restart from the term and the vote
    they have persisted, their logs may change in any way, and the configuration
    may change at any time. *)
From S2P Require Import Prelude Errors Proto Util Quorum Storage Unstable ReadOnly Config.
From S2P Require Import Majority Joint Progress Tracker RaftLog RaftState RaftSend RaftLogic RaftRole RaftStep.
From S2P Require Import RaftReset RaftVote RaftStays RaftElect.
#[local] Open Scope N_scope.

Section cluster.
Context {S : Type} `{Storage S, PbMessage, HashOrder, Rng, ConfChangeCodec}.
Implicit Types r : Raft S.

(** What can happen to one node. *)
Inductive event : Type :=
  | Receive (m : Message)
  | Tick
  | Applied (index : u64)
  | Persisted (index term : u64)
  | Reconfigure (cc : ConfChangeV2)
  | LogWritten (l : RaftLog S)
  | Restart (c : Config) (store : S).

Definition run_event (e : event) r : outcome (Raft S) :=
  match e with
  | Receive m => fst <$> step m r
  | Tick => fst <$> tick r
  | Applied index => fst <$> commit_apply index r
  | Persisted index term => fst <$> on_persist_entries index term r
  | Reconfigure cc => fst <$> apply_conf_change cc r
  | LogWritten l => Done (set_r_raft_log l r)
  | Restart c store =>
      res ← RaftStep.new c store;
      match res with Ok r' => Done r' | Err _ => Panic Unwrap end
  end.

(** The message an event is about; the clock is about no message from outside. *)
Definition event_msg (e : event) : Message :=
  match e with Receive m => m | _ => Message_default end.

(** [leaders] records who has become leader in which term, and under which
    configuration; the program does not keep it. *)
Record cluster := mkCluster {
  nodes : u64 → Raft S;
  net : list Message;
  leaders : list (u64 * u64 * JointConfig) }.

(** A granted vote comes from the network and from its addressee's own inbox, a
    restarted node reads back its hard state, and a configuration fits into memory. *)
Definition possible (C : cluster) (i : u64) (e : event) : Prop :=
  joint_bounded (c_voters (pt_conf (r_prs (nodes C i)))) ∧
  match e with
  | Receive m => is_grant m = true → m ∈ net C ∧ m_to m = i
  | Restart c store =>
      cfg_id c = i ∧ ∃ rs, Storage.initial_state store = Ok rs ∧
        hs_term (rs_hard_state rs) = r_term (nodes C i) ∧ hs_vote (rs_hard_state rs) = r_vote (nodes C i)
  | _ => True
  end.

Definition set_node (i : u64) r (f : u64 → Raft S) : u64 → Raft S := λ j, if j =? i then r else f j.

Definition still_leader r r' : bool := bool_decide (r_state r = Leader) && (r_term r' =? r_term r).
Definition record_leader (i : u64) r r' (l : list (u64 * u64 * JointConfig)) : list (u64 * u64 * JointConfig) :=
  if bool_decide (r_state r' = Leader) && negb (still_leader r r')
  then (r_term r', i, c_voters (pt_conf (r_prs r))) :: l else l.

Inductive cluster_step (C : cluster) : cluster → Prop :=
  | cs_event i e r' :
      i ≠ INVALID_ID → possible C i e → run_event e (nodes C i) = Done r' →
      cluster_step C (mkCluster (set_node i r' (nodes C)) (net C)
                        (record_leader i (nodes C i) r' (leaders C)))
  | cs_flush i :
      cluster_step C (mkCluster (set_node i (set_r_msgs [] (nodes C i)) (nodes C))
                        (net C ++ r_msgs (nodes C i)) (leaders C)).

(** The nodes have just started, and no vote is under way. *)
Record initial (C : cluster) : Prop := {
  in_node i : r_id (nodes C i) = i ∧ r_state (nodes C i) = Follower ∧ r_msgs (nodes C i) = [];
  in_net : grants (net C) = [];
  in_leaders : leaders C = [] }.

(** ** One event *)

Lemma run_event_spec e r r' :
  joint_bounded (c_voters (pt_conf (r_prs r))) → r_id r ≠ INVALID_ID → voted_self r →
  (∀ m, e = Receive m → is_grant m = true → m_term m ≠ 0) →
  (∀ c store, e = Restart c store → cfg_id c = r_id r ∧ ∃ rs, Storage.initial_state store = Ok rs ∧
        hs_term (rs_hard_state rs) = r_term r ∧ hs_vote (rs_hard_state rs) = r_vote r) →
  run_event e r = Done r' →
  vote_order r r' ∧ contest (event_msg e) r r' ∧ grants_honest r r'.
Proof.
  intros Hb Hid Hself Hgrant Hre E.
  assert (∀ {A} (m : rm S A) a, keeps vote_order m → keeps stays m → m r = Done (r', a) →
    vote_order r r' ∧ contest (event_msg e) r r' ∧ grants_honest r r') as Hstay.
  { intros A m a Hv Hs Em. split_and!; [by eapply Hv|by eapply contest_stays, Hs|by eapply honest_same, Hs]. }
  destruct e as [m| |i|i t|cc|l|c store]; simpl in E.
  all: try (apply fmap_Done in E as ([r1 x] & E & ->)).
  - split; [by eapply step_vote|]. eapply step_contest; eauto.
  - split; [by eapply tick_vote|]. eapply tick_contest; eauto.
  - eapply Hstay; [apply commit_apply_vote|apply commit_apply_stays|done].
  - eapply Hstay; [apply on_persist_entries_vote|apply on_persist_entries_stays|done].
  - eapply Hstay; [apply apply_conf_change_vote|apply apply_conf_change_stays|done].
  - injection E as <-. eapply (Hstay _ (modify (set_r_raft_log l)) ()); [..|done].
    + apply keeps_modify. intros. by apply vote_order_same.
    + apply keeps_modify. intros. by apply stays_same.
  - apply bind_Done in E as (res & E & Er). destruct res as [r1|]; [|done]. simplify_eq.
    destruct (Hre c store eq_refl) as (Hc & rs & Hrs & Ht & Hv).
    destruct (new_follower c store rs r' E Hrs) as (Hid' & Hms & Hst & Ht' & Hv' & _).
    assert (stays (set_r_msgs [] r) r') as Hs by (apply stays_quiet; simpl; [congruence|done|rewrite Hst; by intros [|]]).
    split_and!.
    + apply vote_order_same; congruence.
    + split; [congruence|rewrite Hst; done|rewrite Hst; done].
    + intros g. rewrite Hms. by intros ?%elem_of_nil.
Qed.

(** ** The invariant *)

(** [ballot v t] is the node [v] has voted for in term [t]. *)
Record cluster_ok (ballot : u64 → u64 → option u64) (C : cluster) : Prop := {
  co_id i : r_id (nodes C i) = i;
  co_self i : voted_self (nodes C i);
  co_vote i : i ≠ INVALID_ID → ballot i (r_term (nodes C i)) =
    (if r_vote (nodes C i) =? INVALID_ID then None else Some (r_vote (nodes C i)));
  co_future i t : i ≠ INVALID_ID → r_term (nodes C i) < t → ballot i t = None;
  co_granted g : g ∈ grants (net C) ∨ (∃ i, g ∈ grants (r_msgs (nodes C i))) →
    m_term g ≠ 0 ∧ (m_to g ≠ INVALID_ID → ballot (m_from g) (m_term g) = Some (m_to g));
  co_candidate i v : i ≠ INVALID_ID → r_state (nodes C i) = Candidate →
    pt_votes (r_prs (nodes C i)) !! v = Some true → ballot v (r_term (nodes C i)) = Some i;
  co_leader i : r_state (nodes C i) = Leader → ∃ conf, (r_term (nodes C i), i, conf) ∈ leaders C;
  co_leaders t i conf : (t, i, conf) ∈ leaders C →
    joint_quorum_of conf (λ v, ballot v t = Some i) }.

(** The ballot after node [i] has moved to state [r]. *)
Definition cast (i : u64) r (ballot : u64 → u64 → option u64) : u64 → u64 → option u64 := λ v t,
  if (v =? i) && (t =? r_term r)
  then if r_vote r =? INVALID_ID then None else Some (r_vote r)
  else ballot v t.

Lemma joint_quorum_of_mono conf (P Q : N → Prop) `{∀ v, Decision (P v), ∀ v, Decision (Q v)} :
  (∀ v, P v → Q v) → joint_quorum_of conf P → joint_quorum_of conf Q.
Proof.
  intros HPQ. assert (∀ half, quorum_of half P → quorum_of half Q) as Hm.
  { intros half Hq. unfold quorum_of in *. eapply N.lt_le_trans; [exact Hq|]. apply count_mono. auto. }
  intros [Hi Ho]. split; [destruct Hi|destruct Ho]; auto.
Qed.

Lemma initial_ok C : initial C → cluster_ok
  (λ v t, if t =? r_term (nodes C v)
          then if r_vote (nodes C v) =? INVALID_ID then None else Some (r_vote (nodes C v)) else None) C.
Proof.
  intros [Hn Hnet Hl]. split.
  - apply Hn.
  - intros i Hc. destruct (Hn i) as (_ & Hs & _). rewrite Hs in Hc. by destruct Hc.
  - intros i _. by rewrite N.eqb_refl.
  - intros i t _ Ht. rewrite (proj2 (N.eqb_neq _ _)) by lia. done.
  - intros g [Hg|[i Hg]]; [rewrite Hnet in Hg|destruct (Hn i) as (_ & _ & Hm); rewrite Hm in Hg]; by apply elem_of_nil in Hg.
  - intros i v _ Hs. destruct (Hn i) as (_ & Hs' & _). congruence.
  - intros i Hs. destruct (Hn i) as (_ & Hs' & _). congruence.
  - intros t i conf Hin. rewrite Hl in Hin. by apply elem_of_nil in Hin.
Qed.

(** ** One step of the cluster *)
Section step.
Context (ballot : u64 → u64 → option u64) (C : cluster) (Hok : cluster_ok ballot C).
Context (i : u64) (e : event) (r' : Raft S).
Context (Hi : i ≠ INVALID_ID) (Hpos : possible C i e).
Context (Hvo : vote_order (nodes C i) r') (Hct : contest (event_msg e) (nodes C i) r').
Context (Hho : grants_honest (nodes C i) r').

(** No ballot is ever changed. *)
Lemma cast_mono v t c : ballot v t = Some c → cast i r' ballot v t = Some c.
Proof using Hok Hi Hvo.
  intros Hb. unfold cast. destruct (N.eqb_spec v i) as [->|]; [|done]. destruct (N.eqb_spec t (r_term r')) as [->|]; [|done].
  simpl. destruct Hvo as [Ht Hv]. destruct (N.eq_dec (r_term r') (r_term (nodes C i))) as [Heq|Hne].
  - rewrite Heq, (co_vote _ _ Hok i Hi) in Hb. destruct (N.eqb_spec (r_vote (nodes C i)) INVALID_ID); [done|].
    destruct (Hv Heq) as [|Hv']; [done|]. rewrite Hv'. destruct (N.eqb_spec (r_vote (nodes C i)) INVALID_ID); done.
  - rewrite (co_future _ _ Hok i) in Hb; [done..|]. lia.
Qed.

Lemma counted_cast v :
  r_vote r' = i → counted (event_msg e) (nodes C i) r' v → cast i r' ballot v (r_term r') = Some i.
Proof using Hok Hi Hvo Hpos Hct.
  intros Hv [->|[(Hst & Ht & Hvs)|(Hg & Hf & Ht)]].
  - rewrite (co_id _ _ Hok). unfold cast. rewrite !N.eqb_refl, Hv. simpl.
    by destruct (N.eqb_spec i INVALID_ID).
  - rewrite Ht. apply cast_mono. by apply (co_candidate _ _ Hok).
  - apply cast_mono. destruct Hpos as [_ Hp]. destruct e as [m| | | | | |]; simpl in *; try done.
    destruct (Hp Hg) as [Hin Hto]. rewrite <-Hf, <-Ht, <-Hto. apply (co_granted _ _ Hok); [|congruence].
    left. by apply list_elem_of_filter.
Qed.

Lemma record_leader_incl w : w ∈ leaders C → w ∈ record_leader i (nodes C i) r' (leaders C).
Proof. unfold record_leader. case_match; set_solver. Qed.

Lemma event_ok :
  cluster_ok (cast i r' ballot)
    (mkCluster (set_node i r' (nodes C)) (net C) (record_leader i (nodes C i) r' (leaders C))).
Proof using Hok Hi Hvo Hct Hho Hpos.
  pose proof (co_id _ _ Hok i) as Hidi. destruct Hct as [Hid Hca Hle].
  assert (∀ (P : u64 → Raft S → Prop), (∀ j, j ≠ i → P j (nodes C j)) → P i r' →
    ∀ j, P j (set_node i r' (nodes C) j)) as Hcase.
  { intros P Ho Hn j. unfold set_node. destruct (N.eqb_spec j i) as [->|]; auto. }
  assert (∀ j t, j ≠ i → cast i r' ballot j t = ballot j t) as Hoth.
  { intros j t Hj. unfold cast. by rewrite (proj2 (N.eqb_neq _ _) Hj). }
  split; simpl.
  - apply (Hcase (λ j r, r_id r = j)); [intros; apply Hok|congruence].
  - apply (Hcase (λ _ r, voted_self r)); [intros; apply Hok|]. intros [Hs|Hs]; [destruct (Hca Hs)|destruct (Hle Hs)]; congruence.
  - apply (Hcase (λ j r, j ≠ INVALID_ID → cast i r' ballot j (r_term r) =
      if r_vote r =? INVALID_ID then None else Some (r_vote r))).
    + intros j Hj. rewrite Hoth by done. apply (co_vote _ _ Hok).
    + intros _. unfold cast. by rewrite !N.eqb_refl.
  - intros j t. revert j. apply (Hcase (λ j r, j ≠ INVALID_ID → r_term r < t → cast i r' ballot j t = None)).
    + intros j Hj. rewrite Hoth by done. apply (co_future _ _ Hok).
    + intros _ Ht. unfold cast. rewrite (proj2 (N.eqb_neq t _)), andb_false_r by lia.
      apply (co_future _ _ Hok); [done|]. destruct Hvo. lia.
  - assert (∀ g, (g ∈ grants (net C) ∨ ∃ j, g ∈ grants (r_msgs (nodes C j))) →
      m_term g ≠ 0 ∧ (m_to g ≠ INVALID_ID → cast i r' ballot (m_from g) (m_term g) = Some (m_to g))) as Hold.
    { intros g [Hg Hto]%(co_granted _ _ Hok). split; [done|]. intros Hne. by apply cast_mono, Hto. }
    intros g [Hg|[j Hg]]; [apply Hold; by left|]. revert Hg. revert j.
    apply (Hcase (λ j r, g ∈ grants (r_msgs r) → _)); [intros j Hj Hg; apply Hold; by right; exists j|].
    intros [Hg|(Hf & Ht & Hne & Hto)]%Hho; [apply Hold; by right; exists i|]. split; [done|].
    rewrite Hf, Ht, Hto, Hidi. intros Hv. unfold cast. rewrite !N.eqb_refl. simpl.
    by destruct (N.eqb_spec (r_vote r') INVALID_ID).
  - intros j v. revert j. apply (Hcase (λ j r, j ≠ INVALID_ID → r_state r = Candidate →
      pt_votes (r_prs r) !! v = Some true → cast i r' ballot v (r_term r) = Some j)).
    + intros j Hj Hj0 Hst Hv. apply cast_mono. by apply (co_candidate _ _ Hok).
    + intros _ Hst Hv. destruct (Hca Hst) as [Hvt Hvs]. apply counted_cast; [congruence|auto].
  - apply (Hcase (λ j r, r_state r = Leader → ∃ conf, (r_term r, j, conf) ∈ record_leader i (nodes C i) r' (leaders C))).
    + intros j Hj Hst. destruct (co_leader _ _ Hok j Hst) as [conf Hin]. exists conf. by apply record_leader_incl.
    + intros Hst. destruct (still_leader (nodes C i) r') eqn:Hs.
      * unfold still_leader in Hs. apply andb_true_iff in Hs as [Hl%bool_decide_eq_true Ht%N.eqb_eq].
        destruct (co_leader _ _ Hok i Hl) as [conf Hin]. exists conf. rewrite Ht. by apply record_leader_incl.
      * eexists. unfold record_leader. rewrite bool_decide_eq_true_2, Hs by done. simpl. left.
  - intros t j conf Hin.
    assert ((t, j, conf) ∈ leaders C → joint_quorum_of conf (λ v, cast i r' ballot v t = Some j)) as Hold.
    { intros Hq%(co_leaders _ _ Hok). eapply joint_quorum_of_mono; [|exact Hq]. intros v. apply cast_mono. }
    unfold record_leader in Hin. case_bool_decide as Hst; [|by apply Hold].
    destruct (still_leader (nodes C i) r') eqn:Hs; simpl in Hin; [by apply Hold|].
    apply elem_of_cons in Hin as [[= -> -> ->]|Hin]; [|by apply Hold].
    destruct (Hle Hst) as [Hv [[Hl Ht]|(vs & Hw & Hvs)]].
    + unfold still_leader in Hs. rewrite Hl, Ht, N.eqb_refl in Hs. done.
    + eapply joint_quorum_of_mono; [|exact Hw]. intros v Hvv. apply counted_cast; [congruence|auto].
Qed.
End step.

(** Sending changes no ballot. *)
Lemma flush_cluster_ok ballot C i :
  cluster_ok ballot C →
  cluster_ok ballot (mkCluster (set_node i (set_r_msgs [] (nodes C i)) (nodes C)) (net C ++ r_msgs (nodes C i)) (leaders C)).
Proof.
  intros [Hid Hself Hvote Hfut Hgr Hca Hle Hls].
  assert (∀ j, ∃ ms, set_node i (set_r_msgs [] (nodes C i)) (nodes C) j = set_r_msgs ms (nodes C j) ∧
    (ms = [] ∨ ms = r_msgs (nodes C j))) as Hn.
  { intros j. unfold set_node. destruct (N.eqb_spec j i) as [->|]; [by exists []; auto|].
    exists (r_msgs (nodes C j)). split; [by destruct (nodes C j)|by right]. }
  split; simpl.
  - intros j. destruct (Hn j) as (ms & -> & _). apply Hid.
  - intros j. destruct (Hn j) as (ms & -> & _). apply (Hself j).
  - intros j. destruct (Hn j) as (ms & -> & _). apply Hvote.
  - intros j t. destruct (Hn j) as (ms & -> & _). apply Hfut.
  - intros g Hg. apply Hgr. destruct Hg as [Hg|[j Hg]].
    + rewrite grants_app, elem_of_app in Hg. destruct Hg; [by left|right; by exists i].
    + destruct (Hn j) as (ms & Hj & Hms). rewrite Hj in Hg. simpl in Hg.
      destruct Hms as [-> | ->]; [by apply elem_of_nil in Hg|right; by exists j].
  - intros j v. destruct (Hn j) as (ms & -> & _). apply Hca.
  - intros j. destruct (Hn j) as (ms & -> & _). apply Hle.
  - done.
Qed.
Lemma cluster_step_ok ballot C C' :
  cluster_ok ballot C → cluster_step C C' → ∃ ballot', cluster_ok ballot' C'.
Proof.
  intros Hok Hs. destruct Hs as [i e r' Hi Hpos E|i].
  - destruct (run_event_spec e (nodes C i) r') as (Hv & Hc & Hh).
    + apply Hpos.
    + by rewrite (co_id _ _ Hok).
    + apply Hok.
    + intros m -> Hg. destruct Hpos as [_ Hp]. destruct (Hp Hg) as [Hin _].
      apply (co_granted _ _ Hok m). left. by apply list_elem_of_filter.
    + intros c store ->. rewrite (co_id _ _ Hok). apply Hpos.
    + done.
    + eexists. by eapply event_ok.
  - exists ballot. by apply flush_cluster_ok.
Qed.

Lemma reachable_ok C C' : initial C → rtc cluster_step C C' → ∃ ballot, cluster_ok ballot C'.
Proof.
  intros Hin Hs. assert (∃ ballot, cluster_ok ballot C) as Hok by (eexists; by apply initial_ok).
  clear Hin. induction Hs as [|C1 C2 C3 Hs _ IH]; [done|]. apply IH. destruct Hok as [b Hok].
  by eapply cluster_step_ok.
Qed.

(** Two configurations of which any two quorums have a common member. *)
Definition quorums_meet (c1 c2 : JointConfig) : Prop :=
  ∀ (P Q : N → Prop) (dP : ∀ v, Decision (P v)) (dQ : ∀ v, Decision (Q v)),
    joint_quorum_of c1 P → joint_quorum_of c2 Q → ∃ v, P v ∧ Q v.

Lemma election_safety_x C0 C t a b ca cb :
  initial C0 → rtc cluster_step C0 C →
  (t, a, ca) ∈ leaders C → (t, b, cb) ∈ leaders C → quorums_meet ca cb → a = b.
Proof.
  intros Hin Hs Ha Hb Hm. destruct (reachable_ok _ _ Hin Hs) as [ballot Hok].
  destruct (Hm (λ v, ballot v t = Some a) (λ v, ballot v t = Some b) _ _) as (v & Hva & Hvb).
  - by apply (co_leaders _ _ Hok).
  - by apply (co_leaders _ _ Hok).
  - congruence.
Qed.
End cluster.

(** C4: election safety. However messages are lost, delayed, reordered, repeated
    or made up (short of inventing granted votes), however nodes crash and restart
    from their hard state, and whatever happens to logs and configurations, two
    nodes are never leaders of the same term when the configurations they were
    elected under have intersecting quorums (the same configuration, or two that
    are one change apart); and every node in the leader role has been elected. *)
Theorem election_safety {S} `{Storage S, PbMessage, HashOrder, Rng, ConfChangeCodec} (C0 C : cluster (S := S)) :
  initial C0 → rtc cluster_step C0 C →
  (∀ t a b ca cb, (t, a, ca) ∈ leaders C → (t, b, cb) ∈ leaders C → quorums_meet ca cb → a = b) ∧
  (∀ i, r_state (nodes C i) = Leader → ∃ conf, (r_term (nodes C i), i, conf) ∈ leaders C).
Proof.
  intros Hin Hs. split; [intros t a b ca cb; by apply election_safety_x with C0|].
  intros i. destruct (reachable_ok _ _ Hin Hs) as [ballot Hok]. apply (co_leader _ _ Hok).
Qed.
