(* ===== verification/RaftRoles.v ===== *)
(** * The roles of a node

    Which leader, vote and transferee go with which role: an invariant of every
    message, every tick and every call of the application. *)
From S2P Require Import Prelude Errors Proto Util Quorum Storage Unstable ReadOnly Config.
From S2P Require Import Progress Tracker RaftLog RaftState RaftSend RaftLogic RaftRole RaftStep RaftReset RaftStays.
From S2P Require Import RaftElect RaftCluster.
From S2P Require ConfChange.
#[local] Open Scope N_scope.

Section roles.
Context {S : Type} `{Storage S, PbMessage, HashOrder, Rng, ConfChangeCodec}.
Implicit Types r : Raft S.

Record role_ok r : Prop := {
  ro_id : r_id r ≠ INVALID_ID;
  ro_leader : r_state r = Leader → r_leader_id r = r_id r ∧ r_vote r = r_id r;
  ro_candidate : r_state r = Candidate → r_leader_id r = INVALID_ID ∧ r_vote r = r_id r;
  ro_pre_candidate : r_state r = PreCandidate → r_leader_id r = INVALID_ID;
  ro_transferee : is_Some (r_lead_transferee r) → r_state r = Leader }.

Definition roles r r' : Prop := role_ok r → role_ok r'.
#[local] Instance roles_preorder : PreOrder roles.
Proof. unfold roles. split; [by intros r ?|]. intros r1 r2 r3 H12 H23 Hr. by apply H23, H12. Qed.

Lemma roles_same r r' :
  r_id r' = r_id r → r_state r' = r_state r → r_leader_id r' = r_leader_id r → r_vote r' = r_vote r →
  (r_lead_transferee r' = r_lead_transferee r ∨ r_lead_transferee r' = None) → roles r r'.
Proof.
  intros Ei Es El Ev Et [Hid Hl Hc Hp Ht]. constructor; rewrite ?Ei, ?Es, ?El, ?Ev; try done.
  intros Hs. apply Ht. destruct Et as [<-|Et]; [done|]. rewrite Et in Hs. by apply is_Some_None in Hs.
Qed.
Lemma roles_sends r r' : sends r r' → roles r r'.
Proof. intros (st & p & ms & rs & ro & -> & _). by apply roles_same; try left. Qed.
Lemma sends_roles {A} (m : rm S A) : keeps sends m → keeps roles m.
Proof. intros Hm. eapply keeps_sub; [done|]. apply roles_sends. Qed.
Lemma role_becomes_follower t v l r r' : becomes Follower t v l r r' → roles r r'.
Proof.
  intros [Hs Hst _ _ _ _ Htr _] [Hid _ _ _ _]. constructor; rewrite ?Hst, ?Htr, ?(sn_id _ _ Hs); try done.
Qed.

Ltac leaf := solve [apply roles_same; first [done | by left | by right]].
Hint Extern 4 (keeps roles _) => apply sends_roles; solve [eauto with raft_keeps] : raft_keeps.
Lemma send_roles m : keeps roles (send (S := S) m).
Proof. intros r r' u (m' & _ & ->)%send_spec. leaf. Qed.
Hint Resolve send_roles : raft_keeps.

(** ** Role changes *)
Lemma become_follower_roles t lead : keeps roles (become_follower (S := S) t lead).
Proof. intros r r' u (Hb & _)%become_follower_spec. by eapply role_becomes_follower. Qed.
Lemma become_candidate_roles : keeps roles (become_candidate (S := S)).
Proof.
  intros r r' u ([Hs Hst _ Hv Hl _ Htr _] & _)%become_candidate_spec [Hid _ _ _ _].
  constructor; rewrite ?Hst, ?Hv, ?Hl, ?Htr, ?(sn_id _ _ Hs); try done.
Qed.
Lemma become_pre_candidate_roles : keeps roles (become_pre_candidate (S := S)).
Proof.
  intros r r' u (-> & Hst)%become_pre_candidate_spec [Hid _ _ _ Ht]. constructor; simpl; try done.
  intros Hs. by specialize (Ht Hs).
Qed.
Lemma become_leader_roles r r' u : r_state r ≠ PreCandidate → become_leader r = Done (r', u) → roles r r'.
Proof.
  intros Hpre ([Hs Hst _ Hv Hl _ Htr _] & Hf & _)%become_leader_spec [Hid Hle Hc _ _].
  constructor; rewrite ?Hst, ?Hv, ?Hl, ?Htr, ?(sn_id _ _ Hs); try done.
  intros _. split; [done|]. destruct (r_state r); [done|by apply Hc|by apply Hle|done].
Qed.
Hint Resolve become_follower_roles become_candidate_roles become_pre_candidate_roles : raft_keeps.

Lemma maybe_commit_roles : keeps roles (maybe_commit (S := S)).
Proof. unfold maybe_commit, unwrap_pr. keeps leaf. Qed.
Lemma append_entry_roles es : keeps roles (append_entry (S := S) es).
Proof. intros r r' b (us & l & -> & _)%append_entry_spec. leaf. Qed.
Hint Resolve maybe_commit_roles append_entry_roles : raft_keeps.
Lemma request_votes_roles vm t c ct b ids : keeps roles (request_votes (S := S) vm t c ct b ids).
Proof. induction ids as [|id ids IH]; simpl; keeps leaf. Qed.
Hint Resolve request_votes_roles has_unapplied_sends : raft_keeps.

Lemma poll_with_roles again from v : keeps roles again → keeps roles (poll_with (S := S) again from v).
Proof.
  intros Ha r r' res E. unfold poll_with in E.
  apply rm_bind_Done in E as (r1 & [] & ->%rm_modify_Done & E).
  transitivity (set_r_prs (record_vote from v (r_prs r)) r); [leaf|].
  apply rm_bind_Done in E as (r2 & [[g b] res'] & [-> _]%rm_asks_Done & E).
  apply rm_bind_Done in E as (r2 & [] & Er & E). apply rm_ret_Done in E as [-> _].
  destruct res'; [keeps_run Er leaf|keeps_run Er leaf|].
  apply rm_bind_Done in Er as (r1 & st & [-> ->]%rm_gets_Done & E).
  case_bool_decide as Hst; [by eapply Ha|].
  apply rm_bind_Done in E as (r1 & [] & El & E). transitivity r1; [by eapply become_leader_roles|].
  keeps_run E leaf.
Qed.
Hint Resolve poll_with_roles : raft_keeps.
Lemma campaign_at_roles depth ty : keeps roles (campaign_at (S := S) depth ty).
Proof. revert ty. induction depth as [|depth IH]; intros ty; simpl; keeps leaf. Qed.
Hint Resolve campaign_at_roles : raft_keeps.
Lemma hup_roles b : keeps roles (hup (S := S) b).
Proof. unfold hup, campaign. keeps leaf. Qed.
Lemma maybe_commit_by_vote_roles m : keeps roles (maybe_commit_by_vote (S := S) m).
Proof. unfold maybe_commit_by_vote. keeps leaf. Qed.
Hint Resolve hup_roles maybe_commit_by_vote_roles : raft_keeps.

(** ** The leader's handlers *)
Lemma after_progress_roles from b : keeps roles (after_progress (S := S) from b).
Proof. unfold after_progress, unwrap_pr. keeps leaf. Qed.
Hint Resolve after_progress_roles : raft_keeps.
Lemma handle_append_response_roles m : keeps roles (handle_append_response (S := S) m).
Proof. unfold handle_append_response, get_pr. keeps leaf. Qed.
Lemma recv_ack_roles (id : Raft S → N) ctx :
  keeps roles (λ r, let '(ro, acks) := recv_ack (id r) ctx (r_read_only r) in Done (set_r_read_only ro r, acks)).
Proof. intros r r' a E. destruct (recv_ack _ _ _). injection E as <- <-. leaf. Qed.
Hint Resolve handle_append_response_roles recv_ack_roles : raft_keeps.
Lemma handle_heartbeat_response_roles m : keeps roles (handle_heartbeat_response (S := S) m).
Proof. pose proof (recv_ack_roles (λ _, m_from m)). unfold handle_heartbeat_response, get_pr. keeps leaf. Qed.
Lemma handle_snapshot_status_roles m : keeps roles (handle_snapshot_status (S := S) m).
Proof. unfold handle_snapshot_status, get_pr. keeps leaf. Qed.
Lemma handle_unreachable_roles m : keeps roles (handle_unreachable (S := S) m).
Proof. unfold handle_unreachable, get_pr. keeps leaf. Qed.
Hint Resolve handle_heartbeat_response_roles handle_snapshot_status_roles handle_unreachable_roles : raft_keeps.

(** Only a leader notes a transferee. *)
Lemma handle_transfer_leader_roles m r r' u :
  r_state r = Leader → handle_transfer_leader m r = Done (r', u) → roles r r'.
Proof.
  intros Hst E. unfold handle_transfer_leader, get_pr in E.
  apply rm_bind_Done in E as (r1 & p & [-> ->]%rm_gets_Done & E).
  destruct (Tracker.get (m_from m) (r_prs r)) as [pr|]; [|keeps_run E leaf].
  apply rm_bind_Done in E as (r1 & b & [-> _]%rm_gets_Done & E).
  apply rm_bind_Done in E as (r1 & t & [-> ->]%rm_gets_Done & E). destruct b; [keeps_run E leaf|].
  case_bool_decide; [keeps_run E leaf|]. apply rm_bind_Done in E as (r1 & [] & Ea & E).
  assert (roles r r1 ∧ r_state r1 = Leader) as [Hr Hst1].
  { unfold abort_leader_transfer in Ea. apply rm_when_Done in Ea. case_bool_decide; [|by subst].
    apply rm_modify_Done in Ea as ->. split; [leaf|done]. }
  transitivity r1; [done|]. apply rm_bind_Done in E as (r2 & i & [-> _]%rm_gets_Done & E).
  destruct (_ =? _); [keeps_run E leaf|]. apply rm_bind_Done in E as (r2 & [] & ->%rm_modify_Done & E).
  apply rm_bind_Done in E as (r2 & [] & ->%rm_modify_Done & E). etransitivity; [|keeps_run E leaf].
  intros [Hid Hl Hc Hp Ht]. by constructor.
Qed.

Lemma screen_entries_roles i es : keeps roles (screen_entries (S := S) i es).
Proof. revert i. induction es as [|e es IH]; intros i; simpl; keeps leaf. Qed.
Hint Resolve screen_entries_roles : raft_keeps.
Lemma propose_roles m : keeps roles (propose (S := S) m).
Proof. unfold propose, get_pr. keeps leaf. Qed.
Lemma add_request_roles c m :
  keeps roles (λ r, ro ← add_request c m (r_id r) (r_read_only r); Done (set_r_read_only ro r, ())).
Proof. intros r r' a E. apply bind_Done in E as (ro & _ & E). injection E as <-. leaf. Qed.
Hint Resolve propose_roles add_request_roles : raft_keeps.
Lemma leader_read_index_roles m : keeps roles (leader_read_index (S := S) m).
Proof. unfold leader_read_index. keeps leaf. Qed.
Lemma check_quorum_active_roles : keeps roles (check_quorum_active (S := S)).
Proof. unfold check_quorum_active. keeps leaf. Qed.
Hint Resolve leader_read_index_roles check_quorum_active_roles : raft_keeps.
Lemma step_leader_roles m r r' res : r_state r = Leader → step_leader m r = Done (r', res) → roles r r'.
Proof.
  intros Hst E. unfold step_leader, ok_ in E. destruct (m_type m) eqn:Hty.
  all: try (by keeps_run E leaf).
  apply rm_bind_Done in E as (r1 & [] & Et & E). apply handle_transfer_leader_roles in Et; [|done].
  by apply rm_ret_Done in E as [-> _].
Qed.

(** ** The follower's handlers *)
Lemma handle_append_entries_roles m : keeps roles (handle_append_entries (S := S) m).
Proof. unfold handle_append_entries, answer_append. keeps leaf. Qed.
Lemma handle_heartbeat_roles m : keeps roles (handle_heartbeat (S := S) m).
Proof. unfold handle_heartbeat. keeps leaf. Qed.
Lemma post_conf_change_roles : keeps roles (post_conf_change (S := S)).
Proof.
  pose proof (λ f Hf, sends_roles _ (for_peers_sends (S := S) f Hf)) as Hpeers.
  unfold post_conf_change, abort_leader_transfer. keeps leaf. apply Hpeers. intros. keeps leaf.
Qed.
Hint Resolve handle_append_entries_roles handle_heartbeat_roles post_conf_change_roles : raft_keeps.
Lemma conf_restore_roles i cs :
  keeps roles (λ r : Raft S, let '(prs, res) := ConfChange.restore i cs (r_prs r) in Done (set_r_prs prs r, res)).
Proof. intros r r' a E. destruct (ConfChange.restore _ _ _). injection E as <- <-. leaf. Qed.
Hint Resolve conf_restore_roles : raft_keeps.
Lemma restore_roles snap : keeps roles (restore (S := S) snap).
Proof. unfold restore, unwrap_pr. keeps leaf. Qed.
Hint Resolve restore_roles : raft_keeps.
Lemma handle_snapshot_roles m : keeps roles (handle_snapshot (S := S) m).
Proof. unfold handle_snapshot. keeps leaf. Qed.
Hint Resolve handle_snapshot_roles : raft_keeps.
Lemma follow_sender_roles m : keeps roles (follow_sender (S := S) m).
Proof. unfold follow_sender. keeps leaf. Qed.
Hint Resolve follow_sender_roles : raft_keeps.
Lemma step_candidate_roles m : keeps roles (step_candidate (S := S) m).
Proof. unfold step_candidate, handle_vote_response, poll, ok_. keeps leaf. Qed.
Lemma step_follower_roles m r r' res : r_state r = Follower → step_follower m r = Done (r', res) → roles r r'.
Proof.
  intros Hst E. unfold step_follower, ok_ in E.
  apply rm_bind_Done in E as (r1 & lead & [-> ->]%rm_gets_Done & E).
  assert (roles r (set_r_leader_id (m_from m) (set_r_election_elapsed 0 r))) as Hheard.
  { intros [Hid Hl Hc Hp Ht]. constructor; simpl; try done; by rewrite Hst. }
  destruct (m_type m) eqn:Hty; try (by keeps_run E leaf).
  all: apply rm_bind_Done in E as (r1 & [] & Eh & E); unfold heard_from in Eh;
    apply rm_bind_Done in Eh as (r2 & [] & ->%rm_modify_Done & ->%rm_modify_Done);
    (etransitivity; [exact Hheard|keeps_run E leaf]).
Qed.

(** ** Messages and ticks *)
Lemma step_term_roles m : keeps roles (step_term (S := S) m).
Proof. unfold step_term, id. keeps leaf. Qed.

Lemma handle_vote_request_roles m : keeps roles (handle_vote_request (S := S) m).
Proof.
  intros r r' u E. unfold handle_vote_request in E.
  apply rm_bind_Done in E as (r1 & grant & [-> Hg]%rm_asks_Done & E).
  apply rm_bind_Done in E as (r1 & resp & [-> Hresp]%rm_lift_Done & E).
  destruct grant; [|keeps_run E leaf].
  apply rm_bind_Done in E as (r1 & [] & (m' & _ & ->)%send_spec & E).
  apply rm_when_Done in E. case_bool_decide as Ht; [|subst; leaf].
  inv_rm. unfold grant_vote in Hg. destruct (can_vote m r) eqn:Hc; [|done]. unfold can_vote in Hc.
  rewrite (bool_decide_eq_false_2 (m_type m = _)) in Hc by congruence. simpl in Hc. rewrite orb_false_r in Hc.
  intros [Hid Hl Hca Hp Htr]. constructor; simpl; try done; intros Hst.
  - destruct (Hl Hst) as [El Ev]. split; [done|]. apply orb_true_iff in Hc as [Hc|Hc]; [apply N.eqb_eq in Hc; congruence|].
    apply andb_true_iff in Hc as [Hc _]. apply N.eqb_eq in Hc. congruence.
  - destruct (Hca Hst) as [El Ev]. split; [done|]. apply orb_true_iff in Hc as [Hc|Hc]; [apply N.eqb_eq in Hc; congruence|].
    apply andb_true_iff in Hc as [Hc _]. apply N.eqb_eq in Hc. congruence.
Qed.
Hint Resolve step_term_roles handle_vote_request_roles : raft_keeps.

Lemma step_roles m : keeps roles (step (S := S) m).
Proof.
  assert (keeps roles (step_handle (S := S) m)) as Hh; [|unfold step, ok_; keeps leaf].
  intros r r' res E. unfold step_handle, ok_ in E. destruct (m_type m) eqn:Hty; try (by keeps_run E leaf).
  all: apply rm_bind_Done in E as (r1 & st & [-> ->]%rm_gets_Done & E);
    destruct (r_state r) eqn:Hst; [by eapply step_follower_roles|by eapply step_candidate_roles
      |by eapply step_leader_roles|by eapply step_candidate_roles].
Qed.
Hint Resolve step_roles : raft_keeps.
Lemma step_self_roles t : keeps roles (step_self (S := S) t).
Proof. unfold step_self. keeps leaf. Qed.
Hint Resolve step_self_roles : raft_keeps.
Lemma tick_roles : keeps roles (tick (S := S)).
Proof. unfold tick, tick_election, tick_heartbeat, abort_leader_transfer. keeps leaf. Qed.
Lemma commit_apply_roles i : keeps roles (commit_apply (S := S) i).
Proof. unfold commit_apply, commit_apply_internal, append_entry_or_panic. keeps leaf. Qed.
Lemma apply_conf_change_roles cc : keeps roles (apply_conf_change (S := S) cc).
Proof. unfold apply_conf_change. keeps leaf. Qed.
Lemma on_persist_entries_roles i t : keeps roles (on_persist_entries (S := S) i t).
Proof. unfold on_persist_entries, unwrap_pr. keeps leaf. Qed.

(** A node that has just been created. *)
Lemma new_roles c store r : RaftStep.new c store = Done (Ok r) → role_ok r.
Proof.
  intros E. pose proof E as E'. unfold RaftStep.new in E.
  apply bind_Done in E as (valid & Hv & E). destruct valid as [[]|]; [|done].
  destruct (Storage.initial_state store) as [rs|] eqn:Hrs; [|done]. clear E.
  destruct (new_follower c store rs r E' Hrs) as (Hid & _ & Hst & _ & _ & Hl & Htr).
  constructor; rewrite ?Hst, ?Htr, ?Hid; try done. unfold validate in Hv. by destruct (N.eqb_spec (cfg_id c) INVALID_ID).
Qed.
End roles.

(** C16: the roles are well-formed in every state. A leader knows itself as the
    leader and has its own vote, a candidate has voted for itself and knows no
    leader, a pre-candidate knows no leader, and only a leader has a transferee:
    kept by every message (whatever it contains), every tick, every report and
    call of the application, and true of a node that has just been created. *)
Theorem role_invariant {S} `{Storage S, PbMessage, HashOrder, Rng, ConfChangeCodec} (r r' : Raft S) e :
  role_ok r → run_event e r = Done r' → role_ok r'.
Proof.
  intros Hok E. destruct e as [m| |i|i t|cc|l|c store]; simpl in E.
  all: try (apply fmap_Done in E as ([r1 x] & E & ->)).
  - by eapply step_roles.
  - by eapply tick_roles.
  - by eapply commit_apply_roles.
  - by eapply on_persist_entries_roles.
  - by eapply apply_conf_change_roles.
  - injection E as <-. by destruct Hok.
  - apply bind_Done in E as ([r1|] & E & Er); [|done]. injection Er as ->. by eapply new_roles.
Qed.
