(* ===== verification/RaftTotal.v ===== *)
(** * Every method of the node ends

    The loops of [raft.rs] (sending until the peer is paused, scanning the log for
    configuration changes, searching by term, the campaign that a won pre-vote
    starts) are modelled with fuel. Here it is shown that the fuel is enough: on a
    node whose log fits together ([joined]) no message and no tick runs out of it. *)
From S2P Require Import Prelude Errors Proto Util Quorum Storage Unstable ReadOnly Config.
From S2P Require Import Progress Tracker RaftLog RaftLogSpec RaftLogReads LogTotal RaftState RaftSend RaftLogic.
From S2P Require Import RaftRole RaftStep RaftReset.
From S2P Require Majority Joint ConfChange.
#[local] Open Scope N_scope.

Section total.
Context {S : Type} `{StorageLaws S, PbMessage, HashOrder, Rng, ConfChangeCodec}.
Implicit Types r : Raft S.

(** ** Rules *)

(** The invariant: the parts of the log fit together. *)
Definition log_joined r : Prop := joined (r_raft_log r).
(** From the invariant, the method ends, and keeps the invariant if it returns. *)
Abbreviation ends := (safe log_joined).
(** From the invariant, the method ends. *)
Definition runs {A} (m : rm S A) : Prop := ∀ r, log_joined r → fueled (m r).

Lemma ends_runs {A} (m : rm S A) : ends m → runs m.
Proof. intros Hm r Hr. specialize (Hm r Hr). unfold fueled. by destruct (m r). Qed.
Lemma ends_keeps {A} (m : rm S A) r r' a : ends m → log_joined r → m r = Done (r', a) → log_joined r'.
Proof. intros Hm Hr E. specialize (Hm r Hr). by rewrite E in Hm. Qed.
Lemma ends_ret {A} (a : A) : ends (mret a : rm S A).
Proof. by intros r. Qed.
Lemma ends_bind {A B} (m : rm S A) (f : A → rm S B) : ends m → (∀ a, ends (f a)) → ends (m ≫= f).
Proof.
  intros Hm Hf r Hr. specialize (Hm r Hr). unfold mbind, rm_bind.
  destruct (m r) as [[r1 a]| |]; simpl; [by apply Hf|done..].
Qed.
Lemma runs_bind {A B} (m : rm S A) (f : A → rm S B) : ends m → (∀ a, runs (f a)) → runs (m ≫= f).
Proof.
  intros Hm Hf r Hr. specialize (Hm r Hr). unfold mbind, rm_bind.
  destruct (m r) as [[r1 a]| |]; simpl; [by apply Hf|done..].
Qed.
(** What follows the last use of the log only has to end. *)
Lemma runs_bind_tail {A B} (m : rm S A) (f : A → rm S B) : runs m → (∀ a r, fueled (f a r)) → runs (m ≫= f).
Proof.
  intros Hm Hf r Hr. specialize (Hm r Hr). unfold mbind, rm_bind, fueled in *.
  destruct (m r) as [[r1 a]| |]; simpl; [apply Hf|done..].
Qed.
Lemma ends_lift {A} (m : outcome A) : fueled m → ends (lift m : rm S A).
Proof. intros Hm r Hr. unfold lift, fueled in *. by destruct m. Qed.
Lemma ends_gets {A} (f : Raft S → A) : ends (gets f).
Proof. by intros r. Qed.
Lemma ends_asks {A} (f : Raft S → outcome A) : (∀ r, log_joined r → fueled (f r)) → ends (asks f).
Proof. intros Hf r Hr. specialize (Hf r Hr). unfold asks, fueled in *. by destruct (f r). Qed.
Lemma ends_panics {A} p : ends (panics p : rm S A).
Proof. by intros r. Qed.
Lemma ends_modify f : (∀ r, log_joined r → log_joined (f r)) → ends (modify f).
Proof. intros Hf r Hr. by apply Hf. Qed.
Lemma ends_when b (m : rm S unit) : ends m → ends (when b m).
Proof. destruct b; [done|]. intros _. apply ends_ret. Qed.
Lemma ends_with_log {A} (f : RaftLog S → outcome (RaftLog S * A)) :
  (∀ l, joined l → writes (f l)) → ends (with_log f).
Proof.
  intros Hf r Hr. specialize (Hf _ Hr). unfold with_log, writes in *.
  by destruct (f (r_raft_log r)) as [[l a]| |].
Qed.
Lemma ends_update_log (f : RaftLog S → outcome (RaftLog S)) :
  (∀ l, joined l → match f l with Done l' => joined l' | Panic _ => True | NoFuel => False end) → ends (update_log f).
Proof. intros Hf r Hr. specialize (Hf _ Hr). unfold update_log. by destruct (f (r_raft_log r)). Qed.
Lemma ends_with_prs {A} (f : ProgressTracker → outcome (ProgressTracker * A)) :
  (∀ p, fueled (f p)) → ends (with_prs f).
Proof.
  intros Hf r Hr. specialize (Hf (r_prs r)). unfold with_prs, fueled in *.
  by destruct (f (r_prs r)) as [[p a]| |].
Qed.
(** One run, when what the first part did matters for the rest. *)
Definition ends_at {A} (m : rm S A) r : Prop :=
  match m r with Done (r', _) => log_joined r' | Panic _ => True | NoFuel => False end.
Lemma ends_at_bind {A B} (m : rm S A) (f : A → rm S B) r :
  ends_at m r → (∀ r1 a, m r = Done (r1, a) → log_joined r1 → ends_at (f a) r1) → ends_at (m ≫= f) r.
Proof.
  unfold ends_at at 1 3, mbind, rm_bind. destruct (m r) as [[r1 a]| |]; simpl; [|done..].
  intros Hr Hf. by apply Hf.
Qed.
(** A method written out as a function that does not touch the log. *)
Lemma ends_fun {A} (m : rm S A) :
  (∀ r, fueled (m r)) → (∀ r r' a, m r = Done (r', a) → r_raft_log r' = r_raft_log r) → ends m.
Proof.
  intros Hf Hl r Hr. specialize (Hf r). unfold fueled in Hf. destruct (m r) as [[r' a]| |] eqn:E; [|done..].
  unfold log_joined in *. by rewrite (Hl _ _ _ E).
Qed.
Lemma ends_for_progress_list f l : (∀ id pr, ends (f id pr)) → ends (for_progress_list f l).
Proof.
  intros Hf. induction l as [|[id pr] l IH]; simpl; [apply ends_ret|].
  apply ends_bind; [apply Hf|]. intros pr'. apply ends_bind; [|intros _; apply IH]. by apply ends_modify.
Qed.
Lemma reads_writes {A} l (m : outcome (RaftLog S * A)) : joined l → reads l m → writes m.
Proof. intros Hj. unfold reads, writes. destruct m as [[l' a]| |]; [|done..]. intros Hs. by apply (same_log_joined l). Qed.
End total.

Abbreviation ends := (safe log_joined).
Create HintDb raft_total.
#[export] Hint Resolve ends_ret ends_gets ends_panics : raft_total.

(** One step through a method; the leaves are the questions asked. *)
Ltac ends_step :=
  match goal with
  | |- ∀ _, _ => intro
  | |- safe _ (mbind _ _) => solve [eauto 3 with raft_total fueled typeclass_instances]
  | |- safe _ (mbind _ _) => apply ends_bind
  | |- safe _ (when _ _) => apply ends_when
  | |- safe _ (match ?x with _ => _ end) => destruct x eqn:?
  | |- safe _ _ => solve [eauto with raft_total fueled typeclass_instances]
  | |- safe _ (modify _) => apply ends_modify; intros ? ?; assumption
  | |- safe _ (modify_prs _) => apply ends_modify; intros ? ?; assumption
  | |- safe _ (put_pr _ _) => apply ends_modify; intros ? ?; assumption
  | |- safe _ (asks _) => apply ends_asks; intros ? ?; unfold log_joined in *; fueled
  | |- safe _ (lift _) => apply ends_lift; fueled
  | |- safe _ (with_prs _) => apply ends_with_prs; fueled
  end.
Ltac ends := repeat ends_step.

(** ** The components the node calls *)
Section components.
Context `{HashOrder, PbMessage}.

Lemma majority_fueled n : fueled (majority n).
Proof. unfold majority. fueled. Qed.
Hint Resolve majority_fueled : fueled.
Lemma majority_committed_fueled {L} `{AckedIndexer L} c b (l : L) : fueled (Majority.committed_index c b l).
Proof. unfold Majority.committed_index. fueled. Qed.
Lemma majority_vote_fueled c f : fueled (Majority.vote_result c f).
Proof. unfold Majority.vote_result. fueled. Qed.
Hint Resolve majority_committed_fueled majority_vote_fueled : fueled.
Lemma maximal_committed_index_fueled p : fueled (maximal_committed_index p).
Proof. unfold maximal_committed_index, Joint.committed_index. fueled. Qed.
Lemma joint_vote_fueled c f : fueled (Joint.vote_result c f).
Proof. unfold Joint.vote_result. fueled. Qed.
Hint Resolve joint_vote_fueled : fueled.
Lemma tally_votes_fueled p : fueled (tally_votes p).
Proof.
  assert (∀ c l g rj, fueled (tally_loop c g rj l)) as Hl.
  { intros c l. induction l as [|[id v] l IH]; intros g rj; simpl; fueled. }
  unfold tally_votes, vote_result. fueled.
Qed.
Lemma has_quorum_fueled s p : fueled (has_quorum s p).
Proof. unfold has_quorum. fueled. Qed.
Hint Resolve has_quorum_fueled : fueled.
Lemma quorum_recently_active_fueled i p : fueled (quorum_recently_active i p).
Proof. unfold quorum_recently_active. fueled. Qed.

Lemma inflights_free_to_fueled i n : fueled (Inflights.free_to i n).
Proof.
  assert (∀ b c t k j x, fueled (Inflights.free_loop b c t k j x)) as Hl.
  { intros b c t k. induction k as [|k IH]; intros j x; simpl; fueled. }
  unfold Inflights.free_to. fueled.
Qed.
Hint Resolve inflights_free_to_fueled : fueled.
Lemma inflights_free_first_fueled i : fueled (Inflights.free_first_one i).
Proof. unfold Inflights.free_first_one. fueled. Qed.
Lemma inflights_add_fueled i n : fueled (Inflights.add i n).
Proof. unfold Inflights.add. fueled. Qed.
Hint Resolve inflights_free_first_fueled inflights_add_fueled : fueled.

Lemma become_probe_fueled pr : fueled (become_probe pr).
Proof. unfold become_probe. fueled. Qed.
Lemma become_replicate_fueled pr : fueled (become_replicate pr).
Proof. unfold become_replicate. fueled. Qed.
Lemma maybe_update_fueled n pr : fueled (maybe_update n pr).
Proof. unfold maybe_update. fueled. Qed.
Lemma maybe_decr_to_fueled a b c pr : fueled (maybe_decr_to a b c pr).
Proof. unfold maybe_decr_to. fueled. Qed.
Lemma update_state_fueled n pr : fueled (update_state n pr).
Proof. unfold update_state, optimistic_update. fueled. Qed.
Hint Resolve become_probe_fueled become_replicate_fueled maybe_update_fueled maybe_decr_to_fueled update_state_fueled : fueled.
Lemma accept_progress_fueled i pr : fueled (accept_progress i pr).
Proof. unfold accept_progress. fueled. Qed.
Lemma is_continuous_fueled m es : fueled (is_continuous_ents m es).
Proof. unfold is_continuous_ents. fueled. Qed.
Hint Resolve is_continuous_fueled : fueled.
Lemma batch_into_fueled to c es ms pr : fueled (batch_into to c es ms pr).
Proof. induction ms as [|m ms IH]; simpl; fueled. Qed.

Lemma read_only_advance_fueled ctx ro : fueled (advance ctx ro).
Proof.
  assert (∀ n ro, fueled (pop_requests n ro)) as Hp by (intros n; induction n as [|n IH]; intros ro'; simpl; fueled).
  assert (∀ m q, fueled (position m ctx q)) as Hq by (intros m q; induction q as [|x q IH]; simpl; fueled).
  unfold advance. fueled.
Qed.
Lemma read_only_add_fueled i m id ro : fueled (add_request i m id ro).
Proof. unfold add_request. fueled. Qed.

Lemma data_size_fueled es : fueled (data_size es).
Proof. unfold data_size. fueled. Qed.
Hint Resolve data_size_fueled : fueled.
Lemma maybe_increase_fueled es u : fueled (maybe_increase_uncommitted es u).
Proof. unfold maybe_increase_uncommitted. fueled. Qed.
Lemma number_entries_fueled t li i es : fueled (number_entries t li i es).
Proof. revert i. induction es as [|e es IH]; intros i; simpl; fueled. Qed.
Lemma vote_resp_fueled t : fueled (vote_resp_msg_type t).
Proof. by destruct t. Qed.
Lemma stamp_fueled {S} m (r : Raft S) : fueled (stamp m r).
Proof. unfold stamp. fueled. Qed.
End components.
#[export] Hint Resolve maximal_committed_index_fueled tally_votes_fueled has_quorum_fueled quorum_recently_active_fueled
  inflights_free_to_fueled inflights_free_first_fueled inflights_add_fueled become_probe_fueled become_replicate_fueled
  maybe_update_fueled maybe_decr_to_fueled update_state_fueled accept_progress_fueled batch_into_fueled
  read_only_advance_fueled read_only_add_fueled maybe_increase_fueled number_entries_fueled vote_resp_fueled
  stamp_fueled : fueled.

(** ** What sending leaves of the log *)
Section quiet.
Context {S : Type} `{StorageLaws S, PbMessage, HashOrder}.
Implicit Types r : Raft S.

(** The storage may record an access; the log reads the same. *)
Definition quiet r r' : Prop := joined (r_raft_log r) → same_log (r_raft_log r) (r_raft_log r').
#[export] Instance quiet_preorder : PreOrder quiet.
Proof.
  split; [intros r Hj; by apply joined_refl|]. intros r1 r2 r3 H12 H23 Hj.
  specialize (H12 Hj). apply (same_log_trans _ _ _ H12), H23. by apply (same_log_joined _ _ H12).
Qed.
Lemma quiet_same r r' : r_raft_log r' = r_raft_log r → quiet r r'.
Proof. intros E. unfold quiet. rewrite E. apply joined_refl. Qed.

Ltac leaf := solve [by apply quiet_same].
Lemma log_entries_quiet i max ctx : keeps quiet (with_log (RaftLog.entries (S := S) i max ctx)).
Proof.
  apply keeps_with_log. intros r l a E Hj. pose proof (entries_reads i max ctx _ Hj) as Hr. by rewrite E in Hr.
Qed.
Lemma log_snapshot_quiet i to : keeps quiet (with_log (RaftLog.snapshot (S := S) i to)).
Proof.
  apply keeps_with_log. intros r l a E Hj. pose proof (snapshot_reads i to _ Hj) as Hr. by rewrite E in Hr.
Qed.
Lemma send_quiet m : keeps quiet (send (S := S) m).
Proof. unfold send, push_msg. keeps leaf. Qed.
Hint Resolve log_entries_quiet log_snapshot_quiet send_quiet : raft_keeps.
Lemma try_batching_quiet to pr es : keeps quiet (try_batching (S := S) to pr es).
Proof.
  intros r r' a E. unfold try_batching in E. inv_done. destruct x as [[ms pr'] b]. inv_done. leaf.
Qed.
Lemma prepare_send_snapshot_quiet m pr to : keeps quiet (prepare_send_snapshot (S := S) m pr to).
Proof. unfold prepare_send_snapshot. keeps leaf. Qed.
Lemma prepare_send_entries_quiet m pr t es : keeps quiet (prepare_send_entries (S := S) m pr t es).
Proof. unfold prepare_send_entries. keeps leaf. Qed.
Hint Resolve try_batching_quiet prepare_send_snapshot_quiet prepare_send_entries_quiet : raft_keeps.
Lemma send_snapshot_instead_quiet m pr to : keeps quiet (send_snapshot_instead (S := S) m pr to).
Proof. unfold send_snapshot_instead. keeps leaf. Qed.
Hint Resolve send_snapshot_instead_quiet : raft_keeps.
Lemma maybe_send_append_quiet to pr b : keeps quiet (maybe_send_append (S := S) to pr b).
Proof. unfold maybe_send_append. keeps leaf. Qed.
Hint Resolve maybe_send_append_quiet : raft_keeps.
Lemma maybe_send_append_log to pr b r r' a :
  joined (r_raft_log r) → maybe_send_append to pr b r = Done (r', a) → same_log (r_raft_log r) (r_raft_log r').
Proof. intros Hj E. by eapply maybe_send_append_quiet. Qed.
Lemma core_send_append_quiet to pr : keeps quiet (core_send_append (S := S) to pr).
Proof. unfold core_send_append. keeps leaf. Qed.
Hint Resolve core_send_append_quiet : raft_keeps.
Lemma for_peers_quiet f : (∀ id pr, keeps quiet (f id pr)) → keeps quiet (for_peers (S := S) f).
Proof.
  intros Hf. unfold for_peers. keeps leaf. apply keeps_for_progress_list; [typeclasses eauto| |done].
  intros. leaf.
Qed.
Lemma bcast_append_quiet : keeps quiet (bcast_append (S := S)).
Proof. apply for_peers_quiet. intros. apply core_send_append_quiet. Qed.
End quiet.
#[export] Hint Resolve log_entries_quiet log_snapshot_quiet send_quiet maybe_send_append_quiet
  core_send_append_quiet bcast_append_quiet : raft_keeps.

(** ** Sending *)
Section sending.
Context {S : Type} `{StorageLaws S, PbMessage, HashOrder}.
Implicit Types r : Raft S.

Lemma send_ends m : ends (send (S := S) m).
Proof. unfold send, push_msg. ends. Qed.
Hint Resolve send_ends : raft_total.
Lemma log_entries_ends i max ctx : ends (with_log (RaftLog.entries (S := S) i max ctx)).
Proof. apply ends_with_log. intros l Hj. by apply (reads_writes l), entries_reads. Qed.
Lemma log_snapshot_ends i to : ends (with_log (RaftLog.snapshot (S := S) i to)).
Proof. apply ends_with_log. intros l Hj. by apply (reads_writes l), snapshot_reads. Qed.
Hint Resolve log_entries_ends log_snapshot_ends : raft_total.
Lemma prepare_send_snapshot_ends m pr to : ends (prepare_send_snapshot (S := S) m pr to).
Proof. unfold prepare_send_snapshot. ends. Qed.
Lemma prepare_send_entries_ends m pr t es : ends (prepare_send_entries (S := S) m pr t es).
Proof. unfold prepare_send_entries. ends. Qed.
Lemma try_batching_ends to pr es : ends (try_batching (S := S) to pr es).
Proof.
  apply ends_fun; intros r; unfold try_batching; [fueled|].
  intros r' a E. inv_done. destruct x as [[ms pr'] b]. by inv_done.
Qed.
Hint Resolve prepare_send_snapshot_ends prepare_send_entries_ends try_batching_ends : raft_total.
Lemma send_snapshot_instead_ends m pr to : ends (send_snapshot_instead (S := S) m pr to).
Proof. unfold send_snapshot_instead. ends. Qed.
Hint Resolve send_snapshot_instead_ends : raft_total.
Lemma maybe_send_append_ends to pr b : ends (maybe_send_append (S := S) to pr b).
Proof. unfold maybe_send_append. ends. Qed.
Hint Resolve maybe_send_append_ends : raft_total.
Lemma core_send_append_ends to pr : ends (core_send_append (S := S) to pr).
Proof. unfold core_send_append. ends. Qed.

(** After recording the last entry sent, the peer is paused or expects what follows it. *)
Lemma update_state_moves n pr pr' :
  update_state n pr = Done pr' → is_paused pr' = true ∨ pr_next_idx pr' = n + 1.
Proof.
  unfold update_state. intros E. destruct (pr_state pr) eqn:Hst; [|by unfold optimistic_update in E; inv_done; right|done].
  inv_done. left. unfold is_paused, pause. simpl. by rewrite Hst.
Qed.
Lemma batch_into_moves to c es ms pr ms' pr' b :
  es ≠ [] → batch_into to c es ms pr = Done (ms', pr', b) →
  if b then ∃ e, last es = Some e ∧ update_state (e_index e) pr = Done pr' else pr' = pr.
Proof.
  intros Hes. revert ms'. induction ms as [|m ms IH]; intros ms' E; simpl in E; [by simplify_eq|].
  destruct (_ && _).
  - rewrite bool_decide_eq_false_2 in E by done. apply bind_Done in E as (cont & _ & E).
    destruct cont; simpl in E; [|by simplify_eq].
    apply bind_Done in E as (e & He%unwrap_Done & E). apply bind_Done in E as (pr1 & Hu & E). simplify_eq.
    exists e. split; [|done]. rewrite last_app in He. destruct (last es) eqn:Hl; [done|].
    apply last_None in Hl. done.
  - apply bind_Done in E as ([[ms1 pr1] b1] & E1 & E). simplify_eq. by eapply IH.
Qed.

(** How many more messages a peer can be sent at most. *)
Definition budget (last : u64) (pr : Progress) : nat :=
  if is_paused pr then 1%nat else (N.to_nat (last + 1 - pr_next_idx pr) + 2)%nat.

Lemma send_snapshot_pauses m pr to r r' pr' :
  send_snapshot_instead m pr to r = Done (r', (pr', true)) → is_paused pr' = true.
Proof.
  unfold send_snapshot_instead, prepare_send_snapshot. intros E.
  apply rm_bind_Done in E as (r1 & [[m1 pr1] ok] & E1 & E). destruct ok; simpl in E; [|by inv_rm].
  apply rm_bind_Done in E as (r2 & [] & _ & [_ [= ->]]%rm_ret_Done).
  destruct (negb _); [by inv_rm|]. apply rm_bind_Done in E1 as (r3 & sn & _ & E1). destruct sn as [sn|e].
  - destruct (_ =? 0); [done|]. apply rm_ret_Done in E1 as [_ [= _ ->]]. done.
  - destruct (Error_eq _ _); [by apply rm_ret_Done in E1 as [_ [=]]|done].
Qed.

(** A message that is sent uses up the budget: it pauses the peer, or moves its
    next index past an entry of the log. *)
Lemma maybe_send_append_moves to pr r r' pr' :
  log_joined r → maybe_send_append to pr false r = Done (r', (pr', true)) →
  (budget (log_end (r_raft_log r) - 1) pr' < budget (log_end (r_raft_log r) - 1) pr)%nat.
Proof.
  intros Hj E. unfold maybe_send_append in E. destruct (is_paused pr) eqn:Hp; [by inv_rm|].
  assert (∀ m r1, send_snapshot_instead m pr to r1 = Done (r', (pr', true)) →
    (budget (log_end (r_raft_log r) - 1) pr' < budget (log_end (r_raft_log r) - 1) pr)%nat) as Hsnap.
  { intros m r1 Hs%send_snapshot_pauses. unfold budget. rewrite Hp, Hs. lia. }
  destruct (negb _); [by eapply Hsnap|].
  apply rm_bind_Done in E as (r1 & ms & [-> _]%rm_gets_Done & E).
  apply rm_bind_Done in E as (r1 & tm & [-> _]%rm_gets_Done & E).
  apply rm_bind_Done in E as (r1 & es & (l & Hes & ->)%rm_with_log_Done & E).
  destruct (negb false && _) eqn:Hne; [by inv_rm|].
  apply rm_bind_Done in E as (r1 & prev & [-> _]%rm_lift_Done & E).
  apply rm_bind_Done in E as (r1 & tp & [-> _]%rm_asks_Done & E).
  destruct es as [es|err]; [|by simpl in Hne]. simpl in Hne.
  assert (es ≠ []) as Hes' by (by case_bool_decide).
  destruct (last es) as [e|] eqn:Hlast; [|by apply last_None in Hlast].
  pose proof (entries_last _ _ _ _ _ _ _ Hj Hes Hlast) as Hidx.
  pose proof (first_pos _ Hj). pose proof (first_le_end (r_raft_log r)).
  assert (∀ pr1, update_state (e_index e) pr = Done pr1 →
    (budget (log_end (r_raft_log r) - 1) pr1 < budget (log_end (r_raft_log r) - 1) pr)%nat) as Hmove.
  { intros pr1 [Hpp|Hn]%update_state_moves; unfold budget; rewrite Hp; [rewrite Hpp; lia|].
    rewrite Hn. destruct (is_paused pr1); lia. }
  destruct tp as [tp|err]; [|by eapply Hsnap].
  apply rm_bind_Done in E as (r1 & ba & [-> _]%rm_gets_Done & E).
  apply rm_bind_Done in E as (r1 & [pr1 batched] & Hb & E).
  assert (if batched then update_state (e_index e) pr = Done pr1 else pr1 = pr) as Hpr1.
  { destruct ba; [|by apply rm_ret_Done in Hb as [_ [= -> ->]]].
    unfold try_batching in Hb. apply bind_Done in Hb as ([[ms1 pr2] b] & Hb & Eb). simplify_eq.
    apply batch_into_moves in Hb; [|done]. destruct batched; [|done]. destruct Hb as (e' & He' & Hu). by simplify_eq. }
  destruct batched; [apply rm_ret_Done in E as [_ [= ->]]; by apply Hmove|]. subst pr1.
  apply rm_bind_Done in E as (r2 & [m2 pr2] & Hm & E).
  apply rm_bind_Done in E as (r3 & [] & _ & [_ [= ->]]%rm_ret_Done).
  unfold prepare_send_entries in Hm. rewrite Hlast in Hm.
  apply rm_bind_Done in Hm as (r4 & i & [-> _]%rm_lift_Done & Hm).
  apply rm_bind_Done in Hm as (r4 & c & [-> _]%rm_gets_Done & Hm).
  apply rm_bind_Done in Hm as (r4 & pr3 & [-> Hu]%rm_lift_Done & [_ [= _ ->]]%rm_ret_Done). by apply Hmove.
Qed.

(** [log_end] is read off the log, which sending does not change. *)
Lemma maybe_send_append_end to pr b r r' a :
  log_joined r → maybe_send_append to pr b r = Done (r', a) → log_end (r_raft_log r') = log_end (r_raft_log r).
Proof.
  intros Hj E. by apply maybe_send_append_log, same_log_ents in E as (_ & _ & _ & ?).
Qed.
Lemma send_append_loop_ends fuel to pr r :
  log_joined r → (budget (log_end (r_raft_log r) - 1) pr < fuel)%nat →
  match send_append_loop fuel to pr r with Done (r', _) => log_joined r' | Panic _ => True | NoFuel => False end.
Proof.
  revert pr r. induction fuel as [|fuel IH]; intros pr r Hj Hb; [lia|]. simpl. unfold mbind at 1, rm_bind at 1.
  pose proof (maybe_send_append_ends to pr false r Hj) as He.
  destruct (maybe_send_append to pr false r) as [[r1 [pr1 sent]]| |] eqn:E; [|done..].
  cbn [mbind outcome_bind]. destruct sent; [|done].
  apply IH; [done|]. rewrite (maybe_send_append_end _ _ _ _ _ _ Hj E).
  apply maybe_send_append_moves in E; [lia|done].
Qed.
Lemma core_send_append_aggressively_ends to pr : ends (core_send_append_aggressively (S := S) to pr).
Proof.
  intros r Hj. unfold core_send_append_aggressively, mbind, rm_bind, gets. cbn [outcome_bind mbind].
  apply send_append_loop_ends; [done|]. rewrite last_index_spec by done. unfold budget.
  destruct (is_paused pr); [lia|]. pose proof (first_pos _ Hj). pose proof (first_le_end (r_raft_log r)). lia.
Qed.
Hint Resolve core_send_append_ends core_send_append_aggressively_ends : raft_total.
Lemma core_send_heartbeat_ends to pr ctx : ends (core_send_heartbeat (S := S) to pr ctx).
Proof. unfold core_send_heartbeat. destruct ctx; ends. Qed.
Lemma unwrap_pr_ends id : ends (unwrap_pr (S := S) id).
Proof. unfold unwrap_pr. ends. Qed.
Hint Resolve core_send_heartbeat_ends unwrap_pr_ends : raft_total.
Lemma on_peer_ends to f : (∀ pr, ends (f pr)) → ends (on_peer (S := S) to f).
Proof. intros Hf. unfold on_peer. ends. Qed.
Lemma for_progress_ends f : (∀ id pr, ends (f id pr)) → ends (for_progress (S := S) f).
Proof. intros Hf. unfold for_progress. ends. by apply ends_for_progress_list. Qed.
Lemma for_peers_ends f : (∀ id pr, ends (f id pr)) → ends (for_peers (S := S) f).
Proof. intros Hf. unfold for_peers. ends. by apply ends_for_progress_list. Qed.
Lemma bcast_append_ends : ends (bcast_append (S := S)).
Proof. apply for_peers_ends. intros. apply core_send_append_ends. Qed.
Lemma bcast_heartbeat_with_ctx_ends ctx : ends (bcast_heartbeat_with_ctx (S := S) ctx).
Proof. apply for_peers_ends. intros. ends. Qed.
Hint Resolve bcast_append_ends bcast_heartbeat_with_ctx_ends : raft_total.
Lemma bcast_heartbeat_ends : ends (bcast_heartbeat (S := S)).
Proof. unfold bcast_heartbeat. ends. Qed.
Lemma send_append_ends to : ends (send_append (S := S) to).
Proof. apply on_peer_ends. intros. apply core_send_append_ends. Qed.
Lemma send_append_aggressively_ends to : ends (send_append_aggressively (S := S) to).
Proof. apply on_peer_ends. intros. apply core_send_append_aggressively_ends. Qed.
Lemma send_timeout_now_ends to : ends (send_timeout_now (S := S) to).
Proof. unfold send_timeout_now. ends. Qed.
Lemma log_maybe_commit_ends i t : ends (with_log (RaftLog.maybe_commit (S := S) i t)).
Proof. apply ends_with_log. intros. by apply maybe_commit_writes. Qed.
Hint Resolve bcast_heartbeat_ends send_append_ends send_append_aggressively_ends send_timeout_now_ends
  log_maybe_commit_ends : raft_total.
Lemma maybe_commit_ends : ends (maybe_commit (S := S)).
Proof. unfold maybe_commit. ends. Qed.
Lemma send_request_snapshot_ends : ends (send_request_snapshot (S := S)).
Proof. unfold send_request_snapshot. ends. Qed.
Lemma handle_ready_read_index_ends m i : ends (handle_ready_read_index (S := S) m i).
Proof. unfold handle_ready_read_index. ends. Qed.
Hint Resolve maybe_commit_ends send_request_snapshot_ends handle_ready_read_index_ends : raft_total.
Lemma answer_read_ends m i : ends (answer_read (S := S) m i).
Proof. unfold answer_read. ends. Qed.
Hint Resolve answer_read_ends : raft_total.
Lemma release_reads_ends ctx : ends (release_reads (S := S) ctx).
Proof.
  assert (∀ rss, ends (answer_reads (S := S) rss)) as Ha by (intros rss; induction rss; simpl; ends).
  unfold release_reads. apply ends_bind; [|apply Ha].
  apply ends_fun; intros r; [fueled|]. intros r' a E. inv_done. destruct x. by inv_done.
Qed.
End sending.
#[export] Hint Resolve send_ends log_entries_ends log_snapshot_ends maybe_send_append_ends core_send_append_ends
  core_send_append_aggressively_ends core_send_heartbeat_ends unwrap_pr_ends bcast_append_ends
  bcast_heartbeat_with_ctx_ends bcast_heartbeat_ends send_append_ends send_append_aggressively_ends
  send_timeout_now_ends log_maybe_commit_ends maybe_commit_ends send_request_snapshot_ends
  handle_ready_read_index_ends answer_read_ends release_reads_ends : raft_total.
