(* ===== verification/RaftEnds.v ===== *)
(** * Every message and every tick is handled in finitely many steps

    The rules of [RaftTotal] applied to the roles, the elections and the handlers,
    up to [step] and [tick]. *)
From S2P Require Import Prelude Errors Proto Util Quorum Storage Unstable ReadOnly Config.
From S2P Require Import Progress Tracker RaftLog RaftLogSpec RaftLogReads LogTotal RaftState RaftSend RaftLogic.
From S2P Require Import RaftRole RaftStep RaftReset RaftTotal.
From S2P Require ConfChange.
#[local] Open Scope N_scope.

Section ends.
Context {S : Type} `{StorageLaws S, PbMessage, HashOrder, Rng, ConfChangeCodec}.
Implicit Types r : Raft S.

(** ** Roles *)

Lemma abort_leader_transfer_ends : ends (abort_leader_transfer (S := S)).
Proof. unfold abort_leader_transfer. ends. Qed.
Lemma reset_timeout_ends : ends (reset_randomized_election_timeout (S := S)).
Proof. unfold reset_randomized_election_timeout. ends. Qed.
Hint Resolve abort_leader_transfer_ends reset_timeout_ends : raft_total.
Lemma reset_ends t : ends (reset (S := S) t).
Proof. unfold reset, reset_progress. ends. apply for_progress_ends. ends. Qed.
Hint Resolve reset_ends : raft_total.
Lemma become_follower_ends t l : ends (become_follower (S := S) t l).
Proof. unfold become_follower, set_max_apply_unpersisted_log_limit. ends. apply ends_modify. intros r Hj. by apply (joined_same (r_raft_log r)). Qed.
Lemma become_candidate_ends : ends (become_candidate (S := S)).
Proof. unfold become_candidate, assert_state_ne. ends. Qed.
Lemma become_pre_candidate_ends : ends (become_pre_candidate (S := S)).
Proof. unfold become_pre_candidate, assert_state_ne. ends. Qed.
Hint Resolve become_follower_ends become_candidate_ends become_pre_candidate_ends : raft_total.

Lemma number_entries_contiguous t li i es es' :
  number_entries t li i es = Done es' → contiguous (li + 1 + i) es'.
Proof.
  revert i es'. induction es as [|e es IH]; intros i es' E; simpl in E; [inv_done; apply contiguous_nil|].
  inv_done. apply IH in Hx1. intros [|k] e' Hk; simplify_eq/=; [lia|]. rewrite (Hx1 _ _ Hk). lia.
Qed.
(** Entries numbered by [append_entry]: the payload stays. *)
Lemma number_entries_spec t li i es es' :
  number_entries t li i es = Done es' →
  Forall2 (λ e e', e_type e' = e_type e ∧ e_data e' = e_data e ∧ e_context e' = e_context e ∧ e_term e' = t) es es'.
Proof.
  revert i es'. induction es as [|e es IH]; intros i es' E; simpl in E; [inv_done; constructor|].
  inv_done. constructor; [done|]. by eapply IH.
Qed.
Lemma number_entries_term t li i es es' : number_entries t li i es = Done es' → Forall (λ e, e_term e = t) es'.
Proof.
  revert i es'. induction es as [|e es IH]; intros i es' E; simpl in E; [inv_done; constructor|].
  inv_done. constructor; [done|]. by eapply IH.
Qed.
(** Entries are numbered from the end of the log on. *)
Lemma numbered_end (l : RaftLog S) li t es es' :
  RaftLog.last_index l = Done li → number_entries t li 0 es = Done es' → joined l → contiguous (log_end l) es'.
Proof.
  intros Hli Hn Hj. rewrite last_index_spec in Hli by done. injection Hli as <-. apply number_entries_contiguous in Hn.
  pose proof (first_pos _ Hj). pose proof (first_le_end l). by replace (log_end l - 1 + 1 + 0) with (log_end l) in Hn by lia.
Qed.
Lemma append_entry_ends es : ends (append_entry (S := S) es).
Proof.
  unfold append_entry. apply ends_bind.
  { apply ends_fun; intros r; unfold maybe_increase_uncommitted_size; [fueled|].
    intros r' a E. inv_done. destruct x. by inv_done. }
  intros [|]; simpl; [|apply ends_ret].
  (* the index at which the entries are numbered is the end of the log *)
  intros r Hj. unfold mbind, rm_bind, asks, gets, lift. rewrite last_index_spec by done. cbn [mbind outcome_bind].
  destruct (number_entries _ _ _ _) as [es'| |] eqn:Hn; [|done|by apply number_entries_fueled in Hn].
  cbn [mbind outcome_bind]. apply number_entries_contiguous in Hn.
  pose proof (first_pos _ Hj). pose proof (first_le_end (r_raft_log r)).
  replace (log_end (r_raft_log r) - 1 + 1 + 0) with (log_end (r_raft_log r)) in Hn by lia.
  pose proof (append_end_writes es' _ Hj Hn) as Hw. unfold with_log, writes in *.
  by destruct (RaftLog.append es' (r_raft_log r)) as [[l i]| |].
Qed.
Hint Resolve append_entry_ends : raft_total.
Lemma append_entry_or_panic_ends es : ends (append_entry_or_panic (S := S) es).
Proof. unfold append_entry_or_panic. ends. Qed.
Hint Resolve append_entry_or_panic_ends : raft_total.
Lemma become_leader_ends : ends (become_leader (S := S)).
Proof. unfold become_leader, assert_state_ne. ends. Qed.
Hint Resolve become_leader_ends : raft_total.

(** ** Elections *)

Lemma has_unapplied_ends lo hi ctx : ends (has_unapplied_conf_changes (S := S) lo hi ctx).
Proof.
  unfold has_unapplied_conf_changes. ends. apply ends_with_log. intros l Hj.
  pose proof (scan_reads lo hi a0 ctx find_conf_change false l Hj) as Hs. unfold writes.
  destruct (scan _ _ _ _ _ _ _) as [[[l' f] res]| |]; [|done..]. simpl. by apply (same_log_joined l).
Qed.
Lemma request_votes_ends vm t c ct b ids : ends (request_votes (S := S) vm t c ct b ids).
Proof. induction ids as [|id ids IH]; simpl; ends. Qed.
Hint Resolve has_unapplied_ends request_votes_ends : raft_total.
Lemma poll_with_ends again from v : ends again → ends (poll_with (S := S) again from v).
Proof. intros Ha. unfold poll_with. ends. Qed.

(** A candidate's poll does not campaign again, so the second campaign is the last. *)
Lemma poll_with_candidate again from v r :
  r_state r ≠ PreCandidate → log_joined r →
  match poll_with again from v r with Done (r', _) => log_joined r' | Panic _ => True | NoFuel => False end.
Proof.
  intros Hst Hj. pose proof (poll_with_ends (panics Fatal) from v (ends_panics _) r Hj) as He.
  assert (poll_with again from v r = poll_with (panics Fatal) from v r) as ->; [|done].
  unfold poll_with, mbind, rm_bind, modify_prs, modify, asks, gets. cbn [mbind outcome_bind].
  destruct (tally_votes _) as [[[g rj] res]| |]; [|reflexivity..]. cbn [mbind outcome_bind].
  destruct res; [reflexivity|reflexivity|]. simpl. by rewrite bool_decide_eq_false_2.
Qed.
Lemma campaign_1_ends ty : ty ≠ CAMPAIGN_PRE_ELECTION → ends (campaign_at (S := S) 1 ty).
Proof.
  intros Hty r Hj. cbn [campaign_at]. rewrite (bool_decide_eq_false_2 _ Hty).
  apply ends_at_bind.
  { apply ends_at_bind; [by apply become_candidate_ends|]. intros r1 u _ Hj1. revert r1 Hj1. change (ends (term ← gets r_term; mret (M := rm S) (MsgRequestVote, term))). ends. }
  intros r1 [vm t] E Hj1. apply rm_bind_Done in E as (r2 & [] & Hc%become_candidate_spec & E).
  destruct Hc as [[_ Hst _ _ _ _ _ _] _].
  apply rm_bind_Done in E as (r3 & tm & [-> ->]%rm_gets_Done & [-> [= -> ->]]%rm_ret_Done).
  apply ends_at_bind; [done|]. intros r3 i [-> ->]%rm_gets_Done Hj3.
  apply ends_at_bind; [apply poll_with_candidate; [by rewrite Hst|done]|]. intros r3 res _ Hj4.
  revert r3 Hj4. change (ends (if bool_decide (res = Won) then mret () else
    '(commit, commit_term) ← asks (λ r, commit_info (r_raft_log r));
    ids ← gets (λ r, Union_iter (Joint.ids (c_voters (pt_conf (r_prs r)))));
    request_votes (S := S) MsgRequestVote (r_term r2) commit commit_term (bool_decide (ty = CAMPAIGN_TRANSFER)) ids)).
  ends.
Qed.
Lemma poll_ends from v : ends (poll (S := S) from v).
Proof. apply poll_with_ends, campaign_1_ends. done. Qed.
Lemma campaign_ends ty : ends (campaign (S := S) ty).
Proof.
  unfold campaign. cbn [campaign_at]. ends; apply poll_with_ends, (campaign_1_ends CAMPAIGN_ELECTION); done.
Qed.
Hint Resolve poll_ends campaign_ends : raft_total.
Lemma unstable_first_fueled u : fueled (maybe_first_index u).
Proof. unfold maybe_first_index. fueled. Qed.
Hint Resolve unstable_first_fueled : fueled.
Lemma hup_ends b : ends (hup (S := S) b).
Proof. unfold hup. ends. Qed.
Lemma maybe_commit_by_vote_ends m : ends (maybe_commit_by_vote (S := S) m).
Proof. unfold maybe_commit_by_vote. ends. Qed.
Hint Resolve hup_ends maybe_commit_by_vote_ends : raft_total.

(** ** Handlers *)

Lemma get_pr_ends id : ends (get_pr (S := S) id).
Proof. unfold get_pr. ends. Qed.
Lemma after_progress_ends from b : ends (after_progress (S := S) from b).
Proof. unfold after_progress. ends. Qed.
Hint Resolve get_pr_ends after_progress_ends : raft_total.
Lemma handle_append_response_ends m : ends (handle_append_response (S := S) m).
Proof. unfold handle_append_response. ends. Qed.
Lemma recv_ack_ends (id : Raft S → N) ctx :
  ends (λ r, let '(ro, acks) := recv_ack (id r) ctx (r_read_only r) in Done (set_r_read_only ro r, acks)).
Proof.
  apply ends_fun; intros r; destruct (recv_ack _ _ _); [done|]. intros r' a E. by simplify_eq.
Qed.
Hint Resolve handle_append_response_ends recv_ack_ends : raft_total.
Lemma handle_heartbeat_response_ends m : ends (handle_heartbeat_response (S := S) m).
Proof. pose proof (recv_ack_ends (λ _, m_from m)). unfold handle_heartbeat_response. ends. Qed.
Lemma handle_transfer_leader_ends m : ends (handle_transfer_leader (S := S) m).
Proof. unfold handle_transfer_leader. ends. Qed.
Lemma handle_snapshot_status_ends m : ends (handle_snapshot_status (S := S) m).
Proof. unfold handle_snapshot_status. ends. Qed.
Lemma handle_unreachable_ends m : ends (handle_unreachable (S := S) m).
Proof. unfold handle_unreachable. ends. Qed.
Lemma check_quorum_active_ends : ends (check_quorum_active (S := S)).
Proof. unfold check_quorum_active. ends. Qed.
Lemma screen_entries_ends i es : ends (screen_entries (S := S) i es).
Proof. revert i. induction es as [|e es IH]; intros i; simpl; ends. Qed.
Hint Resolve handle_heartbeat_response_ends handle_transfer_leader_ends handle_snapshot_status_ends
  handle_unreachable_ends check_quorum_active_ends screen_entries_ends : raft_total.
Lemma propose_ends m : ends (propose (S := S) m).
Proof. unfold propose. ends. Qed.
Lemma commit_to_current_term_fueled r : log_joined r → fueled (commit_to_current_term r).
Proof. intros Hj. unfold log_joined in Hj. unfold commit_to_current_term. fueled. Qed.
Lemma add_request_ends c m :
  ends (λ r : Raft S, ro ← add_request c m (r_id r) (r_read_only r); Done (set_r_read_only ro r, ())).
Proof. apply ends_fun; intros r; [fueled|]. intros r' a E. by inv_done. Qed.
Hint Resolve propose_ends add_request_ends : raft_total.
Lemma leader_read_index_ends m : ends (leader_read_index (S := S) m).
Proof.
  unfold leader_read_index. apply ends_bind; [apply ends_asks; apply commit_to_current_term_fueled|]. ends.
Qed.
Hint Resolve leader_read_index_ends : raft_total.
Lemma step_leader_ends m : ends (step_leader (S := S) m).
Proof. unfold step_leader, ok_. ends. Qed.

Lemma handle_heartbeat_ends m : ends (handle_heartbeat (S := S) m).
Proof.
  unfold handle_heartbeat. apply ends_bind; [|ends]. apply ends_update_log. intros l Hj.
  unfold commit_to. destruct (_ <=? _); [done|]. rewrite last_index_spec by done. simpl.
  destruct (_ <? _); [done|]. by apply (joined_same l).
Qed.
Lemma post_conf_change_ends : ends (post_conf_change (S := S)).
Proof. unfold post_conf_change. ends. apply for_peers_ends. ends. Qed.
Hint Resolve step_leader_ends handle_heartbeat_ends post_conf_change_ends : raft_total.
Lemma apply_conf_change_ends cc : ends (apply_conf_change (S := S) cc).
Proof. unfold apply_conf_change. ends. Qed.
Lemma conf_restore_ends i cs :
  ends (λ r : Raft S, let '(prs, res) := ConfChange.restore i cs (r_prs r) in Done (set_r_prs prs r, res)).
Proof.
  apply ends_fun; intros r; destruct (ConfChange.restore _ _ _); [done|]. intros r' a E. by simplify_eq.
Qed.
Hint Resolve conf_restore_ends : raft_total.
Lemma log_restore_ends snap : ends (update_log (RaftLog.restore (S := S) snap)).
Proof. apply ends_update_log. intros l Hj. by apply restore_writes. Qed.
Lemma log_commit_to_ends i : ends (update_log (commit_to (S := S) i)).
Proof.
  apply ends_update_log. intros l Hj. unfold commit_to. destruct (_ <=? _); [done|].
  rewrite last_index_spec by done. simpl. destruct (_ <? _); [done|]. by apply (joined_same l).
Qed.
Hint Resolve log_restore_ends log_commit_to_ends : raft_total.
Lemma restore_ends snap : ends (restore (S := S) snap).
Proof. unfold restore. ends. Qed.
Hint Resolve restore_ends : raft_total.
Lemma handle_snapshot_ends m : ends (handle_snapshot (S := S) m).
Proof. unfold handle_snapshot. ends. Qed.
Hint Resolve handle_snapshot_ends : raft_total.

Lemma send_fueled m r : fueled (send m r).
Proof.
  unfold fueled, send, mbind, rm_bind, asks. pose proof (stamp_fueled m r) as Hs. unfold fueled in Hs.
  by destruct (stamp m r).
Qed.
(** Entries from the network need not fit the log, so the invariant ends with them. *)
Lemma handle_append_entries_runs m : runs (handle_append_entries (S := S) m).
Proof.
  unfold handle_append_entries. apply runs_bind; [ends|]. intros pending. apply runs_bind; [ends|]. intros committed.
  destruct (negb _); [apply ends_runs; ends|]. destruct (_ <? _); [apply ends_runs; ends|].
  apply runs_bind_tail; [|intros a r; apply send_fueled].
  intros r Hj. unfold answer_append, mbind, rm_bind, with_log.
  pose proof (maybe_append_fueled (m_index m) (m_log_term m) (m_commit m) (m_entries m) _ Hj) as Hf.
  unfold fueled in *. destruct (maybe_append _ _ _ _ _) as [[l res]| |] eqn:E; [|done..].
  cbn [mbind outcome_bind]. destruct res as [[c i]|]; [done|]. apply maybe_append_refused in E as ->.
  unfold asks. change (r_raft_log (set_r_raft_log (r_raft_log r) r)) with (r_raft_log r).
  unfold log_joined in Hj. apply fueled_bind; [apply fueled_bind; [fueled|done]|]. intros [r1 last] E.
  apply bind_Done in E as (i & _ & E). simplify_eq. fueled.
  by match goal with p : u64 * option u64 |- _ => destruct p as [? [?|]] end.
Qed.
Lemma follow_sender_ends m : ends (follow_sender (S := S) m).
Proof. unfold follow_sender. ends. Qed.
Lemma handle_vote_response_ends m : ends (handle_vote_response (S := S) m).
Proof. unfold handle_vote_response, ok_. ends. Qed.
Hint Resolve follow_sender_ends handle_vote_response_ends : raft_total.

Lemma step_candidate_ends m : m_type m ≠ MsgAppend → ends (step_candidate (S := S) m).
Proof. intros Ht. unfold step_candidate, ok_. ends. congruence. Qed.
Lemma step_follower_ends m : m_type m ≠ MsgAppend → ends (step_follower (S := S) m).
Proof. intros Ht. unfold step_follower, heard_from, ok_. ends. congruence. Qed.
Hint Resolve step_candidate_ends step_follower_ends : raft_total.

(** ** Messages and ticks *)

Lemma grant_vote_fueled m r : log_joined r → fueled (grant_vote m r).
Proof. intros Hj. unfold log_joined in Hj. unfold grant_vote. fueled. Qed.
Lemma handle_vote_request_ends m : ends (handle_vote_request (S := S) m).
Proof.
  unfold handle_vote_request. apply ends_bind; [apply ends_asks, grant_vote_fueled|]. ends.
Qed.
Lemma step_term_ends m : ends (step_term (S := S) m).
Proof. unfold step_term. ends. Qed.
Hint Resolve handle_vote_request_ends step_term_ends : raft_total.
Lemma step_ends m : m_type m ≠ MsgAppend → ends (step (S := S) m).
Proof.
  intros Ht. pose proof (step_candidate_ends m Ht). pose proof (step_follower_ends m Ht).
  unfold step, step_handle, ok_. ends.
Qed.
Lemma step_runs m : runs (step (S := S) m).
Proof.
  destruct (decide (m_type m = MsgAppend)) as [Ht|]; [|by apply ends_runs, step_ends].
  unfold step. apply runs_bind; [ends|]. intros [|]; cbn [negb]; [|unfold ok_; apply ends_runs; ends].
  unfold step_handle. rewrite Ht. apply runs_bind; [ends|]. intros st.
  assert (∀ (m1 : rm S unit), ends m1 → runs (m1;; handle_append_entries m;; ok_)) as Hrun.
  { intros m1 H1'. apply runs_bind; [done|]. intros _. apply runs_bind_tail; [apply handle_append_entries_runs|done]. }
  destruct st; [unfold step_follower|unfold step_candidate|apply ends_runs; ends|unfold step_candidate]; rewrite Ht.
  - apply runs_bind; [ends|]. intros _. apply Hrun. unfold heard_from. ends.
  - apply Hrun. ends.
  - apply Hrun. ends.
Qed.
Lemma step_self_ends t : t ≠ MsgAppend → ends (step_self (S := S) t).
Proof.
  intros Ht. unfold step_self. ends. apply step_ends. done.
Qed.
Lemma tick_ends : ends (tick (S := S)).
Proof.
  pose proof (step_self_ends MsgHup ltac:(done)). pose proof (step_self_ends MsgCheckQuorum ltac:(done)).
  pose proof (step_self_ends MsgBeat ltac:(done)).
  unfold tick, tick_election, tick_heartbeat. ends.
Qed.
Lemma commit_apply_ends i : ends (commit_apply (S := S) i).
Proof.
  unfold commit_apply, commit_apply_internal. cbn [negb]. ends. apply ends_update_log. intros l Hj. unfold applied_to.
  destruct (i =? 0); [done|]. destruct (_ || _); [done|]. by apply (joined_same l).
Qed.
Lemma on_persist_entries_ends i t : ends (on_persist_entries (S := S) i t).
Proof.
  unfold on_persist_entries. apply ends_bind; [apply ends_with_log; intros; by apply maybe_persist_writes|]. ends.
Qed.
End ends.

(** C13: handling never loops. On a node whose log fits together, every message
    (whatever it contains), every tick, and every notification of the application
    either is handled or panics; none of the loops (sending to a peer until it is
    paused, scanning for configuration changes, searching by term, campaigning
    after a won pre-vote) runs on. Except for entries from the network, which may
    be malformed, the log fits together again afterwards. *)
Theorem step_terminates {S} `{StorageLaws S, PbMessage, HashOrder, Rng, ConfChangeCodec} (r : Raft S) :
  joined (r_raft_log r) →
  (∀ m, step m r ≠ NoFuel ∧
     ∀ r' res, m_type m ≠ MsgAppend → step m r = Done (r', res) → joined (r_raft_log r')) ∧
  (tick r ≠ NoFuel ∧ ∀ r' b, tick r = Done (r', b) → joined (r_raft_log r')) ∧
  (∀ i, commit_apply i r ≠ NoFuel) ∧ (∀ i t, on_persist_entries i t r ≠ NoFuel) ∧
  (∀ cc, apply_conf_change cc r ≠ NoFuel).
Proof.
  intros Hj. split_and!.
  - intros m. split; [by apply step_runs|]. intros r' res Ht. by eapply (ends_keeps _ _ _ _ (step_ends m Ht)).
  - by apply (ends_runs _ tick_ends).
  - intros r' b. by eapply (ends_keeps _ _ _ _ tick_ends).
  - intros i. by apply (ends_runs _ (commit_apply_ends i)).
  - intros i t. by apply (ends_runs _ (on_persist_entries_ends i t)).
  - intros cc. by apply (ends_runs _ (apply_conf_change_ends cc)).
Qed.
