(* ===== verification/RaftWalk.v ===== *)
(** * Relations along the methods of a node

    A preorder between states of a node that the elementary steps respect is
    respected by every method built from them. The elementary steps come in
    groups ([Base], [Downs], [Appends], [Elects], [Follows]), one class each, so that a
    relation that only some of them respect still gets the methods that do
    without the others. *)
From S2P Require Import Prelude Errors Proto Util Quorum Storage Unstable ReadOnly Config.
From S2P Require Import Progress Tracker RaftLog RaftLogSpec RaftLogReads LogTotal RaftState RaftSend RaftLogic.
From S2P Require Import RaftRole RaftStep RaftReset RaftStays.
From S2P Require ConfChange.
#[local] Open Scope N_scope.

Section walk.
Context {S : Type} `{StorageLaws S, PbMessage, HashOrder, Rng, ConfChangeCodec}.
Implicit Types r : Raft S.

(** What all the relations of interest look at. *)
Record untouched r r' : Prop := {
  un_id : r_id r' = r_id r;
  un_state : r_state r' = r_state r;
  un_term : r_term r' = r_term r;
  un_vote : r_vote r' = r_vote r;
  un_batch : r_batch_append r' = r_batch_append r;
  un_log : r_raft_log r' = r_raft_log r;
  un_msgs : r_msgs r' = r_msgs r;
  un_prs : r_prs r' = r_prs r;
  un_read_only : r_read_only r' = r_read_only r;
  un_request : r_pending_request_snapshot r' = r_pending_request_snapshot r }.

(** What every node may say, whatever its role: nothing that only a leader says, no
    acknowledgement of entries, and only the truth about its log. *)
Definition courteous r (m : Message) : Prop :=
  match m_type m with
  | MsgAppend | MsgHeartbeat | MsgReadIndexResp | MsgSnapshot => False
  | MsgAppendResponse =>
      (m_reject m = true ∨ m_index m = 0) ∧ (m_request_snapshot m = 0 ∨ m_request_snapshot m = r_pending_request_snapshot r)
  | MsgRequestVote | MsgRequestPreVote =>
      m_from m = INVALID_ID ∧ (m_type m = MsgRequestVote → m_term m = r_term r) ∧
      RaftLog.last_index (r_raft_log r) = Done (m_index m) ∧ RaftLog.last_term (r_raft_log r) = Done (m_log_term m) ∧
      commit_info (r_raft_log r) = Done (m_commit m, m_commit_term m)
  | MsgRequestVoteResponse | MsgRequestPreVoteResponse =>
      m_commit m = 0 ∨ commit_info (r_raft_log r) = Done (m_commit m, m_commit_term m)
  | _ => True
  end.

(** Steps that appear everywhere. *)
Class Base (R : relation (Raft S)) := {
  ba_pre :: PreOrder R;
  ba_same r r' : untouched r r' → R r r';
  ba_read r l : (joined (r_raft_log r) → same_log (r_raft_log r) l) → R r (set_r_raft_log l r);
  ba_send r m m' : courteous r m → stamp m r = Done m' → R r (set_r_msgs (r_msgs r ++ [m']) r);
  ba_apply i r l : applied_to i (r_raft_log r) = Done l → R r (set_r_raft_log l r) }.
(** Giving up the leadership or a candidacy, in the same term or a later one. *)
Class Downs (R : relation (Raft S)) :=
  dn_down t lead r r' u : r_term r ≤ t → become_follower t lead r = Done (r', u) → R r r'.
(** The bookkeeping about the peers, in the same configuration. *)
Class Peers (R : relation (Raft S)) := {
  pe_prs r p : pt_conf p = pt_conf (r_prs r) → R r (set_r_prs p r);
  pe_reads r ro : R r (set_r_read_only ro r) }.
(** A change of the configuration. *)
Class Reconfigures (R : relation (Raft S)) :=
  rc_prs r p : R r (set_r_prs p r).
(** What a leader does. *)
Class Serves (R : relation (Raft S)) := {
  se_peers :: Peers R;
  se_append es : keeps R (append_entry es);
  se_replicate to pr b : keeps R (maybe_send_append to pr b);
  se_says r m m' : m_type m = MsgHeartbeat ∨ m_type m = MsgReadIndexResp →
    stamp m r = Done m' → R r (set_r_msgs (r_msgs r ++ [m']) r);
  se_commit i t r l b : RaftLog.maybe_commit i t (r_raft_log r) = Done (l, b) → R r (set_r_raft_log l r);
  se_persist i t r l b : maybe_persist i t (r_raft_log r) = Done (l, b) → R r (set_r_raft_log l r) }.
(** What elections are made of. *)
Class Elects (R : relation (Raft S)) := {
  el_pre : keeps R become_pre_candidate;
  el_candidate : keeps R become_candidate;
  el_leader : keeps R become_leader }.
(** What a node learns from message [m]: entries, a commit index, or whom to vote for. *)
Definition names_commit (m : Message) (i t : u64) : Prop :=
  (is_vote_msg (m_type m) = true ∧ i = m_commit m ∧ t = m_commit_term m) ∨
  (m_type m = MsgReadIndexResp ∧ i = m_index m ∧ t = m_term m).
Class Follows (R : relation (Raft S)) (m : Message) := {
  fo_heartbeat r l : m_type m = MsgHeartbeat → commit_to (m_commit m) (r_raft_log r) = Done l → R r (set_r_raft_log l r);
  fo_learn i t r l b : names_commit m i t →
    RaftLog.maybe_commit i t (r_raft_log r) = Done (l, b) → R r (set_r_raft_log l r);
  fo_vote r : m_type m = MsgRequestVote → r_term r = m_term m → grant_vote m r = Done true → R r (set_r_vote (m_from m) r);
  fo_append r l res : m_type m = MsgAppend →
    maybe_append (m_index m) (m_log_term m) (m_commit m) (m_entries m) (r_raft_log r) = Done (l, res) →
    R r (set_r_raft_log l r);
  fo_answer r a a' : m_type m = MsgAppend → m_type a = MsgAppendResponse → m_request_snapshot a = 0 →
    stamp a r = Done a' → R r (set_r_msgs (r_msgs r ++ [a']) r) }.
(** What a snapshot does. *)
Class Restores (R : relation (Raft S)) (m : Message) := {
  re_restore snap r l : m_type m = MsgSnapshot → RaftLog.restore snap (r_raft_log r) = Done l → R r (set_r_raft_log l r);
  re_prs r p : m_type m = MsgSnapshot → R r (set_r_prs p r);
  re_commit_to i r l : m_type m = MsgSnapshot → commit_to i (r_raft_log r) = Done l → R r (set_r_raft_log l r);
  re_request r : m_type m = MsgSnapshot → R r (set_r_pending_request_snapshot INVALID_INDEX r);
  re_answer r a a' : m_type m = MsgSnapshot → m_type a = MsgAppendResponse → m_request_snapshot a = 0 →
    stamp a r = Done a' → R r (set_r_msgs (r_msgs r ++ [a']) r) }.

Context (R : relation (Raft S)) `{!Base R}.
Abbreviation walks := (keeps R).
Ltac leaf := solve [apply ba_same; by constructor | apply pe_prs; first [done|by (unfold record_vote; simpl; case_match)|eapply quorum_recently_active_conf; eassumption] | apply pe_reads].

(** A message that may be sent in any state. *)
Ltac polite :=
  let r := fresh in intro r; unfold courteous; simpl;
  repeat match goal with E : m_type _ = _ |- _ => rewrite E; simpl end; solve [done | by left | by right | split; [by left|by left] | split; [by right|by left]].
Hint Extern 2 (∀ r, courteous r _) => polite : raft_keeps.

Lemma send_walks m : (∀ r, courteous r m) → walks (send (S := S) m).
Proof using Base0. intros Hm r r' u (m' & Hs & ->)%send_spec. by eapply ba_send. Qed.
Hint Resolve send_walks : raft_keeps.

(** ** Reads and votes *)
Lemma has_unapplied_walks lo hi ctx : walks (has_unapplied_conf_changes (S := S) lo hi ctx).
Proof using Base0.
  unfold has_unapplied_conf_changes. keeps leaf. apply keeps_with_log. intros r l res E. apply ba_read. intros Hj.
  match type of E with context [scan _ _ ?page _ _ _ _] => pose proof (scan_reads lo hi page ctx find_conf_change false _ Hj) as Hs end.
  apply bind_Done in E as ([[l1 f] res'] & E & E'). injection E' as <- <-.
  by rewrite E in Hs.
Qed.
Hint Resolve has_unapplied_walks : raft_keeps.
Lemma send_request_snapshot_walks : walks (send_request_snapshot (S := S)).
Proof using Base0.
  intros r r' u E. unfold send_request_snapshot in E.
  apply rm_bind_Done in E as (r1 & h & [-> _]%rm_asks_Done & E). apply rm_bind_Done in E as (r1 & t & [-> _]%rm_asks_Done & E).
  apply rm_bind_Done in E as (r1 & c & [-> ->]%rm_gets_Done & E). apply rm_bind_Done in E as (r1 & lead & [-> ->]%rm_gets_Done & E).
  apply rm_bind_Done in E as (r1 & pend & [-> ->]%rm_gets_Done & E). apply send_spec in E as (g & Hg & ->).
  eapply ba_send; [|exact Hg]. unfold courteous. simpl. split; [by left|by right].
Qed.
Hint Resolve send_request_snapshot_walks : raft_keeps.
(** The requests of a candidate tell the truth about its log. *)
Lemma request_votes_walks vm t c ct b ids r r' u :
  vm = MsgRequestPreVote ∨ (vm = MsgRequestVote ∧ t = r_term r) → commit_info (r_raft_log r) = Done (c, ct) →
  request_votes vm t c ct b ids r = Done (r', u) → R r r'.
Proof using Base0.
  revert r. induction ids as [|id ids IH]; intros r Hvm Hc E; [by apply rm_ret_Done in E as [-> _]|].
  apply rm_bind_Done in E as (r1 & i & [-> ->]%rm_gets_Done & E). apply rm_bind_Done in E as (r1 & [] & E1 & E).
  destruct (id =? r_id r); [apply rm_ret_Done in E1 as [-> _]; by apply (IH r)|].
  apply rm_bind_Done in E1 as (r2 & li & [-> Hli]%rm_asks_Done & E1).
  apply rm_bind_Done in E1 as (r2 & lt & [-> Hlt]%rm_asks_Done & E1).
  apply send_spec in E1 as (m' & Hm' & ->).
  transitivity (set_r_msgs (r_msgs r ++ [m']) r); [|by apply (IH (set_r_msgs (r_msgs r ++ [m']) r))].
  eapply ba_send; [|exact Hm']. unfold courteous. destruct b, Hvm as [->|[-> ->]]; by simpl.
Qed.

(** What a candidate asks for, and the term in which it waits for the answers. *)
Lemma campaign_message ty r r' vm t :
  (if bool_decide (ty = CAMPAIGN_PRE_ELECTION)
   then become_pre_candidate;; term ← asks (λ r, r_term r +! 1); mret (MsgRequestPreVote, term)
   else become_candidate;; term ← gets r_term; mret (MsgRequestVote, term)) r = Done (r', (vm, t)) →
  vm = MsgRequestPreVote ∨ (vm = MsgRequestVote ∧ t = r_term r' ∧ r_state r' = Candidate).
Proof using.
  intros E. case_bool_decide.
  - left. apply rm_bind_Done in E as (r2 & [] & _ & E). apply rm_bind_Done in E as (r3 & t' & _ & E).
    by apply rm_ret_Done in E as [_ [= -> _]].
  - right. apply rm_bind_Done in E as (r2 & [] & ([_ Hst _ _ _ _ _ _] & _)%become_candidate_spec & E).
    apply rm_bind_Done in E as (r3 & t' & [-> ->]%rm_gets_Done & E). by apply rm_ret_Done in E as [-> [= -> ->]].
Qed.
Lemma poll_term again from v r r' res : poll_with again from v r = Done (r', res) → res ≠ Won → r_term r' = r_term r.
Proof using.
  intros E Hr. unfold poll_with in E. apply rm_bind_Done in E as (r1 & [] & ->%rm_modify_Done & E).
  apply rm_bind_Done in E as (r2 & [[g b] res'] & [-> _]%rm_asks_Done & E).
  apply rm_bind_Done in E as (r2 & [] & E1 & E). apply rm_ret_Done in E as [-> ->]. destruct res'; [| |done].
  - by apply rm_ret_Done in E1 as [-> _].
  - apply rm_bind_Done in E1 as (r3 & t & [-> ->]%rm_gets_Done & E1). by apply become_follower_spec in E1 as [[_ _ ? _ _ _ _ _] _].
Qed.

Section down.
Context `{!Downs R}.
Lemma step_down_walks lead : walks (term ← gets r_term; become_follower (S := S) term lead).
Proof using Downs0.
  intros r r' u E. apply rm_bind_Done in E as (r1 & t & [-> ->]%rm_gets_Done & E). by eapply dn_down.
Qed.
Lemma give_up_walks lead (b : bool) :
  walks (term ← asks (λ r, r_term r +! 1); become_follower (S := S) term lead;; mret b).
Proof using Downs0.
  intros r r' u E. apply rm_bind_Done in E as (r1 & t & [-> [_ ->]%add64_Done]%rm_asks_Done & E).
  apply rm_bind_Done in E as (r1 & [] & E & [-> _]%rm_ret_Done). eapply dn_down; [|done]. lia.
Qed.
Lemma follow_sender_walks m : walks (follow_sender (S := S) m).
Proof using Downs0.
  intros r r' u E. unfold follow_sender in E. apply rm_bind_Done in E as (r1 & [] & [-> Ha]%rm_asks_Done & E).
  apply assert_Done, N.eqb_eq in Ha. eapply dn_down; [|done]. lia.
Qed.
Hint Resolve step_down_walks give_up_walks follow_sender_walks : raft_keeps.
Lemma step_term_walks m : walks (step_term (S := S) m).
Proof using Base0 Downs0.
  intros r r' b E. unfold step_term in E. apply rm_bind_Done in E as (r1 & self & [-> ->]%rm_gets_Done & E).
  unfold id in E. destruct (_ =? 0); [by inv_rm|]. destruct (N.ltb_spec (r_term r) (m_term m)) as [Ht|Ht].
  - destruct (_ && _); [by inv_rm|]. destruct (_ || _); [by inv_rm|]. inv_rm. eapply dn_down; [|done]. lia.
  - keeps_run E leaf.
Qed.

Section vote.
Context (m : Message) `{!Follows R m}.
Lemma learn_walks i t : names_commit m i t → walks (with_log (RaftLog.maybe_commit (S := S) i t)).
Proof using Follows0. intros Hn. apply keeps_with_log. intros r l b E. by eapply fo_learn. Qed.
Lemma maybe_commit_by_vote_walks : is_vote_msg (m_type m) = true → walks (maybe_commit_by_vote (S := S) m).
Proof using Base0 Downs0 Follows0.
  intros Hv. pose proof (learn_walks (m_commit m) (m_commit_term m) ltac:(by left)). unfold maybe_commit_by_vote. keeps leaf.
Qed.
(** A granted request is of the term of the node. *)
Lemma handle_vote_request_walks r r' u :
  (m_type m = MsgRequestVote → m_term m ≠ 0 → r_term r = m_term m) →
  handle_vote_request m r = Done (r', u) → R r r'.
Proof using Base0 Downs0 Follows0.
  intros Ht E. unfold handle_vote_request in E. apply rm_bind_Done in E as (r1 & grant & [-> Hg]%rm_asks_Done & E).
  apply rm_bind_Done in E as (r1 & resp & [-> Hresp]%rm_lift_Done & E).
  assert (is_vote_msg (m_type m) = true ∧ is_vote_msg resp = true ∧
    (resp = MsgRequestVoteResponse ∨ resp = MsgRequestPreVoteResponse)) as (Hv & Hv' & Hr)
    by (destruct (m_type m); simpl in Hresp; simplify_eq; auto).
  pose proof (maybe_commit_by_vote_walks Hv).
  destruct grant; apply rm_bind_Done in E as (r1 & x & E1 & E).
  - apply send_spec in E1 as (a & Ha & ->). apply rm_when_Done in E.
    assert (m_term m ≠ 0) as Hne.
    { unfold stamp in Ha. simpl in Ha. rewrite Hv' in Ha. by destruct (N.eqb_spec (m_term m) 0). }
    assert (R r (set_r_msgs (r_msgs r ++ [a]) r)) as Hstep.
    { eapply ba_send; [|exact Ha]. unfold courteous. destruct Hr as [->| ->]; by left. }
    case_bool_decide as Hty; [|by subst]. etrans; [exact Hstep|]. inv_rm.
    etrans; [apply (ba_same _ (set_r_election_elapsed 0 (set_r_msgs (r_msgs r ++ [a]) r))); by constructor|].
    apply fo_vote; [done|by apply Ht|exact Hg].
  - apply rm_gets_Done in E1 as [-> ->]. apply rm_bind_Done in E as (r1 & [c ct] & [-> Hc]%rm_asks_Done & E).
    apply rm_bind_Done in E as (r1 & [] & (a & Ha & ->)%send_spec & E). transitivity (set_r_msgs (r_msgs r ++ [a]) r).
    + eapply ba_send; [|exact Ha]. unfold courteous. destruct Hr as [->| ->]; by right.
    + keeps_run E leaf.
Qed.
End vote.
End down.

(** The term of a request that is handled. *)
Lemma step_term_request m r r' :
  step_term m r = Done (r', true) → m_type m = MsgRequestVote → m_term m ≠ 0 → r_term r' = m_term m.
Proof using.
  intros E Hty Hne. unfold step_term in E. apply rm_bind_Done in E as (r1 & self & [-> ->]%rm_gets_Done & E).
  unfold id in E. rewrite Hty, (proj2 (N.eqb_neq _ _)) in E by done. destruct (N.ltb_spec (r_term r) (m_term m)).
  - simpl in E. destruct (_ && _); [by inv_rm|]. inv_rm. by apply become_follower_spec in Hr as [[_ _ ? _ _ _ _ _] _].
  - destruct (N.ltb_spec (m_term m) (r_term r)); [|inv_rm; lia].
    by apply rm_bind_Done in E as (? & [] & _ & [_ ?]%rm_ret_Done).
Qed.

(** The clock of a leader: it talks to itself twice. *)
Lemma leader_tick_walks r r' b :
  (∀ t r r' u, t = MsgCheckQuorum ∨ t = MsgBeat → r_state r = Leader → step_self t r = Done (r', u) → R r r') →
  r_state r = Leader → tick r = Done (r', b) → R r r'.
Proof using Base0.
  intros Hself Hst E. unfold tick in E. apply rm_bind_Done in E as (r1 & st & [-> ->]%rm_gets_Done & E). rewrite Hst in E.
  unfold tick_heartbeat in E.
  apply rm_bind_Done in E as (r1 & n & [-> _]%rm_asks_Done & E). apply rm_bind_Done in E as (r1 & [] & ->%rm_modify_Done & E).
  apply rm_bind_Done in E as (r1 & n' & [-> _]%rm_asks_Done & E). apply rm_bind_Done in E as (r1 & [] & ->%rm_modify_Done & E).
  set (r0 := set_r_election_elapsed _ _) in E. assert (R r r0) as H0' by leaf. transitivity r0; [done|].
  apply rm_bind_Done in E as (r1 & ready & E1 & E). transitivity r1.
  - apply rm_bind_Done in E1 as (r2 & over & [-> ->]%rm_gets_Done & E1).
    destruct (_ <=? _) in E1; cbn [negb] in E1; [|by apply rm_ret_Done in E1 as [-> _]].
    apply rm_bind_Done in E1 as (r2 & [] & ->%rm_modify_Done & E1). set (r3 := set_r_election_elapsed 0 r0) in E1.
    transitivity r3; [leaf|]. apply rm_bind_Done in E1 as (r2 & check & [-> ->]%rm_gets_Done & E1).
    apply rm_bind_Done in E1 as (r2 & [] & E2 & E1). transitivity r2.
    + apply rm_when_Done in E2. destruct (r_check_quorum _) in E2; [|by subst]. eapply Hself; [by left|done|exact E2].
    + unfold abort_leader_transfer in E1. inv_rm.
      destruct (_ && _) in Hr1; [apply rm_modify_Done in Hr1 as ->; leaf|by subst].
  - apply rm_bind_Done in E as (r2 & st & [-> ->]%rm_gets_Done & E). case_bool_decide as Hl; cbn [negb] in E;
      [|by apply rm_ret_Done in E as [-> _]].
    apply rm_bind_Done in E as (r2 & beat & [-> ->]%rm_gets_Done & E). destruct (_ <=? _) in E; cbn [negb] in E;
      [|by apply rm_ret_Done in E as [-> _]].
    apply rm_bind_Done in E as (r2 & [] & ->%rm_modify_Done & E). apply rm_bind_Done in E as (r2 & [] & E2 & [-> _]%rm_ret_Done).
    transitivity (set_r_heartbeat_elapsed 0 r1); [leaf|]. eapply Hself; [by right| |exact E2]. done.
Qed.

(** ** The leader *)
Section leader.
Context `{!Serves R}.
Lemma says_walks m : m_type m = MsgHeartbeat ∨ m_type m = MsgReadIndexResp → walks (send (S := S) m).
Proof using Serves0. intros Hm r r' u (m' & Hs & ->)%send_spec. by eapply se_says. Qed.
Lemma log_commit_walks i t : walks (with_log (RaftLog.maybe_commit (S := S) i t)).
Proof using Serves0. apply keeps_with_log. intros r l b E. by eapply se_commit. Qed.
Hint Resolve says_walks log_commit_walks : raft_keeps.
Lemma on_peer_walks to f : (∀ pr, walks (f pr)) → walks (on_peer (S := S) to f).
Proof using Base0 Serves0. intros Hf. unfold on_peer, unwrap_pr. keeps leaf. Qed.
Lemma for_peers_walks f : (∀ id pr, walks (f id pr)) → walks (for_peers (S := S) f).
Proof using Base0 Serves0.
  intros Hf. unfold for_peers. keeps leaf. apply keeps_for_progress_list; [typeclasses eauto| |done]. intros. leaf.
Qed.
Lemma bcast_heartbeat_walks ctx : walks (bcast_heartbeat_with_ctx (S := S) ctx).
Proof using Base0 Serves0.
  apply for_peers_walks. intros. unfold core_send_heartbeat. keeps leaf. destruct ctx; apply says_walks; by left.
Qed.
Lemma maybe_commit_walks : walks (maybe_commit (S := S)).
Proof using Base0 Serves0. unfold maybe_commit, unwrap_pr. keeps leaf. Qed.
Hint Resolve bcast_heartbeat_walks maybe_commit_walks : raft_keeps.
Lemma answer_read_walks m i : walks (answer_read (S := S) m i).
Proof using Base0 Serves0.
  unfold answer_read. apply (keeps_bind_val _ (λ resp, ∀ m, resp = Some m → m_type m = MsgReadIndexResp)).
  - unfold handle_ready_read_index. keeps leaf.
  - intros r r' a E m' ->. unfold handle_ready_read_index in E. inv_rm. case_match; inv_rm; by simplify_eq.
  - intros [m'|] Hm; [specialize (Hm m' eq_refl); apply says_walks; by right|keeps leaf].
Qed.
Hint Resolve answer_read_walks : raft_keeps.
Lemma answer_reads_walks rss : walks (answer_reads (S := S) rss).
Proof using Base0 Serves0. induction rss; simpl; keeps leaf. Qed.
Hint Resolve answer_reads_walks : raft_keeps.
Lemma release_reads_walks ctx : walks (release_reads (S := S) ctx).
Proof using Base0 Serves0.
  unfold release_reads. apply keeps_bind; [typeclasses eauto| |intros; apply answer_reads_walks].
  intros r r' a E. inv_done. destruct x as [ro rss]. inv_done. leaf.
Qed.
Hint Resolve release_reads_walks : raft_keeps.
Lemma append_entry_walks es : walks (append_entry (S := S) es).
Proof using Serves0. apply se_append. Qed.
Lemma maybe_send_append_walks to pr b : walks (maybe_send_append (S := S) to pr b).
Proof using Serves0. apply se_replicate. Qed.
Hint Resolve append_entry_walks maybe_send_append_walks : raft_keeps.
Lemma send_append_loop_walks fuel to pr : walks (send_append_loop (S := S) fuel to pr).
Proof using Base0 Serves0. revert pr. induction fuel as [|fuel IH]; intros pr; simpl; keeps leaf. Qed.
Hint Resolve send_append_loop_walks : raft_keeps.
Lemma core_send_append_walks to pr : walks (core_send_append (S := S) to pr).
Proof using Base0 Serves0. unfold core_send_append. keeps leaf. Qed.
Lemma core_send_append_aggressively_walks to pr : walks (core_send_append_aggressively (S := S) to pr).
Proof using Base0 Serves0. unfold core_send_append_aggressively. keeps leaf. Qed.
Hint Resolve core_send_append_walks core_send_append_aggressively_walks : raft_keeps.
Lemma send_append_walks to : walks (send_append (S := S) to).
Proof using Base0 Serves0. apply on_peer_walks. intros. apply core_send_append_walks. Qed.
Lemma send_append_aggressively_walks to : walks (send_append_aggressively (S := S) to).
Proof using Base0 Serves0. apply on_peer_walks. intros. apply core_send_append_aggressively_walks. Qed.
Lemma bcast_append_walks : walks (bcast_append (S := S)).
Proof using Base0 Serves0. apply for_peers_walks. intros. apply core_send_append_walks. Qed.
Hint Resolve send_append_walks send_append_aggressively_walks bcast_append_walks : raft_keeps.
Lemma after_progress_walks from b : walks (after_progress (S := S) from b).
Proof using Base0 Serves0. unfold after_progress, unwrap_pr, send_timeout_now. keeps leaf. Qed.
Hint Resolve after_progress_walks : raft_keeps.
Lemma handle_append_response_walks m : walks (handle_append_response (S := S) m).
Proof using Base0 Serves0. unfold handle_append_response, get_pr. keeps leaf. Qed.
Lemma recv_ack_walks (id : Raft S → N) ctx :
  walks (λ r, let '(ro, acks) := recv_ack (id r) ctx (r_read_only r) in Done (set_r_read_only ro r, acks)).
Proof using Base0 Serves0. intros r r' a E. destruct (recv_ack _ _ _). injection E as <- <-. leaf. Qed.
Hint Resolve handle_append_response_walks recv_ack_walks : raft_keeps.
Lemma handle_heartbeat_response_walks m : walks (handle_heartbeat_response (S := S) m).
Proof using Base0 Serves0. pose proof (recv_ack_walks (λ _, m_from m)). unfold handle_heartbeat_response, get_pr. keeps leaf. Qed.
Lemma handle_transfer_leader_walks m : walks (handle_transfer_leader (S := S) m).
Proof using Base0 Serves0. unfold handle_transfer_leader, get_pr, abort_leader_transfer, send_timeout_now. keeps leaf. Qed.
Lemma handle_snapshot_status_walks m : walks (handle_snapshot_status (S := S) m).
Proof using Base0 Serves0. unfold handle_snapshot_status, get_pr. keeps leaf. Qed.
Lemma handle_unreachable_walks m : walks (handle_unreachable (S := S) m).
Proof using Base0 Serves0. unfold handle_unreachable, get_pr. keeps leaf. Qed.
Hint Resolve handle_heartbeat_response_walks handle_transfer_leader_walks handle_snapshot_status_walks handle_unreachable_walks : raft_keeps.
Lemma screen_entries_walks i es : walks (screen_entries (S := S) i es).
Proof using Base0 Serves0. revert i. induction es as [|e es IH]; intros i; simpl; keeps leaf. Qed.
Hint Resolve screen_entries_walks : raft_keeps.
Lemma propose_walks m : walks (propose (S := S) m).
Proof using Base0 Serves0. unfold propose, get_pr. keeps leaf. Qed.
Lemma add_request_walks c m :
  walks (λ r, ro ← add_request c m (r_id r) (r_read_only r); Done (set_r_read_only ro r, ())).
Proof using Base0 Serves0. intros r r' a E. apply bind_Done in E as (ro & _ & E). injection E as <-. leaf. Qed.
Hint Resolve propose_walks add_request_walks : raft_keeps.
Lemma leader_read_index_walks m : walks (leader_read_index (S := S) m).
Proof using Base0 Serves0. unfold leader_read_index. keeps leaf. Qed.
Hint Resolve leader_read_index_walks : raft_keeps.
Lemma check_quorum_active_walks : walks (check_quorum_active (S := S)).
Proof using Base0 Serves0. unfold check_quorum_active. keeps leaf. Qed.
Hint Resolve check_quorum_active_walks : raft_keeps.
(** Only the check of the quorum steps down. *)
Lemma leader_walks m : m_type m ≠ MsgCheckQuorum → walks (step_leader (S := S) m).
Proof using Base0 Serves0. intros Hm. unfold step_leader, ok_, bcast_heartbeat. destruct (m_type m) eqn:Hty; try done; keeps leaf. Qed.

(** ** Reports of the application *)
Lemma post_conf_change_walks : walks (post_conf_change (S := S)).
Proof using Base0 Serves0.
  unfold post_conf_change, abort_leader_transfer. keeps leaf. apply for_peers_walks. intros. keeps leaf.
Qed.
Hint Resolve post_conf_change_walks : raft_keeps.
Lemma apply_conf_change_walks `{!Reconfigures R} cc : walks (apply_conf_change (S := S) cc).
Proof using Base0 Serves0. unfold apply_conf_change. keeps ltac:(first [leaf|apply rc_prs]). Qed.
Lemma commit_apply_walks i : walks (commit_apply (S := S) i).
Proof using Base0 Serves0.
  unfold commit_apply, commit_apply_internal, append_entry_or_panic. cbn [negb]. keeps leaf.
  apply keeps_update_log. intros r l E. by eapply ba_apply.
Qed.
Lemma on_persist_entries_walks i t : walks (on_persist_entries (S := S) i t).
Proof using Base0 Serves0.
  unfold on_persist_entries, unwrap_pr. keeps leaf. apply keeps_with_log. intros r l b E. by eapply se_persist.
Qed.

(** ** Elections *)
Section elections.
Context `{!Elects R, !Downs R}.
Lemma pre_candidate_walks : walks (become_pre_candidate (S := S)).
Proof using Elects0. apply el_pre. Qed.
Lemma candidate_walks : walks (become_candidate (S := S)).
Proof using Elects0. apply el_candidate. Qed.
Lemma become_leader_walks : walks (become_leader (S := S)).
Proof using Elects0. apply el_leader. Qed.
Hint Resolve pre_candidate_walks candidate_walks become_leader_walks step_down_walks : raft_keeps.
Lemma poll_with_walks again from v : walks again → walks (poll_with (S := S) again from v).
Proof using Base0 Serves0 Elects0 Downs0. intros Ha. unfold poll_with. keeps leaf. Qed.
Hint Resolve poll_with_walks : raft_keeps.
Lemma campaign_at_walks depth ty : walks (campaign_at (S := S) depth ty).
Proof using Base0 Serves0 Elects0 Downs0.
  revert ty. induction depth as [|depth IH]; intros ty r r' u E; [done|]. cbn [campaign_at] in E.
  apply rm_bind_Done in E as (r1 & [vm t] & E1 & E). transitivity r1.
  { assert (walks (if bool_decide (ty = CAMPAIGN_PRE_ELECTION)
      then become_pre_candidate;; term ← asks (λ r, r_term r +! 1); mret (MsgRequestPreVote, term)
      else become_candidate;; term ← gets r_term; mret (MsgRequestVote, term))) as Hw by keeps leaf. by eapply Hw. }
  apply campaign_message in E1. apply rm_bind_Done in E as (r2 & i & [-> ->]%rm_gets_Done & E).
  apply rm_bind_Done in E as (r2 & res & Hp & E). pose proof (poll_term _ _ _ _ _ _ Hp) as Ht.
  transitivity r2; [eapply poll_with_walks; [apply IH|exact Hp]|]. case_bool_decide; [by apply rm_ret_Done in E as [-> _]|].
  apply rm_bind_Done in E as (r3 & [c ct] & [-> Hc]%rm_asks_Done & E). apply rm_bind_Done in E as (r3 & ids & [-> ->]%rm_gets_Done & E).
  eapply request_votes_walks; [|exact Hc|exact E]. rewrite Ht by done. destruct E1 as [->|(-> & -> & _)]; auto.
Qed.
Hint Resolve campaign_at_walks : raft_keeps.
Lemma hup_walks b : walks (hup (S := S) b).
Proof using Base0 Serves0 Elects0 Downs0. unfold hup, campaign. keeps leaf. Qed.
End elections.
End leader.

(** ** The follower *)
Section follower.
Context (m : Message) `{!Follows R m}.
Lemma answer_append_walks : m_type m = MsgAppend → walks (answer_append (S := S) m).
Proof using Base0 Follows0.
  intros Hty. unfold answer_append. keeps leaf. apply keeps_with_log. intros r l res E. by eapply fo_append.
Qed.
Lemma answer_append_type r r' a :
  answer_append m r = Done (r', a) → m_type a = MsgAppendResponse ∧ m_request_snapshot a = 0.
Proof using. intros E. unfold answer_append in E. inv_rm. repeat (case_match; inv_rm); by simplify_eq. Qed.
Lemma answer_walks a :
  m_type m = MsgAppend → m_type a = MsgAppendResponse ∧ m_request_snapshot a = 0 → walks (send (S := S) a).
Proof using Follows0. intros Hm [Ha Hr] r r' u (a' & Hs & ->)%send_spec. by eapply fo_answer. Qed.
Lemma handle_append_entries_walks : m_type m = MsgAppend → walks (handle_append_entries (S := S) m).
Proof using Base0 Follows0.
  intros Hty. assert (walks (to_send ← answer_append m; committed ← gets (λ r, l_committed (r_raft_log r));
    send (set_m_commit committed to_send))).
  - apply (keeps_bind_val _ (λ a, m_type a = MsgAppendResponse ∧ m_request_snapshot a = 0));
      [by apply answer_append_walks|apply answer_append_type|].
    intros a Ha. keeps leaf. by apply answer_walks.
  - unfold handle_append_entries. keeps leaf. by apply answer_walks.
Qed.
Lemma handle_heartbeat_walks : m_type m = MsgHeartbeat → walks (handle_heartbeat (S := S) m).
Proof using Base0 Follows0.
  intros Hty. unfold handle_heartbeat. keeps leaf. apply keeps_update_log. intros r l E. by eapply fo_heartbeat.
Qed.
End follower.

(** ** Every message *)
Section step.
Context `{!Serves R, !Elects R, !Downs R}.
Section snapshot.
Context (m : Message) `{!Restores R m} (Hty : m_type m = MsgSnapshot).
Lemma conf_restore_walks i cs :
  walks (λ r : Raft S, let '(prs, res) := ConfChange.restore i cs (r_prs r) in Done (set_r_prs prs r, res)).
Proof using Restores0 Hty. intros r r' a E. destruct (ConfChange.restore _ _ _). injection E as <- <-. by apply (re_prs (m := m)). Qed.
Lemma log_restore_walks snap : walks (update_log (RaftLog.restore (S := S) snap)).
Proof using Restores0 Hty. apply keeps_update_log. intros r l E. by eapply re_restore. Qed.
Lemma log_commit_to_walks i : walks (update_log (commit_to (S := S) i)).
Proof using Restores0 Hty. apply keeps_update_log. intros r l E. by eapply re_commit_to. Qed.
Lemma restore_answer_walks a : m_type a = MsgAppendResponse → m_request_snapshot a = 0 → walks (send (S := S) a).
Proof using Restores0 Hty. intros Ha Hr r r' u (a' & Hs & ->)%send_spec. by eapply re_answer. Qed.
Hint Resolve conf_restore_walks log_restore_walks log_commit_to_walks restore_answer_walks step_down_walks give_up_walks
  post_conf_change_walks : raft_keeps.
Lemma restore_walks snap : walks (restore (S := S) snap).
Proof using Base0 Serves0 Downs0 Restores0 Hty.
  unfold restore, unwrap_pr. keeps ltac:(first [leaf|by apply (re_prs (m := m))|by apply (re_request (m := m))]).
Qed.
Hint Resolve restore_walks : raft_keeps.
Lemma handle_snapshot_walks : walks (handle_snapshot (S := S) m).
Proof using Base0 Serves0 Downs0 Restores0 Hty. unfold handle_snapshot. keeps leaf. Qed.
End snapshot.
Hint Resolve step_down_walks give_up_walks follow_sender_walks maybe_commit_by_vote_walks step_term_walks
  post_conf_change_walks hup_walks : raft_keeps.
Lemma step_leader_walks m : walks (step_leader (S := S) m).
Proof using Base0 Serves0 Downs0.
  destruct (decide (m_type m = MsgCheckQuorum)) as [Hty|]; [|by apply leader_walks].
  pose proof step_down_walks. pose proof check_quorum_active_walks. unfold step_leader, ok_. rewrite Hty. keeps leaf.
Qed.
Hint Resolve handle_snapshot_walks handle_append_entries_walks handle_heartbeat_walks poll_with_walks campaign_at_walks
  step_leader_walks : raft_keeps.
Lemma step_candidate_walks m `{!Follows R m, !Restores R m} : walks (step_candidate (S := S) m).
Proof using Base0 Serves0 Elects0 Downs0.
  unfold step_candidate, handle_vote_response, poll, ok_. destruct (m_type m) eqn:Hty; keeps leaf.
  all: apply maybe_commit_by_vote_walks; by rewrite ?Hty.
Qed.
Lemma step_follower_walks m `{!Follows R m, !Restores R m} : walks (step_follower (S := S) m).
Proof using Base0 Serves0 Elects0 Downs0.
  unfold step_follower, heard_from, ok_. destruct (m_type m) eqn:Hty; keeps leaf.
  apply (learn_walks m). by right.
Qed.
Hint Resolve step_candidate_walks step_follower_walks : raft_keeps.
Lemma step_handle_walks m `{!Follows R m, !Restores R m} r r' res :
  (m_type m = MsgRequestVote → m_term m ≠ 0 → r_term r = m_term m) → step_handle m r = Done (r', res) → R r r'.
Proof using Base0 Serves0 Elects0 Downs0.
  intros Ht E. unfold step_handle, ok_ in E. destruct (m_type m) eqn:Hty; try (by keeps_run E leaf).
  all: apply rm_bind_Done in E as (r1 & [] & E & [-> _]%rm_ret_Done); apply (handle_vote_request_walks m _ _ _) in E; [done|]; by rewrite Hty.
Qed.
Lemma step_walks m `{!Follows R m, !Restores R m} : walks (step (S := S) m).
Proof using Base0 Serves0 Elects0 Downs0.
  intros r r' res E. unfold step, ok_ in E. apply rm_bind_Done in E as (r1 & c & E1 & E).
  transitivity r1; [by eapply step_term_walks|]. destruct c; [|by apply rm_ret_Done in E as [-> _]].
  apply (step_handle_walks m _ _ _) in E; [done|]. by apply (step_term_request m r).
Qed.
Lemma tick_walks : (∀ m, m_type m ≠ MsgAppend → m_type m ≠ MsgSnapshot → Follows R m ∧ Restores R m) → walks (tick (S := S)).
Proof using Base0 Serves0 Elects0 Downs0.
  intros Hf. assert (∀ t, t ≠ MsgAppend → t ≠ MsgSnapshot → walks (step_self (S := S) t)) as Hself.
  { intros t Ht Hs. unfold step_self. keeps leaf.
    match goal with |- walks (step ?m) => destruct (Hf m ltac:(done) ltac:(done)) end. apply step_walks; done. }
  pose proof (Hself MsgHup ltac:(done) ltac:(done)). pose proof (Hself MsgCheckQuorum ltac:(done) ltac:(done)). pose proof (Hself MsgBeat ltac:(done) ltac:(done)).
  unfold tick, tick_election, tick_heartbeat, abort_leader_transfer. keeps leaf.
Qed.
End step.
End walk.
