(* ===== verification/RaftFinal.v ===== *)
(** * What a node never undoes

    The relations of [LogFinal] along every event of a node: committed entries are
    final, and a leader only appends. *)
From S2P Require Import Prelude Errors Proto Util Quorum Storage Unstable ReadOnly Config.
From S2P Require Import Progress Tracker RaftLog RaftLogSpec RaftLogReads LogTotal LogFinal RaftState RaftSend RaftLogic.
From S2P Require Import RaftRole RaftStep RaftReset RaftVote RaftElect RaftCluster RaftTotal RaftEnds RaftWalk.
#[local] Open Scope N_scope.

Section final.
Context {S : Type} `{StorageLaws S, PbMessage, HashOrder, Rng, ConfChangeCodec}.
Implicit Types r : Raft S.

(** ** Relations between logs *)

(** The operations on the log that do not belong to a follower. *)
Class LogOps (L : relation (RaftLog S)) := {
  lo_pre :: PreOrder L;
  lo_read l l' : (joined l → same_log l l') → L l l';
  lo_limit n l : L l (set_l_max_apply_unpersisted_log_limit n l);
  lo_commit i t l l' b : RaftLog.maybe_commit i t l = Done (l', b) → L l l';
  lo_persist i t l l' b : maybe_persist i t l = Done (l', b) → L l l';
  lo_apply i l l' : applied_to i l = Done l' → L l l';
  lo_append es l l' i : (joined l → contiguous (log_end l) es) → append es l = Done (l', i) → L l l' }.

Definition on_log (L : relation (RaftLog S)) r r' : Prop := L (r_raft_log r) (r_raft_log r').

Section on_log.
Context (L : relation (RaftLog S)) `{!LogOps L}.
#[local] Instance on_log_preorder : PreOrder (on_log L).
Proof using LogOps0. unfold on_log. split; [by intros r|]. intros r1 r2 r3. apply transitivity. Qed.
Lemma on_log_same r r' : r_raft_log r' = r_raft_log r → on_log L r r'.
Proof using LogOps0. unfold on_log. by intros ->. Qed.
Lemma become_follower_log t lead : keeps (on_log L) (become_follower (S := S) t lead).
Proof using LogOps0. intros r r' u (_ & _ & _ & _ & _ & E)%become_follower_spec. unfold on_log. rewrite E. apply lo_limit. Qed.
Lemma append_entry_log es : keeps (on_log L) (append_entry (S := S) es).
Proof using LogOps0.
  intros r r' b (us & l & -> & Hl)%append_entry_spec. destruct b; [|destruct Hl as [_ ->]; by apply on_log_same].
  destruct Hl as (_ & li & es' & i & Hli & Hn & Ha). unfold on_log. simpl. eapply lo_append; [|exact Ha].
  intros Hj. by eapply numbered_end.
Qed.
Lemma become_leader_log : keeps (on_log L) (become_leader (S := S)).
Proof using LogOps0.
  intros r r' u (_ & _ & _ & li & es & i & us & Hli & _ & _ & Hn & Ha & _)%become_leader_spec.
  unfold on_log. eapply lo_append; [|exact Ha]. intros Hj. by eapply numbered_end.
Qed.
Lemma maybe_send_append_on_log to pr b : keeps (on_log L) (maybe_send_append (S := S) to pr b).
Proof using LogOps0. intros r r' a E. unfold on_log. apply lo_read. intros Hj. by eapply maybe_send_append_quiet. Qed.
#[export] Instance on_log_base : Base (on_log L).
Proof using LogOps0.
  split; [apply _|by intros r r' []; apply on_log_same| |by intros; apply on_log_same|..].
  all: unfold on_log; simpl.
  - intros r l Hl. by apply lo_read.
  - intros i r l E. by eapply lo_apply.
Qed.
#[export] Instance on_log_peers : Peers (on_log L).
Proof using LogOps0. split; intros; by apply on_log_same. Qed.
#[export] Instance on_log_reconfigures : Reconfigures (on_log L).
Proof using LogOps0. intros r p. by apply on_log_same. Qed.
#[export] Instance on_log_downs : Downs (on_log L).
Proof using LogOps0. intros t lead r r' u _. apply become_follower_log. Qed.
#[export] Instance on_log_serves : Serves (on_log L).
Proof using LogOps0.
  split; [apply _|apply append_entry_log|apply maybe_send_append_on_log|by intros; apply on_log_same|..].
  all: unfold on_log; simpl.
  - intros i t r l b E. by eapply lo_commit.
  - intros i t r l b E. by eapply lo_persist.
Qed.
#[export] Instance on_log_elects : Elects (on_log L).
Proof using LogOps0.
  split; [| |apply become_leader_log].
  - intros r r' u [-> _]%become_pre_candidate_spec. by apply on_log_same.
  - intros r r' u (_ & _ & E & _)%become_candidate_spec. by apply on_log_same.
Qed.
End on_log.

#[local] Instance final_ops : LogOps final.
Proof.
  split; [apply _|apply read_final|apply limit_final|apply maybe_commit_final|apply maybe_persist_final
    |apply applied_to_final|].
  intros es l l' i Hc E Hw. eapply append_end_final; [apply Hw|by apply Hc, Hw|done..].
Qed.
#[local] Instance grows_ops : LogOps grows.
Proof.
  split; [apply _|..|intros es l l' i Hc E Hj]; [intros; apply grows_same..|].
  - by apply same_ents_read.
  - by apply same_ents_indexes.
  - by eapply same_ents_commit.
  - by eapply same_ents_persist.
  - by eapply same_ents_apply.
  - destruct (append_end es l l' i) as (Hj' & He & Hf & _); [by auto..|].
    split_and!; [done..|]. rewrite He. by apply prefix_app_r.
Qed.

(** A leader's message lists entries that follow the position it names. *)
Definition in_order (m : Message) : Prop := m_type m = MsgAppend → contiguous (m_index m + 1) (m_entries m).
#[local] Instance final_follows m : in_order m → Follows (on_log final) m.
Proof.
  intros Hm. split; unfold on_log; simpl; try done.
  - intros r l _ E. by eapply commit_to_final.
  - intros i t r l b _ E. by eapply maybe_commit_final.
  - intros r l res Hty E. eapply maybe_append_final; [by apply Hm|done].
Qed.
#[local] Instance final_restores m : Restores (on_log final) m.
Proof.
  split; unfold on_log; simpl; try done; [intros snap r l _ E; by eapply restore_final|].
  intros i r l _ E. by eapply commit_to_final.
Qed.

(** The events at the node itself: not the storage's writes, not a restart. *)
Definition ordinary (e : event (S := S)) : Prop :=
  match e with LogWritten _ | Restart _ _ => False | _ => True end.

(** What the methods of a node respect, an event respects. *)
Lemma run_walks (R : relation (Raft S)) `{!Base R, !Serves R, !Elects R, !Downs R} e r r' :
  ordinary e → (∀ cc, e = Reconfigure cc → Reconfigures R) →
  (∀ m, m = event_msg e ∨ (m_type m ≠ MsgAppend ∧ m_type m ≠ MsgSnapshot) → Follows R m ∧ Restores R m) →
  run_event e r = Done r' → R r r'.
Proof.
  intros Ho Hrc Hm E. destruct e as [m| |i|i t|cc|l|c store]; simpl in *; try done.
  all: apply fmap_Done in E as ([r1 x] & E & ->).
  - destruct (Hm m (or_introl eq_refl)). by eapply (step_walks R m).
  - eapply (tick_walks R); [|exact E]. intros m ? ?. apply Hm. by right.
  - by eapply (commit_apply_walks R).
  - by eapply (on_persist_entries_walks R).
  - pose proof (Hrc cc eq_refl). by eapply (apply_conf_change_walks R).
Qed.

Lemma run_final e r r' :
  ordinary e → in_order (event_msg e) → run_event e r = Done r' → final (r_raft_log r) (r_raft_log r').
Proof.
  intros Ho Hm. apply (run_walks (on_log final)); [done|by intros; typeclasses eauto|].
  intros m Hin. split; [|apply _]. apply final_follows. destruct Hin as [->|[? _]]; [done|by intros ?].
Qed.

(** ** The leader *)

Lemma step_term_higher m r r' : step_term m r = Done (r', true) → r' = r ∨ r_term r < r_term r'.
Proof.
  intros E. unfold step_term in E. apply rm_bind_Done in E as (r1 & self & [-> ->]%rm_gets_Done & E). unfold id in E.
  destruct (m_term m =? 0); [apply rm_ret_Done in E as [-> _]; by left|].
  destruct (N.ltb_spec (r_term r) (m_term m)).
  - destruct (_ && _); [by apply rm_ret_Done in E as [_ ?]|]. destruct (_ || _); [apply rm_ret_Done in E as [-> _]; by left|].
    inv_rm. apply become_follower_spec in Hr as [[_ _ Ht _ _ _ _ _] _]. right. lia.
  - destruct (m_term m <? r_term r); [|apply rm_ret_Done in E as [-> _]; by left].
    by apply rm_bind_Done in E as (r1 & [] & _ & [_ ?]%rm_ret_Done).
Qed.

(** A leader learns nothing from messages about votes and reads. *)
#[local] Instance grows_follows m : m_type m ≠ MsgAppend → Follows (on_log grows) m.
Proof.
  intros Hm. split; unfold on_log; simpl; try done.
  - intros r l _ E. by eapply grows_same, same_ents_commit_to.
  - intros i t r l b _ E. by eapply grows_same, same_ents_commit.
Qed.
Lemma leader_handle_grows m r r' res :
  r_state r = Leader → (m_type m = MsgRequestVote → m_term m ≠ 0 → r_term r = m_term m) →
  step_handle m r = Done (r', res) → on_log grows r r'.
Proof.
  intros Hst Ht E. unfold step_handle, ok_ in E.
  pose proof (hup_walks (on_log grows) false). pose proof (step_leader_walks (on_log grows) m).
  destruct (decide (is_vote_msg (m_type m) = true)) as [Hv|Hv].
  - pose proof (grows_follows m ltac:(by destruct (m_type m))) as Hf.
    destruct (m_type m) eqn:Hty; try done.
    all: try (apply rm_bind_Done in E as (r2 & [] & E & [-> _]%rm_ret_Done);
      apply (handle_vote_request_walks (on_log grows) m _ _ _) in E; [done|]; by rewrite Hty).
    all: apply rm_bind_Done in E as (r2 & st & [-> ->]%rm_gets_Done & E); rewrite Hst in E; by eapply (step_leader_walks (on_log grows) m).
  - destruct (m_type m); try done; try (by keeps_run E ltac:(by apply on_log_same)).
    all: apply rm_bind_Done in E as (r2 & st & [-> ->]%rm_gets_Done & E); rewrite Hst in E; by eapply (step_leader_walks (on_log grows) m).
Qed.
(** A message that a leader handles without stepping down to another term. *)
Lemma leader_step_grows m r r' res :
  r_state r = Leader → r_term r' = r_term r → step m r = Done (r', res) → on_log grows r r'.
Proof.
  intros Hst Ht E. unfold step in E. apply rm_bind_Done in E as (r1 & c & E1 & E).
  destruct c; simpl in E; [|apply rm_ret_Done in E as [-> _]; by eapply (step_term_walks (on_log grows) m)].
  pose proof (step_handle_vote m _ _ _ E) as [Hv _]. pose proof (step_term_request m _ _ E1) as Hreq.
  apply step_term_higher in E1 as [->|Hlt]; [|lia]. by eapply leader_handle_grows.
Qed.
Lemma leader_self_grows t r r' u : r_state r = Leader → step_self t r = Done (r', u) → on_log grows r r'.
Proof.
  intros Hst E. unfold step_self in E. apply rm_bind_Done in E as (r1 & i & [-> ->]%rm_gets_Done & E).
  apply rm_bind_Done in E as (r1 & res & E & [-> _]%rm_ret_Done). by apply leader_handle_grows in E.
Qed.
Lemma leader_grows e r r' :
  ordinary e → r_state r = Leader → r_term r' = r_term r → run_event e r = Done r' → on_log grows r r'.
Proof.
  intros Ho Hst Ht E. destruct e as [m| |i|i t|cc|l|c store]; simpl in *; try done.
  all: apply fmap_Done in E as ([r1 x] & E & ->).
  - by eapply leader_step_grows.
  - eapply (leader_tick_walks (on_log grows)); [|done|done]. intros t r2 r3 u _. by apply leader_self_grows.
  - by eapply (commit_apply_walks (on_log grows)).
  - by eapply (on_persist_entries_walks (on_log grows)).
  - by eapply (apply_conf_change_walks (on_log grows)).
Qed.
End final.

(** C11: committed entries are final. Whatever message arrives (with its entries in
    order, if it is an append), on every tick and on every report of the
    application, a node that is still running has kept its log well-formed, has
    moved the beginning of its log, its commit index and its applied index
    forward only, and still has every entry that it had committed, unchanged,
    unless a snapshot has replaced it. *)
Theorem committed_entries_final {S} `{StorageLaws S, PbMessage, HashOrder, Rng, ConfChangeCodec} (r r' : Raft S) e :
  log_wf (r_raft_log r) → ordinary e → in_order (event_msg e) → run_event e r = Done r' →
  let l := r_raft_log r in let l' := r_raft_log r' in
  log_wf l' ∧ first l ≤ first l' ∧ l_committed l ≤ l_committed l' ∧ l_applied l ≤ l_applied l' ∧
  ∀ i, first l' ≤ i ≤ l_committed l → entry_at l' i = entry_at l i.
Proof.
  intros Hw Ho Hm E l l'. destruct (run_final e r r' Ho Hm E Hw) as [Hw' [Hf Hc Ha He]]. by split_and!.
Qed.

(** C12: a leader only appends. Whatever a leader does, as long as it stays in its
    term it keeps every entry of its log where it is, and puts new ones after them. *)
Theorem leader_append_only {S} `{StorageLaws S, PbMessage, HashOrder, Rng, ConfChangeCodec} (r r' : Raft S) e :
  joined (r_raft_log r) → r_state r = Leader → ordinary e → run_event e r = Done r' → r_term r' = r_term r →
  first (r_raft_log r') = first (r_raft_log r) ∧ ents (r_raft_log r) `prefix_of` ents (r_raft_log r').
Proof. intros Hj Hst Ho E Ht. by destruct (leader_grows e r r' Ho Hst Ht E Hj) as (_ & Hf & Hp). Qed.
