(* ===== verification/RaftPlain.v ===== *)
(** * What stays as it is without snapshots

    As long as a node is sent no snapshot and is not reconfigured, its voters are
    the same and its log begins where it began; and as long as its application
    does not ask for a snapshot, neither does the node. *)
From S2P Require Import Prelude Errors Proto Util Quorum Storage Unstable ReadOnly Config.
From S2P Require Import Progress Tracker RaftLog RaftLogSpec RaftLogReads LogTotal LogFinal RaftState RaftSend RaftLogic.
From S2P Require Import RaftRole RaftStep RaftReset RaftVote RaftStays RaftElect RaftCluster RaftTotal RaftEnds RaftWalk RaftFinal.
#[local] Open Scope N_scope.

Section plain.
Context {S : Type} `{StorageLaws S, PbMessage, HashOrder, Rng, ConfChangeCodec}.
Implicit Types (r : Raft S) (l : RaftLog S).

(** ** The beginning of the log *)
Definition same_base l l' : Prop := u_snapshot (l_unstable l') = u_snapshot (l_unstable l) ∧ dummy l' = dummy l.
#[local] Instance same_base_preorder : PreOrder same_base.
Proof. split; [by intros l|]. intros l1 l2 l3 [] []. split; congruence. Qed.
Definition rooted l l' : Prop := log_wf l → log_wf l' ∧ same_base l l'.
#[local] Instance rooted_preorder : PreOrder rooted.
Proof.
  split; [by intros l|]. intros l1 l2 l3 H12 H23 Hw. destruct (H12 Hw) as [Hw2 E]. destruct (H23 Hw2) as [? ?].
  split; [done|by transitivity l2].
Qed.
Lemma rooted_final l l' : final l l' → same_base l l' → rooted l l'.
Proof. intros Hf Hd Hw. by destruct (Hf Hw). Qed.
Lemma truncate_to_snapshot n (u u' : Unstable) : truncate_to n u = Done u' → u_snapshot u' = u_snapshot u.
Proof. intros E. unfold truncate_to in E. repeat (case_match; inv_done); done. Qed.
Lemma append_same_base es l l' i : RaftLog.append es l = Done (l', i) → same_base l l'.
Proof.
  intros E. unfold RaftLog.append in E. destruct es as [|e0 es]; [by inv_done|]. apply bind_Done in E as (after & _ & E).
  destruct (_ <? _); [done|]. apply bind_Done in E as (u & Hu & E). apply bind_Done in E as (k & _ & E). injection E as <- _.
  unfold truncate_and_append in Hu. apply bind_Done in Hu as (e & _ & Hu). apply bind_Done in Hu as (u1 & Hu1%truncate_to_snapshot & Hu).
  apply bind_Done in Hu as (n1 & _ & Hu). apply bind_Done in Hu as (n2 & _ & Hu). injection Hu as <-.
  split; [done|]. unfold dummy. simpl. by rewrite Hu1.
Qed.
Lemma commit_to_same_base i l l' : commit_to i l = Done l' → same_base l l'.
Proof. intros E. unfold commit_to in E. repeat (case_match; inv_done); done. Qed.
Lemma maybe_commit_same_base i t l l' b : RaftLog.maybe_commit i t l = Done (l', b) → same_base l l'.
Proof.
  intros E. unfold RaftLog.maybe_commit in E. apply bind_Done in E as (ok & _ & E). destruct ok; [|by inv_done].
  apply bind_Done in E as (l1 & E1%commit_to_same_base & E). by inv_done.
Qed.
Lemma maybe_append_same_base idx t c es l l' res : maybe_append idx t c es l = Done (l', res) → same_base l l'.
Proof.
  intros E. unfold maybe_append in E. apply bind_Done in E as (m & _ & E). destruct m; [|by inv_done].
  apply bind_Done in E as (ci & _ & E). apply bind_Done in E as (l1 & E1 & E). apply bind_Done in E as (k & _ & E).
  apply bind_Done in E as (l2 & E2%commit_to_same_base & E). injection E as <- _. transitivity l1; [|done].
  destruct (_ =? 0); [by injection E1 as <-|]. destruct (_ <=? _); [done|].
  apply bind_Done in E1 as (n & _ & E1). apply bind_Done in E1 as (s & _ & E1). apply bind_Done in E1 as (sf & _ & E1).
  apply bind_Done in E1 as ([l3 i] & E3%append_same_base & E1). apply bind_Done in E1 as (p & _ & E1). injection E1 as <-.
  transitivity l3; [done|]. by case_match.
Qed.
Lemma append_dummy es l l' i : RaftLog.append es l = Done (l', i) → dummy l' = dummy l.
Proof. by intros [_ ?]%append_same_base. Qed.
Lemma maybe_commit_dummy i t l l' b : RaftLog.maybe_commit i t l = Done (l', b) → dummy l' = dummy l.
Proof. by intros [_ ?]%maybe_commit_same_base. Qed.
#[local] Instance rooted_ops : LogOps rooted.
Proof.
  split; [apply _|..].
  - intros l l' Hs Hw. pose proof (Hs (lw_joined _ Hw)) as Hl. destruct (same_log_ents _ _ Hl) as (_ & Hd & _).
    split; [by destruct (read_final _ _ Hs Hw)|]. split; [|done]. by rewrite (sl_unstable _ _ Hl).
  - intros n l. apply rooted_final; [apply limit_final|done].
  - intros i t l l' b E. apply rooted_final; [by eapply maybe_commit_final|by eapply maybe_commit_same_base].
  - intros i t l l' b E. apply rooted_final; [by eapply maybe_persist_final|].
    unfold maybe_persist in E. repeat (case_match; inv_done); done.
  - intros i l l' E. apply rooted_final; [by eapply applied_to_final|]. unfold applied_to in E. repeat (case_match; inv_done); done.
  - intros es l l' i Hc E. apply rooted_final; [|by eapply append_same_base].
    intros Hw. eapply append_end_final; [apply Hw|by apply Hc, Hw|done..].
Qed.

(** ** The relation *)
Record undisturbed (K : Prop) r r' : Prop := {
  pl_conf : K → pt_conf (r_prs r') = pt_conf (r_prs r);
  pl_log : on_log rooted r r';
  pl_request : r_pending_request_snapshot r = 0 → r_pending_request_snapshot r' = 0;
  pl_out g : r_pending_request_snapshot r = 0 →
    g ∈ r_msgs r' → g ∈ r_msgs r ∨ (m_type g = MsgAppendResponse → m_request_snapshot g = 0) }.
#[local] Instance on_rooted_preorder : PreOrder (on_log rooted).
Proof. split; unfold on_log; [by intros r|intros r1 r2 r3; apply transitivity]. Qed.
#[export] Instance plain_preorder K : PreOrder (undisturbed K).
Proof.
  split.
  - intros r. constructor; try done. by left.
  - intros r1 r2 r3 [C1 L1 P1 O1] [C2 L2 P2 O2]. constructor; [|by transitivity r2|auto|].
    + intros HK. rewrite C2, C1; done.
    + intros g Hp [Hg|]%O2; [by apply O1|by right|by apply P1].
Qed.
(** ** Sending *)
Lemma stamp_request m r m' : stamp m r = Done m' → m_request_snapshot m' = m_request_snapshot m.
Proof.
  unfold stamp. intros E. apply bind_Done in E as (m1 & E1 & E).
  set (m0 := if m_from m =? INVALID_ID then set_m_from (r_id r) m else m) in *.
  assert (m_request_snapshot m0 = m_request_snapshot m) as <- by (unfold m0; by destruct (_ =? _)). clearbody m0.
  repeat (case_match; simplify_eq); done.
Qed.
(** No answer to an append leaves. *)
Definition asks_nothing r r' : Prop := ∀ g, g ∈ r_msgs r' → g ∈ r_msgs r ∨ m_type g ≠ MsgAppendResponse.
#[local] Instance asks_nothing_preorder : PreOrder asks_nothing.
Proof. split; [intros r g; by left|]. intros r1 r2 r3 A1 A2 g [Hg|]%A2; [by apply A1|by right]. Qed.
Lemma asks_nothing_same r r' : r_msgs r' = r_msgs r → asks_nothing r r'.
Proof. intros E g. rewrite E. by left. Qed.
Ltac leaf := solve [by apply asks_nothing_same].
Lemma send_asks_nothing m : m_type m ≠ MsgAppendResponse → keeps asks_nothing (send (S := S) m).
Proof.
  intros Hm r r' u (m' & Hs & ->)%send_spec g [| ->%list_elem_of_singleton]%elem_of_app; [by left|right].
  apply stamp_spec in Hs as (-> & _). done.
Qed.
Lemma batch_into_asks_nothing to c es ms pr ms' pr' b g :
  batch_into to c es ms pr = Done (ms', pr', b) → g ∈ ms' → g ∈ ms ∨ m_type g ≠ MsgAppendResponse.
Proof.
  revert pr ms' pr' b. induction ms as [|m ms IH]; intros pr ms' pr' b E Hg; simpl in E; [simplify_eq; by left|].
  destruct (_ && _) eqn:Hm.
  - apply andb_true_iff in Hm as [Ht%bool_decide_eq_true _].
    assert (∀ m', m_type m' = m_type m → g ∈ m' :: ms → g ∈ m :: ms ∨ m_type g ≠ MsgAppendResponse) as Hc.
    { intros m' Hm' [-> |]%elem_of_cons; [right; congruence|left; by right]. }
    case_bool_decide; inv_done; [by eapply Hc, Hg|]. destruct x; simpl in E; inv_done; [by eapply Hc, Hg|by left].
  - apply bind_Done in E as ([[ms1 pr1] b1] & E & E'). simplify_eq.
    apply elem_of_cons in Hg as [-> |Hg]; [left; by left|]. destruct (IH _ _ _ _ E Hg); [left; by right|by right].
Qed.
Lemma maybe_send_append_asks_nothing to pr b : keeps asks_nothing (maybe_send_append (S := S) to pr b).
Proof.
  assert (∀ m pr, m_type m = MsgHup → keeps asks_nothing (send_snapshot_instead (S := S) m pr to)) as Hsn.
  { intros m pr' Hm. unfold send_snapshot_instead. apply (keeps_bind_val _ (λ '(m', _, _), m_type m' ≠ MsgAppendResponse)).
    - unfold prepare_send_snapshot. keeps leaf.
    - intros r r' [[m' pr1] ok] E. unfold prepare_send_snapshot in E. destruct (negb _); [inv_rm; simplify_eq; congruence|].
      inv_rm. repeat (case_match; inv_rm; simplify_eq); simpl; congruence.
    - intros [[m' pr1] ok] Hm'. pose proof (send_asks_nothing m' Hm'). keeps leaf. }
  assert (∀ m pr t es, keeps asks_nothing ('(m, pr) ← prepare_send_entries (S := S) m pr t es; send m;; mret (pr, true))) as Hes.
  { intros m pr' t es. apply (keeps_bind_val _ (λ '(m', _), m_type m' = MsgAppend)).
    - unfold prepare_send_entries. keeps leaf.
    - intros r r' [m' pr1] E. unfold prepare_send_entries in E. inv_rm. destruct (last es); inv_rm; by simplify_eq.
    - intros [m' pr1] Hm'. pose proof (send_asks_nothing m' ltac:(congruence)). keeps leaf. }
  assert (∀ pr es, keeps asks_nothing (try_batching (S := S) to pr es)) as Hb.
  { intros pr' es r r' a E. unfold try_batching in E. apply bind_Done in E as ([[ms pr1] b1] & Hb & E).
    injection E as <- _. intros g. by eapply batch_into_asks_nothing. }
  unfold maybe_send_append. keeps leaf.
Qed.

(** ** Asking for a snapshot *)
Definition unasked r r' : Prop := r_pending_request_snapshot r = 0 → r_pending_request_snapshot r' = 0.
#[local] Instance unasked_preorder : PreOrder unasked.
Proof. unfold unasked. split; [by intros r ?|intros r1 r2 r3; auto]. Qed.
Ltac leaf ::= solve [by intros ?].
Lemma reset_unasked t : keeps unasked (reset (S := S) t).
Proof.
  unfold reset, reset_randomized_election_timeout, abort_leader_transfer. keeps leaf.
  unfold for_progress. keeps leaf. apply keeps_for_progress_list; [typeclasses eauto|by intros * ?|]. intros. keeps leaf.
Qed.
Lemma append_entry_unasked es : keeps unasked (append_entry (S := S) es).
Proof. by intros r r' b (us & l & -> & _)%append_entry_spec ?. Qed.
Hint Resolve reset_unasked append_entry_unasked : raft_keeps.
Lemma become_candidate_unasked : keeps unasked (become_candidate (S := S)).
Proof. unfold become_candidate, assert_state_ne. keeps leaf. Qed.
Lemma become_leader_unasked : keeps unasked (become_leader (S := S)).
Proof. unfold become_leader, assert_state_ne, append_entry_or_panic, unwrap_pr. keeps leaf. Qed.

Section instances.
Context (K : Prop).
Lemma plain_same r r' :
  (K → pt_conf (r_prs r') = pt_conf (r_prs r)) → on_log rooted r r' →
  (r_pending_request_snapshot r = 0 → r_pending_request_snapshot r' = 0) → r_msgs r' = r_msgs r → undisturbed K r r'.
Proof. intros Hc Hl Hp Hm. constructor; try done. rewrite Hm. by left. Qed.
Lemma plain_log r l : rooted (r_raft_log r) l → undisturbed K r (set_r_raft_log l r).
Proof. intros Hl. by apply plain_same. Qed.
Lemma plain_says r m m' : stamp m r = Done m' →
  (r_pending_request_snapshot r = 0 → m_type m = MsgAppendResponse → m_request_snapshot m = 0) →
  undisturbed K r (set_r_msgs (r_msgs r ++ [m']) r).
Proof.
  intros Hs Hm. constructor; try done. intros g Hp [| ->%list_elem_of_singleton]%elem_of_app; [by left|right].
  pose proof (stamp_request _ _ _ Hs) as Hf. apply stamp_spec in Hs as (Hty & _). rewrite Hty, Hf. by apply Hm.
Qed.
#[export] Instance plain_base : Base (undisturbed K).
Proof.
  split; [apply _|..].
  - intros r r' [Hi Hs Ht Hv Hb Hl Hm Hp Ho Hr]. apply plain_same; [by rewrite Hp|exact (on_log_same rooted r r' Hl)|by rewrite Hr|done].
  - intros r l Hl. by apply plain_log, lo_read.
  - intros r m m' Hc Hs. apply (plain_says r m); [done|]. intros Hp Hty. unfold courteous in Hc. rewrite Hty in Hc.
    destruct Hc as [_ [|]]; [done|congruence].
  - intros i r l E. by eapply plain_log, lo_apply.
Qed.
#[export] Instance plain_peers : Peers (undisturbed K).
Proof. split; intros; apply plain_same; by try apply (on_log_same rooted). Qed.
#[export] Instance plain_downs : Downs (undisturbed K).
Proof.
  intros t lead r r' u _ (Hb & _ & Hp & _ & _ & Hl)%become_follower_spec. destruct Hb as [Hs _ _ _ _ _ _]. apply plain_same.
  - intros _. apply (sn_conf _ _ Hs).
  - unfold on_log. rewrite Hl. apply lo_limit.
  - by rewrite Hp.
  - apply (sn_msgs _ _ Hs).
Qed.
#[export] Instance plain_serves : Serves (undisturbed K).
Proof.
  split; [apply _|..].
  - intros es r r' b E. pose proof (append_entry_log rooted es _ _ _ E) as Hl.
    apply append_entry_spec in E as (us & l & -> & _). by apply plain_same.
  - intros to pr b r r' a E. pose proof (maybe_send_append_on_log rooted to pr b _ _ _ E) as Hl.
    pose proof (maybe_send_append_asks_nothing to pr b _ _ _ E) as Hm.
    apply maybe_send_append_sends in E as (st & p & ms & rs & ro & -> & _). constructor; try done.
    intros g _ [|]%Hm; [by left|by right].
  - intros r m m' Hty Hs. apply (plain_says r m); [done|]. intros _ Hm. by destruct Hty; congruence.
  - intros i t r l b E. by eapply plain_log, lo_commit.
  - intros i t r l b E. by eapply plain_log, lo_persist.
Qed.
#[export] Instance plain_elects : Elects (undisturbed K).
Proof.
  split.
  - intros r r' u [-> _]%become_pre_candidate_spec. by apply plain_same.
  - intros r r' u E. pose proof (become_candidate_unasked _ _ _ E) as Hp.
    apply become_candidate_spec in E as ([Hs _ _ _ _ _ _] & _ & Hl & _).
    apply plain_same; [intros _; apply (sn_conf _ _ Hs)|by apply (on_log_same rooted)|done|apply (sn_msgs _ _ Hs)].
  - intros r r' u E. pose proof (become_leader_unasked _ _ _ E) as Hp. pose proof (become_leader_log rooted _ _ _ E) as Hl.
    apply become_leader_spec in E as ([Hs _ _ _ _ _ _] & _).
    apply plain_same; [intros _; apply (sn_conf _ _ Hs)|done..|apply (sn_msgs _ _ Hs)].
Qed.
#[export] Instance plain_follows m : in_order m → Follows (undisturbed K) m.
Proof.
  intros Hm. split.
  - intros r l _ E. apply plain_log, rooted_final; [by eapply commit_to_final|by eapply commit_to_same_base].
  - intros i t r l b _ E. by eapply plain_log, lo_commit.
  - intros r _ _ _. by apply plain_same.
  - intros r l res Hty E. apply plain_log, rooted_final; [eapply maybe_append_final; [by apply Hm|done]|by eapply maybe_append_same_base].
  - intros r a a' _ Hty Hr Hs. by apply (plain_says r a).
Qed.
Lemma plain_restores m : m_type m ≠ MsgSnapshot → Restores (undisturbed K) m.
Proof. by constructor. Qed.
End instances.

(** An event without a snapshot. *)
Lemma run_plain e r r' :
  ordinary e → in_order (event_msg e) → m_type (event_msg e) ≠ MsgSnapshot → run_event e r = Done r' →
  undisturbed (match e with Reconfigure _ => False | _ => True end) r r'.
Proof.
  intros Ho Hin Hns. set (K := match e with Reconfigure _ => False | _ => True end). apply (run_walks (undisturbed K)); [done|..].
  - intros cc Ecc q p. apply plain_same; [unfold K; by rewrite Ecc|by apply (on_log_same rooted)|done..].
  - intros m Hm. split; [|apply plain_restores; by destruct Hm as [->|[]]].
    apply plain_follows. destruct Hm as [->|[? _]]; [done|by intros ?].
Qed.
End plain.
