(* ===== verification/RaftSilent.v ===== *)
(** * What a node does when it does not lead

    The relation [silent]: no leader's work is done, and what happens to the commit
    index, to the vote and in the outbox is explained by the message that is
    handled ([told], [voted]) and by the truth about the log ([innocuous]). *)
From S2P Require Import Prelude Errors Proto Util Quorum Storage Unstable ReadOnly Config.
From S2P Require Import Progress Tracker RaftLog RaftLogSpec RaftLogReads LogTotal LogFinal RaftState RaftSend RaftLogic.
From S2P Require Import RaftRole RaftStep RaftReset RaftTotal RaftEnds RaftWalk.
#[local] Open Scope N_scope.

Section silence.
Context {S : Type} `{StorageLaws S, PbMessage, HashOrder, Rng, ConfChangeCodec}.
Implicit Types r : Raft S.

(** ** Facts about the end and the commit index of a log *)

(** The log ends at [i], with term [t]. *)
Definition ends_in (l : RaftLog S) (i t : u64) : Prop := i = log_end l - 1 ∧ log_term l i = Ok t.
(** A log that ends at [i] with term [t] is at least as new. *)
Definition outdone (l : RaftLog S) (i t : u64) : Prop :=
  ∀ e, last (ents l) = Some e → e_term e < t ∨ (e_term e = t ∧ log_end l - 1 ≤ i).
(** Position [c] is committed, and its term is [t]. *)
Definition known_commit (l : RaftLog S) (c t : u64) : Prop :=
  c < first l ∨ (c ≤ l_committed l ∧ ∃ e, entry_at l c = Some e ∧ e_term e = t).
(** Message [m] is why [c] is committed. *)
Definition told (m : Message) (l : RaftLog S) (c : u64) : Prop :=
  (m_type m = MsgHeartbeat ∧ c = m_commit m) ∨
  ∃ e, entry_at l c = Some e ∧ names_commit m c (e_term e).

(** A position inside the log. *)
Lemma entry_inside l i : joined l → first l ≤ i < log_end l →
  ∃ e, ents l !! N.to_nat (i - first l) = Some e ∧ entry_at l i = Some e ∧ log_term l i = Ok (e_term e).
Proof.
  intros Hj Hi. pose proof (first_pos l Hj). destruct (lookup_lt_is_Some_2 (ents l) (N.to_nat (i - first l))) as [e He].
  { unfold log_end, len in Hi. lia. }
  exists e. split; [done|]. unfold entry_at, log_term.
  rewrite (proj2 (N.ltb_ge i (first l))), (proj2 (N.ltb_ge i (first l - 1))), (proj2 (N.leb_gt _ _)), (proj2 (N.eqb_neq _ _)) by lia.
  by rewrite He.
Qed.
Lemma last_entry_at l e : joined l → last (ents l) = Some e → log_term l (log_end l - 1) = Ok (e_term e) ∧ first l < log_end l.
Proof.
  intros Hj He. rewrite last_lookup in He. pose proof (lookup_lt_Some _ _ _ He). assert (first l < log_end l) as Hlt by (unfold log_end, len; lia).
  destruct (entry_inside l (log_end l - 1) Hj) as (e' & He' & _ & Ht); [lia|]. split; [|done].
  rewrite Ht. do 2 f_equal. unfold log_end, len in He'.
  replace (N.to_nat (first l + N.of_nat (length (ents l)) - 1 - first l)) with (Init.Nat.pred (length (ents l))) in He' by lia. congruence.
Qed.
Lemma last_term_ends l i t : joined l → RaftLog.last_index l = Done i → RaftLog.last_term l = Done t → ends_in l i t.
Proof.
  intros Hj Hi Ht. rewrite last_index_spec in Hi by done. injection Hi as <-. split; [done|].
  unfold last_term in Ht. rewrite last_index_spec in Ht by done. cbn [mbind outcome_bind] in Ht.
  rewrite term_spec in Ht by done. cbn [mbind outcome_bind] in Ht. destruct (log_term l (log_end l - 1)); [|done]. by injection Ht as ->.
Qed.
Lemma up_to_date_outdone l i t : joined l → is_up_to_date i t l = Done true → outdone l i t.
Proof.
  intros Hj E e He. unfold is_up_to_date in E. apply bind_Done in E as (lt & Hlt & E).
  destruct (last_term_ends l (log_end l - 1) lt Hj (last_index_spec l Hj) Hlt) as [_ Hl].
  destruct (last_entry_at l e Hj He) as [Hl' _]. assert (e_term e = lt) as -> by congruence. clear Hl Hl'.
  destruct (N.ltb_spec lt t); [by left|]. destruct (N.eqb_spec t lt) as [->|]; [|done].
  rewrite last_index_spec in E by done. injection E as E%N.leb_le. by right.
Qed.
Lemma commit_info_known l c t : log_wf l → commit_info l = Done (c, t) → known_commit l c t.
Proof.
  intros [Hj Hc _ _] E. unfold commit_info in E. rewrite term_spec in E by done. cbn [mbind outcome_bind] in E.
  destruct (log_term l (l_committed l)) as [t'|] eqn:Ht; [|done]. injection E as <- <-.
  destruct (N.lt_ge_cases (l_committed l) (first l)); [by left|right]. split; [done|].
  destruct (entry_inside l (l_committed l) Hj) as (e & _ & He & Ht'); [lia|]. exists e. split; congruence.
Qed.
(** A commit by the term of a position. *)
Lemma maybe_commit_entry i t l l' b :
  log_wf l → RaftLog.maybe_commit i t l = Done (l', b) →
  l' = set_l_committed (l_committed l') l ∧
  (l_committed l' = l_committed l ∨ (l_committed l' = i ∧ ∃ e, entry_at l i = Some e ∧ e_term e = t)).
Proof.
  intros [Hj Hc _ _] E. unfold maybe_commit in E. apply bind_Done in E as (ok & Hok & E).
  destruct ok; [|injection E as <- _; split; [by destruct l|by left]].
  destruct (N.ltb_spec (l_committed l) i) as [Hlt|]; [|done]. rewrite term_spec in Hok by done. simpl in Hok.
  destruct (log_term l i) as [t'|] eqn:Ht; [|done]. injection Hok as ->%N.eqb_eq.
  apply bind_Done in E as (l1 & E1 & E). injection E as <- _. unfold commit_to in E1.
  rewrite (proj2 (N.leb_gt _ _)) in E1 by done. rewrite last_index_spec in E1 by done. cbn [mbind outcome_bind] in E1.
  destruct (N.ltb_spec (log_end l - 1) i); [done|]. injection E1 as <-. split; [done|]. right. split; [done|].
  destruct (entry_inside l i Hj) as (e & _ & He & Ht'); [lia|]. exists e. split; congruence.
Qed.
Lemma commit_to_moves i l l' : commit_to i l = Done l' → l_committed l' = l_committed l ∨ l_committed l' = i.
Proof.
  intros E. unfold commit_to in E. destruct (_ <=? _); [injection E as <-; by left|].
  apply bind_Done in E as (last & _ & E). destruct (_ <? _); [done|]. injection E as <-. by right.
Qed.

Section same.
Context (l l' : RaftLog S) (Hf : first l' = first l) (He : ents l' = ents l).
Lemma log_end_same : log_end l' = log_end l.
Proof using Hf He. unfold log_end. by rewrite Hf, He. Qed.
Lemma entry_at_same i : entry_at l' i = entry_at l i.
Proof using Hf He. unfold entry_at. by rewrite Hf, He. Qed.
Lemma ends_in_same i t : dummy l' = dummy l → ends_in l i t → ends_in l' i t.
Proof using Hf He. intros Hd. unfold ends_in, log_term. by rewrite Hd, He, log_end_same, Hf. Qed.
Lemma outdone_same i t : outdone l i t → outdone l' i t.
Proof using Hf He. unfold outdone. by rewrite He, log_end_same. Qed.
Lemma known_commit_same c t : l_committed l ≤ l_committed l' → known_commit l c t → known_commit l' c t.
Proof using Hf He. unfold known_commit. rewrite Hf, entry_at_same. intros ? [|[? ?]]; [by left|right; split; [lia|done]]. Qed.
Lemma told_same m c : told m l c → told m l' c.
Proof using Hf He. unfold told. by rewrite entry_at_same. Qed.
End same.

(** ** The relation *)

(** The node's message [g] claims nothing that a leader relies on, and is true. *)
Definition innocuous r (g : Message) : Prop :=
  match m_type g with
  | MsgAppend | MsgHeartbeat | MsgReadIndexResp | MsgSnapshot => False
  | MsgAppendResponse => m_reject g = true ∨ m_index g = 0
  | MsgRequestVote =>
      known_commit (r_raft_log r) (m_commit g) (m_commit_term g) ∧ m_from g = r_id r ∧ m_term g ≤ r_term r ∧
      (m_term g = r_term r → r_state r = Candidate → ends_in (r_raft_log r) (m_index g) (m_log_term g))
  | MsgRequestPreVote | MsgRequestVoteResponse | MsgRequestPreVoteResponse =>
      known_commit (r_raft_log r) (m_commit g) (m_commit_term g)
  | _ => True
  end.

(** How the vote comes about. *)
Definition voted (m : Message) r r' : Prop :=
  r_vote r' = INVALID_ID ∨ (r_term r' = r_term r ∧ r_vote r' = r_vote r) ∨ r_vote r' = r_id r ∨
  (m_type m = MsgRequestVote ∧ r_vote r' = m_from m ∧ r_term r' = m_term m ∧
   outdone (r_raft_log r') (m_index m) (m_log_term m)).

(** What holds when the log is well-formed. *)
Record discreet (m : Message) r r' : Prop := {
  ds_commit : l_committed (r_raft_log r') = l_committed (r_raft_log r) ∨ told m (r_raft_log r') (l_committed (r_raft_log r'));
  ds_persisted : l_persisted (r_raft_log r') = l_persisted (r_raft_log r);
  ds_dummy : dummy (r_raft_log r') = dummy (r_raft_log r);
  ds_vote : voted m r r';
  ds_out g : g ∈ r_msgs r' → g ∈ r_msgs r ∨ innocuous r' g }.

(** A node that is silent becomes no leader, and a candidate only in a new term. *)
Record silent (m : Message) r r' : Prop := {
  si_id : r_id r' = r_id r;
  si_term : r_term r ≤ r_term r';
  si_leader : r_state r' = Leader → r_state r = Leader ∧ r_term r' = r_term r ∧ r_prs r' = r_prs r ∧ r_read_only r' = r_read_only r;
  si_candidate : r_state r' = Candidate →
    (r_state r = Candidate ∧ r_term r' = r_term r) ∨ r_term r < r_term r';
  si_batch : r_batch_append r' = r_batch_append r;
  si_log : calm (r_raft_log r) (r_raft_log r');
  si_discreet : log_wf (r_raft_log r) → discreet m r r' }.

Lemma innocuous_kept r r' g :
  r_id r' = r_id r → r_term r ≤ r_term r' →
  (r_state r' = Candidate → (r_state r = Candidate ∧ r_term r' = r_term r) ∨ r_term r < r_term r') →
  first (r_raft_log r') = first (r_raft_log r) → ents (r_raft_log r') = ents (r_raft_log r) →
  l_committed (r_raft_log r) ≤ l_committed (r_raft_log r') → dummy (r_raft_log r') = dummy (r_raft_log r) →
  innocuous r g → innocuous r' g.
Proof.
  intros Hid Ht Hc Hf He Hco Hdu. unfold innocuous.
  destruct (m_type g); try done; try (by apply known_commit_same).
  intros (Hk & Hfr & Htm & Hend). split_and!; [by eapply known_commit_same|congruence|lia|]. intros Hg Hst.
  destruct (Hc Hst) as [[Hst0 Ht0]|]; [|lia]. apply (ends_in_same (r_raft_log r)); [done..|]. apply Hend; congruence.
Qed.
Lemma calm_facts l l' : log_wf l → calm l l' →
  log_wf l' ∧ first l' = first l ∧ ents l' = ents l ∧ l_committed l ≤ l_committed l'.
Proof. intros Hw [Hs Hfin]. destruct (Hs (lw_joined _ Hw)) as (_ & ? & ?). destruct (Hfin Hw) as [? [_ ? _ _]]. done. Qed.

#[export] Instance silent_preorder m : PreOrder (silent m).
Proof.
  split.
  { intros r. constructor; try done; [by left|]. intros _. constructor; [by left|done|done|right; by left|by left]. }
  intros r1 r2 r3 [I1 T1 L1 C1 B1 E1 D1] [I2 T2 L2 C2 B2 E2 D2]. constructor; try congruence; try lia.
  - intros Hl. destruct (L2 Hl) as (Hl2 & Ht & Hp & Ho). destruct (L1 Hl2) as (? & ? & ? & ?). split_and!; congruence.
  - intros Hc. destruct (C2 Hc) as [[Hc2 Ht]|]; [|right; lia]. rewrite Ht. by apply C1.
  - by transitivity (r_raft_log r2).
  - intros Hw. destruct (calm_facts _ _ Hw E1) as (Hw2 & F1 & X1 & K1). destruct (calm_facts _ _ Hw2 E2) as (Hw3 & F2 & X2 & K2).
    destruct (D1 Hw) as [Dc1 Dp1 Dd1 Dv1 Do1], (D2 Hw2) as [Dc2 Dp2 Dd2 Dv2 Do2]. constructor; [| congruence..| |].
    + destruct Dc2 as [E|]; [|by right]. rewrite E. destruct Dc1 as [|Htold]; [by left|right]. by apply (told_same (r_raft_log r2)).
    + destruct Dv2 as [?|[[Ht Hv]|[Hv|?]]]; [by left| |right; right; left; congruence|by right; right; right].
      destruct Dv1 as [?|[[Ht1 Hv1]|[Hv1|(Hty & Hv1 & Ht1 & Ho)]]].
      * left. congruence.
      * right. left. split; congruence.
      * right. right. left. congruence.
      * right. right. right. split_and!; [done|congruence..|]. by apply (outdone_same (r_raft_log r2)).
    + intros g [Hg|Hg]%Do2; [|by right]. destruct (Do1 g Hg) as [|Hi]; [by left|right]. by eapply (innocuous_kept r2).
Qed.

(** Only the log changes, and it stays calm. *)
Lemma silent_log m r l :
  calm (r_raft_log r) l →
  (log_wf (r_raft_log r) → (l_committed l = l_committed (r_raft_log r) ∨ told m l (l_committed l)) ∧
    l_persisted l = l_persisted (r_raft_log r) ∧ dummy l = dummy (r_raft_log r)) →
  silent m r (set_r_raft_log l r).
Proof.
  intros Hl Hc. constructor; try done; [by left|]. intros Hw. destruct (Hc Hw) as (? & ? & ?). constructor; [done|done|done|right; by left|by left].
Qed.
(** Taking on another role than that of a leader. *)
Lemma silent_becomes m st t v lead r r' :
  becomes st t v lead r r' → st ≠ Leader → r_term r ≤ t → (st = Candidate → r_term r < t) →
  (v = INVALID_ID ∨ (t = r_term r ∧ v = r_vote r) ∨ v = r_id r) →
  calm (r_raft_log r) (r_raft_log r') → l_persisted (r_raft_log r') = l_persisted (r_raft_log r) →
  l_committed (r_raft_log r') = l_committed (r_raft_log r) → dummy (r_raft_log r') = dummy (r_raft_log r) → silent m r r'.
Proof.
  intros [Hs Hst Ht Hv _ _ _ _] Hnl Hle Hc Hvv Hl Hp Hco Hdu. constructor; rewrite ?Hst, ?Ht; try done; try apply Hs.
  - intros Hcand. right. auto.
  - intros _. constructor; [by left|done|done|unfold voted; rewrite Hv, Ht; naive_solver|]. rewrite (sn_msgs _ _ Hs). by left.
Qed.

Lemma stamp_fields m r m' :
  stamp m r = Done m' →
  m_index m' = m_index m ∧ m_log_term m' = m_log_term m ∧ m_commit m' = m_commit m ∧
  m_commit_term m' = m_commit_term m ∧ m_entries m' = m_entries m ∧
  m_term m' = (if is_vote_msg (m_type m) then m_term m
               else match m_type m with MsgPropose | MsgReadIndex => m_term m | _ => r_term r end).
Proof.
  unfold stamp. intros E. apply bind_Done in E as (m1 & E1 & E).
  set (m0 := if m_from m =? INVALID_ID then set_m_from (r_id r) m else m) in *.
  assert (m_type m0 = m_type m ∧ m_index m0 = m_index m ∧ m_log_term m0 = m_log_term m ∧ m_commit m0 = m_commit m ∧
    m_commit_term m0 = m_commit_term m ∧ m_entries m0 = m_entries m ∧ m_term m0 = m_term m)
    as (Ht & Hi & Hl & Hc & Hct & He & Htm) by (unfold m0; by destruct (_ =? _)).
  rewrite <-Ht, <-Hi, <-Hl, <-Hc, <-Hct, <-He, <-Htm. clearbody m0. clear Ht Hi Hl Hc Hct He Htm m.
  destruct (m_type m0) eqn:Hty; simpl in E1;
    first [destruct (N.eqb_spec (m_term m0) 0); [done|]|destruct (negb _); [done|]]; injection E1 as <-; simpl in E; rewrite Hty in E.
  all: repeat case_match; injection E as <-; by rewrite ?Hty.
Qed.

Lemma courteous_innocuous r m m' :
  log_wf (r_raft_log r) → courteous r m → stamp m r = Done m' → innocuous r m'.
Proof.
  intros Hw Hc Hs. pose proof (lw_joined _ Hw) as Hj. pose proof (stamp_fields _ _ _ Hs) as (Hi & Hl & Hcm & Hct & _ & Htm).
  apply stamp_spec in Hs as (Hty & Hrj & _ & Hf & _). unfold innocuous, courteous in *. rewrite Hty, Hrj, Hi, Hl, Hcm, Hct, Hf, Htm.
  assert (∀ c t, commit_info (r_raft_log r) = Done (c, t) → known_commit (r_raft_log r) c t) as Hk by (intros *; by apply commit_info_known).
  assert (m_commit m = 0 → known_commit (r_raft_log r) (m_commit m) (m_commit_term m)) as Hk0.
  { intros ->. left. pose proof (first_pos _ Hj). lia. }
  destruct (m_type m); try done.
  - by destruct Hc.
  - destruct Hc as (Hfr & Hterm & Hli & Hlt & Hci). simpl. split_and!; [by apply Hk|by rewrite Hfr|specialize (Hterm eq_refl); lia|].
    intros _ _. by apply last_term_ends.
  - destruct Hc as [|]; auto.
  - destruct Hc as (_ & _ & _ & _ & Hci). by apply Hk.
  - destruct Hc as [|]; auto.
Qed.

#[export] Instance silent_base m : Base (silent m).
Proof.
  split; [apply _|..].
  - intros r r' [Hi Hs Ht Hv Hb Hl Hm Hp Ho _]. constructor; rewrite ?Hs, ?Ht, ?Hl; try done; [by left|].
    intros _. constructor; [left; by rewrite Hl|by rewrite Hl|by rewrite Hl|right; left; by rewrite Ht|rewrite Hm; by left].
  - intros r l Hl. apply silent_log; [by apply calm_read|]. intros Hw. pose proof (Hl (lw_joined _ Hw)) as Hsl.
    destruct (same_log_ents _ _ Hsl) as (_ & Hd & _). destruct Hsl as [_ _ _ _ _ Ec Ep _ _]. by split_and!; [left|..].
  - intros r a a' Ha Hs. constructor; simpl; try done; [by left|]. intros Hw. constructor; simpl; [by left|done|done|right; by left|].
    intros g [Hg|Hg]%elem_of_app; [by left|right]. apply list_elem_of_singleton in Hg as ->.
    by apply (courteous_innocuous r a a').
  - intros i r l E. apply silent_log; [by eapply calm_apply|]. intros _. unfold applied_to in E.
    destruct (i =? 0); [injection E as <-; by split; [left|]|]. destruct (_ || _); [done|]. injection E as <-. by split; [left|].
Qed.
#[export] Instance silent_downs m : Downs (silent m).
Proof.
  intros t lead r r' u Ht (Hb & _ & _ & _ & _ & Hl)%become_follower_spec.
  eapply silent_becomes; [exact Hb|done|done|done| |rewrite Hl; apply calm_limit|by rewrite Hl..].
  unfold vote_in. destruct (N.eqb_spec (r_term r) t); auto.
Qed.
#[export] Instance silent_follows m : m_type m ≠ MsgAppend → Follows (silent m) m.
Proof.
  intros Hm. split; try done.
  - intros r l Hty E. apply silent_log; [by eapply calm_commit_to|]. intros _. split.
    + destruct (commit_to_moves _ _ _ E); [by left|right]. by left.
    + unfold commit_to in E. destruct (_ <=? _); [by injection E as <-|]. apply bind_Done in E as (last & _ & E).
      destruct (_ <? _); [done|]. by injection E as <-.
  - intros i t r l b Hn E. apply silent_log; [by eapply calm_commit|]. intros Hw.
    destruct (maybe_commit_entry _ _ _ _ _ Hw E) as [Hl Hc]. rewrite Hl. split; [simpl|done].
    destruct Hc as [|(-> & e & He & Ht)]; [by left|]. right. right. exists e. split; [done|]. by rewrite Ht.
  - intros r Hty Ht Hg. constructor; simpl; try done; [by left|]. intros Hw. constructor; simpl; [by left|done|done| |by left].
    right. right. right. split_and!; [done..|]. simpl. unfold grant_vote in Hg. destruct (negb _); [done|].
    apply bind_Done in Hg as (up & Hup & Hg). destruct up; [|done]. by apply up_to_date_outdone; [apply Hw|].
Qed.
Lemma become_pre_candidate_silent m : keeps (silent m) (become_pre_candidate (S := S)).
Proof.
  intros r r' u [-> _]%become_pre_candidate_spec. constructor; try done.
  intros _. constructor; [by left|done|done|right; by left|by left].
Qed.
Lemma become_candidate_silent m : keeps (silent m) (become_candidate (S := S)).
Proof.
  intros r r' u (Hb & _ & Hl & _)%become_candidate_spec.
  eapply silent_becomes; [done|done|lia|lia| |by rewrite Hl..]. auto.
Qed.
(** The bookkeeping does not matter when the node is not a leader in the end. *)
Lemma silent_touched m p ro r r' :
  r_state r' ≠ Leader → silent m (set_r_read_only ro (set_r_prs p r)) r' → silent m r r'.
Proof.
  intros Hst [I T L C B E D]. constructor; try done. intros Hw. by destruct (D Hw).
Qed.
End silence.
