(* ===== verification/RaftAppends.v ===== *)
(** * Appends

    What a node does to its log and which appends it sends in one event: either it
    is [silent] (its log keeps its entries and it sends no append), or it [leads]
    (it only extends the log, with entries of its own term, and the appends it
    sends are slices of its log). *)
From S2P Require Import Prelude Errors Proto Util Quorum Storage Unstable ReadOnly Config.
From S2P Require Import Progress Tracker RaftLog RaftLogSpec RaftLogReads LogTotal LogFinal RaftState RaftSend RaftLogic.
From S2P Require Import RaftRole RaftStep RaftReset RaftTotal RaftEnds RaftWalk RaftSilent.
#[local] Open Scope N_scope.

Definition appends (ms : list Message) : list Message := filter (λ m, m_type m = MsgAppend) ms.
Lemma appends_app ms1 ms2 : appends (ms1 ++ ms2) = appends ms1 ++ appends ms2.
Proof. apply filter_app. Qed.
Lemma appends_other m : m_type m ≠ MsgAppend → appends [m] = [].
Proof. intros Hm. unfold appends. by rewrite filter_cons_False, filter_nil. Qed.

(** The entries of [g] are what follows position [m_index g] in the log [L], which
    begins at position 1, and the term it names is the one of that position. A
    message without entries says nothing. *)
Definition slice_of (L : list Entry) (g : Message) : Prop :=
  m_entries g = [] ∨
  (m_entries g `prefix_of` drop (N.to_nat (m_index g)) L ∧
   (m_index g = 0 ∨ ∃ e, L !! (N.to_nat (m_index g) - 1)%nat = Some e ∧ e_term e = m_log_term g)).

Lemma slice_of_mono L L' g : L `prefix_of` L' → slice_of L g → slice_of L' g.
Proof.
  intros [k ->] [Hn|[Hp Hprev]]; [by left|]. destruct (decide (m_entries g = [])) as [|Hne]; [by left|]. right. split.
  - rewrite drop_app. by apply prefix_app_r.
  - destruct Hprev as [|(e & He & Ht)]; [by left|right]. exists e. split; [by apply lookup_app_l_Some|done].
Qed.

Section appends.
Context {S : Type} `{StorageLaws S, PbMessage, HashOrder, Rng, ConfChangeCodec}.
Implicit Types r : Raft S.

(** ** Replication *)

(** Why a peer gets a snapshot: it has asked for one, or what it needs is gone. *)
Definition needs_snapshot (l : RaftLog S) (pr : Progress) : Prop :=
  pr_pending_request_snapshot pr ≠ 0 ∨ pr_next_idx pr < first l ∨ dummy l = None.
(** What [maybe_send_append] does when appends are not batched. *)
Inductive replicated (to : u64) (pr : Progress) r : Raft S → Progress → bool → Prop :=
  | rp_nothing l : same_log (r_raft_log r) l → replicated to pr r (set_r_raft_log l r) pr false
  | rp_snapshot l g pr' : same_log (r_raft_log r) l → needs_snapshot (r_raft_log r) pr → m_type g = MsgSnapshot →
      pr_state pr' = Snapshot → pr_matched pr' = pr_matched pr →
      replicated to pr r (set_r_msgs (r_msgs r ++ [g]) (set_r_raft_log l r)) pr' true
  | rp_entries l g pr' max ctx : same_log (r_raft_log r) l →
      m_type g = MsgAppend → m_to g = to → m_term g = r_term r → m_commit g = l_committed (r_raft_log r) →
      1 ≤ pr_next_idx pr → m_index g = pr_next_idx pr - 1 → log_term (r_raft_log r) (m_index g) = Ok (m_log_term g) →
      RaftLog.entries (pr_next_idx pr) max ctx (r_raft_log r) = Done (l, Ok (m_entries g)) →
      match last (m_entries g) with Some e => update_state (e_index e) pr = Done pr' | None => pr' = pr end →
      replicated to pr r (set_r_msgs (r_msgs r ++ [g]) (set_r_raft_log l r)) pr' true.

Lemma set_r_raft_log_id r : set_r_raft_log (r_raft_log r) r = r.
Proof. by destruct r. Qed.
Lemma replicated_nothing to pr r : joined (r_raft_log r) → replicated to pr r r pr false.
Proof. intros Hj. rewrite <-(set_r_raft_log_id r) at 2. apply rp_nothing, same_log_refl, Hj. Qed.
Lemma send_snapshot_instead_replicates m pr to r l r' pr' sent :
  joined (r_raft_log r) → same_log (r_raft_log r) l → needs_snapshot (r_raft_log r) pr →
  send_snapshot_instead m pr to (set_r_raft_log l r) = Done (r', (pr', sent)) → replicated to pr r r' pr' sent.
Proof.
  intros Hj Hl Hns E. pose proof (same_log_joined _ _ Hl Hj) as Hj1. unfold send_snapshot_instead, prepare_send_snapshot in E.
  apply rm_bind_Done in E as (r1 & [[m' p'] ok] & E1 & E). destruct (negb (pr_recent_active pr)).
  { apply rm_ret_Done in E1 as [-> [= -> -> ->]]. apply rm_ret_Done in E as [-> [= -> ->]]. by apply rp_nothing. }
  apply rm_bind_Done in E1 as (r2 & sn & E2 & E1). apply rm_with_log_Done in E2 as (l2 & El & ->).
  assert (same_log (r_raft_log r) l2) as Hl2.
  { pose proof (snapshot_reads (pr_pending_request_snapshot pr) to _ Hj1) as Hs. simpl in El. rewrite El in Hs.
    by eapply same_log_trans. }
  destruct sn as [sn|err]; [destruct (_ =? 0) in E1; [done|]|destruct (Error_eq _ _) in E1; [|done]];
    apply rm_ret_Done in E1 as [-> [= -> -> ->]]; simpl in E.
  - apply rm_bind_Done in E as (r3 & [] & (g & Hg & ->)%send_spec & E). apply rm_ret_Done in E as [-> [= -> ->]].
    apply stamp_spec in Hg as (Hty & _). by apply (rp_snapshot to pr r l2).
  - apply rm_ret_Done in E as [-> [= -> ->]]. by apply (rp_nothing to pr r l2).
Qed.
Lemma entries_error i max ctx (l l' : RaftLog S) e :
  joined l → RaftLog.entries i max ctx l = Done (l', Err e) → i < first l ∨ e = Store LogTemporarilyUnavailable.
Proof.
  intros Hj E. unfold RaftLog.entries in E. apply bind_Done in E as (n & _ & E). destruct (_ <? _); [done|].
  apply bind_Done in E as (hi & _ & E). by eapply slice_error.
Qed.
Lemma log_term_error (l : RaftLog S) i e : joined l → log_term l i = Err e → i + 1 < first l ∨ dummy l = None.
Proof.
  intros Hj E. pose proof (first_pos l Hj). unfold log_term in E. destruct (N.ltb_spec i (first l - 1)); [left; lia|].
  destruct (_ <=? _); [done|]. destruct (_ =? _); [right; by destruct (dummy l)|]. by destruct (_ !! _).
Qed.
Lemma maybe_send_append_replicates to pr b r r' pr' sent :
  joined (r_raft_log r) → r_batch_append r = false →
  maybe_send_append to pr b r = Done (r', (pr', sent)) → replicated to pr r r' pr' sent.
Proof.
  intros Hj Hb E. unfold maybe_send_append in E. destruct (is_paused pr).
  { apply rm_ret_Done in E as [-> [= -> ->]]. by apply replicated_nothing. }
  destruct (N.eqb_spec (pr_pending_request_snapshot pr) INVALID_INDEX) as [|Hpd]; cbn [negb] in E; cycle 1.
  { rewrite <-(set_r_raft_log_id r) in E. eapply send_snapshot_instead_replicates; [done|apply same_log_refl, Hj|by left|exact E]. }
  apply rm_bind_Done in E as (r1 & max & [-> ->]%rm_gets_Done & E).
  apply rm_bind_Done in E as (r1 & t & [-> ->]%rm_gets_Done & E).
  apply rm_bind_Done in E as (r1 & es & E1 & E). apply rm_with_log_Done in E1 as (l & El & ->).
  assert (same_log (r_raft_log r) l) as Hl.
  { pose proof (entries_reads (pr_next_idx pr) (Some (r_max_msg_size r)) (SendAppend to (r_term r) (negb b)) _ Hj) as Hs.
    rewrite El in Hs. exact Hs. }
  pose proof (same_log_joined _ _ Hl Hj) as Hj1.
  destruct (_ && _); [apply rm_ret_Done in E as [-> [= -> ->]]; by apply rp_nothing|].
  apply rm_bind_Done in E as (r2 & prev & [-> [Hprev ->]%sub64_Done]%rm_lift_Done & E).
  apply rm_bind_Done in E as (r2 & term & [-> Ht]%rm_asks_Done & E). simpl in Ht.
  destruct term as [t|terr]; [destruct es as [es|err]|]; cycle 1.
  { destruct (decide (err = Store LogTemporarilyUnavailable)) as [->|Hne]; [apply rm_ret_Done in E as [-> [= -> ->]]; by apply rp_nothing|].
    eapply send_snapshot_instead_replicates; [done|exact Hl| |by repeat case_match]. right. left.
    destruct (entries_error _ _ _ _ _ _ Hj El); [done|by destruct Hne]. }
  { assert (needs_snapshot (r_raft_log r) pr) as Hns.
    { right. rewrite term_spec in Ht by done. injection Ht as Ht. destruct (same_log_ents _ _ Hl) as (Hf1 & Hd & He1 & _).
      apply log_term_error in Ht; [|done]. rewrite Hf1, Hd in Ht. destruct Ht; [left; lia|by right]. }
    destruct es as [es|err']; [by eapply send_snapshot_instead_replicates|].
    destruct (decide (err' = Store LogTemporarilyUnavailable)) as [->|]; [apply rm_ret_Done in E as [-> [= -> ->]]; by apply rp_nothing|].
    eapply send_snapshot_instead_replicates; [done|exact Hl|done|by repeat case_match]. }
  apply rm_bind_Done in E as (r2 & batch & [-> ->]%rm_gets_Done & E). simpl in E. rewrite Hb in E.
  apply rm_bind_Done in E as (r2 & [pr1 b1] & [-> E1]%rm_ret_Done & E). injection E1 as -> ->.
  apply rm_bind_Done in E as (r2 & [m pr1] & Hm & E). unfold prepare_send_entries in Hm.
  apply rm_bind_Done in Hm as (r3 & i & [-> [_ ->]%sub64_Done]%rm_lift_Done & Hm).
  apply rm_bind_Done in Hm as (r3 & c & [-> ->]%rm_gets_Done & Hm).
  assert (r2 = set_r_raft_log l r ∧ m = set_m_commit (l_committed l) (set_m_entries es (set_m_log_term t
    (set_m_index (pr_next_idx pr - 1) (set_m_type MsgAppend (set_m_to to Message_default))))) ∧
    match last es with Some e => update_state (e_index e) pr = Done pr1 | None => pr1 = pr end) as (-> & -> & Hpr).
  { destruct (last es); [apply rm_bind_Done in Hm as (r3 & pr2 & [-> Hu]%rm_lift_Done & Hm)|];
      by apply rm_ret_Done in Hm as [-> [= -> ->]]. }
  apply rm_bind_Done in E as (r2 & [] & (g & Hg & ->)%send_spec & [-> [= -> ->]]%rm_ret_Done).
  pose proof (stamp_fields _ _ _ Hg) as (Hi & Hlt & Hc & _ & He & Htm). apply stamp_spec in Hg as (Hty & _ & Hto & _).
  simpl in *. rewrite term_spec in Ht by done. injection Ht as Ht. destruct (same_log_ents _ _ Hl) as (Hf1 & Hd & He1 & Hend).
  eapply (rp_entries to pr r l g); simpl; rewrite ?He, ?Hi, ?Hlt; try done; [by rewrite Hc, (sl_committed _ _ Hl)|].
  unfold log_term in *. by rewrite <-Ht, Hf1, He1, Hend, Hd.
Qed.

(** ** Leading *)

Record leads r r' : Prop := {
  le_id : r_id r' = r_id r;
  le_term : r_term r' = r_term r;
  le_vote : r_vote r' = r_vote r;
  le_state : r_state r' = r_state r;
  le_batch : r_batch_append r' = r_batch_append r;
  le_log : joined (r_raft_log r) → joined (r_raft_log r') ∧ first (r_raft_log r') = first (r_raft_log r) ∧
    ∃ es, ents (r_raft_log r') = ents (r_raft_log r) ++ es ∧ Forall (λ e, e_term e = r_term r) es;
  le_msgs : joined (r_raft_log r) → first (r_raft_log r) = 1 → r_batch_append r = false →
    ∀ g, g ∈ appends (r_msgs r') → g ∈ appends (r_msgs r) ∨ (m_term g = r_term r ∧ slice_of (ents (r_raft_log r')) g) }.

#[export] Instance leads_preorder : PreOrder leads.
Proof.
  split.
  - intros r. constructor; try done; [|by left]. intros Hj. split_and!; [done..|]. exists []. by rewrite app_nil_r.
  - intros r1 r2 r3 [I1 T1 V1 S1 B1 L1 M1] [I2 T2 V2 S2 B2 L2 M2]. constructor; try congruence.
    + intros Hj. destruct (L1 Hj) as (Hj2 & F1 & es1 & E1 & Ht1). destruct (L2 Hj2) as (Hj3 & F2 & es2 & E2 & Ht2).
      split_and!; [done|congruence|]. exists (es1 ++ es2). rewrite E2, E1, app_assoc. split; [done|].
      apply Forall_app. split; [done|]. by rewrite <-T1.
    + intros Hj Hf Hb g Hg. destruct (L1 Hj) as (Hj2 & F1 & es1 & E1 & _). destruct (L2 Hj2) as (Hj3 & F2 & es2 & E2 & _).
      destruct (M2 Hj2 ltac:(congruence) ltac:(congruence) g Hg) as [Hg2|[Ht Hs]]; [|right; split; [congruence|done]].
      destruct (M1 Hj Hf Hb g Hg2) as [|[Ht Hs]]; [by left|right]. split; [done|].
      eapply slice_of_mono; [|done]. rewrite E2. by apply prefix_app_r.
Qed.
Lemma leads_quiet r r' :
  r_id r' = r_id r → r_term r' = r_term r → r_vote r' = r_vote r → r_state r' = r_state r → r_batch_append r' = r_batch_append r →
  same_ents (r_raft_log r) (r_raft_log r') → appends (r_msgs r') = appends (r_msgs r) → leads r r'.
Proof.
  intros Hi Ht Hv Hs Hb Hl Hm. constructor; try done.
  - intros Hj. destruct (Hl Hj) as (Hj' & Hf & He). split_and!; [done..|]. exists []. by rewrite app_nil_r.
  - intros _ _ _ g. rewrite Hm. by left.
Qed.
Lemma leads_says r m m' : m_type m ≠ MsgAppend → stamp m r = Done m' → leads r (set_r_msgs (r_msgs r ++ [m']) r).
Proof.
  intros Hm Hs. apply leads_quiet; try done. simpl.
  rewrite appends_app, appends_other, app_nil_r; [done|]. apply stamp_spec in Hs as (-> & _). done.
Qed.
#[export] Instance leads_base : Base leads.
Proof.
  split; [apply _|..].
  - intros r r' [Hi Hs Ht Hv Hb Hl Hm _ _ _]. apply leads_quiet; try done; [by rewrite Hl|by rewrite Hm].
  - intros r l Hl. apply leads_quiet; try done. by apply same_ents_read.
  - intros r m m' Hm Hs. apply (leads_says r m); [|done]. intros Hty. unfold courteous in Hm. by rewrite Hty in Hm.
  - intros i r l E. apply leads_quiet; try done. by eapply same_ents_apply.
Qed.
#[export] Instance leads_peers : Peers leads.
Proof. split; intros; by apply leads_quiet. Qed.
#[export] Instance leads_reconfigures : Reconfigures leads.
Proof. intros r p. by apply leads_quiet. Qed.
Lemma append_entry_leads es : keeps leads (append_entry (S := S) es).
Proof.
  intros r r' b (us & l & -> & Hl)%append_entry_spec. destruct b; [|destruct Hl as [_ ->]; by apply leads_quiet].
  destruct Hl as (_ & li & es' & i & Hli & Hn & Ha). constructor; try done; simpl; [|by left].
  intros Hj. destruct (append_end es' (r_raft_log r) l i) as (Hj' & He & Hf & _); [done|by eapply numbered_end|done|].
  split_and!; [done..|]. exists es'. split; [done|]. by eapply number_entries_term.
Qed.

(** What [maybe_send_append] sends is a slice of the log. *)
Lemma entries_prefix i max ctx l l' es :
  joined l → first l = 1 → 1 ≤ i → RaftLog.entries i max ctx l = Done (l', Ok es) →
  es = [] ∨ (i < log_end l ∧ es `prefix_of` drop (N.to_nat (i - 1)) (ents l)).
Proof.
  intros Hj Hf Hi E. unfold RaftLog.entries in E. rewrite last_index_spec in E by done. cbn [mbind outcome_bind] in E.
  destruct (N.ltb_spec (log_end l - 1) i); [left; by simplify_eq|right].
  apply bind_Done in E as (hi & [_ ->]%add64_Done & E). apply slice_prefix in E; [|done].
  pose proof (first_pos l Hj). pose proof (first_le_end l). split; [lia|]. rewrite Hf in E. unfold range in E.
  etrans; [exact E|]. apply prefix_take.
Qed.
(** The entries from position [i] on, with the term before them. *)
Lemma honest_slice i max ctx l l' es g :
  joined l → first l = 1 → 1 ≤ i → RaftLog.entries i max ctx l = Done (l', Ok es) →
  log_term l (i - 1) = Ok (m_log_term g) → m_entries g = es → m_index g = i - 1 → slice_of (ents l) g.
Proof.
  intros Hj Hf Hi E Ht He Hix. destruct (entries_prefix _ _ _ _ _ _ Hj Hf Hi E) as [Hn|[Hlt Hp]]; [left; congruence|right].
  rewrite He, Hix. split; [done|]. destruct (N.eq_dec (i - 1) 0); [by left|right].
  unfold log_term in Ht. rewrite Hf in Ht. case_bools.
  replace (N.to_nat (i - 1) - 1)%nat with (N.to_nat (i - 1 - 1)) by lia.
  destruct (ents l !! _) as [e|] eqn:Hl; [exists e; split; [done|congruence]|].
  apply lookup_ge_None in Hl. unfold log_end, len in *. lia.
Qed.
Lemma replicated_leads to pr r r' pr' sent : joined (r_raft_log r) → replicated to pr r r' pr' sent → leads r r'.
Proof.
  intros Hj [l Hl|l g p Hl Hns Hty Hst Hma|l g p max ctx Hl Hty Hto Htm Hc Hn Hi Hlt Hes Hp].
  - apply leads_quiet; try done. by apply same_ents_read.
  - apply leads_quiet; try done; [by apply same_ents_read|]. simpl. by rewrite appends_app, appends_other, app_nil_r by by rewrite Hty.
  - destruct (same_log_ents _ _ Hl) as (Hf1 & _ & He1 & _). constructor; try done; simpl.
    + intros _. split_and!; [by apply (same_log_joined (r_raft_log r))|done|]. exists []. by rewrite app_nil_r.
    + intros _ Hf _ g'. rewrite appends_app. intros [Hg'|Hg']%elem_of_app; [by left|right].
      unfold appends in Hg'. apply list_elem_of_filter in Hg' as [_ ->%list_elem_of_singleton]. split; [done|].
      rewrite He1. eapply honest_slice; [exact Hj|done|exact Hn|exact Hes|by rewrite <-Hi|done|done].
Qed.
Lemma maybe_send_append_leads to pr b : keeps leads (maybe_send_append (S := S) to pr b).
Proof.
  intros r r' [pr' sent] E.
  pose proof (maybe_send_append_sends to pr b _ _ _ E) as (st & p & ms & rs & ro & Hr' & _).
  pose proof (maybe_send_append_quiet to pr b _ _ _ E) as Hq.
  assert (joined (r_raft_log r) → r_batch_append r = false → leads r r') as Hrep.
  { intros Hj Hb. eapply replicated_leads; [done|]. by eapply maybe_send_append_replicates. }
  constructor; try (by rewrite Hr').
  - intros Hj. destruct (same_ents_read _ _ Hq Hj) as (Hj' & Hf & He). split_and!; [done..|]. exists []. by rewrite app_nil_r.
  - intros Hj Hf Hb. by apply Hrep.
Qed.
#[export] Instance leads_serves : Serves leads.
Proof.
  split; [apply _|apply append_entry_leads|apply maybe_send_append_leads|..].
  - intros r m m' Hm Hs. apply (leads_says r m); [|done]. by destruct Hm as [->| ->].
  - intros i t r l b E. apply leads_quiet; try done. by eapply same_ents_commit.
  - intros i t r l b E. apply leads_quiet; try done. by eapply same_ents_persist.
Qed.
End appends.
