(* ===== verification/RaftEffect.v ===== *)
(** * The effect of one event

    What one event does to a node, as far as the logs of a cluster are concerned:
    nothing, leading, winning an election, or accepting an append. *)
From S2P Require Import Prelude Errors Proto Util Quorum Storage Unstable ReadOnly Config.
From S2P Require Import Progress Tracker RaftLog RaftLogSpec RaftLogReads LogTotal LogFinal RaftState RaftSend RaftLogic.
From S2P Require Import RaftRole RaftStep RaftReset RaftElect RaftCluster RaftTotal RaftEnds RaftWalk RaftFinal RaftSilent RaftAppends.
#[local] Open Scope N_scope.

Section effect.
Context {S : Type} `{StorageLaws S, PbMessage, HashOrder, Rng, ConfChangeCodec}.
Implicit Types r : Raft S.

(** A candidate becomes leader and begins to lead. *)
Definition elected (m : Message) r r' : Prop :=
  ∃ r1 r2, silent m r r1 ∧ r_state r1 = Candidate ∧ become_leader r1 = Done (r2, ()) ∧ bcast_append r2 = Done (r', ()).

(** Message [m] is an append of the current term and is answered by [g]: with the
    commit index if it begins below it, else with the outcome of [maybe_append]. *)
Definition answered (m : Message) r r' : Prop :=
  ∃ r1 l g, m_type m = MsgAppend ∧ silent m r r1 ∧ r_term r1 = m_term m ∧ r_state r1 = Follower ∧
    r' = set_r_msgs (r_msgs r1 ++ [g]) (set_r_raft_log l r1) ∧
    m_type g = MsgAppendResponse ∧ m_from g = r_id r ∧ m_term g = r_term r1 ∧
    ((l = r_raft_log r1 ∧ m_index m < l_committed l ∧ m_index g = l_committed l) ∨
     (∃ res, maybe_append (m_index m) (m_log_term m) (m_commit m) (m_entries m) (r_raft_log r1) = Done (l, res) ∧
        match res with Some (_, last) => m_index g = last | None => m_reject g = true end)).

(** A report that entries have been persisted, to a node that does not lead. *)
Definition noted (i t : u64) r r' : Prop :=
  r_state r ≠ Leader ∧ ∃ l b, maybe_persist i t (r_raft_log r) = Done (l, b) ∧ r' = set_r_raft_log l r.

(** The pieces of a leader's work. *)
Inductive labor (m : Message) r r' : Prop :=
  | lb_same : untouched r r' → labor m r r'
  | lb_step res : m_type m ≠ MsgCheckQuorum → (m_type m = MsgAppendResponse → m_term m ≠ 0 → r_term r = m_term m) →
      step_leader m r = Done (r', res) → labor m r r'
  | lb_beat ctx : bcast_heartbeat_with_ctx ctx r = Done (r', ()) → labor m r r'
  | lb_check b : check_quorum_active r = Done (r', b) → labor m r r'
  | lb_apply i : commit_apply i r = Done (r', ()) → labor m r r'.

Inductive effect (m : Message) r r' : Prop :=
  | ef_silent : silent m r r' → effect m r r'
  | ef_leads : r_state r = Leader → rtc (labor m) r r' → effect m r r'
  | ef_conf cc res : r_state r = Leader → apply_conf_change cc r = Done (r', res) → effect m r r'
  | ef_elected : elected m r r' → effect m r r'
  | ef_answered : answered m r r' → effect m r r'.

Lemma labor_leads m r r' : labor m r r' → leads r r'.
Proof.
  intros [Hu|res Hm _ E|ctx E|b E|i E].
  - by apply (ba_same (R := leads)).
  - by eapply (leader_walks leads).
  - by eapply (bcast_heartbeat_walks leads).
  - by eapply (check_quorum_active_walks leads).
  - by eapply (commit_apply_walks leads).
Qed.
Lemma labors_leads m r r' : rtc (labor m) r r' → leads r r'.
Proof. induction 1 as [|r1 r2 r3 Hl _ IH]; [done|]. transitivity r2; [by eapply labor_leads|done]. Qed.
Lemma silent_elected m r r1 r' : silent m r r1 → elected m r1 r' → elected m r r'.
Proof. intros Hs (r2 & r3 & Hs2 & Hst & Hl & Hle). exists r2, r3. split_and!; try done. by transitivity r1. Qed.
Lemma elected_leads m r r' : elected m r r' →
  ∃ r1 r2, silent m r r1 ∧ r_state r1 = Candidate ∧ become_leader r1 = Done (r2, ()) ∧ leads r2 r'.
Proof. intros (r1 & r2 & ? & ? & ? & E). exists r1, r2. split_and!; [done..|]. by eapply (bcast_append_walks leads). Qed.
Lemma elected_leader m r r' : elected m r r' → r_state r' = Leader.
Proof. intros (r1 & r2 & _ & _ & ([_ Hst _ _ _ _ _ _] & _)%become_leader_spec & Hl)%elected_leads. by rewrite (le_state _ _ Hl). Qed.

(** ** Elections *)
Definition maybe_elected (m : Message) (r r' : Raft S) : Prop := silent m r r' ∨ elected m r r'.
Lemma silent_maybe m r r1 r' : silent m r r1 → maybe_elected m r1 r' → maybe_elected m r r'.
Proof. intros Hs [Hs'|He]; [left; by transitivity r1|right; by eapply silent_elected]. Qed.

Ltac leaf := solve [apply (ba_same (R := silent _)); by constructor].
Lemma silent_votes m p r : r_state r ≠ Leader → silent m r (set_r_prs p r).
Proof. intros Hst. apply (silent_touched m p (r_read_only r)); [done|]. leaf. Qed.
Lemma poll_with_elected m again from v r r' res :
  (∀ r1 r2 u, again r1 = Done (r2, u) → maybe_elected m r1 r2) →
  r_state r = Candidate ∨ r_state r = PreCandidate → poll_with again from v r = Done (r', res) →
  silent m r r' ∨ (res = Won ∧ elected m r r').
Proof.
  intros Ha Hst E. unfold poll_with in E. apply rm_bind_Done in E as (r1 & [] & ->%rm_modify_Done & E).
  set (r1 := set_r_prs _ r) in E.
  assert (silent m r r1) as Hs1 by (apply silent_votes; destruct Hst as [->| ->]; done).
  apply rm_bind_Done in E as (r2 & [[g b] res'] & [-> _]%rm_asks_Done & E).
  apply rm_bind_Done in E as (r2 & [] & E1 & E). apply rm_ret_Done in E as [-> ->]. destruct res'.
  - left. transitivity r1; [done|]. by apply rm_ret_Done in E1 as [-> _].
  - left. transitivity r1; [done|]. by eapply (step_down_walks (silent m)).
  - apply rm_bind_Done in E1 as (r3 & st & [-> ->]%rm_gets_Done & E1). case_bool_decide as Hp.
    + apply Ha in E1 as [Hs|He]; [left; by transitivity r1|right; split; [done|by eapply silent_elected]].
    + right. split; [done|]. apply rm_bind_Done in E1 as (r3 & [] & El & E1). exists r1, r3. split_and!; try done.
      simpl in *. destruct Hst; [done|congruence].
Qed.
Lemma campaign_elected m depth ty r r' u : campaign_at depth ty r = Done (r', u) → maybe_elected m r r'.
Proof.
  revert ty r r' u. induction depth as [|depth IH]; intros ty r r' u E; [done|]. cbn [campaign_at] in E.
  apply rm_bind_Done in E as (r1 & [vm t] & E1 & E). pose proof (campaign_message _ _ _ _ _ E1) as Hvm.
  assert (silent m r r1 ∧ (r_state r1 = Candidate ∨ r_state r1 = PreCandidate)) as (Hs & Hst).
  { destruct (bool_decide (ty = CAMPAIGN_PRE_ELECTION)) in E1.
    - apply rm_bind_Done in E1 as (r2 & [] & Ec & E1). apply rm_bind_Done in E1 as (r3 & t' & [-> _]%rm_asks_Done & E1).
      apply rm_ret_Done in E1 as [-> _]. split; [by eapply become_pre_candidate_silent|].
      apply become_pre_candidate_spec in Ec as [-> _]. by right.
    - apply rm_bind_Done in E1 as (r2 & [] & Ec & E1). apply rm_bind_Done in E1 as (r3 & t' & [-> _]%rm_gets_Done & E1).
      apply rm_ret_Done in E1 as [-> _]. split; [by eapply become_candidate_silent|].
      apply become_candidate_spec in Ec as ([_ Hst _ _ _ _ _ _] & _). by left. }
  eapply silent_maybe; [done|]. apply rm_bind_Done in E as (r2 & i & [-> ->]%rm_gets_Done & E).
  apply rm_bind_Done in E as (r2 & res & Hp & E). pose proof (poll_term _ _ _ _ _ _ Hp) as Ht.
  apply (poll_with_elected m) in Hp; [|intros *; apply IH|done].
  destruct Hp as [Hs2|[-> He]]; [|right; by apply rm_ret_Done in E as [-> _]].
  left. transitivity r2; [done|]. case_bool_decide; [by apply rm_ret_Done in E as [-> _]|].
  apply rm_bind_Done in E as (r3 & [c ct] & [-> Hc]%rm_asks_Done & E). apply rm_bind_Done in E as (r3 & ids & [-> ->]%rm_gets_Done & E).
  eapply (request_votes_walks (silent m)); [|exact Hc|exact E]. rewrite Ht by done. destruct Hvm as [->|(-> & -> & _)]; auto.
Qed.
Lemma hup_elected m b r r' u : hup b r = Done (r', u) → maybe_elected m r r'.
Proof.
  intros E. unfold hup in E. apply rm_bind_Done in E as (r1 & st & [-> ->]%rm_gets_Done & E).
  case_bool_decide; [left; by apply rm_ret_Done in E as [-> _]|].
  apply rm_bind_Done in E as (r1 & lo & [-> _]%rm_asks_Done & E). apply rm_bind_Done in E as (r1 & hi & [-> _]%rm_asks_Done & E).
  apply rm_bind_Done in E as (r1 & p & Hs%(has_unapplied_walks (silent m)) & E). eapply silent_maybe; [done|].
  destruct p; [left; by apply rm_ret_Done in E as [-> _]|].
  apply rm_bind_Done in E as (r2 & pv & [-> ->]%rm_gets_Done & E). by eapply campaign_elected.
Qed.

(** ** Messages *)
Lemma maybe_effect m r r1 r' : silent m r r1 → maybe_elected m r1 r' → effect m r r'.
Proof. intros Hs Hm. destruct (silent_maybe _ _ _ _ Hs Hm); [by apply ef_silent|by apply ef_elected]. Qed.
Lemma append_term m r r' :
  m_type m = MsgAppend ∨ m_type m = MsgAppendResponse → m_term m ≠ 0 → step_term m r = Done (r', true) → r_term r' = m_term m.
Proof.
  intros Hty Hne E. unfold step_term in E. apply rm_bind_Done in E as (r1 & self & [-> ->]%rm_gets_Done & E).
  unfold id in E. rewrite (proj2 (N.eqb_neq _ _)) in E by done.
  destruct (N.ltb_spec (r_term r) (m_term m)).
  - destruct Hty as [Hty|Hty]; rewrite Hty in E; simpl in E; apply rm_bind_Done in E as (r1 & [] & ([_ _ Ht _ _ _ _ _] & _)%become_follower_spec & E);
      by apply rm_ret_Done in E as [-> _].
  - destruct (N.ltb_spec (m_term m) (r_term r)); [by apply rm_bind_Done in E as (r1 & [] & _ & [_ ?]%rm_ret_Done)|].
    apply rm_ret_Done in E as [-> _]. lia.
Qed.
Lemma answer_from m r r1 a g l :
  silent m r r1 → m_from a = INVALID_ID → m_type a = MsgAppendResponse → stamp a (set_r_raft_log l r1) = Done g →
  m_type g = MsgAppendResponse ∧ m_from g = r_id r ∧ m_term g = r_term r1 ∧ m_index g = m_index a ∧ m_reject g = m_reject a.
Proof.
  intros Hs Hf Hty Hg. pose proof (stamp_fields _ _ _ Hg) as (Hi & _ & _ & _ & _ & Htm).
  apply stamp_spec in Hg as (Ht & Hrj & _ & Hfr & _). rewrite Hty in Htm, Ht. rewrite Hf in Hfr. simpl in *.
  split_and!; [done| |done..]. rewrite Hfr. apply Hs.
Qed.
Lemma answer_append_spec m r r' a :
  answer_append m r = Done (r', a) → ∃ l res, r' = set_r_raft_log l r ∧
    maybe_append (m_index m) (m_log_term m) (m_commit m) (m_entries m) (r_raft_log r) = Done (l, res) ∧
    m_type a = MsgAppendResponse ∧ m_from a = INVALID_ID ∧
    match res with Some (_, last) => m_index a = last | None => m_reject a = true end.
Proof.
  intros E. unfold answer_append in E. apply rm_bind_Done in E as (r2 & res & El & E).
  apply rm_with_log_Done in El as (l & El & ->). exists l, res. destruct res as [[ci li]|].
  - by apply rm_ret_Done in E as [-> ->].
  - apply rm_bind_Done in E as (r2 & last & [-> _]%rm_asks_Done & E).
    apply rm_bind_Done in E as (r2 & [hi ht] & [-> _]%rm_asks_Done & E). destruct ht; [|done].
    by apply rm_ret_Done in E as [-> ->].
Qed.
Lemma append_effect m r r1 r' u :
  m_type m = MsgAppend → r_state r1 = Follower → r_term r1 = m_term m → silent m r r1 →
  handle_append_entries m r1 = Done (r', u) → effect m r r'.
Proof.
  intros Hty Hst Ht Hs E. unfold handle_append_entries in E. apply rm_bind_Done in E as (r2 & p & [-> ->]%rm_gets_Done & E).
  apply rm_bind_Done in E as (r2 & c & [-> ->]%rm_gets_Done & E).
  destruct (negb _); [apply ef_silent; transitivity r1; [done|]; by eapply (send_request_snapshot_walks (silent m))|].
  apply ef_answered. destruct (N.ltb_spec (m_index m) (l_committed (r_raft_log r1))).
  - apply send_spec in E as (g & Hg & ->). rewrite <-(set_r_raft_log_id r1) in Hg.
    eapply (answer_from m r) in Hg as (? & ? & ? & Hi & _); [|exact Hs|done|done].
    exists r1, (r_raft_log r1), g. rewrite set_r_raft_log_id. split_and!; try done. left. split_and!; [done..|exact Hi].
  - apply rm_bind_Done in E as (r2 & a & (l & res & -> & El & Hta & Hfa & Hres)%answer_append_spec & E).
    apply rm_bind_Done in E as (r2 & c & [-> ->]%rm_gets_Done & E). apply send_spec in E as (g & Hg & ->).
    eapply (answer_from m r) in Hg as (? & ? & ? & Hi & Hrj); [|exact Hs|done|done]. simpl in Hi, Hrj.
    exists r1, l, g. split_and!; try done. right. exists res. split; [done|]. destruct res as [[ci li]|]; congruence.
Qed.
Lemma maybe_commit_by_vote_leader m r r' u : r_state r = Leader → maybe_commit_by_vote m r = Done (r', u) → r' = r.
Proof.
  intros Hst E. unfold maybe_commit_by_vote in E. destruct (_ || _); [by inv_rm|].
  apply rm_bind_Done in E as (r1 & c & [-> ->]%rm_gets_Done & E). apply rm_bind_Done in E as (r1 & st & [-> ->]%rm_gets_Done & E).
  rewrite Hst in E. rewrite (bool_decide_eq_true_2 (Leader = Leader)), orb_true_r in E by done. by inv_rm.
Qed.
Lemma vote_response_effect m r r' res :
  is_vote_msg (m_type m) = true →
  r_state r = Candidate ∨ r_state r = PreCandidate → handle_vote_response m r = Done (r', res) → effect m r r'.
Proof.
  intros Hv Hst E. unfold handle_vote_response, ok_, poll in E.
  apply rm_bind_Done in E as (r1 & st & [-> ->]%rm_gets_Done & E).
  destruct (_ || _); [apply ef_silent; by apply rm_ret_Done in E as [-> _]|].
  apply rm_bind_Done in E as (r1 & res1 & Hp & E). apply rm_bind_Done in E as (r2 & [] & Hc & [-> _]%rm_ret_Done).
  apply (poll_with_elected m) in Hp as [Hs|[_ He]]; [| |intros *; apply campaign_elected|done].
  - apply ef_silent. transitivity r1; [done|]. pose proof (silent_follows m ltac:(by destruct (m_type m))).
    by eapply (maybe_commit_by_vote_walks (silent m) m).
  - apply maybe_commit_by_vote_leader in Hc as ->; [by apply ef_elected|by eapply elected_leader].
Qed.

Lemma step_candidate_effect m r r' res :
  r_state r = Candidate ∨ r_state r = PreCandidate → m_type m ≠ MsgSnapshot →
  step_candidate m r = Done (r', res) → effect m r r'.
Proof.
  intros Hst Hns E. unfold step_candidate, ok_ in E. pose proof (follow_sender_walks (silent m) m) as Hfs.
  destruct (decide (m_type m = MsgAppend)) as [Hty|Hna].
  { rewrite Hty in E. apply rm_bind_Done in E as (r1 & [] & Ef & E). apply rm_bind_Done in E as (r2 & [] & E & [-> _]%rm_ret_Done).
    pose proof (Hfs _ _ _ Ef) as Hs. unfold follow_sender in Ef.
    apply rm_bind_Done in Ef as (r2' & [] & [-> _]%rm_asks_Done & ([_ Hst1 Ht1 _ _ _ _ _] & _)%become_follower_spec).
    by eapply append_effect. }
  pose proof (silent_follows m Hna) as Hf. pose proof (handle_heartbeat_walks (silent m) m) as Hhb.
  destruct (m_type m) eqn:Hty; try done; try (apply ef_silent; by keeps_run E leaf).
  all: eapply vote_response_effect; [by rewrite Hty|done|exact E].
Qed.
Lemma step_follower_effect m r r' res :
  r_state r = Follower → m_type m ≠ MsgSnapshot → (m_type m = MsgAppend → r_term r = m_term m) →
  step_follower m r = Done (r', res) → effect m r r'.
Proof.
  intros Hst Hns Ht E. unfold step_follower, ok_ in E.
  apply rm_bind_Done in E as (r1 & lead & [-> ->]%rm_gets_Done & E).
  destruct (decide (m_type m = MsgAppend)) as [Hty|Hna].
  { rewrite Hty in E. apply rm_bind_Done in E as (r1 & [] & Ef & E). apply rm_bind_Done in E as (r2 & [] & E & [-> _]%rm_ret_Done).
    unfold heard_from in Ef. inv_rm. eapply append_effect; [done|..|exact E]; [done|simpl; by apply Ht|leaf]. }
  pose proof (silent_follows m Hna) as Hf. pose proof (handle_heartbeat_walks (silent m) m) as Hhb.
  pose proof (learn_walks (silent m) m (m_index m) (m_term m)) as Hread.
  assert (m_type m = MsgPropose ∨ m_type m = MsgTransferLeader ∨ m_type m = MsgReadIndex →
    ∀ l, keeps (silent m) (send (S := S) (set_m_to l m))) as Hsend.
  { intros Hty l. apply (send_walks (silent m)). intros r0. unfold courteous. simpl. by destruct Hty as [->|[->| ->]]. }
  destruct (m_type m) eqn:Hty; try done; try (specialize (Hsend ltac:(by auto))); try (apply ef_silent; by keeps_run E leaf).
  - specialize (Hhb eq_refl). apply ef_silent. unfold heard_from in E. by keeps_run E leaf.
  - apply rm_bind_Done in E as (r1 & p & [-> ->]%rm_gets_Done & E). apply rm_bind_Done in E as (r1 & [] & E1 & [-> _]%rm_ret_Done).
    apply rm_when_Done in E1. destruct (r_promotable r); [|subst; by apply ef_silent].
    apply (hup_elected m) in E1. by eapply maybe_effect.
  - specialize (Hread ltac:(by right)). apply ef_silent. by keeps_run E leaf.
Qed.
(** Stepping down without a quorum. *)
Lemma check_quorum_effect m r r' res :
  r_state r = Leader → m_type m = MsgCheckQuorum → step_leader m r = Done (r', res) →
  (silent m r r' ∧ r_state r' = Follower) ∨ check_quorum_active r = Done (r', true).
Proof.
  intros Hst Hty E. unfold step_leader, ok_ in E. rewrite Hty in E.
  apply rm_bind_Done in E as (r1 & active & Ea & E). apply rm_bind_Done in E as (r2 & [] & E & [-> _]%rm_ret_Done).
  apply rm_when_Done in E. destruct active; simpl in E; [subst; by right|left].
  pose proof (step_down_walks (silent m) INVALID_ID _ _ _ E) as Hs.
  apply rm_bind_Done in E as (r3 & t & [-> ->]%rm_gets_Done & ([_ Hst' _ _ _ _ _ _] & _)%become_follower_spec). split; [|done].
  unfold check_quorum_active in Ea. apply rm_bind_Done in Ea as (r3 & i & [-> ->]%rm_gets_Done & Ea).
  apply rm_with_prs_Done in Ea as (p & _ & ->). eapply (silent_touched m p (r_read_only r)); [congruence|].
  destruct r. exact Hs.
Qed.
Lemma step_leader_effect m r r' res :
  r_state r = Leader → (m_type m = MsgAppendResponse → m_term m ≠ 0 → r_term r = m_term m) → step_leader m r = Done (r', res) → effect m r r'.
Proof.
  intros Hst Ht E. destruct (decide (m_type m = MsgCheckQuorum)) as [Hty|Hty].
  - destruct (check_quorum_effect _ _ _ _ Hst Hty E) as [[? _]|E']; [by apply ef_silent|].
    apply ef_leads; [done|]. apply rtc_once. by eapply lb_check.
  - apply ef_leads; [done|]. apply rtc_once. by eapply lb_step.
Qed.

Lemma handle_effect m r r' res :
  m_type m ≠ MsgSnapshot → (m_type m = MsgAppend → r_term r = m_term m) →
  (m_type m = MsgAppendResponse → m_term m ≠ 0 → r_term r = m_term m) →
  (m_type m = MsgRequestVote → m_term m ≠ 0 → r_term r = m_term m) →
  step_handle m r = Done (r', res) → effect m r r'.
Proof.
  intros Hns Ht Hresp Hreq E. unfold step_handle, ok_ in E.
  destruct (m_type m) eqn:Hty; try done.
  all: try (apply rm_bind_Done in E as (r1 & st & [-> ->]%rm_gets_Done & E); destruct (r_state r) eqn:Hst;
    [eapply step_follower_effect|eapply step_candidate_effect|eapply step_leader_effect|eapply step_candidate_effect];
    solve [done|by rewrite Hty|by left|by right]).
  - apply rm_bind_Done in E as (r1 & [] & Eh & [-> _]%rm_ret_Done). apply (hup_elected m) in Eh. by eapply maybe_effect.
  - apply rm_bind_Done in E as (r1 & [] & E & [-> _]%rm_ret_Done). apply ef_silent.
    pose proof (silent_follows m ltac:(by rewrite Hty)). apply (handle_vote_request_walks (silent m) m _ _ _) in E; [done|]. by rewrite Hty.
  - apply rm_bind_Done in E as (r1 & [] & E & [-> _]%rm_ret_Done). apply ef_silent.
    pose proof (silent_follows m ltac:(by rewrite Hty)). apply (handle_vote_request_walks (silent m) m _ _ _) in E; [done|]. by rewrite Hty.
Qed.
Lemma silent_effect m r r1 r' : silent m r r1 → r1 = r ∨ r_state r1 ≠ Leader → effect m r1 r' → effect m r r'.
Proof.
  intros Hs Hr [Hs'|Hst Hl|cc res Hst Hl|He|(r2 & l & g & Hty & Hs2 & Ht & Hst & -> & Hg1 & Hg2 & Hg3 & Hx)].
  - apply ef_silent. by transitivity r1.
  - destruct Hr as [->|]; [by apply ef_leads|done].
  - destruct Hr as [->|]; [by eapply ef_conf|done].
  - apply ef_elected. by eapply silent_elected.
  - apply ef_answered. exists r2, l, g. split_and!; try done; [by transitivity r1|].
    rewrite Hg2. apply Hs.
Qed.
Lemma step_effect m r r' res :
  m_type m ≠ MsgSnapshot → (m_type m = MsgAppend → m_term m ≠ 0) → step m r = Done (r', res) → effect m r r'.
Proof.
  intros Hns Ht E. unfold step, ok_ in E. apply rm_bind_Done in E as (r1 & c & Et & E).
  pose proof (step_term_walks (silent m) m _ _ _ Et) as Hs.
  destruct c; simpl in E; [|apply rm_ret_Done in E as [-> _]; by apply ef_silent].
  eapply silent_effect; [exact Hs| |].
  - apply step_term_spec in Et as (_ & _ & Hc). destruct (Hc eq_refl) as [[-> _]|[Hst _]]; [by left|right; congruence].
  - eapply handle_effect; [done| | |by apply (step_term_request m r)|exact E].
    + intros Hty. eapply append_term; [by left|by apply Ht|done].
    + intros Hty Hne. eapply append_term; [by right|done..].
Qed.

(** ** The clock and the application *)

(** Messages that tell nothing about commits and votes. *)
Lemma silent_mute m m' r r' :
  is_vote_msg (m_type m) = false → m_type m ≠ MsgHeartbeat → m_type m ≠ MsgReadIndexResp → silent m r r' → silent m' r r'.
Proof.
  intros Hv Hh Hr [I T L C B E D]. constructor; try done. intros Hw. destruct (D Hw) as [Dc Dp Dd Dv Do]. constructor; try done.
  - destruct Dc as [|[[? _]|(e & _ & [[? _]|[? _]])]]; [by left|done|congruence|done].
  - destruct Dv as [|[|[|(Hty & _)]]]; [by left|by right; left|by right; right; left|]. by rewrite Hty in Hv.
Qed.

(** The leader checks its quorum and sends heartbeats. *)
Lemma leader_self t r r' u :
  t = MsgCheckQuorum ∨ t = MsgBeat → r_state r = Leader → step_self t r = Done (r', u) →
  ∃ m res, m_type m = t ∧ step_leader m r = Done (r', res).
Proof.
  intros Hty Hst E. unfold step_self in E. apply rm_bind_Done in E as (r1 & i & [-> ->]%rm_gets_Done & E).
  apply rm_bind_Done in E as (r1 & res & E & [-> _]%rm_ret_Done).
  change (step_handle (new_message INVALID_ID t (Some (r_id r))) r = Done (r1, res)) in E.
  exists (new_message INVALID_ID t (Some (r_id r))), res. split; [done|].
  destruct Hty as [->| ->]; apply rm_bind_Done in E as (r2 & st & [-> ->]%rm_gets_Done & E); by rewrite Hst in E.
Qed.
Lemma same_untouched m r r' : untouched r r' → silent m r r' ∧ labor m r r'.
Proof. intros Hu. split; [by apply (ba_same (R := silent m))|by apply lb_same]. Qed.

(** The first part of the tick of a leader, up to the heartbeats. *)
Definition check_time : rm S bool :=
  over ← gets (λ r, r_election_timeout r <=? r_election_elapsed r);
  if negb over then mret false
  else
    modify (set_r_election_elapsed 0);;
    check ← gets r_check_quorum;
    when check (step_self MsgCheckQuorum);;
    drop ← gets (λ r, bool_decide (r_state r = Leader) && bool_decide (is_Some (r_lead_transferee r)));
    when drop abort_leader_transfer;;
    mret check.
Lemma check_time_effect m r r' b : r_state r = Leader → check_time r = Done (r', b) →
  (silent m r r' ∧ r_state r' = Follower) ∨ (r_state r' = Leader ∧ rtc (labor m) r r').
Proof.
  intros Hst E. unfold check_time in E. apply rm_bind_Done in E as (r1 & over & [-> ->]%rm_gets_Done & E).
  destruct (_ <=? _) in E; cbn [negb] in E; [|by apply rm_ret_Done in E as [-> _]; right].
  apply rm_bind_Done in E as (r1 & [] & ->%rm_modify_Done & E). set (r1 := set_r_election_elapsed 0 r) in E.
  destruct (same_untouched m r r1) as [Hs1 Hl1]; [by constructor|].
  apply rm_bind_Done in E as (r2 & check & [-> ->]%rm_gets_Done & E). apply rm_bind_Done in E as (r2 & [] & E1 & E).
  assert (untouched r2 r') as Hu.
  { apply rm_bind_Done in E as (r3 & d & [-> ->]%rm_gets_Done & E). apply rm_bind_Done in E as (r3 & [] & E & [-> _]%rm_ret_Done).
    unfold abort_leader_transfer in E. apply rm_when_Done in E. destruct (_ && _); [apply rm_modify_Done in E as ->|subst]; by constructor. }
  destruct (same_untouched m r2 r' Hu) as [Hs2 Hl2]. rewrite (un_state _ _ Hu). apply rm_when_Done in E1.
  destruct (r_check_quorum r1); [|subst; right; split; [done|by eapply rtc_l, rtc_once]].
  destruct (leader_self MsgCheckQuorum r1 r2 ()) as (mc & res & Hty & Ec); [by left|done|done|].
  destruct (check_quorum_effect mc r1 r2 res Hst Hty Ec) as [[Hs Hf]|Hc]; [left; split; [|done]|right; split].
  - transitivity r1; [done|]. transitivity r2; [|done]. by eapply (silent_mute mc); rewrite ?Hty.
  - by rewrite (le_state _ _ (check_quorum_active_walks leads _ _ _ Hc)).
  - eapply rtc_l; [done|]. eapply rtc_l; [by eapply lb_check|]. by apply rtc_once.
Qed.
Lemma leader_tick_effect m r r' b : r_state r = Leader → tick r = Done (r', b) → effect m r r'.
Proof.
  intros Hst E. unfold tick in E. apply rm_bind_Done in E as (r1 & st & [-> ->]%rm_gets_Done & E). rewrite Hst in E.
  unfold tick_heartbeat in E.
  apply rm_bind_Done in E as (r1 & n & [-> _]%rm_asks_Done & E). apply rm_bind_Done in E as (r1 & [] & ->%rm_modify_Done & E).
  apply rm_bind_Done in E as (r1 & n' & [-> _]%rm_asks_Done & E). apply rm_bind_Done in E as (r1 & [] & ->%rm_modify_Done & E).
  set (r0 := set_r_election_elapsed _ _) in E. destruct (same_untouched m r r0) as [Hs0 Hl0]; [by constructor|].
  apply rm_bind_Done in E as (r1 & ready & E1 & E). apply rm_bind_Done in E as (r2 & st & [-> ->]%rm_gets_Done & E).
  destruct (check_time_effect m r0 r1 ready Hst E1) as [[Hs1 Hst1]|[Hst1 Hl1]]; rewrite Hst1 in E; cbn [bool_decide negb] in E.
  { apply rm_ret_Done in E as [-> _]. apply ef_silent. by transitivity r0. }
  apply ef_leads; [done|]. eapply rtc_l; [done|]. etrans; [exact Hl1|]. simpl in E.
  apply rm_bind_Done in E as (r2 & beat & [-> ->]%rm_gets_Done & E). destruct (_ <=? _) in E; cbn [negb] in E;
    [|by apply rm_ret_Done in E as [-> _]].
  apply rm_bind_Done in E as (r2 & [] & ->%rm_modify_Done & E). apply rm_bind_Done in E as (r2 & [] & E2 & [-> _]%rm_ret_Done).
  apply (rtc_l _ _ (set_r_heartbeat_elapsed 0 r1)); [apply lb_same; by constructor|].
  destruct (leader_self MsgBeat (set_r_heartbeat_elapsed 0 r1) r2 () ltac:(by right) Hst1 E2) as (mb & res & Hty & Eb). unfold step_leader, bcast_heartbeat in Eb.
  rewrite Hty in Eb. apply rm_bind_Done in Eb as (r3 & [] & Eb & Ek). unfold ok_ in Ek. apply rm_ret_Done in Ek as [<- _].
  apply rm_bind_Done in Eb as (r4 & ctx & [-> ->]%rm_gets_Done & Eb). apply rtc_once. by eapply lb_beat.
Qed.
Lemma tick_effect m r r' b : tick r = Done (r', b) → effect m r r'.
Proof.
  intros E. destruct (decide (r_state r = Leader)) as [Hst|Hst]; [by eapply leader_tick_effect|].
  assert (tick_election r = Done (r', b)) as E'
    by (unfold tick in E; apply rm_bind_Done in E as (r1 & st & [-> ->]%rm_gets_Done & E); by destruct (r_state r)).
  clear E. unfold tick_election in E'.
  apply rm_bind_Done in E' as (r1 & n & [-> _]%rm_asks_Done & E). apply rm_bind_Done in E as (r1 & [] & ->%rm_modify_Done & E).
  apply rm_bind_Done in E as (r1 & fire & [-> _]%rm_gets_Done & E).
  destruct fire; simpl in E; [|apply rm_ret_Done in E as [-> _]; apply ef_silent; leaf].
  apply rm_bind_Done in E as (r1 & [] & ->%rm_modify_Done & E). apply rm_bind_Done in E as (r1 & [] & E & [-> _]%rm_ret_Done).
  set (r0 := set_r_election_elapsed 0 _) in E. assert (silent m r r0) as Hs by leaf.
  unfold step_self in E. apply rm_bind_Done in E as (r2 & i & [-> ->]%rm_gets_Done & E).
  apply rm_bind_Done in E as (r2 & res & E & [-> _]%rm_ret_Done).
  change (step_handle (new_message INVALID_ID MsgHup (Some (r_id r0))) r0 = Done (r2, res)) in E. unfold step_handle, ok_ in E. simpl in E.
  apply rm_bind_Done in E as (r3 & [] & E & [-> _]%rm_ret_Done). apply (hup_elected m) in E. by eapply maybe_effect.
Qed.
Lemma commit_apply_effect m i r r' u : commit_apply i r = Done (r', u) → effect m r r'.
Proof.
  destruct u. intros E. destruct (decide (r_state r = Leader)) as [Hst|Hst].
  { apply ef_leads; [done|]. apply rtc_once. by eapply lb_apply. }
  apply ef_silent. unfold commit_apply, commit_apply_internal in E. cbn [negb] in E.
  apply rm_bind_Done in E as (r1 & old & [-> ->]%rm_gets_Done & E). apply rm_bind_Done in E as (r1 & [] & E1 & E).
  apply rm_update_log_Done in E1 as (l & E1 & ->). apply rm_bind_Done in E as (r1 & b & [-> ->]%rm_gets_Done & E).
  simpl in E. rewrite (bool_decide_eq_false_2 (r_state r = Leader)), andb_false_r in E by done.
  apply rm_ret_Done in E as [-> _]. by eapply (ba_apply (R := silent m)).
Qed.
Lemma on_persist_entries_effect i t r r' u :
  on_persist_entries i t r = Done (r', u) → noted i t r r' ∨ (r_state r = Leader ∧ on_persist_entries i t r = Done (r', ())).
Proof.
  destruct u. intros E. destruct (decide (r_state r = Leader)) as [Hst|Hst].
  { by right. }
  left. split; [done|]. unfold on_persist_entries in E. apply rm_bind_Done in E as (r1 & b & E1 & E).
  apply rm_with_log_Done in E1 as (l & E1 & ->). apply rm_bind_Done in E as (r1 & st & [-> ->]%rm_gets_Done & E). simpl in E.
  rewrite (bool_decide_eq_false_2 (r_state r = Leader)), andb_false_r in E by done.
  apply rm_ret_Done in E as [-> _]. by exists l, b.
Qed.
Lemma apply_conf_change_effect m cc r r' res : apply_conf_change cc r = Done (r', res) → effect m r r'.
Proof.
  intros E. destruct (decide (r_state r = Leader)) as [Hst|Hst].
  { by eapply ef_conf. }
  apply ef_silent. unfold apply_conf_change in E. apply rm_bind_Done in E as (r1 & p & [-> ->]%rm_gets_Done & E).
  destruct (if Proto.leave_joint cc then _ else _) as [[cfg ch]|]; [|by apply rm_ret_Done in E as [-> _]].
  apply rm_bind_Done in E as (r1 & li & [-> _]%rm_asks_Done & E). apply rm_bind_Done in E as (r1 & [] & ->%rm_modify_Done & E).
  apply rm_bind_Done in E as (r1 & cs & E & [-> _]%rm_ret_Done). unfold post_conf_change in E.
  apply rm_bind_Done in E as (r2 & cs1 & [-> _]%rm_gets_Done & E). apply rm_bind_Done in E as (r2 & v & [-> _]%rm_gets_Done & E).
  apply rm_bind_Done in E as (r2 & [] & ->%rm_modify_Done & E). apply rm_bind_Done in E as (r2 & st & [-> ->]%rm_gets_Done & E).
  simpl in E. rewrite (bool_decide_eq_false_2 (r_state r = Leader)), andb_false_r in E by done. simpl in E.
  apply rm_ret_Done in E as [-> _]. eapply (silent_touched m _ (r_read_only r)); [done|].
  match goal with |- silent m (set_r_read_only _ (set_r_prs ?p r)) (set_r_promotable ?b _) =>
    transitivity (set_r_prs p r); leaf end.
Qed.

Lemma run_effect e r r' :
  ordinary e → m_type (event_msg e) ≠ MsgSnapshot → (m_type (event_msg e) = MsgAppend → m_term (event_msg e) ≠ 0) →
  run_event e r = Done r' → effect (event_msg e) r r' ∨
    ∃ i t, e = Persisted i t ∧ (noted i t r r' ∨ (r_state r = Leader ∧ on_persist_entries i t r = Done (r', ()))).
Proof.
  intros Ho Hns Ht E. destruct e as [m| |i|i t|cc|l|c store]; simpl in *; try done.
  all: apply fmap_Done in E as ([r1 x] & E & ->).
  - left. by eapply step_effect.
  - left. by eapply tick_effect.
  - left. by eapply commit_apply_effect.
  - right. exists i, t. split; [done|]. by eapply on_persist_entries_effect.
  - left. by eapply apply_conf_change_effect.
Qed.
End effect.
