(* ===== verification/RaftLead.v ===== *)
(** * What a leader relies on

    An invariant of the work of a leader ([tidy]): what it knows about a peer has
    been acknowledged by the peer, what it sends is true of its log and of its
    commit index, and it commits only what a quorum of the voters has
    acknowledged and an entry of its own term crowns. No peer has asked for a
    snapshot and nothing is cut from the log, so that none is sent. *)
From S2P Require Import Prelude Errors Proto Util Quorum Storage Unstable ReadOnly Config.
From S2P Require Import Majority Joint Progress Tracker RaftLog RaftLogSpec RaftLogReads LogTotal LogFinal RaftState RaftSend RaftLogic.
From S2P Require Import RaftRole RaftStep RaftReset RaftTotal RaftEnds RaftWalk RaftFinal RaftPlain RaftSilent RaftAppends RaftEffect.
#[local] Open Scope N_scope.

Section lead.
Context {S : Type} `{StorageLaws S, PbMessage, HashOrder, Rng, ConfChangeCodec}.
Implicit Types r : Raft S.

(** The voters; who has acknowledged how much in this term; the term; the commit
    index and the outbox to begin with. *)
Context (conf : JointConfig) (Hconf : joint_bounded conf).
Context (acked : u64 → u64 → Prop) (acked_le : ∀ v n m, m ≤ n → acked v n → acked v m).
Context (t c0 : u64) (base : list Message).

Definition known r (v n : u64) : Prop := acked v n ∨ (v = r_id r ∧ n ≤ l_persisted (r_raft_log r)).

(** What is believed about a peer is known. *)
Record good_pr r (v : u64) (pr : Progress) : Prop := {
  gp_matched : pr_matched pr = 0 ∨ known r v (pr_matched pr);
  gp_state : pr_state pr ≠ Snapshot;
  gp_request : pr_pending_request_snapshot pr = 0;
  gp_next : 1 ≤ pr_next_idx pr ≤ N.max (pr_matched pr + 1) (log_end (r_raft_log r)) }.

(** Position [i] is before the log or has term [tm] in it. *)
Definition names_entry (l : RaftLog S) (i tm : u64) : Prop :=
  i < log_end l ∧ (i = 0 ∨ ∃ e, entry_at l i = Some e ∧ e_term e = tm).

(** Message [g] is true of the leader. *)
Definition fine r (g : Message) : Prop :=
  match m_type g with
  | MsgAppend => m_term g = t ∧ m_commit g ≤ l_committed (r_raft_log r) ∧
      (names_entry (r_raft_log r) (m_index g) (m_log_term g) ∨
       (m_entries g = [] ∧ m_log_term g = 0 ∧ acked (m_to g) (m_index g)))
  | MsgHeartbeat => m_term g = t ∧ m_commit g ≤ l_committed (r_raft_log r) ∧ (m_commit g = 0 ∨ acked (m_to g) (m_commit g))
  | MsgReadIndexResp => m_term g = t ∧ m_index g ≤ l_committed (r_raft_log r)
  | _ => innocuous r g
  end.

(** The commit index is the one to begin with, or a quorum knows it and an entry
    of the term is there. *)
Definition commits r : Prop :=
  l_committed (r_raft_log r) = c0 ∨
  ((∃ e, entry_at (r_raft_log r) (l_committed (r_raft_log r)) = Some e ∧ e_term e = t) ∧
   ∃ Q : gset u64, joint_quorum_of conf (.∈ Q) ∧ ∀ v, v ∈ Q → known r v (l_committed (r_raft_log r))).

Record tidy r : Prop := {
  td_state : r_state r = Leader;
  td_term : r_term r = t;
  td_batch : r_batch_append r = false;
  td_log : log_wf (r_raft_log r);
  td_first : first (r_raft_log r) = 1;
  td_dummy : dummy (r_raft_log r) = Some 0;
  td_some : ents (r_raft_log r) ≠ [];
  td_conf : c_voters (pt_conf (r_prs r)) = conf;
  td_prs v pr : Tracker.get v (r_prs r) = Some pr → good_pr r v pr;
  td_reads ctx rs : ro_pending_read_index (r_read_only r) !! ctx = Some rs → ris_index rs ≤ l_committed (r_raft_log r);
  td_out g : g ∈ r_msgs r → g ∈ base ∨ fine r g;
  td_commit : commits r }.

(** The log goes on. *)
Record forth r r' : Prop := {
  ft_id : r_id r' = r_id r;
  ft_persisted : l_persisted (r_raft_log r') = l_persisted (r_raft_log r);
  ft_end : log_end (r_raft_log r) ≤ log_end (r_raft_log r');
  ft_committed : l_committed (r_raft_log r) ≤ l_committed (r_raft_log r') }.
#[export] Instance forth_preorder : PreOrder forth.
Proof. split; [by intros r|]. intros r1 r2 r3 [] []. split; [congruence|congruence|lia..]. Qed.
Definition works r r' : Prop := tidy r → tidy r' ∧ forth r r'.

#[export] Instance works_preorder : PreOrder works.
Proof.
  split; [by intros r|]. intros r1 r2 r3 H12 H23 Ht. destruct (H12 Ht) as [Ht2 Hf2]. destruct (H23 Ht2) as [Ht3 Hf3].
  split; [done|by transitivity r2].
Qed.

(** ** Facts that stay *)
Section stays.
Context r r' (Hid : r_id r' = r_id r).
Context (Hp : l_persisted (r_raft_log r) ≤ l_persisted (r_raft_log r')) (He : log_end (r_raft_log r) ≤ log_end (r_raft_log r')).
Lemma known_stays v n : known r v n → known r' v n.
Proof using Hid Hp. clear He. intros [|[-> ?]]; [by left|right]. split; [done|lia]. Qed.
Lemma good_pr_stays v pr : good_pr r v pr → good_pr r' v pr.
Proof using Hid Hp He. intros [Hm ? ? ?]. split; [|done|done|lia]. destruct Hm; [by left|right; by apply known_stays]. Qed.
End stays.

Lemma good_pr_forth r r' v pr : forth r r' → good_pr r v pr → good_pr r' v pr.
Proof. intros [? Hp ? ?]. apply good_pr_stays; [done| |done]. by rewrite Hp. Qed.
Lemma entry_at_grows (l l' : RaftLog S) i e :
  first l' = first l → ents l `prefix_of` ents l' → entry_at l i = Some e → entry_at l' i = Some e.
Proof.
  intros Hf Hp. unfold entry_at. rewrite Hf. destruct (_ <? _); [done|]. intros Hl. by eapply prefix_lookup_Some.
Qed.
Lemma log_end_grows (l l' : RaftLog S) : first l' = first l → ents l `prefix_of` ents l' → log_end l ≤ log_end l'.
Proof. intros Hf Hp%prefix_length. unfold log_end, len. rewrite Hf. lia. Qed.

Section fine_stays.
Context r r' (Hid : r_id r' = r_id r) (Ht : r_term r' = r_term r) (Hst : r_state r' = Leader).
Context (Hf : first (r_raft_log r') = first (r_raft_log r)) (Hp : ents (r_raft_log r) `prefix_of` ents (r_raft_log r')).
Context (Hc : l_committed (r_raft_log r) ≤ l_committed (r_raft_log r')).
Lemma known_commit_stays c tm : known_commit (r_raft_log r) c tm → known_commit (r_raft_log r') c tm.
Proof using Hid Ht Hf Hp Hc.
  intros [|[? (e & ? & ?)]]; [left; lia|right]. split; [lia|]. exists e. split; [by eapply entry_at_grows|done].
Qed.
Lemma fine_stays g : fine r g → fine r' g.
Proof using Hid Ht Hst Hf Hp Hc.
  pose proof known_commit_stays as Hk. pose proof (log_end_grows _ _ Hf Hp). unfold fine, innocuous. destruct (m_type g); try done; try apply Hk.
  - intros (? & ? & Hn). split_and!; [done|lia|]. destruct Hn as [[? Hn]|]; [left|by right]. split; [lia|].
    destruct Hn as [|(e & ? & ?)]; [by left|right]. exists e. split; [by eapply entry_at_grows|done].
  - intros (? & ? & ? & _). split_and!; [by apply Hk|congruence|lia|]. congruence.
  - intros (? & ? & ?). split_and!; [done|lia|done].
  - intros [? ?]. split; [done|lia].
Qed.
End fine_stays.

(** The one way to stay tidy. *)
Lemma tidy_change r r' :
  tidy r → r_id r' = r_id r → r_state r' = Leader → r_term r' = r_term r → r_batch_append r' = r_batch_append r →
  log_wf (r_raft_log r') → first (r_raft_log r') = first (r_raft_log r) → dummy (r_raft_log r') = dummy (r_raft_log r) →
  ents (r_raft_log r) `prefix_of` ents (r_raft_log r') → l_committed (r_raft_log r) ≤ l_committed (r_raft_log r') → l_persisted (r_raft_log r) ≤ l_persisted (r_raft_log r') →
  c_voters (pt_conf (r_prs r')) = conf →
  (∀ v pr, Tracker.get v (r_prs r') = Some pr → Tracker.get v (r_prs r) = Some pr ∨ good_pr r' v pr) →
  (∀ ctx rs, ro_pending_read_index (r_read_only r') !! ctx = Some rs →
    ro_pending_read_index (r_read_only r) !! ctx = Some rs ∨ ris_index rs ≤ l_committed (r_raft_log r')) →
  (∀ g, g ∈ r_msgs r' → g ∈ r_msgs r ∨ fine r' g) →
  l_committed (r_raft_log r') = l_committed (r_raft_log r) ∨ commits r' → tidy r'.
Proof.
  intros [Hs Ht Hb Hl Hf Hd Hn Hcf Hpr Hro Ho Hco] Eid Est Et Eb Hw Ef Ed Hp Hc Hpe Ecf Hprs Hreads Hout Hcom.
  pose proof (log_end_grows _ _ Ef Hp) as He. constructor; try congruence.
  - intros E. rewrite E in Hp. by apply prefix_nil_inv in Hp.
  - intros v pr [Hg|]%Hprs; [|done]. eapply (good_pr_stays r); [done..|by apply Hpr].
  - intros ctx rs [Hg%Hro|]%Hreads; [lia|done].
  - intros g [Hg|]%Hout; [|by right]. destruct (Ho g Hg); [by left|right]. by eapply (fine_stays r).
  - destruct Hcom as [E|]; [|done]. destruct Hco as [|[(e & He' & Ht') (Q & HQ & Hk)]]; [left; congruence|right].
    rewrite E. split; [exists e; split; [by eapply entry_at_grows|done]|]. exists Q. split; [done|].
    intros v Hv. eapply (known_stays r); auto.
Qed.

Lemma tidy_forth r r' :
  tidy r → r_id r' = r_id r → r_state r' = Leader → r_term r' = r_term r → r_batch_append r' = r_batch_append r →
  log_wf (r_raft_log r') → first (r_raft_log r') = first (r_raft_log r) → dummy (r_raft_log r') = dummy (r_raft_log r) →
  ents (r_raft_log r) `prefix_of` ents (r_raft_log r') → l_committed (r_raft_log r) ≤ l_committed (r_raft_log r') → l_persisted (r_raft_log r') = l_persisted (r_raft_log r) →
  c_voters (pt_conf (r_prs r')) = conf →
  (∀ v pr, Tracker.get v (r_prs r') = Some pr → Tracker.get v (r_prs r) = Some pr ∨ good_pr r' v pr) →
  (∀ ctx rs, ro_pending_read_index (r_read_only r') !! ctx = Some rs →
    ro_pending_read_index (r_read_only r) !! ctx = Some rs ∨ ris_index rs ≤ l_committed (r_raft_log r')) →
  (∀ g, g ∈ r_msgs r' → g ∈ r_msgs r ∨ fine r' g) →
  l_committed (r_raft_log r') = l_committed (r_raft_log r) ∨ commits r' → tidy r' ∧ forth r r'.
Proof.
  intros Ht Eid Est Et Eb Hw Ef Ed Hp Hc Hpe Ecf Hprs Hreads Hout Hcom. split; [|split; [done|done|by apply log_end_grows|done]].
  apply (tidy_change r); try done. lia.
Qed.

(** ** The elementary steps *)
(** The log keeps its entries. *)
Lemma works_log r l :
  calm (r_raft_log r) l →
  (tidy r → dummy l = dummy (r_raft_log r) ∧ l_persisted l = l_persisted (r_raft_log r) ∧
    (l_committed l = l_committed (r_raft_log r) ∨ commits (set_r_raft_log l r))) →
  works r (set_r_raft_log l r).
Proof.
  intros Hl Hc Ht. destruct (calm_facts _ _ (td_log _ Ht) Hl) as (Hw & Hf & He & Hco). destruct (Hc Ht) as (Hd & Hp & Hcom).
  apply tidy_forth; simpl; rewrite ?He; try done; try apply Ht; auto.
Qed.
Lemma works_put r v pr : (tidy r → good_pr r v pr) → works r (set_r_prs (Tracker.put v pr (r_prs r)) r).
Proof.
  intros Hg Ht. apply tidy_forth; simpl; try done; try apply Ht; auto.
  intros v' pr'. unfold Tracker.get. simpl. intros [[<- <-]|[_ ?]]%lookup_insert_Some; [right|by left].
  apply (good_pr_stays r); try done. by apply Hg.
Qed.
Lemma works_out r g : (tidy r → fine r g) → works r (set_r_msgs (r_msgs r ++ [g]) r).
Proof.
  intros Hg Ht. apply tidy_forth; simpl; try done; try apply Ht; auto.
  intros g' [| ->%list_elem_of_singleton]%elem_of_app; [by left|right].
  apply (fine_stays r); try done; [apply Ht|by apply Hg].
Qed.
Lemma works_reads r ro :
  (tidy r → ∀ ctx rs, ro_pending_read_index ro !! ctx = Some rs →
    ro_pending_read_index (r_read_only r) !! ctx = Some rs ∨ ris_index rs ≤ l_committed (r_raft_log r)) →
  works r (set_r_read_only ro r).
Proof. intros Hg Ht. apply tidy_forth; simpl; try done; try apply Ht; auto. Qed.

#[export] Instance works_base : Base works.
Proof.
  split; [apply _|..].
  - intros r r' [Hi Hs Ht Hv Hb Hl Hm Hp Ho _] Td. apply tidy_forth; rewrite ?Hl, ?Hm, ?Hp, ?Ho, ?Hs; try done; try apply Td; auto.
  - intros r l Hl. apply works_log; [by apply calm_read|]. intros Ht. pose proof (Hl (lw_joined _ (td_log _ Ht))) as Hsl.
    destruct (same_log_ents _ _ Hsl) as (_ & Hd & _). destruct Hsl as [_ _ _ _ _ Ec Ep _ _]. split_and!; [done..|by left].
  - intros r m m' Hm Hs. apply works_out. intros Ht. pose proof (courteous_innocuous _ _ _ (td_log _ Ht) Hm Hs) as Hi.
    unfold fine. unfold innocuous in *. by destruct (m_type m').
  - intros i r l E. apply works_log; [by eapply calm_apply|]. intros Ht. unfold applied_to in E.
    destruct (i =? 0); [injection E as <-; split_and!; [done..|by left]|]. destruct (_ || _); [done|]. injection E as <-.
    split_and!; [done..|by left].
Qed.

Lemma append_entry_works es : keeps works (append_entry (S := S) es).
Proof.
  intros r r' b (us & l & -> & Hl)%append_entry_spec. destruct b; [|destruct Hl as [_ ->]; by apply (ba_same (R := works))].
  destruct Hl as (_ & li & es' & i & Hli & Hn & Ha). intros Ht. pose proof (lw_joined _ (td_log _ Ht)) as Hj.
  pose proof (numbered_end _ _ _ _ _ Hli Hn Hj) as Hce. pose proof (append_dummy _ _ _ _ Ha) as Hd.
  destruct (append_end es' (r_raft_log r) l i) as (_ & He & Hf & _ & Hl); [done..|].
  destruct (append_end_final es' (r_raft_log r) l i Hj) as [Hw _]; [done|done|apply Ht|].
  assert (l_committed l = l_committed (r_raft_log r) ∧ l_persisted l = l_persisted (r_raft_log r)) as [Ec Ep] by (by rewrite Hl).
  apply tidy_forth; simpl; rewrite ?Ec, ?Ep; try done; try apply Ht; auto. rewrite He. by apply prefix_app_r.
Qed.

(** ** Talking to a peer *)

(** What a method that is lent the progress of [v] does. *)
Definition serves (v : u64) (pr : Progress) r r' (pr' : Progress) : Prop :=
  tidy r → good_pr r v pr → tidy r' ∧ forth r r' ∧ good_pr r' v pr'.
Lemma serves_trans v pr r r1 pr1 r' pr' : serves v pr r r1 pr1 → serves v pr1 r1 r' pr' → serves v pr r r' pr'.
Proof.
  intros HA HB Ht Hg. destruct (HA Ht Hg) as (Ht1 & Hf1 & Hg1). destruct (HB Ht1 Hg1) as (Ht2 & Hf2 & Hg2).
  split_and!; [done|by transitivity r1|done].
Qed.
Lemma serves_works v pr r r' : works r r' → serves v pr r r' pr.
Proof. intros Hw Ht Hg. destruct (Hw Ht) as [Ht' Hf]. split_and!; [done..|]. by eapply good_pr_forth. Qed.

Lemma entry_index_inside (l : RaftLog S) e : joined l → e ∈ ents l → first l ≤ e_index e < log_end l.
Proof.
  intros Hj [k Hk]%list_elem_of_lookup. rewrite (ents_contiguous l Hj k e Hk). apply lookup_lt_Some in Hk. unfold log_end, len. lia.
Qed.
(** The append sent to a peer is true, and what is noted about it. *)
Section sent.
Context r (v : u64) (pr : Progress) (l : RaftLog S) (g : Message) (max : option u64) (ctx : GetEntriesContext).
Context (Ht : tidy r) (Hl : same_log (r_raft_log r) l) (Hg : good_pr r v pr).
Context (Hes : RaftLog.entries (pr_next_idx pr) max ctx (r_raft_log r) = Done (l, Ok (m_entries g))).
Lemma sent_fine :
  m_type g = MsgAppend → m_to g = v → m_term g = r_term r → m_commit g = l_committed (r_raft_log r) →
  m_index g = pr_next_idx pr - 1 → log_term (r_raft_log r) (m_index g) = Ok (m_log_term g) → fine r g.
Proof using acked_le Ht Hl Hg Hes.
  intros Hty Hto Htm Hc Hi Hlt. pose proof (lw_joined _ (td_log _ Ht)) as Hj. pose proof (td_first _ Ht) as Hf.
  destruct Hg as [Gm Gs Gr Gn]. pose proof (log_end_unstable _ Hj) as Hu. pose proof (lw_persisted _ (td_log _ Ht)) as Hper.
  unfold fine. rewrite Hty. split_and!; [rewrite Htm; apply Ht|by rewrite Hc|].
  destruct (N.lt_ge_cases (m_index g) (log_end (r_raft_log r))) as [Hin|Hout].
  - left. split; [done|]. destruct (N.eq_dec (m_index g) 0); [by left|right].
    destruct (entry_inside (r_raft_log r) (m_index g) Hj) as (e & _ & He & Hle); [lia|]. exists e. split; [done|congruence].
  - right. pose proof (first_le_end (r_raft_log r)). split_and!.
    + unfold RaftLog.entries in Hes. rewrite last_index_spec in Hes by done. cbn [mbind outcome_bind] in Hes.
      destruct (N.ltb_spec (log_end (r_raft_log r) - 1) (pr_next_idx pr)); [|lia]. by injection Hes.
    + unfold log_term in Hlt. rewrite (proj2 (N.ltb_ge _ _)), (proj2 (N.leb_le _ _)) in Hlt by lia. by injection Hlt.
    + rewrite Hto. destruct Gm as [|[Ha|[_ Ha]]]; [lia| |lia]. eapply acked_le; [|done]. lia.
Qed.
Lemma sent_good p :
  match last (m_entries g) with Some e => update_state (e_index e) pr = Done p | None => p = pr end → good_pr r v p.
Proof using Ht Hl Hg Hes.
  intros Hp. pose proof (lw_joined _ (td_log _ Ht)) as Hj. destruct Hg as [Gm Gs Gr Gn].
  destruct (last (m_entries g)) as [e|] eqn:El; [|by subst p].
  assert (e_index e < log_end (r_raft_log r)) as Hei.
  { apply (entry_index_inside _ e Hj). destruct (entries_prefix _ _ _ _ _ _ Hj (td_first _ Ht) (proj1 Gn) Hes) as [Hnil|[_ Hpre]]; [by rewrite Hnil in El|].
    apply last_Some_elem_of in El. eapply elem_of_prefix in El; [|exact Hpre].
    rewrite <-(take_drop (N.to_nat (pr_next_idx pr - 1)) (ents (r_raft_log r))). apply elem_of_app. by right. }
  unfold update_state in Hp. destruct (pr_state pr) eqn:Est; [injection Hp as <-; split; simpl; [done|congruence|done|lia]|..|done].
  apply bind_Done in Hp as (p1 & Hp1 & Hp). unfold optimistic_update in Hp1. apply bind_Done in Hp1 as (n & [_ ->]%add64_Done & [= <-]).
  apply bind_Done in Hp as (ins & _ & [= <-]). split; simpl; [done|congruence|done|lia].
Qed.
End sent.
Lemma tidy_no_snapshot r v pr : tidy r → good_pr r v pr → ¬ needs_snapshot (r_raft_log r) pr.
Proof.
  intros Ht [_ _ Hr Hn] [|[Hlt|Hd]]; [done|rewrite (td_first _ Ht) in Hlt; lia|]. by rewrite (td_dummy _ Ht) in Hd.
Qed.
Lemma maybe_send_append_serves v pr b r r' pr' sent :
  maybe_send_append v pr b r = Done (r', (pr', sent)) → serves v pr r r' pr'.
Proof using acked_le.
  intros E Ht Hg. apply maybe_send_append_replicates in E; [|apply (td_log _ Ht)|apply Ht].
  assert (∀ l, same_log (r_raft_log r) l → works r (set_r_raft_log l r)) as Hread by (intros l Hl; by apply (ba_read (R := works))).
  destruct E as [l Hl|l g p Hl Hns|l g p max ctx Hl Hty Hto Htm Hc Hn Hi Hlt Hes Hp].
  - eapply serves_works; [by apply Hread|done..].
  - by destruct (tidy_no_snapshot r v pr Ht Hg).
  - destruct (Hread l Hl Ht) as [Ht1 Hf1]. pose proof (sent_fine r v pr l g max ctx Ht Hl Hg Hes Hty Hto Htm Hc Hi Hlt) as Hfine.
    destruct (same_log_ents _ _ Hl) as (Ef & _ & Ee & _).
    destruct (works_out (set_r_raft_log l r) g) as [Ht2 Hf2]; [|done|].
    { intros _. apply (fine_stays r); simpl; rewrite ?Ee; try done; [apply Ht|by rewrite (sl_committed _ _ Hl)]. }
    split_and!; [done|by transitivity (set_r_raft_log l r)|]. eapply good_pr_forth; [by transitivity (set_r_raft_log l r)|].
    by eapply sent_good.
Qed.
Lemma core_send_append_serves v pr r r' pr' : core_send_append v pr r = Done (r', pr') → serves v pr r r' pr'.
Proof using acked_le.
  intros E. unfold core_send_append in E. apply rm_bind_Done in E as (r1 & [p sent] & E & [-> ->]%rm_ret_Done).
  by eapply maybe_send_append_serves.
Qed.
Lemma send_append_loop_serves fuel v pr r r' pr' : send_append_loop fuel v pr r = Done (r', pr') → serves v pr r r' pr'.
Proof using acked_le.
  revert pr r. induction fuel as [|fuel IH]; intros pr r E; [done|]. cbn [send_append_loop] in E.
  apply rm_bind_Done in E as (r1 & [p sent] & E1%maybe_send_append_serves & E).
  destruct sent; [|by apply rm_ret_Done in E as [-> ->]]. eapply serves_trans; [done|by apply IH].
Qed.
Lemma core_send_append_aggressively_serves v pr r r' pr' :
  core_send_append_aggressively v pr r = Done (r', pr') → serves v pr r r' pr'.
Proof using acked_le.
  intros E. unfold core_send_append_aggressively in E. apply rm_bind_Done in E as (r1 & n & [-> ->]%rm_gets_Done & E).
  by eapply send_append_loop_serves.
Qed.
(** Putting the progress back. *)
Lemma serves_put v pr r r1 pr1 : serves v pr r r1 pr1 → (tidy r → good_pr r v pr) →
  works r (set_r_prs (Tracker.put v pr1 (r_prs r1)) r1).
Proof.
  intros Hs Hg Ht. destruct (Hs Ht (Hg Ht)) as (Ht1 & Hf1 & Hg1). destruct (works_put r1 v pr1 (λ _, Hg1) Ht1) as [Ht2 Hf2].
  split; [done|]. by transitivity r1.
Qed.
Lemma on_peer_works v f :
  (∀ pr r r' pr', f pr r = Done (r', pr') → serves v pr r r' pr') → keeps works (on_peer (S := S) v f).
Proof.
  intros Hf r r' u E. unfold on_peer in E. apply rm_bind_Done in E as (r1 & pr & [-> Hg]%rm_unwrap_pr_Done & E).
  apply rm_bind_Done in E as (r1 & pr1 & E1%Hf & ->%rm_modify_Done). apply (serves_put v pr); [done|]. intros Ht. by apply (td_prs _ Ht).
Qed.
(** The same for a peer other than this node. *)
Definition serves_other (v : u64) (pr : Progress) r r' (pr' : Progress) : Prop :=
  tidy r → v ≠ r_id r → good_pr r v pr → tidy r' ∧ forth r r' ∧ good_pr r' v pr'.
Lemma serves_others v pr r r' pr' : serves v pr r r' pr' → serves_other v pr r r' pr'.
Proof. intros Hs Ht _. by apply Hs. Qed.
Lemma for_list_works f l r r' u :
  (∀ v pr r r' pr', f v pr r = Done (r', pr') → serves_other v pr r r' pr') →
  for_progress_list f l r = Done (r', u) →
  tidy r → (∀ v pr, (v, pr) ∈ l → v ≠ r_id r ∧ good_pr r v pr) → tidy r' ∧ forth r r'.
Proof.
  intros Hf. revert r. induction l as [|[v pr] l IH]; intros r E; [by apply rm_ret_Done in E as [-> _]|]. intros Ht Hl.
  cbn [for_progress_list] in E. apply rm_bind_Done in E as (r1 & pr1 & E1%Hf & E).
  apply rm_bind_Done in E as (r2 & [] & ->%rm_modify_Done & E).
  destruct (Hl v pr) as [Hv Hg]; [by left|]. destruct (E1 Ht Hv Hg) as (Ht1 & Hf1 & Hg1).
  destruct (works_put r1 v pr1 (λ _, Hg1) Ht1) as [Ht2 Hf2].
  assert (forth r (set_r_prs (Tracker.put v pr1 (r_prs r1)) r1)) as Hf3 by by transitivity r1.
  destruct (IH _ E Ht2) as [Ht' Hf4]; [|split; [done|by etrans]].
  intros v' pr' Hin. destruct (Hl v' pr') as [Hv' Hg']; [by right|]. split; [|by eapply good_pr_forth].
  rewrite (ft_id _ _ Hf3). done.
Qed.
Lemma for_peers_works f :
  (∀ v pr r r' pr', f v pr r = Done (r', pr') → serves_other v pr r r' pr') → keeps works (for_peers (S := S) f).
Proof.
  intros Hf r r' u E Ht. unfold for_peers in E. apply rm_bind_Done in E as (r1 & self & [-> ->]%rm_gets_Done & E).
  apply rm_bind_Done in E as (r1 & l & [-> ->]%rm_gets_Done & E). apply (for_list_works f _ _ _ _ Hf E Ht).
  intros v pr [Hv Hin%elem_of_iter_map]%list_elem_of_filter. split; [exact Hv|]. by apply (td_prs _ Ht).
Qed.
Lemma send_append_works v : keeps works (send_append (S := S) v).
Proof using acked_le. apply on_peer_works. intros *. apply core_send_append_serves. Qed.
Lemma send_append_aggressively_works v : keeps works (send_append_aggressively (S := S) v).
Proof using acked_le. apply on_peer_works. intros *. apply core_send_append_aggressively_serves. Qed.
Lemma bcast_append_works : keeps works (bcast_append (S := S)).
Proof using acked_le. apply for_peers_works. intros *. intros E. by apply serves_others, core_send_append_serves. Qed.

(** A heartbeat commits no more than the peer has acknowledged. *)
Lemma core_send_heartbeat_serves v pr ctx r r' u : core_send_heartbeat v pr ctx r = Done (r', u) → serves_other v pr r r' pr.
Proof using acked_le.
  intros E. unfold core_send_heartbeat in E. apply rm_bind_Done in E as (r1 & c & [-> ->]%rm_gets_Done & E).
  apply send_spec in E as (g & Hg & ->).
  intros Ht Hv Hgp. assert (fine r g) as Hfine.
  { pose proof Hgp as [Gm _ _ _]. pose proof (stamp_fields _ _ _ Hg) as (_ & _ & Hc & _ & _ & Htm). apply stamp_spec in Hg as (Hty & _ & Hto & _).
    assert (m_type g = MsgHeartbeat ∧ m_commit g = N.min (pr_matched pr) (l_committed (r_raft_log r)) ∧ m_to g = v ∧ m_term g = r_term r)
      as (Hty' & Hc' & Hto' & Htm') by (destruct ctx; simpl in *; done).
    unfold fine. rewrite Hty', Hc', Htm'. split_and!; [apply Ht|lia|]. destruct Gm as [|[Ha|[]]]; [left; lia| |done].
    right. rewrite Hto'. eapply acked_le; [|done]. lia. }
  destruct (works_out r g (λ _, Hfine) Ht) as [Ht' Hf]. split_and!; [done..|]. by eapply good_pr_forth.
Qed.
Lemma bcast_heartbeat_works ctx : keeps works (bcast_heartbeat_with_ctx (S := S) ctx).
Proof using acked_le.
  apply for_peers_works. intros v pr r r' pr' E. apply rm_bind_Done in E as (r1 & u & E & [-> ->]%rm_ret_Done).
  by eapply core_send_heartbeat_serves.
Qed.
End lead.
