(* ===== verification/RaftDuty.v ===== *)
(** * The duties of a leader

    Every handler of a leader keeps it [tidy]: the answers of its peers, proposals,
    read requests, the reports of the application, and configuration changes. *)
From S2P Require Import Prelude Errors Proto Util Quorum Storage Unstable ReadOnly Config.
From S2P Require Import Majority Joint Progress Tracker RaftLog RaftLogSpec RaftLogReads LogTotal LogFinal RaftState RaftSend RaftLogic.
From S2P Require Import RaftRole RaftStep RaftReset RaftTotal RaftEnds RaftWalk RaftFinal RaftPlain RaftSilent RaftAppends RaftEffect RaftLead.
From S2P Require ConfChange.
#[local] Open Scope N_scope.

(** The members of a quorum. *)
Lemma joint_quorum_members conf (P : N → Prop) `{∀ v, Decision (P v)} :
  joint_quorum_of conf P → ∃ Q : gset N, joint_quorum_of conf (.∈ Q) ∧
    ∀ v, v ∈ Q → P v ∧ (v ∈ voters (incoming conf) ∨ v ∈ voters (outgoing conf)).
Proof.
  intros Hq. exists (filter P (voters (incoming conf) ∪ voters (outgoing conf))). split; [|intros v; set_solver].
  destruct Hq as [Hi Ho]. split; [destruct Hi as [|Hi]; [by left|right]|destruct Ho as [|Ho]; [by left|right]];
    (eapply N.lt_le_trans; [eassumption|]); apply count_mono; intros v; set_solver.
Qed.

Section duty.
Context {S : Type} `{StorageLaws S, PbMessage, HashOrder, Rng, ConfChangeCodec}.
Implicit Types r : Raft S.
Context (conf : JointConfig) (Hconf : joint_bounded conf).
Context (acked : u64 → u64 → Prop) (acked_le : ∀ v n m, m ≤ n → acked v n → acked v m).
Context (t c0 : u64) (base : list Message).
Abbreviation tidy := (tidy conf acked t c0 base).
Abbreviation works := (works conf acked t c0 base).
Abbreviation good_pr := (good_pr acked).
Abbreviation known := (known acked).
Abbreviation fine := (fine acked t).

Ltac leaf := solve [apply (ba_same (R := works)); by constructor].
Hint Resolve send_append_works send_append_aggressively_works bcast_append_works bcast_heartbeat_works append_entry_works : raft_keeps.

(** ** Committing *)
Lemma known_quorum r c e b :
  tidy r → maximal_committed_index (r_prs r) = Done (c, b) → entry_at (r_raft_log r) c = Some e →
  ∃ Q : gset u64, joint_quorum_of conf (.∈ Q) ∧ ∀ v, v ∈ Q → known r v c.
Proof using Hconf acked_le.
  intros Ht E He. unfold maximal_committed_index in E. rewrite (td_conf _ _ _ _ _ _ Ht) in E.
  apply joint_committed_quorum, joint_quorum_members in E as (Q & HQ & Hq); [|done]. exists Q. split; [done|].
  intros v [Ha _]%Hq. unfold acked_ge, acked_or_default, acked_index, ProgressMap_acked in Ha.
  assert (1 ≤ c) as Hc.
  { unfold entry_at in He. rewrite (td_first _ _ _ _ _ _ Ht) in He. by destruct (N.ltb_spec c 1). }
  destruct (pt_progress (r_prs r) !! v) as [pr|] eqn:Epr; simpl in Ha; [|lia].
  destruct (gp_matched _ _ _ _ (td_prs _ _ _ _ _ _ Ht v pr Epr)) as [|[Hk|[-> Hk]]]; [lia|left|right; split; [done|lia]].
  by eapply acked_le.
Qed.
Lemma maybe_commit_works : keeps works (maybe_commit (S := S)).
Proof using Hconf acked_le.
  intros r r' b E. unfold maybe_commit in E. apply rm_bind_Done in E as (r1 & [c gc] & [-> Hc]%rm_asks_Done & E).
  apply rm_bind_Done in E as (r1 & tm & [-> ->]%rm_gets_Done & E). apply rm_bind_Done in E as (r1 & ok & El & E).
  apply rm_with_log_Done in El as (l & El & ->). transitivity (set_r_raft_log l r).
  - apply works_log; [by eapply calm_commit|]. intros Ht.
    destruct (maybe_commit_entry _ _ _ _ _ (td_log _ _ _ _ _ _ Ht) El) as [Hl Hcm].
    split_and!; [by eapply maybe_commit_dummy|by rewrite Hl|]. destruct Hcm as [|[Hi (e & He & Hte)]]; [by left|right; right]. simpl. rewrite Hi. split.
    + exists e. split; [by rewrite Hl|]. rewrite Hte. apply Ht.
    + destruct (known_quorum r c e gc Ht Hc He) as (Q & HQ & Hq). exists Q. split; [done|]. intros v Hv.
      eapply known_stays; [| |by apply Hq]; [done|]. simpl. by rewrite Hl.
  - destruct ok; [|by apply rm_ret_Done in E as [-> _]]. set (r1 := set_r_raft_log l r) in *.
    apply rm_bind_Done in E as (r2 & self & [-> ->]%rm_gets_Done & E). apply rm_bind_Done in E as (r2 & cc & [-> ->]%rm_gets_Done & E).
    apply rm_bind_Done in E as (r2 & pr & [-> Hpr]%rm_unwrap_pr_Done & E). apply rm_bind_Done in E as (r2 & [] & ->%rm_modify_Done & E).
    apply rm_ret_Done in E as [-> _]. apply works_put. intros Ht. pose proof (td_prs _ _ _ _ _ _ Ht _ _ Hpr) as [Gm Gs Gr Gn].
    unfold update_committed. destruct (_ <? _); by constructor.
Qed.
Hint Resolve maybe_commit_works : raft_keeps.

(** ** Read requests *)

(** The same as [works], given [P] to begin with. *)
Definition works_if (P : Prop) r r' : Prop := tidy r → P → tidy r' ∧ forth r r'.
Lemma answer_read_works m i r r' u : answer_read m i r = Done (r', u) → works_if (i ≤ l_committed (r_raft_log r)) r r'.
Proof.
  intros E Ht Hi. unfold answer_read, handle_ready_read_index in E. apply rm_bind_Done in E as (r1 & resp & E1 & E).
  apply rm_bind_Done in E1 as (r2 & self & [-> ->]%rm_gets_Done & E1). destruct (_ || _).
  - apply rm_bind_Done in E1 as (r2 & e & [-> _]%rm_lift_Done & E1). apply rm_bind_Done in E1 as (r2 & [] & ->%rm_modify_Done & E1).
    apply rm_ret_Done in E1 as [-> ->]. apply rm_ret_Done in E as [-> _]. revert Ht. leaf.
  - apply rm_ret_Done in E1 as [-> ->]. apply send_spec in E as (g & Hg & ->). apply works_out; [|done]. intros _.
    pose proof (stamp_fields _ _ _ Hg) as (Hix & _ & _ & _ & _ & Htm). apply stamp_spec in Hg as (Hty & _). simpl in *.
    unfold RaftLead.fine. rewrite Hty, Hix, Htm. split; [apply Ht|done].
Qed.
Lemma answer_reads_works rss r r' u :
  answer_reads rss r = Done (r', u) → works_if (∀ rs, rs ∈ rss → ris_index rs ≤ l_committed (r_raft_log r)) r r'.
Proof.
  revert r. induction rss as [|rs rss IH]; intros r E Ht Hi; [by apply rm_ret_Done in E as [-> _]|].
  cbn [answer_reads] in E. apply rm_bind_Done in E as (r1 & [] & E1%answer_read_works & E).
  destruct (E1 Ht) as [Ht1 Hf1]; [apply Hi; by left|]. destruct (IH r1 E Ht1) as [Ht2 Hf2]; [|split; [done|by transitivity r1]].
  intros rs' Hin. etrans; [apply Hi; by right|apply Hf1].
Qed.
(** Only pending requests are released. *)
Lemma pop_requests_pending n ro ro' rss :
  pop_requests n ro = Done (ro', rss) →
  (∀ ctx rs, ro_pending_read_index ro' !! ctx = Some rs → ro_pending_read_index ro !! ctx = Some rs) ∧
  (∀ rs, rs ∈ rss → ∃ ctx, ro_pending_read_index ro !! ctx = Some rs).
Proof using.
  revert ro ro' rss. induction n as [|n IH]; intros ro ro' rss E; cbn [pop_requests] in E.
  { injection E as <- <-. split; [done|]. by intros rs ?%elem_of_nil. }
  apply bind_Done in E as (ctx0 & _ & E). apply bind_Done in E as (st & Hst%unwrap_Done & E).
  apply bind_Done in E as ([ro1 rss1] & [I1 I2]%IH & [= <- <-]). simpl in *. split.
  - intros ctx rs Hr. by apply I1, lookup_delete_Some in Hr as [_ ?].
  - intros rs [->|Hin]%elem_of_cons; [by exists ctx0|]. destruct (I2 rs Hin) as (ctx & [_ ?]%lookup_delete_Some). by exists ctx.
Qed.
Lemma release_reads_works ctx : keeps works (release_reads (S := S) ctx).
Proof using.
  intros r r' u E. unfold release_reads in E. apply rm_bind_Done in E as (r1 & rss & E1 & Ha'%answer_reads_works).
  apply bind_Done in E1 as ([ro rss'] & Ha & [= <- <-]).
  assert ((∀ ctx rs, ro_pending_read_index ro !! ctx = Some rs → ro_pending_read_index (r_read_only r) !! ctx = Some rs) ∧
    (∀ rs, rs ∈ rss' → ∃ ctx, ro_pending_read_index (r_read_only r) !! ctx = Some rs)) as [I1 I2].
  { unfold advance in Ha. apply bind_Done in Ha as ([i|] & _ & Ha); [by eapply pop_requests_pending|].
    injection Ha as <- <-. split; [done|]. by intros rs ?%elem_of_nil. }
  assert (works r (set_r_read_only ro r)) as Hw by (apply works_reads; auto).
  intros Ht. destruct (Hw Ht) as [Ht1 Hf1]. destruct (Ha' Ht1) as [Ht2 Hf2]; [|split; [done|by etrans]].
  intros rs [c Hc]%I2. by apply (td_reads _ _ _ _ _ _ Ht c).
Qed.
Hint Resolve release_reads_works : raft_keeps.
Lemma recv_ack_works (id : Raft S → N) ctx :
  keeps works (λ r, let '(ro, acks) := recv_ack (id r) ctx (r_read_only r) in Done (set_r_read_only ro r, acks)).
Proof using.
  intros r r' a E. unfold recv_ack in E. destruct (ro_pending_read_index (r_read_only r) !! ctx) as [rs|] eqn:Hrs; injection E as <- <-;
    apply works_reads; [|by left].
  intros Ht ctx' rs'. simpl. intros [[<- <-]|[_ ?]]%lookup_insert_Some; [right|by left].
  exact (td_reads _ _ _ _ _ _ Ht _ _ Hrs).
Qed.
Hint Resolve recv_ack_works : raft_keeps.

(** ** The progress of a peer *)
Lemma update_committed_same c pr : pr_matched (update_committed c pr) = pr_matched pr ∧
  pr_next_idx (update_committed c pr) = pr_next_idx pr ∧ pr_state (update_committed c pr) = pr_state pr ∧
  pr_pending_request_snapshot (update_committed c pr) = pr_pending_request_snapshot pr.
Proof using. unfold update_committed. by destruct (_ <? _). Qed.
Section progress.
Context r (v : u64) (pr : Progress) (Hg : good_pr r v pr).
Lemma good_like pr' :
  pr_matched pr' = pr_matched pr → pr_next_idx pr' = pr_next_idx pr → pr_state pr' = pr_state pr →
  pr_pending_request_snapshot pr' = pr_pending_request_snapshot pr → good_pr r v pr'.
Proof using Hg. intros E1 E2 E3 E4. destruct Hg. constructor; by rewrite ?E1, ?E2, ?E3, ?E4. Qed.
Lemma good_probe pr' : become_probe pr = Done pr' → good_pr r v pr'.
Proof using Hg.
  destruct Hg as [Gm Gs Gr Gn]. unfold become_probe. rewrite bool_decide_eq_false_2 by done. intros E.
  apply bind_Done in E as (a & [_ ->]%add64_Done & [= <-]). constructor; simpl; [done|done|done|lia].
Qed.
Lemma good_accept i pr' : accept_progress i pr = Done pr' → good_pr r v pr'.
Proof using Hg.
  destruct Hg as [Gm Gs Gr Gn]. unfold accept_progress, become_replicate. destruct (pr_state pr) eqn:Est; intros E; [|apply bind_Done in E as (ins & _ & [= <-])|done].
  - apply bind_Done in E as (a & [_ ->]%add64_Done & [= <-]). constructor; simpl; [done|done|done|lia].
  - by apply good_like.
Qed.
Lemma good_update n pr' b : n = 0 ∨ known r v n → maybe_update n pr = Done (pr', b) → good_pr r v pr'.
Proof using Hg.
  destruct Hg as [Gm Gs Gr Gn]. intros Hn E. unfold maybe_update in E. apply bind_Done in E as (n1 & [_ ->]%add64_Done & [= <- _]).
  destruct (N.ltb_spec (pr_matched pr) n); simpl; destruct (N.ltb_spec (pr_next_idx pr) (n + 1)); constructor; simpl; try done; lia.
Qed.
Lemma good_decrease rejected hint pr' b : maybe_decr_to rejected hint 0 pr = Done (pr', b) → good_pr r v pr'.
Proof using Hg.
  pose proof Hg as [Gm Gs Gr Gn]. intros E. unfold maybe_decr_to in E. change (0 =? INVALID_INDEX) with true in E.
  case_bool_decide.
  - destruct (_ || _); [by injection E as <- _|].
    apply bind_Done in E as (a & [_ ->]%add64_Done & [= <- _]). constructor; simpl; [done|done|done|lia].
  - apply bind_Done in E as (stale & Hs & E). rewrite andb_true_r in E. destruct stale; [by injection E as <- _|].
    apply bind_Done in E as (pr1 & E1 & [= <- _]). apply bind_Done in E1 as (h & [_ ->]%add64_Done & E1).
    apply bind_Done in E1 as (a & [_ ->]%add64_Done & [= <-]). simpl. rewrite (proj2 (N.eqb_neq _ _)) in Hs by lia.
    apply bind_Done in Hs as (p & [_ ->]%sub64_Done & [= Hs]). apply negb_false_iff, N.eqb_eq in Hs.
    destruct (N.ltb_spec (N.min rejected (hint + 1)) (pr_matched pr + 1)); constructor; simpl; try done; lia.
Qed.
End progress.
Lemma put_good v pr pr' r :
  Tracker.get v (r_prs r) = Some pr → (good_pr r v pr → good_pr r v pr') → works r (set_r_prs (Tracker.put v pr' (r_prs r)) r).
Proof using. intros Hg Hp. apply works_put. intros Ht. by apply Hp, (td_prs _ _ _ _ _ _ Ht). Qed.

(** ** The answers of the peers *)

(** An answer asks for no snapshot, and one that accepts entries has been given by its sender. *)
Definition heard (m : Message) : Prop :=
  m_type m = MsgAppendResponse → m_request_snapshot m = 0 ∧
    (m_reject m = false → m_index m = 0 ∨ acked (m_from m) (m_index m)).

Lemma send_timeout_now_works v : keeps works (send_timeout_now (S := S) v).
Proof using. by apply (send_walks works). Qed.
Hint Resolve send_timeout_now_works : raft_keeps.
Lemma after_progress_works v b : keeps works (after_progress (S := S) v b).
Proof using Hconf acked_le. unfold after_progress, unwrap_pr. keeps leaf. Qed.
Hint Resolve after_progress_works : raft_keeps.
Lemma handle_append_response_works m : m_type m = MsgAppendResponse → heard m → keeps works (handle_append_response (S := S) m).
Proof using Hconf acked_le.
  intros Hty [Hrs Hm]%(λ Hh, Hh Hty) r r' u E. unfold handle_append_response in E. rewrite Hrs in E. apply rm_bind_Done in E as (r1 & nx & E1 & E).
  assert (r1 = r) as ->.
  { destruct (_ && _); [|by apply rm_ret_Done in E1 as [-> _]].
    apply rm_bind_Done in E1 as (r2 & [i o] & [-> _]%rm_asks_Done & [-> _]%rm_ret_Done). done. }
  apply rm_bind_Done in E as (r1 & p & [-> ->]%rm_gets_Done & E).
  destruct (Tracker.get (m_from m) (r_prs r)) as [pr|] eqn:Hpr; [|by apply rm_ret_Done in E as [-> _]].
  set (pr0 := update_committed _ _) in E.
  assert (good_pr r (m_from m) pr → good_pr r (m_from m) pr0) as H0'.
  { intros Hg. destruct (update_committed_same (m_commit m) (set_pr_recent_active true pr)) as (? & ? & ? & ?). by apply (good_like r _ pr Hg). }
  destruct (m_reject m) eqn:Hrj.
  - apply rm_bind_Done in E as (r1 & [pr1 dec] & [-> Hd]%rm_lift_Done & E).
    assert (good_pr r (m_from m) pr → good_pr r (m_from m) pr1) as H1' by (intros Hg%H0'; by eapply good_decrease).
    destruct dec; simpl in E; [|apply rm_modify_Done in E as ->; by eapply put_good].
    apply rm_bind_Done in E as (r1 & pr2 & E2 & E).
    assert (r1 = r ∧ (good_pr r (m_from m) pr1 → good_pr r (m_from m) pr2)) as [-> H2'].
    { case_bool_decide; [apply rm_lift_Done in E2 as [-> E2]|apply rm_ret_Done in E2 as [-> ->]; by split]. split; [done|]. intros Hg. by eapply good_probe. }
    apply rm_bind_Done in E as (r1 & [] & ->%rm_modify_Done & E).
    transitivity (set_r_prs (Tracker.put (m_from m) pr2 (r_prs r)) r); [eapply put_good; [exact Hpr|auto]|].
    by eapply send_append_works.
  - apply rm_bind_Done in E as (r1 & [pr1 upd] & [-> Hd]%rm_lift_Done & E).
    assert (good_pr r (m_from m) pr → good_pr r (m_from m) pr1) as H1'.
    { intros Hg%H0'. eapply good_update; [exact Hg| |exact Hd]. destruct (Hm eq_refl); [by left|right; by left]. }
    destruct upd; simpl in E; [|apply rm_modify_Done in E as ->; by eapply put_good].
    apply rm_bind_Done in E as (r1 & pr2 & [-> Ha]%rm_lift_Done & E).
    apply rm_bind_Done in E as (r1 & [] & ->%rm_modify_Done & E).
    transitivity (set_r_prs (Tracker.put (m_from m) pr2 (r_prs r)) r);
      [eapply put_good; [exact Hpr|intros Hg%H1'; by eapply good_accept]|]. by eapply after_progress_works.
Qed.
Lemma handle_heartbeat_response_works m : keeps works (handle_heartbeat_response (S := S) m).
Proof using acked_le.
  intros r r' u E. unfold handle_heartbeat_response in E. apply rm_bind_Done in E as (r1 & p & [-> ->]%rm_gets_Done & E).
  destruct (Tracker.get (m_from m) (r_prs r)) as [pr|] eqn:Hpr; [|by apply rm_ret_Done in E as [-> _]].
  set (pr0 := resume _) in E.
  assert (good_pr r (m_from m) pr → good_pr r (m_from m) pr0) as H0'.
  { intros Hg. destruct (update_committed_same (m_commit m) pr) as (? & ? & ? & ?). by apply (good_like r _ pr Hg). }
  apply rm_bind_Done in E as (r1 & pr1 & E1 & E).
  assert (r1 = r ∧ (good_pr r (m_from m) pr → good_pr r (m_from m) pr1)) as [-> H1'].
  { destruct (_ && _); [|apply rm_ret_Done in E1 as [-> ->]; by split].
    apply rm_bind_Done in E1 as (r2 & ins & [-> _]%rm_lift_Done & [-> ->]%rm_ret_Done). split; [done|]. intros Hg%H0'. by eapply good_like. }
  apply rm_bind_Done in E as (r1 & li & [-> _]%rm_asks_Done & E). apply rm_bind_Done in E as (r2 & pr2 & E2 & E).
  apply rm_bind_Done in E as (r3 & [] & ->%rm_modify_Done & E). transitivity (set_r_prs (Tracker.put (m_from m) pr2 (r_prs r2)) r2).
  - apply (serves_put conf acked t c0 base (m_from m) pr1); [|intros Ht; by apply H1', (td_prs _ _ _ _ _ _ Ht)].
    destruct (_ || _); [by eapply core_send_append_serves|]. apply rm_ret_Done in E2 as [-> ->]. by apply serves_works.
  - pose proof (recv_ack_works (λ _, m_from m)). keeps_run E leaf.
Qed.
Lemma handle_transfer_leader_works m : keeps works (handle_transfer_leader (S := S) m).
Proof using acked_le. unfold handle_transfer_leader, get_pr, abort_leader_transfer. keeps leaf. Qed.
(** No snapshot is under way. *)
Lemma handle_snapshot_status_works m : keeps works (handle_snapshot_status (S := S) m).
Proof using.
  intros r r' u E. unfold handle_snapshot_status in E. apply rm_bind_Done in E as (r1 & p & [-> ->]%rm_gets_Done & E).
  destruct (Tracker.get (m_from m) (r_prs r)) as [pr|] eqn:Hpr; [|by apply rm_ret_Done in E as [-> _]].
  case_bool_decide as Hst; simpl in E; [|by apply rm_ret_Done in E as [-> _]].
  apply rm_bind_Done in E as (r1 & pr1 & [-> _]%rm_lift_Done & ->%rm_modify_Done). apply works_put. intros Ht.
  by destruct (td_prs _ _ _ _ _ _ Ht _ _ Hpr).
Qed.
Lemma handle_unreachable_works m : keeps works (handle_unreachable (S := S) m).
Proof using.
  intros r r' u E. unfold handle_unreachable in E. apply rm_bind_Done in E as (r1 & p & [-> ->]%rm_gets_Done & E).
  destruct (Tracker.get (m_from m) (r_prs r)) as [pr|] eqn:Hpr; [|by apply rm_ret_Done in E as [-> _]].
  case_bool_decide; [|by apply rm_ret_Done in E as [-> _]].
  apply rm_bind_Done in E as (r1 & pr1 & [-> Hp]%rm_lift_Done & ->%rm_modify_Done). eapply put_good; [done|]. intros Hg. by eapply good_probe.
Qed.
Lemma check_quorum_active_works : keeps works (check_quorum_active (S := S)).
Proof using.
  intros r r' b E. unfold check_quorum_active in E. apply rm_bind_Done in E as (r1 & i & [-> ->]%rm_gets_Done & E).
  apply rm_with_prs_Done in E as (p & E & ->). unfold quorum_recently_active in E.
  destruct (foldl _ _ _) as [m active] eqn:Hf. apply bind_Done in E as (q & _ & [= <- <-]).
  apply activity_loop in Hf as [Hm _]; [|apply NoDup_iter_map_keys|intros id pr; apply elem_of_iter_map].
  intros Ht. apply tidy_forth; simpl; try done; try apply Ht; auto.
  intros v pr. unfold Tracker.get. simpl. rewrite Hm. case_bool_decide; [|by left].
  intros (pr0 & Hpr & ->)%fmap_Some. right. pose proof (td_prs _ _ _ _ _ _ Ht v pr0 Hpr) as [? ? ? ?]. by constructor.
Qed.

(** ** Requests *)
Lemma screen_entries_works i es : keeps works (screen_entries (S := S) i es).
Proof using. revert i. induction es as [|e es IH]; intros i; simpl; keeps leaf. Qed.
Hint Resolve screen_entries_works : raft_keeps.
Lemma propose_works m : keeps works (propose (S := S) m).
Proof using acked_le. unfold propose, get_pr. keeps leaf. Qed.
Lemma answer_committed_works m : keeps works (committed ← gets (λ r : Raft S, l_committed (r_raft_log r)); answer_read m committed).
Proof using.
  intros r r' u E Ht. apply rm_bind_Done in E as (r1 & c & [-> ->]%rm_gets_Done & E%answer_read_works). by apply E.
Qed.
Lemma leader_read_index_works m : keeps works (leader_read_index (S := S) m).
Proof using acked_le.
  intros r r' u E. unfold leader_read_index in E. apply rm_bind_Done in E as (r1 & ok & [-> _]%rm_asks_Done & E).
  destruct ok; simpl in E; [|by apply rm_ret_Done in E as [-> _]].
  apply rm_bind_Done in E as (r1 & sg & [-> ->]%rm_gets_Done & E). apply rm_bind_Done in E as (r1 & c & [-> ->]%rm_gets_Done & E).
  assert (answer_read m (l_committed (r_raft_log r)) r = Done (r', u) → works r r') as Ha.
  { intros Ha%answer_read_works Ht. by apply Ha. }
  destruct (is_singleton _); [auto|]. apply rm_bind_Done in E as (r1 & o & [-> ->]%rm_gets_Done & E). destruct (ro_option _); [|auto].
  apply rm_bind_Done in E as (r1 & e & [-> _]%rm_lift_Done & E). apply rm_bind_Done in E as (r1 & [] & E1 & E).
  transitivity r1; [|by eapply bcast_heartbeat_works]. apply bind_Done in E1 as (ro & Hro & [= <-]). apply works_reads. intros Ht ctx rs.
  unfold add_request in Hro. apply bind_Done in Hro as (e0 & _ & Hro). case_bool_decide; injection Hro as <-; [by left|].
  simpl. intros [[<- <-]|[_ ?]]%lookup_insert_Some; [by right|by left].
Qed.

(** ** Messages to the leader *)
Hint Resolve handle_heartbeat_response_works handle_transfer_leader_works handle_snapshot_status_works handle_unreachable_works
  propose_works leader_read_index_works : raft_keeps.
Lemma step_leader_works m : m_type m ≠ MsgCheckQuorum → heard m → keeps works (step_leader (S := S) m).
Proof using Hconf acked_le.
  intros Hm Hh. pose proof (handle_append_response_works m). unfold step_leader, ok_, bcast_heartbeat.
  destruct (m_type m) eqn:Hty; try done; keeps leaf; eauto.
Qed.

(** ** Reports of the application *)
Lemma commit_apply_works i : keeps works (commit_apply (S := S) i).
Proof using.
  unfold commit_apply, commit_apply_internal, append_entry_or_panic. cbn [negb]. keeps leaf.
  apply keeps_update_log. intros r l E. by eapply (ba_apply (R := works)).
Qed.
Lemma maybe_persist_moves i tm (l l' : RaftLog S) b :
  maybe_persist i tm l = Done (l', b) → l' = set_l_persisted (l_persisted l') l ∧ l_persisted l ≤ l_persisted l' ∧ (b = true → l_persisted l' = i).
Proof using.
  intros E. unfold maybe_persist in E. apply bind_Done in E as (ok & Hok & E).
  destruct ok; [|injection E as <- <-; split_and!; [by destruct l|done|done]].
  injection E as <- <-. destruct (N.ltb_spec (l_persisted l) i); [|done]. by split_and!; [|simpl; lia|].
Qed.
(** What a leader has persisted it knows itself. *)
Lemma on_persist_tidy i tm r r' u :
  tidy r → on_persist_entries i tm r = Done (r', u) →
  ∃ l b, maybe_persist i tm (r_raft_log r) = Done (l, b) ∧ tidy r' ∧ forth (set_r_raft_log l r) r'.
Proof using Hconf acked_le.
  intros Ht E. unfold on_persist_entries in E. apply rm_bind_Done in E as (r1 & b & E1 & E).
  apply rm_with_log_Done in E1 as (l & El & ->). exists l, b. split; [done|].
  pose proof (maybe_persist_moves _ _ _ _ _ El) as (Hl & Hp & Hi). set (r1 := set_r_raft_log l r) in *.
  assert (tidy r1) as Ht1.
  { destruct (calm_facts _ _ (td_log _ _ _ _ _ _ Ht) (calm_persist _ _ _ _ _ El)) as (Hw & Hf & He & Hco).
    assert (dummy l = dummy (r_raft_log r)) as Hd by (rewrite Hl; done).
    apply (tidy_change conf acked t c0 base r); simpl; rewrite ?He; try done; try apply Ht; auto. left. by rewrite Hl. }
  assert (works r1 r') as Hw; [|exact (Hw Ht1)].
  apply rm_bind_Done in E as (r2 & st & [-> ->]%rm_gets_Done & E). apply rm_when_Done in E.
  destruct (b && _) eqn:Hb; [|by subst]. apply andb_true_iff in Hb as [-> _].
  apply rm_bind_Done in E as (r2 & self & [-> ->]%rm_gets_Done & E). apply rm_bind_Done in E as (r2 & pr & [-> Hpr]%rm_unwrap_pr_Done & E).
  apply rm_bind_Done in E as (r2 & [pr1 upd] & [-> Hu]%rm_lift_Done & E). apply rm_bind_Done in E as (r2 & [] & ->%rm_modify_Done & E).
  transitivity (set_r_prs (Tracker.put (r_id r1) pr1 (r_prs r1)) r1).
  { eapply put_good; [done|]. intros Hg. eapply good_update; [done| |done]. right. right. split; [done|]. simpl. by rewrite Hi. }
  keeps_run E leaf.
Qed.

(** ** Configuration changes *)
Definition same_conf r r' : Prop := pt_conf (r_prs r') = pt_conf (r_prs r).
#[local] Instance same_conf_preorder : PreOrder same_conf.
Proof. split; [by intros r|]. unfold same_conf. intros r1 r2 r3. congruence. Qed.
Lemma sends_same_conf {A} (m : rm S A) : keeps sends m → keeps same_conf m.
Proof using. intros Hm. eapply keeps_sub; [exact Hm|]. by intros r r' (st & p & ms & rs & ro & -> & _). Qed.
Lemma post_conf_change_same_conf : keeps same_conf (post_conf_change (S := S)).
Proof using.
  pose proof (sends_same_conf _ bcast_append_sends) as Hb. pose proof (λ c, sends_same_conf _ (release_reads_sends c)) as Hr.
  assert (keeps same_conf (maybe_commit (S := S))) as Hc by (unfold maybe_commit, unwrap_pr; keeps ltac:(done)).
  assert (keeps same_conf (for_peers (S := S) (λ id pr, '(pr, _) ← maybe_send_append id pr false; mret pr))) as Hp.
  { apply sends_same_conf, for_peers_sends. intros id pr. keeps ltac:(done). }
  assert (∀ ctx, keeps same_conf (λ r : Raft S, let '(ro, acks) := recv_ack (r_id r) ctx (r_read_only r) in
    Done (set_r_read_only ro r, acks))) as Ha.
  { intros ctx r r' a E. destruct (recv_ack _ _ _). injection E as <- <-. done. }
  unfold post_conf_change, abort_leader_transfer. keeps ltac:(done).
Qed.
Lemma post_conf_change_works : keeps works (post_conf_change (S := S)).
Proof using Hconf acked_le.
  assert (keeps works (for_peers (S := S) (λ id pr, '(pr, _) ← maybe_send_append id pr false; mret pr))) as Hp.
  { apply for_peers_works. intros v pr r r' pr' E. apply rm_bind_Done in E as (r1 & [p b] & E & [-> ->]%rm_ret_Done).
    by eapply serves_others, maybe_send_append_serves. }
  pose proof (recv_ack_works r_id). unfold post_conf_change, abort_leader_transfer. keeps leaf.
Qed.
(** The peers of the new configuration: those there were, and new ones. *)
Lemma apply_conf_peers cfg changes n p v pr :
  Tracker.get v (apply_conf cfg changes n p) = Some pr →
  Tracker.get v p = Some pr ∨ (pr_matched pr = 0 ∧ pr_next_idx pr = n ∧ pr_state pr = Probe ∧ pr_pending_request_snapshot pr = 0).
Proof using.
  unfold apply_conf. assert (Tracker.get v (set_pt_conf cfg p) = Tracker.get v p) as <- by done.
  generalize (set_pt_conf cfg p). clear p. induction changes as [|[id c] changes IH]; intros p Hg; [by left|]. cbn [foldl] in Hg.
  apply IH in Hg as [Hg|]; [|by right]. destruct c; unfold Tracker.get in *; simpl in Hg.
  - apply lookup_insert_Some in Hg as [[_ <-]|[_ ?]]; [by right|by left].
  - apply lookup_delete_Some in Hg as [_ ?]. by left.
Qed.
(** A change that leaves the voters alone. *)
Lemma apply_conf_change_works cc r r' res :
  apply_conf_change cc r = Done (r', res) → c_voters (pt_conf (r_prs r')) = conf → works r r'.
Proof using Hconf acked_le.
  intros E Hc. unfold apply_conf_change in E. apply rm_bind_Done in E as (r1 & p & [-> ->]%rm_gets_Done & E).
  destruct (if Proto.leave_joint cc then _ else _) as [[cfg ch]|]; [|by apply rm_ret_Done in E as [-> _]].
  apply rm_bind_Done in E as (r1 & li & [-> Hli]%rm_asks_Done & E). apply rm_bind_Done in E as (r1 & [] & ->%rm_modify_Done & E).
  set (r1 := set_r_prs _ r) in E. apply rm_bind_Done in E as (r2 & cs & E & [-> _]%rm_ret_Done).
  transitivity r1; [|by eapply post_conf_change_works]. rewrite (post_conf_change_same_conf _ _ _ E) in Hc.
  intros Ht. apply tidy_forth; simpl; try done; try apply Ht; auto.
  intros v pr [Hg|(Hm & Hn & Hst & Hrs)]%apply_conf_peers; [by left|right]. rewrite last_index_spec in Hli by apply Ht. injection Hli as <-.
  assert (1 < log_end (r_raft_log r)).
  { pose proof (td_some _ _ _ _ _ _ Ht). unfold log_end, len. rewrite (td_first _ _ _ _ _ _ Ht). destruct (ents (r_raft_log r)); [done|simpl; lia]. }
  constructor; [by left|by rewrite Hst|done|]. rewrite Hm, Hn. simpl. lia.
Qed.

(** ** All of it *)
Lemma labor_works m r r' :
  labor m r r' → ((m_type m = MsgAppendResponse → m_term m ≠ 0 → r_term r = m_term m) → heard m) → works r r'.
Proof using Hconf acked_le.
  intros [Hu|res Hm Ht E|ctx E|b E|i E] Hh.
  - by apply (ba_same (R := works)).
  - eapply step_leader_works; [done|auto|done].
  - by eapply bcast_heartbeat_works.
  - by eapply check_quorum_active_works.
  - by eapply commit_apply_works.
Qed.
Lemma labors_works m r r' :
  rtc (labor m) r r' → ((m_type m = MsgAppendResponse → m_term m ≠ 0 → r_term r = m_term m) → heard m) → works r r'.
Proof using Hconf acked_le.
  induction 1 as [|r1 r2 r3 Hl _ IH]; intros Hh; [done|]. transitivity r2; [by eapply labor_works|].
  apply IH. by rewrite (le_term _ _ (labor_leads _ _ _ Hl)).
Qed.

(** ** A new leader *)
Lemma reset_list (f : u64 → Progress → outcome Progress) l r r' u (P : u64 → Progress → Prop) :
  for_progress_list (λ id pr, lift (f id pr)) l r = Done (r', u) →
  (∀ id pr pr', f id pr = Done pr' → P id pr') →
  (∀ v pr, Tracker.get v (r_prs r) = Some pr → P v pr ∨ v ∈ l.*1) →
  (∃ p, r' = set_r_prs p r) ∧ ∀ v pr, Tracker.get v (r_prs r') = Some pr → P v pr.
Proof using.
  intros E HP. revert r E. induction l as [|[id pr] l IH]; intros r E Hl; cbn [for_progress_list] in E.
  - apply rm_ret_Done in E as [-> _]. split; [exists (r_prs r); by destruct r|]. intros v pr Hg.
    by destruct (Hl v pr Hg) as [|?%elem_of_nil].
  - apply rm_bind_Done in E as (r1 & pr1 & [-> Hf%HP]%rm_lift_Done & E). apply rm_bind_Done in E as (r1 & [] & ->%rm_modify_Done & E).
    apply IH in E as [[p ->] Hp].
    + split; [|done]. by exists p.
    + intros v pr'. unfold Tracker.get. simpl. intros [[<- <-]|[Hne Hg]]%lookup_insert_Some; [by left|].
      destruct (Hl v pr' Hg) as [|[->|]%elem_of_cons]; [by left|done|by right].
Qed.
Lemma reset_peers tm r r' u :
  reset tm r = Done (r', u) → ro_pending_read_index (r_read_only r') = ∅ ∧
    ∀ v pr, Tracker.get v (r_prs r') = Some pr → ∃ li pr0, RaftLog.last_index (r_raft_log r) = Done li ∧
      reset_progress li (l_committed (r_raft_log r)) (l_persisted (r_raft_log r)) (r_id r) v pr0 = Done pr.
Proof using.
  intros E. unfold reset, reset_randomized_election_timeout, abort_leader_transfer in E.
  apply rm_bind_Done in E as (r1 & cur & [-> ->]%rm_gets_Done & E). apply rm_bind_Done in E as (r2 & [] & Ht & E).
  assert (r_raft_log r2 = r_raft_log r ∧ r_id r2 = r_id r) as [Hl Hi] by (destruct (r_term r =? tm); simpl in Ht; by inv_rm).
  clear Ht. repeat (apply rm_bind_Done in E as (? & ? & ? & E)). inv_rm. simpl in *.
  eapply (reset_list _ _ _ _ _ (λ v pr, ∃ li pr0, RaftLog.last_index (r_raft_log r) = Done li ∧
    reset_progress li (l_committed (r_raft_log r)) (l_persisted (r_raft_log r)) (r_id r) v pr0 = Done pr)) in E as [[p ->] Hp];
    [split; [done|exact Hp]|..].
  - intros id pr pr'. rewrite Hl, Hi in *. eauto.
  - intros v pr Hg. right. rewrite elem_of_iter_map_keys. by eexists.
Qed.
(** What a new leader believes about its peers. *)
Definition unknown r li (v : u64) (pr : Progress) : Prop :=
  pr_state pr ≠ Snapshot ∧ pr_pending_request_snapshot pr = 0 ∧ (pr_matched pr = 0 ∨ (v = r_id r ∧ pr_matched pr = l_persisted (r_raft_log r))) ∧
  1 ≤ pr_next_idx pr ≤ N.max (pr_matched pr + 1) (li + 1).
Lemma become_leader_peers r r' u :
  become_leader r = Done (r', u) → ro_pending_read_index (r_read_only r') = ∅ ∧
    ∀ v pr, Tracker.get v (r_prs r') = Some pr → ∃ li, RaftLog.last_index (r_raft_log r) = Done li ∧ unknown r li v pr.
Proof using.
  intros E. unfold become_leader, assert_state_ne in E.
  apply rm_bind_Done in E as (r1 & [] & [-> _]%rm_asks_Done & E). apply rm_bind_Done in E as (r1 & tm & [-> ->]%rm_gets_Done & E).
  apply rm_bind_Done in E as (r2 & [] & Hr & E). pose proof (reset_peers _ _ _ _ Hr) as [Hro Hp].
  apply reset_resets in Hr as [[Hid _ _ _ _ _ _ _ _ _ _ _ _] _ _ _ _ Hlog _ _ _ _ _ _]. inv_rm.
  apply append_entry_or_panic_spec, append_entry_spec in E as (us & l & -> & _). simpl in *. split; [done|].
  assert (∀ v pr, Tracker.get v (r_prs r2) = Some pr → ∃ li, RaftLog.last_index (r_raft_log r) = Done li ∧ unknown r li v pr) as Hu.
  { intros v pr (li & pr0 & Hli & Hre)%Hp. exists li. split; [done|]. unfold reset_progress in Hre.
    apply bind_Done in Hre as (nx & [_ ->]%add64_Done & [= <-]). destruct (N.eqb_spec v (r_id r)); split_and!; simpl; try done; auto; lia. }
  intros v pr. unfold Tracker.get. simpl. intros [[<- <-]|[_ ?]]%lookup_insert_Some; [|by apply Hu].
  match goal with Hpr : Tracker.get _ (r_prs r2) = Some ?p, Hre : become_replicate ?p = Done _ |- _ =>
    apply Hu in Hpr as (li & Hli & Hst & Hrs & Hma & Hnx); unfold become_replicate in Hre;
    apply bind_Done in Hre as (nx & [_ ->]%add64_Done & [= <-]) end.
  exists li. split; [done|]. split_and!; simpl; [done|done|done|lia|lia].
Qed.
Lemma become_leader_tidy r r' u :
  become_leader r = Done (r', u) → log_wf (r_raft_log r) → first (r_raft_log r) = 1 → dummy (r_raft_log r) = Some 0 → r_batch_append r = false →
  c_voters (pt_conf (r_prs r)) = conf → r_term r = t → l_committed (r_raft_log r) = c0 → r_msgs r = base → tidy r'.
Proof using.
  intros E Hw Hf Hd Hb Hc Ht Hc0 Hm. pose proof (become_leader_peers _ _ _ E) as [Hro Hp].
  apply become_leader_spec in E as ([Hsn Hst Htm _ _ _ _ _] & _ & _ & last & es & i & us & Hli & Hper & _ & Hn & Ha & _).
  pose proof (lw_joined _ Hw) as Hj. pose proof (numbered_end _ _ _ _ _ Hli Hn Hj) as Hce.
  destruct (append_end es (r_raft_log r) (r_raft_log r') i) as (Hj' & He & Hf' & _ & Hl); [done..|].
  destruct (append_end_final es (r_raft_log r) (r_raft_log r') i Hj) as [Hw' _]; [done..|].
  assert (l_committed (r_raft_log r') = l_committed (r_raft_log r) ∧ l_persisted (r_raft_log r') = l_persisted (r_raft_log r)) as [Ec Ep] by (by rewrite Hl).
  pose proof (append_dummy _ _ _ _ Ha) as Hd'. constructor; try congruence.
  - rewrite (sn_batch _ _ Hsn). done.
  - rewrite He. intros [_ ->]%app_nil. unfold number_entries in Hn. repeat (apply bind_Done in Hn as (? & _ & Hn)). done.
  - rewrite (sn_conf _ _ Hsn). done.
  - intros v pr (li & Hli' & Hs & Hrs & Hma & Hnx)%Hp. rewrite last_index_spec in Hli' by done. injection Hli' as <-.
    constructor; [|done|done|].
    + destruct Hma as [|[-> ->]]; [by left|right; right]. rewrite (sn_id _ _ Hsn), Ep. done.
    + pose proof (log_end_grows (r_raft_log r) (r_raft_log r') Hf' ltac:(rewrite He; by apply prefix_app_r)).
      pose proof (first_le_end (r_raft_log r)). lia.
  - intros ctx rs. by rewrite Hro, lookup_empty.
  - intros g Hg. left. by rewrite <-Hm, <-(sn_msgs _ _ Hsn).
  - left. congruence.
Qed.
End duty.
