(* ===== verification/RaftClaims.v ===== *)
(** * What the messages claim

    The messages of the program make claims about the group of [Replication]: that
    a log is chosen, that a log is a leader's, that a node holds entries. A claim
    that is true stays true, whatever the group does. *)
From stdpp Require Import functions.
From S2P Require Import Prelude Errors Proto Replication.
#[local] Open Scope N_scope.

Section claims.
Context (quorum : gset u64 → Prop).
Context (quorum_meet : ∀ P Q, quorum P → quorum Q → ∃ v, v ∈ P ∧ v ∈ Q).
Abbreviation chosen := (chosen quorum).
Abbreviation group_ok := (group_ok quorum).
Abbreviation group_step := (group_step quorum).
Implicit Types G : group.

(** Nothing, or chosen. *)
Definition settled G (L : list Entry) : Prop := L = [] ∨ chosen G L.
(** The log of term [t] is settled up to [c]. *)
Definition settled_to G (t c : u64) : Prop :=
  (N.to_nat c ≤ length (g_led G t))%nat ∧ settled G (take (N.to_nat c) (g_led G t)).
(** Position [c] is settled, and its term is [t]. *)
Definition settled_at G (c t : u64) : Prop :=
  c = 0 ∨ ∃ L e, chosen G L ∧ L !! (N.to_nat c - 1)%nat = Some e ∧ e_term e = t.
(** A log ends at [i] with term [t]. *)
Definition ends_with (L : list Entry) (i t : u64) : Prop :=
  i = len L ∧ match last L with Some e => e_term e = t | None => t = 0 end.
(** A log has term [t] at [i], if [i] is not its beginning. *)
Definition has_at (L : list Entry) (i t : u64) : Prop :=
  (N.to_nat i ≤ length L)%nat ∧ (i = 0 ∨ ∃ e, L !! (N.to_nat i - 1)%nat = Some e ∧ e_term e = t).

(** Message [g] is true; [K v t n] says that node [v] has acknowledged [n] entries
    of the log of term [t]. *)
Definition honest (K : u64 → u64 → nat → Prop) G (g : Message) : Prop :=
  match m_type g with
  | MsgAppend =>
      is_Some (g_won G (m_term g)) ∧ settled_to G (m_term g) (m_commit g) ∧
      (has_at (g_led G (m_term g)) (m_index g) (m_log_term g) ∨
       (m_entries g = [] ∧ m_log_term g = 0 ∧ durable G (m_to g) (m_term g) (N.to_nat (m_index g))))
  | MsgHeartbeat =>
      is_Some (g_won G (m_term g)) ∧ settled_to G (m_term g) (m_commit g) ∧
      (m_commit g = 0 ∨ durable G (m_to g) (m_term g) (N.to_nat (m_commit g)))
  | MsgReadIndexResp => is_Some (g_won G (m_term g)) ∧ settled_to G (m_term g) (m_index g)
  | MsgAppendResponse =>
      m_reject g = true ∨ m_index g = 0 ∨ (m_term g ≠ 0 ∧ K (m_from g) (m_term g) (N.to_nat (m_index g)))
  | MsgRequestVote =>
      settled_at G (m_commit g) (m_commit_term g) ∧ m_term g ≤ g_term G (m_from g) ∧
      (g_runs G (m_from g) = true → g_term G (m_from g) = m_term g →
       ends_with (g_log G (m_from g)) (m_index g) (m_log_term g))
  | MsgRequestPreVote | MsgRequestVoteResponse | MsgRequestPreVoteResponse => settled_at G (m_commit g) (m_commit_term g)
  | MsgSnapshot => False
  | _ => True
  end.

(** ** What only grows *)
Record later G G' : Prop := {
  lt_led t : g_led G t `prefix_of` g_led G' t;
  lt_durable v t n : durable G v t n → durable G' v t n;
  lt_won t i : g_won G t = Some i → g_won G' t = Some i;
  lt_term v : g_term G v ≤ g_term G' v;
  (** A candidate was one before, with the same log, or the term is new. *)
  lt_runs c t : t ≤ g_term G c → g_runs G' c = true → g_term G' c = t →
    g_runs G c = true ∧ g_term G c = t ∧ g_log G' c = g_log G c }.
#[export] Instance later_preorder : PreOrder later.
Proof.
  split; [by intros G|]. intros G1 G2 G3 [L1 D1 W1 T1 R1] [L2 D2 W2 T2 R2]. constructor; [|by auto|by auto|..].
  - intros t. etrans; [apply L1|apply L2].
  - intros v. etrans; [apply T1|apply T2].
  - intros c t Hle H3 E3. destruct (R2 c t) as (H2 & E2 & EL); [etrans; [exact Hle|apply T1]|done..|].
    destruct (R1 c t) as (? & ? & ?); [done..|]. split_and!; [done|done|congruence].
Qed.
Lemma step_later G G' : group_ok G → group_step G G' → later G G'.
Proof using.
  intros Hok Hs. destruct (group_step_grows quorum _ _ Hok Hs) as [Hl Hd]. constructor; [done..| | |].
  - intros t j Hj. destruct Hs; simpl; try done. rewrite fn_lookup_insert_ne; [done|]. by intros <-; congruence.
  - intros v. destruct Hs as [i t b Hle _| | | | | | | | |]; simpl; try done. destruct (decide (v = i)) as [->|];
      [by rewrite fn_lookup_insert|by rewrite fn_lookup_insert_ne].
  - intros c t Hle. destruct Hs as [i t' b H1 H2|v c'|i Q|i es Hr|v n Hr|v n|i n|v|v|v]; simpl; try done.
    + destruct (decide (c = i)) as [->|]; [rewrite !fn_lookup_insert|by rewrite !fn_lookup_insert_ne].
      intros -> ->. specialize (H2 eq_refl). lia.
    + destruct (decide (c = i)) as [->|]; [by rewrite !fn_lookup_insert|by rewrite !fn_lookup_insert_ne].
    + destruct (decide (c = i)) as [->|]; [congruence|by rewrite !fn_lookup_insert_ne].
    + destruct (decide (c = v)) as [->|]; [congruence|by rewrite !fn_lookup_insert_ne].
    + destruct (decide (c = v)) as [->|]; [by rewrite !fn_lookup_insert|by rewrite !fn_lookup_insert_ne].
Qed.

(** ** What stays true *)
Section stays.
Context (G G' : group) (Hl : later G G').
Lemma chosen_later L : chosen G L → chosen G' L.
Proof using Hl. apply chosen_mono; apply Hl. Qed.
Lemma settled_later L : settled G L → settled G' L.
Proof using Hl. intros [|]; [by left|right; by apply chosen_later]. Qed.
Lemma take_led_later t n : (n ≤ length (g_led G t))%nat → take n (g_led G' t) = take n (g_led G t).
Proof using Hl. intros Hn. destruct (lt_led _ _ Hl t) as [k ->]. by rewrite take_app_le. Qed.
Lemma settled_to_later t c : settled_to G t c → settled_to G' t c.
Proof using Hl.
  intros [Hc Hs]. split; [etrans; [exact Hc|apply prefix_length, Hl]|]. rewrite take_led_later by done. by apply settled_later.
Qed.
Lemma settled_at_later c t : settled_at G c t → settled_at G' c t.
Proof using Hl. intros [|(L & e & Hc & ?)]; [by left|right]. exists L, e. split; [by apply chosen_later|done]. Qed.
Lemma has_at_later t i tm : has_at (g_led G t) i tm → has_at (g_led G' t) i tm.
Proof using Hl.
  intros [Hi He]. split; [etrans; [exact Hi|apply prefix_length, Hl]|]. destruct He as [|(e & He & ?)]; [by left|right].
  exists e. split; [|done]. eapply prefix_lookup_Some; [exact He|apply Hl].
Qed.
Lemma won_later t : is_Some (g_won G t) → is_Some (g_won G' t).
Proof using Hl. intros [i Hi]. exists i. by apply Hl. Qed.
Lemma honest_later (K K' : u64 → u64 → nat → Prop) g :
  (m_type g = MsgAppendResponse → ∀ t n, K (m_from g) t n → K' (m_from g) t n) → honest K G g → honest K' G' g.
Proof using Hl.
  intros HK. unfold honest. pose proof won_later. pose proof settled_to_later. pose proof settled_at_later.
  pose proof (lt_durable _ _ Hl). destruct (m_type g) eqn:Hty; try done; try by auto.
  - intros (? & ? & [|(? & ? & ?)]); (split_and!; [by auto|by auto|]); [left; by apply has_at_later|right; auto].
  - intros [|[|[? ?]]]; auto.
  - intros (? & Ht & He). split_and!; [by auto|etrans; [exact Ht|apply Hl]|].
    intros Hr Hg. destruct (lt_runs _ _ Hl _ _ Ht Hr Hg) as (Hr' & Hg' & ->). auto.
  - intros (? & ? & [|]); (split_and!; auto).
  - intros [? ?]; auto.
Qed.
End stays.

(** ** Steps of one node *)
Record acts (i : u64) G G' : Prop := {
  ac_term j : j ≠ i → g_term G' j = g_term G j;
  ac_log j : j ≠ i → g_log G' j = g_log G j;
  ac_disk j : j ≠ i → g_disk G' j = g_disk G j;
  ac_runs j : j ≠ i → g_runs G' j = g_runs G j;
  ac_said j t n : j ≠ i → said G j t n → said G' j t n }.
#[export] Instance acts_preorder i : PreOrder (acts i).
Proof.
  split; [by intros G|]. intros G1 G2 G3 [T1 L1 D1 R1 S1] [T2 L2 D2 R2 S2].
  constructor; [intros j Hj; rewrite ?T2, ?L2, ?D2, ?R2 by done; by auto..|]. auto.
Qed.
Definition moves i := rtc (λ G G', group_step G G' ∧ acts i G G').
Lemma moves_facts i G G' : group_ok G → moves i G G' → group_ok G' ∧ later G G' ∧ acts i G G'.
Proof using quorum_meet.
  intros Hok Hs. induction Hs as [G|G1 G2 G3 [Hs Ha] _ IH]; [done|]. pose proof (step_later _ _ Hok Hs).
  destruct IH as (? & ? & ?); [by eapply group_step_ok|]. split_and!; [done|by transitivity G2..].
Qed.
Lemma moves_steps i G G' : moves i G G' → rtc group_step G G'.
Proof. apply rtc_subrel. by intros G1 G2 [? _]. Qed.

Ltac one_node := split; [|constructor; simpl; try done; unfold said; simpl; intros; by rewrite !fn_lookup_insert_ne by done].
Section node.
Context (i : u64) (G : group).
Lemma move_rise t b : g_term G i ≤ t → (b = true → g_term G i < t) → moves i G (set_term i t b G).
Proof using. intros. apply rtc_once. one_node. by constructor. Qed.
Lemma move_vote c :
  g_vote G i (g_term G i) = None ∨ g_vote G i (g_term G i) = Some c → g_term G i ≤ g_term G c →
  (g_runs G c = true → g_term G c = g_term G i → newer (g_log G c) (g_log G i)) → moves i G (set_vote i c G).
Proof using. intros. apply rtc_once. one_node. by constructor. Qed.
Lemma move_win Q :
  g_runs G i = true → g_won G (g_term G i) = None → quorum Q →
  (∀ v, v ∈ Q → g_vote G v (g_term G i) = Some i) → moves i G (set_won i G).
Proof using. intros. apply rtc_once. one_node. by econstructor. Qed.
Lemma move_extend es :
  g_runs G i = false → g_won G (g_term G i) = Some i → g_log G i = g_led G (g_term G i) →
  Forall (λ e, e_term e = g_term G i) es → moves i G (extend i es G).
Proof using. intros. apply rtc_once. one_node. by constructor. Qed.
Lemma move_accept n :
  g_runs G i = false → is_Some (g_won G (g_term G i)) →
  ¬ take n (g_led G (g_term G i)) `prefix_of` g_log G i → moves i G (set_log i (take n (g_led G (g_term G i))) G).
Proof using. intros. apply rtc_once. one_node. by constructor. Qed.
Lemma move_say n : is_Some (g_won G (g_term G i)) → truthful quorum G i (g_log G i) n → moves i G (add_said i n G).
Proof using. intros. apply rtc_once. one_node. by constructor. Qed.
Lemma move_report n :
  is_Some (g_won G (g_term G i)) → (n ≤ length (g_led G (g_term G i)))%nat →
  take n (g_led G (g_term G i)) `prefix_of` g_log G i → take n (g_led G (g_term G i)) `prefix_of` g_disk G i →
  moves i G (add_ack i n G).
Proof using. intros. apply rtc_once. one_node. by constructor. Qed.
Lemma move_save : moves i G (save i G).
Proof using. apply rtc_once. one_node. constructor. Qed.
Lemma move_publish :
  g_disk G i = g_log G i ∨ (g_log G i `prefix_of` g_disk G i ∧ g_won G (g_term G i) = None) → moves i G (publish i G).
Proof using. intros. apply rtc_once. one_node. by constructor. Qed.
Lemma move_crash : moves i G (crash i G).
Proof using. apply rtc_once. one_node. constructor. Qed.
End node.
End claims.
