(* ===== verification/RaftMatching.v ===== *)
(** * The log matching property

    A cluster in which no log is cut from below: nodes run, crash and restart from
    what they have persisted, the network loses, delays, reorders and repeats
    messages. Two logs that hold an entry of the same term at the same position
    are the same up to that position. *)
From S2P Require Import Prelude Errors Proto Util Quorum Storage Unstable ReadOnly Config.
From S2P Require Import Progress Tracker RaftLog RaftLogSpec RaftLogReads LogTotal LogFinal RaftState RaftSend RaftLogic.
From S2P Require Import RaftRole RaftStep RaftReset RaftVote RaftStays RaftElect RaftCluster RaftTotal RaftEnds RaftWalk RaftFinal RaftSilent RaftAppends RaftEffect Replication RaftClaims.
#[local] Open Scope N_scope.

(** ** The entries of a leader's message *)
Section accepts.
Context {S : Type} `{StorageLaws S}.
Implicit Types l : RaftLog S.
Lemma log_end_len l : first l = 1 → log_end l = len (ents l) + 1.
Proof. intros Hf. unfold log_end. rewrite Hf. lia. Qed.
(** They are in the log already, or the log becomes the leader's up to their end. *)
Lemma append_accepts (T : u64 → list Entry) t m l l1 :
  anchored T (ents l) → anchored T (T t) → log_wf l → first l = 1 →
  has_at (T t) (m_index m) (m_log_term m) → slice_of (T t) m → contiguous (m_index m + 1) (m_entries m) →
  log_matches l (m_index m) (m_log_term m) →
  (l1 = l ∧ ∀ k e, m_entries m !! k = Some e → log_matches l (e_index e) (e_term e)) ∨ spliced (m_index m) (m_entries m) l l1 →
  let n := (N.to_nat (m_index m) + length (m_entries m))%nat in
  (n ≤ length (T t))%nat ∧
  ((l1 = l ∧ take n (T t) `prefix_of` ents l) ∨ (ents l1 = take n (T t) ∧ ¬ take n (T t) `prefix_of` ents l)).
Proof.
  intros Ha HaT Hw Hf [Hil Hat] Hsl Hce Hmt Hl1 n. set (idx := N.to_nat (m_index m)) in *. pose proof (lw_joined _ Hw) as Hj.
  assert (m_entries m `prefix_of` drop idx (T t)) as Hes by (destruct Hsl as [->|[? _]]; [apply prefix_nil|done]).
  assert (∀ k e, m_entries m !! k = Some e → T t !! (idx + k)%nat = Some e) as Hin.
  { intros k e Hk. destruct Hes as [rest Hr]. rewrite <-lookup_drop, Hr. by apply lookup_app_l_Some. }
  assert (∀ k e, m_entries m !! k = Some e → log_matches l (e_index e) (e_term e) →
    ∃ e1, ents l !! (idx + k)%nat = Some e1 ∧ e_term e1 = e_term e) as Hmatch.
  { intros k e Hk Hme. rewrite (Hce _ _ Hk) in Hme. destruct (HaT _ _ (Hin _ _ Hk)) as [Hne _].
    destruct (log_matches_lookup l (m_index m + 1 + N.of_nat k) (e_term e)) as (e1 & He1 & Ht1); [done|lia|done|done|].
    exists e1. split; [|done]. rewrite Hf in He1. by replace (idx + k)%nat with (N.to_nat (m_index m + 1 + N.of_nat k - 1)) by lia. }
  assert (idx = 0%nat ∨ ((∃ e, T t !! (idx - 1)%nat = Some e ∧ e_term e = m_log_term m) ∧
    ∃ e, ents l !! (idx - 1)%nat = Some e ∧ e_term e = m_log_term m)) as Hprev.
  { destruct Hat as [Hz|(e & He & Ht)]; [left; unfold idx; lia|]. destruct (decide (idx = 0%nat)) as [|Hnz]; [by left|right].
    split; [by exists e|]. destruct (HaT _ _ He) as [Hne _]. rewrite Ht in Hne.
    destruct (log_matches_lookup l (m_index m) (m_log_term m)) as (e1 & He1 & Ht1); [done|lia|done|done|].
    exists e1. split; [|done]. rewrite Hf in He1. by replace (idx - 1)%nat with (N.to_nat (m_index m - 1)) by lia. }
  assert (n ≤ length (T t))%nat as Hn.
  { destruct Hes as [rest Hr]. pose proof (f_equal length Hr) as Hlen. rewrite length_drop, length_app in Hlen. unfold n. lia. }
  split; [done|]. destruct Hl1 as [[-> Hall]|Hsp]; [left|right].
  - split; [done|]. destruct (decide (n = 0%nat)) as [->|Hnz]; [apply prefix_nil|].
    assert (∃ e1 e2, ents l !! (n - 1)%nat = Some e1 ∧ T t !! (n - 1)%nat = Some e2 ∧ e_term e1 = e_term e2) as (e1 & e2 & H1 & H2 & Ht).
    { destruct (decide (m_entries m = [])) as [He|He].
      - destruct Hprev as [Hz|[(e2 & H2 & <-) (e1 & H1 & Ht)]]; [unfold n in Hnz; rewrite He in Hnz; simpl in Hnz; lia|].
        exists e1, e2. unfold n. rewrite He. simpl. by rewrite Nat.add_0_r.
      - destruct (lookup_lt_is_Some_2 (m_entries m) (length (m_entries m) - 1)%nat) as [e2 He2]; [destruct (m_entries m); [done|simpl; lia]|].
        destruct (Hmatch _ _ He2 (Hall _ _ He2)) as (e1 & He1 & Ht). apply Hin in He2 as HT2.
        pose proof (lookup_lt_Some _ _ _ He2). replace (idx + (length (m_entries m) - 1))%nat with (n - 1)%nat in * by (unfold n; lia). by exists e1, e2. }
    replace n with (Datatypes.S (n - 1)) by lia. rewrite <-(anchored_agree T (ents l) (T t) _ e1 e2); [apply prefix_take|done..].
  - destruct Hsp as (k & e0 & Hk & Hb & Hcc & _ & _ & He1 & _ & _ & _ & _ & Hmis). split.
    + rewrite He1, Hf. replace (N.to_nat (m_index m + 1 + N.of_nat k - 1)) with (idx + k)%nat by lia.
      apply (splice_leader T t (ents l) (m_entries m) idx k (m_log_term m)); [done|done|done|by apply lookup_lt_Some in Hk|done|].
      intros k' e' Hlt He'. apply Hmatch; [done|by eapply Hb].
    + intros Hp. apply Hmis. pose proof (lookup_lt_Some _ _ _ Hk) as Hkl.
      assert (ents l !! (idx + k)%nat = Some e0) as He.
      { eapply prefix_lookup_Some; [|exact Hp]. rewrite lookup_take_lt by (unfold n; lia). by apply Hin. }
      rewrite (Hce _ _ Hk). apply lookup_lt_Some in He as Hlt.
      destruct (entry_inside l (m_index m + 1 + N.of_nat k) Hj) as (e & Hee & _ & Ht); [rewrite (log_end_len l Hf), Hf; unfold len; lia|].
      rewrite Hf in Hee. replace (N.to_nat (m_index m + 1 + N.of_nat k - 1)) with (idx + k)%nat in Hee by lia.
      unfold log_matches. congruence.
Qed.
(** The entries of a message are numbered like the leader's. *)
Lemma slice_contiguous L m : contiguous 1 L → slice_of L m → contiguous (m_index m + 1) (m_entries m).
Proof.
  intros HcT [->|[[k Hk] _]]; [apply contiguous_nil|].
  pose proof (contiguous_drop _ _ (N.to_nat (m_index m)) HcT) as Hd. rewrite Hk in Hd.
  apply contiguous_app in Hd as [Hd _]. by replace (m_index m + 1) with (1 + N.of_nat (N.to_nat (m_index m))) by lia.
Qed.
Lemma slice_has L m : slice_of L m → m_entries m ≠ [] → has_at L (m_index m) (m_log_term m).
Proof.
  intros [|[[k Hk] Hat]] Hne; [done|]. split; [|done]. apply (f_equal length) in Hk. rewrite length_drop, length_app in Hk.
  destruct (m_entries m); [done|simpl in Hk; lia].
Qed.
End accepts.

(** ** The world *)
Section matching.
Context {S : Type} `{StorageLaws S, PbMessage, HashOrder, Rng, ConfChangeCodec}.
Implicit Types r : Raft S.

(** A cluster, and for every node the entries its log has held so far; the program
    does not keep the latter. *)
Record world := mkWorld { w_cluster : cluster (S := S); w_past : u64 → list (list Entry) }.
Definition w_log (W : world) (i : u64) : RaftLog S := r_raft_log (nodes (w_cluster W) i).

(** No snapshot is taken: none is sent, the storage keeps all entries, and a node
    restarts from a log it has held. Appends come from the network, which does not
    invent them. *)
Definition plain (W : world) (i : u64) (e : event (S := S)) : Prop :=
  match e with
  | Receive m => m_type m ≠ MsgSnapshot ∧ (m_type m = MsgAppend → m ∈ net (w_cluster W))
  | LogWritten l => log_wf l ∧ first l = 1 ∧ ents l = ents (w_log W i)
  | Restart c store =>
      cfg_batch_append c = false ∧ st_ok store ∧ st_first store = 1 ∧ st_entries store ∈ w_past W i ∧
      ∀ rs, Storage.initial_state store = Ok rs → cfg_applied c ≤ hs_commit (rs_hard_state rs)
  | _ => True
  end.

Inductive world_step (W : world) : world → Prop :=
  | ws_event i e r' :
      let C := w_cluster W in
      i ≠ INVALID_ID → possible C i e → plain W i e → run_event e (nodes C i) = Done r' →
      world_step W (mkWorld
        (mkCluster (set_node i r' (nodes C)) (net C) (record_leader i (nodes C i) r' (leaders C)))
        (λ j, if j =? i then ents (r_raft_log r') :: w_past W j else w_past W j))
  | ws_flush i :
      let C := w_cluster W in
      world_step W (mkWorld
        (mkCluster (set_node i (set_r_msgs [] (nodes C i)) (nodes C)) (net C ++ r_msgs (nodes C i)) (leaders C))
        (w_past W)).

Lemma world_cluster W W' : world_step W W' → cluster_step (w_cluster W) (w_cluster W').
Proof. intros []; [by apply (cs_event _ i e)|apply cs_flush]. Qed.

(** The nodes have just started, with empty logs. *)
Record fresh (W : world) : Prop := {
  fr_initial : initial (w_cluster W);
  fr_log i : log_wf (w_log W i) ∧ first (w_log W i) = 1 ∧ ents (w_log W i) = [];
  fr_batch i : r_batch_append (nodes (w_cluster W) i) = false;
  fr_net : appends (net (w_cluster W)) = [];
  fr_past i es : es ∈ w_past W i → es = [] }.

(** ** The invariant *)

(** [T t] is the log of the leader of term [t], up to what it has appended so far. *)
Record world_ok (T : u64 → list Entry) (W : world) : Prop := {
  wo_log i : log_wf (w_log W i) ∧ first (w_log W i) = 1;
  wo_batch i : r_batch_append (nodes (w_cluster W) i) = false;
  wo_anchored i : anchored T (ents (w_log W i));
  wo_past i es : es ∈ w_past W i → anchored T es;
  wo_led t : anchored T (T t) ∧ contiguous 1 (T t);
  wo_leader i : r_state (nodes (w_cluster W) i) = Leader → T (r_term (nodes (w_cluster W) i)) = ents (w_log W i);
  wo_msgs g : g ∈ appends (net (w_cluster W)) ∨ (∃ i, g ∈ appends (r_msgs (nodes (w_cluster W) i))) →
    m_term g ≠ 0 ∧ slice_of (T (m_term g)) g;
  wo_recorded t : T t ≠ [] → ∃ i conf, (t, i, conf) ∈ leaders (w_cluster W);
  wo_once t i conf : (t, i, conf) ∈ leaders (w_cluster W) →
    t ≤ r_term (nodes (w_cluster W) i) ∧
    (t = r_term (nodes (w_cluster W) i) → r_state (nodes (w_cluster W) i) ≠ Candidate);
  wo_term i : campaigning (r_state (nodes (w_cluster W) i)) → r_term (nodes (w_cluster W) i) ≠ 0 }.

Lemma fresh_ok W : fresh W → world_ok (λ _, []) W.
Proof.
  intros [[Hn Hnet Hl] Hlog Hb Hna Hp]. constructor.
  - intros i. by destruct (Hlog i) as (? & ? & _).
  - done.
  - intros i. destruct (Hlog i) as (_ & _ & ->). apply anchored_nil.
  - intros i es ->%Hp. apply anchored_nil.
  - intros t. split; [apply anchored_nil|apply contiguous_nil].
  - intros i. by destruct (Hlog i) as (_ & _ & ->).
  - intros g [Hg|[i Hg]]; [rewrite Hna in Hg|destruct (Hn i) as (_ & _ & Hm); rewrite Hm in Hg]; by apply elem_of_nil in Hg.
  - done.
  - intros t i conf. rewrite Hl. by intros ?%elem_of_nil.
  - intros i. destruct (Hn i) as (_ & -> & _). by intros [|].
Qed.

(** What one event of node [i] has to do to keep the invariant. *)
Record advances (T T' : u64 → list Entry) r r' : Prop := {
  ad_mono t : T t `prefix_of` T' t;
  ad_led t : T' t = T t ∨ (t = r_term r' ∧ r_state r' = Leader);
  ad_log : log_wf (r_raft_log r') ∧ first (r_raft_log r') = 1;
  ad_batch : r_batch_append r' = false;
  ad_anchored : anchored T' (ents (r_raft_log r'));
  ad_leader : r_state r' = Leader → T' (r_term r') = ents (r_raft_log r');
  ad_msgs g : g ∈ appends (r_msgs r') → g ∈ appends (r_msgs r) ∨ (m_term g ≠ 0 ∧ slice_of (T' (m_term g)) g);
  ad_term : r_term r ≤ r_term r';
  ad_candidate : r_state r' = Candidate → (r_state r = Candidate ∧ r_term r' = r_term r) ∨ r_term r < r_term r';
  ad_nonzero : campaigning (r_state r') → r_term r' ≠ 0 }.

Section step.
Context (T T' : u64 → list Entry) (W : world) (i : u64) (r' : Raft S).
Let C := w_cluster W.
Context (Hok : world_ok T W) (Had : advances T T' (nodes C i) r').
(** A leader has been recorded, and no other leader has a log of this term. *)
Context (Hrec : r_state (nodes C i) = Leader → ∃ conf, (r_term (nodes C i), i, conf) ∈ leaders C).
Context (Hfresh : ∀ j, j ≠ i → r_state (nodes C j) = Leader → T' (r_term (nodes C j)) = T (r_term (nodes C j))).

Lemma advance_ok : world_ok T' (mkWorld
  (mkCluster (set_node i r' (nodes C)) (net C) (record_leader i (nodes C i) r' (leaders C)))
  (λ j, if j =? i then ents (r_raft_log r') :: w_past W j else w_past W j)).
Proof using Hok Had Hrec Hfresh.
  destruct Had as [Hm Hled Hlog Hb Ha Hle Hms Htm Hca Hnz].
  assert (∀ (P : u64 → Raft S → Prop), (∀ j, j ≠ i → P j (nodes C j)) → P i r' →
    ∀ j, P j (set_node i r' (nodes C) j)) as Hcase.
  { intros P Ho Hn j. unfold set_node. destruct (N.eqb_spec j i) as [->|]; auto. }
  assert (∀ L, anchored T L → anchored T' L) as Hmono by (intros L; by apply anchored_mono).
  assert (∀ g, g ∈ appends (net C) ∨ (∃ j, g ∈ appends (r_msgs (nodes C j))) →
    m_term g ≠ 0 ∧ slice_of (T' (m_term g)) g) as Hmsg.
  { intros g Hg%(wo_msgs _ _ Hok). destruct Hg as [Hne Hs]. split; [done|]. eapply slice_of_mono; [apply Hm|exact Hs]. }
  constructor; unfold w_log; simpl.
  - apply (Hcase (λ _ r, log_wf (r_raft_log r) ∧ first (r_raft_log r) = 1)); [intros; apply Hok|done].
  - apply (Hcase (λ _ r, r_batch_append r = false)); [intros; apply Hok|done].
  - apply (Hcase (λ _ r, anchored T' (ents (r_raft_log r)))); [intros j _; apply Hmono, (wo_anchored _ _ Hok j)|done].
  - intros j es. destruct (N.eqb_spec j i) as [->|]; [intros [->|Hes]%elem_of_cons; [done|]|intros Hes]; apply Hmono; by eapply wo_past.
  - intros t. destruct (wo_led _ _ Hok t) as [Hat Hct]. destruct (Hled t) as [->|[-> Hl]]; [by auto|].
    rewrite (Hle Hl). split; [done|]. destruct Hlog as [Hw Hf]. rewrite <-Hf. apply ents_contiguous, Hw.
  - apply (Hcase (λ _ r, r_state r = Leader → T' (r_term r) = ents (r_raft_log r))); [|done].
    intros j Hj Hl. rewrite Hfresh by done. by apply (wo_leader _ _ Hok).
  - intros g [Hg|[j Hg]]; [apply Hmsg; by left|]. revert Hg. revert j.
    apply (Hcase (λ j r, g ∈ appends (r_msgs r) → _)); [intros j Hj Hg; apply Hmsg; by right; exists j|].
    intros [Hg|Hg]%Hms; [apply Hmsg; by right; exists i|done].
  - intros t Ht. destruct (Hled t) as [E|[-> Hl]].
    + rewrite E in Ht. destruct (wo_recorded _ _ Hok t Ht) as (j & conf & Hin). exists j, conf.
      unfold record_leader. case_match; [by right|done].
    + unfold record_leader. rewrite bool_decide_eq_true_2 by done. simpl.
      destruct (still_leader (nodes C i) r') eqn:Hs; simpl; [|exists i; eexists; by left].
      unfold still_leader in Hs. apply andb_true_iff in Hs as [Hs%bool_decide_eq_true Ht'%N.eqb_eq].
      destruct (Hrec Hs) as [conf Hin]. exists i, conf. by rewrite Ht'.
  - assert (∀ t conf j, (t, j, conf) ∈ leaders C → t ≤ r_term (set_node i r' (nodes C) j) ∧
      (t = r_term (set_node i r' (nodes C) j) → r_state (set_node i r' (nodes C) j) ≠ Candidate)) as Hold.
    { intros t conf. apply (Hcase (λ j r, (t, j, conf) ∈ leaders C → t ≤ r_term r ∧ (t = r_term r → r_state r ≠ Candidate))).
      - intros j _. apply (wo_once _ _ Hok t j conf).
      - intros Hin'. destruct (wo_once _ _ Hok _ _ _ Hin') as [Hle1 Hnc]. fold C in Hle1, Hnc. split; [lia|].
        intros -> Hc. destruct (Hca Hc) as [[Hc' Ht]|]; [|lia]. by eapply Hnc. }
    intros t j conf Hin. unfold record_leader in Hin. destruct (bool_decide _ && _) eqn:Hnew; [|by eapply Hold].
    apply elem_of_cons in Hin as [[= -> -> ->]|Hin]; [|by eapply Hold].
    apply andb_true_iff in Hnew as [Hl%bool_decide_eq_true _]. unfold set_node. rewrite N.eqb_refl. split; [done|]. by rewrite Hl.
  - apply (Hcase (λ _ r, campaigning (r_state r) → r_term r ≠ 0)); [intros; by apply Hok|done].
Qed.
End step.

(** ** The effects *)
Definition upd (T : u64 → list Entry) (t : u64) (L : list Entry) : u64 → list Entry := λ t', if t' =? t then L else T t'.
Lemma upd_same T t L : upd T t L t = L.
Proof. unfold upd. by rewrite N.eqb_refl. Qed.
Lemma upd_mono T t L t' : T t `prefix_of` L → T t' `prefix_of` upd T t L t'.
Proof. unfold upd. by destruct (N.eqb_spec t' t) as [->|]. Qed.
Lemma upd_led T t L t' : upd T t L t' = T t' ∨ t' = t.
Proof. unfold upd. destruct (N.eqb_spec t' t); [by right|by left]. Qed.

Section effects.
Context (T : u64 → list Entry) (W : world) (i : u64) (Hok : world_ok T W).
Let C := w_cluster W.
Let r := nodes C i.
Context (r' : Raft S) (Hwf : log_wf (r_raft_log r')).

Lemma log_joined : joined (r_raft_log r) ∧ first (r_raft_log r) = 1.
Proof using Hok. destruct (wo_log _ _ Hok i) as [Hw Hf]. split; [apply Hw|done]. Qed.

(** Nothing is appended by a leader. *)
Lemma quiet_advances :
  r_term r ≤ r_term r' → (r_state r' = Leader → r_state r = Leader ∧ r_term r' = r_term r ∧ ents (r_raft_log r') = ents (r_raft_log r)) →
  (r_state r' = Candidate → (r_state r = Candidate ∧ r_term r' = r_term r) ∨ r_term r < r_term r') →
  r_batch_append r' = false → (∀ g, g ∈ appends (r_msgs r') → g ∈ appends (r_msgs r)) →
  first (r_raft_log r') = 1 → anchored T (ents (r_raft_log r')) → advances T T r r'.
Proof using Hok Hwf.
  intros Ht Hl Hc Hb Hm Hf Ha. constructor; try done; try (by left).
  - intros Hst. destruct (Hl Hst) as (Hst0 & -> & ->). by apply (wo_leader _ _ Hok i).
  - intros g Hg. left. auto.
  - intros [Hst|Hst]; [destruct (Hc Hst) as [[Hst0 ->]|]; [|lia]|destruct (Hl Hst) as (Hst0 & -> & _)];
      apply (wo_term _ _ Hok i); [by left|by right].
Qed.
(** A node that is silent sends no append. *)
Lemma silent_appends m q q' g : log_wf (r_raft_log q) → silent m q q' → g ∈ appends (r_msgs q') → g ∈ appends (r_msgs q).
Proof using.
  intros Hw Hs Hg. apply list_elem_of_filter in Hg as [Hty Hg]. apply list_elem_of_filter. split; [done|].
  destruct (ds_out _ _ _ (si_discreet _ _ _ Hs Hw) g Hg) as [|Hi]; [done|]. unfold innocuous in Hi. by rewrite Hty in Hi.
Qed.
Lemma silent_advances m : silent m r r' → advances T T r r'.
Proof using Hok Hwf.
  destruct log_joined as [Hj Hf]. intros Hs. pose proof (λ g, silent_appends m r r' g (proj1 (wo_log _ _ Hok i)) Hs) as Hm.
  destruct Hs as [Hid Ht Hl Hc Hb [Hlog _] _]. destruct (Hlog Hj) as (Hj' & Hf' & He).
  apply quiet_advances; try done.
  - intros Hst. by destruct (Hl Hst) as (? & ? & _).
  - rewrite Hb. apply (wo_batch _ _ Hok).
  - congruence.
  - rewrite He. apply (wo_anchored _ _ Hok i).
Qed.
(** Persistence is noted. *)
Lemma noted_advances j t : noted j t r r' → advances T T r r'.
Proof using Hok Hwf.
  destruct log_joined as [Hj Hf]. intros (Hst & l & b & El & Hr'). destruct (same_ents_persist _ _ _ _ _ El Hj) as (Hj' & Hf' & He).
  apply quiet_advances; rewrite Hr'; simpl; try done.
  - by left.
  - apply (wo_batch _ _ Hok).
  - congruence.
  - rewrite He. apply (wo_anchored _ _ Hok i).
Qed.

Lemma leads_advances : r_state r = Leader → leads r r' → advances T (upd T (r_term r') (ents (r_raft_log r'))) r r'.
Proof using Hok Hwf.
  destruct log_joined as [Hj Hf]. intros Hst [Hid Ht _ Hs Hb Hlog Hms]. destruct (Hlog Hj) as (Hj' & Hf' & es & He & Hes).
  pose proof (wo_leader _ _ Hok i Hst) as HT. fold C r in HT.
  assert (∀ t, T t `prefix_of` upd T (r_term r') (ents (r_raft_log r')) t) as Hmono.
  { intros t. apply upd_mono. rewrite Ht, HT, He. by apply prefix_app_r. }
  assert (r_term r ≠ 0) as Hne by (apply (wo_term _ _ Hok i); by right).
  constructor; try done.
  - intros t. destruct (upd_led T (r_term r') (ents (r_raft_log r')) t) as [| ->]; [by left|right; split; [done|congruence]].
  - split; [done|congruence].
  - rewrite Hb. apply (wo_batch _ _ Hok).
  - rewrite He. eapply anchored_grow; [|exact Hne|exact Hes|by rewrite Ht, upd_same].
    eapply anchored_mono; [|apply (wo_anchored _ _ Hok i)]. by rewrite <-He.
  - intros _. apply upd_same.
  - intros g Hg. destruct (Hms Hj Hf (wo_batch _ _ Hok i) g Hg) as [|[Hgt Hsl]]; [by left|right].
    rewrite Hgt. split; [done|]. by rewrite <-Ht, upd_same.
  - lia.
  - intros Hc. congruence.
  - intros _. congruence.
Qed.

Lemma elected_advances m : elected m r r' → T (r_term r') = [] → advances T (upd T (r_term r') (ents (r_raft_log r'))) r r'.
Proof using Hok Hwf.
  destruct log_joined as [Hj Hf]. intros He HT. pose proof (elected_leader _ _ _ He) as Hst'.
  apply elected_leads in He as (r1 & r2 & Hsil & Hst1 & Hlead & [_ Ht _ Hs Hb Hlog Hms]).
  pose proof (λ g, silent_appends m r r1 g (proj1 (wo_log _ _ Hok i)) Hsil) as Hm1.
  destruct Hsil as [_ Ht1 _ Hc1 Hb1 [Hl1 _] _].
  apply become_leader_spec in Hlead as ([Hsn _ Ht2 _ _ _ _ _] & _ & _ & li & es & ix & us & Hli & _ & _ & Hn & Hap & _).
  destruct (Hl1 Hj) as (Hj1 & Hf1 & He1).
  destruct (append_end es (r_raft_log r1) (r_raft_log r2) ix) as (Hj2 & He2 & Hf2 & _); [done|by eapply numbered_end|done|].
  destruct (Hlog Hj2) as (Hj' & Hf' & es' & He' & Hes'). apply number_entries_term in Hn.
  assert (∀ t, T t `prefix_of` upd T (r_term r') (ents (r_raft_log r')) t) as Hmono.
  { intros t. apply upd_mono. rewrite HT. apply prefix_nil. }
  assert (r_term r' ≠ 0) as Hne.
  { destruct (Hc1 Hst1) as [[Hst0 E]|]; [|lia]. rewrite Ht, Ht2, E. apply (wo_term _ _ Hok i). by left. }
  constructor; try done; try (intros _; done).
  - intros t. destruct (upd_led T (r_term r') (ents (r_raft_log r')) t) as [| ->]; [by left|by right].
  - split; [done|congruence].
  - rewrite Hb, (sn_batch _ _ Hsn), Hb1. apply (wo_batch _ _ Hok).
  - assert (ents (r_raft_log r') = ents (r_raft_log r) ++ (es ++ es')) as E by (rewrite He', He2, He1, app_assoc; done).
    rewrite E. eapply anchored_grow; [|exact Hne| |by rewrite upd_same].
    + eapply anchored_mono; [|apply (wo_anchored _ _ Hok i)]. by rewrite <-E.
    + apply Forall_app. rewrite Ht. split; [|done]. by rewrite Ht2.
  - intros _. apply upd_same.
  - intros g Hg. destruct (Hms Hj2 ltac:(congruence) ltac:(rewrite (sn_batch _ _ Hsn), Hb1; apply (wo_batch _ _ Hok)) g Hg)
      as [Hg'|[Hgt Hsl]].
    + left. rewrite (sn_msgs _ _ Hsn) in Hg'. by apply Hm1.
    + right. rewrite Hgt, <-Ht. split; [done|]. by rewrite upd_same.
  - lia.
  - intros Hc. congruence.
Qed.

(** An accepted append from the leader of its term. *)
Lemma accepted_anchored m l l' res :
  log_wf l → first l = 1 → anchored T (ents l) → slice_of (T (m_term m)) m →
  maybe_append (m_index m) (m_log_term m) (m_commit m) (m_entries m) l = Done (l', res) →
  joined l' ∧ first l' = 1 ∧ anchored T (ents l').
Proof using Hok.
  intros Hw Hf Ha Hsl E. destruct (wo_led _ _ Hok (m_term m)) as [HaT HcT]. pose proof (slice_contiguous _ _ HcT Hsl) as Hc.
  destruct (maybe_append_Done _ _ _ _ _ _ _ Hc Hw E) as [->|(Hm & l1 & Hl1 & Hcom)]; [split; [apply Hw|done]|].
  assert (joined l1 ∧ first l1 = 1 ∧ anchored T (ents l1)) as (Hj1 & Hf1 & Ha1).
  2: { destruct (same_ents_commit_to _ _ _ Hcom Hj1) as (Hj' & Hf' & ->). split_and!; [done|congruence|done]. }
  destruct Hl1 as [->|Hsp]; [split; [apply Hw|done]|]. pose proof Hsp as (k & e0 & Hk & _ & _ & Hj1 & Hf1 & _).
  split_and!; [done|congruence|].
  assert (has_at (T (m_term m)) (m_index m) (m_log_term m)) as Hat by (apply slice_has; [done|]; by intros En; rewrite En in Hk).
  destruct (append_accepts T (m_term m) m l l1) as [_ [[-> _]|[-> _]]]; try done; [by right|by apply anchored_take].
Qed.

Lemma answered_advances m : m ∈ net C → answered m r r' → advances T T r r'.
Proof using Hok Hwf.
  intros Hin (r1 & l & g & Hty & Hsil & Ht1 & Hst1 & Hr' & Htg & _ & _ & Hl). pose proof (proj1 (wo_log _ _ Hok i)) as Hw.
  destruct log_joined as [Hj Hf]. pose proof (λ g, silent_appends m r r1 g Hw Hsil) as Hm1.
  destruct Hsil as [_ Htm1 _ _ Hb1 [Hl1 Hfin1] _].
  destruct (Hl1 Hj) as (Hj1 & Hf1 & He1). destruct (Hfin1 Hw) as [Hw1 _].
  destruct (wo_msgs _ _ Hok m) as [_ Hsl]; [left; by apply list_elem_of_filter|].
  assert (first l = 1 ∧ anchored T (ents l)) as [Hfl Hal].
  { assert (anchored T (ents (r_raft_log r1))) as Ha by (rewrite He1; apply (wo_anchored _ _ Hok i)).
    destruct Hl as [(-> & _)|(res & El & _)]; [split; [congruence|done]|].
    eapply (accepted_anchored m (r_raft_log r1)) in El as (_ & ? & ?); [|done|congruence|done..]. done. }
  apply quiet_advances; rewrite Hr'; simpl; try done.
  - congruence.
  - congruence.
  - rewrite Hb1. apply (wo_batch _ _ Hok).
  - intros g'. rewrite appends_app, appends_other, app_nil_r by by rewrite Htg. apply Hm1.
Qed.
End effects.

(** A node restarts with the log of its storage. *)
Lemma stored_log store off com p ap n :
  st_ok store → off = st_first store + len (st_entries store) → off ≤ u64_max →
  let l := mkRaftLog store (Unstable.new off) com p ap n in
  joined l ∧ first l = st_first store ∧ ents l = st_entries store ∧ log_end l = off.
Proof.
  intros Hst -> Hb l. pose proof (st_first_pos _ Hst) as Hpos. split_and!; [|done|..].
  - constructor; simpl; [done|constructor; simpl; [apply contiguous_nil|rewrite len_nil; lia|lia|done|done]|intros _; lia|done].
  - unfold ents, stable_part, l. simpl. rewrite app_nil_r. apply take_ge. unfold len. lia.
  - unfold log_end, ents, stable_part, first, l. simpl. rewrite app_nil_r, len_take. lia.
Qed.
Lemma loaded_log c store hs l' :
  loaded c store hs l' → st_ok store → cfg_applied c ≤ hs_commit hs →
  log_wf l' ∧ first l' = st_first store ∧ ents l' = st_entries store.
Proof.
  intros (l & com & Hn & -> & Hcom) Hst Hap. unfold RaftLog.new in Hn.
  rewrite st_first_index, st_last_index in Hn by done. cbn [mbind outcome_bind unwrap_r] in Hn. inv_done.
  pose proof (st_first_pos _ Hst) as Hpos. set (off := st_first store + len (st_entries store)).
  replace (off - 1 + 1) with off in * by lia.
  set (ap := if 0 <? cfg_applied c then _ else _). change (set_l_max_apply_unpersisted_log_limit 0 _) with
    (mkRaftLog store (Unstable.new off) com (off - 1) ap 0).
  destruct (stored_log store off com (off - 1) ap 0) as (Hj & Hf & He & Hend); [done|done|lia|].
  assert (st_first store - 1 ≤ com < off ∧ ap ≤ com) as [Hc1 Hc2].
  { unfold ap. case_bool_decide as Hd.
    - rewrite Hd in Hap. simpl in Hap. destruct (N.ltb_spec 0 (cfg_applied c)); lia.
    - destruct Hcom as (-> & Hge & last & Hlast & Hle).
      destruct (stored_log store off (st_first store - 1) (off - 1) (st_first store - 1)
        (cfg_max_apply_unpersisted_log_limit c)) as (Hj0 & _ & _ & Hend0); [done|done|lia|].
      assert (Done last = Done (off - 1)) as [= ->] by (rewrite <-Hlast, <-Hend0; apply (last_index_spec _ Hj0)). destruct (N.ltb_spec 0 (cfg_applied c)); lia. }
  split_and!; [|exact Hf|exact He].
  constructor; [exact Hj|rewrite Hf, Hend; simpl; lia|simpl; unfold off; lia|simpl; lia].
Qed.
Lemma loaded_dummy c store hs l' : loaded c store hs l' → dummy l' = st_dummy_term store.
Proof.
  intros (l & com & Hn & -> & _). unfold RaftLog.new in Hn. repeat (apply bind_Done in Hn as (? & _ & Hn)). by injection Hn as <-.
Qed.

(** ** Every step *)

(** Only the log of the leader that moves to [r'] has grown. *)
Definition grown (T T' : u64 → list Entry) r' : Prop :=
  (∀ t, T t `prefix_of` T' t) ∧ ∀ t, T' t = T t ∨ (t = r_term r' ∧ r_state r' = Leader).

(** Leaders of the same term were elected under configurations with common quorums
    (the same configuration, or two that are one change apart). *)
Definition agreeing (C : cluster (S := S)) : Prop :=
  ∀ t a b ca cb, (t, a, ca) ∈ leaders C → (t, b, cb) ∈ leaders C → quorums_meet ca cb.

Section world_event.
Context (T : u64 → list Entry) (W : world) (i : u64) (e : event (S := S)) (r' : Raft S).
Let C := w_cluster W.
Let C' := mkCluster (set_node i r' (nodes C)) (net C) (record_leader i (nodes C i) r' (leaders C)).
Let W' := mkWorld C' (λ j, if j =? i then ents (r_raft_log r') :: w_past W j else w_past W j).
Context (Hok : world_ok T W) (Hpos : possible C i e) (Hpl : plain W i e) (He : run_event e (nodes C i) = Done r').
Context (Hrec : ∀ j, r_state (nodes C j) = Leader → ∃ conf, (r_term (nodes C j), j, conf) ∈ leaders C).
Context (Huniq : ∀ t a b ca cb, (t, a, ca) ∈ leaders C' → (t, b, cb) ∈ leaders C' → a = b).

Lemma recorded_kept w : w ∈ leaders C → w ∈ leaders C'.
Proof using. simpl. unfold record_leader. case_match; [by right|done]. Qed.

(** A message in the network is in order and has a term. *)
Lemma plain_message m : plain W i (Receive m) → m_type m ≠ MsgSnapshot ∧ in_order m ∧ (m_type m = MsgAppend → m_term m ≠ 0).
Proof using Hok.
  intros [Hns Hin].
  assert (m_type m = MsgAppend → m_term m ≠ 0 ∧ slice_of (T (m_term m)) m) as Hg.
  { intros Hty. apply (wo_msgs _ _ Hok). left. apply list_elem_of_filter. auto. }
  split; [done|]. split; [|intros Hty; by apply Hg]. intros Hty. eapply slice_contiguous; [apply (wo_led _ _ Hok)|by apply Hg].
Qed.

(** The log of the term stays the leader's. *)
Lemma advance_led T' :
  advances T T' (nodes C i) r' → (∀ t, T' t = T t ∨ (t = r_term r' ∧ ∃ conf, (t, i, conf) ∈ leaders C')) →
  world_ok T' W' ∧ grown T T' r'.
Proof using Hok Hrec Huniq.
  intros Had Hled. split; [|split; apply Had]. eapply advance_ok; [done|done|apply Hrec|]. intros j Hj Hst.
  destruct (Hled (r_term (nodes C j))) as [|[Ht [conf Hin]]]; [done|]. destruct (Hrec j Hst) as [conf' Hin'].
  destruct Hj. eapply Huniq; [by apply recorded_kept|done].
Qed.

Lemma leads_world_ok :
  log_wf (r_raft_log r') → r_state (nodes C i) = Leader → leads (nodes C i) r' → ∃ T', world_ok T' W' ∧ grown T T' r'.
Proof using Hok Hrec Huniq.
  intros Hw Hst Hl. exists (upd T (r_term r') (ents (r_raft_log r'))). apply advance_led; [by apply leads_advances|].
  intros t. destruct (upd_led T (r_term r') (ents (r_raft_log r')) t) as [| ->]; [by left|right]. split; [done|].
  destruct (Hrec i Hst) as [conf Hin]. exists conf. rewrite (le_term _ _ Hl). by apply recorded_kept.
Qed.
(** No leader has been recorded for the term of a new leader. *)
Lemma elected_recorded m : elected m (nodes C i) r' →
  (∃ conf, (r_term r', i, conf) ∈ leaders C') ∧ ∀ j conf, (r_term r', j, conf) ∉ leaders C.
Proof using Hok Huniq.
  intros Hel. pose proof (elected_leader _ _ _ Hel) as Hst'.
  assert (∃ r1, silent m (nodes C i) r1 ∧ r_state r1 = Candidate ∧ r_term r' = r_term r1) as (r1 & Hs1 & Hst1 & Ht).
  { apply elected_leads in Hel as (r1 & r2 & Hs1 & Hst1 & ([_ _ Ht2 _ _ _ _ _] & _)%become_leader_spec & [_ Ht _ _ _ _ _]).
    exists r1. split_and!; [done|done|congruence]. }
  assert (still_leader (nodes C i) r' = false) as Hnew.
  { unfold still_leader. apply andb_false_iff. destruct (si_candidate _ _ _ Hs1 Hst1) as [[Hc _]|Hlt].
    - left. apply bool_decide_eq_false_2. by rewrite Hc.
    - right. apply N.eqb_neq. lia. }
  assert (∃ conf, (r_term r', i, conf) ∈ leaders C') as [conf Hin].
  { eexists. simpl. unfold record_leader. rewrite bool_decide_eq_true_2, Hnew by done. by left. }
  split; [by exists conf|]. intros j cj Hj. assert (j = i) as -> by (eapply Huniq; [by apply recorded_kept|done]).
  destruct (wo_once _ _ Hok _ _ _ Hj) as [Hle Hnc]. fold C in Hle, Hnc.
  destruct (si_candidate _ _ _ Hs1 Hst1) as [[Hc E]|Hlt]; [|lia]. apply Hnc; [congruence|done].
Qed.

Lemma effect_world_ok : log_wf (r_raft_log r') → effect (event_msg e) (nodes C i) r' → ∃ T', world_ok T' W' ∧ grown T T' r'.
Proof using Hok Hpos Hpl He Hrec Huniq.
  intros Hw Heff. assert (silent (event_msg e) (nodes C i) r' ∨ (r_state (nodes C i) = Leader ∧ leads (nodes C i) r') ∨
    elected (event_msg e) (nodes C i) r' ∨ answered (event_msg e) (nodes C i) r') as [Hs|[[Hst Hl]|[Hel|Hac]]].
  { destruct Heff as [|Hst Hl%labors_leads|cc res Hst Hl| |]; auto. right. left. split; [done|]. by eapply (apply_conf_change_walks leads). }
  - exists T. apply advance_led; [by eapply silent_advances|by left].
  - by apply leads_world_ok.
  - destruct (elected_recorded _ Hel) as [[conf Hin] Hno].
    assert (T (r_term r') = []) as HT.
    { destruct (decide (T (r_term r') = [])) as [|Hne]; [done|]. exfalso.
      destruct (wo_recorded _ _ Hok _ Hne) as (j & cj & Hj). by destruct (Hno j cj). }
    exists (upd T (r_term r') (ents (r_raft_log r'))). apply advance_led; [by eapply elected_advances|].
    intros t. destruct (upd_led T (r_term r') (ents (r_raft_log r')) t) as [| ->]; [by left|right; by eauto].
  - exists T. apply advance_led; [|by left]. pose proof Hac as (_ & _ & _ & Hty & _).
    eapply (answered_advances T W i Hok r' Hw (event_msg e)); [|done].
    destruct e as [m| | | | | |]; try done. by apply Hpl.
Qed.

Lemma event_world_ok : ∃ T', world_ok T' W' ∧ grown T T' r'.
Proof using Hok Hpos Hpl He Hrec Huniq.
  destruct (wo_log _ _ Hok i) as [Hw Hf]. assert (ordinary e ∨ ¬ ordinary e) as [Ho|Ho] by (destruct e; first [by left|right; by intros []]).
  - assert (m_type (event_msg e) ≠ MsgSnapshot ∧ in_order (event_msg e) ∧ (m_type (event_msg e) = MsgAppend → m_term (event_msg e) ≠ 0))
      as (Hns & Hin & Hnz)
      by (destruct e as [m| | | | | |]; [by apply plain_message|split_and!; [done|by intros ?|done]..]).
    assert (log_wf (r_raft_log r')) as Hw' by (by destruct (run_final e _ _ Ho Hin He Hw)).
    destruct (run_effect e _ _ Ho Hns Hnz He) as [Heff|(j & t & _ & [Hn|[Hst Hp]])]; [by apply effect_world_ok| |].
    + exists T. apply advance_led; [by eapply noted_advances|by left].
    + apply leads_world_ok; [done..|]. by eapply (on_persist_entries_walks leads).
  - destruct e as [| | | | |l|c store]; try (by destruct Ho); simpl in He, Hpl.
    + injection He as Hr. destruct Hpl as (Hwl & Hfl & Hel). exists T. apply advance_led; [|by left].
      apply quiet_advances; rewrite <-?Hr; try done; simpl;
        [by left|apply (wo_batch _ _ Hok)|rewrite Hel; apply (wo_anchored _ _ Hok i)].
    + destruct Hpl as (Hb & Hst & Hfs & Hpast & Hap). destruct Hpos as (_ & Hid & rs & Hrs & Ht & _).
      apply bind_Done in He as (res & E & Er). destruct res as [r1|]; [|done]. injection Er as ->.
      destruct (new_spec c store rs r' E Hrs) as (_ & Hms & Hs & Ht' & _ & _ & _ & Hb' & _ & _ & Hl).
      destruct (loaded_log _ _ _ _ Hl Hst (Hap rs Hrs)) as (Hwl & Hfl & Hel).
      exists T. apply advance_led; [|by left]. apply quiet_advances; rewrite ?Hs, ?Hms; try done.
      * rewrite Ht', Ht. done.
      * congruence.
      * by intros g ?%elem_of_nil.
      * congruence.
      * rewrite Hel. by eapply wo_past.
Qed.
End world_event.

(** Sending moves messages from an outbox to the network. *)
Lemma flush_ok T W i :
  world_ok T W → let C := w_cluster W in
  world_ok T (mkWorld (mkCluster (set_node i (set_r_msgs [] (nodes C i)) (nodes C)) (net C ++ r_msgs (nodes C i)) (leaders C)) (w_past W)).
Proof.
  intros Hok C.
  assert (∀ j, ∃ ms, set_node i (set_r_msgs [] (nodes C i)) (nodes C) j = set_r_msgs ms (nodes C j) ∧
    (ms = [] ∨ ms = r_msgs (nodes C j))) as Hn.
  { intros j. unfold set_node. destruct (N.eqb_spec j i) as [->|]; [by exists []; auto|].
    exists (r_msgs (nodes C j)). split; [by destruct (nodes C j)|by right]. }
  destruct Hok as [Hlog Hb Ha Hp Hl Hle Hms Hr Ho Ht]. constructor; unfold w_log; simpl.
  - intros j. destruct (Hn j) as (ms & -> & _). apply (Hlog j).
  - intros j. destruct (Hn j) as (ms & -> & _). apply (Hb j).
  - intros j. destruct (Hn j) as (ms & -> & _). apply (Ha j).
  - done.
  - done.
  - intros j. destruct (Hn j) as (ms & -> & _). apply (Hle j).
  - intros g Hg. apply Hms. destruct Hg as [Hg|[j Hg]].
    + rewrite appends_app, elem_of_app in Hg. destruct Hg; [by left|right; by exists i].
    + destruct (Hn j) as (ms & Hj & Hm). rewrite Hj in Hg. simpl in Hg.
      destruct Hm as [-> | ->]; [by apply elem_of_nil in Hg|right; by exists j].
  - done.
  - intros t j conf. destruct (Hn j) as (ms & -> & _). apply Ho.
  - intros j. destruct (Hn j) as (ms & -> & _). apply (Ht j).
Qed.

Lemma leaders_incl W W' w : world_step W W' → w ∈ leaders (w_cluster W) → w ∈ leaders (w_cluster W').
Proof. intros [] Hin; [|done]. simpl. unfold record_leader. case_match; [by right|done]. Qed.

Lemma worlds_reachable W W' : rtc world_step W W' → rtc cluster_step (w_cluster W) (w_cluster W').
Proof. induction 1 as [|W1 W2 W3 Hs _ IH]; [done|]. eapply rtc_l; [by apply world_cluster|done]. Qed.

Lemma world_reachable_ok W0 W :
  fresh W0 → rtc world_step W0 W → agreeing (w_cluster W) → ∃ T, world_ok T W.
Proof.
  intros Hfr Hs. revert W Hs. refine (rtc_ind_r _ _ _ _).
  - intros _. eexists. by apply fresh_ok.
  - intros W W' Hr Hs IH Hag.
    assert (agreeing (w_cluster W)) as Hag0.
    { intros t a b ca cb H1' H2'. by eapply Hag; eapply leaders_incl. }
    destruct (IH Hag0) as [T Hok]. apply worlds_reachable in Hr as Hrc.
    destruct (reachable_ok _ _ (fr_initial _ Hfr) Hrc) as [ballot Hc].
    assert (rtc cluster_step (w_cluster W0) (w_cluster W')) as Hrc' by (eapply rtc_r; [done|by apply world_cluster]).
    destruct Hs as [i e r' C Hi Hpos Hpl He|i].
    + destruct (event_world_ok T W i e r') as (T' & Hok' & _); [done..|apply (co_leader _ _ Hc)| |by exists T'].
      intros t a b ca cb Ha Hb. eapply (election_safety_x (w_cluster W0)); [apply Hfr|exact Hrc'|done..|by eapply Hag].
    + exists T. by apply flush_ok.
Qed.

Lemma entry_at_ents (l : RaftLog S) k e :
  joined l → first l = 1 → entry_at l k = Some e → 1 ≤ k ∧ ents l !! N.to_nat (k - 1) = Some e.
Proof. intros Hj Hf. unfold entry_at. rewrite Hf. destruct (N.ltb_spec k 1); [done|]. by split. Qed.
End matching.

(** C5: log matching. In any run of a cluster in which nodes crash and restart from
    a log they have held, messages are lost, delayed, reordered and repeated, and
    configurations change (so that leaders of the same term were elected by
    quorums that meet), when two nodes hold an entry of the same term at the same
    position, their logs are the same up to that position. Snapshots and the
    batching of appends are not in use. *)
Theorem log_matching {S} `{StorageLaws S, PbMessage, HashOrder, Rng, ConfChangeCodec} (W0 W : world (S := S)) i j k e1 e2 :
  fresh W0 → rtc world_step W0 W → agreeing (w_cluster W) →
  entry_at (w_log W i) k = Some e1 → entry_at (w_log W j) k = Some e2 → e_term e1 = e_term e2 →
  ∀ k', k' ≤ k → entry_at (w_log W i) k' = entry_at (w_log W j) k'.
Proof.
  intros Hfr Hs Hag H1' H2' Ht k' Hk'. destruct (world_reachable_ok _ _ Hfr Hs Hag) as [T Hok].
  destruct (wo_log _ _ Hok i) as [Hwi Hfi]. destruct (wo_log _ _ Hok j) as [Hwj Hfj].
  apply entry_at_ents in H1' as [Hk1 H1']; [|apply Hwi|done]. apply entry_at_ents in H2' as [_ H2']; [|apply Hwj|done].
  pose proof (anchored_agree T _ _ _ _ _ (wo_anchored _ _ Hok i) (wo_anchored _ _ Hok j) H1' H2' Ht) as Heq.
  unfold entry_at. rewrite Hfi, Hfj. destruct (k' <? 1); [done|].
  rewrite <-(lookup_take_lt (ents (w_log W i)) (Datatypes.S (N.to_nat (k - 1)))) by lia.
  rewrite Heq. apply lookup_take_lt. lia.
Qed.
