(* ===== verification/RaftSystem.v ===== *)
(** * Nodes, their disks, and the group they make up

    The correspondence between the nodes of a cluster and the group of
    [Replication]: a node's term, log and role are those of the group, what is
    committed has been chosen, what the node believes and what it says is true. *)
From stdpp Require Import functions.
From S2P Require Import Prelude Errors Proto Util Quorum Storage Unstable ReadOnly Config.
From S2P Require Import Majority Joint Progress Tracker RaftLog RaftLogSpec RaftLogReads LogTotal LogFinal RaftState RaftSend RaftLogic.
From S2P Require Import RaftRole RaftStep RaftReset RaftVote RaftElect RaftCluster RaftTotal RaftEnds RaftWalk RaftFinal RaftPlain RaftSilent RaftAppends RaftEffect.
From S2P Require Import RaftLead RaftDuty Replication RaftClaims RaftMatching.
#[local] Open Scope N_scope.

Section system.
Context {S : Type} `{StorageLaws S, PbMessage, HashOrder, Rng, ConfChangeCodec}.
Implicit Types r : Raft S.

(** The voters. *)
Context (conf : JointConfig).
Definition quorum (Q : gset u64) : Prop := joint_quorum_of conf (.∈ Q).
Lemma quorum_meet : voters (incoming conf) ≠ ∅ → ∀ P Q, quorum P → quorum Q → ∃ v, v ∈ P ∧ v ∈ Q.
Proof. intros Hne P Q HP HQ. destruct (joint_quorum_intersect conf (.∈ P) (.∈ Q) (incoming conf)) as (v & _ & ? & ?); eauto. Qed.

Abbreviation settled := (settled quorum).
Abbreviation settled_to := (settled_to quorum).
Abbreviation settled_at := (settled_at quorum).
Abbreviation honest := (honest quorum).

(** The voters are [conf], nothing has been cut from the log, and no snapshot has
    been asked for. *)
Record tame r : Prop := {
  ta_conf : c_voters (pt_conf (r_prs r)) = conf;
  ta_first : dummy (r_raft_log r) = Some 0;
  ta_request : r_pending_request_snapshot r = 0;
  ta_out g : g ∈ r_msgs r → m_type g = MsgAppendResponse → m_request_snapshot g = 0 }.
Lemma tame_stays (K : Prop) r r' :
  undisturbed K r r' → log_wf (r_raft_log r) → (¬ K → c_voters (pt_conf (r_prs r')) = conf) → Decision K → tame r → tame r'.
Proof.
  intros [C L P O] Hw HK HdK [Hc Hd Hp Ho]. constructor.
  - destruct (decide K) as [Hk|Hn]; [by rewrite (C Hk)|by apply HK].
  - destruct (L Hw) as [_ [_ ->]]. done.
  - by apply P.
  - intros g [Hg|Hg]%O Hty; [by apply Ho|by apply Hg|done].
Qed.

(** The entries up to position [c]. *)
Definition upto (c : u64) (L : list Entry) : list Entry := take (N.to_nat c) L.
Definition committed r : list Entry := upto (l_committed (r_raft_log r)) (ents (r_raft_log r)).
Definition acked G (t v n : u64) : Prop := durable G v t (N.to_nat n).
Definition saying G (i v t : u64) (n : nat) : Prop := v = i ∧ said G i t n.

(** What a leader believes is true. *)
Record leads_ok G i r : Prop := {
  lo_some : ents (r_raft_log r) ≠ [];
  lo_prs v pr : Tracker.get v (r_prs r) = Some pr → good_pr (acked G (r_term r)) r v pr;
  lo_reads ctx rs : ro_pending_read_index (r_read_only r) !! ctx = Some rs → ris_index rs ≤ l_committed (r_raft_log r);
  lo_self : acked G (r_term r) i (l_persisted (r_raft_log r));
  lo_out g : g ∈ r_msgs r → honest (durable G) G g }.

(** Node [i], in state [r], is in the group: its term, its log and its role. *)
Record member G i r : Prop := {
  me_id : r_id r = i;
  me_term : g_term G i = r_term r;
  me_log : g_log G i = ents (r_raft_log r);
  me_runs : g_runs G i = bool_decide (r_state r = Candidate);
  me_dummy : dummy (r_raft_log r) = Some 0;
  me_commit : settled G (committed r);
  me_out g : g ∈ r_msgs r → honest (saying G i) G g }.
(** ... with the log and the commit index it has on disk. *)
Record node_ok G i r (d : list Entry * u64) : Prop := {
  no_member : member G i r;
  no_tame : tame r;
  no_disk : g_disk G i = d.1;
  no_disk_commit : settled G (upto d.2 d.1);
  no_persisted : upto (l_persisted (r_raft_log r)) (ents (r_raft_log r)) `prefix_of` d.1;
  no_leads : r_state r = Leader → leads_ok G i r }.

(** ** Nodes that are left alone *)
Lemma acked_later G G' t v n : later G G' → acked G t v n → acked G' t v n.
Proof. intros Hl. apply Hl. Qed.
Lemma acked_le G t v n m : m ≤ n → acked G t v n → acked G t v m.
Proof. intros Hm (n' & ? & ?). exists n'. split; [lia|done]. Qed.
Lemma good_pr_later G G' t r v pr : later G G' → good_pr (acked G t) r v pr → good_pr (acked G' t) r v pr.
Proof.
  intros Hl [Hm ? ? ?]. constructor; [|done..]. destruct Hm as [|[Ha|]]; [by left|right; left; by eapply acked_later|right; by right].
Qed.
Lemma leads_ok_later G G' i r : later G G' → leads_ok G i r → leads_ok G' i r.
Proof.
  intros Hl [? Hp ? ? Ho]. constructor; [done| |done|by eapply acked_later|].
  - intros v pr Hg. eapply good_pr_later; [done|]. by apply Hp.
  - intros g Hg%Ho. eapply honest_later; [exact Hl| |exact Hg]. intros _ t n. apply Hl.
Qed.
Lemma node_ok_other G G' i j r d : later G G' → acts i G G' → j ≠ i → node_ok G j r d → node_ok G' j r d.
Proof.
  intros Hl Ha Hj [[I T L R D C O] Ta Dk Dc P Le]. constructor; [constructor|..]; try done.
  - by rewrite (ac_term _ _ _ Ha).
  - by rewrite (ac_log _ _ _ Ha).
  - by rewrite (ac_runs _ _ _ Ha).
  - by eapply settled_later.
  - intros g Hg%O. eapply honest_later; [exact Hl| |exact Hg]. intros _ t n [? ?]. split; [done|]. by apply (ac_said _ _ _ Ha).
  - by rewrite (ac_disk _ _ _ Ha).
  - by eapply settled_later.
  - intros Hst. eapply leads_ok_later; [done|]. by apply Le.
Qed.

(** ** Positions in a log that begins at 1 *)
Lemma settled_prefix G L L' : L `prefix_of` L' → settled G L' → settled G L.
Proof. intros HL [->|Hc]; [left; by apply prefix_nil_inv|right; by eapply chosen_prefix]. Qed.
Lemma upto_prefix c c' L : c ≤ c' → upto c L `prefix_of` upto c' L.
Proof. intros Hc. apply prefix_take_le. lia. Qed.
Lemma upto_mono c L L' : L `prefix_of` L' → c ≤ len L → upto c L' = upto c L.
Proof. intros [k ->] Hc. unfold upto, len in *. rewrite take_app_le by lia. done. Qed.

Section positions.
Context (l : RaftLog S) (Hw : log_wf l) (Hf : first l = 1).
Lemma committed_len : l_committed l ≤ len (ents l).
Proof using Hw Hf. pose proof (lw_committed _ Hw). rewrite (log_end_len l Hf) in *. lia. Qed.
Lemma persisted_len : l_persisted l ≤ len (ents l).
Proof using Hw Hf.
  pose proof (lw_persisted _ Hw). pose proof (log_end_unstable _ (lw_joined _ Hw)) as Hu. rewrite (log_end_len l Hf) in Hu. lia.
Qed.
Lemma at_entry k e : entry_at l k = Some e → 1 ≤ k ∧ ents l !! (N.to_nat k - 1)%nat = Some e.
Proof using Hf.
  unfold entry_at. rewrite Hf. destruct (N.ltb_spec k 1); [done|]. by replace (N.to_nat (k - 1)) with (N.to_nat k - 1)%nat by lia.
Qed.
Lemma entry_in k e : 1 ≤ k → ents l !! (N.to_nat k - 1)%nat = Some e → entry_at l k = Some e.
Proof using Hf.
  intros Hk He. unfold entry_at. rewrite Hf, (proj2 (N.ltb_ge _ _)) by done. by replace (N.to_nat (k - 1)) with (N.to_nat k - 1)%nat by lia.
Qed.
Lemma ends_in_ends i t : dummy l = Some 0 → ends_in l i t → ends_with (ents l) i t.
Proof using Hw Hf.
  intros Hd [-> Ht]. pose proof (lw_joined _ Hw) as Hj. rewrite (log_end_len l Hf) in *. split; [lia|].
  destruct (last (ents l)) as [e|] eqn:El.
  - destruct (last_entry_at l e Hj El) as [Ht' _]. rewrite (log_end_len l Hf) in Ht'. congruence.
  - apply last_None in El. unfold log_term in Ht. rewrite (log_end_len l Hf), Hf, El in Ht. simpl in Ht. rewrite Hd in Ht. by injection Ht.
Qed.
End positions.
(** What is committed and persisted stays as it is. *)
Lemma spliced_keeps idx es l l1 c : log_wf l → first l = 1 → spliced idx es l l1 →
  (c ≤ l_committed l ∨ c ≤ l_persisted l1) → upto c (ents l1) = upto c (ents l).
Proof.
  intros Hw Hf (k & e0 & _ & _ & Hcc & _ & _ & He & _ & Hp & _ & _ & _) Hc. rewrite He, Hf. unfold upto.
  rewrite (log_end_len l Hf) in Hcc. unfold len in Hcc. rewrite take_app_le, take_take by (rewrite length_take; lia). f_equal. lia.
Qed.
Lemma outdone_newer (l : RaftLog S) L i t : log_wf l → first l = 1 → outdone l i t → ends_with L i t → newer L (ents l).
Proof.
  intros Hw Hf Ho [-> Ht] e2 He2. specialize (Ho e2 He2). rewrite (log_end_len l Hf) in Ho.
  destruct (last L) as [e1|] eqn:El; [exists e1; split; [done|]; subst t; destruct Ho as [|[? ?]]; [by left|right; unfold len in *; split; [done|lia]]|].
  subst t. apply last_None in El as ->. destruct Ho as [|[_ Hlen]]; [lia|]. rewrite len_nil in Hlen.
  destruct (ents l); [done|rewrite len_cons in Hlen; lia].
Qed.

Lemma committed_lookup r c e : 1 ≤ c → c ≤ l_committed (r_raft_log r) → ents (r_raft_log r) !! (N.to_nat c - 1)%nat = Some e →
  committed r !! (N.to_nat c - 1)%nat = Some e.
Proof. intros ? ? He. unfold committed, upto. rewrite lookup_take_lt; [done|lia]. Qed.

(** ** What a node says is true *)
Section truth.
Context (G : group) (i : u64) (r : Raft S) (Hw : log_wf (r_raft_log r)) (Hf : first (r_raft_log r) = 1).
Context (Hid : r_id r = i) (Hterm : g_term G i = r_term r) (Hlog : g_log G i = ents (r_raft_log r)).
Context (Hruns : g_runs G i = bool_decide (r_state r = Candidate)) (Hd : dummy (r_raft_log r) = Some 0).
Context (Hcom : settled G (committed r)).

Lemma known_settled c t : known_commit (r_raft_log r) c t → settled_at G c t.
Proof using Hf Hid Hterm Hcom.
  intros [Hc|(Hc & e & He & Ht)]; [left; lia|right]. apply at_entry in He as [H1c He]; [|done].
  apply (committed_lookup r c) in He; [|done..]. destruct Hcom as [Hn|Hch]; [by rewrite Hn, lookup_nil in He|].
  by exists (committed r), e.
Qed.
Lemma innocuous_honest K g : innocuous r g → honest K G g.
Proof using Hw Hf Hid Hterm Hlog Hruns Hd Hcom.
  unfold innocuous, RaftClaims.honest. pose proof known_settled. destruct (m_type g) eqn:Hty; try done; try by auto.
  - intros [|]; auto.
  - intros (Hk & Hfr & Ht & Hend). rewrite Hfr, Hid, Hterm, Hlog, Hruns. split_and!; [by auto|done|].
    rewrite bool_decide_eq_true. intros Hst E. apply (ends_in_ends (r_raft_log r)); auto.
Qed.
Lemma fine_honest K G0 g :
  later G0 G → is_Some (g_won G (r_term r)) → g_led G (r_term r) = ents (r_raft_log r) →
  fine (acked G0 (r_term r)) (r_term r) r g → honest K G g.
Proof using Hw Hf Hid Hterm Hlog Hruns Hd Hcom.
  intros Hl Hwon Hled Hg. destruct (decide (m_type g ∈ [MsgAppend; MsgHeartbeat; MsgReadIndexResp])) as [Hty|Hty].
  2: { apply innocuous_honest. unfold fine in Hg. destruct (m_type g); try done; by destruct Hty; set_solver. }
  assert (∀ c, c ≤ l_committed (r_raft_log r) → settled_to G (r_term r) c) as Hset.
  { intros c Hc. pose proof (committed_len _ Hw Hf). split; rewrite Hled; [unfold len in *; lia|].
    eapply settled_prefix; [|exact Hcom]. by apply upto_prefix. }
  unfold fine, RaftClaims.honest in *. destruct (m_type g); try (by exfalso; set_solver).
  - destruct Hg as (-> & Hc & Hn). rewrite Hled. split_and!; [done|by apply Hset|].
    destruct Hn as [[Hi Hn]|(? & ? & Ha)]; [left|right; split_and!; [done..|by apply Hl]].
    rewrite (log_end_len _ Hf) in Hi. split; [unfold len in Hi; lia|]. destruct Hn as [|(e & He & Ht)]; [by left|right].
    exists e. split; [|done]. by apply at_entry in He as [_ ?].
  - destruct Hg as (-> & Hc & Ha). split_and!; [done|by apply Hset|]. destruct Ha; [by left|right; by apply Hl].
  - destruct Hg as [-> Hc]. split; [done|by apply Hset].
Qed.
End truth.
End system.
