(* ===== verification/RaftFollow.v ===== *)
(** * Every event is explained by the group

    What an event does to a node is what a few steps of the group do to the member
    it stands for: a node that is silent at most enters a new term and votes, a new
    leader has won, a leader extends its log and reports what it has persisted, a
    follower accepts entries and says so. *)
From stdpp Require Import functions.
From S2P Require Import Prelude Errors Proto Util Quorum Storage Unstable ReadOnly Config.
From S2P Require Import Majority Joint Progress Tracker RaftLog RaftLogSpec RaftLogReads LogTotal LogFinal RaftState RaftSend RaftLogic.
From S2P Require Import RaftRole RaftStep RaftReset RaftVote RaftElect RaftCluster RaftTotal RaftEnds RaftWalk RaftFinal RaftPlain RaftSilent RaftAppends RaftEffect.
From S2P Require Import RaftLead RaftDuty Replication RaftClaims RaftMatching RaftSystem.
#[local] Open Scope N_scope.

(** ** Logs *)
Section logs.
Context (quorum : gset u64 → Prop) (G : group) (Hok : group_ok quorum G).
Lemma anchored_prefix T L L' : L `prefix_of` L' → anchored T L' → anchored T L.
Proof. intros [k ->] Ha. rewrite <-(take_app_length L k). by apply anchored_take. Qed.
Lemma chosen_anchored L : chosen quorum G L → anchored (g_led G) L.
Proof.
  intros (t & j & Q & _ & _ & _ & Hp). eapply anchored_prefix; [exact Hp|]. apply anchored_take, (gk_led _ _ Hok).
Qed.
(** A log that has the term of a settled position is settled up to there. *)
Lemma settled_at_here L c e : anchored (g_led G) L → 1 ≤ c → L !! (N.to_nat c - 1)%nat = Some e →
  settled_at quorum G c (e_term e) → settled quorum G (upto c L).
Proof.
  intros Ha Hc He [->|(L' & e' & HL' & He' & Ht)]; [done|]. right. unfold upto.
  replace (N.to_nat c) with (Datatypes.S (N.to_nat c - 1)) by lia.
  rewrite (anchored_agree (g_led G) L L' _ e e'); [|done|by apply chosen_anchored|done..].
  eapply chosen_prefix; [apply prefix_take|done].
Qed.
Lemma take_prefix_eq {A} (L X : list A) n : take n L `prefix_of` X → (n ≤ length L)%nat → take n L = take n X.
Proof. intros [k Hk] Hn. rewrite Hk, take_app_le, take_take, Nat.min_id by (rewrite length_take; lia). done. Qed.
(** A log that has an entry of the leader's term is the leader's up to there. *)
Lemma settled_to_here L c e : anchored (g_led G) L → 1 ≤ c → L !! (N.to_nat c - 1)%nat = Some e →
  settled_to quorum G (e_term e) c → settled quorum G (upto c L).
Proof.
  intros Ha Hc He [_ Hs]. destruct (Ha _ _ He) as [_ Hp]. replace (Datatypes.S (N.to_nat c - 1)) with (N.to_nat c) in Hp by lia.
  unfold upto. rewrite (take_prefix_eq _ _ _ Hp); [done|]. apply lookup_lt_Some in He. lia.
Qed.
(** A log that is near the leader's is settled as far as the leader's is. *)
Lemma near_settled L t n c : near quorum G L t n → (N.to_nat c ≤ n)%nat → c ≤ len L → settled_to quorum G t c → settled quorum G (upto c L).
Proof.
  intros Hn Hc Hlen [Hcl Hs]. unfold upto, len in *.
  assert (∀ P, P `prefix_of` L → (N.to_nat c ≤ length P)%nat → take (N.to_nat c) L = take (N.to_nat c) P) as HP.
  { intros P [k ->] HcP. by rewrite take_app_le. }
  destruct Hn as [(P & HPL & Hn & [[k Hk]|Hch])|[k Hk]].
  - rewrite (HP P) by (done || lia). rewrite Hk, take_app_le in Hs by lia. done.
  - rewrite (HP P) by (done || lia). right. eapply chosen_prefix; [apply prefix_take|done].
  - rewrite Hk, take_app_le in Hs by lia. done.
Qed.
End logs.

Section follow.
Context {S : Type} `{StorageLaws S, PbMessage, HashOrder, Rng, ConfChangeCodec}.
Implicit Types r : Raft S.
Context (conf : JointConfig) (Hconf : joint_bounded conf) (Hvoters : voters (incoming conf) ≠ ∅).
Abbreviation quorum := (quorum conf).
Abbreviation settled := (settled quorum).
Abbreviation honest := (honest quorum).
Abbreviation moves := (moves quorum).
Abbreviation node_ok := (node_ok conf).
Abbreviation member := (member conf).

(** The entry a node takes for persisted. *)
Lemma maybe_persist_entry j t (l l' : RaftLog S) b :
  joined l → first l = 1 → maybe_persist j t l = Done (l', b) →
  l' = l ∨ (l_persisted l' = j ∧ 1 ≤ j ∧ ∃ e, ents l !! (N.to_nat j - 1)%nat = Some e ∧ e_term e = t).
Proof using.
  intros Hj Hf E. unfold maybe_persist in E. destruct (u_snapshot (l_unstable l)) as [s|] eqn:Es.
  { apply bind_Done in E as (ok & Hcond & E). destruct ok; [|left; by injection E].
    pose proof (uo_snapshot _ (jo_unstable _ Hj) s Es) as Hso. unfold first in Hf. rewrite Es in Hf.
    destruct (N.ltb_spec (l_persisted l) j), (N.ltb_spec j (sm_index (s_metadata s))); try done. lia. }
  assert (first l = st_first (l_store l)) as Hf' by (unfold first; by rewrite Es).
  apply bind_Done in E as (ok & Hcond & E). destruct ok; [|left; by injection E]. right. injection E as <- _. split; [done|].
  destruct (N.ltb_spec (l_persisted l) j), (N.ltb_spec j (u_offset (l_unstable l))); try done. simpl in Hcond.
  pose proof (jo_gap _ Hj Es) as [Hg1 Hg2]. rewrite <-Hf', Hf in *.
  destruct (lookup_lt_is_Some_2 (st_entries (l_store l)) (N.to_nat j - 1)%nat) as [e He]; [unfold len in Hg2; lia|].
  pose proof (st_term_entry _ _ _ (jo_store _ Hj) He) as Ht. rewrite <-Hf' in Ht.
  replace (1 + N.of_nat (N.to_nat j - 1)) with j in Ht by lia. rewrite Ht in Hcond. simpl in Hcond. injection Hcond as Hcond%N.eqb_eq.
  split; [lia|]. exists e. split; [|done]. unfold ents. apply lookup_app_l_Some. unfold stable_part. rewrite Es, <-Hf'.
  rewrite lookup_take_lt by lia. done.
Qed.
(** ** A leader has done its work *)
Lemma leader_reports G0 i r' t c0 base L es (d : list Entry * u64) :
  group_ok quorum G0 → g_term G0 i = t → g_runs G0 i = false → g_won G0 t = Some i → g_log G0 i = L → g_led G0 t = L →
  g_disk G0 i = d.1 → settled G0 (upto d.2 d.1) → (∀ g, g ∈ base → honest (saying G0 i) G0 g ∧ honest (durable G0) G0 g) → settled G0 (upto c0 L) → c0 ≤ len L →
  tidy conf (acked G0 t) t c0 base r' → r_id r' = i → tame conf r' →
  ents (r_raft_log r') = L ++ es → Forall (λ e, e_term e = t) es →
  upto (l_persisted (r_raft_log r')) (ents (r_raft_log r')) `prefix_of` d.1 →
  ∃ G', moves i G0 G' ∧ g_vote G' = g_vote G0 ∧ g_won G' = g_won G0 ∧
    (∀ t', g_led G' t' = if t' =? t then ents (r_raft_log r') else g_led G0 t') ∧ node_ok G' i r' d.
Proof using Hconf Hvoters.
  intros Hok Et Er Ew El Ey Ed Hdc Hbase Hc0 Hc0l Ht Hid Hta He Hes Hper.
  pose proof (td_log _ _ _ _ _ _ Ht) as Hw. pose proof (td_first _ _ _ _ _ _ Ht) as Hf.
  set (n := N.to_nat (l_persisted (r_raft_log r'))). set (G1 := extend i es G0). set (G2 := add_ack i n G1).
  pose proof (persisted_len _ Hw Hf) as Hpl.
  assert (g_led G1 t = ents (r_raft_log r')) as Ey1 by (simpl; rewrite Et, fn_lookup_insert, El; done).
  assert (g_log G1 i = ents (r_raft_log r')) as El1 by (simpl; rewrite fn_lookup_insert, El; done).
  assert (moves i G0 G2) as HM.
  { transitivity G1; [apply move_extend; rewrite ?Et; congruence|]. apply move_report; change (g_term G1 i) with (g_term G0 i);
      change (g_won G1) with (g_won G0); change (g_disk G1) with (g_disk G0); rewrite ?Et, ?Ey1, ?El1, ?Ed;
      [by eexists|unfold len in Hpl; lia|apply prefix_take|exact Hper]. }
  destruct (moves_facts quorum (quorum_meet conf Hvoters) i G0 G2 Hok HM) as (Hok2 & Hl & Ha).
  assert (∀ v m, known (acked G0 t) r' v m → durable G2 v t (N.to_nat m)) as Hknown.
  { intros v m [Hk|[-> Hk]]; [by apply Hl|]. apply durable_add_ack. right. rewrite Hid. split_and!; [done|by simpl|unfold n; lia]. }
  assert (settled G2 (committed r')) as Hset.
  { unfold committed. destruct (td_commit _ _ _ _ _ _ Ht) as [->|[(e & Hee & Hte) (Q & HQ & Hq)]].
    - rewrite He, (upto_mono c0 L) by (done || by apply prefix_app_r). by eapply settled_later.
    - right. apply at_entry in Hee as [H1c Hee]; [|done]. set (c := l_committed (r_raft_log r')) in *.
      exists t, (N.to_nat c - 1)%nat, Q. change (g_led G2) with (g_led G1). rewrite Ey1.
      replace (Datatypes.S (N.to_nat c - 1)) with (N.to_nat c) by lia. split_and!; [|done|auto|done].
      exists e. by rewrite Ey1. }
  exists G2. split_and!; try done.
  { intros t'. change (g_led G2) with (g_led G1). destruct (N.eqb_spec t' t) as [->|Hne]; [done|]. simpl. rewrite fn_lookup_insert_ne; [done|]. congruence. }
  assert (g_term G2 i = r_term r') as Et2 by (change (g_term G2) with (g_term G0); rewrite (td_term _ _ _ _ _ _ Ht); done).
  assert (g_runs G2 i = bool_decide (r_state r' = Candidate)) as Er2.
  { change (g_runs G2) with (g_runs G0). by rewrite Er, (td_state _ _ _ _ _ _ Ht). }
  pose proof (ta_first _ _ Hta) as Hd.
  assert (∀ K g, fine (acked G0 t) t r' g → honest K G2 g) as Hfine.
  { intros K g Hg. apply (fine_honest conf G2 i r' Hw Hf Hid Et2 El1 Er2 Hd Hset _ G0); rewrite ?(td_term _ _ _ _ _ _ Ht);
      [done|by eexists|exact Ey1|done]. }
  constructor; [|done|exact Ed|by eapply settled_later|done|].
  - constructor; try done. intros g [Hg|Hg]%(td_out _ _ _ _ _ _ Ht); [|by apply Hfine].
    eapply honest_later; [exact Hl| |exact (proj1 (Hbase g Hg))]. intros _ t' m [? Hsd]. split; [done|]. apply said_add_ack. left. exact Hsd.
  - intros _. constructor; rewrite ?(td_term _ _ _ _ _ _ Ht).
    + apply Ht.
    + intros v pr Hg. eapply good_pr_later; [exact Hl|]. by apply Ht.
    + apply Ht.
    + apply Hknown. right. by rewrite Hid.
    + intros g [Hg|Hg]%(td_out _ _ _ _ _ _ Ht); [|by apply Hfine].
      eapply honest_later; [exact Hl| |exact (proj2 (Hbase g Hg))]. intros _ t' m. apply Hl.
Qed.

(** What the steps of node [i], up to state [r'], do to the group. *)
Record follows G G' (i : u64) r' : Prop := {
  fw_moves : moves i G G';
  fw_vote v t : g_vote G' v t = cast i r' (g_vote G) v t;
  fw_led t : g_led G' t = if bool_decide (r_state r' = Leader) && (t =? r_term r') then ents (r_raft_log r') else g_led G t;
  fw_won t : g_won G' t = if bool_decide (r_state r' = Leader) && (t =? r_term r') then Some i else g_won G t }.

Context (G : group) (C : cluster (S := S)) (past : u64 → list (list Entry)) (i : u64) (d : list Entry * u64).
Context (Hok : group_ok quorum G) (HW : world_ok (g_led G) (mkWorld C past)) (HC : cluster_ok (g_vote G) C) (Hi : i ≠ INVALID_ID).
Let r := nodes C i.
Context (Hno : node_ok G i r d).
Context (Hwon : ∀ t j, g_won G t = Some j ↔ ∃ cf, (t, j, cf) ∈ leaders C).

Lemma node_log : log_wf (r_raft_log r) ∧ first (r_raft_log r) = 1.
Proof. exact (wo_log _ _ HW i). Qed.
Lemma node_anchored : anchored (g_led G) (ents (r_raft_log r)).
Proof. exact (wo_anchored _ _ HW i). Qed.
Lemma leader_won : r_state r = Leader → g_won G (r_term r) = Some i.
Proof. intros Hst. apply Hwon. by apply (co_leader _ _ HC). Qed.
Lemma leader_led : r_state r = Leader → g_led G (r_term r) = ents (r_raft_log r).
Proof. exact (wo_leader _ _ HW i). Qed.

(** ** A node that is silent *)
Lemma ballot_before r1 : vote_order r r1 → g_vote G i (r_term r1) = cast i r1 (g_vote G) i (r_term r1) ∨
  (g_vote G i (r_term r1) = None ∧ r_vote r1 ≠ INVALID_ID ∧ ¬ (r_term r1 = r_term r ∧ r_vote r1 = r_vote r)).
Proof.
  intros [Hle Hv]. unfold cast. rewrite !N.eqb_refl. simpl. destruct (N.eq_dec (r_term r1) (r_term r)) as [E|E].
  - pose proof (co_vote _ _ HC i Hi) as Hb. fold r in Hb. rewrite E, Hb. destruct (Hv E) as [-> | ->]; [|by left]. rewrite N.eqb_refl.
    destruct (N.eqb_spec (r_vote r1) INVALID_ID); [by left|right]. split_and!; [done|done|]. intros [_ ?]. congruence.
  - rewrite (co_future _ _ HC i) by (done || (fold r; lia)). destruct (N.eqb_spec (r_vote r1) INVALID_ID); [by left|right]. naive_solver.
Qed.
Lemma silent_moves m r1 :
  silent m r r1 → vote_order r r1 → honest (durable G) G m →
  ∃ G1, moves i G G1 ∧ (∀ v t, g_vote G1 v t = cast i r1 (g_vote G) v t) ∧
    g_term G1 i = r_term r1 ∧ g_runs G1 i = bool_decide (r_state r1 = Candidate) ∧
    g_log G1 = g_log G ∧ g_disk G1 = g_disk G ∧ g_said G1 = g_said G ∧ g_acks G1 = g_acks G ∧ g_won G1 = g_won G ∧ g_led G1 = g_led G.
Proof.
  intros Hs Hvo Hm. destruct Hno as [[_ Et El Er _ _ _] _ _ _ _ _]. destruct node_log as [Hw Hf]. set (b := bool_decide (r_state r1 = Candidate)).
  assert (∃ G0, moves i G G0 ∧ g_vote G0 = g_vote G ∧ g_term G0 i = r_term r1 ∧ (∀ j, j ≠ i → g_term G0 j = g_term G j) ∧
    g_runs G0 i = b ∧ (∀ j, j ≠ i → g_runs G0 j = g_runs G j) ∧
    g_log G0 = g_log G ∧ g_disk G0 = g_disk G ∧ g_said G0 = g_said G ∧ g_acks G0 = g_acks G ∧ g_won G0 = g_won G ∧ g_led G0 = g_led G)
    as (G0 & Hm0 & V0 & T0 & T0' & R0 & R0' & L0 & D0 & S0 & A0 & W0 & Y0).
  { destruct (decide (r_state r1 = Candidate ∧ r_term r1 = r_term r)) as [[Hc E]|Hn].
    - exists G. assert (r_state r = Candidate) as Hc0 by (destruct (si_candidate _ _ _ Hs Hc) as [[? _]|]; [done|lia]).
      split_and!; try done; [congruence|]. unfold b. by rewrite Er, !bool_decide_eq_true_2.
    - exists (set_term i (r_term r1) b G). split_and!; try done; simpl; rewrite ?fn_lookup_insert; try done.
      + apply move_rise; [rewrite Et; apply Hs|]. unfold b. rewrite bool_decide_eq_true. intros Hc.
        destruct (si_candidate _ _ _ Hs Hc) as [[_ ?]|]; [by destruct Hn|lia].
      + intros j Hj. by rewrite fn_lookup_insert_ne.
      + intros j Hj. by rewrite fn_lookup_insert_ne. }
  assert (∀ v t, v ≠ i ∨ t ≠ r_term r1 → cast i r1 (g_vote G) v t = g_vote G v t) as Hcast.
  { intros v t Hne. unfold cast. destruct (N.eqb_spec v i), (N.eqb_spec t (r_term r1)); simpl; naive_solver. }
  destruct (ballot_before r1 Hvo) as [Hsame|(Hnone & Hnz & Hne)].
  - exists G0. split_and!; try done. intros v t. rewrite V0.
    destruct (decide (v = i ∧ t = r_term r1)) as [[-> ->]|Hn]; [done|]. rewrite Hcast; [done|]. destruct (decide (v = i)); naive_solver.
  - exists (set_vote i (r_vote r1) G0). split_and!; try done.
    + etrans; [exact Hm0|]. apply move_vote; rewrite ?V0, ?T0, ?L0; [by left|..].
      * destruct (ds_vote _ _ _ (si_discreet _ _ _ Hs Hw)) as [|[|[Hv|(Hty & Hv & Ht & _)]]]; [done|done|..].
        -- rewrite Hv. assert (r_id r = i) as -> by apply HC. by rewrite T0.
        -- rewrite Hv. pose proof Hm as Hh. unfold RaftClaims.honest in Hh. rewrite Hty in Hh. destruct Hh as (_ & Hle & _).
           destruct (decide (m_from m = i)) as [->|]; [by rewrite T0|rewrite T0' by done; lia].
      * intros Hrc Htc. destruct (ds_vote _ _ _ (si_discreet _ _ _ Hs Hw)) as [|[|[Hv|(Hty & Hv & Ht & Hod)]]]; [done|done|..].
        -- rewrite Hv. assert (r_id r = i) as -> by apply HC. intros e2 He2. exists e2. auto.
        -- destruct (decide (r_vote r1 = i)) as [->|Hvi]; [intros e2 He2; exists e2; auto|].
           pose proof Hm as Hh. unfold RaftClaims.honest in Hh. rewrite Hty, <-Hv in Hh. destruct Hh as (_ & _ & Hend).
           rewrite R0' in Hrc by done. rewrite T0' in Htc by done. destruct (calm_facts _ _ Hw (si_log _ _ _ Hs)) as (Hw1 & Hf1 & He1 & _).
           rewrite El, <-He1. eapply outdone_newer; [done|congruence|exact Hod|]. apply Hend; [done|congruence].
    + intros v t. simpl. rewrite V0, T0. destruct (decide (v = i)) as [->|Hv]; [rewrite fn_lookup_insert|rewrite fn_lookup_insert_ne, Hcast by auto; done].
      destruct (decide (t = r_term r1)) as [->|Ht]; [rewrite fn_lookup_insert|rewrite fn_lookup_insert_ne, Hcast by auto; done].
      unfold cast. rewrite !N.eqb_refl. simpl. by rewrite (proj2 (N.eqb_neq _ _) Hnz).
Qed.
(** What the message says is true, and it has come to the right node. *)
Record told_truth (m : Message) : Prop := {
  tt_honest : honest (durable G) G m;
  tt_to : m_type m = MsgAppend ∨ m_type m = MsgHeartbeat → m_to m = i;
  tt_late : m_type m = MsgHeartbeat → r_term r ≤ m_term m;
  tt_request : m_type m = MsgAppendResponse → m_request_snapshot m = 0 }.

Lemma silent_commit m r1 : silent m r r1 → told_truth m → settled G (committed r1).
Proof.
  intros Hs [Hm Hto Hlate _]. destruct Hno as [[_ Et El _ _ Hset _] _ _ _ _ _]. destruct node_log as [Hw Hf].
  pose proof node_anchored as Ha. destruct (calm_facts _ _ Hw (si_log _ _ _ Hs)) as (Hw1 & Hf1 & He1 & _).
  assert (first (r_raft_log r1) = 1) as Hf1' by congruence.
  assert (l_committed (r_raft_log r1) = l_committed (r_raft_log r) → settled G (committed r1)) as Hsame.
  { intros E. unfold committed. by rewrite E, He1. }
  destruct (ds_commit _ _ _ (si_discreet _ _ _ Hs Hw)) as [|[[Hty Hc]|(e & He & Hn)]]; [by apply Hsame|..].
  - unfold RaftClaims.honest in Hm. rewrite Hty in Hm. destruct Hm as (_ & Hst & Hd).
    unfold committed. rewrite Hc, He1. destruct Hd as [->|Hd]; [by left|]. rewrite Hto in Hd by auto.
    pose proof (gk_said _ _ Hok _ _ _ (said_durable _ _ _ _ Hd)) as (_ & Hle & _). rewrite Et in Hle.
    pose proof (Hlate Hty). assert (m_term m = r_term r) as E by lia. rewrite E in *.
    eapply near_settled; [|reflexivity| |exact Hst]; [|rewrite <-Hc, <-He1; by apply committed_len].
    rewrite <-El, <-Et. apply (gk_near _ _ Hok). rewrite Et. by apply said_durable.
  - apply at_entry in He as [H1c He]; [|done]. unfold committed. rewrite He1 in *. destruct Hn as [(Hv & Hc & Ht)|(Hty & Hc & Ht)].
    + eapply settled_at_here; [done..|]. rewrite Hc, Ht. unfold RaftClaims.honest in Hm.
      destruct (m_type m); try done; apply Hm.
    + eapply settled_to_here; [done..|]. rewrite Hc, Ht. unfold RaftClaims.honest in Hm. rewrite Hty in Hm. apply Hm.
Qed.
(** The group after node [i] has been silent. *)
Record hushed G1 (r1 : Raft S) : Prop := {
  hu_moves : moves i G G1;
  hu_vote v t : g_vote G1 v t = cast i r1 (g_vote G) v t;
  hu_member : member G1 i r1;
  hu_log : g_log G1 = g_log G;
  hu_disk : g_disk G1 = g_disk G;
  hu_won : g_won G1 = g_won G;
  hu_led : g_led G1 = g_led G;
  hu_said v t n : said G1 v t n ↔ said G v t n;
  hu_acks v t n : durable G1 v t n ↔ durable G v t n }.
Lemma silent_hushed m r1 : silent m r r1 → vote_order r r1 → told_truth m → ∃ G1, hushed G1 r1.
Proof.
  intros Hs Hvo Hm. pose proof (silent_commit m r1 Hs Hm) as Hc.
  destruct (silent_moves m r1 Hs Hvo (tt_honest _ Hm)) as (G1 & HM & V & T & R & L & D & Sd & A & W & Y). exists G1.
  destruct (moves_facts quorum (quorum_meet conf Hvoters) i G G1 Hok HM) as (Hok1 & Hl & Ha).
  destruct Hno as [[Eid Et El Er Ed Hset Hout] _ _ _ _ _]. destruct node_log as [Hw Hf].
  destruct (calm_facts _ _ Hw (si_log _ _ _ Hs)) as (Hw1 & Hf1 & He1 & _).
  destruct (si_discreet _ _ _ Hs Hw) as [_ _ Hd _ Ho].
  assert (∀ v t n, said G1 v t n ↔ said G v t n) as Hsd by (intros; unfold said; by rewrite Sd, A).
  constructor; try done; [|by intros; unfold durable; rewrite A].
  assert (r_id r1 = i) as Hid1 by (rewrite (si_id _ _ _ Hs); done).
  assert (g_log G1 i = ents (r_raft_log r1)) as El1 by (rewrite L, He1; done).
  assert (dummy (r_raft_log r1) = Some 0) as Hd1 by congruence.
  assert (settled G1 (committed r1)) as Hc1 by (by eapply settled_later).
  constructor; try done. intros g [Hg|Hg]%Ho.
  - eapply honest_later; [exact Hl| |by apply Hout]. intros _ t n [? ?]. split; [done|]. by apply Hsd.
  - apply (innocuous_honest conf G1 i r1); try done. congruence.
Qed.

Lemma silent_event m r' :
  silent m r r' → vote_order r r' → told_truth m → tame conf r' → ∃ G', follows G G' i r' ∧ node_ok G' i r' d.
Proof.
  intros Hs Hvo Hm Hta. destruct (silent_hushed m r' Hs Hvo Hm) as (G1 & HG). exists G1.
  destruct (moves_facts quorum (quorum_meet conf Hvoters) i G G1 Hok (hu_moves _ _ HG)) as (Hok1 & Hl & Ha).
  destruct node_log as [Hw Hf]. destruct (calm_facts _ _ Hw (si_log _ _ _ Hs)) as (Hw1 & Hf1 & He1 & Hc1).
  destruct (si_discreet _ _ _ Hs Hw) as [_ Hp _ _ Ho]. pose proof (si_leader _ _ _ Hs) as Hle. split.
  - constructor; [apply HG|apply HG|..].
    + intros t. rewrite (hu_led _ _ HG). case_bool_decide as Hst; [|done]. destruct (N.eqb_spec t (r_term r')) as [->|]; [|done]. simpl.
      destruct (Hle Hst) as (Hst0 & -> & _). by rewrite He1, leader_led.
    + intros t. rewrite (hu_won _ _ HG). case_bool_decide as Hst; [|done]. destruct (N.eqb_spec t (r_term r')) as [->|]; [|done]. simpl.
      destruct (Hle Hst) as (Hst0 & -> & _). by apply leader_won.
  - destruct Hno as [Hme _ Ed Hdc Hper Hld]. constructor; [apply HG|done|by rewrite (hu_disk _ _ HG)|by eapply settled_later|by rewrite Hp, He1|].
    intros Hst. destruct (Hle Hst) as (Hst0 & Ht & Hpr & Hro). destruct (leads_ok_later conf _ _ _ _ Hl (Hld Hst0)) as [Hso Hps Hre Hse Hou].
    constructor; rewrite ?He1, ?Ht, ?Hp; [done| | |done|].
    + intros v pr. rewrite Hpr. intros Hg%Hps. eapply good_pr_stays; [..|exact Hg]; [apply Hs|by rewrite Hp|].
      unfold log_end. by rewrite Hf1, He1.
    + intros ctx rs. rewrite Hro. intros Hg%Hre. by etrans.
    + intros g [Hg|Hg]%Ho; [by apply Hou|]. destruct (hu_member _ _ HG) as [Gi Gt Gl Gr Gd Gs _].
      apply (innocuous_honest conf G1 i r'); try done. congruence.
Qed.
(** ** A node that leads *)

(** Entry [t] of position [j] is on disk. *)
Definition on_disk (j t : u64) : Prop := ∃ e, d.1 !! (N.to_nat j - 1)%nat = Some e ∧ e_term e = t.
Lemma persist_disk j t l b :
  maybe_persist j t (r_raft_log r) = Done (l, b) → on_disk j t → upto (l_persisted l) (ents (r_raft_log r)) `prefix_of` d.1.
Proof.
  intros E (e2 & He2 & Ht2). destruct node_log as [Hw Hf]. destruct Hno as [_ _ Ed _ Hp _].
  destruct (maybe_persist_entry _ _ _ _ _ (lw_joined _ Hw) Hf E) as [->|(-> & Hj & e1 & He1 & Ht1)]; [done|].
  unfold upto. replace (N.to_nat j) with (Datatypes.S (N.to_nat j - 1)) by lia.
  rewrite (anchored_agree (g_led G) (ents (r_raft_log r)) d.1 _ e1 e2); [apply prefix_take|apply node_anchored| |done|done|congruence].
  rewrite <-Ed. apply (gk_disk _ _ Hok).
Qed.

Abbreviation tidy r := (tidy conf (acked G (r_term r)) (r_term r) (l_committed (r_raft_log r)) (r_msgs r)).
Lemma node_tidy : r_state r = Leader → tidy r r.
Proof.
  intros Hst. destruct node_log as [Hw Hf]. destruct Hno as [_ Hta _ _ _ Hl]. destruct (Hl Hst) as [Hso Hps Hre _ _].
  constructor; try done; [exact (wo_batch _ _ HW i)|apply Hta|apply Hta|by left|by left].
Qed.
(** The vote stays. *)
Lemma cast_same r' v t : r_term r' = r_term r → r_vote r' = r_vote r → cast i r' (g_vote G) v t = g_vote G v t.
Proof.
  intros Ht Hv. unfold cast. rewrite Ht, Hv. destruct (N.eqb_spec v i) as [->|]; [|done]. destruct (N.eqb_spec t (r_term r)) as [->|]; [|done].
  symmetry. apply (co_vote _ _ HC i Hi).
Qed.
Lemma tidy_event r' :
  r_state r = Leader → leads r r' → tidy r r' → tame conf r' →
  upto (l_persisted (r_raft_log r')) (ents (r_raft_log r)) `prefix_of` d.1 → l_persisted (r_raft_log r') ≤ len (ents (r_raft_log r)) →
  ∃ G', follows G G' i r' ∧ node_ok G' i r' d.
Proof.
  intros Hst Hl Ht Hta Hper Hpl. destruct node_log as [Hw Hf]. destruct Hno as [[Eid Et El Er _ Hset Hout] _ Ed Hdc _ Hld].
  destruct (le_log _ _ Hl (lw_joined _ Hw)) as (_ & _ & es & He & Hes).
  destruct (leader_reports G i r' (r_term r) (l_committed (r_raft_log r)) (r_msgs r) (ents (r_raft_log r)) es d)
    as (G' & HM & V & W & Y & N); try done.
  - by rewrite Er, Hst.
  - by apply leader_won.
  - by apply leader_led.
  - intros g Hg. split; [by apply Hout|by apply Hld].
  - by apply committed_len.
  - rewrite (le_id _ _ Hl). exact Eid.
  - rewrite He, (upto_mono _ (ents (r_raft_log r))) by (done || by apply prefix_app_r). done.
  - exists G'. split; [|done]. constructor; [done|..].
    + intros v t. rewrite V. symmetry. apply cast_same; apply Hl.
    + intros t. rewrite Y, (le_state _ _ Hl), (le_term _ _ Hl). rewrite Hst. done.
    + intros t. rewrite W, (le_state _ _ Hl), (le_term _ _ Hl), Hst. simpl. destruct (N.eqb_spec t (r_term r)) as [->|]; [|done].
      by apply leader_won.
Qed.
Lemma works_event r' :
  r_state r = Leader → leads r r' → works conf (acked G (r_term r)) (r_term r) (l_committed (r_raft_log r)) (r_msgs r) r r' →
  tame conf r' → ∃ G', follows G G' i r' ∧ node_ok G' i r' d.
Proof.
  intros Hst Hl Hw Hta. destruct (Hw (node_tidy Hst)) as [Ht Hfo].
  destruct node_log as [Hwf Hf]. destruct Hno as [_ _ _ _ Hper _].
  apply tidy_event; [done..| |]; rewrite (ft_persisted _ _ Hfo); [exact Hper|by apply persisted_len].
Qed.
Lemma labors_event m r' :
  r_state r = Leader → rtc (labor m) r r' → told_truth m → tame conf r' → ∃ G', follows G G' i r' ∧ node_ok G' i r' d.
Proof.
  intros Hst Hl [Hm _ _ Hrq] Hta. apply works_event; [done|by eapply labors_leads| |done].
  eapply (labors_works conf Hconf (acked G (r_term r)) (acked_le G _)); [exact Hl|]. intros Ht Hty.
  split; [by apply Hrq|]. intros Hrj. unfold RaftClaims.honest in Hm. rewrite Hty in Hm. destruct Hm as [|[|[Hnz Ha]]]; [congruence|by left|right].
  unfold acked. by rewrite (Ht Hty Hnz).
Qed.
Lemma conf_event cc r' res :
  r_state r = Leader → apply_conf_change cc r = Done (r', res) → tame conf r' → ∃ G', follows G G' i r' ∧ node_ok G' i r' d.
Proof.
  intros Hst E Hta. apply works_event; [done|by eapply (apply_conf_change_walks leads)| |done].
  eapply (apply_conf_change_works conf Hconf _ (acked_le G _)); [exact E|apply Hta].
Qed.
Lemma persist_event j t r' u :
  r_state r = Leader → on_persist_entries j t r = Done (r', u) → on_disk j t → tame conf r' → ∃ G', follows G G' i r' ∧ node_ok G' i r' d.
Proof.
  intros Hst E Hd Hta. destruct (on_persist_tidy conf Hconf _ (acked_le G _) _ _ _ _ _ _ _ _ (node_tidy Hst) E) as (l & b & El & Ht & Hfo).
  pose proof (persist_disk _ _ _ _ El Hd). destruct node_log as [Hw Hf].
  apply tidy_event; [done|by eapply (on_persist_entries_walks leads)|done|done|..]; rewrite (ft_persisted _ _ Hfo); [done|].
  destruct (calm_facts _ _ Hw (calm_persist _ _ _ _ _ El)) as (Hwl & Hfl & Hel & _). simpl.
  rewrite <-Hel. apply persisted_len; [done|congruence].
Qed.
(** ** A node that wins an election *)

(** What the new leader has done by the end of the event. *)
Record installed (ak : u64 → u64 → Prop) (r1 r' : Raft S) : Prop := {
  in_term : r_term r' = r_term r1;
  in_vote : r_vote r' = r_vote r1;
  in_state : r_state r' = Leader;
  in_id : r_id r' = r_id r1;
  in_persisted : l_persisted (r_raft_log r') = l_persisted (r_raft_log r1);
  in_saved : l_persisted (r_raft_log r1) = len (ents (r_raft_log r1));
  in_log : ∃ es, ents (r_raft_log r') = ents (r_raft_log r1) ++ es ∧ Forall (λ e, e_term e = r_term r1) es;
  in_tidy : RaftLead.tidy conf ak (r_term r1) (l_committed (r_raft_log r1)) (r_msgs r1) r' }.
Lemma new_leader_installed ak r1 r2 r' :
  (∀ v n m, m ≤ n → ak v n → ak v m) → log_wf (r_raft_log r1) → first (r_raft_log r1) = 1 → dummy (r_raft_log r1) = Some 0 → r_batch_append r1 = false →
  become_leader r1 = Done (r2, ()) → bcast_append r2 = Done (r', ()) → tame conf r' → installed ak r1 r'.
Proof using Hconf.
  intros Hle Hw Hf Hd Hb El Eb Hta. pose proof (bcast_append_walks leads _ _ _ Eb) as Hl.
  assert (pt_conf (r_prs r') = pt_conf (r_prs r2)) as Hc2 by apply (sends_same_conf _ bcast_append_sends _ _ _ Eb).
  pose proof El as ([Hsn Hst2 Ht2 Hv2 _ _ _ _] & _ & _ & last & es & j & us & Hli & Hper & _ & Hn & Ha & _)%become_leader_spec.
  pose proof (lw_joined _ Hw) as Hj. pose proof (numbered_end _ _ _ _ _ Hli Hn Hj) as Hce.
  destruct (append_end es (r_raft_log r1) (r_raft_log r2) j) as (Hj2 & He2 & Hf2 & _ & Hl2); [done..|].
  assert (RaftLead.tidy conf ak (r_term r1) (l_committed (r_raft_log r1)) (r_msgs r1) r2) as Ht.
  { eapply become_leader_tidy; [exact El|try done..]. rewrite <-(sn_conf _ _ Hsn), <-Hc2. apply Hta. }
  destruct (bcast_append_works conf ak Hle (r_term r1) (l_committed (r_raft_log r1)) (r_msgs r1) _ _ _ Eb Ht) as [Ht' Hfo].
  destruct (le_log _ _ Hl Hj2) as (_ & _ & es' & He' & Hes'). constructor; [..|done].
  - by rewrite (le_term _ _ Hl).
  - by rewrite (le_vote _ _ Hl).
  - by rewrite (le_state _ _ Hl).
  - rewrite (le_id _ _ Hl). apply Hsn.
  - rewrite (ft_persisted _ _ Hfo). by rewrite Hl2.
  - rewrite last_index_spec in Hli by done. injection Hli as <-. by rewrite Hper, (log_end_len _ Hf), N.add_sub.
  - exists (es ++ es'). rewrite He', He2, app_assoc. split; [done|]. apply Forall_app. split; [by apply number_entries_term in Hn|].
    by rewrite <-Ht2.
Qed.
Lemma elected_event m r' :
  elected m r r' → vote_order r r' → told_truth m → tame conf r' →
  (∀ j cf, (r_term r', j, cf) ∉ leaders C) → joint_quorum_of conf (λ v, cast i r' (g_vote G) v (r_term r') = Some i) →
  ∃ G', follows G G' i r' ∧ node_ok G' i r' d.
Proof.
  intros (r1 & r2 & Hs & Hst1 & El & Eb) Hvo Hm Hta Hnew Hq. destruct node_log as [Hw Hf].
  destruct (calm_facts _ _ Hw (si_log _ _ _ Hs)) as (Hw1 & Hf1 & He1 & _). destruct (si_discreet _ _ _ Hs Hw) as [_ Hp1 Hd1 _ _].
  pose proof (me_dummy _ _ _ _ (no_member _ _ _ _ _ Hno)) as Hd0.
  assert (∀ ak, (∀ v n m, m ≤ n → ak v n → ak v m) → installed ak r1 r') as Hin.
  { intros ak Hle. eapply new_leader_installed; try done; [congruence|congruence|]. rewrite (si_batch _ _ _ Hs). exact (wo_batch _ _ HW i). }
  destruct (Hin _ (acked_le G 0)) as [Ht Hv Hst Hid Hp Hsv (es & He & Hes) _].
  assert (vote_order r r1) as Hvo1 by (unfold vote_order in *; by rewrite <-Ht, <-Hv).
  destruct (silent_hushed m r1 Hs Hvo1 Hm) as (G1 & [HM1 HV1 [Hid1 Et1 El1 Er1 _ Hset1 Hout1] HL1 HD1 HW1 HY1 _ _]).
  destruct (moves_facts quorum (quorum_meet conf Hvoters) i G G1 Hok HM1) as (Hok1 & Hl1 & _).
  assert (∀ v t, cast i r' (g_vote G) v t = g_vote G1 v t) as Hcast.
  { intros v t. rewrite HV1. unfold cast. by rewrite Ht, Hv. }
  apply joint_quorum_members in Hq as (Q & HQ & HvQ).
  destruct Hno as [_ _ Ed Hdc Hper _].
  assert (g_won G1 (g_term G1 i) = None) as Hnw.
  { rewrite HW1, Et1, <-Ht. destruct (g_won G (r_term r')) as [j|] eqn:E; [|done]. apply Hwon in E as [cf Hcf]. by destruct (Hnew j cf). }
  assert (ents (r_raft_log r1) `prefix_of` d.1) as Hsaved.
  { rewrite <-Hp1, <-He1, Hsv in Hper. unfold upto, len in Hper. rewrite Nat2N.id, take_ge in Hper by done. done. }
  (** What the node has acknowledged is on its disk. *)
  set (Gp := publish i G1). assert (moves i G1 Gp) as HMp by (apply move_publish; right; rewrite El1, HD1, Ed; done).
  destruct (moves_facts quorum (quorum_meet conf Hvoters) i G1 _ Hok1 HMp) as (Hokp & Hlp & _).
  assert (moves i Gp (set_won i Gp)) as HM2.
  { apply (move_win quorum i Gp Q); [by simpl; rewrite Er1, Hst1|done|done|].
    intros v [Hvv _]%HvQ. simpl. rewrite Et1, <-Ht, <-Hcast. done. }
  destruct (moves_facts quorum (quorum_meet conf Hvoters) i Gp _ Hokp HM2) as (Hok2 & Hl2 & _).
  destruct (leader_reports (set_won i Gp) i r' (r_term r1) (l_committed (r_raft_log r1)) (r_msgs r1) (ents (r_raft_log r1)) es d)
    as (G' & HM & V & W & Y & N); simpl; rewrite ?fn_lookup_insert, ?Et1, ?El1; try done.
  - by rewrite fn_lookup_insert.
  - by rewrite fn_lookup_insert.
  - by rewrite HD1.
  - eapply settled_later; [exact Hl2|]. eapply settled_later; [exact Hlp|]. by eapply settled_later.
  - assert (later G1 (set_won i Gp)) as Hl12 by (by transitivity Gp).
    intros g Hg%Hout1. split; (eapply honest_later; [exact Hl12| |exact Hg]); intros _ t n [-> Hsd].
    + split; [done|]. apply (said_publish G1). exact Hsd.
    + apply (publish_durable G1). exact Hsd.
  - eapply settled_later; [exact Hl2|]. eapply settled_later; [exact Hlp|done].
  - apply committed_len; [done|congruence].
  - apply Hin, acked_le.
  - by rewrite Hid.
  - rewrite Hp, Hp1, He, (upto_mono _ (ents (r_raft_log r1))); [by rewrite He1|by apply prefix_app_r|]. rewrite He1. by apply persisted_len.
  - exists G'. split; [|done]. constructor; [by do 3 (etrans; [eassumption|])|..].
    + intros v t. by rewrite V, Hcast.
    + intros t. rewrite Y, Hst, Ht. simpl. destruct (N.eqb_spec t (r_term r1)) as [->|]; [done|]. rewrite Et1, fn_lookup_insert_ne, HY1 by done. done.
    + intros t. rewrite W, Hst, Ht. simpl. destruct (N.eqb_spec t (r_term r1)) as [->|]; rewrite Et1; [by rewrite fn_lookup_insert|].
      by rewrite fn_lookup_insert_ne, HW1.
Qed.
(** ** A follower that answers *)

(** What the answer to an append does to the member of the group. *)
Record accepted G1 G2 (m g : Message) (l0 l : RaftLog S) : Prop := {
  ap_moves : moves i G1 G2;
  ap_vote : g_vote G2 = g_vote G1;
  ap_term : g_term G2 = g_term G1;
  ap_runs : g_runs G2 = g_runs G1;
  ap_disk : g_disk G2 = g_disk G1;
  ap_won : g_won G2 = g_won G1;
  ap_led : g_led G2 = g_led G1;
  ap_log : g_log G2 i = ents l;
  ap_commit : settled G2 (upto (l_committed l) (ents l));
  ap_persisted : upto (l_persisted l) (ents l) `prefix_of` upto (l_persisted l0) (ents l0);
  ap_said t n : said G1 i t n → said G2 i t n;
  ap_answer : m_reject g = true ∨ m_index g = 0 ∨ said G2 i (m_term m) (N.to_nat (m_index g)) }.

Lemma commit_to_same c (l l' : RaftLog S) : commit_to c l = Done l' → l_persisted l' = l_persisted l ∧ ents l' = ents l ∧ first l' = first l.
Proof.
  intros E. unfold commit_to in E. destruct (_ <=? _); [by injection E as <-|]. apply bind_Done in E as (last & _ & E).
  destruct (_ <? _); [done|]. by injection E as <-.
Qed.
(** One more thing said. *)
Lemma accepted_say G1 G2 m g l0 l n :
  group_ok quorum G1 → moves i G1 G2 → g_vote G2 = g_vote G1 → g_term G2 = g_term G1 → g_runs G2 = g_runs G1 → g_disk G2 = g_disk G1 →
  g_won G2 = g_won G1 → g_led G2 = g_led G1 → g_said G2 = g_said G1 → g_acks G2 = g_acks G1 →
  g_term G1 i = m_term m → is_Some (g_won G1 (m_term m)) →
  g_log G2 i = ents l → truthful quorum G2 i (ents l) n → settled G2 (upto (l_committed l) (ents l)) →
  upto (l_persisted l) (ents l) `prefix_of` upto (l_persisted l0) (ents l0) → m_index g = N.of_nat n →
  accepted G1 (add_said i n G2) m g l0 l.
Proof.
  intros Hok1 HM V T R D W Y Sd A Et Hw El Htr Hset Hper Hn.
  assert (moves i G2 (add_said i n G2)) as HM2 by (apply move_say; rewrite ?W, ?T, ?Et, ?El; done).
  constructor; try done; [by etrans|..].
  - intros t n' Hs. apply said_add_said. left. unfold said in *. by rewrite Sd, A.
  - right. right. apply said_add_said. right. rewrite T, Et. split_and!; [done|done|lia].
Qed.
Lemma answer_accepted m r1 l g G1 :
  hushed G1 r1 → told_truth m → m_type m = MsgAppend → slice_of (g_led G (m_term m)) m → contiguous (m_index m + 1) (m_entries m) →
  r_term r1 = m_term m → r_state r1 = Follower → log_wf (r_raft_log r1) → first (r_raft_log r1) = 1 →
  (l = r_raft_log r1 ∧ m_index m < l_committed l ∧ m_index g = l_committed l) ∨
  (∃ res, maybe_append (m_index m) (m_log_term m) (m_commit m) (m_entries m) (r_raft_log r1) = Done (l, res) ∧
     match res with Some (_, last) => m_index g = last | None => m_reject g = true end) →
  ∃ G2, accepted G1 G2 m g (r_raft_log r1) l.
Proof.
  intros HG [Hm Hto _ _] Hty Hsl Hce Ht1 Hst1 Hw1 Hf1 Hans. set (t := m_term m) in *.
  destruct (moves_facts quorum (quorum_meet conf Hvoters) i G G1 Hok (hu_moves _ _ HG)) as (Hok1 & Hl1 & _).
  destruct HG as [HM1 HV1 [Hid1 Et1 El1 Er1 _ Hset1 _] HL1 HD1 HW1 HY1 _ HA1]. rewrite Ht1 in Et1. rewrite Hst1 in Er1.
  unfold RaftClaims.honest in Hm. rewrite Hty in Hm. destruct Hm as (Hwn & Hsc & Hprev). fold t in Hwn, Hsc, Hprev.
  assert (is_Some (g_won G1 t)) as Hwn1 by (by rewrite HW1). rewrite <-HY1 in Hsl, Hprev. apply (settled_to_later quorum G G1 Hl1) in Hsc.
  assert (anchored (g_led G1) (ents (r_raft_log r1))) as Ha1 by (rewrite <-El1; apply (gk_log _ _ Hok1)).
  pose proof (proj1 (gk_led _ _ Hok1 t)) as HaT. set (l0 := r_raft_log r1) in *.
  assert (truthful quorum G1 i (ents l0) (N.to_nat (l_committed l0)) ∨ l_committed l0 = 0) as Hcom.
  { destruct Hset1 as [Hz|Hc]; [right|left; right].
    - pose proof (committed_len _ Hw1 Hf1) as Hcl. apply (f_equal length) in Hz. unfold committed, upto, len in *. rewrite length_take in Hz. fold l0 in Hz. simpl in Hz. lia.
    - split; [|exact Hc]. pose proof (committed_len _ Hw1 Hf1) as Hcl. unfold len in Hcl. fold l0 in Hcl. lia. }
  destruct Hans as [(-> & Hlt & Hg)|(res & Ea & Hg)].
  { destruct Hcom as [Htr|]; [|lia]. eexists. eapply (accepted_say G1 G1); try done. by rewrite Hg, N2Nat.id. }
  apply maybe_append_outcome in Ea; [|done..]. destruct res as [[ci last]|]; cycle 1.
  { subst l. exists G1. constructor; try done. by left. }
  destruct Ea as (-> & Hmt & l1 & Hl1' & Ecom). destruct (commit_to_same _ _ _ Ecom) as (Ep & Ee & _).
  assert (upto (l_persisted l) (ents l) `prefix_of` upto (l_persisted l0) (ents l0)) as Hper.
  { rewrite Ep, Ee. destruct Hl1' as [[-> _]|Hsp]; [done|]. rewrite (spliced_keeps _ _ _ _ _ Hw1 Hf1 Hsp) by auto. apply upto_prefix.
    destruct Hsp as (k & e0 & _ & _ & _ & _ & _ & _ & _ & Hp & _). lia. }
  assert (l_committed l1 = l_committed l0 ∧ upto (l_committed l0) (ents l1) = upto (l_committed l0) (ents l0)) as [Ec1 Eu1].
  { destruct Hl1' as [[-> _]|Hsp]; [done|]. split; [|by apply (spliced_keeps _ _ _ _ _ Hw1 Hf1 Hsp); auto].
    by destruct Hsp as (k & e0 & _ & _ & _ & _ & _ & _ & _ & _ & Hc & _). }
  pose proof (commit_to_moves _ _ _ Ecom) as Hmv. rewrite Ec1 in Hmv.
  set (n := (N.to_nat (m_index m) + length (m_entries m))%nat). assert (m_index m + len (m_entries m) = N.of_nat n) as Hn by (unfold n, len; lia).
  rewrite Hn in *.
  assert (∀ c, c ≤ m_commit m → settled_to quorum G1 t c) as Hscc.
  { intros c Hc. destruct Hsc as [Hcl Hs]. split; [lia|]. eapply settled_prefix; [|exact Hs]. by apply upto_prefix. }
  assert ((∀ c, c ≤ m_commit m → c ≤ N.of_nat n → c = l_committed l → settled G1 (upto c (ents l1))) →
    ∀ G2, later G1 G2 → settled G2 (upto (l_committed l) (ents l))) as Hsett.
  { intros Hc G2 Hl2. eapply settled_later; [exact Hl2|]. rewrite Ee. destruct Hmv as [-> | E]; [by rewrite Eu1|]. apply Hc; lia. }
  destruct Hprev as [Hat|(Hnil & _ & Hack)].
  - destruct (append_accepts (g_led G1) t m l0 l1) as [Hnl Hcase]; [done..|]. fold n in Hnl, Hcase.
    assert (take n (g_led G1 t) `prefix_of` ents l1) as Hpre by (destruct Hcase as [[-> ?]|[-> _]]; done).
    assert (∃ G2, moves i G1 G2 ∧ g_vote G2 = g_vote G1 ∧ g_term G2 = g_term G1 ∧ g_runs G2 = g_runs G1 ∧ g_disk G2 = g_disk G1 ∧
      g_won G2 = g_won G1 ∧ g_led G2 = g_led G1 ∧ g_said G2 = g_said G1 ∧ g_acks G2 = g_acks G1 ∧ g_log G2 i = ents l1)
      as (G2 & HM2 & V & T & R & D & W & Y & Sd & A & L).
    { destruct Hcase as [[-> _]|[E Hnp]]; [by exists G1|]. exists (set_log i (take n (g_led G1 t)) G1). split_and!; try done.
      - rewrite <-Et1. apply move_accept; rewrite ?Et1, ?El1; done.
      - simpl. by rewrite fn_lookup_insert. }
    destruct (moves_facts quorum (quorum_meet conf Hvoters) i G1 G2 Hok1 HM2) as (Hok2 & Hl2 & _).
    exists (add_said i n G2). apply accepted_say; rewrite ?Ee; try done.
    + left. rewrite T, Et1, Y. done.
    + rewrite <-Ee. apply Hsett; [|done]. intros c Hcm Hcn _. destruct (Hscc c Hcm) as [_ Hs]. unfold upto.
      destruct Hpre as [k Hk]. rewrite Hk, take_app_le, take_take, Nat.min_l by (rewrite ?length_take; lia). done.
    + by rewrite <-Ee.
  - assert (l1 = l0) as -> by (destruct Hl1' as [[-> _]|(k & e0 & Hk & _)]; [done|by rewrite Hnil in Hk]).
    assert (said G1 i t (N.to_nat (m_index m))) as Hsd.
    { apply said_durable. rewrite <-Hto by auto. by apply HA1. }
    assert (n = N.to_nat (m_index m)) as Hn' by (unfold n; rewrite Hnil; simpl; lia).
    exists G1. constructor; try done; [by rewrite Ee| |right; right; by rewrite Hg, Nat2N.id, Hn'].
    apply Hsett; [|done]. intros c Hcm Hcn Ec. eapply (near_settled quorum) with (n := N.to_nat (m_index m)); [|lia| |by apply Hscc].
    + rewrite <-El1, <-Et1. apply (gk_near _ _ Hok1). by rewrite Et1.
    + destruct (commit_to_final _ _ _ Ecom Hw1) as [Hwl _]. rewrite Ec, <-Ee. apply committed_len; [done|].
      by destruct (commit_to_same _ _ _ Ecom) as (_ & _ & ->).
Qed.
Lemma answered_event m r' :
  answered m r r' → vote_order r r' → told_truth m → tame conf r' →
  slice_of (g_led G (m_term m)) m → contiguous (m_index m + 1) (m_entries m) → ∃ G', follows G G' i r' ∧ node_ok G' i r' d.
Proof.
  intros (r1 & l & g & Hty & Hs & Ht1 & Hst1 & -> & Htg & Hfg & Hmg & Hans) Hvo Hm Hta Hsl Hce. destruct node_log as [Hw Hf].
  destruct (calm_facts _ _ Hw (si_log _ _ _ Hs)) as (Hw1 & Hf1 & He1 & _). assert (first (r_raft_log r1) = 1) as Hf1' by congruence.
  destruct (si_discreet _ _ _ Hs Hw) as [_ Hp1 _ _ _].
  destruct (silent_hushed m r1 Hs Hvo Hm) as (G1 & HG).
  destruct (answer_accepted m r1 l g G1) as (G2 & [HM2 V T R D W Y L Hset Hper Hsd Han]); [done..|].
  destruct HG as [HM1 HV1 [Hid1 Et1 El1 Er1 _ _ Hout1] HL1 HD1 HW1 HY1 _ _].
  destruct (moves_facts quorum (quorum_meet conf Hvoters) i G G1 Hok HM1) as (Hok1 & Hl1 & _).
  destruct (moves_facts quorum (quorum_meet conf Hvoters) i G1 G2 Hok1 HM2) as (Hok2 & Hl2 & _).
  assert (m_term m ≠ 0) as Hnz.
  { apply (gk_won _ _ Hok). pose proof (tt_honest _ Hm) as Hh. unfold RaftClaims.honest in Hh. rewrite Hty in Hh. apply Hh. }
  destruct Hno as [[Hid _ _ _ _ _ _] _ Ed Hdc Hper0 _]. exists G2. split.
  - constructor; [by etrans|..].
    + intros v t. rewrite V. apply HV1.
    + intros t. simpl. rewrite Hst1. simpl. by rewrite Y, HY1.
    + intros t. simpl. rewrite Hst1. simpl. by rewrite W, HW1.
  - constructor; simpl; [|done|by rewrite D, HD1|by eapply settled_later; [|eapply settled_later]| |by rewrite Hst1].
    + constructor; simpl; [done|by rewrite T|done|by rewrite R|apply Hta|done|]. intros g' [Hg| ->%list_elem_of_singleton]%elem_of_app.
      * eapply honest_later; [exact Hl2| |by apply Hout1]. intros _ t n [? ?]. split; [done|by apply Hsd].
      * unfold RaftClaims.honest. rewrite Htg. destruct Han as [|[|Hsa]]; [by left|by right; left|right; right].
        rewrite Hmg, Ht1. split; [done|]. by split; [rewrite Hfg|].
    + etrans; [exact Hper|]. by rewrite Hp1, He1.
Qed.

(** ** The application *)
Lemma idle_follows r' : r_term r' = r_term r → r_vote r' = r_vote r → r_state r' = r_state r → ents (r_raft_log r') = ents (r_raft_log r) → follows G G i r'.
Proof.
  intros Ht Hv Hst He. constructor; [done|..].
  - intros v t. by rewrite cast_same.
  - intros t. rewrite Hst, Ht, He. case_bool_decide as Hl; [|done]. destruct (N.eqb_spec t (r_term r)) as [->|]; [|done]. by apply leader_led.
  - intros t. rewrite Hst, Ht. case_bool_decide as Hl; [|done]. destruct (N.eqb_spec t (r_term r)) as [->|]; [|done]. by apply leader_won.
Qed.
Lemma idle_member r' :
  r_id r' = r_id r → r_term r' = r_term r → r_state r' = r_state r → ents (r_raft_log r') = ents (r_raft_log r) →
  l_committed (r_raft_log r') = l_committed (r_raft_log r) → r_msgs r' = r_msgs r → tame conf r' → member G i r'.
Proof.
  intros Hid Ht Hst He Hc Hm Hta. destruct Hno as [[Eid Et El Er _ Hset Hout] _ _ _ _ _].
  constructor; [congruence|congruence|congruence|by rewrite Hst|apply Hta| |by rewrite Hm]. unfold committed. by rewrite Hc, He.
Qed.
Lemma noted_event j t r' : noted j t r r' → on_disk j t → tame conf r' → follows G G i r' ∧ node_ok G i r' d.
Proof.
  intros (Hst & l & b & El & ->) Hd Hta. destruct node_log as [Hw Hf]. pose proof (persist_disk _ _ _ _ El Hd) as Hpd.
  destruct (calm_facts _ _ Hw (calm_persist _ _ _ _ _ El)) as (_ & _ & He & _). pose proof (maybe_persist_moves _ _ _ _ _ El) as (Hl & _ & _).
  split; [by apply idle_follows|]. destruct Hno as [_ _ Ed Hdc _ _]. constructor; [|done|done|done|simpl; by rewrite He|done].
  apply idle_member; try done. simpl. by rewrite Hl.
Qed.
Lemma written_event l :
  log_wf l → first l = 1 → ents l = ents (r_raft_log r) → l_committed l = l_committed (r_raft_log r) → l_persisted l = l_persisted (r_raft_log r) →
  tame conf (set_r_raft_log l r) → follows G G i (set_r_raft_log l r) ∧ node_ok G i (set_r_raft_log l r) d.
Proof.
  intros Hw Hf He Hc Hp Hta. split; [by apply idle_follows|]. destruct Hno as [_ _ Ed Hdc Hper Hld].
  constructor; [by apply idle_member|done|done|done|simpl; by rewrite He, Hp|]. intros Hst. destruct (Hld Hst) as [Hso Hps Hre Hse Hou].
  constructor; simpl; rewrite ?He, ?Hc, ?Hp; try done. intros v pr Hg%Hps. eapply good_pr_stays; [..|exact Hg]; simpl; [done|by rewrite Hp|].
  destruct node_log as [_ Hf0]. by rewrite (log_end_len _ Hf0), (log_end_len _ Hf), He.
Qed.
Lemma restart_event c store rs r' :
  RaftStep.new c store = Done (Ok r') → Storage.initial_state store = Ok rs → cfg_id c = i →
  hs_term (rs_hard_state rs) = r_term r → hs_vote (rs_hard_state rs) = r_vote r →
  st_ok store → st_first store = 1 → st_entries store = d.1 → hs_commit (rs_hard_state rs) ≤ d.2 → cfg_applied c ≤ hs_commit (rs_hard_state rs) →
  tame conf r' → ∃ G', follows G G' i r' ∧ node_ok G' i r' d.
Proof.
  intros E Hrs Hci Ht Hv Hso Hsf Hse Hhc Hap Hta.
  destruct (new_spec c store rs r' E Hrs) as (Hid & Hms & Hst & Ht' & Hv' & _ & _ & _ & _ & _ & Hl).
  destruct (loaded_log _ _ _ _ Hl Hso Hap) as (_ & _ & He). rewrite Hse in He.
  destruct Hno as [_ _ Ed Hdc _ _].
  assert (l_committed (r_raft_log r') ≤ d.2) as Hcd.
  { destruct Hl as (l & com & Hn & -> & Hcom). simpl. case_bool_decide; [|lia]. unfold RaftLog.new in Hn.
    rewrite st_first_index, st_last_index, Hsf in Hn by done. cbn [mbind outcome_bind unwrap_r] in Hn. inv_done. simpl in *. lia. }
  pose proof (move_crash quorum i G) as HM.
  destruct (moves_facts quorum (quorum_meet conf Hvoters) i G _ Hok HM) as (_ & Hlt & _). exists (crash i G). split.
  - constructor; [done|..].
    + intros v t. by rewrite cast_same; [|rewrite Ht', Ht|rewrite Hv', Hv].
    + intros t. by rewrite Hst.
    + intros t. by rewrite Hst.
  - constructor; [constructor|done|done| | |by rewrite Hst]; simpl.
    + congruence.
    + destruct Hno as [[_ -> _ _ _ _ _] _ _ _ _ _]. congruence.
    + rewrite fn_lookup_insert. congruence.
    + by rewrite fn_lookup_insert, Hst.
    + apply Hta.
    + eapply settled_prefix; [|by eapply settled_later]. unfold committed. rewrite He. by apply upto_prefix.
    + rewrite Hms. by intros g ?%elem_of_nil.
    + by eapply settled_later.
    + rewrite He. apply prefix_take.
Qed.
End follow.
