(* ===== verification/RaftSafety.v ===== *)
(** * State machine safety

    A cluster with its disks: every node runs the methods of [RaftStep], what it
    has is written to its disk, and its messages are sent when the disk is up to
    date, or at once if the node leads. It follows the group of [Replication], so
    what two nodes commit, at whatever times, never differs. *)
From stdpp Require Import functions.
From S2P Require Import Prelude Errors Proto Util Quorum Storage Unstable ReadOnly Config.
From S2P Require Import Majority Joint Progress Tracker RaftLog RaftLogSpec RaftLogReads LogTotal LogFinal RaftState RaftSend RaftLogic.
From S2P Require Import RaftRole RaftStep RaftReset RaftVote RaftElect RaftCluster RaftTotal RaftEnds RaftWalk RaftFinal RaftPlain RaftSilent RaftAppends RaftEffect.
From S2P Require Import RaftLead RaftDuty Replication RaftClaims RaftMatching RaftSystem RaftFollow.
#[local] Open Scope N_scope.

Section safety.
Context {S : Type} `{StorageLaws S, PbMessage, HashOrder, Rng, ConfChangeCodec}.
Implicit Types r : Raft S.

(** ** The system *)

(** A cluster, and what every node has on disk: its log and its commit index. The
    term and the vote on disk are those of the node ([possible]). *)
Record system := mkSystem { s_cluster : cluster (S := S); s_disk : u64 → list Entry * u64 }.
Definition s_node (Σ : system) (i : u64) : Raft S := nodes (s_cluster Σ) i.
Definition s_log (Σ : system) (i : u64) : RaftLog S := r_raft_log (s_node Σ i).

(** The messages that nodes rely on. *)
Definition claims (m : Message) : bool :=
  match m_type m with
  | MsgAppend | MsgAppendResponse | MsgHeartbeat | MsgReadIndexResp | MsgSnapshot
  | MsgRequestVote | MsgRequestVoteResponse | MsgRequestPreVote | MsgRequestPreVoteResponse => true
  | _ => false
  end.
(** Those come from the network, at their addressee; the application reports as
    persisted what is on disk, keeps what it was given and cuts nothing from the
    log, restarts a node from its disk, and leaves the voters as they are. *)
Definition allowed (conf : JointConfig) (Σ : system) (i : u64) (e : event (S := S)) : Prop :=
  let votes_alike := ∀ r', run_event e (s_node Σ i) = Done r' → c_voters (pt_conf (r_prs r')) = conf in
  match e with
  | Receive m => claims m = true → m ∈ net (s_cluster Σ) ∧ m_to m = i
  | Persisted j t => on_disk (s_disk Σ i) j t
  | LogWritten l => log_wf l ∧ first l = 1 ∧ dummy l = Some 0 ∧ ents l = ents (s_log Σ i) ∧
      l_committed l = l_committed (s_log Σ i) ∧ l_persisted l = l_persisted (s_log Σ i)
  | Reconfigure _ => votes_alike
  | Restart c store => votes_alike ∧
      cfg_batch_append c = false ∧ st_ok store ∧ st_first store = 1 ∧ st_dummy_term store = Some 0 ∧ st_entries store = (s_disk Σ i).1 ∧
      ∀ rs, Storage.initial_state store = Ok rs →
        hs_commit (rs_hard_state rs) ≤ (s_disk Σ i).2 ∧ cfg_applied c ≤ hs_commit (rs_hard_state rs)
  | _ => True
  end.
Inductive system_step (conf : JointConfig) (Σ : system) : system → Prop :=
  | ss_event i e r' :
      let C := s_cluster Σ in
      i ≠ INVALID_ID → possible C i e → allowed conf Σ i e → run_event e (nodes C i) = Done r' →
      system_step conf Σ (mkSystem
        (mkCluster (set_node i r' (nodes C)) (net C) (record_leader i (nodes C i) r' (leaders C))) (s_disk Σ))
  | ss_save i :
      system_step conf Σ (mkSystem (s_cluster Σ)
        (λ j, if j =? i then (ents (s_log Σ i), l_committed (s_log Σ i)) else s_disk Σ j))
  | ss_send i :
      let C := s_cluster Σ in
      (s_disk Σ i).1 = ents (s_log Σ i) ∨ r_state (nodes C i) = Leader →
      system_step conf Σ (mkSystem
        (mkCluster (set_node i (set_r_msgs [] (nodes C i)) (nodes C)) (net C ++ r_msgs (nodes C i)) (leaders C)) (s_disk Σ)).

(** The nodes have just started, with empty logs and disks, and have not voted. *)
Record starts (conf : JointConfig) (Σ : system) : Prop := {
  bg_initial : initial (s_cluster Σ);
  bg_net : net (s_cluster Σ) = [];
  bg_log i : log_wf (s_log Σ i) ∧ first (s_log Σ i) = 1 ∧ ents (s_log Σ i) = [];
  bg_batch i : r_batch_append (s_node Σ i) = false;
  bg_vote i : r_vote (s_node Σ i) = INVALID_ID;
  bg_tame i : tame conf (s_node Σ i);
  bg_disk i : (s_disk Σ i).1 = [] }.

(** ** The invariant: the system is as the group says *)
Section invariant.
Context (conf : JointConfig) (Hconf : joint_bounded conf) (Hvoters : voters (incoming conf) ≠ ∅).
Abbreviation quorum := (quorum conf).

Record system_ok (G : group) (past : u64 → list (list Entry)) (Σ : system) : Prop := {
  so_group : group_ok quorum G;
  so_world : world_ok (g_led G) (mkWorld (s_cluster Σ) past);
  so_cluster : cluster_ok (g_vote G) (s_cluster Σ);
  so_node i : node_ok conf G i (s_node Σ i) (s_disk Σ i);
  so_past i : (s_disk Σ i).1 ∈ past i;
  so_net g : g ∈ net (s_cluster Σ) → honest quorum (durable G) G g;
  so_request g : g ∈ net (s_cluster Σ) → m_type g = MsgAppendResponse → m_request_snapshot g = 0;
  so_won t i : g_won G t = Some i ↔ ∃ cf, (t, i, cf) ∈ leaders (s_cluster Σ);
  so_conf t i cf : (t, i, cf) ∈ leaders (s_cluster Σ) → cf = conf }.

(** Only the values of these functions matter. *)
Lemma world_ok_ext T T' (W : world (S := S)) : (∀ t, T' t = T t) → world_ok T W → world_ok T' W.
Proof.
  intros E [Hl Hb Ha Hp Hled Hle Hm Hr Ho Ht].
  assert (∀ L, anchored T L → anchored T' L) as HA by (intros L; apply anchored_mono; intros t; by rewrite E).
  constructor; try done.
  - intros i. by apply HA.
  - intros i es ?%Hp. by apply HA.
  - intros t. rewrite E. destruct (Hled t). auto.
  - intros i ?. rewrite E. by apply Hle.
  - intros g Hg. rewrite E. by apply Hm.
  - intros t. rewrite E. apply Hr.
Qed.
Lemma cluster_ok_ext b b' (C : cluster (S := S)) : (∀ v t, b' v t = b v t) → cluster_ok b C → cluster_ok b' C.
Proof.
  intros E [Hi Hs Hv Hf Hg Hc Hl Hq]. constructor; try done.
  - intros i ?. rewrite E. by apply Hv.
  - intros i t ? ?. rewrite E. by apply Hf.
  - intros g. rewrite E. apply Hg.
  - intros i v ? ? ?. rewrite E. by apply Hc.
  - intros t i cf Hin. eapply joint_quorum_of_mono; [|by apply Hq]. intros v ?. simpl. by rewrite E.
Qed.

(** The beginning. *)
Definition group_of (Σ : system) : group := mkGroup (λ i, r_term (s_node Σ i)) (λ _, []) (λ _, []) (λ _, false)
  (λ _ _, None) (λ _, []) (λ _, []) (λ _, None) (λ _, []).
Lemma group_of_starts Σ : group_starts (group_of Σ).
Proof. by constructor. Qed.
Lemma starts_ok Σ : starts conf Σ → system_ok (group_of Σ) (λ _, [[]]) Σ.
Proof.
  intros [Hin Hnet Hlog Hb Hv Hta Hd]. constructor.
  - by apply group_starts_ok, group_of_starts.
  - apply (fresh_ok (mkWorld (s_cluster Σ) (λ _, [[]]))). constructor; simpl; try done.
    + by rewrite Hnet.
    + by intros i es ->%list_elem_of_singleton.
  - eapply cluster_ok_ext; [|by apply initial_ok]. intros v t. simpl. unfold s_node in Hv. rewrite Hv. by destruct (_ =? _).
  - intros i. destruct (in_node _ Hin i) as (Hid & Hst & Hms). destruct (Hlog i) as (Hw & Hf & He).
    assert (∀ c L, L = [] → settled quorum (group_of Σ) (upto c L)) as Hset.
    { intros c L ->. left. unfold upto. apply take_nil. }
    constructor; [constructor|..]; simpl; try done; try (by symmetry).
    + unfold s_node. by rewrite Hst.
    + apply Hta.
    + by apply Hset.
    + unfold s_node. rewrite Hms. by intros g ?%elem_of_nil.
    + by apply Hset.
    + unfold upto, s_log in *. rewrite He, take_nil. apply prefix_nil.
    + unfold s_node. by rewrite Hst.
  - intros i. rewrite Hd. by left.
  - intros g. rewrite Hnet. by intros ?%elem_of_nil.
  - intros g. rewrite Hnet. by intros ?%elem_of_nil.
  - intros t i. rewrite (in_leaders _ Hin). split; [done|]. by intros [cf ?%elem_of_nil].
  - intros t i cf. rewrite (in_leaders _ Hin). by intros ?%elem_of_nil.
Qed.
(** ** Every step keeps it *)

(** A message of an earlier term changes nothing. *)
Lemma late_silent m m' q q' res : m_term m ≠ 0 → m_term m < r_term q → step m q = Done (q', res) → silent (S := S) m' q q'.
Proof.
  intros Hnz Hlt E. unfold step, ok_ in E. apply rm_bind_Done in E as (q1 & c & Et & E).
  pose proof (step_term_walks (silent m') m _ _ _ Et) as Hs. assert (c = false) as ->.
  { unfold step_term in Et. apply rm_bind_Done in Et as (q2 & self & [-> ->]%rm_gets_Done & Et). unfold id in Et.
    rewrite (proj2 (N.eqb_neq _ _)), (proj2 (N.ltb_ge _ _)), (proj2 (N.ltb_lt _ _)) in Et by lia.
    by apply rm_bind_Done in Et as (q3 & [] & _ & [_ ->]%rm_ret_Done). }
  by apply rm_ret_Done in E as [-> _].
Qed.
Section event.
Context (G : group) (past : u64 → list (list Entry)) (Σ : system) (Hok : system_ok G past Σ).
Context (i : u64) (e : event (S := S)) (r' : Raft S).
Let C := s_cluster Σ.
Let r := nodes C i.
Let C' := mkCluster (set_node i r' (nodes C)) (net C) (record_leader i r r' (leaders C)).
Context (Hi : i ≠ INVALID_ID) (Hpos : possible C i e) (Hal : allowed conf Σ i e) (He : run_event e r = Done r').

Lemma event_cluster_ok : vote_order r r' ∧ cluster_ok (cast i r' (g_vote G)) C'.
Proof.
  pose proof (so_cluster _ _ _ Hok) as HC. assert (r_id r = i) as Hid by apply (co_id _ _ HC). destruct (run_event_spec e r r') as (Hv & Hc & Hh).
  - apply Hpos.
  - by rewrite Hid.
  - apply HC.
  - intros m -> Hg. destruct Hpos as [_ Hp]. destruct (Hp Hg) as [Hin _]. apply (co_granted _ _ HC m). left. by apply list_elem_of_filter.
  - intros c store ->. rewrite Hid. apply Hpos.
  - done.
  - split; [done|]. by eapply event_ok.
Qed.
Lemma event_conf t j cf : (t, j, cf) ∈ leaders C' → cf = conf.
Proof.
  simpl. unfold record_leader. case_match; [|apply (so_conf _ _ _ Hok)].
  intros [[= _ _ ->]|Hin]%elem_of_cons; [|by apply (so_conf _ _ _ Hok) in Hin]. exact (ta_conf _ _ (no_tame _ _ _ _ _ (so_node _ _ _ Hok i))).
Qed.
Lemma event_unique t a b ca cb : (t, a, ca) ∈ leaders C' → (t, b, cb) ∈ leaders C' → a = b.
Proof.
  destruct event_cluster_ok as [_ HC']. intros Ha Hb. pose proof (event_conf _ _ _ Ha) as ->. pose proof (event_conf _ _ _ Hb) as ->.
  apply (co_leaders _ _ HC') in Ha, Hb.
  destruct (joint_quorum_intersect conf _ _ (incoming conf) (or_introl eq_refl) Hvoters Ha Hb) as (v & _ & Hva & Hvb). congruence.
Qed.
Lemma event_plain : plain (mkWorld C past) i e.
Proof.
  destruct e as [m| |j|j t|cc|l|c store]; simpl in *; try done.
  - split; intros Hty; unfold claims in Hal; rewrite Hty in Hal; [|by apply Hal].
    destruct (Hal eq_refl) as [Hg%(so_net _ _ _ Hok) _]. unfold honest in Hg. by rewrite Hty in Hg.
  - by destruct Hal as (? & ? & _ & ? & _).
  - destruct Hal as (_ & ? & ? & ? & _ & Hs & Hc). split_and!; try done; [rewrite Hs; apply (so_past _ _ _ Hok)|].
    intros rs Hrs. by apply Hc.
Qed.
Lemma default_told (Cl : cluster (S := S)) : told_truth conf G Cl i Message_default.
Proof. constructor; [done|by intros [|]|done|done]. Qed.
Lemma event_ordinary :
  ordinary e → m_type (event_msg e) ≠ MsgSnapshot ∧ in_order (event_msg e) ∧ (m_type (event_msg e) = MsgAppend → m_term (event_msg e) ≠ 0 ∧ event_msg e ∈ net C).
Proof.
  intros _. pose proof event_plain as Hpl. destruct e as [m| |j|j t|cc|l|c store]; try (split_and!; [done|by intros ?|done]).
  destruct (plain_message _ _ _ (so_world _ _ _ Hok) m Hpl) as (? & ? & ?). split_and!; [done..|]. intros Hty. split; [auto|]. by apply Hpl.
Qed.
(** The voters stay, and so does the beginning of the log. *)
Lemma event_tame : tame conf r'.
Proof.
  pose proof (no_tame _ _ _ _ _ (so_node _ _ _ Hok i)) as Hta. change (s_node Σ i) with r in Hta.
  assert (ordinary e ∨ ¬ ordinary e) as [Ho|Ho] by (destruct e; first [by left|right; by intros []]).
  - destruct (event_ordinary Ho) as (Hns & Hin & _).
    eapply tame_stays; [by eapply run_plain|apply (wo_log _ _ (so_world _ _ _ Hok))| |by destruct e; apply _|done].
    intros Hn. destruct e; try (by destruct Hn). by apply Hal.
  - destruct e as [| | | | |l|c store]; try (by destruct Ho).
    + injection He as <-. destruct Hta, Hal as (_ & _ & ? & _). by constructor.
    + destruct Hal as (Hc & _ & _ & _ & Hd & _). destruct Hpos as (_ & _ & rs & Hrs & _). specialize (Hc _ He). simpl in He.
      apply bind_Done in He as (res & E & Er). destruct res as [r1|]; [|done]. injection Er as ->.
      destruct (new_spec _ _ _ _ E Hrs) as (_ & Hms & _ & _ & _ & _ & _ & _ & Hp & _ & Hl). constructor; [done|by rewrite (loaded_dummy _ _ _ _ Hl)|done|].
      rewrite Hms. by intros g ?%elem_of_nil.
Qed.
Lemma event_told : silent Message_default r r' ∨ told_truth conf G C i (event_msg e).
Proof.
  destruct e as [m| |j|j t|cc|l|c store]; try (right; apply default_told). simpl in *.
  assert (honest quorum (durable G) G m) as Hh.
  { destruct (claims m) eqn:Hc; [by apply (so_net _ _ _ Hok), Hal|]. unfold claims, honest in *. by destruct (m_type m). }
  destruct (decide (m_type m = MsgHeartbeat ∧ m_term m < r_term r)) as [[Hty Hlt]|Hnl]; [left|right].
  - apply fmap_Done in He as ([r1 x] & E & ->). eapply late_silent; [|exact Hlt|exact E].
    unfold honest in Hh. rewrite Hty in Hh. destruct Hh as [Hw _]. by apply (gk_won _ _ (so_group _ _ _ Hok)) in Hw as [? _].
  - constructor; [done| |intros Hty; fold r; apply N.nlt_ge; naive_solver|].
    + unfold claims in Hal. intros [Hty|Hty]; rewrite Hty in Hal; by apply Hal.
    + intros Hty. unfold claims in Hal. rewrite Hty in Hal. apply (so_request _ _ _ Hok); [by apply Hal|done].
Qed.

Lemma event_follows : ∃ G', follows conf G G' i r' ∧ node_ok conf G' i r' (s_disk Σ i).
Proof.
  destruct event_cluster_ok as [Hvo HC']. pose proof event_tame as Hta. pose proof Hok as [Hgr HW HC Hno Hpast Hnet _ Hwon Hcf].
  specialize (Hno i). change (s_node Σ i) with (nodes C i) in Hno.
  destruct event_told as [Hs|Htold]; [eapply (silent_event conf Hvoters); try done; apply default_told|].
  assert (ordinary e ∨ ¬ ordinary e) as [Ho|Ho] by (destruct e; first [by left|right; by intros []]).
  - destruct (event_ordinary Ho) as (Hns & Hin & Hnz).
    destruct (run_effect e r r' Ho Hns ltac:(naive_solver) He) as [[Hs|Hst Hl|cc res Hst Ec|Hel|Hac]|(j & t & -> & Hp)].
    + by eapply (silent_event conf Hvoters).
    + by eapply (labors_event conf Hconf Hvoters).
    + by eapply (conf_event conf Hconf Hvoters).
    + destruct (elected_recorded (g_led G) (mkWorld C past) i r' HW event_unique (event_msg e) Hel) as [[cf Hin'] Hno'].
      eapply (elected_event conf Hconf Hvoters); try done. pose proof (event_conf _ _ _ Hin') as ->. by apply (co_leaders _ _ HC').
    + pose proof Hac as (_ & _ & _ & Hty & _). destruct (Hnz Hty) as [_ Hmn].
      eapply (answered_event conf Hvoters); try done; [|by apply Hin].
      apply (wo_msgs _ _ HW). left. by apply list_elem_of_filter.
    + simpl in Hal. destruct Hp as [Hn|[Hst Hp]]; [exists G; by eapply noted_event|by eapply (persist_event conf Hconf Hvoters)].
  - destruct e as [| | | | |l|c store]; try (by destruct Ho); simpl in He, Hal.
    + injection He as <-. destruct Hal as (? & ? & _ & ? & ? & ?). exists G. by eapply written_event.
    + destruct Hal as (_ & _ & Hso & Hsf & _ & Hse & Hc). destruct Hpos as (_ & Hid & rs & Hrs & Ht & Hv).
      apply bind_Done in He as (res & E & Er). destruct res as [r1|]; [|done]. injection Er as ->.
      destruct (Hc rs Hrs). by eapply (restart_event conf Hvoters).
Qed.

Lemma event_system_ok : ∃ G' past', rtc (group_step quorum) G G' ∧ system_ok G' past' (mkSystem C' (s_disk Σ)).
Proof.
  destruct event_cluster_ok as [Hvo HC']. destruct event_follows as (G' & [HM V Y W] & Hno'). pose proof Hok as [Hgr HW HC Hno Hpast Hnet Hrq Hwon Hcf].
  destruct (moves_facts quorum (quorum_meet conf Hvoters) i G G' Hgr HM) as (Hgr' & Hl & Ha).
  destruct (event_world_ok (g_led G) (mkWorld C past) i e r' HW Hpos event_plain He (co_leader _ _ HC) event_unique) as (T' & HW' & Hg1 & Hg2).
  exists G', (λ j, if j =? i then ents (r_raft_log r') :: past j else past j). split; [by eapply moves_steps|].
  assert (∀ (P : u64 → Raft S → Prop), (∀ j, j ≠ i → P j (nodes C j)) → P i r' → ∀ j, P j (set_node i r' (nodes C) j)) as Hcase.
  { intros P Hp1 Hp2 j. unfold set_node. destruct (N.eqb_spec j i) as [->|]; auto. }
  constructor.
  - done.
  - eapply world_ok_ext; [|exact HW']. intros t. rewrite Y. pose proof (wo_leader _ _ HW' i) as Hle. unfold w_log in Hle. simpl in Hle.
    unfold set_node in Hle. rewrite N.eqb_refl in Hle. destruct (Hg2 t) as [E|[-> Hst]].
    + case_bool_decide as Hst; [|done]. simpl. destruct (N.eqb_spec t (r_term r')) as [->|]; [|done]. symmetry. by apply Hle.
    + rewrite bool_decide_eq_true_2, N.eqb_refl by done. symmetry. by apply Hle.
  - eapply cluster_ok_ext; [|exact HC']. exact V.
  - apply (Hcase (λ j r0, node_ok conf G' j r0 (s_disk Σ j))); [|done]. intros j Hj. eapply node_ok_other; [exact Hl|exact Ha|done|apply Hno].
  - intros j. simpl. destruct (j =? i); [right; apply Hpast|apply Hpast].
  - intros g Hg%Hnet. eapply honest_later; [exact Hl| |exact Hg]. intros _ t n. apply Hl.
  - done.
  - intros t j. rewrite W. simpl. unfold record_leader. destruct (bool_decide (r_state r' = Leader)) eqn:Hst; simpl; [|apply Hwon].
    apply bool_decide_eq_true in Hst. destruct (still_leader r r') eqn:Hs; simpl.
    + unfold still_leader in Hs. apply andb_true_iff in Hs as [Hs%bool_decide_eq_true Ht%N.eqb_eq]. rewrite Ht.
      destruct (N.eqb_spec t (r_term r)) as [->|]; [|apply Hwon].
      rewrite <-(proj2 (Hwon (r_term r) i)) by (by apply (co_leader _ _ HC)). apply Hwon.
    + destruct (N.eqb_spec t (r_term r')) as [->|Hne].
      * split; [intros [= ->]; eexists; by left|]. intros [cf Hcf']. f_equal. apply (event_unique (r_term r') i j (c_voters (pt_conf (r_prs r))) cf).
        -- simpl. unfold record_leader. rewrite bool_decide_eq_true_2, Hs by done. by left.
        -- simpl. unfold record_leader. rewrite bool_decide_eq_true_2, Hs by done. exact Hcf'.
      * rewrite Hwon. split; intros [cf Hin]; exists cf; [by right|]. apply elem_of_cons in Hin as [[= -> _ _]|]; done.
  - intros t j cf. apply event_conf.
Qed.
End event.

(** Writing the log to disk. *)
Lemma save_system_ok G past Σ i :
  system_ok G past Σ → ∃ G' past', rtc (group_step quorum) G G' ∧ system_ok G' past' (mkSystem (s_cluster Σ)
    (λ j, if j =? i then (ents (s_log Σ i), l_committed (s_log Σ i)) else s_disk Σ j)).
Proof.
  intros [Hgr HW HC Hno Hpast Hnet Hrq Hwon Hcf]. pose proof (move_save quorum i G) as HM.
  destruct (moves_facts quorum (quorum_meet conf Hvoters) i G _ Hgr HM) as (Hgr' & Hl & Ha).
  exists (save i G), (λ j, if j =? i then ents (s_log Σ i) :: past j else past j). split; [by eapply moves_steps|]. constructor.
  - done.
  - destruct HW as [? ? Han Hp ? ? ? ? ? ?]. constructor; try done. intros j es. simpl.
    destruct (N.eqb_spec j i) as [->|]; [|apply Hp]. intros [->|]%elem_of_cons; [apply (Han i)|by eapply Hp].
  - done.
  - intros j. simpl. destruct (N.eqb_spec j i) as [->|]; [|by eapply node_ok_other].
    pose proof (Hno i) as [[I T L R D Cm O] Ta Dk Dc P Le]. constructor; [constructor|..]; simpl; try done.
    + by rewrite fn_lookup_insert.
    + apply prefix_take.
    + intros Hst. eapply leads_ok_later; [exact Hl|]. by apply Le.
  - intros j. simpl. destruct (N.eqb_spec j i) as [->|]; [by left|apply Hpast].
  - intros g Hg%Hnet. eapply honest_later; [exact Hl| |exact Hg]. intros _ t n. apply Hl.
  - done.
  - done.
  - done.
Qed.
(** Sending what is on disk, or what a leader says. *)
Lemma send_system_ok G past Σ i :
  system_ok G past Σ → let C := s_cluster Σ in
  (s_disk Σ i).1 = ents (s_log Σ i) ∨ r_state (nodes C i) = Leader →
  ∃ G' past', rtc (group_step quorum) G G' ∧ system_ok G' past' (mkSystem
    (mkCluster (set_node i (set_r_msgs [] (nodes C i)) (nodes C)) (net C ++ r_msgs (nodes C i)) (leaders C)) (s_disk Σ)).
Proof.
  intros [Hgr HW HC Hno Hpast Hnet Hrq Hwon Hcf] C Hsend. pose proof (Hno i) as [[I T L R D Cm O] Ta Dk Dc P Le].
  assert (∃ G', moves quorum i G G' ∧ g_vote G' = g_vote G ∧ g_led G' = g_led G ∧ g_won G' = g_won G ∧ g_term G' = g_term G ∧
    g_log G' = g_log G ∧ g_runs G' = g_runs G ∧ g_disk G' i = g_disk G i ∧
    ∀ g, g ∈ r_msgs (nodes C i) → honest quorum (durable G') G' g) as (G' & HM & EV & EY & EW & ET & EL & ER & ED & Hsent).
  { destruct Hsend as [E|Hst].
    - assert (moves quorum i G (publish i G)) as HM by (apply move_publish; left; by rewrite L, Dk, E). exists (publish i G).
      destruct (moves_facts quorum (quorum_meet conf Hvoters) i G _ Hgr HM) as (_ & Hl & _). split_and!; try done.
      intros g Hg%O. eapply honest_later; [exact Hl| |exact Hg]. intros _ t n [-> Hsd]. by apply publish_durable.
    - exists G. split_and!; try done. by apply Le. }
  destruct (moves_facts quorum (quorum_meet conf Hvoters) i G _ Hgr HM) as (Hgr' & Hl & Ha).
  exists G', past. split; [by eapply moves_steps|]. constructor; simpl.
  - done.
  - rewrite EY. by apply (flush_ok (g_led G) (mkWorld C past) i).
  - rewrite EV. by apply flush_cluster_ok.
  - intros j. unfold s_node, set_node. simpl. destruct (N.eqb_spec j i) as [->|]; [|by eapply node_ok_other].
    constructor; [constructor|..]; simpl; rewrite ?ET, ?EL, ?ER, ?ED; try done; try (by eapply settled_later).
    + by intros g ?%elem_of_nil.
    + destruct Ta. constructor; simpl; [done..|]. by intros g ?%elem_of_nil.
    + intros Hst. eapply leads_ok_later; [exact Hl|]. destruct (Le Hst) as [Lo Lp Lr Ls Lu]. constructor; simpl; [done| |done|done|by intros g ?%elem_of_nil].
      intros v pr Hg. destruct (Lp v pr Hg). by constructor.
  - done.
  - intros g [Hg|Hg]%elem_of_app; [|by apply Hsent]. eapply honest_later; [exact Hl| |by apply Hnet]. intros _ t n. apply Hl.
  - intros g [Hg|Hg]%elem_of_app; [by apply Hrq|by apply Ta].
  - by rewrite EW.
  - done.
Qed.

Lemma step_system_ok G past Σ Σ' :
  system_ok G past Σ → system_step conf Σ Σ' → ∃ G' past', rtc (group_step quorum) G G' ∧ system_ok G' past' Σ'.
Proof.
  intros Hok Hs. destruct Hs as [i e r' C Hi Hpos Hal He|i|i C Hsend].
  - by eapply event_system_ok.
  - by apply (save_system_ok G past).
  - by apply (send_system_ok G past).
Qed.
Lemma steps_system_ok G past Σ Σ' :
  system_ok G past Σ → rtc (system_step conf) Σ Σ' → ∃ G' past', rtc (group_step quorum) G G' ∧ system_ok G' past' Σ'.
Proof.
  intros Hok Hs. revert G past Hok. induction Hs as [Σ|Σ Σ1 Σ' Hs _ IH]; intros G past Hok; [by exists G, past|].
  destruct (step_system_ok _ _ _ _ Hok Hs) as (G1 & past1 & H1' & Hok1). destruct (IH G1 past1 Hok1) as (G' & past' & H2' & Hok').
  exists G', past'. split; [by etrans|done].
Qed.

(** A committed entry belongs to a log that is chosen. *)
Lemma committed_chosen G past Σ i k e :
  system_ok G past Σ → entry_at (s_log Σ i) k = Some e → k ≤ l_committed (s_log Σ i) →
  chosen quorum G (committed (s_node Σ i)) ∧ 1 ≤ k ∧ committed (s_node Σ i) !! (N.to_nat k - 1)%nat = Some e.
Proof.
  intros Hok He Hk. destruct (wo_log _ _ (so_world _ _ _ Hok) i) as [Hw Hf]. apply at_entry in He as [H1k He]; [|done].
  apply committed_lookup in He as Hc; [|done|done]. split; [|done].
  destruct (me_commit _ _ _ _ (no_member _ _ _ _ _ (so_node _ _ _ Hok i))) as [Hn|]; [|done]. by rewrite Hn, lookup_nil in Hc.
Qed.
End invariant.
End safety.

Section results.
Context {S : Type} `{StorageLaws S, PbMessage, HashOrder, Rng, ConfChangeCodec}.
Context (conf : JointConfig) (Hconf : joint_bounded conf) (Hvoters : voters (incoming conf) ≠ ∅).
Implicit Types Σ : system (S := S).

Lemma reachable_system_ok Σ0 Σ Σ' :
  starts conf Σ0 → rtc (system_step conf) Σ0 Σ → rtc (system_step conf) Σ Σ' →
  ∃ G past G' past', rtc (group_step (quorum conf)) G G' ∧ system_ok conf G past Σ ∧ system_ok conf G' past' Σ'.
Proof.
  intros H0' Hs Hs'. destruct (steps_system_ok conf Hconf Hvoters _ _ _ _ (starts_ok conf _ H0') Hs) as (G & past & _ & Hok).
  destruct (steps_system_ok conf Hconf Hvoters _ _ _ _ Hok Hs') as (G' & past' & HG & Hok'). by exists G, past, G', past'.
Qed.
(** What is chosen stays chosen, and agrees with what is chosen later. *)
Lemma chosen_stays G past G' past' Σ Σ' L :
  rtc (group_step (quorum conf)) G G' → system_ok conf G past Σ → system_ok conf G' past' Σ' →
  chosen (quorum conf) G L → chosen (quorum conf) G' L ∧ ∀ L', chosen (quorum conf) G' L' → L `prefix_of` L' ∨ L' `prefix_of` L.
Proof.
  intros HG Hok Hok' HL. pose proof (quorum_meet conf Hvoters) as Hmeet.
  destruct (group_steps_ok _ Hmeet _ _ (so_group _ _ _ _ Hok) HG) as (_ & Hl & Hd).
  assert (chosen (quorum conf) G' L) as HL1 by (by eapply chosen_mono). split; [done|].
  intros L' HL'. by apply (chosen_agree _ Hmeet G' (so_group _ _ _ _ Hok')).
Qed.
(** The term that chose something has a leader, and some voter knows it. *)
Lemma chosen_term G past Σ L :
  system_ok conf G past Σ → chosen (quorum conf) G L →
  ∃ t j Q v, own (g_led G) t j ∧ quorum conf Q ∧ (∀ v, v ∈ Q → durable G v t (Datatypes.S j)) ∧
    L `prefix_of` take (Datatypes.S j) (g_led G t) ∧ is_Some (g_won G t) ∧ t ≤ r_term (s_node Σ v).
Proof.
  intros Hok (t & j & Q & Ho & HQ & Hd & HL). pose proof (so_group _ _ _ _ Hok) as Hgr.
  assert (is_Some (g_won G t)) as Hw.
  { destruct (g_won G t) eqn:E; [done|]. apply (gk_empty _ _ Hgr) in E. destruct Ho as (e & He & _). by rewrite E in He. }
  destruct (gk_won _ _ Hgr t Hw) as (_ & P & HP & Hq). destruct (quorum_meet conf Hvoters P P HP HP) as (v & Hv & _).
  exists t, j, Q, v. split_and!; try done. rewrite <-(me_term _ _ _ _ (no_member _ _ _ _ _ (so_node _ _ _ _ Hok v))). by apply Hq.
Qed.
(** What two nodes have committed agrees. *)
Lemma committed_agree Σ0 Σ Σ' i j k e e' :
  starts conf Σ0 → rtc (system_step conf) Σ0 Σ → rtc (system_step conf) Σ Σ' →
  entry_at (s_log Σ i) k = Some e → k ≤ l_committed (s_log Σ i) →
  entry_at (s_log Σ' j) k = Some e' → k ≤ l_committed (s_log Σ' j) → e = e'.
Proof.
  intros H0' Hs Hs' He Hk He' Hk'.
  destruct (reachable_system_ok _ _ _ H0' Hs Hs') as (G & past & G' & past' & HG & Hok & Hok').
  destruct (committed_chosen _ _ _ _ _ _ _ Hok He Hk) as (HL & _ & Hl). destruct (committed_chosen _ _ _ _ _ _ _ Hok' He' Hk') as (HL' & _ & Hl').
  destruct (chosen_stays _ _ _ _ _ _ _ HG Hok Hok' HL) as [_ Ha].
  destruct (Ha _ HL') as [Hp|Hp]; [apply (prefix_lookup_Some _ _ _ _ Hl) in Hp|apply (prefix_lookup_Some _ _ _ _ Hl') in Hp]; congruence.
Qed.
End results.

(** C1: state machine safety. In any run of a cluster with a fixed set of voters, in
    which messages are lost, delayed, reordered and repeated, nodes crash and
    restart from their disks, a follower sends only when its disk is up to date and
    a leader sends at once, the entries that two nodes have committed at the same
    position, at whatever times, are the same. As long as nothing is cut from the
    logs on disk, the nodes send no snapshots. *)
Theorem state_machine_safety {S} `{StorageLaws S, PbMessage, HashOrder, Rng, ConfChangeCodec} conf (Σ0 Σ Σ' : system (S := S)) i j k e e' :
  joint_bounded conf → voters (incoming conf) ≠ ∅ → starts conf Σ0 →
  rtc (system_step conf) Σ0 Σ → rtc (system_step conf) Σ Σ' →
  entry_at (s_log Σ i) k = Some e → k ≤ l_committed (s_log Σ i) →
  entry_at (s_log Σ' j) k = Some e' → k ≤ l_committed (s_log Σ' j) → e = e'.
Proof. intros Hb Hv H0'. by apply committed_agree. Qed.

(** C2: leader completeness. A leader whose term was not exceeded by any node when an
    entry was committed has that entry, at every later time: no committed entry is
    missing from the log of a leader of the same or a later term. *)
Theorem leader_completeness {S} `{StorageLaws S, PbMessage, HashOrder, Rng, ConfChangeCodec} conf (Σ0 Σ Σ' : system (S := S)) i j k e :
  joint_bounded conf → voters (incoming conf) ≠ ∅ → starts conf Σ0 →
  rtc (system_step conf) Σ0 Σ → rtc (system_step conf) Σ Σ' →
  entry_at (s_log Σ i) k = Some e → k ≤ l_committed (s_log Σ i) →
  r_state (s_node Σ' j) = Leader → (∀ v, r_term (s_node Σ v) ≤ r_term (s_node Σ' j)) →
  entry_at (s_log Σ' j) k = Some e.
Proof.
  intros Hb Hv H0' Hs Hs' He Hk Hst Hmax.
  destruct (reachable_system_ok conf Hb Hv _ _ _ H0' Hs Hs') as (G & past & G' & past' & HG & Hok & Hok').
  destruct (committed_chosen _ _ _ _ _ _ _ Hok He Hk) as (HL & H1k & Hl).
  destruct (chosen_term conf Hv _ _ _ _ Hok HL) as (t & p & Q & v & Ho & HQ & Hd & HLp & Hw & Ht).
  pose proof (quorum_meet conf Hv) as Hmeet. destruct (group_steps_ok _ Hmeet _ _ (so_group _ _ _ _ Hok) HG) as (Hgr' & Hled & Hdur).
  set (t' := r_term (s_node Σ' j)) in *. pose proof (wo_leader _ _ (so_world _ _ _ _ Hok') j Hst) as HT. simpl in HT. fold (s_node Σ' j) in HT. fold t' in HT.
  assert (Datatypes.S p ≤ length (g_led G t))%nat as Hp by (by apply own_lt in Ho).
  assert (take (Datatypes.S p) (g_led G t) = take (Datatypes.S p) (g_led G' t)) as Etk.
  { destruct (Hled t) as [x ->]. by rewrite take_app_le. }
  assert (take (Datatypes.S p) (g_led G' t) `prefix_of` g_led G' t') as Hpre.
  { destruct (N.eq_dec t t') as [->|Hne]; [apply prefix_take|]. eapply (leader_complete _ Hmeet G' Hgr' t t' p Q); [|done|by auto| |specialize (Hmax v); lia].
    - destruct Ho as (x & Hx & ?). exists x. split; [|done]. by eapply prefix_lookup_Some.
    - destruct (co_leader _ _ (so_cluster _ _ _ _ Hok') j Hst) as [cf Hin]. exists j. apply (so_won _ _ _ _ Hok'). by exists cf. }
  destruct (wo_log _ _ (so_world _ _ _ _ Hok') j) as [Hwl Hfl]. apply entry_in; [done|done|].
  assert (committed (s_node Σ i) `prefix_of` ents (s_log Σ' j)) as Hfin by (rewrite Etk in HLp; rewrite HT in Hpre; by etrans).
  by eapply prefix_lookup_Some.
Qed.

(** C3: committed entries are durable. At every moment after an entry was committed,
    it is on the disks of a quorum of the voters. *)
Theorem committed_is_durable {S} `{StorageLaws S, PbMessage, HashOrder, Rng, ConfChangeCodec} conf (Σ0 Σ Σ' : system (S := S)) i k e :
  joint_bounded conf → voters (incoming conf) ≠ ∅ → starts conf Σ0 →
  rtc (system_step conf) Σ0 Σ → rtc (system_step conf) Σ Σ' →
  entry_at (s_log Σ i) k = Some e → k ≤ l_committed (s_log Σ i) →
  ∃ Q : gset u64, joint_quorum_of conf (.∈ Q) ∧ ∀ v, v ∈ Q → (s_disk Σ' v).1 !! N.to_nat (k - 1) = Some e.
Proof.
  intros Hb Hv H0' Hs Hs' He Hk.
  destruct (reachable_system_ok conf Hb Hv _ _ _ H0' Hs Hs') as (G & past & G' & past' & HG & Hok & Hok').
  destruct (committed_chosen _ _ _ _ _ _ _ Hok He Hk) as (HL & H1k & Hl).
  destruct (chosen_stays conf Hv _ _ _ _ _ _ _ HG Hok Hok' HL) as [(t & p & Q & Ho & HQ & Hd & HLp) _].
  pose proof (so_group _ _ _ _ Hok') as Hgr'. exists Q. split; [exact HQ|]. intros v Hvq.
  rewrite <-(no_disk _ _ _ _ _ (so_node _ _ _ _ Hok' v)). replace (N.to_nat (k - 1)) with (N.to_nat k - 1)%nat by lia.
  destruct (gk_keeps _ _ Hgr' v t p Ho (Hd v Hvq)) as [Hp|(t' & Hlt & Hw & Hn)].
  - eapply prefix_lookup_Some; [exact Hl|]. by etrans.
  - destruct Hn. by eapply (leader_complete _ (quorum_meet conf Hv) G' Hgr' t t' p Q).
Qed.

(** C6: the program refines the abstract protocol of [Replication]. Every run of the
    system is matched by a run of a group that has just started, in which every
    member has the term, the log, the disk and the candidacy of its node, a leader
    has won its term and its log is the log of the term, and what a node has
    committed is chosen: acknowledged by a quorum. *)
Theorem system_refines_replication {S} `{StorageLaws S, PbMessage, HashOrder, Rng, ConfChangeCodec} conf (Σ0 Σ : system (S := S)) :
  joint_bounded conf → voters (incoming conf) ≠ ∅ → starts conf Σ0 → rtc (system_step conf) Σ0 Σ →
  ∃ G0 G, group_starts G0 ∧ rtc (group_step (quorum conf)) G0 G ∧ ∀ i,
    g_term G i = r_term (s_node Σ i) ∧ g_log G i = ents (s_log Σ i) ∧ g_disk G i = (s_disk Σ i).1 ∧
    g_runs G i = bool_decide (r_state (s_node Σ i) = Candidate) ∧
    (r_state (s_node Σ i) = Leader → g_won G (g_term G i) = Some i ∧ g_led G (g_term G i) = g_log G i) ∧
    settled (quorum conf) G (committed (s_node Σ i)).
Proof.
  intros Hb Hv H0' Hs. destruct (steps_system_ok conf Hb Hv _ _ _ _ (starts_ok conf _ H0') Hs) as (G & past & HG & Hok).
  exists (group_of Σ0), G. split_and!; [apply group_of_starts|done|]. intros i.
  destruct (no_member _ _ _ _ _ (so_node _ _ _ _ Hok i)) as [_ Et El Er _ Hset _]. split_and!; try done; [apply (so_node _ _ _ _ Hok i)|].
  intros Hst. rewrite Et, El. split.
  - apply (so_won _ _ _ _ Hok). by apply (co_leader _ _ (so_cluster _ _ _ _ Hok)).
  - exact (wo_leader _ _ (so_world _ _ _ _ Hok) i Hst).
Qed.
