(* ===== verification/RaftRules.v ===== *)
(** * The rules of the protocol, at one node

    When a leader commits, when a vote is granted, which messages cannot disturb
    a node that hears from its leader, and when a leader gives up. *)
From S2P Require Import Prelude Errors Proto Util Quorum Storage Unstable ReadOnly Config.
From S2P Require Import Majority Joint Progress Tracker RaftLog RaftLogSpec RaftLogReads RaftLogInv RaftState RaftSend RaftLogic.
From S2P Require Import RaftRole RaftStep RaftReset RaftVote RaftStays.
#[local] Open Scope N_scope.

Section rules.
Context {S : Type} `{StorageLaws S, PbMessage, HashOrder, Rng, ConfChangeCodec}.
Implicit Types r : Raft S.

(** The peer has acknowledged the log up to [i]. *)
Definition matched_to r (i : u64) : N → Prop := acked_ge (pt_progress (r_prs r)) i.
#[export] Instance matched_to_dec r i v : Decision (matched_to r i v).
Proof. unfold matched_to. apply _. Defined.

(** The state in which a leader computes its commit index. *)
Record commits_ready r : Prop := {
  cr_log : log_ok (r_raft_log r);
  cr_term : r_term r ≠ 0;
  cr_conf : joint_bounded (c_voters (pt_conf (r_prs r)));
  cr_matched id pr : pt_progress (r_prs r) !! id = Some pr → pr_matched pr ≤ u64_max;
  cr_self : is_Some (Tracker.get (r_id r) (r_prs r));
  cr_group : pt_group_commit (r_prs r) = false }.

Lemma maximal_committed_x r :
  commits_ready r → returns (maximal_committed_index (r_prs r)) (λ '(i, _), i ≤ u64_max ∧
    ∀ j, j ≤ u64_max → (j ≤ i ↔ joint_quorum_of (c_voters (pt_conf (r_prs r))) (matched_to r j))).
Proof.
  intros [_ _ Hb Hm _ Hg]. unfold maximal_committed_index. rewrite Hg.
  apply (joint_committed_index_x _ (pt_progress (r_prs r))); [done|]. intros v.
  unfold acked_or_default, acked_index, ProgressMap_acked.
  destruct (pt_progress (r_prs r) !! v) as [pr|] eqn:E; simpl; [by eapply Hm|lia].
Qed.

(** Only the commit index moves, and is noted in the own progress. *)
Definition committed_as (i : u64) (pr : Progress) r : Raft S :=
  set_r_prs (Tracker.put (r_id r) (update_committed i pr) (r_prs r))
    (set_r_raft_log (set_l_committed i (r_raft_log r)) r).

Lemma maybe_commit_x r :
  commits_ready r → returns (RaftSend.maybe_commit r) (λ '(r', b), ∃ i,
    i ≤ u64_max ∧
    (∀ j, j ≤ u64_max → (j ≤ i ↔ joint_quorum_of (c_voters (pt_conf (r_prs r))) (matched_to r j))) ∧
    b = bool_decide (l_committed (r_raft_log r) < i ∧ log_matches (r_raft_log r) i (r_term r)) ∧
    log_ok (r_raft_log r') ∧
    if b then ∃ pr, Tracker.get (r_id r) (r_prs r) = Some pr ∧ r' = committed_as i pr r else r' = r).
Proof.
  intros Hr. destruct (maximal_committed_x r Hr) as ([i g] & Hmci & Hi & Hq).
  destruct Hr as [Hl Ht _ _ [pr Hself] _].
  unfold RaftSend.maybe_commit, mbind, rm_bind, asks, gets. rewrite Hmci. simpl.
  destruct (maybe_commit_preserved i (r_term r) (r_raft_log r) Hl Ht) as ([l b] & E & Hp & Hb & ->).
  unfold with_log. rewrite E. simpl. destruct b; simpl.
  - unfold unwrap_pr, asks. simpl. rewrite Hself. simpl. apply returns_Done. exists i.
    split_and!; try done; [apply Hp|]. by exists pr.
  - apply returns_Done. exists i. split_and!; try done; [apply Hp|].
    destruct r as [? ? ? ? [] ? ? ? ? ? ? ? ? ? ? ? ? ? ? ? ? ? ? ? ? ? ? ? ? ? ? ?]; done.
Qed.

(** C10: the commit rule of a leader. The candidate index is the largest one that
    a majority of each half of the configuration has acknowledged; it is
    committed exactly when it is beyond the commit index and its entry is of the
    leader's own term, so that an entry of an earlier term is committed only
    together with a later one. Nothing else of the node changes, and the log
    stays consistent. *)
Theorem commit_rule r :
  commits_ready r → returns (RaftSend.maybe_commit r) (λ '(r', b), ∃ i,
    i ≤ u64_max ∧
    (∀ j, j ≤ u64_max → (j ≤ i ↔ joint_quorum_of (c_voters (pt_conf (r_prs r))) (matched_to r j))) ∧
    b = bool_decide (l_committed (r_raft_log r) < i ∧ log_matches (r_raft_log r) i (r_term r)) ∧
    log_ok (r_raft_log r') ∧
    if b then ∃ pr, Tracker.get (r_id r) (r_prs r) = Some pr ∧ r' = committed_as i pr r else r' = r).
Proof. apply maybe_commit_x. Qed.

(** ** Votes *)

(** The condition under which a vote is granted, as the protocol states it: the
    voter is free (or repeats itself, or is only asked for its opinion about a
    later term), the candidate's log is at least as new as its own, and a
    candidate with the same log has at least the same priority. *)
Definition vote_due (m : Message) r (last_term : u64) : Prop :=
  (r_vote r = m_from m ∨ (r_vote r = INVALID_ID ∧ r_leader_id r = INVALID_ID) ∨
   (m_type m = MsgRequestPreVote ∧ r_term r < m_term m)) ∧
  (last_term < m_log_term m ∨ m_log_term m = last_term ∧ log_end (r_raft_log r) - 1 ≤ m_index m) ∧
  (log_end (r_raft_log r) - 1 < m_index m ∨ (r_priority r <= get_priority m)%Z).
#[export] Instance vote_due_dec m r lt : Decision (vote_due m r lt).
Proof. unfold vote_due. apply _. Defined.

(** The answers as they leave the node. *)
Definition vote_answer (m : Message) (t : MessageType) r : Message :=
  set_m_from (r_id r) (new_message (m_from m) t None).
Definition yes_answer (m : Message) (t : MessageType) r : Message :=
  set_m_term (m_term m) (vote_answer m t r).
Definition no_answer (m : Message) (t : MessageType) r : Message :=
  set_m_term (r_term r) (set_m_reject true
    (set_m_commit (l_committed (r_raft_log r)) (vote_answer m t r))).

(** The commit index a vote message brings. *)
Definition brings_commit (m : Message) r : Prop :=
  m_commit_term m ≠ 0 ∧ l_committed (r_raft_log r) < m_commit m ∧ r_state r ≠ Leader ∧
  log_matches (r_raft_log r) (m_commit m) (m_commit_term m).
#[export] Instance brings_commit_dec m r : Decision (brings_commit m r).
Proof. unfold brings_commit. apply _. Defined.

Lemma maybe_commit_by_vote_x m r r' u :
  log_ok (r_raft_log r) → maybe_commit_by_vote m r = Done (r', u) →
  r_msgs r' = r_msgs r ∧ r_term r' = r_term r ∧ r_vote r' = r_vote r ∧
  (r_state r' = r_state r ∨ r_state r' = Follower) ∧
  l_committed (r_raft_log r') = (if bool_decide (brings_commit m r) then m_commit m else l_committed (r_raft_log r)).
Proof.
  intros Hok E. unfold maybe_commit_by_vote in E. unfold brings_commit.
  destruct (N.eqb_spec (m_commit m) 0); simpl in E.
  { inv_rm. split_and!; auto. rewrite bool_decide_eq_false_2; [done|]. lia. }
  destruct (N.eqb_spec (m_commit_term m) 0) as [|Hct]; simpl in E.
  { inv_rm. split_and!; auto. rewrite bool_decide_eq_false_2; [done|]. naive_solver. }
  apply rm_bind_Done in E as (r1 & lc & [-> ->]%rm_gets_Done & E).
  apply rm_bind_Done in E as (r1 & st & [-> ->]%rm_gets_Done & E).
  destruct (N.leb_spec (m_commit m) (l_committed (r_raft_log r))); simpl in E.
  { inv_rm. split_and!; auto. rewrite bool_decide_eq_false_2; [done|]. lia. }
  case_bool_decide as Hst.
  { inv_rm. split_and!; auto. rewrite bool_decide_eq_false_2; [done|]. naive_solver. }
  apply rm_bind_Done in E as (r1 & ok & (l & Em & ->)%rm_with_log_Done & E).
  destruct (maybe_commit_preserved (m_commit m) (m_commit_term m) (r_raft_log r) Hok Hct)
    as ([l' b] & E' & Hp & Hb & ->).
  rewrite E' in Em. injection Em as <- <-.
  rewrite (bool_decide_ext _ (l_committed (r_raft_log r) < m_commit m ∧ log_matches (r_raft_log r) (m_commit m) (m_commit_term m))) by naive_solver.
  rewrite <-Hb. destruct b; simpl in E.
  2: { inv_rm. simpl. split_and!; auto. }
  destruct (negb _ && negb _); [inv_rm; simpl; by split_and!; auto|].
  apply rm_bind_Done in E as (r1 & lo & [-> _]%rm_lift_Done & E).
  apply rm_bind_Done in E as (r1 & hi & [-> _]%rm_asks_Done & E).
  apply rm_bind_Done in E as (r1 & p & [st ->]%has_unapplied_store & E%rm_when_Done).
  destruct p; [|subst r'; simpl; by split_and!; auto].
  apply rm_bind_Done in E as (r2 & t & [-> ->]%rm_gets_Done & E).
  apply become_follower_spec in E as [[[_ Hms] Hs Ht Hv _ _ _ _] (_ & _ & _ & _ & ->)].
  rewrite Hms, Hs, Ht, Hv. unfold vote_in. simpl. rewrite N.eqb_refl. by split_and!; auto.
Qed.

(** A vote answer goes out as it is, with the node as its sender. *)
Lemma stamp_vote m t r m' :
  m_type m = t → t = MsgRequestVoteResponse ∨ t = MsgRequestPreVoteResponse → m_from m = INVALID_ID →
  stamp m r = Done m' → m' = set_m_from (r_id r) m ∧ m_term m ≠ 0.
Proof.
  intros Ht Hty Hf E. unfold stamp in E. rewrite Hf in E. simpl in E.
  destruct (N.eqb_spec (m_term m) 0); destruct Hty as [-> | ->]; rewrite Ht in E; simpl in E;
    try discriminate E; rewrite Ht in E; by simplify_eq.
Qed.

Lemma grant_vote_x m r lt :
  joined (r_raft_log r) → log_term (r_raft_log r) (log_end (r_raft_log r) - 1) = Ok lt →
  grant_vote m r = Done (bool_decide (vote_due m r lt)).
Proof.
  intros Hj Hlt. unfold grant_vote, vote_due.
  assert (can_vote m r = bool_decide (r_vote r = m_from m ∨ (r_vote r = INVALID_ID ∧ r_leader_id r = INVALID_ID) ∨
    (m_type m = MsgRequestPreVote ∧ r_term r < m_term m))) as ->.
  { unfold can_vote. apply eq_bool_prop_intro. rewrite bool_decide_spec. unfold Is_true.
    repeat case_bool; simpl; naive_solver lia. }
  case_bool_decide as Hc; simpl; [|by rewrite bool_decide_eq_false_2 by naive_solver].
  rewrite (is_up_to_date_x _ _ _ lt) by done. cbn [mbind outcome_bind].
  case_bool_decide as Hu; simpl; [|by rewrite bool_decide_eq_false_2 by naive_solver].
  rewrite last_index_spec by done. simpl. f_equal. apply eq_bool_prop_intro.
  rewrite bool_decide_spec. unfold Is_true.
  destruct (N.ltb_spec (log_end (r_raft_log r) - 1) (m_index m)), (Z.leb_spec (r_priority r) (get_priority m));
    simpl; naive_solver lia.
Qed.

(** C14: how a vote request is answered. The vote is granted exactly when
    [vote_due]; the answer then carries the term of the request, and a real vote
    is recorded and restarts the election clock. Otherwise the answer is a
    rejection with the node's own term and commit index; the vote and the term
    stay, and the commit index moves only to a position that the request names
    with the right term. In both cases the answer is the only message sent. *)
Theorem vote_request_spec m r r' res last_term t :
  log_ok (r_raft_log r) → log_term (r_raft_log r) (log_end (r_raft_log r) - 1) = Ok last_term →
  vote_resp_msg_type (m_type m) = Done t →
  step_handle m r = Done (r', res) →
  r_term r' = r_term r ∧
  if bool_decide (vote_due m r last_term) then
    r_msgs r' = r_msgs r ++ [yes_answer m t r] ∧ r_state r' = r_state r ∧ r_raft_log r' = r_raft_log r ∧
    (if bool_decide (m_type m = MsgRequestVote)
     then r_vote r' = m_from m ∧ r_election_elapsed r' = 0
     else r_vote r' = r_vote r ∧ r_election_elapsed r' = r_election_elapsed r)
  else
    r_vote r' = r_vote r ∧ (r_state r' = r_state r ∨ r_state r' = Follower) ∧
    (∃ ct, r_msgs r' = r_msgs r ++ [set_m_commit_term ct (no_answer m t r)] ∧
       log_term (r_raft_log r) (l_committed (r_raft_log r)) = Ok ct) ∧
    l_committed (r_raft_log r') = (if bool_decide (brings_commit m r) then m_commit m else l_committed (r_raft_log r)).
Proof.
  intros Hok Hlt Ht E. assert (handle_vote_request m r = Done (r', ())) as E'.
  { unfold step_handle in E. destruct (m_type m); try discriminate Ht;
      apply rm_bind_Done in E as (r1 & [] & E & [-> _]%rm_ret_Done); done. }
  clear E. unfold handle_vote_request in E'. rename E' into E.
  apply rm_bind_Done in E as (r1 & grant & [-> Hg]%rm_asks_Done & E).
  rewrite (grant_vote_x m r last_term) in Hg by (done || apply Hok). injection Hg as <-.
  apply rm_bind_Done in E as (r1 & resp & [-> Hr]%rm_lift_Done & E). assert (resp = t) as -> by congruence.
  assert (t = MsgRequestVoteResponse ∨ t = MsgRequestPreVoteResponse) as Htv
    by (destruct (m_type m); simplify_eq/=; auto).
  case_bool_decide as Hdue.
  - apply rm_bind_Done in E as (r1 & [] & (m' & Hs & ->)%send_spec & E%rm_when_Done).
    apply (stamp_vote _ t) in Hs as [-> Hnz]; [|done..].
    case_bool_decide; inv_rm; subst; done.
  - apply rm_bind_Done in E as (r1 & tm & [-> ->]%rm_gets_Done & E).
    apply rm_bind_Done in E as (r1 & [c ct] & [-> Hci]%rm_asks_Done & E).
    apply rm_bind_Done in E as (r1 & [] & (m' & Hs & ->)%send_spec & E).
    apply (stamp_vote _ t) in Hs as [-> Hnz]; [|done..].
    unfold commit_info in Hci. rewrite term_spec in Hci by apply Hok. cbn [mbind outcome_bind] in Hci.
    destruct (log_term _ (l_committed _)) eqn:Hcm; [|done]. simplify_eq.
    apply maybe_commit_by_vote_x in E as (Hms & Htm & Hv & Hst & Hc); [|done].
    split_and!; [done..|by exists ct|done].
Qed.

(** ** Messages that must not disturb a node *)

Definition asks_vote (m : Message) : Prop := m_type m = MsgRequestVote ∨ m_type m = MsgRequestPreVote.

(** The answer to a message of an earlier term, if it gets one. *)
Definition stale_answer (m : Message) r : list Message :=
  if bool_decide ((r_check_quorum r = true ∨ r_pre_vote r = true) ∧ (m_type m = MsgHeartbeat ∨ m_type m = MsgAppend))
  then [set_m_term (r_term r) (set_m_from (r_id r) (new_message (m_from m) MsgAppendResponse None))]
  else if bool_decide (m_type m = MsgRequestPreVote)
  then [set_m_reject true (set_m_term (r_term r)
          (set_m_from (r_id r) (new_message (m_from m) MsgRequestPreVoteResponse None)))]
  else [].

Lemma set_msgs_same r : set_r_msgs (r_msgs r) r = r.
Proof. by destruct r. Qed.

Lemma stale_message_x m r :
  m_term m ≠ 0 → m_term m < r_term r →
  step m r = Done (set_r_msgs (r_msgs r ++ stale_answer m r) r, Ok ()).
Proof.
  intros Hm Hlt. unfold step, step_term, mbind, rm_bind, gets, id. cbn [outcome_bind mbind].
  rewrite (proj2 (N.eqb_neq _ _) Hm), (proj2 (N.ltb_ge _ _)), (proj2 (N.ltb_lt _ _) Hlt) by lia.
  unfold stale_answer. set (b := (r_check_quorum r || r_pre_vote r) && _).
  assert (b = bool_decide ((r_check_quorum r = true ∨ r_pre_vote r = true) ∧ (m_type m = MsgHeartbeat ∨ m_type m = MsgAppend))) as <-.
  { apply eq_bool_prop_intro. rewrite bool_decide_spec. unfold b, Is_true.
    destruct (r_check_quorum r), (r_pre_vote r); simpl; repeat case_bool_decide; simpl; naive_solver. }
  destruct b; [done|]. case_bool_decide; simpl.
  - unfold rm_bind, send, stamp, asks, mbind. simpl. rewrite (proj2 (N.eqb_neq _ _)) by lia. done.
  - by rewrite app_nil_r, set_msgs_same.
Qed.

(** C25: what a vote request cannot do. A node that has heard from a leader within
    the election timeout ignores vote requests of later terms (unless leadership
    is being transferred); a pre-vote request never changes the term or the vote;
    and a message of an earlier term changes nothing: at most it is answered with
    the current term. *)
Theorem vote_requests_do_not_disturb m r :
  (asks_vote m → r_term r < m_term m → m_context m ≠ CAMPAIGN_TRANSFER → lease_active r = true →
     step m r = Done (r, Ok ())) ∧
  (∀ r' res, m_type m = MsgRequestPreVote → log_ok (r_raft_log r) → step m r = Done (r', res) →
     r_term r' = r_term r ∧ r_vote r' = r_vote r) ∧
  (m_term m ≠ 0 → m_term m < r_term r →
     step m r = Done (set_r_msgs (r_msgs r ++ stale_answer m r) r, Ok ())).
Proof.
  split_and!.
  - intros Hty Hlt Hctx Hl. unfold step, step_term, mbind, rm_bind, gets, id. cbn [outcome_bind mbind].
    rewrite (proj2 (N.eqb_neq _ _)), (proj2 (N.ltb_lt _ _) Hlt), Hl by lia.
    rewrite (bool_decide_eq_false_2 _ Hctx). destruct Hty as [-> | ->]; done.
  - intros r' res Hty Hok E. unfold step in E. apply rm_bind_Done in E as (r1 & c & Et & E).
    assert (r_term r1 = r_term r ∧ r_vote r1 = r_vote r ∧ (c = true → r1 = r)) as (Ht1 & Hv1 & Hc).
    { unfold step_term in Et. apply rm_bind_Done in Et as (r2 & self & [-> ->]%rm_gets_Done & Et). unfold id in Et.
      rewrite Hty in Et. destruct (m_term m =? 0); [inv_rm; done|]. destruct (r_term r <? m_term m).
      - destruct (_ && _); [by inv_rm|]. simpl in Et. inv_rm. done.
      - destruct (m_term m <? r_term r); [|inv_rm; done]. apply rm_bind_Done in Et as (r2 & [] & Es & [-> ->]%rm_ret_Done).
        rewrite andb_false_r in Es. simpl in Es. apply send_spec in Es as (m' & _ & ->). done. }
    destruct c; simpl in E; [|unfold ok_ in E; inv_rm; done]. rewrite (Hc eq_refl) in *. clear Hc.
    unfold step_handle in E. rewrite Hty in E. apply rm_bind_Done in E as (r2 & [] & E & [-> _]%rm_ret_Done).
    unfold handle_vote_request in E. apply rm_bind_Done in E as (r3 & g & [-> _]%rm_asks_Done & E).
    apply rm_bind_Done in E as (r3 & resp & [-> _]%rm_lift_Done & E). destruct g.
    + apply rm_bind_Done in E as (r3 & [] & (m' & _ & ->)%send_spec & E%rm_when_Done).
      rewrite Hty in E. simpl in E. by subst.
    + apply rm_bind_Done in E as (r3 & tm & [-> ->]%rm_gets_Done & E).
      apply rm_bind_Done in E as (r3 & [cc ct] & [-> _]%rm_asks_Done & E).
      apply rm_bind_Done in E as (r3 & [] & (m' & _ & ->)%send_spec & E).
      apply maybe_commit_by_vote_x in E as (_ & Ht & Hv & _); done.
  - apply stale_message_x.
Qed.

(** ** Check-quorum *)
Lemma dom_clear_activity id m : dom (clear_activity id m) = dom m.
Proof.
  apply set_eq. intros v. rewrite !elem_of_dom. unfold clear_activity. rewrite map_lookup_imap.
  destruct (m !! v); [|done]. split; by eexists.
Qed.

(** C26: the election-timeout check of a leader: it stays leader exactly when the
    peers that answered since the last check, with itself, are a majority of each
    half; otherwise it becomes a follower of its own term without a leader. Activity
    is counted afresh either way: afterwards no other peer of the same peers counts
    as heard from, and the node itself only as long as it leads. *)
Theorem check_quorum_spec m r r' res :
  m_type m = MsgCheckQuorum → m_term m = 0 → r_state r = Leader →
  joint_bounded (c_voters (pt_conf (r_prs r))) →
  step m r = Done (r', res) →
  res = Ok () ∧
  if bool_decide (joint_quorum_of (c_voters (pt_conf (r_prs r)))
                    (recently_active (r_id r) (pt_progress (r_prs r))))
  then r' = set_r_prs (set_pt_progress (clear_activity (r_id r) (pt_progress (r_prs r))) (r_prs r)) r
  else r_state r' = Follower ∧ r_term r' = r_term r ∧ r_vote r' = r_vote r ∧
       r_leader_id r' = INVALID_ID ∧ r_msgs r' = r_msgs r ∧
       dom (pt_progress (r_prs r')) = dom (pt_progress (r_prs r)) ∧
       ∀ id pr, pt_progress (r_prs r') !! id = Some pr → pr_recent_active pr = false.
Proof.
  intros Hty Ht Hst Hb E. unfold step in E.
  apply rm_bind_Done in E as (r1 & c & Et & E). unfold step_term in Et. rewrite Ht in Et.
  apply rm_bind_Done in Et as (r2 & self & [-> _]%rm_gets_Done & [-> ->]%rm_ret_Done).
  simpl in E. unfold step_handle in E. rewrite Hty in E.
  apply rm_bind_Done in E as (r2 & st & [-> ->]%rm_gets_Done & E). rewrite Hst in E.
  unfold step_leader in E. rewrite Hty in E.
  apply rm_bind_Done in E as (r2 & active & Hq & E). unfold check_quorum_active in Hq.
  apply rm_bind_Done in Hq as (r3 & i & [-> ->]%rm_gets_Done & (p & Hq & ->)%rm_with_prs_Done).
  rewrite quorum_recently_active_x in Hq by done. injection Hq as <- <-.
  unfold ok_ in E. apply rm_bind_Done in E as (r2 & [] & Hf%rm_when_Done & [-> ->]%rm_ret_Done).
  split; [done|]. case_bool_decide; simpl in Hf; [done|]. inv_rm.
  pose proof Hf as Hia%become_follower_inactive.
  apply become_follower_spec in Hf as [[[_ Hms _ _ Hdom] Hs Htm Hv Hl _ _ _] _]. simpl in *.
  split_and!; try done; [rewrite Hv; unfold vote_in; simpl; by rewrite N.eqb_refl|].
  rewrite Hdom. apply dom_clear_activity.
Qed.
End rules.
