(* ===== verification/RaftPropose.v ===== *)
(** * Proposals

    A leader numbers what is proposed to it and appends it to its log. At most one
    configuration change may be under way: a proposed change is turned into an
    empty entry while the last one may not have been applied yet. *)
From S2P Require Import Prelude Errors Proto Util Quorum Storage Unstable ReadOnly Config.
From S2P Require Import Progress Tracker RaftLog RaftLogSpec RaftLogReads LogTotal RaftState RaftSend RaftLogic.
From S2P Require Import RaftRole RaftStep RaftReset RaftTotal RaftEnds.
From S2P Require ConfChange.
#[local] Open Scope N_scope.

Section propose.
Context {S : Type} `{StorageLaws S, PbMessage, HashOrder, Rng, ConfChangeCodec}.
Implicit Types r : Raft S.

(** What becomes of a proposed entry: it is kept, or it is a configuration change
    that is dropped. *)
Definition screened (e e' : Entry) : Prop := e' = e ∨ (is_conf_change e = true ∧ e' = Entry_default).

Lemma entry_conf_change_type e : is_conf_change e = bool_decide (is_Some (entry_conf_change e)).
Proof.
  unfold is_conf_change, entry_conf_change. destruct (e_type e); by rewrite ?bool_decide_eq_true_2, ?bool_decide_eq_false_2 by (done || by intros [? ?]).
Qed.

(** While a change may be unapplied, every further one is dropped. *)
Lemma screen_pending i es r r' es' :
  has_pending_conf r = true → screen_entries i es r = Done (r', Ok es') →
  r' = r ∧ Forall2 screened es es' ∧ ∀ e, e ∈ es' → is_conf_change e = false.
Proof.
  intros Hp. revert i es' r'. induction es as [|e es IH]; intros i es' r' E; simpl in E.
  { inv_rm. simplify_eq. split_and!; [done..|]. by intros e ?%elem_of_nil. }
  destruct (entry_conf_change e) as [[cc|]|] eqn:Hcc.
  - apply rm_bind_Done in E as (r1 & b & [-> ->]%rm_gets_Done & E).
    unfold refuse_conf_change in E. rewrite Hp in E.
    apply rm_bind_Done in E as (r1 & e' & [-> ->]%rm_ret_Done & E).
    apply rm_bind_Done in E as (r1 & rest & E1 & [-> E2]%rm_ret_Done). destruct rest as [es1|]; [|done]. simplify_eq.
    apply IH in E1 as (-> & Hf & Hn). split_and!; [done| |].
    + constructor; [|done]. right. by rewrite entry_conf_change_type, Hcc.
    + intros e' [->|He]%elem_of_cons; [done|by apply Hn].
  - by inv_rm.
  - apply rm_bind_Done in E as (r1 & rest & E1 & [-> E2]%rm_ret_Done). destruct rest as [es1|]; [|done]. simplify_eq.
    apply IH in E1 as (-> & Hf & Hn). split_and!; [done|constructor; [by left|done]|].
    intros e' [->|He]%elem_of_cons; [|by apply Hn]. rewrite entry_conf_change_type, Hcc. by rewrite bool_decide_eq_false_2 by (by intros [? ?]).
Qed.

(** Otherwise at most one change gets through, and its position is remembered. *)
Lemma screen_free i es r r' es' :
  joined (r_raft_log r) → l_applied (r_raft_log r) < log_end (r_raft_log r) →
  has_pending_conf r = false → screen_entries i es r = Done (r', Ok es') →
  (∃ p, r' = set_r_pending_conf_index p r) ∧ Forall2 screened es es' ∧
  ((r' = r ∧ ∀ e, e ∈ es' → is_conf_change e = false) ∨
   ∃ k e, es' !! k = Some e ∧ r_pending_conf_index r' = log_end (r_raft_log r) + i + N.of_nat k ∧
     ∀ k' e', es' !! k' = Some e' → is_conf_change e' = true → k' = k).
Proof.
  intros Hj Ha Hp. revert i es' r'. induction es as [|e es IH]; intros i es' r' E; simpl in E.
  { inv_rm. simplify_eq. split_and!; [exists (r_pending_conf_index r); by destruct r|done|].
    left. split; [done|]. by intros e ?%elem_of_nil. }
  assert (∀ e' es1, Forall2 screened es es1 → screened e e' → is_conf_change e' = false →
    ((r' = r ∧ ∀ e, e ∈ es1 → is_conf_change e = false) ∨
     ∃ k e, es1 !! k = Some e ∧ r_pending_conf_index r' = log_end (r_raft_log r) + (i + 1) + N.of_nat k ∧
       ∀ k' e', es1 !! k' = Some e' → is_conf_change e' = true → k' = k) →
    Forall2 screened (e :: es) (e' :: es1) ∧
    ((r' = r ∧ ∀ e, e ∈ e' :: es1 → is_conf_change e = false) ∨
     ∃ k e, (e' :: es1) !! k = Some e ∧ r_pending_conf_index r' = log_end (r_raft_log r) + i + N.of_nat k ∧
       ∀ k' e1, (e' :: es1) !! k' = Some e1 → is_conf_change e1 = true → k' = k)) as Hcons.
  { intros e' es1 Hf Hs Hn [[-> Hno]|(k & e1 & Hk & Hpc & Hu)]; (split; [by constructor|]).
    - left. split; [done|]. intros e1 [->|He]%elem_of_cons; [done|by apply Hno].
    - right. exists (Datatypes.S k), e1. split_and!; [done|lia|].
      intros [|k'] e2 Hk' Hc; simplify_eq/=; [congruence|]. by rewrite (Hu k' e2). }
  destruct (entry_conf_change e) as [[cc|]|] eqn:Hcc.
  - apply rm_bind_Done in E as (r1 & b & [-> ->]%rm_gets_Done & E).
    destruct (refuse_conf_change cc r).
    + apply rm_bind_Done in E as (r1 & e' & [-> ->]%rm_ret_Done & E).
      apply rm_bind_Done in E as (r1 & rest & E1 & [-> E2]%rm_ret_Done). destruct rest as [es1|]; [|done]. simplify_eq.
      apply IH in E1 as (Hr & Hf & Hd). split; [done|]. apply Hcons; [done| |done|done].
      right. by rewrite entry_conf_change_type, Hcc.
    + apply rm_bind_Done in E as (r1 & e' & E1 & E).
      apply rm_bind_Done in E1 as (r2 & last & [-> Hl]%rm_asks_Done & E1).
      apply rm_bind_Done in E1 as (r2 & n & [-> Hn]%rm_lift_Done & E1).
      apply rm_bind_Done in E1 as (r2 & n2 & [-> Hn2]%rm_lift_Done & E1).
      apply rm_bind_Done in E1 as (r2 & [] & ->%rm_modify_Done & [-> ->]%rm_ret_Done).
      rewrite last_index_spec in Hl by done. injection Hl as <-.
      apply add64_Done in Hn as [_ ->]. apply add64_Done in Hn2 as [_ ->].
      pose proof (first_pos _ Hj). pose proof (first_le_end (r_raft_log r)).
      replace (log_end (r_raft_log r) - 1 + i + 1) with (log_end (r_raft_log r) + i) in E by lia.
      apply rm_bind_Done in E as (r1 & rest & E1 & [-> E2]%rm_ret_Done). destruct rest as [es1|]; [|done]. simplify_eq.
      apply screen_pending in E1 as (-> & Hf & Hn); [|unfold has_pending_conf; simpl; apply N.ltb_lt; lia].
      split_and!; [by eexists|constructor; [by left|done]|]. right. exists 0%nat, e. split_and!; [done|simpl; lia|].
      intros [|k'] e' Hk Hc; [done|]. simpl in Hk. apply list_elem_of_lookup_2, Hn in Hk. congruence.
  - by inv_rm.
  - apply rm_bind_Done in E as (r1 & rest & E1 & [-> E2]%rm_ret_Done). destruct rest as [es1|]; [|done]. simplify_eq.
    apply IH in E1 as (Hr & Hf & Hd). split; [done|]. apply Hcons; [done|by left| |done].
    rewrite entry_conf_change_type, Hcc. by rewrite bool_decide_eq_false_2 by (by intros [? ?]).
Qed.

Lemma numbered_conf_change e e' : e_type e' = e_type e → is_conf_change e' = is_conf_change e.
Proof. unfold is_conf_change. by intros ->. Qed.

(** No configuration change lies beyond [pending_conf_index]. *)
Definition conf_bounded r : Prop :=
  ∀ e, e ∈ ents (r_raft_log r) → is_conf_change e = true → e_index e ≤ r_pending_conf_index r.

(** The entry stands at its proper place, with the leader's term and either the
    proposed payload or none. *)
Definition recorded r (proposed e : Entry) (k : nat) : Prop :=
  e_index e = log_end (r_raft_log r) + N.of_nat k ∧ e_term e = r_term r ∧
  ((e_type e = e_type proposed ∧ e_data e = e_data proposed ∧ e_context e = e_context proposed) ∨
   (is_conf_change proposed = true ∧ e_type e = EntryNormal ∧ e_data e = [] ∧ e_context e = [])).

Lemma propose_x m r r' :
  joined (r_raft_log r) → l_applied (r_raft_log r) < log_end (r_raft_log r) →
  propose m r = Done (r', Ok ()) →
  ∃ new, ents (r_raft_log r') = ents (r_raft_log r) ++ new ∧ joined (r_raft_log r') ∧
    l_applied (r_raft_log r') = l_applied (r_raft_log r) ∧
    length new = length (m_entries m) ∧
    (∀ k e, new !! k = Some e → ∃ e0, m_entries m !! k = Some e0 ∧ recorded r e0 e k) ∧
    ((r_pending_conf_index r' = r_pending_conf_index r ∧ ∀ e, e ∈ new → is_conf_change e = false) ∨
     (has_pending_conf r = false ∧ ∃ e, e ∈ new ∧ r_pending_conf_index r' = e_index e ∧
        ∀ e', e' ∈ new → is_conf_change e' = true → e_index e' = e_index e)).
Proof.
  intros Hj Ha E. unfold propose in E. case_bool_decide; [done|].
  apply rm_bind_Done in E as (r1 & i & [-> ->]%rm_gets_Done & E).
  apply rm_bind_Done in E as (r1 & pr & [-> ->]%rm_gets_Done & E).
  apply rm_bind_Done in E as (r1 & tr & [-> ->]%rm_gets_Done & E).
  case_bool_decide; [by inv_rm|]. case_bool_decide; [by inv_rm|].
  apply rm_bind_Done in E as (r1 & res & Hs & E). destruct res as [es|]; [|by inv_rm].
  assert ((∃ p, r1 = set_r_pending_conf_index p r) ∧ Forall2 screened (m_entries m) es ∧
    ((r1 = r ∧ ∀ e, e ∈ es → is_conf_change e = false) ∨
     (has_pending_conf r = false ∧ ∃ k e, es !! k = Some e ∧
       r_pending_conf_index r1 = log_end (r_raft_log r) + N.of_nat k ∧
       ∀ k' e', es !! k' = Some e' → is_conf_change e' = true → k' = k))) as ([p ->] & Hf & Hd).
  { destruct (has_pending_conf r) eqn:Hp.
    - apply screen_pending in Hs as (-> & ? & ?); [|done]. split_and!; [exists (r_pending_conf_index r); by destruct r|done|by left].
    - apply screen_free in Hs as (? & ? & Hd); [|done..]. split_and!; [done..|].
      destruct Hd as [?|(k & e & ? & ? & ?)]; [by left|right]. split; [done|]. exists k, e. split_and!; [done|lia|done]. }
  apply rm_bind_Done in E as (r2 & ok & Hap & E). destruct ok; simpl in E; [|by inv_rm].
  apply append_entry_spec in Hap as (us & l & -> & _ & li & new & i & Hli & Hnew & Hl). simpl in *.
  apply rm_bind_Done in E as (r3 & [] & Hb & [-> _]%rm_ret_Done).
  rewrite last_index_spec in Hli by done. injection Hli as <-.
  pose proof (first_pos _ Hj). pose proof (first_le_end (r_raft_log r)).
  apply number_entries_contiguous in Hnew as Hc. replace (_ - 1 + 1 + 0) with (log_end (r_raft_log r)) in Hc by lia.
  apply append_end in Hl as (Hj' & Hents & Hfst & _ & Hl'); [|done..].
  pose proof (sends_conf _ _ (bcast_append_sends _ _ _ Hb)) as Hpc. simpl in Hpc.
  apply bcast_append_quiet in Hb as Hq. specialize (Hq Hj'). simpl in Hq.
  apply number_entries_spec in Hnew as Hnum. pose proof (Forall2_length _ _ _ Hnum) as Hlen1. pose proof (Forall2_length _ _ _ Hf) as Hlen2.
  exists new. split_and!.
  - destruct (same_log_ents _ _ Hq) as (_ & _ & -> & _). done.
  - by apply (same_log_joined l).
  - destruct Hq as [_ _ _ _ _ _ _ -> _]. by rewrite Hl'.
  - congruence.
  - intros k e Hk. destruct (Forall2_lookup_r _ _ _ _ _ Hnum Hk) as (e1 & Hk1 & Ht & Hda & Hcx & Htm).
    destruct (Forall2_lookup_r _ _ _ _ _ Hf Hk1) as (e0 & Hk0 & Hsc). exists e0. split; [done|]. split_and!; [by apply Hc|done|].
    destruct Hsc as [-> |[? ->]]; [by left|by right].
  - rewrite Hpc. assert (∀ e, e ∈ new → ∃ k e1, new !! k = Some e ∧ es !! k = Some e1 ∧ is_conf_change e = is_conf_change e1) as Hback.
    { intros e [k Hk]%list_elem_of_lookup. destruct (Forall2_lookup_r _ _ _ _ _ Hnum Hk) as (e1 & Hk1 & Ht & _).
      exists k, e1. split_and!; [done..|by apply numbered_conf_change]. }
    destruct Hd as [[Hr Hno]|(Hp & k & e & Hk & Hpi & Hu)].
    + left. split; [exact (f_equal r_pending_conf_index Hr)|]. intros e (k & e1 & _ & Hk1 & ->)%Hback. by eapply Hno, list_elem_of_lookup_2.
    + right. split; [done|]. destruct (Forall2_lookup_l _ _ _ _ _ Hnum Hk) as (e1 & Hk1 & _).
      exists e1. split_and!; [by eapply list_elem_of_lookup_2|rewrite (Hc _ _ Hk1); done|].
      intros e' (k' & e2 & Hk' & Hk2 & Heq)%Hback Hcc. rewrite Heq in Hcc.
      assert (k' = k) as -> by (by eapply Hu). by rewrite (Hc _ _ Hk'), (Hc _ _ Hk1).
Qed.

(** All unapplied configuration changes in the log are one and the same entry. *)
Definition one_pending r : Prop := ∀ e1 e2,
  e1 ∈ ents (r_raft_log r) → e2 ∈ ents (r_raft_log r) → is_conf_change e1 = true → is_conf_change e2 = true →
  l_applied (r_raft_log r) < e_index e1 → l_applied (r_raft_log r) < e_index e2 → e_index e1 = e_index e2.

Lemma ents_below_end l e : joined l → e ∈ ents l → e_index e < log_end l.
Proof.
  intros Hj [k Hk]%list_elem_of_lookup. rewrite (ents_contiguous l Hj _ _ Hk).
  apply lookup_lt_Some in Hk. unfold log_end, len. lia.
Qed.

Lemma become_leader_bounded r r' u :
  joined (r_raft_log r) → become_leader r = Done (r', u) → conf_bounded r'.
Proof.
  intros Hj E. apply become_leader_spec in E as (_ & _ & _ & last & es & i & us & Hl & _ & Hpc & Hes & Hap & _).
  rewrite last_index_spec in Hl by done. injection Hl as <-.
  pose proof (first_pos _ Hj). pose proof (first_le_end (r_raft_log r)).
  apply number_entries_contiguous in Hes as Hc. replace (_ - 1 + 1 + 0) with (log_end (r_raft_log r)) in Hc by lia.
  apply append_end in Hap as (_ & Hents & _); [|done..].
  intros e He Hcc. rewrite Hents in He. rewrite Hpc. apply elem_of_app in He as [He|[k Hk]%list_elem_of_lookup].
  - apply (ents_below_end _ _ Hj) in He. lia.
  - apply number_entries_spec in Hes. destruct (Forall2_lookup_r _ _ _ _ _ Hes Hk) as (e0 & He0 & Ht & _).
    apply list_elem_of_lookup_2, list_elem_of_singleton in He0 as ->. by rewrite (numbered_conf_change _ _ Ht) in Hcc.
Qed.

(** C17: one configuration change at a time. [become_leader] puts
    [pending_conf_index] at or above every change in the log. A proposal that is
    accepted extends the log by the proposed entries, numbered in order and in the
    leader's term, except that a configuration change may be replaced by an empty
    entry: always while the last one may be unapplied, and then never more than
    one gets through. So the changes in the log stay at or below
    [pending_conf_index], and no two different ones are unapplied. *)
Theorem single_conf_change m r r' :
  joined (r_raft_log r) → l_applied (r_raft_log r) < log_end (r_raft_log r) →
  (∀ u, become_leader r = Done (r', u) → conf_bounded r') ∧
  (conf_bounded r → propose m r = Done (r', Ok ()) →
   (∃ new, ents (r_raft_log r') = ents (r_raft_log r) ++ new ∧ length new = length (m_entries m) ∧
      (∀ k e, new !! k = Some e → ∃ e0, m_entries m !! k = Some e0 ∧ recorded r e0 e k) ∧
      (has_pending_conf r = true → ∀ e, e ∈ new → is_conf_change e = false)) ∧
   conf_bounded r' ∧ (has_pending_conf r = false ∨ one_pending r → one_pending r')).
Proof.
  intros Hj Ha. split; [intros u; by apply become_leader_bounded|]. intros Hb E.
  apply propose_x in E as (new & Hents & Hj' & Happ & Hlen & Hrec & Hd); [|done..].
  assert (∀ e, e ∈ new → log_end (r_raft_log r) ≤ e_index e) as Hnew.
  { intros e [k Hk]%list_elem_of_lookup. destruct (Hrec _ _ Hk) as (_ & _ & Hi & _). lia. }
  split_and!.
  - exists new. split_and!; [done..|]. intros Hp. destruct Hd as [[_ ?]|[? _]]; [done|congruence].
  - intros e He Hcc. rewrite Hents in He. apply elem_of_app in He as [He|He].
    + pose proof (Hb e He Hcc). pose proof (ents_below_end _ _ Hj He).
      destruct Hd as [[-> _]|(_ & e1 & He1 & -> & _)]; [done|]. specialize (Hnew _ He1). lia.
    + destruct Hd as [[_ Hn]|(_ & e1 & _ & -> & Hu)]; [by rewrite Hn in Hcc|]. by rewrite (Hu e).
  - intros Hone e1 e2. rewrite Hents, Happ. intros H1' H2' Hc1 Hc2 Ha1 Ha2.
    assert (∀ e, e ∈ ents (r_raft_log r) → is_conf_change e = true → l_applied (r_raft_log r) < e_index e →
      has_pending_conf r = true) as Hold.
    { intros e He Hc Hlt. apply N.ltb_lt. pose proof (Hb e He Hc). lia. }
    apply elem_of_app in H1' as [H1'|H1'], H2' as [H2'|H2'].
    1: { destruct Hone as [Hp|Hone]; [pose proof (Hold e1 H1' Hc1 Ha1); congruence|by apply Hone]. }
    all: destruct Hd as [[_ Hn]|(Hp & e & _ & _ & Hu)];
      [solve [rewrite (Hn e1) in Hc1 by done; done|rewrite (Hn e2) in Hc2 by done; done]|].
    + by rewrite (Hold e1 H1' Hc1 Ha1) in Hp.
    + by rewrite (Hold e2 H2' Hc2 Ha2) in Hp.
    + by rewrite (Hu e1), (Hu e2).
Qed.
End propose.
