(* ===== verification/RaftTick.v ===== *)
(** * The election clock

    Without news from a leader a node starts an election when its randomized
    timeout has run out, and not before. *)
From S2P Require Import Prelude Errors Proto Util Quorum Storage Unstable ReadOnly Config.
From S2P Require Import Majority Joint Progress Tracker RaftLog RaftLogSpec RaftState RaftSend RaftLogic.
From S2P Require Import RaftRole RaftStep RaftReset.
#[local] Open Scope N_scope.

Section tick.
Context {S : Type} `{StorageLaws S, PbMessage, HashOrder, Rng, ConfChangeCodec}.
Implicit Types r : Raft S.

(** [n] ticks in a row. *)
Fixpoint ticks (n : nat) r : outcome (Raft S) :=
  match n with
  | O => Done r
  | Datatypes.S n => '(r, _) ← tick r; ticks n r
  end.

(** A voter that follows, campaigns without a pre-vote, and has applied what is
    committed, so that no configuration change can be pending. *)
Record waits r : Prop := {
  wt_role : r_state r = Follower;
  wt_promotable : r_promotable r = true;
  wt_pre_vote : r_pre_vote r = false;
  wt_log : joined (r_raft_log r);
  wt_applied : l_committed (r_raft_log r) ≤ l_applied (r_raft_log r) < u64_max;
  wt_clock : r_election_elapsed r < r_randomized_election_timeout r ≤ u64_max;
  wt_timeouts : r_min_election_timeout r < r_max_election_timeout r;
  wt_term : r_term r < u64_max }.

(** Before the timeout a tick only counts. *)
Lemma tick_counts r :
  waits r → r_election_elapsed r + 1 < r_randomized_election_timeout r →
  tick r = Done (set_r_election_elapsed (r_election_elapsed r + 1) r, false) ∧
  waits (set_r_election_elapsed (r_election_elapsed r + 1) r).
Proof.
  intros [Hst Hp Hpv Hl Ha [Hc1 Hc2] Ht Htm] Hlt. split; [|constructor; simpl; try done; lia].
  unfold tick, tick_election, mbind, rm_bind, gets, asks, modify. cbn [mbind outcome_bind]. rewrite Hst.
  rewrite add64_ok by lia. cbn [mbind outcome_bind].
  unfold pass_election_timeout. simpl. rewrite (proj2 (N.leb_gt _ _)) by lia. done.
Qed.
Lemma ticks_count n r :
  waits r → r_election_elapsed r + N.of_nat n < r_randomized_election_timeout r →
  ticks n r = Done (set_r_election_elapsed (r_election_elapsed r + N.of_nat n) r) ∧
  waits (set_r_election_elapsed (r_election_elapsed r + N.of_nat n) r).
Proof.
  revert r. induction n as [|n IH]; intros r Hw Hlt.
  { rewrite N.add_0_r. assert (set_r_election_elapsed (r_election_elapsed r) r = r) as -> by (by destruct r). done. }
  destruct (tick_counts r Hw) as [Ht Hw']; [lia|]. cbn [ticks]. rewrite Ht. cbn [mbind outcome_bind].
  destruct (IH _ Hw') as [-> Hw'']; [simpl in *; lia|]. simpl in *.
  replace (r_election_elapsed r + N.of_nat (Datatypes.S n)) with (r_election_elapsed r + 1 + N.of_nat n) by lia. done.
Qed.
Lemma ticks_app n m r : ticks (n + m) r = r ← ticks n r; ticks m r.
Proof.
  revert r. induction n as [|n IH]; intros r; [done|]. cbn [ticks Nat.add].
  destruct (tick r) as [[r1 b]| |]; [apply IH|done..].
Qed.

(** ** The campaign returns *)

Lemma for_progress_list_total f l r :
  (∀ id pr, ∃ pr', f id pr = Done pr') →
  ∃ r', for_progress_list (λ id pr, lift (f id pr)) l r = Done (r', ()).
Proof.
  intros Hf. revert r. induction l as [|[id pr] l IH]; intros r; [by exists r|]. simpl.
  destruct (Hf id pr) as [pr' Hpr]. unfold mbind, rm_bind, lift. rewrite Hpr. cbn [mbind outcome_bind].
  apply IH.
Qed.
Lemma run_bind {A B} (m : rm S A) (f : A → rm S B) r r1 a : m r = Done (r1, a) → (m ≫= f) r = f a r1.
Proof. intros Hm. unfold mbind, rm_bind. by rewrite Hm. Qed.
Lemma total_bind {A B} (m : rm S A) (f : A → rm S B) r r1 a b :
  m r = Done (r1, a) → (∃ r', f a r1 = Done (r', b)) → ∃ r', (m ≫= f) r = Done (r', b).
Proof. intros Hm [r' Hf]. exists r'. unfold mbind, rm_bind. by rewrite Hm. Qed.

(** The loop over the peers and what it needs of the log. *)
Lemma reset_progress_total r :
  joined (r_raft_log r) → ∃ r',
    (last_index ← asks (λ r, RaftLog.last_index (r_raft_log r));
     committed ← gets (λ r, l_committed (r_raft_log r));
     persisted ← gets (λ r, l_persisted (r_raft_log r));
     self_id ← gets r_id;
     for_progress (λ id pr, lift (reset_progress last_index committed persisted self_id id pr))) r = Done (r', ()).
Proof.
  intros Hj. pose proof (log_end_bound _ Hj). pose proof (first_pos _ Hj). pose proof (first_le_end (r_raft_log r)).
  eapply total_bind; [unfold asks; by rewrite last_index_spec|].
  do 3 (eapply total_bind; [reflexivity|]). unfold for_progress. eapply total_bind; [reflexivity|].
  apply for_progress_list_total. intros id pr. unfold reset_progress. rewrite add64_ok by lia. by eexists.
Qed.
Lemma reset_total t r :
  joined (r_raft_log r) → r_min_election_timeout r < r_max_election_timeout r →
  ∃ r', reset t r = Done (r', ()).
Proof.
  intros Hj Ht. unfold reset. eapply total_bind; [reflexivity|].
  assert (∃ r1, when (negb (r_term r =? t)) (modify (set_r_term t);; modify (set_r_vote INVALID_ID)) r = Done (r1, ()) ∧
    r_raft_log r1 = r_raft_log r ∧ r_min_election_timeout r1 = r_min_election_timeout r ∧
    r_max_election_timeout r1 = r_max_election_timeout r) as (r1 & Hw & Hl & Hmin & Hmax).
  { destruct (negb _); by eexists. }
  eapply total_bind; [exact Hw|]. clear Hw. eapply total_bind; [reflexivity|].
  eapply total_bind.
  { unfold reset_randomized_election_timeout, mbind, rm_bind, asks. simpl.
    rewrite Hmin, Hmax, (proj2 (N.ltb_lt _ _) Ht). reflexivity. }
  do 7 (eapply total_bind; [reflexivity|]). apply reset_progress_total. simpl. by rewrite Hl.
Qed.
Lemma become_candidate_total r :
  joined (r_raft_log r) → r_min_election_timeout r < r_max_election_timeout r → r_term r < u64_max → r_state r ≠ Leader →
  ∃ r', become_candidate r = Done (r', ()).
Proof.
  intros Hj Ht Htm Hst. unfold become_candidate, assert_state_ne, mbind, rm_bind, asks, modify.
  rewrite bool_decide_eq_false_2 by done. cbn [mbind outcome_bind assert negb]. rewrite add64_ok by lia. cbn [mbind outcome_bind].
  destruct (reset_total (r_term r + 1) r Hj Ht) as [r1 ->]. by eexists.
Qed.

Lemma tally_votes_result p res :
  N.of_nat (size (pt_votes p)) ≤ u64_max → vote_result (pt_votes p) p = Done res →
  ∃ g rj, tally_votes p = Done (g, rj, res).
Proof.
  intros Hv Hr. unfold tally_votes.
  assert (len (iter_map (pt_votes p)) ≤ u64_max) as Hl by (unfold len; by rewrite length_iter_map).
  rewrite tally_loop_spec by lia. cbn [mbind outcome_bind]. rewrite Hr. cbn [mbind outcome_bind]. eauto.
Qed.

(** The request that asks for a vote, as it leaves the node. *)
Definition vote_request r (term last_index last_term committed committed_term to : u64) : Message :=
  let m := set_m_term term (set_m_from (r_id r) (new_message to MsgRequestVote None)) in
  let m := set_m_commit_term committed_term (set_m_commit committed (set_m_log_term last_term (set_m_index last_index m))) in
  set_m_priority (r_priority r)
    (if (0 <? r_priority r)%Z then set_m_deprecated_priority (Z.to_N (r_priority r)) m else m).

Lemma send_request r term li lt committed ct to :
  term ≠ 0 →
  send (set_m_commit_term ct (set_m_commit committed (set_m_log_term lt (set_m_index li
          (set_m_term term (new_message to MsgRequestVote None)))))) r =
  Done (set_r_msgs (r_msgs r ++ [vote_request r term li lt committed ct to]) r, ()).
Proof.
  intros Htm. apply N.eqb_neq in Htm.
  assert (∀ m, is_vote_msg (m_type m) = true → m_type m = MsgRequestVote → m_from m = INVALID_ID → m_term m = term →
    stamp m r = Done (set_m_priority (r_priority r)
      (if (0 <? r_priority r)%Z then set_m_deprecated_priority (Z.to_N (r_priority r)) (set_m_from (r_id r) m)
       else set_m_from (r_id r) m))) as Hs.
  { intros m Hv Hty Hf Hm. unfold stamp. rewrite Hf, N.eqb_refl. cbv zeta.
    assert (m_type (set_m_from (r_id r) m) = MsgRequestVote) as Hty' by done.
    assert (m_term (set_m_from (r_id r) m) = term) as Hm' by done.
    generalize dependent (set_m_from (r_id r) m). intros m' Hty' Hm'. rewrite Hty', Hm', Htm. simpl. by rewrite Hty'. }
  unfold send, push_msg, mbind, rm_bind, asks, modify. rewrite Hs by done. reflexivity.
Qed.
Lemma request_votes_total r term committed ct lt ids :
  joined (r_raft_log r) → term ≠ 0 → log_term (r_raft_log r) (log_end (r_raft_log r) - 1) = Ok lt →
  request_votes MsgRequestVote term committed ct false ids r =
    Done (set_r_msgs (r_msgs r ++ (vote_request r term (log_end (r_raft_log r) - 1) lt committed ct
                                     <$> filter (.≠ r_id r) ids)) r, ()).
Proof.
  intros Hj Htm Hlt.
  assert (last_term (r_raft_log r) = Done lt) as Hlast
    by (unfold last_term; rewrite last_index_spec by done; simpl; rewrite term_spec by done; simpl; by rewrite Hlt).
  revert r Hj Hlt Hlast. induction ids as [|id ids IH]; intros r Hj Hlt Hlast.
  { simpl. rewrite app_nil_r. by destruct r. }
  cbn [request_votes]. rewrite (run_bind (gets r_id) _ _ r (r_id r)) by done. rewrite filter_cons.
  destruct (N.eqb_spec id (r_id r)) as [->|Hne].
  - rewrite decide_False by naive_solver. rewrite (run_bind (mret ()) _ _ r ()) by done. by apply IH.
  - rewrite decide_True by done. erewrite run_bind.
    2: { rewrite (run_bind _ _ _ r (log_end (r_raft_log r) - 1)) by (unfold asks; by rewrite last_index_spec).
         rewrite (run_bind _ _ _ r lt) by (unfold asks; by rewrite Hlast). by apply send_request. }
    rewrite IH by done. rewrite fmap_cons. simpl. by rewrite <-app_assoc.
Qed.

(** ** The election *)

(** The other voters, of either half. *)
Definition other_voters r : list u64 :=
  filter (.≠ r_id r) (Union_iter (Joint.ids (c_voters (pt_conf (r_prs r))))).

(** [r'] campaigns in the term after that of [r]: it has voted for itself only,
    and every other voter has been asked once. *)
Record campaigns lt ct r r' : Prop := {
  cp_role : r_state r' = Candidate;
  cp_term : r_term r' = r_term r + 1;
  cp_vote : r_vote r' = r_id r;
  cp_leader : r_leader_id r' = INVALID_ID;
  cp_votes : pt_votes (r_prs r') = {[r_id r := true]};
  cp_log : r_raft_log r' = r_raft_log r;
  cp_msgs : r_msgs r' = r_msgs r ++
    (vote_request r (r_term r + 1) (log_end (r_raft_log r) - 1) lt (l_committed (r_raft_log r)) ct <$> other_voters r) }.

(** The own vote alone does not decide the election. *)
Definition needs_others r : Prop := vote_result {[r_id r := true]} (r_prs r) = Done Pending.

Lemma vote_request_node r1 r2 t li lt c ct to :
  r_id r1 = r_id r2 → r_priority r1 = r_priority r2 → vote_request r1 t li lt c ct to = vote_request r2 t li lt c ct to.
Proof. intros E1 E2. unfold vote_request. by rewrite E1, E2. Qed.

Lemma campaign_starts r lt ct :
  joined (r_raft_log r) → r_min_election_timeout r < r_max_election_timeout r → r_term r < u64_max → r_state r ≠ Leader →
  log_term (r_raft_log r) (log_end (r_raft_log r) - 1) = Ok lt →
  log_term (r_raft_log r) (l_committed (r_raft_log r)) = Ok ct → needs_others r →
  ∃ r', campaign CAMPAIGN_ELECTION r = Done (r', ()) ∧ campaigns lt ct r r'.
Proof.
  intros Hj Ht Htm Hst Hlt Hct Hn. unfold campaign. cbn [campaign_at].
  rewrite (bool_decide_eq_false_2 (CAMPAIGN_ELECTION = CAMPAIGN_PRE_ELECTION)) by done.
  destruct (become_candidate_total r Hj Ht Htm Hst) as [r1 Hr1].
  erewrite run_bind; [|by rewrite (run_bind _ _ _ _ _ Hr1), (run_bind (gets r_term) _ _ r1 (r_term r1)) by done].
  apply become_candidate_spec in Hr1 as ([Hsn Hs1 Ht1 Hv1 Hl1 Hvs1 _ _] & _ & Hlog & _).
  destruct Hsn as [Hid Hms _ Hconf _ _ _ _ _ Hprio _ _].
  set (p1 := record_vote (r_id r) true (r_prs r1)). set (r2 := set_r_prs p1 r1).
  assert (pt_votes p1 = {[r_id r := true]} ∧ pt_conf p1 = pt_conf (r_prs r)) as [Hvs2 Hconf2].
  { unfold p1, record_vote. rewrite Hvs1, lookup_empty. simpl. split; [done|by rewrite Hconf]. }
  assert (vote_result (pt_votes p1) p1 = Done Pending) as Hpend
    by (unfold vote_result; rewrite Hvs2, Hconf2; exact Hn).
  destruct (tally_votes_result p1 Pending) as (g & rj & Htally); [rewrite Hvs2, map_size_singleton; done|done|].
  assert (∀ again, poll_with again (r_id r) true r1 = Done (r2, Pending)) as Hpoll.
  { intros again. unfold poll_with. rewrite (run_bind _ _ _ r2 ()) by done.
    rewrite (run_bind _ _ _ r2 (g, rj, Pending)) by (unfold asks; simpl; fold p1; by rewrite Htally). done. }
  rewrite (run_bind (gets r_id) _ _ r1 (r_id r)) by (unfold gets; by rewrite Hid). rewrite (run_bind _ _ _ _ _ (Hpoll _)).
  rewrite (bool_decide_eq_false_2 (Pending = Won)), (bool_decide_eq_false_2 (CAMPAIGN_ELECTION = CAMPAIGN_TRANSFER)) by done.
  assert (r_raft_log r2 = r_raft_log r) as Hlog2 by done.
  rewrite (run_bind _ _ _ r2 (l_committed (r_raft_log r), ct)).
  2: { unfold asks. rewrite Hlog2. unfold commit_info. rewrite term_spec by done. simpl. by rewrite Hct. }
  rewrite (run_bind _ _ _ r2 (Union_iter (Joint.ids (c_voters (pt_conf (r_prs r)))))) by (unfold gets; simpl; by rewrite Hconf2).
  rewrite Ht1, (request_votes_total r2 _ _ _ lt) by (rewrite ?Hlog2; done || lia).
  eexists. split; [done|]. rewrite Hlog2. unfold r2. constructor; simpl; try done.
  rewrite Hms, Hid. f_equal. apply list_fmap_ext. intros _ v _. by apply vote_request_node.
Qed.

(** The tick that reaches the timeout starts the campaign. *)
Lemma tick_fires r lt ct :
  waits r → r_election_elapsed r + 1 = r_randomized_election_timeout r →
  log_term (r_raft_log r) (log_end (r_raft_log r) - 1) = Ok lt →
  log_term (r_raft_log r) (l_committed (r_raft_log r)) = Ok ct → needs_others r →
  ∃ r', tick r = Done (r', true) ∧ campaigns lt ct (set_r_election_elapsed 0 r) r'.
Proof.
  intros [Hst Hp Hpv Hl Ha [Hc1 Hc2] Ht Htm] Heq Hlt Hct Hn.
  set (r1 := set_r_election_elapsed 0 r).
  destruct (campaign_starts r1 lt ct) as (r' & Hr' & Hcp); [done|done|done|by simpl; rewrite Hst|done..|].
  exists r'. split; [|done].
  assert (hup false r1 = Done (r', ())) as Hhup.
  { unfold hup. rewrite (run_bind (gets r_state) _ _ r1 Follower) by (unfold gets; by rewrite <-Hst).
    rewrite bool_decide_eq_false_2 by done. pose proof (jo_unstable _ Hl) as Hu.
    assert (∃ low, (i ← maybe_first_index (l_unstable (r_raft_log r)); match i with Some idx => Done idx
      | None => l_applied (r_raft_log r) +! 1 end) = Done low) as [low Hlow].
    { rewrite maybe_first_index_spec by done. simpl. destruct (u_snapshot _); simpl; [by eexists|].
      rewrite add64_ok by lia. by eexists. }
    rewrite (run_bind _ _ _ r1 low) by (unfold asks; simpl; by rewrite Hlow).
    rewrite (run_bind _ _ _ r1 (l_committed (r_raft_log r) + 1)) by (unfold asks; simpl; by rewrite add64_ok by lia).
    rewrite (run_bind _ _ _ r1 false).
    2: { unfold has_unapplied_conf_changes. rewrite (run_bind _ _ _ r1 true); [done|].
         unfold gets. simpl. by rewrite (proj2 (N.leb_le _ _)) by lia. }
    rewrite (run_bind (gets r_pre_vote) _ _ r1 false) by (unfold gets; by rewrite <-Hpv). done. }
  assert (step (new_message INVALID_ID MsgHup (Some (r_id r1))) r1 = Done (r', Ok ())) as Hstep.
  { unfold step. rewrite (run_bind _ _ _ r1 true) by done. simpl.
    unfold step_handle. simpl. rewrite (run_bind _ _ _ r' ()) by done. done. }
  unfold tick. rewrite (run_bind (gets r_state) _ _ r Follower) by (unfold gets; by rewrite Hst).
  unfold tick_election. rewrite (run_bind _ _ _ r (r_election_elapsed r + 1)) by (unfold asks; by rewrite add64_ok by lia).
  rewrite (run_bind _ _ _ (set_r_election_elapsed (r_election_elapsed r + 1) r) ()) by done.
  rewrite (run_bind _ _ _ (set_r_election_elapsed (r_election_elapsed r + 1) r) true).
  2: { unfold gets, pass_election_timeout. simpl. by rewrite (proj2 (N.leb_le _ _)), Hp by lia. }
  simpl. rewrite (run_bind _ _ _ r1 ()) by (by destruct r).
  rewrite (run_bind _ _ _ r' ()); [done|]. unfold step_self.
  rewrite (run_bind (gets r_id) _ _ r1 (r_id r1)) by done. by rewrite (run_bind _ _ _ _ _ Hstep).
Qed.
End tick.

(** C18: elections start on time. A node that hears nothing only counts ticks
    until its randomized timeout (between the configured bounds) has run out;
    the tick that reaches it makes the node a candidate of the next term that has
    voted for itself, forgets its leader, and asks every other voter exactly
    once, with the position and term of its last entry. *)
Theorem election_starts {S} `{StorageLaws S, PbMessage, HashOrder, Rng, ConfChangeCodec} (r : Raft S) lt ct n :
  waits r → needs_others r →
  log_term (r_raft_log r) (log_end (r_raft_log r) - 1) = Ok lt →
  log_term (r_raft_log r) (l_committed (r_raft_log r)) = Ok ct →
  r_election_elapsed r + N.of_nat n = r_randomized_election_timeout r →
  (∀ k, (k < n)%nat → ticks k r = Done (set_r_election_elapsed (r_election_elapsed r + N.of_nat k) r)) ∧
  ∃ r', ticks n r = Done r' ∧ campaigns lt ct r r'.
Proof.
  intros Hw Hn Hlt Hct Heq. split; [intros k Hk; apply ticks_count; [done|lia]|].
  destruct n as [|n]; [destruct Hw; lia|]. destruct (ticks_count n r Hw) as [Hcount Hw']; [lia|].
  destruct (tick_fires _ lt ct Hw') as (r' & Hr' & Hcp); [simpl; lia|done..|].
  exists r'. replace (Datatypes.S n) with (n + 1)%nat by lia. rewrite ticks_app, Hcount. cbn [mbind outcome_bind ticks].
  rewrite Hr'. split; [done|]. destruct Hcp. by constructor.
Qed.
