(* ===== verification/RaftWitness.v ===== *)
(** * Nodes at work

    Concrete nodes over the in-memory storage, run by evaluation: the theorems on
    nodes and clusters applied to them. *)
From S2P Require Import Prelude Errors Proto Util Quorum Storage MemStorage Unstable ReadOnly Config.
From S2P Require Import Majority Joint Progress Tracker RaftLog RaftState RaftSend RaftLogic RaftRole RaftStep.
From S2P Require Import RaftLogSpec RaftReset RaftVote RaftStays RaftElect RaftCluster RaftRules.
From S2P Require Import LogTotal LogFinal RaftTotal RaftEnds RaftWalk RaftFinal RaftAppends RaftEffect RaftMatching RaftPropose RaftTick RaftRoles.
#[local] Open Scope N_scope.

Section witnesses.
#[local] Instance PB : PbMessage := {| compute_size e := 4 + len (e_data e) |}.
#[local] Instance HO : HashOrder := elements_order.
#[local] Instance Low : Rng := {| gen_range _ lo _ := lo |}.
(** Every payload of a [ConfChangeV2] adds node 4. *)
#[local] Instance Add4 : ConfChangeCodec :=
  {| decode_conf_change _ := None;
     decode_conf_change_v2 _ := Some (mkConfChangeV2 Auto [mkConfChangeSingle AddNode 4] []) |}.

(** Three voters that have just been created. *)
Definition example_conf : ConfState := mkConfState [1; 2; 3] [] [] [] false.
Definition example_store : MemStorageCore :=
  mkMemStorageCore (mkRaftState HardState_default example_conf) [] (mkSnapshotMetadata example_conf 0 0) false false None.
Definition example_start : outcome (result (Raft MemStorageCore)) :=
  RaftStep.new (Config.new 1) example_store.

(** The node with the given id, otherwise as [Raft::new] leaves it. *)
Definition example_node (i : u64) : Raft MemStorageCore :=
  set_r_id i (match example_start with Done (Ok r) => r | _ => set_r_id i
    (mkRaft 0 0 0 [] (mkRaftLog example_store (Unstable.new 1) 0 0 0 0) 0 0 0 Follower false 0 None 0
       (ReadOnly.new Safe) 0 0 false false false false false 0 0 0 0 0 0%Z
       (mkUncommittedState 0 0 0) 0 (mkProgressTracker ∅ (Configuration_new [] []) ∅ 0 false) [] 0) end).

Definition example_cluster : cluster := mkCluster example_node [] [].

(** The first message in the network for node [i]. *)
Definition mail (i : u64) (C : cluster (S := MemStorageCore)) : Message :=
  default Message_default (head (filter (λ m, m_to m = i) (net C))).

(** The cluster after an event at node [i], which must not panic, and after node
    [i] has sent its outbox. *)
Definition done {A} (m : outcome A) : bool := match m with Done _ => true | _ => false end.
Definition after (i : u64) (e : event) (C : cluster) : cluster :=
  match run_event e (nodes C i) with
  | Done r' => mkCluster (set_node i r' (nodes C)) (net C) (record_leader i (nodes C i) r' (leaders C))
  | _ => C
  end.
Definition flushed (i : u64) (C : cluster (S := MemStorageCore)) : cluster :=
  mkCluster (set_node i (set_r_msgs [] (nodes C i)) (nodes C)) (net C ++ r_msgs (nodes C i)) (leaders C).
Lemma after_step i e C :
  i ≠ 0 → possible C i e → done (run_event e (nodes C i)) = true → cluster_step C (after i e C).
Proof. intros. unfold after. destruct (run_event _ _) eqn:E; [|done..]. by apply (cs_event _ i e). Defined.

(** Node 1 campaigns, node 2 grants its vote, node 1 counts it. *)
Definition hup_msg : Message := new_message 0 MsgHup None.
Definition asked : cluster := flushed 1 (after 1 (Receive hup_msg) example_cluster).
Definition granted : cluster := flushed 2 (after 2 (Receive (mail 2 asked)) asked).
Definition elected : cluster := after 1 (Receive (mail 1 granted)) granted.

Lemma example_initial : initial example_cluster.
Proof. split; [|done..]. intros i. split_and!; vm_compute; reflexivity. Defined.

Lemma elected_reachable : rtc cluster_step example_cluster elected.
Proof.
  eapply rtc_l; [apply (after_step 1 (Receive hup_msg)); [done|split; [by vm_compute|done]|by vm_compute]|].
  eapply rtc_l; [apply (cs_flush _ 1)|].
  eapply rtc_l; [apply (after_step 2 (Receive (mail 2 asked))); [done|split; [by vm_compute|by vm_compute]|by vm_compute]|].
  eapply rtc_l; [apply (cs_flush _ 2)|].
  apply rtc_once. apply (after_step 1 (Receive (mail 1 granted))); [done|split; [by vm_compute|]|by vm_compute].
  intros _. split; [|by vm_compute]. change (mail 1 granted ∈ net granted).
  apply (bool_decide_unpack _). by vm_compute.
Defined.

Lemma election_safety_witness :
  initial example_cluster ∧ rtc cluster_step example_cluster elected ∧
  r_state (nodes elected 1) = Leader ∧ leaders elected ≠ [] ∧
  ∀ b cb, (1, b, cb) ∈ leaders elected →
    quorums_meet (c_voters (pt_conf (r_prs (example_node 1)))) cb → 1 = b.
Proof.
  split_and!; [apply example_initial|apply elected_reachable|by vm_compute|by vm_compute|].
  intros b cb Hb Hm. destruct (election_safety _ _ example_initial elected_reachable) as [Hs _].
  eapply Hs; [|exact Hb|exact Hm]. apply (bool_decide_unpack _). by vm_compute.
Defined.

(** ** The rules at work *)

(** The elected leader; entry 1 is its first and not yet committed. *)
Definition example_leader : Raft MemStorageCore := Eval vm_compute in nodes elected 1.

Lemma example_store_ok : mem_ok example_store.
Proof. constructor; [intros k e Hk; by destruct k|done..]. Defined.

Lemma example_leader_log : log_ok (r_raft_log example_leader).
Proof.
  constructor; [|by vm_compute..]. constructor; [exact example_store_ok| |by vm_compute..].
  constructor; [|by vm_compute..]. intros [|k] e Hk; vm_compute in Hk; by simplify_eq.
Defined.
(** Node 2, just created. *)
Definition example_follower : Raft MemStorageCore := Eval vm_compute in example_node 2.
Lemma example_follower_log : log_ok (r_raft_log example_follower).
Proof.
  constructor; [|by vm_compute..]. constructor; [exact example_store_ok| |by vm_compute..].
  constructor; [|by vm_compute..]. by intros [|k] e Hk.
Defined.

(** Peers 2 and 3 have acknowledged entry 1. *)
Definition acked_leader : Raft MemStorageCore :=
  let pr := set_pr_matched 1 (Progress.new 2 4) in
  set_r_prs (Tracker.put 2 pr (Tracker.put 3 pr (r_prs example_leader))) example_leader.

Lemma acked_leader_ready : commits_ready acked_leader.
Proof.
  constructor; [exact example_leader_log|by vm_compute|by vm_compute| |by vm_compute; eexists|by vm_compute].
  intros id pr Hpr.
  assert (map_Forall (λ _ pr, pr_matched pr ≤ u64_max) (pt_progress (r_prs acked_leader))) as Hf
    by (apply (bool_decide_unpack _); by vm_compute).
  by apply (Hf id pr).
Defined.

(** Entry 1 is committed, although the leader has not persisted it itself. *)
Lemma commit_rule_witness :
  (snd <$> RaftSend.maybe_commit acked_leader) = Done true ∧
  returns (RaftSend.maybe_commit acked_leader) (λ '(r', b), log_ok (r_raft_log r')).
Proof.
  split; [by vm_compute|]. eapply returns_mono; [apply (commit_rule acked_leader acked_leader_ready)|].
  intros [r' b] (i & _ & _ & _ & Hok & _). exact Hok.
Defined.

(** Node 2 grants the vote of term 1; its clone that has voted for 3 refuses. *)
Lemma vote_request_spec_witness :
  let m := set_m_from 1 (set_m_term 1 (new_message 2 MsgRequestVote None)) in
  let free := set_r_term 1 example_follower in
  let voted := set_r_vote 3 free in
  (∀ r' res, step_handle m free = Done (r', res) → r_vote r' = 1) ∧
  (∀ r' res, step_handle m voted = Done (r', res) → r_vote r' = 3 ∧ length (r_msgs r') = 1%nat) ∧
  done (step_handle m free) = true ∧ done (step_handle m voted) = true.
Proof.
  intros m free voted. split_and!; [..|by vm_compute|by vm_compute]; intros r' res E.
  - destruct (vote_request_spec m free r' res 0 MsgRequestVoteResponse example_follower_log) as [_ Hv];
      [done|done|done|].
    assert (bool_decide (vote_due m free 0) = true) as Hd by by vm_compute. rewrite Hd in Hv.
    destruct Hv as (_ & _ & _ & Hv & _). exact Hv.
  - destruct (vote_request_spec m voted r' res 0 MsgRequestVoteResponse example_follower_log) as [_ Hv];
      [done|done|done|].
    assert (bool_decide (vote_due m voted 0) = false) as Hd by by vm_compute. rewrite Hd in Hv.
    destruct Hv as (Hv & _ & (ct & Hm & _) & _). rewrite Hv, Hm. done.
Defined.

(** The leader has heard from nobody since its election, and steps down. *)
Lemma check_quorum_spec_witness :
  let m := new_message 0 MsgCheckQuorum (Some 1) in
  let lonely := set_r_prs (set_pt_progress (clear_activity 1 (pt_progress (r_prs example_leader)))
                             (r_prs example_leader)) example_leader in
  pr_recent_active <$> pt_progress (r_prs lonely) !! 1 = Some true ∧
  (∀ r' res, step m lonely = Done (r', res) → r_state r' = Follower ∧
     ∀ pr, pt_progress (r_prs r') !! 1 = Some pr → pr_recent_active pr = false) ∧
  done (step m lonely) = true.
Proof.
  intros m lonely. split_and!; [by vm_compute| |by vm_compute]. intros r' res E.
  destruct (check_quorum_spec m lonely r' res) as [_ Hq]; [done|done|done|by vm_compute|done|].
  match type of Hq with context [bool_decide ?P] =>
    assert (bool_decide P = false) as Hd by by vm_compute end. rewrite Hd in Hq.
  destruct Hq as (Hs & _ & _ & _ & _ & _ & Hia). split; [done|]. apply Hia.
Defined.

(** Node 2 has a leader and ignores the vote request of node 3 for a later term. *)
Lemma vote_requests_do_not_disturb_witness :
  let m := set_m_from 3 (set_m_term 5 (new_message 2 MsgRequestVote None)) in
  let led := set_r_check_quorum true (set_r_leader_id 1 example_follower) in
  step m led = Done (led, Ok ()).
Proof.
  intros m led. destruct (vote_requests_do_not_disturb m led) as [Hl _]. apply Hl; [by left|done..].
Defined.

(** The elected leader handles anything. *)
Lemma step_terminates_witness :
  step (new_message 0 MsgBeat (Some 1)) example_leader ≠ NoFuel ∧ tick example_leader ≠ NoFuel.
Proof.
  destruct (step_terminates example_leader (lo_joined _ example_leader_log)) as [Hs Ht].
  split; [apply (Hs (new_message 0 MsgBeat (Some 1)))|apply Ht].
Defined.

(** Two configuration changes are proposed at once: the second is dropped. *)
Definition change_entry : Entry := mkEntry EntryConfChangeV2 0 0 [] [] false.
Definition two_changes : Message := set_m_entries [change_entry; change_entry] (new_message 0 MsgPropose (Some 1)).
Definition proposed_leader : Raft MemStorageCore := Eval vm_compute in
  match propose two_changes example_leader with Done (r', _) => r' | _ => example_leader end.
Lemma single_conf_change_witness :
  conf_bounded proposed_leader ∧ one_pending proposed_leader ∧
  (e_type <$> ents (r_raft_log proposed_leader)) = [EntryNormal; EntryConfChangeV2; EntryNormal].
Proof.
  destruct (single_conf_change two_changes example_leader proposed_leader) as [_ Hp];
    [exact (lo_joined _ example_leader_log)|by vm_compute|].
  destruct Hp as (_ & Hb & Hone); [|by vm_compute|].
  - intros e He Hc. vm_compute in He. apply list_elem_of_singleton in He as ->. by vm_compute in Hc.
  - split_and!; [exact Hb|apply Hone; by left; vm_compute|by vm_compute].
Defined.

(** Node 2 starts an election after 20 quiet ticks. *)
Lemma election_starts_witness :
  r_randomized_election_timeout example_follower = 20 ∧
  ∃ r', ticks 20 example_follower = Done r' ∧ r_state r' = Candidate ∧ r_term r' = 1 ∧ length (r_msgs r') = 2%nat.
Proof.
  split; [by vm_compute|].
  destruct (election_starts example_follower 0 0 20) as [_ (r' & Hr' & [Hs Ht _ _ _ _ Hm])];
    [|by vm_compute|by vm_compute|by vm_compute|by vm_compute|].
  - constructor; [by vm_compute|by vm_compute|by vm_compute|exact (lo_joined _ example_follower_log)|by vm_compute..].
  - exists r'. split_and!; [done|done|by rewrite Ht|by rewrite Hm].
Defined.

(** Node 2 campaigns and is a well-formed candidate. *)
Definition example_candidate : Raft MemStorageCore := Eval vm_compute in
  match run_event (Receive hup_msg) example_follower with Done r' => r' | _ => example_follower end.
Lemma role_invariant_witness : r_state example_candidate = Candidate ∧ role_ok example_candidate.
Proof.
  split; [done|]. apply (role_invariant example_follower example_candidate (Receive hup_msg)); [|by vm_compute].
  constructor; try done. by intros [x ?].
Defined.

(** Node 1 has committed entry 1 and is replaced by node 2, which sends entry 2. *)
Definition committed_leader : Raft MemStorageCore := Eval vm_compute in
  match maybe_commit acked_leader with Done (r, _) => r | _ => acked_leader end.
Definition next_entries_msg : Message :=
  set_m_entries [mkEntry EntryNormal 2 2 [] [] false] (set_m_commit 2 (set_m_log_term 1 (set_m_index 1
    (set_m_term 2 (new_message 1 MsgAppend (Some 2)))))).
Definition replaced_leader : Raft MemStorageCore := Eval vm_compute in
  match run_event (Receive next_entries_msg) committed_leader with Done r => r | _ => committed_leader end.
Lemma committed_entries_final_witness :
  l_committed (r_raft_log committed_leader) = 1 ∧ r_state replaced_leader = Follower ∧
  l_committed (r_raft_log replaced_leader) = 2 ∧ log_wf (r_raft_log replaced_leader) ∧
  entry_at (r_raft_log replaced_leader) 1 = entry_at (r_raft_log committed_leader) 1 ∧
  is_Some (entry_at (r_raft_log committed_leader) 1).
Proof.
  destruct (committed_entries_final committed_leader replaced_leader (Receive next_entries_msg)) as (Hw & _ & _ & _ & He).
  - pose proof (lo_joined _ example_leader_log) as []. constructor; [|by vm_compute..]. by constructor.
  - done.
  - intros _ [|k] e Hk; vm_compute in Hk; by simplify_eq.
  - by vm_compute.
  - split_and!; [by vm_compute..|exact Hw|apply He; by vm_compute|by vm_compute; eexists].
Defined.

(** Two proposals extend the leader's log. *)
Definition extended_leader : Raft MemStorageCore := Eval vm_compute in
  match run_event (Receive two_changes) example_leader with Done r => r | _ => example_leader end.
Lemma leader_append_only_witness :
  length (ents (r_raft_log example_leader)) = 1%nat ∧ length (ents (r_raft_log extended_leader)) = 3%nat ∧
  ents (r_raft_log example_leader) `prefix_of` ents (r_raft_log extended_leader).
Proof.
  split_and!; [by vm_compute..|].
  apply (leader_append_only example_leader extended_leader (Receive two_changes));
    [exact (lo_joined _ example_leader_log)|by vm_compute|done|by vm_compute|by vm_compute].
Defined.

(** The same election, and then the leader's first entry reaches node 2. *)
Definition world_after (i : u64) (e : event) (W : world (S := MemStorageCore)) : world :=
  match run_event e (nodes (w_cluster W) i) with
  | Done r' => mkWorld
      (mkCluster (set_node i r' (nodes (w_cluster W))) (net (w_cluster W))
        (record_leader i (nodes (w_cluster W) i) r' (leaders (w_cluster W))))
      (λ j, if j =? i then ents (r_raft_log r') :: w_past W j else w_past W j)
  | _ => W
  end.
Definition world_flushed (i : u64) (W : world (S := MemStorageCore)) : world := mkWorld (flushed i (w_cluster W)) (w_past W).
Lemma world_after_step i e W :
  i ≠ 0 → possible (w_cluster W) i e → plain W i e → done (run_event e (nodes (w_cluster W) i)) = true →
  world_step W (world_after i e W).
Proof. intros. unfold world_after. destruct (run_event _ _) eqn:E; [|done..]. by apply (ws_event _ i e). Defined.

Definition world0 : world := mkWorld example_cluster (λ _, []).
Definition world1 : world := world_flushed 1 (world_after 1 (Receive hup_msg) world0).
Definition world2 : world := world_flushed 2 (world_after 2 (Receive (mail 2 (w_cluster world1))) world1).
Definition world3 : world := world_flushed 1 (world_after 1 (Receive (mail 1 (w_cluster world2))) world2).
Definition first_append : Message := Eval vm_compute in
  default Message_default (head (filter (λ m, m_to m = 2) (appends (net (w_cluster world3))))).
Definition world4 : world := world_after 2 (Receive first_append) world3.

Lemma world0_fresh : fresh world0.
Proof.
  constructor; [exact example_initial| |intros i; by vm_compute|by vm_compute|by intros i es ?%elem_of_nil].
  intros i. assert (w_log world0 i = r_raft_log example_follower) as -> by (vm_compute; reflexivity).
  split_and!; [exact (wf_ok _ example_follower_log)|by vm_compute|by vm_compute].
Defined.
Lemma world4_reachable : rtc world_step world0 world4.
Proof.
  eapply rtc_l; [apply (world_after_step 1 (Receive hup_msg)); [done|split; [by vm_compute|done]|done|by vm_compute]|].
  eapply rtc_l; [apply (ws_flush _ 1)|].
  eapply rtc_l; [apply (world_after_step 2 (Receive (mail 2 (w_cluster world1))));
    [done|split; [by vm_compute|by vm_compute]|split; by vm_compute|by vm_compute]|].
  eapply rtc_l; [apply (ws_flush _ 2)|].
  eapply rtc_l; [apply (world_after_step 1 (Receive (mail 1 (w_cluster world2))));
    [done| |split; by vm_compute|by vm_compute]|].
  { split; [by vm_compute|]. intros _. split; [|by vm_compute]. apply (bool_decide_unpack _). by vm_compute. }
  eapply rtc_l; [apply (ws_flush _ 1)|].
  apply rtc_once. apply (world_after_step 2 (Receive first_append)); [done|split; [by vm_compute|by vm_compute]| |by vm_compute].
  split; [by vm_compute|]. intros _. apply (bool_decide_unpack _). by vm_compute.
Defined.

Lemma world4_agreeing : agreeing (w_cluster world4).
Proof.
  assert (∃ conf, leaders (w_cluster world4) = [(1, 1, conf)] ∧ voters (incoming conf) ≠ ∅) as (conf & Hl & Hne).
  { eexists. split; [by vm_compute|by vm_compute]. }
  intros t a b ca cb. rewrite Hl. intros [= -> -> ->]%list_elem_of_singleton [= -> ->]%list_elem_of_singleton.
  intros P Q dP dQ HP HQ. destruct (Joint.joint_quorum_intersect conf P Q (incoming conf)) as (v & _ & Hv); [by left|done..|by exists v].
Qed.
Lemma log_matching_witness :
  e_term <$> entry_at (w_log world4 1) 1 = Some 1 ∧ e_term <$> entry_at (w_log world4 2) 1 = Some 1 ∧
  entry_at (w_log world4 1) 1 = entry_at (w_log world4 2) 1.
Proof.
  split_and!; [by vm_compute..|].
  eapply (log_matching world0 world4 1 2 1); [exact world0_fresh|exact world4_reachable|exact world4_agreeing
    |by vm_compute|by vm_compute|by vm_compute|done].
Defined.
End witnesses.
