(* ===== verification/RaftSafetyWitness.v ===== *)
(** * A cluster that commits an entry

    Three nodes run by evaluation: node 1 wins an election with the vote of node 2,
    nodes 2 and 3 persist and acknowledge its first entry, node 1 commits it
    (before it is on its own disk), and node 2, after a crash, learns of the commit. *)
From S2P Require Import Prelude Errors Proto Util Quorum Storage MemStorage Unstable ReadOnly Config.
From S2P Require Import Majority Joint Progress Tracker RaftLog RaftLogSpec LogFinal RaftState RaftSend RaftLogic RaftRole RaftStep.
From S2P Require Import RaftElect RaftCluster Replication RaftClaims RaftMatching RaftSystem RaftFollow RaftSafety RaftWitness.
#[local] Open Scope N_scope.

Section safety_witnesses.
#[local] Existing Instances PB HO Low Add4.
Implicit Types Σ : system (S := MemStorageCore).

Definition voters3 : JointConfig := c_voters (pt_conf (r_prs (example_node 1))).

Definition sys_after (i : u64) (e : event) Σ : system := mkSystem (after i e (s_cluster Σ)) (s_disk Σ).
Definition sys_sent (i : u64) Σ : system := mkSystem (flushed i (s_cluster Σ)) (s_disk Σ).
Definition sys_saved (i : u64) Σ : system := mkSystem (s_cluster Σ)
  (λ j, if j =? i then (ents (s_log Σ i), l_committed (s_log Σ i)) else s_disk Σ j).
(** The last message of a type between two nodes. *)
Definition letter (t : MessageType) (i j : u64) Σ : Message :=
  default Message_default (last (filter (λ m, m_type m = t ∧ m_from m = i ∧ m_to m = j) (net (s_cluster Σ)))).

(** The conditions on a step, by evaluation. *)
Definition known_letter (i : u64) (m : Message) Σ : bool :=
  bool_decide (m ∈ net (s_cluster Σ)) && (m_to m =? i).
Definition takes_step (i : u64) (e : event) Σ : bool :=
  done (run_event e (s_node Σ i)) && negb (i =? 0).
Definition bounded (i : u64) Σ : Prop := joint_bounded (c_voters (pt_conf (r_prs (s_node Σ i)))).

Lemma sys_step i e Σ :
  takes_step i e Σ = true → possible (s_cluster Σ) i e → allowed voters3 Σ i e → system_step voters3 Σ (sys_after i e Σ).
Proof.
  intros [Hd Hi%negb_true_iff%N.eqb_neq]%andb_true_iff Hp Ha.
  unfold sys_after, after, s_node in *. destruct (run_event e (nodes (s_cluster Σ) i)) as [r'| |] eqn:E; [|done..].
  by apply (ss_event voters3 Σ i e r').
Defined.
Lemma votes_alike_now i e Σ :
  bool_decide (c_voters (pt_conf (r_prs (s_node (sys_after i e Σ) i))) = voters3) = true →
  ∀ r', run_event e (s_node Σ i) = Done r' → c_voters (pt_conf (r_prs r')) = voters3.
Proof.
  intros Hc%bool_decide_eq_true r' E. unfold s_node, sys_after, after in *. rewrite E in Hc.
  simpl in Hc. unfold set_node in Hc. by rewrite N.eqb_refl in Hc.
Defined.
Lemma sys_receives i m Σ : takes_step i (Receive m) Σ = true → bounded i Σ → known_letter i m Σ = true →
  system_step voters3 Σ (sys_after i (Receive m) Σ).
Proof.
  intros Ht Hb [Hin%bool_decide_eq_true Hto%N.eqb_eq]%andb_true_iff. apply sys_step; [done|by split|done].
Defined.
Lemma sys_sends i Σ :
  (s_disk Σ i).1 = ents (s_log Σ i) ∨ r_state (s_node Σ i) = Leader → system_step voters3 Σ (sys_sent i Σ).
Proof. apply ss_send. Defined.
Lemma sys_saves i Σ : system_step voters3 Σ (sys_saved i Σ).
Proof. apply ss_save. Defined.

Definition sys0 : system := mkSystem example_cluster (λ _, ([], 0)).
Definition sys1 : system := sys_sent 1 (sys_after 1 (Receive hup_msg) sys0).
Definition sys2 : system := sys_sent 2 (sys_after 2 (Receive (letter MsgRequestVote 1 2 sys1)) sys1).
Definition sys3 : system := sys_sent 1 (sys_after 1 (Receive (letter MsgRequestVoteResponse 2 1 sys2)) sys2).
Definition sys4 : system := sys_sent 2 (sys_saved 2 (sys_after 2 (Receive (letter MsgAppend 1 2 sys3)) sys3)).
Definition sys5 : system := sys_sent 3 (sys_saved 3 (sys_after 3 (Receive (letter MsgAppend 1 3 sys4)) sys4)).
Definition sys6 : system := sys_after 1 (Receive (letter MsgAppendResponse 2 1 sys5)) sys5.
Definition sys7 : system := sys_sent 1 (sys_after 1 (Receive (letter MsgAppendResponse 3 1 sys6)) sys6).
(** Node 2 crashes and restarts from its disk. *)
Definition the_entry : Entry := mkEntry EntryNormal 1 1 [] [] false.
Definition disk2 : MemStorageCore := mkMemStorageCore
  (mkRaftState (mkHardState 1 1 0) example_conf) [the_entry] (mkSnapshotMetadata example_conf 0 0) false false None.
Definition crash2 : event := Restart (Config.new 2) disk2.
Definition sys8 : system := sys_after 2 (Receive (letter MsgAppend 1 2 sys7)) (sys_after 2 crash2 sys7).

Lemma sys0_starts : starts voters3 sys0.
Proof.
  destruct world0_fresh as [Hin Hlog Hb _ _]. constructor; [exact Hin|done|exact Hlog|exact Hb|by intros i; vm_compute| |done].
  intros i. constructor; [by vm_compute|by vm_compute|done|]. intros g Hg. by apply elem_of_nil in Hg.
Defined.
Ltac receives Σ t i j := eapply rtc_l; [apply (sys_receives j (letter t i j Σ) Σ); by vm_compute|].
Ltac saves i := eapply rtc_l; [apply (sys_saves i)|].
Ltac sends i := apply rtc_once, (sys_sends i); first [left; by vm_compute|right; by vm_compute].
Lemma sys7_reachable : rtc (system_step voters3) sys0 sys7.
Proof.
  transitivity sys1; [eapply rtc_l; [apply (sys_step 1 (Receive hup_msg)); [by vm_compute|split; [by vm_compute|done]|done]|]; sends 1|].
  transitivity sys2; [receives sys1 MsgRequestVote 1 2; sends 2|].
  transitivity sys3; [receives sys2 MsgRequestVoteResponse 2 1; sends 1|].
  transitivity sys4; [receives sys3 MsgAppend 1 2; saves 2; sends 2|].
  transitivity sys5; [receives sys4 MsgAppend 1 3; saves 3; sends 3|].
  transitivity sys6; [receives sys5 MsgAppendResponse 2 1; done|].
  receives sys6 MsgAppendResponse 3 1. sends 1.
Defined.
Lemma disk2_ok : mem_ok disk2.
Proof.
  constructor; simpl; [|vm_compute; by intros|done..]. by intros [|k] e; simpl; intros [= <-].
Defined.
Lemma sys8_reachable : rtc (system_step voters3) sys7 sys8.
Proof.
  eapply rtc_l; [apply (sys_step 2 crash2 sys7); [by vm_compute| |]|].
  - split; [by vm_compute|]. split; [done|]. eexists. split; [reflexivity|]. by vm_compute.
  - split_and!; [|done|exact disk2_ok|done|done|by vm_compute|].
    { apply votes_alike_now. by vm_compute. }
    intros rs [= <-]. by vm_compute.
  - apply rtc_once. apply (sys_receives 2 (letter MsgAppend 1 2 sys7) (sys_after 2 crash2 sys7)); by vm_compute.
Defined.
Lemma voters3_ok : joint_bounded voters3 ∧ voters (incoming voters3) ≠ ∅.
Proof. split; by vm_compute. Defined.

Lemma state_machine_safety_witness :
  entry_at (s_log sys7 1) 1 = Some the_entry ∧ 1 ≤ l_committed (s_log sys7 1) ∧ 1 ≤ l_committed (s_log sys8 2) ∧
  ∀ e', entry_at (s_log sys8 2) 1 = Some e' → the_entry = e'.
Proof.
  destruct voters3_ok as [Hb Hv]. split_and!; [by vm_compute..|]. intros e' He'.
  apply (state_machine_safety voters3 sys0 sys7 sys8 1 2 1 the_entry e' Hb Hv sys0_starts sys7_reachable sys8_reachable);
    [by vm_compute|by vm_compute|exact He'|by vm_compute].
Defined.

(** The other nodes do not move. *)
Lemma sys_after_other i e Σ v : v ≠ i → s_node (sys_after i e Σ) v = s_node Σ v.
Proof.
  intros Hv. unfold s_node, sys_after, after. simpl. destruct (run_event _ _); [|done..]. simpl. unfold set_node. by rewrite (proj2 (N.eqb_neq _ _)).
Defined.
Lemma sys_sent_other i Σ v : v ≠ i → s_node (sys_sent i Σ) v = s_node Σ v.
Proof. intros Hv. unfold s_node, sys_sent. simpl. unfold set_node. by rewrite (proj2 (N.eqb_neq _ _)). Defined.
Lemma sys_saved_other i Σ v : s_node (sys_saved i Σ) v = s_node Σ v.
Proof. done. Defined.
Lemma sys7_terms v : r_term (s_node sys7 v) ≤ 1.
Proof.
  destruct (N.eq_dec v 1) as [->|H1]; [by vm_compute|]. destruct (N.eq_dec v 2) as [->|H2]; [by vm_compute|].
  destruct (N.eq_dec v 3) as [->|H3]; [by vm_compute|].
  assert (s_node sys7 v = s_node sys0 v) as ->; [|change (s_node sys0 v) with (example_node v); by vm_compute].
  unfold sys7, sys6, sys5, sys4, sys3, sys2, sys1.
  repeat first [rewrite sys_sent_other by done|rewrite sys_after_other by done|rewrite sys_saved_other]. done.
Defined.
Lemma leader_completeness_witness : entry_at (s_log sys8 1) 1 = Some the_entry.
Proof.
  destruct voters3_ok as [Hb Hv].
  apply (leader_completeness voters3 sys0 sys7 sys8 1 1 1 the_entry Hb Hv sys0_starts sys7_reachable sys8_reachable); [by vm_compute..|].
  intros v. apply sys7_terms.
Defined.
Lemma committed_is_durable_witness :
  (s_disk sys8 1).1 = [] ∧ (s_disk sys8 2).1 = [the_entry] ∧
  ∃ Q : gset u64, joint_quorum_of voters3 (.∈ Q) ∧ ∀ v, v ∈ Q → (s_disk sys8 v).1 !! 0%nat = Some the_entry.
Proof.
  destruct voters3_ok as [Hb Hv]. split_and!; [by vm_compute..|].
  apply (committed_is_durable voters3 sys0 sys7 sys8 1 1 the_entry Hb Hv sys0_starts sys7_reachable sys8_reachable); by vm_compute.
Defined.
Lemma system_refines_replication_witness : ∃ G0 G, group_starts G0 ∧ rtc (group_step (quorum voters3)) G0 G ∧
  g_log G 2 = [the_entry] ∧ settled (quorum voters3) G [the_entry].
Proof.
  destruct voters3_ok as [Hb Hv].
  destruct (system_refines_replication voters3 sys0 sys8 Hb Hv sys0_starts (transitivity sys7_reachable sys8_reachable))
    as (G0 & G & H0' & HG & HN).
  exists G0, G. destruct (HN 2) as (_ & -> & _ & _ & _ & Hs). split_and!; [done|done|by vm_compute|].
  by replace [the_entry] with (committed (s_node sys8 2)) by (by vm_compute).
Defined.
End safety_witnesses.
