(* ===== verification/Status.v ===== *)
(** * The status of a node ([src/status.rs]): what [Raft] shows for diagnostics *)
From S2P Require Import Prelude Errors Proto Util Storage Unstable ReadOnly Config.
From S2P Require Import Progress Tracker RaftLog RaftState.
#[local] Open Scope N_scope.

(** [struct Status] *)
Record Status := mkStatus {
  status_id : u64;
  status_hs : HardState;
  status_ss : SoftState;
  status_applied : u64;
  status_progress : option ProgressTracker }.

(** Only a leader shows the progress of its peers. *)
Definition new {S} (raft : Raft S) : Status :=
  let ss := soft_state raft in
  mkStatus (r_id raft) (hard_state raft) ss (l_applied (r_raft_log raft))
    (if bool_decide (ss_raft_state ss = Leader) then Some (r_prs raft) else None).
