(* ===== verification/RawNode.v ===== *)
(** * The raw node ([src/raw_node.rs])

    The interface of the library to an application: [RawNode] wraps the state
    machine and hands its output out in batches. [ready] takes a snapshot of
    what must be persisted, applied and sent, [advance] and its relatives tell
    the node that this has been done.

    An application owns the storage and may write it between two calls; that is
    [mut_store] with any function. *)
From S2P Require Import Prelude Errors Proto Util Storage Unstable ReadOnly Config.
From S2P Require Import Progress Tracker RaftLog RaftState RaftSend RaftRole RaftStep Status.
#[local] Open Scope N_scope.

(** The generated protobuf encoders ([write_to_bytes]); the error is the one that
    [?] converts the codec's error to. *)
Class ConfChangeEncoder := {
  write_conf_change : ConfChange → result bytes;
  write_conf_change_v2 : ConfChangeV2 → result bytes }.

(** [struct Peer] *)
Record Peer := mkPeer { peer_id : u64; peer_context : option bytes }.

(** [enum SnapshotStatus] *)
Inductive SnapshotStatus : Set := Finish | Failure.
#[global] Instance SnapshotStatus_eq_dec : EqDecision SnapshotStatus.
Proof. solve_decision. Defined.

Definition is_local_msg (t : MessageType) : bool :=
  match t with
  | MsgHup | MsgBeat | MsgUnreachable | MsgSnapStatus | MsgCheckQuorum => true
  | _ => false
  end.
Definition is_response_msg (t : MessageType) : bool :=
  match t with
  | MsgAppendResponse | MsgRequestVoteResponse | MsgHeartbeatResponse | MsgUnreachable
  | MsgRequestPreVoteResponse => true
  | _ => false
  end.
Definition is_empty_snap (s : Proto.Snapshot) : bool := Snapshot_is_empty s.

(** ** What is handed out *)

(** [struct LightReady] *)
Record LightReady := mkLightReady {
  lr_commit_index : option u64;
  lr_committed_entries : list Entry;
  lr_messages : list Message }.

(** [struct Ready] *)
Record Ready := mkReady {
  ry_number : u64;
  ry_ss : option SoftState;
  ry_hs : option HardState;
  ry_read_states : list ReadState;
  ry_entries : list Entry;
  ry_snapshot : Proto.Snapshot;
  ry_is_persisted_msg : bool;
  ry_light : LightReady;
  ry_must_sync : bool }.

(** [struct ReadyRecord]: positions and terms of what a [Ready] asks to persist. *)
Record ReadyRecord := mkReadyRecord {
  rr_number : u64;
  rr_last_entry : option (u64 * u64);
  rr_snapshot : option (u64 * u64) }.

Definition set_lr_commit_index (v : option u64) (r : LightReady) : LightReady :=
  mkLightReady v (lr_committed_entries r) (lr_messages r).
Definition set_lr_messages (v : list Message) (r : LightReady) : LightReady :=
  mkLightReady (lr_commit_index r) (lr_committed_entries r) v.
Definition set_lr_committed_entries (v : list Entry) (r : LightReady) : LightReady :=
  mkLightReady (lr_commit_index r) v (lr_messages r).
Definition set_ry_light (v : LightReady) (r : Ready) : Ready :=
  mkReady (ry_number r) (ry_ss r) (ry_hs r) (ry_read_states r) (ry_entries r) (ry_snapshot r)
    (ry_is_persisted_msg r) v (ry_must_sync r).
Definition set_ry_entries (v : list Entry) (r : Ready) : Ready :=
  mkReady (ry_number r) (ry_ss r) (ry_hs r) (ry_read_states r) v (ry_snapshot r)
    (ry_is_persisted_msg r) (ry_light r) (ry_must_sync r).
Definition set_ry_read_states (v : list ReadState) (r : Ready) : Ready :=
  mkReady (ry_number r) (ry_ss r) (ry_hs r) v (ry_entries r) (ry_snapshot r)
    (ry_is_persisted_msg r) (ry_light r) (ry_must_sync r).

Module LightReady.
Definition take_committed_entries (self : LightReady) : LightReady * list Entry :=
  (set_lr_committed_entries [] self, lr_committed_entries self).
Definition take_messages (self : LightReady) : LightReady * list Message :=
  (set_lr_messages [] self, lr_messages self).
End LightReady.

Module Ready.
Definition take_read_states (self : Ready) : Ready * list ReadState :=
  (set_ry_read_states [] self, ry_read_states self).
Definition take_entries (self : Ready) : Ready * list Entry :=
  (set_ry_entries [] self, ry_entries self).
Definition committed_entries (self : Ready) : list Entry := lr_committed_entries (ry_light self).
Definition take_committed_entries (self : Ready) : Ready * list Entry :=
  let '(light, es) := LightReady.take_committed_entries (ry_light self) in (set_ry_light light self, es).
Definition messages (self : Ready) : list Message :=
  if negb (ry_is_persisted_msg self) then lr_messages (ry_light self) else [].
Definition take_messages (self : Ready) : Ready * list Message :=
  if negb (ry_is_persisted_msg self)
  then let '(light, ms) := LightReady.take_messages (ry_light self) in (set_ry_light light self, ms)
  else (self, []).
Definition persisted_messages (self : Ready) : list Message :=
  if ry_is_persisted_msg self then lr_messages (ry_light self) else [].
Definition take_persisted_messages (self : Ready) : Ready * list Message :=
  if ry_is_persisted_msg self
  then let '(light, ms) := LightReady.take_messages (ry_light self) in (set_ry_light light self, ms)
  else (self, []).
End Ready.

(** ** The node *)

(** [struct RawNode] *)
Record RawNode (S : Type) := mkRawNode {
  rn_raft : Raft S;
  rn_prev_ss : SoftState;
  rn_prev_hs : HardState;
  rn_max_number : u64;
  rn_records : list ReadyRecord;
  rn_commit_since_index : u64 }.
Arguments mkRawNode {S} _ _ _ _ _ _.
Arguments rn_raft {S} _.
Arguments rn_prev_ss {S} _.
Arguments rn_prev_hs {S} _.
Arguments rn_max_number {S} _.
Arguments rn_records {S} _.
Arguments rn_commit_since_index {S} _.

Definition set_rn_raft {S} (v : Raft S) (n : RawNode S) : RawNode S :=
  mkRawNode v (rn_prev_ss n) (rn_prev_hs n) (rn_max_number n) (rn_records n) (rn_commit_since_index n).
Definition set_rn_prev_ss {S} (v : SoftState) (n : RawNode S) : RawNode S :=
  mkRawNode (rn_raft n) v (rn_prev_hs n) (rn_max_number n) (rn_records n) (rn_commit_since_index n).
Definition set_rn_prev_hs {S} (v : HardState) (n : RawNode S) : RawNode S :=
  mkRawNode (rn_raft n) (rn_prev_ss n) v (rn_max_number n) (rn_records n) (rn_commit_since_index n).
Definition set_rn_max_number {S} (v : u64) (n : RawNode S) : RawNode S :=
  mkRawNode (rn_raft n) (rn_prev_ss n) (rn_prev_hs n) v (rn_records n) (rn_commit_since_index n).
Definition set_rn_records {S} (v : list ReadyRecord) (n : RawNode S) : RawNode S :=
  mkRawNode (rn_raft n) (rn_prev_ss n) (rn_prev_hs n) (rn_max_number n) v (rn_commit_since_index n).
Definition set_rn_commit_since_index {S} (v : u64) (n : RawNode S) : RawNode S :=
  mkRawNode (rn_raft n) (rn_prev_ss n) (rn_prev_hs n) (rn_max_number n) (rn_records n) v.

(** The monad of its methods, as that of [Raft]. *)
Definition nm (S A : Type) : Type := RawNode S → outcome (RawNode S * A).
#[global] Instance nm_ret {S} : MRet (nm S) := λ A a n, Done (n, a).
#[global] Instance nm_bind {S} : MBind (nm S) := λ A B f m n, '(n, a) ← m n; f a n.

Definition on_raft {S A} (m : rm S A) : nm S A := λ n,
  '(r, a) ← m (rn_raft n); Done (set_rn_raft r n, a).
Definition nlift {S A} (m : outcome A) : nm S A := λ n, a ← m; Done (n, a).
Definition ngets {S A} (f : RawNode S → A) : nm S A := λ n, Done (n, f n).
Definition nmodify {S} (f : RawNode S → RawNode S) : nm S unit := λ n, Done (f n, ()).
(** A part of the node's own state, and of its log. *)
Definition log_of {S} (n : RawNode S) : RaftLog S := r_raft_log (rn_raft n).

Section raw_node.
Context {S : Type} `{Storage S, PbMessage, HashOrder, Rng, ConfChangeCodec, ConfChangeEncoder}.

Definition new (config : Config) (store : S) : outcome (result (RawNode S)) :=
  _ ← assert (negb (cfg_id config =? 0));
  r ← RaftStep.new config store;
  match r with
  | Err e => Done (Err e)
  | Ok r => Done (Ok (mkRawNode r (soft_state r) (hard_state r) 0 [] (cfg_applied config)))
  end.

(** ** Input *)

Definition set_priority (priority : Z) : nm S unit := on_raft (RaftState.set_priority priority).
Definition tick : nm S bool := on_raft RaftStep.tick.
Definition campaign : nm S (result unit) :=
  on_raft (RaftStep.step (set_m_type MsgHup Message_default)).

Definition propose (context data : bytes) : nm S (result unit) :=
  id ← ngets (λ n, r_id (rn_raft n));
  let e := mkEntry EntryNormal 0 0 data context false in
  on_raft (RaftStep.step (set_m_entries [e] (set_m_from id (set_m_type MsgPropose Message_default)))).

Definition ping : nm S unit := on_raft RaftSend.ping.

Definition encode_conf_change `{ConfChangeI C} (cc : C) : result (bytes * EntryType) :=
  match as_v1 cc with
  | Some cc => data ← write_conf_change cc; Ok (data, EntryConfChange)
  | None => data ← write_conf_change_v2 (into_v2 cc); Ok (data, EntryConfChangeV2)
  end.
Definition propose_conf_change `{ConfChangeI C} (context : bytes) (cc : C) : nm S (result unit) :=
  match encode_conf_change cc with
  | Err e => mret (Err e)
  | Ok (data, ty) =>
      let e := mkEntry ty 0 0 data context false in
      on_raft (RaftStep.step (set_m_entries [e] (set_m_type MsgPropose Message_default)))
  end.

Definition apply_conf_change `{ConfChangeI C} (cc : C) : nm S (result ConfState) :=
  on_raft (RaftStep.apply_conf_change (into_v2 cc)).

Definition step (m : Message) : nm S (result unit) :=
  if is_local_msg (m_type m) then mret (Err StepLocalMsg)
  else
    known ← ngets (λ n, bool_decide (is_Some (Tracker.get (m_from m) (r_prs (rn_raft n)))));
    if known || negb (is_response_msg (m_type m)) then on_raft (RaftStep.step m)
    else mret (Err StepPeerNotFound).

Definition on_entries_fetched (context : GetEntriesContext) : nm S unit :=
  match context with
  | SendAppend to term aggressively =>
      stale ← ngets (λ n, negb (r_term (rn_raft n) =? term)
                          || negb (bool_decide (r_state (rn_raft n) = Leader)));
      if (stale : bool) then mret ()
      else
        gone ← ngets (λ n, bool_decide (Tracker.get to (r_prs (rn_raft n)) = None));
        if (gone : bool) then mret ()
        else if (aggressively : bool) then on_raft (send_append_aggressively to)
        else on_raft (send_append to)
  | Empty true => mret ()
  | _ => nlift (Panic Fatal)
  end.

(** [let _ = self.raft.step(m)] *)
Definition step_ignored (m : Message) : nm S unit := _ ← on_raft (RaftStep.step m); mret ().
Definition report_unreachable (id : u64) : nm S unit :=
  step_ignored (set_m_from id (set_m_type MsgUnreachable Message_default)).
Definition report_snapshot (id : u64) (status : SnapshotStatus) : nm S unit :=
  step_ignored (set_m_reject (bool_decide (status = Failure))
                 (set_m_from id (set_m_type MsgSnapStatus Message_default))).
Definition request_snapshot : nm S (result unit) := on_raft RaftStep.request_snapshot.
Definition transfer_leader (transferee : u64) : nm S unit :=
  step_ignored (set_m_from transferee (set_m_type MsgTransferLeader Message_default)).
Definition read_index (rctx : bytes) : nm S unit :=
  let e := mkEntry EntryNormal 0 0 rctx [] false in
  step_ignored (set_m_entries [e] (set_m_type MsgReadIndex Message_default)).

Definition status (n : RawNode S) : Status := Status.new (rn_raft n).
Definition snap (n : RawNode S) : option Proto.Snapshot := RaftState.snap (rn_raft n).
Definition store (n : RawNode S) : S := l_store (log_of n).
Definition mut_store (f : S → S) : nm S unit :=
  on_raft (modify (λ r, set_r_raft_log (set_l_store (f (l_store (r_raft_log r))) (r_raft_log r)) r)).
Definition skip_bcast_commit (skip : bool) : nm S unit := on_raft (RaftState.skip_bcast_commit skip).
Definition set_batch_append (batch_append : bool) : nm S unit :=
  on_raft (RaftState.set_batch_append batch_append).

(** ** Output *)

Definition gen_light_ready : nm S LightReady :=
  since ← ngets rn_commit_since_index;
  max_size ← ngets (λ n, Some (r_max_committed_size_per_ready (rn_raft n)));
  next ← on_raft (with_log (next_entries_since since max_size));
  let committed_entries := default [] next in
  on_raft (reduce_uncommitted_size committed_entries);;
  (match last committed_entries with
   | Some e =>
       since ← ngets rn_commit_since_index;
       nlift (assert (since <? e_index e));;
       nmodify (set_rn_commit_since_index (e_index e))
   | None => mret ()
   end);;
  messages ← ngets (λ n, r_msgs (rn_raft n));
  on_raft (modify (set_r_msgs []));;
  mret (mkLightReady None committed_entries messages).

(** The records of a candidate are dropped when it has become leader. *)
Definition has_nothing (record : ReadyRecord) : bool :=
  bool_decide (rr_last_entry record = None) && bool_decide (rr_snapshot record = None).
Definition drop_candidate_records : nm S unit :=
  elected ← ngets (λ n, negb (bool_decide (ss_raft_state (rn_prev_ss n) = Leader))
                        && bool_decide (r_state (rn_raft n) = Leader));
  if (elected : bool) then
    records ← ngets rn_records;
    nlift (assert (forallb has_nothing records));;
    nmodify (set_rn_records [])
  else mret ().

(** The pending snapshot, with its position and term. *)
Definition ready_snapshot : nm S (option Proto.Snapshot) :=
  s ← ngets (λ n, u_snapshot (l_unstable (log_of n)));
  match s with
  | None => mret None
  | Some s =>
      let index := sm_index (s_metadata s) in
      since ← ngets rn_commit_since_index;
      nlift (assert (since <=? index));;
      nmodify (set_rn_commit_since_index index);;
      more ← (λ n, b ← has_next_entries_since index (log_of n); Done (n, b));
      nlift (assert (negb more));;
      mret (Some s)
  end.
Definition position_of (s : Proto.Snapshot) : u64 * u64 := (sm_index (s_metadata s), sm_term (s_metadata s)).

Definition ready : nm S Ready :=
  number ← (λ n, number ← rn_max_number n +! 1; Done (n, number));
  nmodify (set_rn_max_number number);;
  drop_candidate_records;;
  ss ← ngets (λ n, let ss := soft_state (rn_raft n) in
                   if bool_decide (ss = rn_prev_ss n) then None else Some ss);
  hs ← ngets (λ n, let hs := hard_state (rn_raft n) in
                   if bool_decide (hs = rn_prev_hs n) then None else Some hs);
  voted ← ngets (λ n, let hs := hard_state (rn_raft n) in
                      negb (hs_vote hs =? hs_vote (rn_prev_hs n))
                      || negb (hs_term hs =? hs_term (rn_prev_hs n)));
  read_states ← ngets (λ n, r_read_states (rn_raft n));
  on_raft (modify (set_r_read_states []));;
  snapshot ← ready_snapshot;
  entries ← ngets (λ n, u_entries (l_unstable (log_of n)));
  let last_entry := (λ e, (e_index e, e_term e)) <$> last entries in
  persisted ← ngets (λ n, negb (bool_decide (r_state (rn_raft n) = Leader)));
  light ← gen_light_ready;
  nmodify (λ n, set_rn_records
             (rn_records n ++ [mkReadyRecord number last_entry (position_of <$> snapshot)]) n);;
  mret (mkReady number ss hs read_states entries (default Snapshot_default snapshot) persisted light
          (voted || bool_decide (is_Some snapshot) || bool_decide (is_Some last_entry))).

Definition has_ready (self : RawNode S) : outcome bool :=
  let raft := rn_raft self in
  if negb (bool_decide (r_msgs raft = [])) then Done true
  else if negb (bool_decide (soft_state raft = rn_prev_ss self)) then Done true
  else if negb (bool_decide (hard_state raft = rn_prev_hs self)) then Done true
  else if negb (bool_decide (r_read_states raft = [])) then Done true
  else if negb (bool_decide (u_entries (l_unstable (log_of self)) = [])) then Done true
  else if match snap self with Some s => negb (Snapshot_is_empty s) | None => false end then Done true
  else has_next_entries_since (rn_commit_since_index self) (log_of self).

(** ** Reports *)

Definition commit_ready (rd : Ready) : nm S unit :=
  (match ry_ss rd with Some ss => nmodify (set_rn_prev_ss ss) | None => mret () end);;
  (match ry_hs rd with Some hs => nmodify (set_rn_prev_hs hs) | None => mret () end);;
  record ← (λ n, record ← unwrap (last (rn_records n)); Done (n, record));
  nlift (assert (rr_number record =? ry_number rd));;
  (match rr_snapshot record with
   | Some (index, _) => on_raft (update_log (stable_snap index))
   | None => mret ()
   end);;
  match rr_last_entry record with
  | Some (index, term) => on_raft (update_log (stable_entries index term))
  | None => mret ()
  end.

Definition commit_apply (applied : u64) : nm S unit := on_raft (RaftRole.commit_apply applied).

(** What the records up to [number] ask to persist: the records that remain, the
    last snapshot, and the last entry after it; 0 stands for none. *)
Fixpoint persisted_upto (number snap_index index term : u64) (records : list ReadyRecord)
    : list ReadyRecord * (u64 * (u64 * u64)) :=
  match records with
  | [] => ([], (snap_index, (index, term)))
  | record :: records' =>
      if number <? rr_number record then (records, (snap_index, (index, term)))
      else
        let '(snap_index, (index, term)) :=
          match rr_snapshot record with
          | Some (i, _) => (i, (0, 0))
          | None => (snap_index, (index, term))
          end in
        let '(index, term) := default (index, term) (rr_last_entry record) in
        persisted_upto number snap_index index term records'
  end.
Definition on_persist_ready (number : u64) : nm S unit :=
  records ← ngets rn_records;
  let '(records, (snap_index, (index, term))) := persisted_upto number 0 0 0 records in
  nmodify (set_rn_records records);;
  (if snap_index =? 0 then mret () else on_raft (on_persist_snap snap_index));;
  if index =? 0 then mret () else on_raft (on_persist_entries index term).

Definition advance_append (rd : Ready) : nm S LightReady :=
  commit_ready rd;;
  max_number ← ngets rn_max_number;
  on_persist_ready max_number;;
  light_rd ← gen_light_ready;
  leader ← ngets (λ n, bool_decide (r_state (rn_raft n) = Leader));
  nlift (if negb leader && negb (bool_decide (lr_messages light_rd = [])) then Panic Fatal else Done ());;
  hard_state ← ngets (λ n, hard_state (rn_raft n));
  prev ← ngets rn_prev_hs;
  light_rd ← (if hs_commit prev <? hs_commit hard_state then
                nmodify (set_rn_prev_hs (mkHardState (hs_term prev) (hs_vote prev) (hs_commit hard_state)));;
                mret (set_lr_commit_index (Some (hs_commit hard_state)) light_rd)
              else
                nlift (assert (hs_commit hard_state =? hs_commit prev));;
                mret (set_lr_commit_index None light_rd));
  prev ← ngets rn_prev_hs;
  nlift (assert (bool_decide (hard_state = prev)));;
  mret light_rd.

Definition advance_append_async (rd : Ready) : nm S unit := commit_ready rd.
Definition advance_apply : nm S unit :=
  since ← ngets rn_commit_since_index; commit_apply since.
Definition advance_apply_to (applied : u64) : nm S unit := commit_apply applied.

Definition advance (rd : Ready) : nm S LightReady :=
  applied ← ngets rn_commit_since_index;
  light_rd ← advance_append rd;
  advance_apply_to applied;;
  mret light_rd.
End raw_node.
