(* ===== verification/RawNodeOrder.v ===== *)
(** * What a node hands out, and in which order

    Committed entries and snapshots reach the application through [ready],
    [advance_append] and [advance]: what one such call delivers, and how it moves
    the position of the application. [RawNodeCalls] is about sequences of calls. *)
From S2P Require Import Prelude Errors Proto Util Quorum Storage Unstable ReadOnly Config.
From S2P Require Import Progress Tracker RaftLog RaftLogSpec RaftLogReads LogTotal RaftState RaftSend RaftLogic.
From S2P Require Import RaftRole RaftStep RaftTotal RaftEnds RawNode.
#[local] Open Scope N_scope.

(** ** Deliveries *)
Inductive delivery : Type :=
  | Applied (e : Entry)
  | Installed (s : Proto.Snapshot).

(** The application is at position [pos], and after [ds] at [pos']. *)
Fixpoint delivered (pos : u64) (ds : list delivery) (pos' : u64) : Prop :=
  match ds with
  | [] => pos' = pos
  | Applied e :: ds => e_index e = pos + 1 ∧ delivered (pos + 1) ds pos'
  | Installed s :: ds => pos ≤ sm_index (s_metadata s) ∧ delivered (sm_index (s_metadata s)) ds pos'
  end.

Lemma delivered_app pos ds1 mid ds2 pos' :
  delivered pos ds1 mid → delivered mid ds2 pos' → delivered pos (ds1 ++ ds2) pos'.
Proof.
  revert pos. induction ds1 as [|[e|s] ds1 IH]; intros pos; simpl; [by intros ->|..]; intros [? ?] ?; eauto.
Qed.

Definition last_position (pos : u64) (es : list Entry) : u64 :=
  match last es with Some e => e_index e | None => pos end.
Lemma delivered_entries pos es :
  contiguous (pos + 1) es → delivered pos (Applied <$> es) (last_position pos es).
Proof.
  unfold last_position. revert pos. induction es as [|e es IH]; intros pos Hc; simpl; [done|].
  change (e :: es) with ([e] ++ es) in Hc. apply contiguous_app in Hc as [He Hes].
  assert (e_index e = pos + 1) as Hi by (rewrite (He 0%nat e); simpl; [lia|done]).
  change (len [e]) with 1 in Hes. specialize (IH _ Hes). split; [done|].
  destruct es as [|e' es]; simpl in *; [done|]. rewrite last_cons in *. by destruct (last es).
Qed.
Lemma delivered_monotone pos ds pos' : delivered pos ds pos' → pos ≤ pos'.
Proof.
  revert pos. induction ds as [|[e|s] ds IH]; intros pos; simpl; [by intros ->|..];
    intros [? ?%IH]; lia.
Qed.

Section order.
Context {S : Type} `{StorageLaws S, PbMessage, HashOrder, Rng, ConfChangeCodec, ConfChangeEncoder}.
Implicit Types n : RawNode S.

Lemma nm_bind_Done {A B} (m : nm S A) (f : A → nm S B) n n' b :
  (m ≫= f) n = Done (n', b) → ∃ n1 a, m n = Done (n1, a) ∧ f a n1 = Done (n', b).
Proof. unfold mbind, nm_bind. intros ([n1 a] & E1 & E2)%bind_Done. eauto. Qed.
Lemma on_raft_Done {A} (m : rm S A) n n' a :
  on_raft m n = Done (n', a) → ∃ r, m (rn_raft n) = Done (r, a) ∧ n' = set_rn_raft r n.
Proof. unfold on_raft. intros ([r x] & E1 & [= <- <-])%bind_Done. eauto. Qed.
Lemma nlift_Done {A} (m : outcome A) n n' a : nlift m n = Done (n', a) → n' = n ∧ m = Done a.
Proof. unfold nlift. intros (x & -> & [= <- <-])%bind_Done. done. Qed.

(** The node after a light ready: the log was read, the messages and the entries
    up to [since] are gone. *)
Definition after_light (l : RaftLog S) (us : UncommittedState) (since : u64) n : RawNode S :=
  set_rn_commit_since_index since
    (set_rn_raft (set_r_msgs [] (set_r_uncommitted_state us (set_r_raft_log l (rn_raft n)))) n).

Lemma reduce_Done es (r r' : Raft S) u :
  reduce_uncommitted_size es r = Done (r', u) → ∃ us, r' = set_r_uncommitted_state us r.
Proof.
  unfold reduce_uncommitted_size. case_match.
  - intros [= <- _]. exists (r_uncommitted_state r). by destruct r.
  - intros ([us b] & _ & [= <- _])%bind_Done. eauto.
Qed.

Lemma gen_light_ready_Done n n' light :
  gen_light_ready n = Done (n', light) → ∃ l next us,
    next_entries_since (rn_commit_since_index n) (Some (r_max_committed_size_per_ready (rn_raft n))) (log_of n)
      = Done (l, next) ∧
    light = mkLightReady None (default [] next) (r_msgs (rn_raft n)) ∧
    n' = after_light l us (last_position (rn_commit_since_index n) (default [] next)) n.
Proof.
  intros E. unfold gen_light_ready in E.
  apply nm_bind_Done in E as (n1 & since & [= <- <-] & E).
  apply nm_bind_Done in E as (n1 & mx & [= <- <-] & E).
  apply nm_bind_Done in E as (n1 & next & (r1 & E1 & ->)%on_raft_Done & E).
  apply bind_Done in E1 as ([l x] & E1 & [= <- <-]).
  apply nm_bind_Done in E as (n2 & [] & (r2 & (us & ->)%reduce_Done & ->)%on_raft_Done & E).
  exists l, x, us. split; [exact E1|].
  apply nm_bind_Done in E as (n3 & [] & E3 & E).
  apply nm_bind_Done in E as (n4 & ms & [= <- <-] & E).
  apply nm_bind_Done in E as (n5 & [] & (r5 & [= <-] & ->)%on_raft_Done & [= <- <-]).
  unfold last_position. destruct (last (default [] x)) as [e|].
  - apply nm_bind_Done in E3 as (n4 & since & [= <- <-] & E3).
    apply nm_bind_Done in E3 as (n5 & [] & [-> _]%nlift_Done & [= <-]). by destruct n as [[]].
  - injection E3 as <-. by destruct n as [[]].
Qed.

(** *** [ready] in three parts: its checks, the light part, and the rest *)
Definition elected n : bool :=
  negb (bool_decide (ss_raft_state (rn_prev_ss n) = Leader)) && bool_decide (r_state (rn_raft n) = Leader).
Definition pending n : option Proto.Snapshot := u_snapshot (l_unstable (log_of n)).
(** The position of the application once it has the pending snapshot. *)
Definition snapshot_position n : u64 :=
  match pending n with Some s => sm_index (s_metadata s) | None => rn_commit_since_index n end.
Definition ready_checks n : outcome unit :=
  _ ← rn_max_number n +! 1;
  _ ← assert (negb (elected n) || forallb has_nothing (rn_records n));
  match pending n with
  | Some s =>
      _ ← assert (rn_commit_since_index n <=? sm_index (s_metadata s));
      b ← has_next_entries_since (sm_index (s_metadata s)) (log_of n); assert (negb b)
  | None => Done ()
  end.
Definition opening n : RawNode S :=
  mkRawNode (set_r_read_states [] (rn_raft n)) (rn_prev_ss n) (rn_prev_hs n) (rn_max_number n + 1)
    (if elected n then [] else rn_records n) (snapshot_position n).
Definition last_of (es : list Entry) : option (u64 * u64) := (λ e, (e_index e, e_term e)) <$> last es.
Definition record_of n : ReadyRecord :=
  mkReadyRecord (rn_max_number n + 1) (last_of (u_entries (l_unstable (log_of n)))) (position_of <$> pending n).
Definition changed {A} `{EqDecision A} (old new : A) : option A := if bool_decide (new = old) then None else Some new.
Definition ready_of n (light : LightReady) : Ready :=
  let hs := hard_state (rn_raft n) in
  let es := u_entries (l_unstable (log_of n)) in
  mkReady (rn_max_number n + 1) (changed (rn_prev_ss n) (soft_state (rn_raft n))) (changed (rn_prev_hs n) hs)
    (r_read_states (rn_raft n)) es (default Snapshot_default (pending n))
    (negb (bool_decide (r_state (rn_raft n) = Leader))) light
    (negb (hs_vote hs =? hs_vote (rn_prev_hs n)) || negb (hs_term hs =? hs_term (rn_prev_hs n))
     || bool_decide (is_Some (pending n)) || bool_decide (is_Some (last_of es))).

Lemma ready_eq n :
  ready n = (_ ← ready_checks n; '(n2, light) ← gen_light_ready (opening n);
             Done (set_rn_records (rn_records n2 ++ [record_of n]) n2, ready_of n light)).
Proof.
  unfold ready, ready_checks, drop_candidate_records, ready_snapshot, ngets, nmodify, nlift, on_raft, modify.
  unfold mbind, mret, nm_bind, nm_ret. cbn -[gen_light_ready].
  destruct (rn_max_number n +! 1) as [k| |] eqn:Ek; cbn -[gen_light_ready]; [|done..].
  apply add64_Done in Ek as [Hk ->]. fold (elected n).
  unfold opening, record_of, ready_of, snapshot_position, pending, changed, last_of.
  unfold log_of. destruct (elected n); cbn -[gen_light_ready];
    [destruct (forallb has_nothing (rn_records n)); cbn -[gen_light_ready]; [|done]|];
    (destruct (u_snapshot (l_unstable (r_raft_log (rn_raft n)))) as [s|]; cbn -[gen_light_ready]; [|done];
     destruct (assert (rn_commit_since_index n <=? _)); cbn -[gen_light_ready]; [|done..]; unfold log_of;
     cbn -[gen_light_ready]; destruct (has_next_entries_since _ _) as [b| |]; cbn -[gen_light_ready]; [|done..];
     by destruct (assert (negb b))).
Qed.

(** ** What persisting leaves of the log *)
Definition same_base (r r' : Raft S) : Prop :=
  joined (r_raft_log r) →
  joined (r_raft_log r') ∧ st_first (l_store (r_raft_log r')) = st_first (l_store (r_raft_log r)) ∧
  l_unstable (r_raft_log r') = l_unstable (r_raft_log r).
#[local] Instance same_base_preorder : PreOrder same_base.
Proof.
  split; [done|]. intros r1 r2 r3 H12 H23 Hj. destruct (H12 Hj) as (Hj2 & <- & <-). by apply H23.
Qed.
Lemma quiet_same_base r r' : quiet r r' → same_base r r'.
Proof. intros Hq Hj. specialize (Hq Hj). split; [by eapply same_log_joined|]. by destruct Hq. Qed.
Lemma base_of_log (r : Raft S) l :
  l_store l = l_store (r_raft_log r) → l_unstable l = l_unstable (r_raft_log r) → same_base r (set_r_raft_log l r).
Proof. intros Hs Hu Hj. simpl. rewrite Hs, Hu. split; [by apply (joined_same (r_raft_log r))|done]. Qed.

Ltac leaf := solve [by apply quiet_same_base, quiet_same].
Lemma bcast_append_base : keeps same_base (bcast_append (S := S)).
Proof. eapply keeps_sub; [apply bcast_append_quiet|exact quiet_same_base]. Qed.
Lemma maybe_persist_base i t : keeps same_base (with_log (maybe_persist (S := S) i t)).
Proof.
  apply keeps_with_log. intros r l a E. apply base_of_log; unfold maybe_persist in E; inv_done; by case_match; inv_done.
Qed.
Lemma maybe_persist_snap_base i : keeps same_base (with_log (maybe_persist_snap (S := S) i)).
Proof. apply keeps_with_log. intros r l a E. apply base_of_log; unfold maybe_persist_snap in E; by repeat case_match; inv_done. Qed.
Lemma log_maybe_commit_base i t : keeps same_base (with_log (RaftLog.maybe_commit (S := S) i t)).
Proof.
  apply keeps_with_log. intros r l a E. apply base_of_log; unfold RaftLog.maybe_commit, commit_to in E;
    inv_done; repeat (case_match; inv_done); done.
Qed.
Hint Resolve maybe_persist_base maybe_persist_snap_base log_maybe_commit_base : raft_keeps.
Lemma maybe_commit_base : keeps same_base (RaftSend.maybe_commit (S := S)).
Proof. unfold RaftSend.maybe_commit. keeps leaf. Qed.
Hint Resolve maybe_commit_base bcast_append_base : raft_keeps.
Lemma on_persist_entries_base i t : keeps same_base (on_persist_entries (S := S) i t).
Proof. unfold on_persist_entries. keeps leaf. Qed.
Lemma on_persist_snap_base i : keeps same_base (on_persist_snap (S := S) i).
Proof. unfold on_persist_snap. keeps leaf. Qed.

(** ** What a call delivers *)
Lemma gen_light_ready_delivers n n' light :
  joined (log_of n) → first (log_of n) ≤ rn_commit_since_index n + 1 → gen_light_ready n = Done (n', light) →
  delivered (rn_commit_since_index n) (Applied <$> lr_committed_entries light) (rn_commit_since_index n') ∧
  ∀ e, e ∈ lr_committed_entries light → e ∈ ents (log_of n) ∧ e_index e ≤ l_committed (log_of n).
Proof.
  intros Hj Hf (l & next & us & E & -> & ->)%gen_light_ready_Done. simpl.
  apply next_entries_since_range in E as [_ Hp]; [|done]. rewrite N.max_l in Hp by done.
  pose proof (range_contiguous (log_of n) _ (l_committed (log_of n) + 1) Hj Hf) as Hc.
  split; [apply delivered_entries; by eapply contiguous_prefix|].
  intros e He. destruct Hp as [k Hk].
  assert (e ∈ range (first (log_of n)) (ents (log_of n)) (rn_commit_since_index n + 1) (l_committed (log_of n) + 1)) as Hin
    by (rewrite Hk; apply elem_of_app; by left).
  apply list_elem_of_lookup in Hin as [i Hi]. pose proof (Hc i e Hi) as Hidx.
  unfold range in Hi. apply lookup_take_Some in Hi as [Hi Hlt]. split; [|lia].
  rewrite lookup_drop in Hi. apply list_elem_of_lookup. eauto.
Qed.

(** The snapshot that a [Ready] carries. *)
Definition installed (rd : Ready) : list delivery :=
  if Snapshot_is_empty (ry_snapshot rd) then [] else [Installed (ry_snapshot rd)].

(** The application has not compacted what it has not got yet. *)
Definition not_ahead n : Prop := joined (log_of n) ∧ st_first (l_store (log_of n)) ≤ rn_commit_since_index n + 1.

Lemma ready_delivers n n' rd :
  not_ahead n → ready n = Done (n', rd) →
  delivered (rn_commit_since_index n) (installed rd ++ (Applied <$> Ready.committed_entries rd)) (rn_commit_since_index n').
Proof.
  intros [Hj Hf] E. rewrite ready_eq in E. apply bind_Done in E as ([] & Hc & E).
  apply bind_Done in E as ([n2 light] & El & [= <- <-]).
  apply gen_light_ready_delivers in El as [Hd _]; [|exact Hj|].
  - eapply delivered_app; [|exact Hd]. unfold installed, opening, snapshot_position, ready_of. simpl.
    unfold ready_checks in Hc. destruct (pending n) as [s|]; simpl; [|done].
    inv_done. repeat match goal with E : (_ <=? _) = true |- _ => apply N.leb_le in E end. unfold Snapshot_is_empty. destruct (N.eqb_spec (sm_index (s_metadata s)) 0); simpl; lia.
  - change (log_of (opening n)) with (log_of n). unfold opening, snapshot_position, first, pending. simpl.
    destruct (u_snapshot (l_unstable (log_of n))) as [s|] eqn:Es; [|done].
    change (u_offset (l_unstable (log_of n)) ≤ sm_index (s_metadata s) + 1).
    rewrite (uo_snapshot _ (jo_unstable _ Hj) s Es). lia.
Qed.

Lemma commit_ready_since rd n n' u : commit_ready rd n = Done (n', u) →
  rn_commit_since_index n' = rn_commit_since_index n ∧ rn_max_number n' = rn_max_number n.
Proof.
  intros E. unfold commit_ready in E. apply nm_bind_Done in E as (n1 & [] & E1 & E).
  assert (rn_commit_since_index n1 = rn_commit_since_index n ∧ rn_max_number n1 = rn_max_number n) as [<- <-]
    by (destruct (ry_ss rd); by injection E1 as <-).
  apply nm_bind_Done in E as (n2 & [] & E2 & E).
  assert (rn_commit_since_index n2 = rn_commit_since_index n1 ∧ rn_max_number n2 = rn_max_number n1) as [<- <-]
    by (destruct (ry_hs rd); by injection E2 as <-).
  apply nm_bind_Done in E as (n3 & record & (x & _ & [= <- <-])%bind_Done & E).
  apply nm_bind_Done in E as (n4 & [] & [-> _]%nlift_Done & E).
  apply nm_bind_Done in E as (n5 & [] & E5 & E).
  assert (rn_commit_since_index n5 = rn_commit_since_index n2 ∧ rn_max_number n5 = rn_max_number n2) as [<- <-].
  { destruct (rr_snapshot x) as [[]|]; [by apply on_raft_Done in E5 as (r & _ & ->)|by injection E5 as <-]. }
  destruct (rr_last_entry x) as [[]|]; [by apply on_raft_Done in E as (r & _ & ->)|by injection E as <-].
Qed.

Lemma on_persist_ready_base number n n' u :
  joined (log_of n) → on_persist_ready number n = Done (n', u) →
  rn_commit_since_index n' = rn_commit_since_index n ∧ joined (log_of n') ∧
  st_first (l_store (log_of n')) = st_first (l_store (log_of n)) ∧ l_unstable (log_of n') = l_unstable (log_of n).
Proof.
  intros Hj E. unfold on_persist_ready in E. apply nm_bind_Done in E as (n1 & recs & [= <- <-] & E).
  destruct (persisted_upto _ _ _ _ _) as [recs [si [i t]]].
  apply nm_bind_Done in E as (n2 & [] & [= <-] & E).
  apply nm_bind_Done in E as (n3 & [] & E3 & E).
  assert (rn_commit_since_index n3 = rn_commit_since_index n ∧ same_base (rn_raft n) (rn_raft n3)) as [Hs3 Hb3].
  { destruct (si =? 0); [injection E3 as <-; by destruct n|].
    apply on_raft_Done in E3 as (r & Hr & ->). split; [done|]. by eapply on_persist_snap_base. }
  unfold log_of in *. destruct (Hb3 Hj) as (Hj3 & <- & <-). destruct (i =? 0); [injection E as <-; by split_and!|].
  apply on_raft_Done in E as (r & Hr & ->). split; [done|]. by apply (on_persist_entries_base _ _ _ _ _ Hr).
Qed.

Lemma advance_append_Done rd n n' light : advance_append rd n = Done (n', light) →
  ∃ n1 n2 n3 l, commit_ready rd n = Done (n1, ()) ∧ on_persist_ready (rn_max_number n1) n1 = Done (n2, ()) ∧
    gen_light_ready n2 = Done (n3, l) ∧ lr_committed_entries light = lr_committed_entries l ∧
    rn_commit_since_index n' = rn_commit_since_index n3 ∧ rn_raft n' = rn_raft n3.
Proof.
  intros E. unfold advance_append in E. apply nm_bind_Done in E as (n1 & [] & E1 & E).
  apply nm_bind_Done in E as (n1' & mx & [= <- <-] & E). apply nm_bind_Done in E as (n2 & [] & E2 & E).
  apply nm_bind_Done in E as (n3 & l & E3 & E). exists n1, n2, n3, l. split_and!; [done..| | |].
  all: apply nm_bind_Done in E as (n4 & b & [= <- <-] & E); apply nm_bind_Done in E as (n5 & [] & [-> _]%nlift_Done & E);
    apply nm_bind_Done in E as (n6 & hs & [= <- <-] & E); apply nm_bind_Done in E as (n7 & prev & [= <- <-] & E);
    apply nm_bind_Done in E as (n8 & l' & E8 & E); apply nm_bind_Done in E as (n9 & prev & [= <- <-] & E);
    apply nm_bind_Done in E as (n10 & [] & [-> _]%nlift_Done & [= <- <-]); destruct (_ <? _) in E8;
    [apply nm_bind_Done in E8 as (n11 & [] & [= <-] & [= <- <-])
    |apply nm_bind_Done in E8 as (n11 & [] & [-> _]%nlift_Done & [= <- <-])]; done.
Qed.

(** The application has written what it reports: after [commit_ready] nothing is
    missing from the log. *)
Definition written rd n : Prop :=
  ∀ n1, commit_ready rd n = Done (n1, ()) → not_ahead n1 ∧ pending n1 = None.

Lemma advance_append_delivers rd n n' light :
  written rd n → advance_append rd n = Done (n', light) →
  delivered (rn_commit_since_index n) (Applied <$> lr_committed_entries light) (rn_commit_since_index n').
Proof.
  intros Hw (n1 & n2 & n3 & l & E1 & E2 & E3 & -> & -> & _)%advance_append_Done.
  destruct (Hw n1 E1) as [[Hj Hf] Hp]. apply commit_ready_since in E1 as [<- _].
  apply on_persist_ready_base in E2 as (Hs2 & Hj2 & Hf2 & Hu2); [|done]. rewrite <-Hs2 in *.
  apply gen_light_ready_delivers in E3 as [Hd _]; [done..|].
  unfold first. rewrite Hu2. change (u_snapshot (l_unstable (log_of n1))) with (pending n1). by rewrite Hp, Hf2.
Qed.
End order.
