(* ===== verification/RawNodeCalls.v ===== *)
(** * Sequences of calls

    What a node hands out over any sequence of calls of the application: committed
    entries come once and in order, and, if every batch is reported before the next
    one is taken, a snapshot once for each time the node has received it. *)
From S2P Require Import Prelude Errors Proto Util Quorum Storage Unstable ReadOnly Config.
From S2P Require Import Progress Tracker RaftLog RaftLogSpec RaftLogReads LogTotal LogFinal RaftState RaftSend RaftLogic.
From S2P Require Import RaftRole RaftStep RaftTotal RaftEnds RaftWalk RaftFinal RaftPlain RawNode RawNodeOrder.
#[local] Open Scope N_scope.

(** ** Sequences *)

(** The kinds of calls: taking a batch ([ready]), reporting the last one ([advance]
    and its relatives), and the others. *)
Inductive kind : Set := Took | Reported | Other.

(** What is seen of a call: its kind, what it delivers, and the snapshot it leaves
    pending if there was none or another one before. *)
Record happening := mkHappening { ha_kind : kind; ha_delivers : list delivery; ha_receives : option Proto.Snapshot }.
Definition deliveries (tr : list happening) : list delivery := tr ≫= ha_delivers.
Definition receipts (tr : list happening) : list Proto.Snapshot := tr ≫= λ h, option_list (ha_receives h).
Definition snapshots (ds : list delivery) : list Proto.Snapshot :=
  ds ≫= λ d, match d with Installed s => [s] | Applied _ => [] end.

(** Batches are taken and reported in turns; [open] tells whether one is out. *)
Fixpoint in_turns (open : bool) (tr : list happening) : Prop :=
  match tr with
  | [] => True
  | h :: tr =>
      match ha_kind h with
      | Took => open = false ∧ in_turns true tr
      | Reported => open = true ∧ in_turns false tr
      | Other => in_turns open tr
      end
  end.

Section calls.
Context {S : Type} `{StorageLaws S, PbMessage, HashOrder, Rng, ConfChangeCodec, ConfChangeEncoder}.
Implicit Types n : RawNode S.

(** A call of the application. [call_input] is any method that only goes to the state
    machine (ticks, messages, proposals, reports), or a write to the storage. *)
Inductive call : RawNode S → kind → list delivery → RawNode S → Prop :=
  | call_ready n n' rd : not_ahead n → ready n = Done (n', rd) →
      call n Took (installed rd ++ (Applied <$> Ready.committed_entries rd)) n'
  | call_advance_append rd n n' light : written rd n → advance_append rd n = Done (n', light) →
      call n Reported (Applied <$> lr_committed_entries light) n'
  | call_advance rd n n' light : written rd n → advance rd n = Done (n', light) →
      call n Reported (Applied <$> lr_committed_entries light) n'
  | call_advance_append_async rd n n' u : advance_append_async rd n = Done (n', u) → call n Reported [] n'
  | call_on_persist_ready number n n' u : joined (log_of n) → on_persist_ready number n = Done (n', u) → call n Other [] n'
  | call_advance_apply_to i n n' u : advance_apply_to i n = Done (n', u) → call n Other [] n'
  | call_input {A} (m : rm S A) n n' a : on_raft m n = Done (n', a) → call n Other [] n'.

Definition received n n' : option Proto.Snapshot := if bool_decide (pending n' = pending n) then None else pending n'.
Inductive calls : RawNode S → list happening → RawNode S → Prop :=
  | calls_nil n : calls n [] n
  | calls_cons n1 k ds n2 tr n3 :
      call n1 k ds n2 → calls n2 tr n3 → calls n1 (mkHappening k ds (received n1 n2) :: tr) n3.

(** ** Positions *)
Lemma call_delivers n k ds n' : call n k ds n' → delivered (rn_commit_since_index n) ds (rn_commit_since_index n').
Proof.
  destruct 1 as [n n' rd Ha E|rd n n' light Hw E|rd n n' light Hw E|rd n n' u E|number n n' u Hj E|i n n' u E|A m n n' a E].
  - by apply ready_delivers.
  - by eapply advance_append_delivers.
  - unfold advance in E. apply nm_bind_Done in E as (n1 & i & [= <- <-] & E).
    apply nm_bind_Done in E as (n2 & l & E2 & E). apply nm_bind_Done in E as (n3 & [] & (r & _ & ->)%on_raft_Done & [= <- <-]).
    by eapply advance_append_delivers in E2.
  - by apply commit_ready_since in E as [-> _].
  - by apply on_persist_ready_base in E as [-> _].
  - by apply on_raft_Done in E as (r & _ & ->).
  - by apply on_raft_Done in E as (r & _ & ->).
Qed.
Lemma calls_deliver n tr n' : calls n tr n' → delivered (rn_commit_since_index n) (deliveries tr) (rn_commit_since_index n').
Proof. induction 1; [done|]. eapply delivered_app; [by eapply call_delivers|done]. Qed.

(** ** The pending snapshot *)

(** A log with the same pending snapshot. *)
Definition still (l l' : RaftLog S) : Prop :=
  joined l → joined l' ∧ u_snapshot (l_unstable l') = u_snapshot (l_unstable l).
#[local] Instance still_preorder : PreOrder still.
Proof. split; [done|]. intros l1 l2 l3 H12 H23 Hj. destruct (H12 Hj) as [Hj2 <-]. by apply H23. Qed.
Lemma still_same l l' : l_store l' = l_store l → l_unstable l' = l_unstable l → still l l'.
Proof. intros Es Eu Hj. rewrite Eu. split; [by apply (joined_same l)|done]. Qed.
Lemma still_read l l' : (joined l → same_log l l') → still l l'.
Proof. intros Hs Hj. specialize (Hs Hj). split; [by eapply same_log_joined|]. by rewrite (sl_unstable _ _ Hs). Qed.
#[local] Instance still_ops : LogOps still.
Proof.
  split; [apply _|by apply still_read|by intros; apply still_same|..].
  - intros i t l l' b E. apply still_same; unfold RaftLog.maybe_commit, commit_to in E; repeat (case_match; inv_done); done.
  - intros i t l l' b E. apply still_same; unfold maybe_persist in E; repeat (case_match; inv_done); done.
  - intros i l l' E. apply still_same; unfold applied_to in E; repeat (case_match; inv_done); done.
  - intros es l l' i Hc E Hj. destruct (append_end es l l' i) as (Hj' & _); [by auto..|]. split; [done|].
    by apply append_same_base in E as [E _].
Qed.
Lemma commit_apply_still i n n' u : commit_apply i n = Done (n', u) → still (log_of n) (log_of n').
Proof. intros (r & E & ->)%on_raft_Done. by eapply (commit_apply_walks (on_log still)). Qed.
Lemma next_entries_since_still since mx l l' es : next_entries_since since mx l = Done (l', es) → still l l'.
Proof.
  intros E. apply still_read. intros Hj. unfold next_entries_since in E.
  apply bind_Done in E as (s & _ & E). apply bind_Done in E as (f & _ & E). apply bind_Done in E as (b & _ & E).
  apply bind_Done in E as (hi & _ & E). destruct (_ <? hi); [|injection E as <- _; by apply joined_refl].
  apply bind_Done in E as ([l1 r] & Es & E). pose proof (slice_reads (N.max s f) hi mx GenReady l Hj) as Hr. rewrite Es in Hr.
  by destruct r; simplify_eq.
Qed.
Lemma gen_light_ready_still n n' light : gen_light_ready n = Done (n', light) →
  still (log_of n) (log_of n') ∧ rn_records n' = rn_records n.
Proof. intros (l & next & us & E & _ & ->)%gen_light_ready_Done. split; [by eapply next_entries_since_still|done]. Qed.

(** Taking a batch leaves the snapshot pending, and a record of it. *)
Lemma ready_pending n n' rd : joined (log_of n) → ready n = Done (n', rd) →
  pending n' = pending n ∧ last (rn_records n') = Some (record_of n) ∧
  snapshots (installed rd ++ (Applied <$> Ready.committed_entries rd)) `sublist_of` option_list (pending n).
Proof.
  intros Hj E. rewrite ready_eq in E. apply bind_Done in E as ([] & _ & E).
  apply bind_Done in E as ([n2 light] & El & [= <- <-]). apply gen_light_ready_still in El as [Hs _].
  destruct (Hs Hj) as [_ Hp]. split_and!; [exact Hp|simpl; by rewrite last_snoc|].
  unfold snapshots. rewrite bind_app. fold (snapshots (installed (ready_of n light))).
  replace ((Applied <$> Ready.committed_entries (ready_of n light)) ≫= _) with (@nil Proto.Snapshot)
    by (by induction (Ready.committed_entries (ready_of n light))).
  rewrite app_nil_r. unfold installed, ready_of. simpl. destruct (pending n) as [s|]; simpl; [|done].
  destruct (Snapshot_is_empty s); [apply sublist_nil_l|done].
Qed.

(** Reporting a batch ends the snapshot it carried. *)
Lemma commit_ready_pending rd n n' u : commit_ready rd n = Done (n', u) →
  pending n' = None ∨ ∃ rec, last (rn_records n) = Some rec ∧ rr_snapshot rec = None ∧ pending n' = pending n.
Proof.
  intros E. unfold commit_ready in E. apply nm_bind_Done in E as (n1 & [] & E1 & E).
  assert (rn_raft n1 = rn_raft n ∧ rn_records n1 = rn_records n) as [Hr1 Hc1] by (destruct (ry_ss rd); by injection E1 as <-).
  apply nm_bind_Done in E as (n2 & [] & E2 & E).
  assert (rn_raft n2 = rn_raft n1 ∧ rn_records n2 = rn_records n1) as [Hr2 Hc2] by (destruct (ry_hs rd); by injection E2 as <-).
  apply nm_bind_Done in E as (n3 & rec & (x & Hx%unwrap_Done & [= <- ->])%bind_Done & E).
  apply nm_bind_Done in E as (n4 & [] & [-> _]%nlift_Done & E). apply nm_bind_Done in E as (n5 & [] & E5 & E).
  assert (pending n' = pending n5) as ->.
  { destruct (rr_last_entry rec) as [[i t]|]; [|by injection E as <-]. apply on_raft_Done in E as (r & (l & El & ->)%rm_update_log_Done & ->).
    unfold pending, log_of. simpl. unfold stable_entries in El. apply bind_Done in El as (v & Ev & [= <-]).
    unfold Unstable.stable_entries in Ev. repeat (case_match; inv_done); done. }
  rewrite Hc2, Hc1 in Hx. assert (pending n2 = pending n) as Hp by (unfold pending, log_of; by rewrite Hr2, Hr1).
  destruct (rr_snapshot rec) as [[i t]|] eqn:Er.
  - apply on_raft_Done in E5 as (r & (l & El & ->)%rm_update_log_Done & ->).
    left. change (u_snapshot (l_unstable l) = None).
    unfold stable_snap in El. apply bind_Done in El as (v & Ev & [= <-]). unfold Unstable.stable_snap in Ev.
    repeat (case_match; inv_done); done.
  - injection E5 as <-. right. by exists rec.
Qed.
Lemma advance_append_pending rd n n' light : written rd n → advance_append rd n = Done (n', light) →
  joined (log_of n') ∧ pending n' = None.
Proof.
  intros Hw E. apply advance_append_Done in E as (n1 & n2 & n3 & l & E1 & E2 & E3 & _ & _ & Hr).
  destruct (Hw n1 E1) as [[Hj _] Hp]. apply on_persist_ready_base in E2 as (_ & Hj2 & _ & Hu2); [|done].
  apply gen_light_ready_still in E3 as [Hs _]. destruct (Hs Hj2) as [Hj3 Hp3].
  unfold pending, log_of in *. rewrite Hr. by rewrite Hp3, Hu2.
Qed.
Lemma reported n ds n' : call n Reported ds n' →
  snapshots ds = [] ∧
  (pending n' = None ∨ ∃ rec, last (rn_records n) = Some rec ∧ rr_snapshot rec = None ∧ pending n' = pending n).
Proof.
  assert (∀ es, snapshots (Applied <$> es) = []) as Hes by (intros es; by induction es).
  intros Hc. inv Hc as [|rd ? ? light Hw E|rd ? ? light Hw E|rd ? ? u E| | |].
  - apply advance_append_pending in E as [_ Hp]; auto.
  - unfold advance in E. apply nm_bind_Done in E as (n1 & i & [= <- <-] & E).
    apply nm_bind_Done in E as (n2 & l & E2 & E). apply nm_bind_Done in E as (n3 & [] & E3 & [= <- <-]).
    apply advance_append_pending in E2 as [Hj Hp]; [|done]. apply commit_apply_still in E3. destruct (E3 Hj) as [_ Hp3].
    unfold pending in *. rewrite Hp in Hp3. auto.
  - split; [done|]. by eapply commit_ready_pending.
Qed.

(** The other calls do not look at the records, but for dropping the first ones. *)
Lemma persisted_upto_suffix number si i t recs : ∃ k, recs = k ++ (persisted_upto number si i t recs).1.
Proof.
  revert si i t. induction recs as [|rec recs IH]; intros si i t; simpl; [by exists []|].
  destruct (number <? rr_number rec); [by exists []|]. destruct (match rr_snapshot rec with Some _ => _ | None => _ end) as [si' [i' t']].
  destruct (default _ _) as [i2 t2]. destruct (IH si' i2 t2) as [k Hk]. exists (rec :: k). by rewrite Hk at 1.
Qed.
Lemma others n ds n' : call n Other ds n' →
  ds = [] ∧ ∃ k, rn_records n = k ++ rn_records n'.
Proof.
  intros Hc. inv Hc as [| | | |number ? ? u Hj E|i ? ? u E|A m ? ? a E]; (split; [done|]).
  - unfold on_persist_ready in E. apply nm_bind_Done in E as (n1 & recs & [= <- <-] & E).
    pose proof (persisted_upto_suffix number 0 0 0 (rn_records n)) as [k Hk].
    destruct (persisted_upto _ _ _ _ _) as [recs [si [i t]]]. exists k. simpl in Hk. rewrite Hk. f_equal.
    apply nm_bind_Done in E as (n2 & [] & [= <-] & E). apply nm_bind_Done in E as (n3 & [] & E3 & E).
    assert (recs = rn_records n3) as -> by (destruct (si =? 0); [by injection E3 as <-|by apply on_raft_Done in E3 as (r & _ & ->)]).
    destruct (i =? 0); [by injection E as <-|by apply on_raft_Done in E as (r & _ & ->)].
  - apply on_raft_Done in E as (r & _ & ->). by exists [].
  - apply on_raft_Done in E as (r & _ & ->). by exists [].
Qed.

(** ** The snapshots of a sequence *)

(** Whether the batch that is out carries the pending snapshot; what is still to be
    handed out. *)
Inductive stage : Set := Closed | Out (carried : bool).
Definition is_out (p : stage) : bool := match p with Closed => false | Out _ => true end.
Definition due (p : stage) n : list Proto.Snapshot :=
  match p with Out true => [] | _ => option_list (pending n) end.
Definition recorded (p : stage) n : Prop :=
  match p with
  | Out true => ∀ rec, last (rn_records n) = Some rec → pending n ≠ None → rr_snapshot rec ≠ None
  | _ => True
  end.

Lemma calls_snapshots n tr n' p :
  calls n tr n' → in_turns (is_out p) tr → recorded p n →
  snapshots (deliveries tr) `sublist_of` due p n ++ receipts tr.
Proof.
  intros Hc. revert p. induction Hc as [n|n1 k ds n2 tr n3 Hc Hcs IH]; intros p Ht Hr; [apply sublist_nil_l|].
  change (deliveries (_ :: tr)) with (ds ++ deliveries tr). change (receipts (_ :: tr)) with (option_list (received n1 n2) ++ receipts tr).
  unfold snapshots at 1. rewrite bind_app. fold (snapshots ds) (snapshots (deliveries tr)).
  assert (pending n2 = pending n1 → received n1 n2 = None) as Hsame by (intros E; unfold received; by rewrite bool_decide_eq_true_2).
  assert (pending n2 ≠ pending n1 → received n1 n2 = pending n2) as Hdiff by (intros E; unfold received; by rewrite bool_decide_eq_false_2).
  assert (pending n2 = None → received n1 n2 = None) as Hnone by (intros E; destruct (decide (pending n2 = pending n1)); [auto|by rewrite Hdiff]).
  destruct k; simpl in Ht.
  - destruct p; [|by destruct Ht]. destruct Ht as [_ Ht]. inv Hc as [? ? rd [Hj Hf] E| | | | | |].
    apply ready_pending in E as (Hp & Hl & Hs); [|done]. rewrite Hsame by done. simpl.
    apply sublist_app; [done|]. apply (IH (Out true)); [done|]. intros rec Hrec Hn. rewrite Hl in Hrec. simplify_eq.
    rewrite Hp in Hn. simpl. by destruct (pending n1).
  - destruct p as [|b]; [by destruct Ht|]. destruct Ht as [_ Ht]. apply reported in Hc as [-> Hp]. simpl.
    specialize (IH Closed Ht I). simpl in IH. destruct Hp as [Hp|(rec & Hrec & Hsn & Hp)].
    { rewrite Hp in IH. rewrite Hnone by done. by apply sublist_inserts_l. }
    rewrite Hsame by done. rewrite Hp in IH. destruct b; [|done]. simpl in *. specialize (Hr rec Hrec).
    destruct (pending n1); [by destruct Hr|done].
  - apply others in Hc as [-> [k Hk]]. simpl. destruct (decide (pending n2 = pending n1)) as [E|E].
    + rewrite Hsame by done. simpl. replace (due p n1) with (due p n2) by (unfold due; by rewrite E).
      apply IH; [done|]. destruct p as [|[]]; [done| |done]. intros rec Hrec. rewrite E. apply Hr. rewrite Hk.
      by rewrite last_app, Hrec.
    + rewrite Hdiff by done. apply sublist_inserts_l.
      destruct p; [by apply (IH Closed)|by apply (IH (Out false))].
Qed.
End calls.

(** C15: committed entries are handed out once and in order, over any sequence of
    calls ([ready], [advance] and its relatives, anything that goes to the state
    machine, writes to the storage): the application receives exactly the positions
    after the one it started from, each next entry is the next position, and only a
    snapshot may skip positions, forward. The position is always the one that
    [commit_since_index] holds. A snapshot stays pending, and is in every batch,
    until a batch that carries it is reported; so if the application reports each
    batch before it takes the next one, as it has to, the snapshots it gets are, in
    order and at most once each, the one that was pending at the start and those
    received since. The application has to respect that it does not compact what it
    has not got, and has written a [Ready] to its storage before it reports it. *)
Theorem handed_out_in_order {S} `{StorageLaws S, PbMessage, HashOrder, Rng, ConfChangeCodec, ConfChangeEncoder}
    (n n' : RawNode S) tr :
  calls n tr n' →
  delivered (rn_commit_since_index n) (deliveries tr) (rn_commit_since_index n') ∧
  rn_commit_since_index n ≤ rn_commit_since_index n' ∧
  (in_turns false tr → snapshots (deliveries tr) `sublist_of` option_list (pending n) ++ receipts tr).
Proof.
  intros Hc. pose proof (calls_deliver _ _ _ Hc) as Hd. split_and!; [done|by eapply delivered_monotone|].
  intros Ht. by apply (calls_snapshots n tr n' Closed).
Qed.
