(* ===== verification/RawNodeSpec.v ===== *)
(** * What a batch of output contains

    [ready] against its contract: what it hands out, what it keeps back until the
    application has persisted, and that [has_ready] announces exactly the batches
    that are not empty. *)
From S2P Require Import Prelude Errors Proto Util Quorum Storage Unstable ReadOnly Config.
From S2P Require Import Progress Tracker RaftLog RaftLogSpec RaftLogReads LogTotal RaftState RaftSend RaftLogic.
From S2P Require Import RaftRole RaftStep RaftTotal RaftEnds RawNode RawNodeOrder.
#[local] Open Scope N_scope.

(** ** The size of the data of entries *)
Definition data_total (es : list Entry) : N := foldr (λ e n, len (e_data e) + n) 0 es.

Lemma data_total_app es1 es2 : data_total (es1 ++ es2) = data_total es1 + data_total es2.
Proof. induction es1 as [|e es1 IH]; simpl; [done|]. rewrite IH. lia. Qed.
Lemma data_total_prefix es es' : es `prefix_of` es' → data_total es ≤ data_total es'.
Proof. intros [k ->]. rewrite data_total_app. lia. Qed.
Lemma data_total_range f es lo hi : data_total (range f es lo hi) ≤ data_total es.
Proof.
  unfold range. etrans; [apply data_total_prefix; exists (drop (N.to_nat (hi - lo)) (drop (N.to_nat (lo - f)) es));
    by rewrite take_drop|].
  rewrite <-(take_drop (N.to_nat (lo - f)) es) at 2. rewrite data_total_app. lia.
Qed.
Lemma data_total_skip t es : data_total (skip_until t es) ≤ data_total es.
Proof. induction es as [|e es IH]; simpl; [done|]. case_match; simpl; lia. Qed.
Lemma data_size_ok es : data_total es ≤ u64_max → data_size es = Done (data_total es).
Proof.
  unfold data_size. induction es as [|e es IH]; simpl; intros Hle; [done|].
  rewrite IH by lia. simpl. by rewrite add64_ok by lia.
Qed.

Section spec.
Context {S : Type} `{StorageLaws S, PbMessage, HashOrder, Rng, ConfChangeCodec, ConfChangeEncoder}.
Implicit Types n : RawNode S.

Lemma reduce_ok es (r : Raft S) :
  data_total es ≤ u64_max → ∃ us, reduce_uncommitted_size es r = Done (set_r_uncommitted_state us r, ()).
Proof.
  intros Hle. unfold reduce_uncommitted_size, maybe_reduce_uncommitted.
  destruct (negb _); [exists (r_uncommitted_state r); by destruct r|].
  destruct (_ || _); [by eexists|]. pose proof (data_total_skip (us_last_log_tail_index (r_uncommitted_state r)) es).
  rewrite data_size_ok by lia. cbn [mbind outcome_bind]. destruct (N.ltb_spec (us_uncommitted_size (r_uncommitted_state r))
    (data_total (skip_until (us_last_log_tail_index (r_uncommitted_state r)) es))); [by eexists|].
  rewrite sub64_ok by lia. by eexists.
Qed.

(** The positions of the log from which [next_entries_since] takes. *)
Definition apply_limit (l : RaftLog S) : u64 :=
  N.min (l_committed l) (l_persisted l + l_max_apply_unpersisted_log_limit l).

(** What a node needs to hand out committed entries. *)
Record light_pre n : Prop := {
  lp_log : log_ok (log_of n);
  lp_limit : l_persisted (log_of n) + l_max_apply_unpersisted_log_limit (log_of n) ≤ u64_max;
  lp_since : rn_commit_since_index n < u64_max;
  lp_data : data_total (ents (log_of n)) ≤ u64_max }.

(** The committed entries for the application: what the size limit of a batch
    leaves of everything up to the limit, none only if there are none. *)
Definition due_entries n (es : list Entry) : Prop :=
  let lo := N.max (rn_commit_since_index n + 1) (first (log_of n)) in
  limited (Some (r_max_committed_size_per_ready (rn_raft n)))
    (range (first (log_of n)) (ents (log_of n)) lo (apply_limit (log_of n) + 1)) es ∧
  (es = [] ↔ apply_limit (log_of n) < lo).

Lemma gen_light_ready_ok n :
  light_pre n → returns (gen_light_ready n) (λ '(n', light), ∃ l us es,
    same_log (log_of n) l ∧ due_entries n es ∧ light = mkLightReady None es (r_msgs (rn_raft n)) ∧
    n' = after_light l us (last_position (rn_commit_since_index n) es) n).
Proof.
  intros [Hok Hlim Hs Hd]. pose proof (lo_joined _ Hok) as Hj.
  destruct (next_entries_since_ok (log_of n) (rn_commit_since_index n)
              (Some (r_max_committed_size_per_ready (rn_raft n))) Hok Hlim Hs) as [_ ([l next] & E & Hsame & Hn)].
  set (es := default [] next).
  assert (due_entries n es) as Hdue.
  { unfold due_entries, apply_limit. destruct next as [es'|]; simpl in es; subst es.
    - destruct Hn as (Hlt & Hl & Hne). split; [done|]. split; [done|lia].
    - rewrite range_nil by done. split; [|split; [lia|done]]. split_and!; [apply prefix_nil|done|done]. }
  assert (last_position (rn_commit_since_index n) es = rn_commit_since_index n ∧ last es = None ∨
          ∃ e, last es = Some e ∧ rn_commit_since_index n < e_index e) as Hlast.
  { destruct (last es) as [e|] eqn:El; [right|left; unfold last_position; by rewrite El].
    exists e. split; [done|]. destruct Hdue as [(Hp & _ & _) _].
    pose proof (range_contiguous (log_of n) (N.max (rn_commit_since_index n + 1) (first (log_of n)))
                  (apply_limit (log_of n) + 1) Hj ltac:(lia)) as Hc.
    apply (contiguous_prefix _ _ es) in Hc; [|done]. rewrite (contiguous_last _ _ _ Hc El).
    assert (0 < len es); [|lia]. apply len_pos. intros Hnil. by rewrite Hnil in El. }
  destruct (reduce_ok es (set_r_raft_log l (rn_raft n))) as [us Hus].
  { destruct Hdue as [(Hp & _ & _) _]. apply data_total_prefix in Hp. etrans; [exact Hp|].
    etrans; [apply data_total_range|exact Hd]. }
  exists (after_light l us (last_position (rn_commit_since_index n) es) n, mkLightReady None es (r_msgs (rn_raft n))).
  split; [|by exists l, us, es].
  unfold gen_light_ready, ngets, nmodify, nlift, on_raft, with_log, modify, mbind, mret, nm_bind, nm_ret.
  cbn -[reduce_uncommitted_size next_entries_since]. unfold log_of in E. rewrite E.
  cbn -[reduce_uncommitted_size]. fold es. rewrite Hus. cbn.
  destruct Hlast as [[Hl El]|(e & El & Hlt)].
  - rewrite El. cbn. rewrite Hl. by destruct n as [[]].
  - rewrite El. cbn. rewrite (proj2 (N.ltb_lt _ _) Hlt). cbn. unfold last_position. rewrite El. by destruct n as [[]].
Qed.

(** What a node needs to hand out a batch. A pending snapshot is not behind the
    application, and no entry after it is due before it is persisted (a follower
    persists before it applies, [become_follower] resets the limit). *)
Record handable n : Prop := {
  hn_light : light_pre n;
  hn_number : rn_max_number n < u64_max;
  hn_snapshot s : pending n = Some s →
    rn_commit_since_index n ≤ sm_index (s_metadata s) ∧ apply_limit (log_of n) ≤ sm_index (s_metadata s);
  hn_records : elected n = true → forallb has_nothing (rn_records n) = true }.

Lemma pending_first n s : joined (log_of n) → pending n = Some s →
  first (log_of n) = sm_index (s_metadata s) + 1 ∧ sm_index (s_metadata s) < u64_max.
Proof.
  intros Hj Hs. pose proof (log_end_bound _ Hj). pose proof (first_le_end (log_of n)).
  unfold pending in Hs. assert (first (log_of n) = sm_index (s_metadata s) + 1) as Hf; [|split; [done|lia]].
  unfold first. rewrite Hs. by apply (uo_snapshot _ (jo_unstable _ Hj)).
Qed.

Lemma ready_checks_ok n : handable n → ready_checks n = Done ().
Proof.
  intros [[Hok Hlim Hs Hd] Hnum Hsnap Hrec]. pose proof (lo_joined _ Hok) as Hj. unfold ready_checks.
  rewrite add64_ok by lia. cbn [mbind outcome_bind].
  assert (negb (elected n) || forallb has_nothing (rn_records n) = true) as -> by (destruct (elected n); naive_solver).
  cbn [assert mbind outcome_bind]. destruct (pending n) as [s|] eqn:Es; [|done].
  destruct (Hsnap s eq_refl) as [Hle Hap]. rewrite (proj2 (N.leb_le _ _) Hle). cbn [assert mbind outcome_bind].
  destruct (pending_first n s Hj Es) as [Hf Hlt].
  destruct (next_entries_since_ok (log_of n) (sm_index (s_metadata s)) None Hok Hlim Hlt) as [-> _].
  cbn [mbind outcome_bind]. unfold apply_limit in Hap. rewrite (proj2 (N.ltb_ge _ _)); [done|lia].
Qed.

Lemma opening_light_pre n : handable n → light_pre (opening n).
Proof.
  intros [[Hok Hlim Hs Hd] Hnum Hsnap Hrec]. constructor; try done. unfold opening, snapshot_position. simpl.
  destruct (pending n) as [s|] eqn:Es; [|done]. by apply (pending_first n s (lo_joined _ Hok)).
Qed.

Lemma ready_ok n :
  handable n → returns (ready n) (λ '(n', rd), ∃ l us es,
    same_log (log_of n) l ∧ due_entries (opening n) es ∧
    rd = ready_of n (mkLightReady None es (r_msgs (rn_raft n))) ∧
    n' = set_rn_records (rn_records (opening n) ++ [record_of n])
           (after_light l us (last_position (snapshot_position n) es) (opening n))).
Proof.
  intros Hn. rewrite ready_eq, ready_checks_ok by done. cbn [mbind outcome_bind].
  destruct (gen_light_ready_ok (opening n)) as ([n2 light] & -> & l & us & es & Hsame & Hdue & -> & ->);
    [by apply opening_light_pre|].
  cbn [mbind outcome_bind]. apply returns_Done. exists l, us, es. done.
Qed.

(** Something to do for the application. *)
Definition has_work (rd : Ready) : bool :=
  negb (bool_decide (ry_ss rd = None)) || negb (bool_decide (ry_hs rd = None))
  || negb (bool_decide (ry_read_states rd = [])) || negb (bool_decide (ry_entries rd = []))
  || negb (Snapshot_is_empty (ry_snapshot rd)) || negb (bool_decide (Ready.committed_entries rd = []))
  || negb (bool_decide (Ready.messages rd = [])) || negb (bool_decide (Ready.persisted_messages rd = [])).

Lemma changed_None {A} `{EqDecision A} (old new : A) : bool_decide (changed old new = None) = bool_decide (new = old).
Proof. unfold changed. by destruct (bool_decide_reflect (new = old)). Qed.

(** The last question of [has_ready], about committed entries. *)
Lemma has_ready_entries n es :
  handable n → due_entries (opening n) es →
  (if match pending n with Some s => negb (Snapshot_is_empty s) | None => false end then Done true
   else has_next_entries_since (rn_commit_since_index n) (log_of n)) =
  Done (negb (Snapshot_is_empty (default Snapshot_default (pending n))) || negb (bool_decide (es = []))).
Proof.
  intros [[Hok Hlim Hs Hd] Hnum Hsnap Hrec] [_ Hes].
  change (log_of (opening n)) with (log_of n) in Hes. unfold opening, snapshot_position in Hes. simpl in Hes.
  destruct (next_entries_since_ok (log_of n) (rn_commit_since_index n) None Hok Hlim Hs) as [-> _].
  fold (apply_limit (log_of n)).
  assert (match pending n with Some s => negb (Snapshot_is_empty s) | None => false end =
          negb (Snapshot_is_empty (default Snapshot_default (pending n)))) as -> by (by destruct (pending n)).
  destruct (Snapshot_is_empty (default Snapshot_default (pending n))) eqn:Ee; simpl; [|done]. f_equal.
  assert (match pending n with Some s => sm_index (s_metadata s) | None => rn_commit_since_index n end =
          rn_commit_since_index n) as Hpos.
  { destruct (pending n) as [s|]; [|done]. destruct (Hsnap s eq_refl) as [Hle _]. simpl in Ee.
    apply N.eqb_eq in Ee. lia. }
  rewrite Hpos in Hes. apply eq_true_iff_eq. rewrite N.ltb_lt, negb_true_iff, bool_decide_eq_false.
  rewrite Hes. lia.
Qed.

Lemma has_ready_x n :
  handable n → returns (ready n) (λ '(n', rd), has_ready n = Done (has_work rd)).
Proof.
  intros Hn. eapply returns_mono; [by apply ready_ok|]. intros [n' rd] (l & us & es & _ & Hdue & -> & _).
  unfold has_ready, has_work, Ready.messages, Ready.persisted_messages, Ready.committed_entries, ready_of.
  cbn -[has_next_entries_since changed Snapshot_is_empty]. rewrite !changed_None.
  fold (pending n). unfold snap, RaftState.snap. fold (log_of n). fold (pending n).
  rewrite (has_ready_entries n es Hn Hdue).
  destruct (bool_decide (soft_state (rn_raft n) = rn_prev_ss n)); [|by destruct (bool_decide (r_msgs _ = []))].
  destruct (bool_decide (hard_state (rn_raft n) = rn_prev_hs n)); [|by destruct (bool_decide (r_msgs _ = []))].
  destruct (bool_decide (r_read_states (rn_raft n) = [])); [|by destruct (bool_decide (r_msgs _ = []))].
  destruct (bool_decide (u_entries (l_unstable (log_of n)) = [])); [|by destruct (bool_decide (r_msgs _ = []))].
  destruct (bool_decide (r_msgs (rn_raft n) = [])) eqn:Em; simpl; f_equal;
    destruct (bool_decide (r_state (rn_raft n) = Leader)); simpl; rewrite ?Em; simpl; by rewrite ?orb_false_r, ?orb_true_r.
Qed.

(** The node after [ready]: the messages and reads are gone, the entries are
    counted, and a record of what is to be persisted is kept. *)
Record handed n n' es : Prop := {
  hd_log : same_log (log_of n) (log_of n');
  hd_msgs : r_msgs (rn_raft n') = [];
  hd_reads : r_read_states (rn_raft n') = [];
  hd_state : soft_state (rn_raft n') = soft_state (rn_raft n) ∧ hard_state (rn_raft n') = hard_state (rn_raft n);
  hd_prev : rn_prev_ss n' = rn_prev_ss n ∧ rn_prev_hs n' = rn_prev_hs n;
  hd_number : rn_max_number n' = rn_max_number n + 1;
  hd_records : rn_records n' = (if elected n then [] else rn_records n) ++ [record_of n];
  hd_since : rn_commit_since_index n' = last_position (snapshot_position n) es }.

Lemma ready_handed n : handable n → returns (ready n) (λ '(n', rd), ∃ es,
  due_entries (opening n) es ∧ rd = ready_of n (mkLightReady None es (r_msgs (rn_raft n))) ∧ handed n n' es).
Proof.
  intros Hn. eapply returns_mono; [by apply ready_ok|]. intros [n' rd] (l & us & es & Hsame & Hdue & -> & ->).
  exists es. split_and!; [done..|]. constructor; try done. split; [done|].
  unfold hard_state, after_light, opening. simpl. by rewrite (sl_committed _ _ Hsame).
Qed.
End spec.

(** C36: [has_ready] announces exactly the batches that are not empty, and [ready]
    does not panic. *)
Theorem has_ready_exact {S} `{StorageLaws S, PbMessage, HashOrder, Rng, ConfChangeCodec, ConfChangeEncoder} (n : RawNode S) :
  handable n → returns (ready n) (λ '(n', rd), has_ready n = Done (has_work rd)).
Proof. apply has_ready_x. Qed.

(** C19: what a batch contains. The unstable entries and the pending snapshot to
    persist; the states that changed since the last batch; all messages, of which
    only a leader's may be sent before the batch is persisted; the committed
    entries that follow what was handed out, cut by the size limit only;
    [must_sync] exactly when there is more to persist than a commit index. The
    messages and the reads are handed out once, and the record that is kept is that
    of the last entry and the snapshot. *)
Theorem ready_spec {S} `{StorageLaws S, PbMessage, HashOrder, Rng, ConfChangeCodec, ConfChangeEncoder} (n : RawNode S) :
  handable n → returns (ready n) (λ '(n', rd),
    let r := rn_raft n in
    ry_number rd = rn_max_number n + 1 ∧
    ry_ss rd = changed (rn_prev_ss n) (soft_state r) ∧ ry_hs rd = changed (rn_prev_hs n) (hard_state r) ∧
    ry_entries rd = u_entries (l_unstable (r_raft_log r)) ∧ ry_read_states rd = r_read_states r ∧
    (∀ s, pending n = Some s → ry_snapshot rd = s) ∧
    Ready.messages rd = (if bool_decide (r_state r = Leader) then r_msgs r else []) ∧
    Ready.persisted_messages rd = (if bool_decide (r_state r = Leader) then [] else r_msgs r) ∧
    due_entries (opening n) (Ready.committed_entries rd) ∧
    (ry_must_sync rd = true ↔ r_vote r ≠ hs_vote (rn_prev_hs n) ∨ r_term r ≠ hs_term (rn_prev_hs n) ∨
                              is_Some (pending n) ∨ ry_entries rd ≠ []) ∧
    handed n n' (Ready.committed_entries rd)).
Proof.
  intros Hn. eapply returns_mono; [by apply ready_handed|]. intros [n' rd] (es & Hdue & -> & Hh).
  split_and!; try done.
  - intros s Hs. simpl. by rewrite Hs.
  - unfold Ready.messages. simpl. by destruct (bool_decide _).
  - unfold Ready.persisted_messages. simpl. by destruct (bool_decide _).
  - simpl. rewrite !orb_true_iff, !negb_true_iff, !N.eqb_neq, !bool_decide_eq_true.
    assert (is_Some (last_of (u_entries (l_unstable (log_of n)))) ↔ u_entries (l_unstable (log_of n)) ≠ []) as ->; [|tauto].
    unfold last_of. rewrite fmap_is_Some, last_is_Some. done.
Qed.
