(* ===== verification/RawNodeCycle.v ===== *)
(** * The cycle of [ready], writing and [advance]

    A node that is not leader, used the simple way (one batch at a time): when the
    application has written a batch, [advance] takes it in without a panic, and
    nothing is left to do but committed entries that a size limit kept back. *)
From S2P Require Import Prelude Errors Proto Util Quorum Storage Unstable ReadOnly Config.
From S2P Require Import Progress Tracker RaftLog RaftLogSpec RaftLogReads RaftLogInv LogTotal RaftState RaftSend.
From S2P Require Import RaftLogic RaftRole RaftStep RaftTotal RaftEnds RawNode RawNodeOrder RawNodeSpec.
#[local] Open Scope N_scope.

Section cycle.
Context {S : Type} `{StorageLaws S, PbMessage, HashOrder, Rng, ConfChangeCodec, ConfChangeEncoder}.
Implicit Types n : RawNode S.

(** ** [commit_ready] *)
Definition with_log_of (l : RaftLog S) n : RawNode S := set_rn_raft (set_r_raft_log l (rn_raft n)) n.

Lemma commit_ready_ok rd n rec l :
  last (rn_records n) = Some rec → rr_number rec = ry_number rd → rr_snapshot rec = None →
  match rr_last_entry rec with Some (i, t) => stable_entries i t (log_of n) = Done l | None => l = log_of n end →
  commit_ready rd n =
    Done (with_log_of l (set_rn_prev_ss (default (rn_prev_ss n) (ry_ss rd))
                          (set_rn_prev_hs (default (rn_prev_hs n) (ry_hs rd)) n)), ()).
Proof.
  destruct n as [r ss0 hs0 k recs since]. unfold log_of. cbn -[stable_entries]. intros Hlast Hnum Hsn Hl.
  unfold commit_ready, nlift, nmodify, on_raft, update_log, mbind, mret, nm_bind, nm_ret.
  destruct (ry_ss rd) as [ss|], (ry_hs rd) as [hs|]; cbn -[stable_entries]; rewrite Hlast; cbn -[stable_entries];
    rewrite Hnum, N.eqb_refl; cbn -[stable_entries]; rewrite Hsn; cbn -[stable_entries];
    (destruct (rr_last_entry rec) as [[i t]|]; cbn -[stable_entries]; [rewrite Hl|subst l]; by destruct r).
Qed.

(** ** [on_persist_ready] of one batch of entries *)
Lemma maybe_persist_ok i t l :
  log_ok l → ∃ p b, maybe_persist i t l = Done (set_l_persisted p l, b) ∧ log_ok (set_l_persisted p l).
Proof.
  intros Hok. destruct (maybe_persist_preserved i t l Hok) as ([l' b] & E & Hok' & _).
  assert (∃ p, l' = set_l_persisted p l) as [p ->]; [|by exists p, b].
  unfold maybe_persist in E. inv_done.
  case_match; injection E as <- _; [by eexists|]. exists (l_persisted l). by destruct l.
Qed.

Lemma on_persist_one n rec number :
  rn_records n = [rec] → rr_number rec ≤ number → rr_snapshot rec = None → r_state (rn_raft n) ≠ Leader →
  log_ok (log_of n) →
  ∃ p, on_persist_ready number n = Done (set_rn_records [] (with_log_of (set_l_persisted p (log_of n)) n), ()) ∧
    log_ok (set_l_persisted p (log_of n)).
Proof.
  destruct n as [r ss0 hs0 k recs since]. unfold log_of. cbn. intros -> Hnum Hsn Hst Hok.
  unfold on_persist_ready, ngets, nmodify, on_raft, mbind, mret, nm_bind, nm_ret.
  cbn. rewrite (proj2 (N.ltb_ge _ _) Hnum), Hsn.
  destruct (default (0, 0) (rr_last_entry rec)) as [i t]. cbn.
  destruct (N.eqb_spec i 0); cbn.
  - exists (l_persisted (r_raft_log r)). split; [by destruct r as [? ? ? ? []]|by destruct (r_raft_log r)].
  - destruct (maybe_persist_ok i t _ Hok) as (p & b & E & Hok'). exists p. split; [|done].
    change (0 =? 0) with true. cbn -[maybe_persist]. unfold on_persist_entries, mbind, rm_bind, with_log. cbn -[maybe_persist]. rewrite E. cbn.
    rewrite (bool_decide_eq_false_2 _ Hst), andb_false_r. by destruct r.
Qed.

(** ** Afterwards *)

(** Nothing is left but committed entries. *)
Record settled n : Prop := {
  se_msgs : r_msgs (rn_raft n) = [];
  se_reads : r_read_states (rn_raft n) = [];
  se_ss : soft_state (rn_raft n) = rn_prev_ss n;
  se_hs : hard_state (rn_raft n) = rn_prev_hs n;
  se_entries : u_entries (l_unstable (log_of n)) = [];
  se_pending : pending n = None;
  se_records : rn_records n = [] }.

Lemma settled_has_ready n : settled n → has_ready n = has_next_entries_since (rn_commit_since_index n) (log_of n).
Proof.
  intros [Hm Hr Hss Hhs He Hp _]. unfold has_ready. rewrite Hm, Hr, Hss, Hhs, He. unfold snap, RaftState.snap.
  fold (log_of n). fold (pending n). rewrite Hp. by rewrite !bool_decide_eq_true_2.
Qed.

(** Where a batch of committed entries ends. *)
Lemma due_entries_position n es :
  light_pre n → due_entries n es →
  es = [] ∨ es ≠ [] ∧ last_position (rn_commit_since_index n) es ≤ apply_limit (log_of n) ∧
    last_position (rn_commit_since_index n) es =
      N.max (rn_commit_since_index n + 1) (first (log_of n)) + len es - 1.
Proof.
  intros [Hok Hlim Hs Hd] [(Hp & _ & _) Hnil]. pose proof (lo_joined _ Hok) as Hj.
  set (lo := N.max (rn_commit_since_index n + 1) (first (log_of n))) in *.
  pose proof (range_contiguous (log_of n) lo (apply_limit (log_of n) + 1) Hj ltac:(lia)) as Hcont.
  apply (contiguous_prefix _ _ es) in Hcont; [|done].
  unfold last_position. destruct (last es) as [e|] eqn:El; [right|left; by apply last_None in El].
  assert (es ≠ []) as Hne by (by intros ->). split; [done|]. rewrite (contiguous_last _ _ _ Hcont El). split; [|done].
  assert (len es ≤ apply_limit (log_of n) + 1 - lo); [|destruct (N.lt_ge_cases (apply_limit (log_of n)) lo); [tauto|lia]].
  apply prefix_length in Hp. unfold range in Hp. rewrite length_take in Hp. unfold len. lia.
Qed.
Lemma due_entries_bound n es :
  light_pre n → due_entries n es → last_position (rn_commit_since_index n) es < u64_max.
Proof.
  intros Hpre Hdue. pose proof Hpre as [Hok _ Hs _]. pose proof (log_end_bound _ (lo_joined _ Hok)).
  pose proof (lo_committed _ Hok).
  destruct (due_entries_position n es Hpre Hdue) as [->|(_ & Hle & _)]; [done|]. unfold apply_limit in Hle. lia.
Qed.

(** Without a size limit everything due is handed out. *)
Lemma due_entries_all n es :
  light_pre n → due_entries n es → r_max_committed_size_per_ready (rn_raft n) = NO_LIMIT →
  has_next_entries_since (last_position (rn_commit_since_index n) es) (log_of n) = Done false.
Proof.
  intros Hpre Hdue Hno. pose proof (due_entries_bound n es Hpre Hdue) as Hb.
  pose proof (due_entries_position n es Hpre Hdue) as Hpos. destruct Hpre as [Hok Hlim Hs Hd].
  destruct Hdue as [(Hp & _ & Hall) Hnil]. pose proof (lo_joined _ Hok) as Hj.
  rewrite Hno in Hall. specialize (Hall (or_intror eq_refl)). pose proof (lo_committed _ Hok) as Hc.
  set (lo := N.max (rn_commit_since_index n + 1) (first (log_of n))) in *.
  destruct (next_entries_since_ok (log_of n) _ None Hok Hlim Hb) as [-> _].
  fold (apply_limit (log_of n)). f_equal. apply N.ltb_ge.
  destruct Hpos as [->|(Hne & _ & ->)]; [pose proof (proj1 Hnil eq_refl); unfold last_position; simpl; lia|].
  destruct (N.lt_ge_cases (apply_limit (log_of n)) lo); [tauto|].
  assert (len es = apply_limit (log_of n) + 1 - lo) as ->; [|lia].
  rewrite Hall. apply len_range; [lia|lia|]. unfold apply_limit, log_end in *. lia.
Qed.

Lemma has_next_same since l l' :
  joined l → same_log l l' → has_next_entries_since since l' = has_next_entries_since since l.
Proof.
  intros Hj Hs. pose proof (same_log_joined _ _ Hs Hj) as Hj'. destruct (same_log_ents _ _ Hs) as (Hf & _).
  unfold has_next_entries_since, applied_index_upper_bound. rewrite !first_index_spec, Hf by done.
  by rewrite (sl_committed _ _ Hs), (sl_persisted _ _ Hs), (sl_limit _ _ Hs).
Qed.

(** ** The cycle *)

(** The application has written [st]. *)
Definition put_store (st : S) n : RawNode S := with_log_of (set_l_store st (log_of n)) n.
Lemma mut_store_put st n : mut_store (λ _, st) n = Done (put_store st n, ()).
Proof. done. Qed.

(** Unstable entries that have been written become part of the stable log. *)
Lemma take_in l :
  log_ok l → u_snapshot (l_unstable l) = None → ents l = st_entries (l_store l) →
  ∃ l', match last_of (u_entries (l_unstable l)) with Some (i, t) => stable_entries i t l = Done l' | None => l' = l end ∧
    log_ok l' ∧ ents l' = ents l ∧ first l' = first l ∧ u_entries (l_unstable l') = [] ∧
    u_snapshot (l_unstable l') = None ∧ l_committed l' = l_committed l ∧
    l_max_apply_unpersisted_log_limit l' = l_max_apply_unpersisted_log_limit l.
Proof.
  intros Hok Hsn He. unfold last_of. destruct (last (u_entries (l_unstable l))) as [e|] eqn:El; simpl.
  - destruct (stable_entries_ok (e_index e) (e_term e) l Hok) as (l' & E & [Hok' _] & -> & He' & Hf');
      [split_and!; [done|done|by exists e]|].
    eexists. split; [exact E|]. by split_and!.
  - apply last_None in El. by exists l.
Qed.

Lemma advance_append_ok rd n n1 n2 n3 light :
  commit_ready rd n = Done (n1, ()) → on_persist_ready (rn_max_number n1) n1 = Done (n2, ()) →
  gen_light_ready n2 = Done (n3, light) → lr_messages light = [] → lr_commit_index light = None →
  hard_state (rn_raft n3) = rn_prev_hs n3 → advance_append rd n = Done (n3, light).
Proof.
  intros E1 E2 E3 Hm Hc Hhs. unfold advance_append, ngets, nlift, mbind, mret, nm_bind, nm_ret.
  cbn -[commit_ready on_persist_ready gen_light_ready hard_state]. rewrite E1.
  cbn -[on_persist_ready gen_light_ready hard_state]. rewrite E2. cbn -[gen_light_ready hard_state]. rewrite E3.
  cbn -[hard_state]. rewrite Hm, (bool_decide_eq_true_2 ([] = [])) by done. rewrite andb_false_r. cbn -[hard_state].
  rewrite Hhs, (proj2 (N.ltb_ge _ _)) by lia. cbn -[hard_state]. rewrite N.eqb_refl. cbn -[hard_state].
  rewrite bool_decide_eq_true_2 by done. cbn. do 2 f_equal. destruct light. by simpl in *; subst.
Qed.

Lemma default_changed {A} `{EqDecision A} (old new : A) : default old (changed old new) = new.
Proof. unfold changed. by destruct (bool_decide_reflect (new = old)). Qed.

(** What the application does with a batch of entries: everything in the log is
    in the storage then. *)
Definition writes_batch (st : S) n : Prop :=
  log_pre (WriteStore st) (log_of n) ∧ ents (log_of n) = st_entries st.

(** What is left of the due entries after the batch is taken in. *)
Lemma settled_light n :
  settled n → light_pre n → returns (gen_light_ready n) (λ '(n', light),
    settled n' ∧ log_ok (log_of n') ∧ lr_messages light = [] ∧ lr_commit_index light = None ∧
    (r_max_committed_size_per_ready (rn_raft n) = NO_LIMIT → has_ready n' = Done false)).
Proof.
  intros Hset Hpre. pose proof (lp_log _ Hpre) as Hok.
  eapply returns_mono; [by apply gen_light_ready_ok|]. intros [n' light] (l & us & es & Hsame & Hdue & -> & ->).
  set (n' := after_light l _ _ _). destruct Hset as [Hm Hr Hss Hhs He Hp Hrec].
  assert (settled n') as Hset.
  { constructor; [done|exact Hr|exact Hss| | | |exact Hrec].
    - change (rn_prev_hs n') with (rn_prev_hs n). rewrite <-Hhs. unfold hard_state. simpl.
      by rewrite (sl_committed _ _ Hsame).
    - change (log_of n') with l. by rewrite (sl_unstable _ _ Hsame).
    - unfold pending. change (log_of n') with l. by rewrite (sl_unstable _ _ Hsame). }
  split_and!; [done|by apply (same_log_ok _ _ Hsame)|exact Hm|done|].
  intros Hno. rewrite settled_has_ready by done. change (log_of n') with l.
  rewrite (has_next_same _ (log_of n) l (lo_joined _ Hok) Hsame). by apply due_entries_all.
Qed.

Section batch.
Context (n n1 : RawNode S) (rd : Ready) (st : S).
Context (Hn : handable n) (Hst : r_state (rn_raft n) ≠ Leader) (Hpend : pending n = None) (Hrec : rn_records n = []).
Context (Hlim : log_end (log_of n) + l_max_apply_unpersisted_log_limit (log_of n) ≤ u64_max).
Context (E : ready n = Done (n1, rd)) (Hw : writes_batch st n1).

Lemma taken_pre p l2 n3 :
  log_of n3 = set_l_persisted p l2 → log_ok (set_l_persisted p l2) → ents l2 = ents (log_of n) →
  first l2 = first (log_of n) →
  l_max_apply_unpersisted_log_limit l2 = l_max_apply_unpersisted_log_limit (log_of n) →
  rn_commit_since_index n3 < u64_max → light_pre n3.
Proof using Hn Hlim.
  intros E3 Hok He Hf Hl Hs. pose proof (hn_light _ Hn) as [_ _ _ Hd].
  assert (ents (set_l_persisted p l2) = ents (log_of n)) as He3 by exact He.
  constructor; rewrite ?E3; [done| |done|by rewrite He3].
  simpl. rewrite Hl. pose proof (lo_persisted _ Hok) as Hp.
  pose proof (log_end_unstable _ (lo_joined _ Hok)) as Hend. unfold log_end in Hend. rewrite He3 in Hend.
  change (first (set_l_persisted p l2)) with (first l2) in Hend. rewrite Hf in Hend.
  unfold log_end in Hlim. simpl in Hp, Hend. lia.
Qed.

(** [commit_ready] and [on_persist_ready] take the batch in. *)
Lemma batch_taken : ∃ n2 n3,
  commit_ready rd (put_store st n1) = Done (n2, ()) ∧ on_persist_ready (rn_max_number n2) n2 = Done (n3, ()) ∧
  settled n3 ∧ light_pre n3 ∧
  r_max_committed_size_per_ready (rn_raft n3) = r_max_committed_size_per_ready (rn_raft n).
Proof using Hn Hst Hpend Hrec Hlim E Hw.
  destruct (ready_ok n Hn) as ([n1' rd'] & E' & l & us & es & Hsame & Hdue & -> & Hn1).
  rewrite E' in E. injection E as -> <-. pose proof (hn_light _ Hn) as [Hok _ _ _].
  assert (log_of n1 = l) as Hlog by (by subst n1). destruct Hw as [Hpre Hents]. rewrite Hlog in Hpre, Hents.
  assert (elected n = false) as Hel by (unfold elected; rewrite (bool_decide_eq_false_2 _ Hst); apply andb_false_r).
  assert (rn_records n1 = [record_of n]) as Hrecs by (subst n1; unfold opening; cbn; by rewrite Hel, Hrec).
  assert (rr_snapshot (record_of n) = None) as Hrs by (unfold record_of; simpl; by rewrite Hpend).
  assert (log_ok (set_l_store st l)) as Hok1 by (apply write_store_preserved; [by apply (same_log_ok (log_of n))|done]).
  destruct Hpre as (_ & Hf1 & _ & He1). destruct (same_log_ents _ _ Hsame) as (Hf0 & _ & He0 & _).
  destruct (take_in _ Hok1) as (l2 & El2 & Hok2 & He2 & Hf2 & Hu2 & Hs2 & Hc2 & Hl2);
    [by simpl; rewrite (sl_unstable _ _ Hsame)|by rewrite He1|].
  simpl in El2, Hl2, Hc2. rewrite (sl_unstable _ _ Hsame) in El2.
  rewrite (sl_limit _ _ Hsame) in Hl2. rewrite (sl_committed _ _ Hsame) in Hc2.
  set (rd := ready_of n _). set (n2 := with_log_of l2 (set_rn_prev_ss (soft_state (rn_raft n))
    (set_rn_prev_hs (hard_state (rn_raft n)) (put_store st n1)))).
  assert (commit_ready rd (put_store st n1) = Done (n2, ())) as Ecr.
  { rewrite (commit_ready_ok _ _ (record_of n) l2); [|by change (last (rn_records n1) = Some (record_of n)); rewrite Hrecs
      |done|done|by unfold put_store, log_of in *; simpl; rewrite Hlog].
    assert (rn_prev_ss (put_store st n1) = rn_prev_ss n ∧ rn_prev_hs (put_store st n1) = rn_prev_hs n) as [-> ->]
      by (by subst n1). unfold rd, ready_of. cbn -[with_log_of put_store changed]. by rewrite !default_changed. }
  destruct (on_persist_one n2 (record_of n) (rn_max_number n2)) as (p & Ep & Hok3);
    [exact Hrecs|by subst n1|done|by subst n1|exact Hok2|].
  eexists n2, _. split_and!; [exact Ecr|exact Ep| | |by subst n1].
  - constructor; [by subst n1|by subst n1|by subst n1| |done|done|done].
    unfold hard_state. subst n1. cbn. rewrite Hc2. done.
  - apply (taken_pre p l2); [done|done|by rewrite He2, He1|by rewrite Hf2, Hf1|done|].
    subst n1. apply (due_entries_bound (opening n)); [by apply opening_light_pre|done].
Qed.

Lemma cycle_x :
  returns (advance_append rd (put_store st n1)) (λ '(n2, light),
    settled n2 ∧ log_ok (log_of n2) ∧ lr_messages light = [] ∧ lr_commit_index light = None ∧
    (r_max_committed_size_per_ready (rn_raft n) = NO_LIMIT → has_ready n2 = Done false)).
Proof using Hn Hst Hpend Hrec Hlim E Hw.
  destruct batch_taken as (n2 & n3 & Ec & Ep & Hset & Hpre & Hmax).
  destruct (settled_light n3 Hset Hpre) as ([n4 light] & Eg & Hset4 & Hok4 & Hm & Hc & Hno).
  exists (n4, light). rewrite Hmax in Hno. split; [|done].
  apply (advance_append_ok _ _ n2 n3); [done..|]. apply (se_hs _ Hset4).
Qed.
End batch.
End cycle.

(** C20: a batch that is written is done with. A node that is not leader and has
    nothing outstanding gets its batch of entries back after the application has
    written them (the storage then holds the whole log): [advance_append] does not
    panic, sends nothing, and leaves the node with no unpersisted entries and with
    the states it has reported; with no limit on the size of a batch there is
    nothing more to do, and [has_ready] says so. *)
Theorem written_batch_settles {S} `{StorageLaws S, PbMessage, HashOrder, Rng, ConfChangeCodec, ConfChangeEncoder}
    (n n1 : RawNode S) rd st :
  handable n → r_state (rn_raft n) ≠ Leader → pending n = None → rn_records n = [] →
  log_end (log_of n) + l_max_apply_unpersisted_log_limit (log_of n) ≤ u64_max →
  ready n = Done (n1, rd) → writes_batch st n1 →
  returns (advance_append rd (put_store st n1)) (λ '(n2, light),
    settled n2 ∧ log_ok (log_of n2) ∧ lr_messages light = [] ∧ lr_commit_index light = None ∧
    (r_max_committed_size_per_ready (rn_raft n) = NO_LIMIT → has_ready n2 = Done false)).
Proof. apply cycle_x. Qed.
