(* ===== verification/RawNodeWitness.v ===== *)
(** * A raw node at work

    A follower over the in-memory storage that has received an entry: the
    theorems on [RawNode] applied to it. *)
From S2P Require Import Prelude Errors Proto Util Quorum Storage MemStorage Unstable ReadOnly Config.
From S2P Require Import Progress Tracker RaftLog RaftLogSpec RaftLogReads RaftLogInv RaftState RaftRole RaftStep.
From S2P Require Import RaftWitness RawNode RawNodeOrder RawNodeCalls RawNodeSpec RawNodeCycle.
#[local] Open Scope N_scope.

Section witnesses.
#[local] Existing Instances PB HO Low Add4.
#[local] Instance Enc : ConfChangeEncoder := {| write_conf_change _ := Ok []; write_conf_change_v2 _ := Ok [] |}.

(** The state after a call that must not panic. *)
Definition state_of {A} (m : outcome (RawNode MemStorageCore * A)) : RawNode MemStorageCore :=
  match m with
  | Done (n, _) => n
  | _ => mkRawNode (example_node 1) (mkSoftState 0 Follower) HardState_default 0 [] 0
  end.

Definition fresh_node : RawNode MemStorageCore := Eval vm_compute in
  match RawNode.new (Config.new 1) example_store with
  | Done (Ok n) => n
  | _ => state_of (A := unit) NoFuel
  end.

(** Node 2 is leader and sends the first entry, which is committed. *)
Definition first_entry : Entry := mkEntry EntryNormal 1 1 [Byte.x01] [] false.
Definition first_append : Message :=
  set_m_entries [first_entry] (set_m_commit 1 (set_m_term 1 (new_message 1 MsgAppend (Some 2)))).
Definition busy_node : RawNode MemStorageCore := Eval vm_compute in state_of (RawNode.step first_append fresh_node).
Definition batch : Ready := Eval vm_compute in
  match ready busy_node with Done (_, rd) => rd | _ => ready_of busy_node (mkLightReady None [] []) end.
Definition opened_node : RawNode MemStorageCore := Eval vm_compute in state_of (ready busy_node).
Lemma ready_busy : ready busy_node = Done (opened_node, batch).
Proof. by vm_compute. Defined.

(** The storage after the batch is written. *)
Definition written_store : MemStorageCore := Eval vm_compute in
  match MemStorage.append [first_entry] example_store with Done (st, _) => st | _ => example_store end.
Lemma written_store_ok : mem_ok written_store.
Proof. constructor; [|done..]. intros [|k] e Hk; vm_compute in Hk; by simplify_eq. Defined.

Lemma busy_log : log_ok (log_of busy_node).
Proof.
  constructor; [|by vm_compute..]. constructor; [exact example_store_ok| |by vm_compute..].
  constructor; [|by vm_compute..]. intros [|k] e Hk; vm_compute in Hk; by simplify_eq.
Defined.
Lemma busy_handable : handable busy_node.
Proof.
  constructor; [|by vm_compute|done|by vm_compute].
  constructor; [exact busy_log|by vm_compute..].
Defined.

(** One entry to persist, and one answer to send afterwards. *)
Lemma ready_spec_witness :
  ry_entries batch = [first_entry] ∧ Ready.messages batch = [] ∧ length (Ready.persisted_messages batch) = 1%nat ∧
  returns (ready busy_node) (λ '(n', rd), handed busy_node n' (Ready.committed_entries rd)).
Proof.
  split_and!; [done..|]. eapply returns_mono; [apply (ready_spec busy_node busy_handable)|].
  intros [n' rd] Hrd. apply Hrd.
Defined.
Lemma has_ready_exact_witness :
  has_work batch = true ∧ returns (ready busy_node) (λ '(n', rd), has_ready busy_node = Done (has_work rd)).
Proof. split; [done|apply (has_ready_exact busy_node busy_handable)]. Defined.

(** The whole cycle: the entry is persisted and then handed out. *)
Definition stored_node : RawNode MemStorageCore := put_store written_store opened_node.
Definition idle_node : RawNode MemStorageCore := Eval vm_compute in state_of (advance_append batch stored_node).
Definition settled_light : LightReady := Eval vm_compute in
  match advance_append batch stored_node with Done (_, light) => light | _ => mkLightReady None [] [] end.
Lemma advance_stored : advance_append batch stored_node = Done (idle_node, settled_light).
Proof. by vm_compute. Defined.

Lemma stored_writes : writes_batch written_store opened_node.
Proof.
  split; [|by vm_compute]. split; [|by split_and!; vm_compute].
  constructor; [exact written_store_ok| |by vm_compute..].
  constructor; [|by vm_compute..]. intros [|k] e Hk; vm_compute in Hk; by simplify_eq.
Defined.

Lemma written_batch_settles_witness :
  lr_committed_entries settled_light = [first_entry] ∧ has_ready idle_node = Done false.
Proof.
  split; [done|].
  destruct (written_batch_settles busy_node opened_node batch written_store busy_handable)
    as ([n2 light] & E & _ & _ & _ & _ & Hno); [done|done|done|by vm_compute|exact ready_busy|exact stored_writes|].
  assert (advance_append batch (put_store written_store opened_node) = Done (idle_node, settled_light)) as E'
    by exact advance_stored.
  rewrite E' in E. injection E as <- _. by apply Hno.
Defined.

(** The calls of the cycle deliver the first entry. *)
Lemma batch_written : written batch stored_node.
Proof.
  intros n1 E. assert (n1 = state_of (commit_ready batch stored_node)) as -> by (by rewrite E). split; [|by vm_compute].
  split; [|by vm_compute]. constructor; [exact written_store_ok| |by vm_compute..].
  constructor; [|by vm_compute..]. by intros [|k] e Hk.
Defined.
Definition cycle_trace : list happening :=
  [mkHappening Took [] None; mkHappening Other [] None; mkHappening Reported [Applied first_entry] None].
Lemma cycle_calls : calls busy_node cycle_trace idle_node.
Proof.
  unfold cycle_trace.
  apply (calls_cons busy_node Took [] opened_node).
  { apply (call_ready busy_node opened_node batch); [|exact ready_busy].
    split; [exact (lo_joined _ busy_log)|by vm_compute]. }
  apply (calls_cons opened_node Other [] stored_node).
  { by apply (call_input (modify (λ r, set_r_raft_log (set_l_store written_store (r_raft_log r)) r)) _ _ ()). }
  apply (calls_cons stored_node Reported [Applied first_entry] idle_node); [|constructor].
  apply (call_advance_append batch stored_node idle_node settled_light batch_written advance_stored).
Defined.

(** A node that has got a snapshot. *)
Definition the_snapshot : Proto.Snapshot :=
  mkSnapshot [] (mkSnapshotMetadata (mkConfState [1; 2; 3] [] [] [] false) 5 1).
Definition snapshot_message : Message :=
  set_m_snapshot the_snapshot (set_m_term 1 (new_message 1 MsgSnapshot (Some 2))).
Definition restored_node : RawNode MemStorageCore := Eval vm_compute in state_of (RawNode.step snapshot_message fresh_node).
Definition snapshot_batch : Ready := Eval vm_compute in
  match ready restored_node with Done (_, rd) => rd | _ => ready_of restored_node (mkLightReady None [] []) end.
Definition taken_node : RawNode MemStorageCore := Eval vm_compute in state_of (ready restored_node).
Definition snapshot_store : MemStorageCore := Eval vm_compute in
  match MemStorage.apply_snapshot the_snapshot example_store with Done (st, _) => st | _ => example_store end.
Definition installed_node : RawNode MemStorageCore := Eval vm_compute in put_store snapshot_store taken_node.
Definition reported_node : RawNode MemStorageCore := Eval vm_compute in state_of (advance_append snapshot_batch installed_node).
Definition snapshot_light : LightReady := Eval vm_compute in
  match advance_append snapshot_batch installed_node with Done (_, light) => light | _ => mkLightReady None [] [] end.
Lemma snapshot_store_ok : mem_ok snapshot_store.
Proof. constructor; [|done..]. by intros [|k] e Hk. Defined.
Lemma restored_not_ahead : not_ahead restored_node.
Proof.
  split; [|by vm_compute]. constructor; [exact example_store_ok| |by vm_compute..].
  constructor; [|by vm_compute..|by intros s [= <-]]. by intros [|k] e Hk.
Defined.
Lemma snapshot_written : written snapshot_batch installed_node.
Proof.
  intros n1 E. assert (n1 = state_of (commit_ready snapshot_batch installed_node)) as -> by (by rewrite E). split; [|by vm_compute].
  split; [|by vm_compute]. constructor; [exact snapshot_store_ok| |by vm_compute..].
  constructor; [|by vm_compute..]. by intros [|k] e Hk.
Defined.
Definition snapshot_trace : list happening :=
  [mkHappening Other [] (Some the_snapshot); mkHappening Took [Installed the_snapshot] None;
   mkHappening Other [] None; mkHappening Reported [] None].
Lemma snapshot_calls : calls fresh_node snapshot_trace reported_node.
Proof.
  unfold snapshot_trace. apply (calls_cons fresh_node Other [] restored_node).
  { apply (call_input (RaftStep.step snapshot_message) _ _ (Ok ())). by vm_compute. }
  apply (calls_cons restored_node Took [Installed the_snapshot] taken_node).
  { apply (call_ready restored_node taken_node snapshot_batch restored_not_ahead). by vm_compute. }
  apply (calls_cons taken_node Other [] installed_node).
  { by apply (call_input (modify (λ r, set_r_raft_log (set_l_store snapshot_store (r_raft_log r)) r)) _ _ ()). }
  apply (calls_cons installed_node Reported [] reported_node); [|constructor].
  apply (call_advance_append snapshot_batch _ _ snapshot_light snapshot_written). by vm_compute.
Defined.
(** A second batch that is taken before the first one is reported has the snapshot again. *)
Example taken_twice :
  installed snapshot_batch = [Installed the_snapshot] ∧
  (installed ∘ snd <$> ready taken_node) = Done [Installed the_snapshot].
Proof. by vm_compute. Qed.

Lemma handed_out_in_order_witness :
  (rn_commit_since_index busy_node = 0 ∧ rn_commit_since_index idle_node = 1 ∧
   delivered 0 [Applied first_entry] 1) ∧
  (rn_commit_since_index fresh_node = 0 ∧ rn_commit_since_index reported_node = 5 ∧
   delivered 0 [Installed the_snapshot] 5 ∧ in_turns false snapshot_trace ∧
   [the_snapshot] `sublist_of` option_list (pending fresh_node) ++ [the_snapshot]).
Proof.
  assert (in_turns false snapshot_trace) as Ht by done.
  destruct (handed_out_in_order fresh_node reported_node _ snapshot_calls) as (Hd & _ & Hs). split.
  - split_and!; [done|done|]. apply (handed_out_in_order busy_node idle_node _ cycle_calls).
  - split_and!; [done|done|exact Hd|done|exact (Hs Ht)].
Defined.
End witnesses.
