(* ===== verification/Interface.v ===== *)
(** * A node of the test network ([harness/src/interface.rs])

    An [Interface] is a node over a [MemStorage], or nothing. It persists what the
    node has left unstable in the storage that the node itself uses. *)
From S2P Require Import Prelude Errors Proto Util Storage MemStorage Unstable.
From S2P Require Import Progress RaftLog RaftState RaftSend RaftRole RaftStep.
#[local] Open Scope N_scope.

Section interface.
Context `{PbMessage, HashOrder, Rng, ConfChangeCodec}.

(** [struct Interface] *)
Record Interface := mkInterface { if_raft : option (Raft MemStorageCore) }.

Definition new (r : Raft MemStorageCore) : Interface := mkInterface (Some r).

Definition step (m : Message) (self : Interface) : outcome (Interface * result unit) :=
  match if_raft self with
  | Some r => '(r, res) ← RaftStep.step m r; Done (mkInterface (Some r), res)
  | None => Done (self, Ok ())
  end.

(** [self.msgs.drain(..).collect()] *)
Definition read_messages (self : Interface) : Interface * list Message :=
  match if_raft self with
  | Some r => (mkInterface (Some (set_r_msgs [] r)), r_msgs r)
  | None => (self, [])
  end.

(** [self.mut_store().wl().f(..).expect(..)] *)
Definition write_store (f : MemStorageCore → outcome (MemStorageCore * result unit)) : rm MemStorageCore unit := λ r,
  '(store, res) ← f (l_store (r_raft_log r));
  match res with
  | Ok _ => Done (set_r_raft_log (set_l_store store (r_raft_log r)) r, ())
  | Err _ => Panic Unwrap
  end.

(** The two halves of [persist], on a node that is there. *)
Definition persist_snapshot : rm MemStorageCore unit :=
  s ← gets (λ r, unstable_snapshot (r_raft_log r));
  match s with
  | None => mret ()
  | Some snap =>
      let index := sm_index (s_metadata snap) in
      update_log (stable_snap index);;
      write_store (MemStorage.apply_snapshot snap);;
      on_persist_snap index;;
      commit_apply index
  end.
Definition persist_entries : rm MemStorageCore unit :=
  unstable ← gets (λ r, unstable_entries (r_raft_log r));
  match last unstable with
  | None => mret ()
  | Some e =>
      update_log (stable_entries (e_index e) (e_term e));;
      write_store (MemStorage.append unstable);;
      on_persist_entries (e_index e) (e_term e)
  end.
Definition persist (self : Interface) : outcome Interface :=
  match if_raft self with
  | Some r => '(r, _) ← (persist_snapshot;; persist_entries) r; Done (mkInterface (Some r))
  | None => Done self
  end.

(** [Deref for Interface] *)
Definition deref (self : Interface) : outcome (Raft MemStorageCore) := unwrap (if_raft self).
End interface.
