(* ===== verification/Network.v ===== *)
(** * The test network ([harness/src/network.rs])

    The in-memory network on which the integration tests run whole clusters: a
    [Network] is a set of [Interface]s with the rules that drop messages. Drop rates
    are [f64], modelled by the binary64 numbers of [SpecFloat]; the random numbers of
    the [rand] crate are a parameter. The field [storage] of the code holds, for each
    node, the storage that the node itself uses (a [MemStorage] is a shared handle):
    it is read off the node ([nw_storage]). *)
From Stdlib Require Import SpecFloat.
From S2P Require Import Prelude Errors Proto Util Storage MemStorage Unstable ReadOnly Config.
From S2P Require Import Progress Tracker RaftLog RaftState RaftSend RaftRole RaftStep.
From S2P Require Interface.
Import Interface (Interface, mkInterface, if_raft).
#[local] Open Scope N_scope.

(** ** Chance *)

Abbreviation f64 := spec_float (only parsing).
Definition f64_0 : f64 := S754_zero false.
Definition f64_1 : f64 := SFone 53 1024.
(** [rand::random::<f64>()]: the number drawn at each call, and what the crate
    documents, that it is uniform in [0, 1). *)
Class RandomF64 := { random_f64 : N → f64 }.
Class RandomF64Ok `{RandomF64} : Prop :=
  random_f64_range n : SFleb f64_0 (random_f64 n) = true ∧ SFltb (random_f64 n) f64_1 = true.

(** ** [network.rs] *)

(** [struct Connection] *)
Record Connection := mkConnection { cn_from : u64; cn_to : u64 }.
#[global] Instance Connection_eq_dec : EqDecision Connection.
Proof. solve_decision. Defined.
#[global] Instance Connection_countable : Countable Connection.
Proof. refine (inj_countable' (λ c, (cn_from c, cn_to c)) (λ p, mkConnection p.1 p.2) _). by intros []. Defined.

(** Message types as keys of a map. *)
Definition message_types : list MessageType :=
  [MsgHup; MsgBeat; MsgPropose; MsgAppend; MsgAppendResponse; MsgRequestVote; MsgRequestVoteResponse; MsgSnapshot;
   MsgHeartbeat; MsgHeartbeatResponse; MsgUnreachable; MsgSnapStatus; MsgCheckQuorum; MsgTransferLeader; MsgTimeoutNow;
   MsgReadIndex; MsgReadIndexResp; MsgRequestPreVote; MsgRequestPreVoteResponse].
#[global] Instance MessageType_countable : Countable MessageType.
Proof.
  refine (inj_countable (λ t, fst <$> list_find (.= t) message_types) (λ n, k ← n; message_types !! k) _).
  by intros [].
Defined.

(** A configuration with another id. *)
Definition with_id (id : u64) (c : Config) : Config :=
  mkConfig id (cfg_election_tick c) (cfg_heartbeat_tick c) (cfg_applied c) (cfg_max_size_per_msg c) (cfg_max_inflight_msgs c)
    (cfg_check_quorum c) (cfg_pre_vote c) (cfg_min_election_tick c) (cfg_max_election_tick c) (cfg_read_only_option c)
    (cfg_skip_bcast_commit c) (cfg_batch_append c) (cfg_priority c) (cfg_max_uncommitted_size c)
    (cfg_max_committed_size_per_ready c) (cfg_max_apply_unpersisted_log_limit c) (cfg_disable_proposal_forwarding c).
Section network.
Context `{PbMessage, HashOrder, Rng, ConfChangeCodec, RandomF64}.

(** [struct Network]; [nw_draws] counts the random numbers drawn so far. *)
Record Network := mkNetwork {
  nw_peers : gmap u64 Interface;
  nw_dropm : gmap Connection f64;
  nw_ignorem : gmap MessageType bool;
  nw_draws : N }.
Definition set_nw_peers (v : gmap u64 Interface) (self : Network) : Network :=
  mkNetwork v (nw_dropm self) (nw_ignorem self) (nw_draws self).
Definition set_nw_dropm (v : gmap Connection f64) (self : Network) : Network :=
  mkNetwork (nw_peers self) v (nw_ignorem self) (nw_draws self).
Definition set_nw_ignorem (v : gmap MessageType bool) (self : Network) : Network :=
  mkNetwork (nw_peers self) (nw_dropm self) v (nw_draws self).
Definition set_nw_draws (v : N) (self : Network) : Network :=
  mkNetwork (nw_peers self) (nw_dropm self) (nw_ignorem self) v.
(** The field [storage]. *)
Definition nw_storage (self : Network) : gmap u64 MemStorageCore :=
  omap (λ p, (λ r, l_store (r_raft_log r)) <$> if_raft p) (nw_peers self).

(** [Network::default_config] *)
Definition default_config : Config :=
  mkConfig 0 10 1 0 NO_LIMIT 256 false false 0 0 Safe false false 0%Z NO_LIMIT NO_LIMIT 0 false.

(** [ConfState::from((voters, learners))] *)
Definition conf_state_from (voters learners : list u64) : ConfState := mkConfState voters learners [] [] false.

(** One round of the loop of [new_with_config]. *)
Definition new_peer (config : Config) (peer_addrs : list u64) (id : u64) (p : option Interface) : outcome Interface :=
  match p with
  | None =>
      store ← new_with_conf_state (conf_state_from peer_addrs []);
      res ← RaftStep.new (with_id id config) store;
      match res with Ok r => Done (Interface.new r) | Err _ => Panic Unwrap end
  | Some r =>
      match if_raft r with
      | Some raft => if negb (r_id raft =? id) then Panic Fatal else Done r
      | None => Done r
      end
  end.
Fixpoint new_peers (config : Config) (peer_addrs : list u64) (l : list (option Interface * u64)) (npeers : gmap u64 Interface)
    : outcome (gmap u64 Interface) :=
  match l with
  | [] => Done npeers
  | (p, id) :: l => r ← new_peer config peer_addrs id p; new_peers config peer_addrs l (<[id := r]> npeers)
  end.
Definition new_with_config (peers : list (option Interface)) (config : Config) : outcome Network :=
  let peer_addrs := N.of_nat <$> seq 1 (length peers) in
  npeers ← new_peers config peer_addrs (zip peers peer_addrs) ∅;
  Done (mkNetwork npeers ∅ ∅ 0).
Definition new (peers : list (option Interface)) : outcome Network := new_with_config peers default_config.

Definition ignore (t : MessageType) (self : Network) : Network := set_nw_ignorem (<[t := true]> (nw_ignorem self)) self.

(** The closure of [filter]: does a message pass, with the number drawn for it? *)
Definition ignores (m : Message) (self : Network) : bool := default false (nw_ignorem self !! m_type m).
Definition drop_rate (m : Message) (self : Network) : f64 :=
  default f64_0 (nw_dropm self !! mkConnection (m_from m) (m_to m)).
Fixpoint filter (msgs : list Message) (self : Network) : outcome (Network * list Message) :=
  match msgs with
  | [] => Done (self, [])
  | m :: msgs =>
      if ignores m self then filter msgs self
      else
        _ ← assert (negb (bool_decide (m_type m = MsgHup)));
        let pass := SFleb (drop_rate m self) (random_f64 (nw_draws self)) in
        '(self, out) ← filter msgs (set_nw_draws (nw_draws self + 1) self);
        Done (self, if pass then m :: out else out)
  end.

(** [read_messages]: [iter_mut] goes through the peers in the order of the map. *)
Fixpoint read_peers (ids : list u64) (peers : gmap u64 Interface) : gmap u64 Interface * list Message :=
  match ids with
  | [] => (peers, [])
  | id :: ids =>
      match peers !! id with
      | None => read_peers ids peers
      | Some p =>
          let '(p, msgs) := Interface.read_messages p in
          let '(peers, rest) := read_peers ids (<[id := p]> peers) in
          (peers, msgs ++ rest)
      end
  end.
Definition read_messages (self : Network) : Network * list Message :=
  let '(peers, msgs) := read_peers (iter_set (dom (nw_peers self))) (nw_peers self) in
  (set_nw_peers peers self, msgs).

(** The body of the inner loop of [send]: a message is handled, what it left
    unstable is persisted, and the answers go through the filter. *)
Definition deliver (m : Message) (self : Network) : outcome (Network * list Message) :=
  p ← unwrap (nw_peers self !! m_to m);
  '(p, _) ← Interface.step m p;
  p ← Interface.persist p;
  let '(p, resp) := Interface.read_messages p in
  filter resp (set_nw_peers (<[m_to m := p]> (nw_peers self)) self).
(** One round of the outer loop: every message under way is delivered. *)
Fixpoint send_round (msgs : list Message) (self : Network) : outcome (Network * list Message) :=
  match msgs with
  | [] => Done (self, [])
  | m :: msgs =>
      '(self, out) ← deliver m self;
      '(self, outs) ← send_round msgs self;
      Done (self, out ++ outs)
  end.
(** At most [n] rounds; the messages that are still under way after them. *)
Fixpoint send_rounds (n : nat) (msgs : list Message) (self : Network) : outcome (Network * list Message) :=
  match n, msgs with
  | O, _ | _, [] => Done (self, msgs)
  | S n, _ => '(self, msgs) ← send_round msgs self; send_rounds n msgs self
  end.
(** [send] is over when no message is under way; that may take any number of rounds. *)
Definition send (fuel : nat) (msgs : list Message) (self : Network) : outcome Network :=
  '(self, msgs) ← send_rounds fuel msgs self;
  match msgs with [] => Done self | _ => NoFuel end.
Definition filter_and_send (fuel : nat) (msgs : list Message) (self : Network) : outcome Network :=
  '(self, msgs) ← filter msgs self; send fuel msgs self.

(** [dispatch] stops at the first error. *)
Fixpoint dispatch_all (msgs : list Message) (self : Network) : outcome (Network * result unit) :=
  match msgs with
  | [] => Done (self, Ok ())
  | m :: msgs =>
      p ← unwrap (nw_peers self !! m_to m);
      '(p, res) ← Interface.step m p;
      let self := set_nw_peers (<[m_to m := p]> (nw_peers self)) self in
      match res with Ok _ => dispatch_all msgs self | Err e => Done (self, Err e) end
  end.
Definition dispatch (msgs : list Message) (self : Network) : outcome (Network * result unit) :=
  '(self, msgs) ← filter msgs self; dispatch_all msgs self.

Definition drop (from to : u64) (perc : f64) (self : Network) : Network :=
  set_nw_dropm (<[mkConnection from to := perc]> (nw_dropm self)) self.
Definition cut (one other : u64) (self : Network) : Network := drop other one f64_1 (drop one other f64_1 self).
Definition isolate (id : u64) (self : Network) : Network :=
  foldl (λ self nid, if negb (nid =? id) then drop nid id f64_1 (drop id nid f64_1 self) else self)
    self ((λ i, N.of_nat i + 1) <$> seq 0 (size (nw_peers self))).
Definition recover (self : Network) : Network := set_nw_ignorem ∅ (set_nw_dropm ∅ self).
End network.
