(* ===== verification/NetworkSpec.v ===== *)
(** * The rules of the test network

    What passes [Network.filter] is decided by the ignored types and the drop
    rates alone when every rate is 0 or 1, as [cut], [isolate] and [recover] set
    them: the random numbers lie in [0, 1). *)
From Stdlib Require Import SpecFloat.
From S2P Require Import Prelude Errors Proto Util Storage MemStorage.
From S2P Require Import RaftState RaftRole RaftStep.
From S2P Require Interface.
From S2P Require Import Network.
#[local] Open Scope N_scope.

Section rules.
Context `{PbMessage, HashOrder, Rng, ConfChangeCodec, RandomF64}.
Implicit Types (self : Network) (m : Message).

(** ** What the rules say *)
Lemma drop_rate_drop m a b p self :
  drop_rate m (drop a b p self) = if bool_decide (mkConnection (m_from m) (m_to m) = mkConnection a b) then p else drop_rate m self.
Proof.
  unfold drop_rate, drop. simpl. case_bool_decide as Hc; [by rewrite Hc, lookup_insert_eq|].
  by rewrite lookup_insert_ne by congruence.
Qed.
(** A message between nodes [a] and [b]. *)
Definition between (a b : u64) m : Prop := (m_from m = a ∧ m_to m = b) ∨ (m_from m = b ∧ m_to m = a).
#[export] Instance between_dec a b m : Decision (between a b m).
Proof. unfold between. apply _. Defined.
Lemma drop_rate_both m a b self :
  drop_rate m (drop b a f64_1 (drop a b f64_1 self)) = if bool_decide (between a b m) then f64_1 else drop_rate m self.
Proof.
  rewrite !drop_rate_drop. unfold between. repeat case_bool_decide; try done; naive_solver congruence.
Qed.
(** A message between [id] and another node of [l]. *)
Definition outside (id : u64) (l : list u64) m : Prop := List.Exists (λ nid, nid ≠ id ∧ between id nid m) l.
Lemma drop_rate_isolate_loop m id l self :
  drop_rate m (foldl (λ self nid, if negb (nid =? id) then drop nid id f64_1 (drop id nid f64_1 self) else self) self l) =
    if bool_decide (outside id l m) then f64_1 else drop_rate m self.
Proof.
  revert self. induction l as [|nid l IH]; intros self; [done|]. cbn [foldl]. rewrite IH,  (bool_decide_ext (outside id (nid :: l) m) ((nid ≠ id ∧ between id nid m) ∨ outside id l m)) by apply Exists_cons.
  case_bool_decide as Ho; [by rewrite bool_decide_eq_true_2 by (by right)|].
  destruct (N.eqb_spec nid id) as [->|Hne]; simpl; [by rewrite bool_decide_eq_false_2 by (by intros [[]|])|].
  rewrite drop_rate_both. by rewrite (bool_decide_ext ((nid ≠ id ∧ between id nid m) ∨ outside id l m) (between id nid m)) by tauto.
Qed.
Lemma ignores_isolate_loop m id l self :
  ignores m (foldl (λ self nid, if negb (nid =? id) then drop nid id f64_1 (drop id nid f64_1 self) else self) self l) = ignores m self.
Proof. revert self. induction l as [|nid l IH]; intros self; simpl; [done|]. rewrite IH. by destruct (negb _). Qed.

(** ** What passes *)

(** The rates are certain, and nothing that must not be there is there. *)
Definition certain self m : Prop :=
  ignores m self = true ∨ (m_type m ≠ MsgHup ∧ (drop_rate m self = f64_0 ∨ drop_rate m self = f64_1)).
Definition passes self m : Prop := ignores m self = false ∧ drop_rate m self = f64_0.
#[export] Instance passes_dec self m : Decision (passes self m).
Proof.
  unfold passes. destruct (ignores m self); [right; by intros []|].
  destruct (drop_rate m self) as [[]| | |]; solve [by left|right; by intros []].
Defined.
(** The draws change nothing else. *)
Lemma filter_keeps msgs self self' out :
  filter msgs self = Done (self', out) → nw_peers self' = nw_peers self ∧ nw_dropm self' = nw_dropm self ∧
    nw_ignorem self' = nw_ignorem self ∧ out `sublist_of` msgs.
Proof.
  revert self self' out. induction msgs as [|m msgs IH]; intros self self' out E; simpl in E; [by injection E as <- <-|].
  destruct (ignores m self).
  - destruct (IH _ _ _ E) as (? & ? & ? & ?). split_and!; [done..|by constructor].
  - apply bind_Done in E as ([] & _ & E). apply bind_Done in E as ([self1 out1] & (? & ? & ? & ?)%IH & [= <- <-]).
    split_and!; [done..|]. destruct (SFleb _ _); by constructor.
Qed.
Lemma SFltb_not_leb x y : SFltb x y = true → SFleb y x = false.
Proof.
  unfold SFltb, SFleb. destruct x as [sx|sx| |sx mx ex], y as [sy|sy| |sy my ey]; try destruct sx; try destruct sy; try done.
  all: unfold SFcompare; rewrite (Z.compare_antisym ex ey); destruct (ex ?= ey)%Z; try done; change (PosDef.Pos.compare_cont Eq) with Pos.compare;
    rewrite (Pos.compare_antisym mx my); by destruct (mx ?= my)%positive.
Qed.
Lemma filter_certain `{!RandomF64Ok} msgs self :
  (∀ m, m ∈ msgs → certain self m) →
  ∃ n, filter msgs self = Done (set_nw_draws n self, base.filter (passes self) msgs).
Proof.
  revert self. induction msgs as [|m msgs IH]; intros self Hm; [by exists (nw_draws self); destruct self|].
  assert (∀ m', m' ∈ msgs → certain self m') as Hm' by (intros; apply Hm; by right). specialize (Hm m ltac:(by left)).
  simpl. rewrite filter_cons. destruct (ignores m self) eqn:Hi.
  { destruct (IH self Hm') as (n & ->). exists n. by rewrite decide_False by (intros []; congruence). }
  destruct Hm as [|[Hh Hr]]; [congruence|]. rewrite bool_decide_eq_false_2 by done. simpl.
  destruct (IH (set_nw_draws (nw_draws self + 1) self) Hm') as (n & ->). exists n. simpl.
  destruct (random_f64_range (nw_draws self)) as [H0r H1r]. destruct Hr as [Hr|Hr].
  - rewrite Hr, H0r. by rewrite decide_True.
  - rewrite Hr, SFltb_not_leb by done. rewrite decide_False; [done|]. intros [_ Hz]. by rewrite Hr in Hz.
Qed.
(** A request to campaign that is not ignored. *)
Definition stray self m : Prop := ignores m self = false ∧ m_type m = MsgHup.
#[export] Instance stray_dec self m : Decision (stray self m).
Proof. unfold stray. apply _. Defined.
Lemma filter_stray msgs self : List.Exists (stray self) msgs → ∃ p, filter msgs self = Panic p.
Proof.
  revert self. induction msgs as [|m msgs IH]; intros self; [by intros ?%Exists_nil|]. intros Hs. simpl.
  destruct (ignores m self) eqn:Hi.
  - apply IH. by apply Exists_cons in Hs as [[]|]; [congruence|].
  - case_bool_decide as Hh; [by eexists|]. simpl. destruct (IH (set_nw_draws (nw_draws self + 1) self)) as [p ->]; [|by exists p].
    apply Exists_cons in Hs as [[_ ?]|Hs]; [done|]. exact Hs.
Qed.
End rules.

(** Which messages pass the filter, when every rate is certain: those of types
    that are not ignored, over connections that drop nothing, in their order; but a
    request to campaign that is not ignored must never be there. *)
Theorem filter_spec `{RandomF64Ok} (self : Network) msgs :
  (∀ m, m ∈ msgs → drop_rate m self = f64_0 ∨ drop_rate m self = f64_1) →
  if bool_decide (List.Exists (stray self) msgs) then ∃ p, filter msgs self = Panic p
  else ∃ n, filter msgs self = Done (set_nw_draws n self, base.filter (passes self) msgs).
Proof.
  intros Hr. case_bool_decide as Hs; [by apply filter_stray|]. apply filter_certain. intros m Hm.
  unfold certain. destruct (ignores m self) eqn:Hi; [by left|right]. split; [|by apply Hr].
  intros Hh. apply Hs, Exists_exists. exists m. split; [done|by split].
Qed.

(** C29: Isolation. In a network whose rules have been reset, [isolate] stops exactly the
    messages between the isolated node and the other nodes, in both directions, and
    [recover] lets everything pass again. *)
Theorem isolate_spec `{RandomF64Ok} (self : Network) id msgs :
  (∀ m, m ∈ msgs → m_type m ≠ MsgHup) →
  let nodes := (λ i, N.of_nat i + 1) <$> seq 0 (size (nw_peers self)) in let cut_off := isolate id (recover self) in
  (∃ n, filter msgs cut_off = Done (set_nw_draws n cut_off, base.filter (λ m, ¬ outside id nodes m) msgs)) ∧
  ∃ n, filter msgs (recover cut_off) = Done (set_nw_draws n (recover cut_off), msgs).
Proof.
  intros Hh nodes cut_off.
  assert (∀ m, drop_rate m cut_off = if bool_decide (outside id nodes m) then f64_1 else f64_0) as Hd.
  { intros m. unfold cut_off, isolate. by rewrite drop_rate_isolate_loop. }
  assert (∀ m, ignores m cut_off = false) as Hi by (intros m; unfold cut_off, isolate; by rewrite ignores_isolate_loop). split.
  - destruct (filter_certain msgs cut_off) as (n & ->).
    { intros m Hm. right. split; [by apply Hh|]. rewrite Hd. case_bool_decide; auto. }
    exists n. do 2 f_equal. apply list_filter_iff. intros m. unfold passes. rewrite Hi, Hd. case_bool_decide; naive_solver.
  - destruct (filter_certain msgs (recover cut_off)) as (n & ->); [intros m Hm; right; split; [by apply Hh|by left]|].
    exists n. do 2 f_equal. induction msgs as [|m msgs IH]; [done|]. rewrite filter_cons, decide_True by done.
    f_equal. apply IH. intros; apply Hh. by right.
Qed.
