(* ===== verification/NetworkRuns.v ===== *)
(** * The test network runs the verified system

    Whatever a test does with its [Network] - sending messages and the answers to
    them until all is quiet, dropping them, ticking the nodes - the nodes take the
    steps of a [system] of [RaftSafety], so that what is proved there holds of the
    clusters of the tests. A message that a node relies on comes from the network;
    the log of a node fits in memory when it is persisted. *)
From S2P Require Import Prelude Errors Proto Util Quorum Storage MemStorage Unstable ReadOnly Config.
From S2P Require Import Majority Joint Progress Tracker RaftLog RaftLogSpec RaftLogReads LogTotal LogFinal RaftState RaftSend RaftLogic.
From S2P Require Import RaftRole RaftStep RaftReset RaftElect RaftCluster RaftFinal RaftPlain.
From S2P Require Import RaftSystem RaftFollow RaftMatching RaftSafety.
From S2P Require Interface ConfChange ConfChangeSafety.
From S2P Require Import Network NetworkSpec.
Import Interface (Interface, mkInterface, if_raft).
#[local] Open Scope N_scope.

(** ** Persisting *)

(** Entries that continue a log can be read back. *)
Lemma mem_append_back `{PbMessage} es e0 core core' :
  head es = Some e0 → mem_ok core → contiguous (e_index e0) es → mem_first core ≤ e_index e0 ≤ mem_first core + len (ms_entries core) →
  e_index e0 + len es ≤ u64_max → MemStorage.append es core = Done (core', Ok ()) → total_size (ms_entries core') ≤ u64_max →
  mem_ok core' ∧ mem_first core' = mem_first core ∧ mem_dummy_term core' = mem_dummy_term core ∧
    ms_entries core' = take (N.to_nat (e_index e0 - mem_first core)) (ms_entries core) ++ es.
Proof.
  intros Hh Hok Hce Hin Hb E Hsz. pose proof Hok as [Hc Hs Hbo _]. unfold MemStorage.append in E. rewrite Hh, mem_first_index in E by done.
  simpl in E. rewrite (proj2 (N.ltb_ge _ _)) in E by lia. apply bind_Done in E as (end_ & _ & E). destruct (_ <? _); [done|].
  rewrite sub64_ok in E by lia. cbn [mbind outcome_bind] in E. apply bind_Done in E as (kept & Hk & [= <-]). unfold vslice in Hk. rewrite N.sub_0_r in Hk. destruct (_ && _); [|done].
  injection Hk as <-. simpl in *. rewrite drop_0 in *. set (kept := take _ _) in *.
  assert (head (kept ++ es) = Some e0 ∧ e_index e0 = mem_first core ∨ ∃ k, head (kept ++ es) = Some k ∧ e_index k = mem_first core) as Hhd.
  { unfold kept. destruct (ms_entries core) as [|k l] eqn:El.
    - left. rewrite take_nil. split; [done|]. unfold len in Hin. simpl in Hin. lia.
    - destruct (N.to_nat (e_index e0 - mem_first core)) as [|n] eqn:En; [left; split; [done|lia]|right]. exists k. split; [done|].
      unfold mem_first. by rewrite El. }
  assert (mem_first (set_ms_entries (kept ++ es) core) = mem_first core) as Hf.
  { unfold mem_first at 1. simpl. by destruct Hhd as [[-> ?]|(k & -> & ?)]. }
  assert (len kept = e_index e0 - mem_first core) as Hlk by (unfold kept, len in *; rewrite length_take; lia).
  split_and!; [|done| |done].
  - constructor; rewrite ?Hf; simpl; [|done|rewrite len_app; lia|done]. apply contiguous_app. split.
    + intros i e He. apply Hc. unfold kept in He. by apply lookup_take_Some in He as [? _].
    + by replace (mem_first core + len kept) with (e_index e0) by lia.
  - unfold mem_dummy_term. by rewrite Hf.
Qed.

Section persist.
Context `{PbMessage}.
Lemma persisted_log (l l1 : RaftLog MemStorageCore) store' e :
  log_wf l → u_snapshot (l_unstable l) = None → last (u_entries (l_unstable l)) = Some e →
  RaftLog.stable_entries (e_index e) (e_term e) l = Done l1 →
  MemStorage.append (u_entries (l_unstable l)) (l_store l1) = Done (store', Ok ()) → total_size (ents l) ≤ u64_max →
  let l2 := set_l_store store' l1 in
  log_wf l2 ∧ same_base l l2 ∧ first l2 = first l ∧ ents l2 = ents l ∧ l_committed l2 = l_committed l ∧ l_persisted l2 = l_persisted l.
Proof.
  intros Hw Hsn Hlast Es Ea Hsz l2. pose proof Hw as [Hj Hc Hp Ha]. pose proof (jo_unstable _ Hj) as [Huc Hub Hup _ _].
  pose proof (jo_gap _ Hj Hsn) as Hg. unfold RaftLog.stable_entries, Unstable.stable_entries in Es. rewrite Hsn, Hlast in Es. simpl in Es.
  rewrite !N.eqb_refl in Es. simpl in Es. rewrite (contiguous_last _ _ _ Huc Hlast) in Es.
  assert (0 < len (u_entries (l_unstable l))) as Hpos by (apply len_pos; intros Hn; by rewrite Hn in Hlast).
  rewrite add64_ok in Es by lia. injection Es as <-. simpl in Ea.
  destruct (head (u_entries (l_unstable l))) as [e0|] eqn:Hh; [|by destruct (u_entries (l_unstable l))].
  assert (e_index e0 = u_offset (l_unstable l)) as He0.
  { destruct (u_entries (l_unstable l)) as [|e1 es] eqn:Eu; [done|]. injection Hh as ->. rewrite (Huc 0%nat e0 eq_refl). lia. }
  change (st_first (l_store l)) with (mem_first (l_store l)) in Hg. change (st_entries (l_store l)) with (ms_entries (l_store l)) in Hg.
  assert (ents l = take (N.to_nat (e_index e0 - mem_first (l_store l))) (ms_entries (l_store l)) ++ u_entries (l_unstable l)) as He.
  { unfold ents, stable_part. rewrite Hsn, He0. done. }
  assert (ms_entries store' = ents l) as Hst.
  { unfold MemStorage.append in Ea. rewrite Hh, (mem_first_index _ (jo_store _ Hj)) in Ea. cbn [mbind outcome_bind] in Ea. destruct (_ <? _); [done|].
    apply bind_Done in Ea as (n & _ & Ea). destruct (_ <? _); [done|]. apply bind_Done in Ea as (d & [_ ->]%sub64_Done & Ea).
    apply bind_Done in Ea as (kept & Hk & [= <-]). unfold vslice in Hk. destruct (_ && _); [|done]. injection Hk as <-.
    simpl. by rewrite drop_0, N.sub_0_r. }
  destruct (mem_append_back _ e0 _ store' Hh (jo_store _ Hj)) as (Hmo & Hmf & Hmd & _);
    [by rewrite He0|by rewrite He0|by rewrite He0|done|by rewrite Hst|].
  assert (first l = mem_first (l_store l)) as Hf by (unfold first; by rewrite Hsn).
  assert (first l2 = first l) as Hf2 by (rewrite Hf, <-Hmf; unfold l2, first; simpl; by rewrite Hsn).
  pose proof (log_end_unstable l Hj) as Hend. set (o := u_offset (l_unstable l) + len (u_entries (l_unstable l)) - 1 + 1) in *.
  assert (o = log_end l) as Ho by (unfold o; lia).
  assert (ents l2 = ents l) as He2.
  { unfold ents at 1, stable_part, l2. simpl. rewrite Hsn, app_nil_r. change (st_entries store') with (ms_entries store').
    change (st_first store') with (mem_first store'). rewrite Hst. apply take_ge. rewrite Hmf, <-Hf. fold o. rewrite Ho. unfold log_end, len. lia. }
  assert (log_end l2 = log_end l) as Hend2 by (unfold log_end; by rewrite Hf2, He2).
  split_and!; try done; [|by split; unfold l2, dummy; simpl; rewrite Hsn].
  constructor; rewrite ?Hf2, ?Hend2; try done; simpl; [|fold o; lia].
  constructor; simpl; [done| |intros _; fold o|intros _ _; fold o].
  - constructor; simpl; [apply contiguous_nil|rewrite len_nil; fold o; lia|fold o; lia|done|by rewrite Hsn].
  - change (st_entries store') with (ms_entries store'). change (st_first store') with (mem_first store'). rewrite Hmf, Hst, <-Hf, Ho.
    unfold log_end. lia.
  - change (st_entries store') with (ms_entries store'). change (st_first store') with (mem_first store'). by rewrite Hmf, Hst, <-Hf, Ho.
Qed.
End persist.

(** ** Nodes of the network and nodes of the system *)
Section runs.
Context `{PbMessage, HashOrder, Rng, ConfChangeCodec, RandomF64}.
Context (conf : JointConfig) (Hconf : joint_bounded conf) (Hvoters : voters (incoming conf) ≠ ∅).
Context (Σ0 : system (S := MemStorageCore)) (Hstarts : starts conf Σ0).
Implicit Types (Σ : system (S := MemStorageCore)) (r : Raft MemStorageCore) (peers : gmap u64 Interface) (self : Network).

(** The system has come to [Σ]: its nodes are the [peers], and the messages the
    test knows of have been sent. *)
Record tracks Σ peers (known : list Message) : Prop := {
  tr_run : rtc (system_step conf) Σ0 Σ;
  tr_node i r : peers !! i = Some (mkInterface (Some r)) →
    i ≠ INVALID_ID ∧ s_node Σ i = r ∧ u_snapshot (l_unstable (r_raft_log r)) = None;
  tr_known g : g ∈ known → g ∈ net (s_cluster Σ) }.
Definition reaches peers known peers' known' : Prop :=
  ∀ Σ, tracks Σ peers known → ∃ Σ', rtc (system_step conf) Σ Σ' ∧ tracks Σ' peers' known'.

Lemma tracks_ok Σ peers known : tracks Σ peers known → ∃ G past, system_ok conf G past Σ.
Proof using Hconf Hvoters Hstarts.
  intros Ht. destruct (steps_system_ok conf Hconf Hvoters _ _ _ _ (starts_ok conf _ Hstarts) (tr_run _ _ _ Ht)) as (G & past & _ & Hok).
  by exists G, past.
Qed.
Lemma reaches_refl peers known known' : (∀ g, g ∈ known' → g ∈ known) → reaches peers known peers known'.
Proof. intros Hk Σ Ht. exists Σ. split; [done|]. destruct Ht as [R N K]. constructor; [done..|auto]. Qed.
Lemma reaches_trans peers1 known1 peers2 known2 peers3 known3 :
  reaches peers1 known1 peers2 known2 → reaches peers2 known2 peers3 known3 → reaches peers1 known1 peers3 known3.
Proof.
  intros H12 H23 Σ Ht. destruct (H12 Σ Ht) as (Σ2 & R2 & Ht2). destruct (H23 Σ2 Ht2) as (Σ3 & R3 & Ht3).
  exists Σ3. split; [by etrans|done].
Qed.
(** One node moves. *)
Lemma tracks_node Σ Σ' peers known i r' :
  system_step conf Σ Σ' → s_node Σ' i = r' → (∀ j, j ≠ i → s_node Σ' j = s_node Σ j) → net (s_cluster Σ') = net (s_cluster Σ) →
  i ≠ INVALID_ID → u_snapshot (l_unstable (r_raft_log r')) = None → tracks Σ peers known →
  rtc (system_step conf) Σ Σ' ∧ tracks Σ' (<[i := mkInterface (Some r')]> peers) known.
Proof.
  intros Hs Hi Hj Hn Hid Hu [R N K]. split; [by apply rtc_once|]. constructor.
  - by eapply rtc_r.
  - intros j r. intros [[<- [= <-]]|[Hne Hp]]%lookup_insert_Some; [done|]. destruct (N j r Hp) as (? & ? & ?). by rewrite Hj.
  - intros g Hg. rewrite Hn. by apply K.
Qed.
Lemma tracks_event Σ peers known i r e r' :
  peers !! i = Some (mkInterface (Some r)) → ordinary e → run_event e r = Done r' → allowed conf Σ i e → tracks Σ peers known →
  ∃ Σ', rtc (system_step conf) Σ Σ' ∧ tracks Σ' (<[i := mkInterface (Some r')]> peers) known.
Proof using Hconf Hvoters Hstarts.
  intros Hp Ho E Hal Ht. destruct (tr_node _ _ _ Ht i r Hp) as (Hi & <- & Hu).
  destruct (tracks_ok _ _ _ Ht) as (G & past & Hok).
  pose proof (no_tame _ _ _ _ _ (so_node _ _ _ _ Hok i)) as Hta.
  assert (possible (s_cluster Σ) i e) as Hpos.
  { split; [change (nodes (s_cluster Σ) i) with (s_node Σ i); by rewrite (ta_conf _ _ Hta)|]. destruct e as [m| | | | | |]; try done.
    intros Hg. apply Hal. unfold is_grant in Hg. unfold claims. by destruct (m_type m). }
  destruct (event_ordinary conf G past Σ Hok i e r' Hpos Hal E Ho) as (Hns & Hin & _).
  eexists. apply tracks_node; [by apply (ss_event conf Σ i e r')|..]; try done.
  - unfold s_node, set_node. simpl. by rewrite N.eqb_refl.
  - intros j Hj. unfold s_node, set_node. simpl. by rewrite (proj2 (N.eqb_neq _ _)).
  - destruct (run_plain e _ _ Ho Hin Hns E) as [_ Hl _ _]. destruct (Hl (proj1 (wo_log _ _ (so_world _ _ _ _ Hok) i))) as (_ & Hs & _). congruence.
Qed.
Lemma reaches_event peers known i r e r' :
  peers !! i = Some (mkInterface (Some r)) → ordinary e → run_event e r = Done r' →
  (∀ Σ, tracks Σ peers known → allowed conf Σ i e) → reaches peers known (<[i := mkInterface (Some r')]> peers) known.
Proof using Hconf Hvoters Hstarts. intros Hp Ho E Hal Σ Ht. by eapply tracks_event; [..|apply Hal|]. Qed.
(** What is in an outbox is sent, from a disk that is up to date. *)
Lemma tracks_saved Σ peers known i :
  tracks Σ peers known → let Σ' := mkSystem (s_cluster Σ)
    (λ j, if j =? i then (ents (s_log Σ i), l_committed (s_log Σ i)) else s_disk Σ j) in
  rtc (system_step conf) Σ Σ' ∧ tracks Σ' peers known.
Proof.
  intros [R N K] Σ'. assert (system_step conf Σ Σ') as Hs by constructor.
  split; [by apply rtc_once|]. constructor; [by eapply rtc_r|done..].
Qed.
Lemma reaches_sent peers known i r :
  peers !! i = Some (mkInterface (Some r)) →
  reaches peers known (<[i := mkInterface (Some (set_r_msgs [] r))]> peers) (known ++ r_msgs r).
Proof.
  intros Hp Σ Ht. destruct (tracks_saved Σ peers known i Ht) as [R1 Ht1]. set (Σ1 := mkSystem _ _) in *. destruct Ht1 as [R N K].
  destruct (N i r Hp) as (Hi & Er & Hu). pose proof (ss_send conf Σ1 i) as Hs. simpl in Hs. rewrite N.eqb_refl in Hs.
  specialize (Hs (or_introl eq_refl)). change (nodes (s_cluster Σ) i) with (s_node Σ1 i) in Hs. rewrite Er in Hs.
  eexists. split; [eapply rtc_r; [exact R1|exact Hs]|]. constructor; [eapply rtc_r; [exact R|exact Hs]| |].
  - intros j r2. unfold s_node, set_node. simpl. intros [[<- [= <-]]|[Hne Hpj]]%lookup_insert_Some; [by rewrite N.eqb_refl|].
    rewrite (proj2 (N.eqb_neq _ _)) by done. by apply N.
  - intros g. simpl. intros [Hg%K|Hg]%elem_of_app; apply elem_of_app; [by left|by right].
Qed.
(** The log is written to the storage. *)
Lemma reaches_written peers known i r l :
  peers !! i = Some (mkInterface (Some r)) →
  (log_wf (r_raft_log r) → log_wf l ∧ same_base (r_raft_log r) l ∧ first l = first (r_raft_log r) ∧ ents l = ents (r_raft_log r) ∧
    l_committed l = l_committed (r_raft_log r) ∧ l_persisted l = l_persisted (r_raft_log r)) →
  reaches peers known (<[i := mkInterface (Some (set_r_raft_log l r))]> peers) known.
Proof using Hconf Hvoters Hstarts.
  intros Hp Hl Σ Ht. destruct (tr_node _ _ _ Ht i r Hp) as (Hi & <- & Hu). destruct (tracks_ok _ _ _ Ht) as (G & past & Hok).
  destruct (wo_log _ _ (so_world _ _ _ _ Hok) i) as [Hw Hf]. destruct (Hl Hw) as (Hwl & [Hsn Hd] & Hfl & He & Hc & Hpe).
  pose proof (no_tame _ _ _ _ _ (so_node _ _ _ _ Hok i)) as Hta.
  eexists. apply tracks_node; [apply (ss_event conf Σ i (LogWritten l)); [done| | |reflexivity]|..]; try done.
  - split; [|done]. change (nodes (s_cluster Σ) i) with (s_node Σ i). by rewrite (ta_conf _ _ Hta).
  - split_and!; try done; [by rewrite Hfl|by rewrite Hd, (ta_first _ _ Hta)].
  - unfold s_node, set_node. simpl. by rewrite N.eqb_refl.
  - intros j Hj. unfold s_node, set_node. simpl. by rewrite (proj2 (N.eqb_neq _ _)).
  - simpl. by rewrite Hsn.
Qed.

(** ** Persisting and delivering *)

(** The log that a node is about to persist fits in memory. *)
Definition small r : bool := total_size (ents (r_raft_log r)) <=? u64_max.
Definition node_small (p : Interface) : bool := match if_raft p with Some r => small r | None => true end.

Lemma last_on_disk (l : RaftLog MemStorageCore) e :
  log_wf l → first l = 1 → last (u_entries (l_unstable l)) = Some e → ents l !! (N.to_nat (e_index e) - 1)%nat = Some e.
Proof.
  intros Hw Hf Hl. pose proof (lw_joined _ Hw) as Hj. pose proof (jo_unstable _ Hj) as [Huc _ Hup _ _].
  pose proof (contiguous_last _ _ _ Huc Hl) as Hi. pose proof (log_end_unstable l Hj) as He. rewrite (log_end_len l Hf) in He.
  assert (0 < len (u_entries (l_unstable l))) by (apply len_pos; intros Hn; by rewrite Hn in Hl).
  assert (last (ents l) = Some e) as Hle by (unfold ents; by rewrite last_app, Hl).
  rewrite last_lookup in Hle. rewrite <-Hle. f_equal. unfold len in *. lia.
Qed.
Lemma reaches_persist_entries peers known i r r' u :
  peers !! i = Some (mkInterface (Some r)) → small r = true → Interface.persist_entries r = Done (r', u) →
  reaches peers known (<[i := mkInterface (Some r')]> peers) known.
Proof using Hconf Hvoters Hstarts.
  intros Hp Hsm%N.leb_le E Σ Ht. destruct (tr_node _ _ _ Ht i r Hp) as (Hi & Er & Hu).
  unfold Interface.persist_entries in E. apply rm_bind_Done in E as (r2 & es & [-> ->]%rm_gets_Done & E). unfold unstable_entries in E.
  destruct (last (u_entries (l_unstable (r_raft_log r)))) as [e|] eqn:Hl; cycle 1.
  { apply rm_ret_Done in E as [-> _]. rewrite insert_id by done. by exists Σ. }
  apply rm_bind_Done in E as (r2 & [] & (l1 & El1 & ->)%rm_update_log_Done & E). apply rm_bind_Done in E as (r3 & [] & E2 & E).
  unfold Interface.write_store in E2. apply bind_Done in E2 as ([store res] & Ea & E2). destruct res as [[]|]; [|done]. injection E2 as <-.
  destruct (tracks_ok _ _ _ Ht) as (G & past & Hok). destruct (wo_log _ _ (so_world _ _ _ _ Hok) i) as [Hw Hf].
  change (w_log _ i) with (r_raft_log (s_node Σ i)) in Hw, Hf. rewrite Er in Hw, Hf.
  destruct (persisted_log _ _ _ _ Hw Hu Hl El1 Ea Hsm) as (Hwl & Hb & Hfl & He & Hc & Hpe). simpl in E. set (l2 := set_l_store store l1) in *.
  change (set_r_raft_log l2 (set_r_raft_log l1 r)) with (set_r_raft_log l2 r) in E.
  destruct (reaches_written peers known i r l2 Hp) with (Σ := Σ) as (Σ2 & R2 & Ht2); [done..|].
  destruct (tracks_saved Σ2 _ _ i Ht2) as [R3 Ht3]. set (Σ3 := mkSystem _ _) in *.
  destruct (tracks_event Σ3 (<[i := mkInterface (Some (set_r_raft_log l2 r))]> peers) known i (set_r_raft_log l2 r) (Persisted (e_index e) (e_term e)) r')
    as (Σ' & R' & Ht'); [by rewrite lookup_insert_eq|done|simpl; by rewrite E| |done|].
  - destruct (tr_node _ _ _ Ht2 i (set_r_raft_log l2 r)) as (_ & Er2 & _); [by rewrite lookup_insert_eq|].
    exists e. split; [|done]. simpl. rewrite N.eqb_refl. unfold s_log. rewrite Er2. simpl. rewrite He. by apply last_on_disk.
  - exists Σ'. split; [by do 2 (etrans; [eassumption|])|]. by rewrite insert_insert_eq in Ht'.
Qed.
Lemma reaches_persist peers known i p p' :
  peers !! i = Some p → node_small p = true → Interface.persist p = Done p' → reaches peers known (<[i := p']> peers) known.
Proof using Hconf Hvoters Hstarts.
  destruct p as [[r|]]; intros Hp Hsm E; unfold Interface.persist in E; simpl in E; cycle 1.
  { injection E as <-. rewrite insert_id by done. by apply reaches_refl. }
  apply bind_Done in E as ([r' []] & E & [= <-]). intros Σ Ht. destruct (tr_node _ _ _ Ht i r Hp) as (Hi & Er & Hu).
  apply rm_bind_Done in E as (r1 & [] & Es & E).
  assert (r1 = r) as ->.
  { unfold Interface.persist_snapshot in Es. apply rm_bind_Done in Es as (r2 & s & [-> ->]%rm_gets_Done & Es).
    unfold unstable_snapshot in Es. rewrite Hu in Es. by apply rm_ret_Done in Es as [-> _]. }
  by eapply reaches_persist_entries.
Qed.
(** What a test may send: a message that a node relies on comes from the network. *)
Definition heard (known : list Message) m : Prop := claims m = true → m ∈ known.
Lemma reaches_step peers known m p p' res :
  peers !! m_to m = Some p → heard known m → Interface.step m p = Done (p', res) → reaches peers known (<[m_to m := p']> peers) known.
Proof using Hconf Hvoters Hstarts.
  intros Hp Hm E. destruct p as [[r|]]; unfold Interface.step in E; simpl in E; cycle 1.
  { injection E as <- _. rewrite insert_id by done. by apply reaches_refl. }
  apply bind_Done in E as ([r' res'] & E & [= <- _]). apply (reaches_event _ _ _ r (Receive m)); [done|done|simpl; by rewrite E|].
  intros Σ Ht Hc. split; [|done]. by apply (tr_known _ _ _ Ht), Hm.
Qed.
Lemma reaches_read peers known i p p' ms :
  peers !! i = Some p → Interface.read_messages p = (p', ms) → reaches peers known (<[i := p']> peers) (known ++ ms).
Proof.
  intros Hp E. destruct p as [[r|]]; unfold Interface.read_messages in E; simpl in E; injection E as <- <-; [by apply reaches_sent|].
  rewrite insert_id, app_nil_r by done. by apply reaches_refl.
Qed.

(** A message leaves a log that fits in memory. *)
Definition delivery_small m self : bool :=
  match nw_peers self !! m_to m with
  | Some p => match Interface.step m p with Done (p, _) => node_small p | _ => true end
  | None => true
  end.
Lemma reaches_deliver self self' known m out :
  deliver m self = Done (self', out) → delivery_small m self = true → heard known m →
  reaches (nw_peers self) known (nw_peers self') (known ++ out).
Proof using Hconf Hvoters Hstarts.
  intros E Hsm Hm. unfold deliver in E. apply bind_Done in E as (p & Hp%unwrap_Done & E). apply bind_Done in E as ([p1 res] & E1 & E).
  apply bind_Done in E as (p2 & E2 & E). destruct (Interface.read_messages p2) as [p3 resp] eqn:E3.
  unfold delivery_small in Hsm. rewrite Hp, E1 in Hsm. apply filter_keeps in E as (-> & _ & _ & Hsub). simpl.
  eapply reaches_trans; [by eapply reaches_step|]. eapply reaches_trans.
  { eapply (reaches_persist _ _ (m_to m)); [by rewrite lookup_insert_eq|done|exact E2]. }
  rewrite insert_insert_eq. eapply reaches_trans.
  { eapply (reaches_read _ _ (m_to m)); [by rewrite lookup_insert_eq|exact E3]. }
  rewrite insert_insert_eq. apply reaches_refl. intros g [Hg|Hg]%elem_of_app; apply elem_of_app; [by left|right].
  eapply elem_of_submseteq; [exact Hg|by apply sublist_submseteq].
Qed.

(** ** Rounds *)
Lemma heard_more known more m : heard known m → heard (known ++ more) m.
Proof. intros Hm Hc. apply elem_of_app. left. by apply Hm. Qed.
Fixpoint round_small (msgs : list Message) self : bool :=
  match msgs with
  | [] => true
  | m :: msgs => delivery_small m self && match deliver m self with Done (self, _) => round_small msgs self | _ => true end
  end.
Fixpoint rounds_small (n : nat) (msgs : list Message) self : bool :=
  match n, msgs with
  | O, _ | _, [] => true
  | Datatypes.S n, _ => round_small msgs self && match send_round msgs self with Done (self, msgs) => rounds_small n msgs self | _ => true end
  end.
Lemma reaches_round msgs self self' known outs :
  send_round msgs self = Done (self', outs) → round_small msgs self = true → Forall (heard known) msgs →
  reaches (nw_peers self) known (nw_peers self') (known ++ outs).
Proof using Hconf Hvoters Hstarts.
  revert self self' known outs. induction msgs as [|m msgs IH]; intros self self' known outs E Hsm Hm; simpl in E.
  { injection E as <- <-. rewrite app_nil_r. by apply reaches_refl. }
  apply bind_Done in E as ([self1 out] & E1 & E). apply bind_Done in E as ([self2 outs'] & E2 & [= <- <-]).
  cbn [round_small] in Hsm. rewrite E1 in Hsm. apply andb_true_iff in Hsm as [Hs1 Hs2]. apply Forall_cons in Hm as [Hm Hms].
  eapply reaches_trans; [by eapply reaches_deliver|]. rewrite app_assoc. eapply IH; [done..|].
  eapply Forall_impl; [exact Hms|]. intros m' ?. by apply heard_more.
Qed.
Lemma reaches_rounds n msgs self self' known left :
  send_rounds n msgs self = Done (self', left) → rounds_small n msgs self = true → Forall (heard known) msgs →
  ∃ more, reaches (nw_peers self) known (nw_peers self') (known ++ more) ∧ Forall (heard (known ++ more)) left.
Proof using Hconf Hvoters Hstarts.
  revert msgs self self' known left. induction n as [|n IH]; intros msgs self self' known left E Hsm Hm; simpl in E.
  { injection E as <- <-. exists []. rewrite app_nil_r. split; [by apply reaches_refl|done]. }
  destruct msgs as [|m msgs]; [injection E as <- <-; exists []; rewrite app_nil_r; split; [by apply reaches_refl|done]|].
  apply bind_Done in E as ([self1 outs] & E1 & E). cbn [rounds_small] in Hsm. rewrite E1 in Hsm. apply andb_true_iff in Hsm as [Hs1 Hs2].
  destruct (IH outs self1 self' (known ++ outs) left E Hs2) as (more & Hr & Hl).
  { apply Forall_forall. intros g Hg _. apply elem_of_app. by right. }
  exists (outs ++ more). rewrite app_assoc. split; [|done]. eapply reaches_trans; [by eapply reaches_round|done].
Qed.
Lemma reaches_dispatch msgs self self' known res :
  dispatch_all msgs self = Done (self', res) → Forall (heard known) msgs → reaches (nw_peers self) known (nw_peers self') known.
Proof using Hconf Hvoters Hstarts.
  revert self. induction msgs as [|m msgs IH]; intros self E Hm; simpl in E; [injection E as <- _; by apply reaches_refl|].
  apply bind_Done in E as (p & Hp%unwrap_Done & E). apply bind_Done in E as ([p' res'] & E1 & E). apply Forall_cons in Hm as [Hm Hms].
  eapply reaches_trans; [by eapply reaches_step|]. destruct res' as [[]|]; [by apply IH in E|]. injection E as <- _. by apply reaches_refl.
Qed.
Lemma reaches_read_peers ids peers peers' known ms :
  read_peers ids peers = (peers', ms) → reaches peers known peers' (known ++ ms).
Proof.
  revert peers peers' known ms. induction ids as [|i ids IH]; intros peers peers' known ms E; simpl in E.
  { injection E as <- <-. rewrite app_nil_r. by apply reaches_refl. }
  destruct (peers !! i) as [p|] eqn:Hp; [|by apply IH]. destruct (Interface.read_messages p) as [p' out] eqn:E1.
  destruct (read_peers ids _) as [peers1 rest] eqn:E2. injection E as <- <-. rewrite app_assoc.
  eapply reaches_trans; [by eapply reaches_read|by apply IH].
Qed.

(** ** A test *)

(** What a test does, with the messages it knows of so far: it sends messages and
    the answers to them, in rounds, until none is left or for a while, dispatches
    messages without persisting, reads out what the nodes want to send, changes the
    rules of the network, lets time pass at a node, reports entries as applied, and
    persists what a node has. *)
Inductive test_step : Network * list Message → Network * list Message → Prop :=
  | ts_send n msgs self self' known left :
      Forall (heard known) msgs → rounds_small n msgs self = true → send_rounds n msgs self = Done (self', left) →
      test_step (self, known) (self', known ++ base.filter (λ m, claims m = true) left)
  | ts_dispatch msgs self self' known res :
      Forall (heard known) msgs → dispatch msgs self = Done (self', res) → test_step (self, known) (self', known)
  | ts_read self self' known out : read_messages self = (self', out) → test_step (self, known) (self', known ++ out)
  | ts_rules self self' known : nw_peers self' = nw_peers self → test_step (self, known) (self', known)
  | ts_event i r e r' self known :
      nw_peers self !! i = Some (mkInterface (Some r)) → e = Tick ∨ (∃ j, e = Applied j) → run_event e r = Done r' →
      test_step (self, known) (set_nw_peers (<[i := mkInterface (Some r')]> (nw_peers self)) self, known)
  | ts_persist i p p' self known :
      nw_peers self !! i = Some p → node_small p = true → Interface.persist p = Done p' →
      test_step (self, known) (set_nw_peers (<[i := p']> (nw_peers self)) self, known).
Lemma test_sends n msgs self self' known :
  Forall (heard known) msgs → rounds_small n msgs self = true → send n msgs self = Done self' → test_step (self, known) (self', known).
Proof using.
  intros Hm Hs E. unfold send in E. apply bind_Done in E as ([self1 left] & E1 & E). destruct left; [|done]. injection E as <-.
  pose proof (ts_send n msgs self self1 known [] Hm Hs E1) as Ht. simpl in Ht. by rewrite app_nil_r in Ht.
Defined.
Lemma test_step_reaches T T' : test_step T T' → reaches (nw_peers T.1) T.2 (nw_peers T'.1) T'.2.
Proof using Hconf Hvoters Hstarts.
  intros [n msgs self self' known left Hm Hsm E|msgs self self' known res Hm E|self self' known out E|self self' known E|
    i r e r' self known Hp He E|i p p' self known Hp Hsm E]; simpl.
  - destruct (reaches_rounds n msgs self self' known left) as (more & Hr & Hl); [done..|].
    eapply reaches_trans; [exact Hr|]. apply reaches_refl. rewrite Forall_forall in Hl.
    intros g [Hg|[Hc Hg]%list_elem_of_filter]%elem_of_app; [apply elem_of_app; by left|by apply Hl].
  - unfold dispatch in E. apply bind_Done in E as ([self1 out] & (<- & _ & _ & Hsub)%filter_keeps & E).
    eapply reaches_dispatch; [exact E|]. rewrite Forall_forall in Hm |- *. intros m Hg. apply Hm.
    eapply elem_of_submseteq; [exact Hg|by apply sublist_submseteq].
  - unfold read_messages in E. destruct (read_peers _ _) as [peers ms] eqn:Er. injection E as <- <-. by eapply reaches_read_peers.
  - rewrite E. by apply reaches_refl.
  - assert (ordinary e) as Ho by (by destruct He as [->|[j ->]]). eapply reaches_event; [exact Hp|exact Ho|exact E|].
    by destruct He as [->|[j ->]].
  - by eapply reaches_persist.
Qed.
Lemma test_reaches T T' : rtc test_step T T' → reaches (nw_peers T.1) T.2 (nw_peers T'.1) T'.2.
Proof using Hconf Hvoters Hstarts.
  induction 1 as [T|T1 T2 T3 Hs _ IH]; [by apply reaches_refl|]. eapply reaches_trans; [by apply test_step_reaches|done].
Qed.
End runs.
