(* ===== verification/NetworkSafety.v ===== *)
(** * Clusters on the test network are safe

    A network of new nodes is the beginning of a [system] of [RaftSafety], and a test
    runs it; so the nodes never commit different entries at the same position. *)
From S2P Require Import Prelude Errors Proto Util Quorum Storage MemStorage Unstable ReadOnly Config.
From S2P Require Import Majority Joint Progress Tracker RaftLog RaftLogSpec RaftLogReads LogTotal LogFinal RaftState RaftSend RaftLogic.
From S2P Require Import RaftRole RaftStep RaftReset RaftElect RaftCluster RaftFinal RaftPlain.
From S2P Require Import RaftSystem RaftFollow RaftMatching RaftSafety.
From S2P Require Interface ConfChange ConfChangeSafety.
From S2P Require Import Network NetworkSpec NetworkRuns.
Import Interface (Interface, mkInterface, if_raft).
#[local] Open Scope N_scope.

(** ** New networks *)
Definition node_ids (n : nat) : list u64 := N.of_nat <$> seq 1 n.
(** All nodes vote. *)
Definition network_voters (n : nat) : JointConfig := Joint.new (list_to_set (node_ids n)).

Lemma network_voters_ok n : (0 < n)%nat → N.of_nat n ≤ u64_max → joint_bounded (network_voters n) ∧ voters (incoming (network_voters n)) ≠ ∅.
Proof.
  intros Hn Hb. split.
  - split; [|by vm_compute]. unfold set_len. simpl.
    rewrite size_list_to_set by (apply NoDup_fmap_2; [intros x y; lia|apply NoDup_seq]). unfold node_ids. rewrite length_fmap, length_seq. done.
  - simpl. intros He. assert (1 ∈ (list_to_set (node_ids n) : gset u64)) as H1; [|by rewrite He in H1; apply not_elem_of_empty in H1].
    apply elem_of_list_to_set, list_elem_of_fmap. exists 1%nat. split; [done|]. apply elem_of_seq. lia.
Qed.

Section start.
Context `{PbMessage, HashOrder, Rng, ConfChangeCodec, RandomF64}.
Implicit Types r : Raft MemStorageCore.

(** A node that has just been created, with the given voters. *)
Record new_node (conf : JointConfig) (i : u64) r : Prop := {
  nn_id : r_id r = i;
  nn_state : r_state r = Follower;
  nn_msgs : r_msgs r = [];
  nn_vote : r_vote r = INVALID_ID;
  nn_batch : r_batch_append r = false;
  nn_log : log_wf (r_raft_log r);
  nn_first : first (r_raft_log r) = 1;
  nn_ents : ents (r_raft_log r) = [];
  nn_dummy : dummy (r_raft_log r) = Some 0;
  nn_snapshot : u_snapshot (l_unstable (r_raft_log r)) = None;
  nn_request : r_pending_request_snapshot r = 0;
  nn_conf : c_voters (pt_conf (r_prs r)) = conf }.

Lemma restored_voters next voters p0 p :
  0 ∉ voters → ConfChangeSafety.empty_tracker p0 →
  ConfChange.restore next (conf_state_from voters []) p0 = (p, Ok ()) → c_voters (pt_conf p) = Joint.new (list_to_set voters).
Proof.
  intros Hz He E. pose proof (ConfChangeSafety.empty_tracker_ok _ He) as Hok. destruct He as [Hc _].
  unfold ConfChange.restore, ConfChange.to_conf_change_single in E. simpl in E. rewrite app_nil_r in E.
  destruct (ConfChangeSafety.restore_adds next voters p0) as (t & Ht & Hct & _); [done|done|by rewrite Hc|].
  rewrite Ht in E. injection E as <-. rewrite Hct, Hc, ConfChangeSafety.spec_adds by done. simpl. unfold Joint.new, Majority.new.
  by rewrite (left_id_L ∅ (∪)).
Qed.
Lemma loaded_fresh c store hs (l : RaftLog MemStorageCore) : loaded c store hs l → u_snapshot (l_unstable l) = None.
Proof.
  intros (l0 & com & Hn & -> & _). unfold RaftLog.new in Hn. repeat (apply bind_Done in Hn as (? & _ & Hn)). by injection Hn as <-.
Qed.
Lemma new_peer_node config ids i p :
  0 ∉ ids → cfg_batch_append config = false → cfg_applied config = 0 → new_peer config ids i None = Done p →
  ∃ r, p = mkInterface (Some r) ∧ new_node (Joint.new (list_to_set ids)) i r.
Proof.
  intros Hz Hb Ha E. unfold new_peer in E. apply bind_Done in E as (store & Hs & E). apply bind_Done in E as ([r|] & E & Ep); [|done].
  injection Ep as <-. exists r. split; [done|]. unfold new_with_conf_state, initialize_with_conf_state in Hs.
  apply bind_Done in Hs as ([] & _ & [= <-]). set (store := MemStorage.set_conf_state _ _) in *.
  destruct (new_spec _ store (ms_raft_state store) r E eq_refl) as (Hid & Hm & Hst & Ht & Hv & _ & _ & Hba & Hrq & (p0 & q & nx & Hp0 & Hre & Hcf) & Hl).
  assert (st_ok store) as Hok by (constructor; simpl; [apply contiguous_nil|done|by vm_compute|done]).
  destruct (loaded_log _ _ _ _ Hl Hok) as (Hw & Hf & He); [simpl; by rewrite Ha|].
  constructor; try done; [by rewrite Hba|by rewrite (loaded_dummy _ _ _ _ Hl)|by eapply loaded_fresh|].
  rewrite Hcf. eapply restored_voters; [exact Hz| |exact Hre].
  unfold with_capacity in Hp0. apply bind_Done in Hp0 as (? & _ & [= <-]). done.
Qed.
Lemma new_peers_made config ids l npeers npeers' :
  new_peers config ids l npeers = Done npeers' → Forall (λ x, x.1 = None) l →
  (∀ i p, npeers' !! i = Some p → npeers !! i = Some p ∨ (i ∈ l.*2 ∧ new_peer config ids i None = Done p)) ∧
  ∀ i, i ∈ l.*2 ∨ is_Some (npeers !! i) → is_Some (npeers' !! i).
Proof.
  revert npeers. induction l as [|[p0 i0] l IH]; intros npeers E Hl; simpl in E.
  { injection E as <-. split; [by left|]. by intros i [?%elem_of_nil|]. }
  apply Forall_cons in Hl as [H0' Hl]. simpl in H0'. subst p0. apply bind_Done in E as (p1 & E1 & E). destruct (IH _ E Hl) as [I1 I2]. split.
  - intros i p [Hi|[Hi Hp]]%I1; [|right; split; [by right|done]].
    apply lookup_insert_Some in Hi as [[<- <-]|[_ ?]]; [right; split; [by left|done]|by left].
  - intros i Hi. apply I2. rewrite lookup_insert_is_Some. simpl in Hi. destruct (decide (i0 = i)); [right; by left|].
    destruct Hi as [[->|]%elem_of_cons|]; [done|by left|right; by right].
Qed.
Lemma new_network_nodes config n self :
  cfg_batch_append config = false → cfg_applied config = 0 → new_with_config (replicate n None) config = Done self →
  (∀ i p, nw_peers self !! i = Some p → i ≠ 0 ∧ ∃ r, p = mkInterface (Some r) ∧ new_node (network_voters n) i r) ∧
  ((0 < n)%nat → ∃ r, new_node (network_voters n) 1 r).
Proof.
  intros Hb Ha E. unfold new_with_config in E. rewrite length_replicate in E. apply bind_Done in E as (npeers & E & [= <-]). simpl.
  change (N.of_nat <$> seq 1 n) with (node_ids n) in E.
  assert (length (node_ids n) = n) as Hlen by (unfold node_ids; by rewrite length_fmap, length_seq).
  assert (∀ i, i ∈ node_ids n ↔ 1 ≤ i ≤ N.of_nat n) as Hin.
  { intros i. unfold node_ids. rewrite list_elem_of_fmap. setoid_rewrite elem_of_seq. split; [intros (k & -> & ?); lia|].
    intros ?. exists (N.to_nat i). lia. }
  assert (Forall (λ x : option Interface * u64, x.1 = None) (zip (replicate n None) (node_ids n))) as Hnone.
  { apply Forall_forall. intros [p i] Hx%elem_of_zip_l. by apply elem_of_replicate in Hx as [-> _]. }
  destruct (new_peers_made _ _ _ _ _ E Hnone) as [Hm Hd]. rewrite snd_zip in Hm, Hd by (rewrite length_replicate; lia).
  assert (∀ i p, npeers !! i = Some p → i ≠ 0 ∧ ∃ r, p = mkInterface (Some r) ∧ new_node (network_voters n) i r) as Hp.
  { intros i p [Hi|[Hi Hp]]%Hm; [by apply lookup_empty_Some in Hi|]. apply Hin in Hi. split; [lia|].
    eapply new_peer_node; [|exact Hb|exact Ha|exact Hp]. rewrite Hin. lia. }
  split; [exact Hp|]. intros Hn. destruct (Hd 1) as [p Hp1]; [left; apply Hin; lia|].
  destruct (Hp 1 p Hp1) as (_ & r & _ & Hr). by exists r.
Qed.

(** The system at the beginning: the nodes of the network, and a copy of a node for every other id. *)
Definition start_of (peers : gmap u64 Interface) r : system := mkSystem
  (mkCluster (λ i, match peers !! i with Some (mkInterface (Some r)) => r | _ => set_r_id i r end) [] []) (λ _, ([], 0)).
Lemma start_of_tracks conf (self : Network) j r :
  (∀ i p, nw_peers self !! i = Some p → i ≠ 0 ∧ ∃ r, p = mkInterface (Some r) ∧ new_node conf i r) → new_node conf j r →
  starts conf (start_of (nw_peers self) r) ∧ tracks conf (start_of (nw_peers self) r) (start_of (nw_peers self) r) (nw_peers self) [].
Proof.
  intros Hp Hr. set (Σ := start_of _ r).
  assert (∀ i, new_node conf i (s_node Σ i)) as Hn.
  { intros i. unfold s_node. simpl. destruct (nw_peers self !! i) as [p|] eqn:E; [destruct (Hp i p E) as (_ & r' & -> & ?); done|].
    destruct Hr. by constructor. }
  split.
  - constructor; [constructor|..]; try done.
    + intros i. destruct (Hn i). done.
    + intros i. destruct (Hn i). done.
    + intros i. by destruct (Hn i).
    + intros i. by destruct (Hn i).
    + intros i. pose proof (nn_msgs _ _ _ (Hn i)) as Hm. destruct (Hn i). constructor; try done. rewrite Hm. by intros g ?%elem_of_nil.
  - constructor; [done| |by intros g ?%elem_of_nil]. intros i r' E. destruct (Hp i _ E) as (Hi & r2 & [= <-] & Hnn). split_and!; [done| |apply Hnn].
    unfold s_node. simpl. by rewrite E.
Qed.

(** The first network is that of a system that has just started. *)
Lemma network_starts config n (self0 : Network) :
  (0 < n)%nat → N.of_nat n ≤ u64_max → cfg_batch_append config = false → cfg_applied config = 0 →
  new_with_config (replicate n None) config = Done self0 →
  let conf := network_voters n in
  joint_bounded conf ∧ voters (incoming conf) ≠ ∅ ∧ ∃ Σ0, starts conf Σ0 ∧ tracks conf Σ0 Σ0 (nw_peers self0) [].
Proof.
  intros Hn Hb Hba Hap E conf. destruct (network_voters_ok n Hn Hb) as [Hc Hv]. split_and!; [done..|].
  destruct (new_network_nodes _ _ _ Hba Hap E) as [Hp [r Hr]%(λ H, H Hn)].
  exists (start_of (nw_peers self0) r). by eapply start_of_tracks.
Qed.
End start.

(** C7: The test network refines the system that is proved safe. Whatever a test does
    with a network of new nodes - one that does not batch its appends - its nodes are
    those of a [system] that has started with the same voters and has taken its
    steps, and the messages it has collected have been sent there. *)
Theorem network_refines_system `{PbMessage, HashOrder, Rng, ConfChangeCodec, RandomF64} config n (self0 self : Network) known :
  (0 < n)%nat → N.of_nat n ≤ u64_max → cfg_batch_append config = false → cfg_applied config = 0 →
  new_with_config (replicate n None) config = Done self0 → rtc test_step (self0, []) (self, known) →
  ∃ Σ0 Σ, starts (network_voters n) Σ0 ∧ rtc (system_step (network_voters n)) Σ0 Σ ∧
    (∀ i r, nw_peers self !! i = Some (mkInterface (Some r)) → s_node Σ i = r) ∧
    ∀ g, g ∈ known → g ∈ net (s_cluster Σ).
Proof.
  intros Hn Hb Hba Hap E Hs. destruct (network_starts config n self0) as (Hc & Hv & Σ0 & Hst & Ht); [done..|].
  destruct (test_reaches _ Hc Hv _ Hst _ _ Hs _ Ht) as (Σ & R & [_ N K]). exists Σ0, Σ. split_and!; [done|done| |done].
  intros i r Hi. by destruct (N i r Hi) as (_ & ? & _).
Qed.

(** C8: Clusters on the test network agree. In a test of a network of new nodes, which
    may lose any messages and delay and repeat those it collects, whatever is
    committed by a node at some time is what any node commits at that position, at
    that time or later. *)
Theorem network_agrees `{PbMessage, HashOrder, Rng, ConfChangeCodec, RandomF64} config n (self0 self self' : Network) known known' i j r r' k e e' :
  (0 < n)%nat → N.of_nat n ≤ u64_max → cfg_batch_append config = false → cfg_applied config = 0 →
  new_with_config (replicate n None) config = Done self0 → rtc test_step (self0, []) (self, known) → rtc test_step (self, known) (self', known') →
  nw_peers self !! i = Some (mkInterface (Some r)) → nw_peers self' !! j = Some (mkInterface (Some r')) →
  entry_at (r_raft_log r) k = Some e → k ≤ l_committed (r_raft_log r) →
  entry_at (r_raft_log r') k = Some e' → k ≤ l_committed (r_raft_log r') → e = e'.
Proof.
  intros Hn Hb Hba Hap E Hs Hs' Hi Hj He Hk He' Hk'. destruct (network_starts config n self0) as (Hc & Hv & Σ0 & Hst & Ht); [done..|].
  destruct (test_reaches _ Hc Hv _ Hst _ _ Hs _ Ht) as (Σ & R & Ht1). destruct (test_reaches _ Hc Hv _ Hst _ _ Hs' _ Ht1) as (Σ' & R' & Ht2).
  destruct (tr_node _ _ _ _ _ Ht1 i r Hi) as (_ & <- & _). destruct (tr_node _ _ _ _ _ Ht2 j r' Hj) as (_ & <- & _).
  exact (committed_agree _ Hc Hv _ Σ Σ' i j k e e' Hst R R' He Hk He' Hk').
Qed.
