(* ===== verification/NetworkWitness.v ===== *)
(** * A test run

    Three new nodes on the test network: node 1 is told to campaign, wins and commits
    its first entry; node 3 is cut off, a client proposes an entry at node 1, and the
    other two commit it. Everything is computed. *)
From Stdlib Require Import SpecFloat.
From S2P Require Import Prelude Errors Proto Util Quorum Storage MemStorage Unstable ReadOnly Config.
From S2P Require Import Majority Joint Progress Tracker RaftLog RaftLogSpec LogFinal RaftState RaftSend RaftRole RaftStep.
From S2P Require Import RaftCluster RaftSafety RaftWitness.
From S2P Require Interface.
From S2P Require Import Network NetworkSpec NetworkRuns NetworkSafety.
Import Interface (Interface, mkInterface, if_raft).
#[local] Open Scope N_scope.

Section network_witnesses.
#[local] Existing Instances PB HO Low Add4.
(** Every number drawn is one half. *)
#[local] Instance Half : RandomF64 := {| random_f64 _ := S754_finite false 4503599627370496 (-53) |}.
#[local] Instance Half_ok : RandomF64Ok.
Proof. intros n. by vm_compute. Defined.
Implicit Types self : Network.

Definition net_of (o : outcome Network) : Network := match o with Done self => self | _ => mkNetwork ∅ ∅ ∅ 0 end.
Definition made (o : outcome Network) : bool := match o with Done _ => true | _ => false end.
Lemma net_of_made o : made o = true → o = Done (net_of o).
Proof. by destruct o. Defined.

Definition net0 : Network := net_of (new_with_config (replicate 3 None) default_config).
Definition campaign_msg : Message := set_m_to 1 (new_message 0 MsgHup (Some 1)).
Definition propose_msg : Message := set_m_entries [mkEntry EntryNormal 0 0 [Byte.x2a] [] false] (set_m_to 1 (new_message 0 MsgPropose (Some 1))).
Definition net1 : Network := net_of (send 20 [campaign_msg] net0).
Definition net2 : Network := net_of (send 20 [propose_msg] (isolate 3 net1)).
Definition committed_at (i : u64) self : option u64 := p ← nw_peers self !! i; r ← if_raft p; Some (l_committed (r_raft_log r)).

Lemma net0_made : new_with_config (replicate 3 None) default_config = Done net0.
Proof. apply net_of_made. by vm_compute. Defined.
Lemma net1_run : rtc test_step (net0, []) (net1, []).
Proof.
  apply rtc_once, (test_sends 20 [campaign_msg]); [by repeat constructor|by vm_compute|]. apply net_of_made. by vm_compute.
Defined.
Lemma net2_run : rtc test_step (net1, []) (net2, []).
Proof.
  eapply rtc_l; [apply (ts_rules net1 (isolate 3 net1) []); by vm_compute|].
  apply rtc_once, (test_sends 20 [propose_msg]); [by repeat constructor|by vm_compute|]. apply net_of_made. by vm_compute.
Defined.

(** Node [i] of a network. *)
Definition raft_of (i : u64) self : option (Raft MemStorageCore) := p ← nw_peers self !! i; if_raft p.
Lemma raft_of_peer i self r : raft_of i self = Some r → nw_peers self !! i = Some (mkInterface (Some r)).
Proof. unfold raft_of. destruct (nw_peers self !! i) as [[[r0|]]|]; simpl; [by intros [= ->]|done..]. Defined.
Lemma raft_of_there i self : bool_decide (is_Some (raft_of i self)) = true → ∃ r, raft_of i self = Some r.
Proof. by intros ?%bool_decide_eq_true. Defined.
Lemma raft_of_sees {A} (f : Raft MemStorageCore → A) i self r a : raft_of i self = Some r → f <$> raft_of i self = Some a → f r = a.
Proof. intros ->. by intros [= ->]. Defined.

Definition no_op : Entry := mkEntry EntryNormal 1 1 [] [] false.
Lemma network_agrees_witness : ∃ r r', raft_of 1 net1 = Some r ∧ raft_of 2 net2 = Some r' ∧
  l_committed (r_raft_log r) = 1 ∧ l_committed (r_raft_log r') = 2 ∧ entry_at (r_raft_log r) 1 = Some no_op ∧
  ∀ e', entry_at (r_raft_log r') 1 = Some e' → no_op = e'.
Proof.
  destruct (raft_of_there 1 net1) as [r Hr]; [by vm_compute|]. destruct (raft_of_there 2 net2) as [r' Hr']; [by vm_compute|].
  assert (l_committed (r_raft_log r) = 1) as Hc by (apply (raft_of_sees (λ r, l_committed (r_raft_log r)) 1 net1 r 1 Hr); by vm_compute).
  assert (l_committed (r_raft_log r') = 2) as Hc' by (apply (raft_of_sees (λ r, l_committed (r_raft_log r)) 2 net2 r' 2 Hr'); by vm_compute).
  assert (entry_at (r_raft_log r) 1 = Some no_op) as He by (apply (raft_of_sees (λ r, entry_at (r_raft_log r) 1) 1 net1 r (Some no_op) Hr); by vm_compute).
  exists r, r'. split_and!; [done..|]. intros e' He'.
  apply (network_agrees default_config 3 net0 net1 net2 [] [] 1 2 r r' 1 no_op e'); [lia|done|done|done|exact net0_made|exact net1_run|exact net2_run|
    by apply raft_of_peer|by apply raft_of_peer|exact He|by rewrite Hc|exact He'|by rewrite Hc'].
Defined.
Lemma network_refines_system_witness : ∃ Σ0 Σ, starts (network_voters 3) Σ0 ∧ rtc (system_step (network_voters 3)) Σ0 Σ ∧
  r_state (s_node Σ 1) = Leader ∧ l_committed (s_log Σ 1) = 2.
Proof.
  destruct (network_refines_system default_config 3 net0 net2 []) as (Σ0 & Σ & Hst & Hs & Hn & _);
    [lia|done|done|done|exact net0_made|exact (transitivity net1_run net2_run)|].
  destruct (raft_of_there 1 net2) as [r Hr]; [by vm_compute|]. exists Σ0, Σ. unfold s_log. rewrite (Hn 1 r (raft_of_peer _ _ _ Hr)). split_and!; [done|done|..].
  - apply (raft_of_sees r_state 1 net2 r Leader Hr). by vm_compute.
  - apply (raft_of_sees (λ r, l_committed (r_raft_log r)) 1 net2 r 2 Hr). by vm_compute.
Defined.

(** Messages between nodes 1 and 2, and from node 3. *)
Definition beat (i j : u64) : Message := set_m_from i (new_message j MsgHeartbeat None).
Lemma filter_spec_witness :
  (∃ n, filter [beat 1 2; beat 3 2; beat 2 1] (cut 3 2 net0) = Done (set_nw_draws n (cut 3 2 net0), [beat 1 2; beat 2 1])) ∧
  ∃ p, filter [beat 1 2; campaign_msg] (cut 3 2 net0) = Panic p.
Proof.
  split.
  - apply (filter_spec (cut 3 2 net0) [beat 1 2; beat 3 2; beat 2 1]). intros m Hm. repeat (apply elem_of_cons in Hm as [->|Hm]); [by left; vm_compute|by right; vm_compute|by left; vm_compute|by apply elem_of_nil in Hm].
  - apply (filter_spec (cut 3 2 net0) [beat 1 2; campaign_msg]). intros m Hm. left. repeat (apply elem_of_cons in Hm as [->|Hm]); [by vm_compute..|by apply elem_of_nil in Hm].
Defined.
Lemma isolate_spec_witness :
  ∃ n, filter [beat 1 2; beat 3 2; beat 1 3; beat 2 1] (isolate 3 (recover net0)) =
    Done (set_nw_draws n (isolate 3 (recover net0)), [beat 1 2; beat 2 1]).
Proof.
  pose proof (isolate_spec net0 3 [beat 1 2; beat 3 2; beat 1 3; beat 2 1]) as Hs. cbv zeta in Hs. destruct Hs as [(n & ->) _].
  - intros m Hm. repeat (apply elem_of_cons in Hm as [->|Hm]); [done..|by apply elem_of_nil in Hm].
  - exists n. by do 2 f_equal.
Defined.
End network_witnesses.
