(* ===== verification/DataDriven.v ===== *)
(** * The data-driven tests ([datadriven/src])

    A test file is a sequence of directives: a command line, its input, a separator
    and the output that is expected. [run_test_internal] runs a function on each,
    and either compares its outputs (an [assert_eq!]) or rewrites the file with them.
    The two regular expressions, which the [regex] crate interprets, are parameters;
    errors of the [anyhow] crate are their messages. *)
From S2P Require Import Prelude Errors Proto ConfText.
#[local] Open Scope N_scope.

(** [RE.captures(line)], up to the text that is matched, and
    [BLANK_LINE_RE.captures(str).is_some()]. *)
Class Regexes := {
  directive_re : str → option str;
  blank_line_re : str → bool }.

(** [str::lines] *)
Definition strip_cr (l : str) : str :=
  match last l with Some 13 => removelast l | _ => l end.
Fixpoint lines_from (line : str) (s : str) : list str :=
  match s with
  | [] => if bool_decide (line = []) then [] else [line]
  | c :: s => if c =? 10 then strip_cr line :: lines_from [] s else lines_from (line ++ [c]) s
  end.
Definition lines (s : str) : list str := lines_from [] s.
Definition starts_with (c : N) (s : str) : bool := bool_decide (head s = Some c).
Definition ends_with (c : N) (s : str) : bool := bool_decide (last s = Some c).

(** ** [test_data.rs] *)

Record CmdArg := mkCmdArg { ca_key : str; ca_vals : list str }.
Fixpoint join (sep : str) (l : list str) : str :=
  match l with
  | [] => []
  | [s] => s
  | s :: l => s ++ sep ++ join sep l
  end.
(** [impl Display for CmdArg] *)
Definition show_arg (a : CmdArg) : str :=
  match ca_vals a with
  | [] => ca_key a
  | [v] => ca_key a ++ lit "=" ++ v
  | vals => ca_key a ++ lit "=(" ++ join (lit ",") vals ++ lit ")"
  end.
Record TestData := mkTestData { td_pos : str; td_cmd : str; td_cmd_args : list CmdArg; td_input : str; td_expected : str }.
Definition TestData_default : TestData := mkTestData [] [] [] [] [].
Definition contains_key (k : str) (self : TestData) : bool := existsb (λ a, bool_decide (ca_key a = k)) (td_cmd_args self).

(** ** [line_sparser.rs] *)
Section with_regexes.
Context `{Regexes}.

(** The loop takes a non-empty match off the line; [fuel] bounds its rounds. *)
Fixpoint split_loop (fuel : nat) (origin_line line : str) : outcome (list str + str) :=
  match fuel, line with
  | _, [] => Done (inl [])
  | O, _ => NoFuel
  | S fuel, _ =>
      match directive_re line with
      | Some first =>
          res ← split_loop fuel origin_line (drop (length first) line);
          Done (match res with inl l => inl (trim (take (length first) line) :: l) | inr e => inr e end)
      | None =>
          n ← str_len origin_line -! str_len line; column ← n +! 1;
          Done (inr (lit "cannot parse directive at column " ++ show_u64 column ++ lit ": " ++ origin_line))
      end
  end.
Definition split_directives (line : str) : outcome (list str + str) := split_loop (length line) line line.

(** [arg.splitn(2, '=')] *)
Fixpoint split_once (c : N) (s : str) : str * option str :=
  match s with
  | [] => ([], None)
  | d :: s => if d =? c then ([], Some s) else let '(k, v) := split_once c s in (d :: k, v)
  end.
(** [val.split(c)] *)
Fixpoint split_on (c : N) (word : str) (s : str) : list str :=
  match s with
  | [] => [word]
  | d :: s => if d =? c then word :: split_on c [] s else split_on c (word ++ [d]) s
  end.
(** The loop over the arguments of [parse_line]. *)
Definition parse_arg (arg : str) : CmdArg :=
  match split_once 61 arg with
  | (key, None) => mkCmdArg key []
  | (key, Some val) =>
      if starts_with 40 val && ends_with 41 val
      then mkCmdArg key (trim <$> split_on 44 [] (removelast (tail val)))
      else mkCmdArg key [val]
  end.
Definition parse_line (line : str) : outcome ((str * list CmdArg) + str) :=
  fields ← split_directives line;
  Done (match fields with
        | inr e => inr e
        | inl [] => inl ([], [])
        | inl (cmd :: args) => inl (cmd, parse_arg <$> args)
        end).

(** ** [test_data_reader.rs] *)

(** [Enumerate<Lines>]: the number of the next line, and the lines that are left. *)
Definition Scanner : Type := N * list str.
(** [struct TestDataReader] *)
Record TestDataReader := mkTestDataReader {
  tr_source_name : str;
  tr_data : TestData;
  tr_scanner : Scanner;
  tr_rewrite_buffer : option str }.
Definition new (source_name content : str) (rewrite : bool) : TestDataReader :=
  mkTestDataReader source_name TestData_default (0, lines content) (if rewrite then Some [] else None).
(** [emit], on the buffer. *)
Definition emit (s : str) (rb : option str) : option str := (λ rb, rb ++ s ++ [10]) <$> rb.

(** The loops of [next]: up to the next directive line, ... *)
Fixpoint find_directive (n : N) (ls : list str) (rb : option str) : option (N * str * Scanner) * option str :=
  match ls with
  | [] => (None, rb)
  | l :: ls =>
      let rb := emit l rb in
      let line := trim l in
      if starts_with 35 line || bool_decide (line = []) then find_directive (n + 1) ls rb
      else (Some (n, line, (n + 1, ls)), rb)
  end.
(** ... the lines that continue it, ... *)
Fixpoint unwrap_line (pos : N) (line : str) (n : N) (ls : list str) (rb : option str)
    : outcome (N * str * Scanner * option str) :=
  if ends_with 92 line then
    match ls with
    | [] => Panic Unwrap
    | l :: ls =>
        let rb := emit l rb in
        let next_line := trim l in
        let line := removelast line in
        let line := if bool_decide (next_line = []) then line else line ++ [32] ++ next_line in
        pos ← pos +! 1;
        unwrap_line pos line (n + 1) ls rb
    end
  else Done (pos, line, (n, ls), rb).
(** ... and the input; the flag tells whether it ends with a separator. *)
Fixpoint read_input (n : N) (ls : list str) (rb : option str) (buf : str) : str * bool * Scanner * option str :=
  match ls with
  | [] => (buf, false, (n, []), rb)
  | l :: ls =>
      if bool_decide (l = lit "----") then (buf, true, (n + 1, ls), rb)
      else read_input (n + 1) ls (emit l rb) (buf ++ l ++ [10])
  end.

(** The loops of [read_expected]: up to a double separator, or up to a blank line. *)
Fixpoint read_double (n : N) (ls : list str) (expected : str) : outcome (str * Scanner) :=
  match ls with
  | [] => Panic Unwrap
  | l :: ls =>
      if bool_decide (l = lit "----") then
        match ls with
        | [] => Panic Unwrap
        | l2 :: ls =>
            if bool_decide (l2 = lit "----") then
              match ls with
              | l3 :: ls => _ ← assert (bool_decide (l3 = [])); Done (expected, (n + 3, ls))
              | [] => Done (expected, (n + 2, []))
              end
            else read_double (n + 2) ls (expected ++ l ++ [10] ++ l2 ++ [10])
        end
      else read_double (n + 1) ls (expected ++ l ++ [10])
  end.
Fixpoint read_single (line : str) (n : N) (ls : list str) (expected : str) : str * Scanner :=
  if bool_decide (trim line = []) then (expected, (n, ls))
  else
    let expected := expected ++ line ++ [10] in
    match ls with
    | [] => (expected, (n, []))
    | l :: ls => read_single l (n + 1) ls expected
    end.
Definition read_expected (sc : Scanner) : outcome (str * Scanner) :=
  let '(n, ls) := sc in
  match ls with
  | [] => Done (read_single [] n [] [])
  | l :: ls =>
      if bool_decide (l = lit "----") then read_double (n + 1) ls []
      else Done (read_single l (n + 1) ls [])
  end.

(** [TestDataReader::next] *)
Definition next (self : TestDataReader) : outcome (TestDataReader * (bool + str)) :=
  let '(n, ls) := tr_scanner self in
  let '(found, rb) := find_directive n ls (tr_rewrite_buffer self) in
  match found with
  | None => Done (mkTestDataReader (tr_source_name self) (tr_data self) (n + N.of_nat (length ls), []) rb, inl false)
  | Some (pos, line, (n, ls)) =>
      '(pos, line, (n, ls), rb) ← unwrap_line pos line n ls rb;
      pos ← pos +! 1;
      let pos := tr_source_name self ++ lit " : L" ++ show_u64 pos in
      parsed ← parse_line line;
      let fails e := Done (mkTestDataReader (tr_source_name self) (mkTestData pos [] [] [] []) (n, ls) rb, inr e) in
      match parsed with
      | inr e => fails e
      | inl (cmd, cmd_args) =>
          if bool_decide (cmd = []) then fails (lit "cmd must not be empty")
          else
            let '(buf, separator, sc, rb) := read_input n ls rb [] in
            '(expected, sc) ← (if separator : bool then read_expected sc else Done ([], sc));
            Done (mkTestDataReader (tr_source_name self) (mkTestData pos cmd cmd_args (trim buf) expected) sc rb, inl true)
      end
  end.

(** ** [datadriven.rs] *)
Definition has_blank_line (s : str) : bool := blank_line_re s.

Section run.
(** The function under test, with the state it captures ([FnMut]). *)
Context {F : Type} (f : F → TestData → F * str).

(** [if !actual.is_empty() && !actual.ends_with('\n')] *)
Definition terminated (actual : str) : str :=
  if negb (bool_decide (actual = [])) && negb (ends_with 10 actual) then actual ++ [10] else actual.
Definition run_directive (st : F) (r : TestDataReader) : outcome (F * TestDataReader) :=
  let '(st, actual) := f st (tr_data r) in
  let actual := terminated actual in
  match tr_rewrite_buffer r with
  | None => _ ← assert (bool_decide (actual = td_expected (tr_data r))); Done (st, r)
  | Some _ =>
      let rb := emit (lit "----") (tr_rewrite_buffer r) in
      let rb :=
        if has_blank_line actual then
          let rb := (λ rb, rb ++ actual) <$> emit (lit "----") rb in
          emit [] (emit (lit "----") (emit (lit "----") rb))
        else emit actual rb in
      Done (st, mkTestDataReader (tr_source_name r) (tr_data r) (tr_scanner r) rb)
  end.
(** The loop of [run_test_internal]; every round reads a line at least. *)
Fixpoint run_loop (fuel : nat) (st : F) (r : TestDataReader) : outcome (TestDataReader * option str) :=
  match fuel with
  | O => NoFuel
  | S fuel =>
      '(r, res) ← next r;
      match res with
      | inr e => Done (r, Some e)
      | inl false => Done (r, None)
      | inl true => '(st, r) ← run_directive st r; run_loop fuel st r
      end
  end.
Definition run_test_internal (source_name content : str) (st : F) (rewrite : bool) : outcome (option str + str) :=
  let r := new source_name content rewrite in
  '(r, err) ← run_loop (S (length (lines content))) st r;
  Done (match err with
        | Some e => inr e
        | None => inl ((λ rb, if ends_with 10 rb && ends_with 10 (removelast rb) then removelast rb else rb) <$> tr_rewrite_buffer r)
        end).
End run.
End with_regexes.
