(* ===== verification/DataDrivenSpec.v ===== *)
(** * Rewriting a file of data-driven tests

    A file that [run_test_internal] rewrites passes when it is run again: what the
    reader emits of a directive, followed by the output as [run_directive] writes it,
    is read back as the same directive with that output as the expected one. *)
From S2P Require Import Prelude Errors Proto ConfText DataDriven.
#[local] Open Scope N_scope.

(** ** Lines *)
Definition unlines (ls : list str) : str := concat (map (λ l, l ++ [10]) ls).
#[local] Arguments unlines : simpl never.
#[local] Arguments emit : simpl never.
#[local] Arguments show_u64 : simpl never.
#[local] Arguments lit : simpl never.
Definition plain_line (l : str) : Prop := (10 ∉ l) ∧ (13 ∉ l).
Definition separator : str := lit "----".

Lemma unlines_app ls ls' : unlines (ls ++ ls') = unlines ls ++ unlines ls'.
Proof. unfold unlines. by rewrite map_app, concat_app. Qed.
Lemma unlines_cons l ls : unlines (l :: ls) = l ++ 10 :: unlines ls.
Proof. unfold unlines. cbn. by rewrite <-(assoc_L app). Qed.
Lemma length_unlines ls : (length ls ≤ length (unlines ls))%nat.
Proof. induction ls as [|l ls IH]; [done|]. rewrite unlines_cons, length_app. cbn. lia. Qed.

Lemma strip_cr_plain l : 13 ∉ l → strip_cr l = l.
Proof.
  intros Hl. unfold strip_cr. destruct (last l) as [c|] eqn:E; [|done].
  apply last_Some in E as [l' ->]. destruct (decide (c = 13)) as [->|Hc].
  - exfalso. apply Hl. set_solver.
  - destruct c as [|p]; [done|]. do 4 (destruct p as [p|p|]; try done).
Qed.
Lemma lines_from_line w l s : plain_line w → plain_line l → lines_from w (l ++ 10 :: s) = (w ++ l) :: lines_from [] s.
Proof.
  revert w. induction l as [|c l IH]; intros w [Hw Hw'] [Hl Hl']; cbn.
  - rewrite app_nil_r, strip_cr_plain; done.
  - rewrite (proj2 (N.eqb_neq c 10)) by set_solver. rewrite IH, <-(assoc_L app); [done| |]; split; set_solver.
Qed.
Lemma lines_unlines ls : Forall plain_line ls → lines (unlines ls) = ls.
Proof.
  unfold lines. induction 1 as [|l ls Hl _ IH]; [done|]. rewrite unlines_cons, lines_from_line by (done || split; set_solver).
  cbn. by rewrite IH.
Qed.
Lemma lines_from_plain w s : plain_line w → 13 ∉ s → Forall plain_line (lines_from w s).
Proof.
  revert w. induction s as [|c s IH]; intros w [Hw Hw'] Hs; cbn.
  - case_bool_decide; repeat constructor; done.
  - destruct (c =? 10) eqn:Ec.
    + rewrite strip_cr_plain by done. constructor; [done|]. apply IH; [split|]; set_solver.
    + apply N.eqb_neq in Ec. apply IH; [split|]; set_solver.
Qed.
Lemma lines_plain s : 13 ∉ s → Forall plain_line (lines s).
Proof. apply lines_from_plain. split; set_solver. Qed.
Lemma unlines_lines_from w s :
  plain_line w → 13 ∉ s → last (w ++ s) = Some 10 ∨ w ++ s = [] → unlines (lines_from w s) = w ++ s.
Proof.
  revert w. induction s as [|c s IH]; intros w [Hw Hw'] Hs He; cbn.
  - rewrite app_nil_r in *. case_bool_decide as Hn; [by subst|]. destruct He as [He|]; [|done].
    exfalso. apply Hw. apply last_Some in He as [? ->]. set_solver.
  - destruct (c =? 10) eqn:Ec.
    + apply N.eqb_eq in Ec as ->. rewrite strip_cr_plain, unlines_cons by done.
      rewrite IH; [done|split; set_solver|set_solver|]. destruct s as [|d s]; [by right|left].
      destruct He as [He|He]; [|by destruct w]. rewrite last_app in He. cbn [app]. change (last (10 :: d :: s)) with (last (d :: s)) in He.
      by destruct (last (d :: s)) eqn:El; [|apply last_None in El].
    + apply N.eqb_neq in Ec. rewrite IH; [by rewrite <-(assoc_L app)|split; set_solver|set_solver|].
      by rewrite <-(assoc_L app).
Qed.
Lemma unlines_lines s : 13 ∉ s → last s = Some 10 ∨ s = [] → unlines (lines s) = s.
Proof. intros. apply unlines_lines_from; [split; set_solver|done|done]. Qed.

(** ** What is known of the expressions *)
Definition tab_or_space (c : N) : Prop := c = 9 ∨ c = 32.
Class RegexesOk `{Regexes} : Prop := {
  directive_ok l first : directive_re l = Some first → first ≠ [] ∧ first `prefix_of` l;
  blank_line_ok s : blank_line_re s = true ↔
    ∃ p l q, s = p ++ l ++ 10 :: q ∧ (p = [] ∨ last p = Some 10) ∧ Forall tab_or_space l }.

Section spec.
Context `{RegexesOk}.

Lemma split_at_newline x s p t : 10 ∉ x → x ++ 10 :: s = p ++ 10 :: t →
  (p = x ∧ s = t) ∨ ∃ p', p = x ++ 10 :: p' ∧ s = p' ++ 10 :: t.
Proof.
  intros Hx E. apply app_eq_app in E as (k & [[-> E]|[-> E]]); destruct k as [|d k]; cbn in E; simplify_eq.
  - left. by rewrite app_nil_r.
  - exfalso. apply Hx. set_solver.
  - left. by rewrite app_nil_r.
  - right. by exists k.
Qed.
Lemma blank_line_unlines ls : Forall plain_line ls →
  blank_line_re (unlines ls) = true ↔ ∃ l, l ∈ ls ∧ Forall tab_or_space l.
Proof.
  intros Hls. rewrite blank_line_ok. split.
  - intros (p & l & q & E & Hp & Hl). assert (10 ∉ l) as Hn.
    { rewrite Forall_forall in Hl. intros Hi. destruct (Hl _ Hi); lia. }
    revert p E Hp. induction Hls as [|x ls [Hx _] _ IH]; intros p E Hp; [by destruct p, l|].
    rewrite unlines_cons in E. destruct Hp as [->|Hp].
    + exists x. split; [left|]. cbn in E. apply split_at_newline in E as [[-> _]|(p' & -> & _)]; set_solver.
    + cut (∃ l, l ∈ ls ∧ Forall tab_or_space l); [intros (y & ? & ?); exists y; split; [by right|done]|]. apply last_Some in Hp as [p' ->]. rewrite <-(assoc_L app) in E.
      apply split_at_newline in E as [[-> E]|(p'' & -> & E)]; [| |done].
      * by eapply (IH []); [|left].
      * apply (IH (p'' ++ [10])); [by rewrite <-(assoc_L app)|right; by rewrite last_snoc].
  - intros (l & Hi & Hl). apply list_elem_of_split in Hi as (l1 & l2 & ->).
    exists (unlines l1), l, (unlines l2). rewrite unlines_app, unlines_cons. split; [done|split; [|done]].
    destruct l1 as [|x l1 _] using rev_ind; [by left|right]. rewrite unlines_app, unlines_cons. cbn.
    by rewrite last_app, last_app.
Qed.

(** ** Reading again what was emitted

    [again] lemmas: in rewrite mode a loop of the reader takes the lines [hd] and emits
    them; without a buffer it does the same on [hd] in front of any other lines. *)
Lemma len_after m (l : str) hd : m + len (l :: hd) = m + 1 + len hd.
Proof. unfold len. cbn. lia. Qed.
Lemma emit_None l : emit l None = None.
Proof. done. Qed.
Lemma emit_nothing b : Some b = Some (b ++ unlines []).
Proof. by rewrite app_nil_r. Qed.
Lemma emit_one l b : emit l (Some b) = Some (b ++ unlines [l]).
Proof. unfold unlines. cbn. by rewrite app_nil_r. Qed.
Lemma emit_unlines l b ls : (b ++ l ++ [10]) ++ unlines ls = b ++ unlines (l :: ls).
Proof. by rewrite unlines_cons, <-!(assoc_L app). Qed.

Definition skipped (l : str) : bool := starts_with 35 (trim l) || bool_decide (trim l = []).
Lemma find_directive_nothing n ls rb : fst (find_directive n ls rb) = None ↔ Forall (λ l, skipped l = true) ls.
Proof.
  revert n rb. induction ls as [|l ls IH]; intros n rb; cbn; [done|].
  fold (skipped l). rewrite Forall_cons. destruct (skipped l); [rewrite IH; naive_solver|]. cbn. naive_solver.
Qed.
Lemma find_directive_silent n ls : (find_directive n ls None).2 = None.
Proof. revert n. induction ls as [|l ls IH]; intros n; cbn; [done|]. case_match; [apply IH|done]. Qed.
Lemma find_directive_emits n ls b rb : find_directive n ls (Some b) = (None, rb) → rb = Some (b ++ unlines ls).
Proof.
  revert n b. induction ls as [|l ls IH]; intros n b; cbn; [intros; simplify_eq; by rewrite app_nil_r|].
  fold (skipped l). destruct (skipped l); [|done]. intros ->%IH. by rewrite emit_unlines.
Qed.
Lemma find_directive_again n ls b pos line n' rest rb :
  find_directive n ls (Some b) = (Some (pos, line, (n', rest)), rb) →
  ∃ hd, hd ≠ [] ∧ ls = hd ++ rest ∧ rb = Some (b ++ unlines hd) ∧
    ∀ m tl, ∃ q, find_directive m (hd ++ tl) None = (Some (q, line, (m + len hd, tl)), None) ∧ q < m + len hd.
Proof.
  revert n b. induction ls as [|l ls IH]; intros n b; cbn; [done|]. fold (skipped l).
  destruct (skipped l) eqn:El.
  - intros (hd & _ & -> & -> & Hm)%IH. exists (l :: hd). split_and!; [done|done| |].
    { by rewrite emit_unlines. }
    intros m tl. destruct (Hm (m + 1) tl) as (q & Hq & ?). exists q. cbn. fold (skipped l).
    by rewrite El, emit_None, Hq, len_after.
  - intros ?; simplify_eq. exists [l]. split_and!; [done|done|apply emit_one|]. intros m tl. exists m. cbn.
    fold (skipped l). rewrite El. split; [done|]. unfold len; cbn. lia.
Qed.

Lemma unwrap_line_again pos line n ls b pos' line' n' rest rb :
  unwrap_line pos line n ls (Some b) = Done (pos', line', (n', rest), rb) →
  ∃ hd, ls = hd ++ rest ∧ rb = Some (b ++ unlines hd) ∧
    ∀ q m tl, q + len hd ≤ u64_max → unwrap_line q line m (hd ++ tl) None = Done (q + len hd, line', (m + len hd, tl), None).
Proof.
  revert pos line n b. induction ls as [|l ls IH]; intros pos line n b; cbn; destruct (ends_with 92 line) eqn:El; intros Hu.
  - done.
  - simplify_eq. exists []. split_and!; [done|apply emit_nothing|]. intros q m tl _. unfold len.
    destruct tl; cbn; rewrite El, !N.add_0_r; done.
  - inv_done. apply IH in Hu as (hd & -> & -> & Hm). exists (l :: hd). split_and!; [done| |].
    { by rewrite emit_unlines. }
    intros q m tl. rewrite !len_after. intros Hq. cbn. rewrite El, add64_ok by lia. cbn. rewrite Hm by lia. done.
  - simplify_eq. exists []. split_and!; [done|apply emit_nothing|]. intros q m tl _. unfold len.
    destruct tl; cbn; rewrite El, !N.add_0_r; done.
Qed.

Lemma read_input_again n ls b buf buf' sep n' rest rb :
  read_input n ls (Some b) buf = (buf', sep, (n', rest), rb) →
  ∃ hd, ls = hd ++ (if sep then separator :: rest else rest) ∧ rb = Some (b ++ unlines hd) ∧
    ∀ m tl, ∃ m', read_input m (hd ++ separator :: tl) None buf = (buf', true, (m', tl), None) ∧ m' = m + len hd + 1.
Proof.
  revert n b buf. induction ls as [|l ls IH]; intros n b buf; cbn [read_input].
  - intros; simplify_eq. exists []. split_and!; [done|apply emit_nothing|]. intros m tl. exists (m + 1).
    cbn. split; [done|]. unfold len; cbn; lia.
  - case_bool_decide as Hl.
    + intros; simplify_eq. exists []. split_and!; [done|apply emit_nothing|]. intros m tl. exists (m + 1).
      cbn. split; [done|]. unfold len; cbn; lia.
    + intros (hd & -> & -> & Hm)%IH. exists (l :: hd). split_and!; [done| |].
      { by rewrite emit_unlines. }
      intros m tl. destruct (Hm (m + 1) tl) as (m' & Hm' & ->). eexists. cbn [read_input app].
      rewrite bool_decide_eq_false_2 by done. rewrite emit_None, Hm'. split; [done|]. unfold len; cbn; lia.
Qed.

(** The lines [run_directive] writes for an output of the lines [out], up to the blank
    line at their end, which [run_test_internal] removes from the end of a file. *)
Definition shown (out : list str) : list str :=
  if has_blank_line (unlines out) then separator :: out ++ [separator; separator] else out.
(** The output's lines the format can hold. *)
Definition writable_line (l : str) : Prop :=
  plain_line l ∧ l ≠ separator ∧ (trim l = [] → Forall tab_or_space l).
(** The blank line, and what comes after it. *)
Definition blank_line_next (t : list str) : Prop := t = [] ∨ head t = Some [].

Lemma read_single_stops n ls e : read_single [] n ls e = (e, (n, ls)).
Proof. by destruct ls. Qed.
Lemma read_single_again l n out t e :
  Forall (λ l, trim l ≠ []) (l :: out) → blank_line_next t →
  ∃ n', read_single l n (out ++ t) e = (e ++ unlines (l :: out), (n', tail t)).
Proof.
  intros Hout Ht. revert l n e Hout. induction out as [|l' out IH]; intros l n e [Hl Hout]%Forall_cons.
  - assert (unlines [l] = l ++ [10]) as -> by (unfold unlines; cbn; by rewrite app_nil_r).
    destruct Ht as [->|Ht]; [|destruct t as [|? t]; cbn in Ht; simplify_eq]; cbn;
      rewrite (bool_decide_eq_false_2 _ Hl); [by eexists|]. rewrite read_single_stops. by eexists.
  - destruct (IH l' (n + 1) (e ++ l ++ [10]) Hout) as [n' Hn]. exists n'. cbn.
    rewrite (bool_decide_eq_false_2 _ Hl). by rewrite Hn, emit_unlines.
Qed.
Lemma read_double_again n out t e :
  Forall (λ l, l ≠ separator) out → blank_line_next t →
  ∃ n', read_double n (out ++ separator :: separator :: t) e = Done (e ++ unlines out, (n', tail t)).
Proof.
  intros Hout Ht. revert n e. induction Hout as [|l out Hl _ IH]; intros n e.
  - cbn. rewrite app_nil_r. destruct Ht as [->|Ht]; [|destruct t as [|? t]; cbn in Ht; simplify_eq]; by eexists.
  - destruct (IH (n + 1) (e ++ l ++ [10])) as [n' Hn]. exists n'. cbn [app read_double].
    rewrite bool_decide_eq_false_2 by done. by rewrite Hn, emit_unlines.
Qed.
Lemma read_expected_again n out t :
  Forall writable_line out → blank_line_next t →
  ∃ n', read_expected (n, shown out ++ t) = Done (unlines out, (n', tail t)).
Proof.
  intros Hout Ht. unfold shown. destruct (has_blank_line (unlines out)) eqn:Eb.
  - cbn [read_expected app]. rewrite bool_decide_eq_true_2 by done. rewrite <-(assoc_L app).
    destruct (read_double_again (n + 1) out t [] ) as [n' Hn]; [|done|by exists n'].
    eapply Forall_impl; [done|]. by intros l (_ & ? & _).
  - assert (Forall (λ l, trim l ≠ []) out) as Hn.
    { rewrite Forall_forall in Hout |- *. intros l Hi Hl. destruct (Hout _ Hi) as (_ & _ & Hb).
      enough (has_blank_line (unlines out) = true) by congruence. apply blank_line_unlines; [|eauto].
      rewrite Forall_forall. intros ? Hi'. apply (Hout _ Hi'). }
    destruct out as [|l out].
    + destruct Ht as [->|Ht]; [|destruct t as [|? t]; cbn in Ht; simplify_eq]; [by eexists|].
      cbn. rewrite read_single_stops. by eexists.
    + cbn [read_expected app]. rewrite bool_decide_eq_false_2 by (by inv Hout as [|?? (_ & ? & _)]).
      destruct (read_single_again l (n + 1) out t [] Hn Ht) as [n' ->]. by eexists.
Qed.

(** *** The reader moves on *)
Definition later (sc sc' : Scanner) : Prop := ∃ hd, sc.2 = hd ++ sc'.2 ∧ sc'.1 = sc.1 + len hd.
Lemma later_refl sc : later sc sc.
Proof. exists []. split; [done|]. unfold len. cbn. lia. Qed.
Lemma later_trans sc1 sc2 sc3 : later sc1 sc2 → later sc2 sc3 → later sc1 sc3.
Proof.
  intros (hd1 & E1 & N1) (hd2 & E2 & N2). exists (hd1 ++ hd2). rewrite E1, E2, N2, N1, (assoc_L app).
  split; [done|]. unfold len. rewrite length_app. lia.
Qed.
Lemma later_skip n l ls sc : later (n + 1, ls) sc → later (n, l :: ls) sc.
Proof. intros (hd & E & N). exists (l :: hd). cbn in *. rewrite E, N, len_after. done. Qed.
Lemma later_count sc sc' : later sc sc' → sc.1 ≤ sc'.1 ∧ sc'.1 + len sc'.2 = sc.1 + len sc.2.
Proof. intros (hd & -> & ->). unfold len. rewrite length_app. lia. Qed.
Lemma later_lines P sc sc' : later sc sc' → Forall P sc.2 → Forall P sc'.2.
Proof. intros (hd & -> & _). by intros [_ ?]%Forall_app. Qed.
Lemma later_next n l ls : later (n, l :: ls) (n + 1, ls).
Proof. apply later_skip, later_refl. Qed.
#[local] Hint Resolve later_refl later_skip later_next : core.

Lemma find_directive_later n ls rb pos line sc rb' :
  find_directive n ls rb = (Some (pos, line, sc), rb') → later (n, ls) sc ∧ n < sc.1.
Proof.
  revert n rb. induction ls as [|l ls IH]; intros n rb; cbn [find_directive]; [done|]. case_match.
  - intros [Hl ?]%IH. split; [auto|lia].
  - intros ?; simplify_eq. split; [auto|cbn; lia].
Qed.
Lemma unwrap_line_later pos line n ls rb pos' line' sc rb' :
  unwrap_line pos line n ls rb = Done (pos', line', sc, rb') → later (n, ls) sc.
Proof.
  revert pos line n rb. induction ls as [|l ls IH]; intros pos line n rb; cbn [unwrap_line]; case_match; intros Hu;
    inv_done; simplify_eq; auto. by apply later_skip, (IH _ _ _ _ Hu).
Qed.
Lemma read_input_later n ls rb buf buf' sep sc rb' :
  read_input n ls rb buf = (buf', sep, sc, rb') → later (n, ls) sc.
Proof.
  revert n rb buf. induction ls as [|l ls IH]; intros n rb buf; cbn [read_input]; [intros; by simplify_eq|].
  case_bool_decide; [intros; simplify_eq|intros ?%IH]; auto.
Qed.
Lemma read_double_later n ls e e' sc : read_double n ls e = Done (e', sc) → later (n, ls) sc.
Proof.
  revert n e. induction ls as [ls IH] using (induction_ltof1 _ (@length str)). unfold ltof in IH. intros n e.
  destruct ls as [|l ls]; cbn [read_double]; [done|]. case_bool_decide.
  - destruct ls as [|l2 ls]; [done|]. case_bool_decide.
    + destruct ls as [|l3 ls]; intros; inv_done; simplify_eq; [by replace (n + 2) with (n + 1 + 1) by lia; auto|].
      replace (n + 3) with (n + 1 + 1 + 1) by lia. auto.
    + intros Hr%IH; [|cbn; lia]. apply later_skip, later_skip. by replace (n + 1 + 1) with (n + 2) by lia.
  - intros Hr%IH; [auto|cbn; lia].
Qed.
Lemma read_single_later l n ls e : later (n, ls) (read_single l n ls e).2.
Proof. revert l n e. induction ls as [|l' ls IH]; intros l n e; cbn; case_bool_decide; cbn; auto. Qed.
Lemma read_expected_later sc e sc' : read_expected sc = Done (e, sc') → later sc sc'.
Proof.
  destruct sc as [n [|l ls]]; cbn [read_expected]; [by intros [= <- <-]|]. case_bool_decide.
  - intros ?%read_double_later. auto.
  - intros [= Hr]. pose proof (read_single_later l (n + 1) ls []) as Hl. rewrite Hr in Hl. auto.
Qed.
Lemma next_later r r' : next r = Done (r', inl true) →
  later (tr_scanner r) (tr_scanner r') ∧ (tr_scanner r).1 < (tr_scanner r').1.
Proof.
  destruct r as [src0 d0 [n ls] rb]. unfold next. cbn [tr_scanner tr_rewrite_buffer tr_source_name fst]. intros Hn.
  destruct (find_directive n ls rb) as [[[[pos line] [n1 ls1]]|] rb1] eqn:Ef; [|by simplify_eq].
  apply find_directive_later in Ef as [Hf ?].
  apply bind_Done in Hn as ([[[pos2 line2] [n2 ls2]] rb2] & Hu%unwrap_line_later & Hn).
  apply bind_Done in Hn as (pos3 & _ & Hn). apply bind_Done in Hn as ([[cmd args]|e] & _ & Hn); [|by simplify_eq].
  destruct (bool_decide (cmd = [])); [by simplify_eq|].
  destruct (read_input n2 ls2 _ []) as [[[buf sep] sc3] rb3] eqn:Ei. apply read_input_later in Ei.
  apply bind_Done in Hn as ([expected sc4] & He & Hn). simplify_eq. cbn [tr_scanner].
  assert (later sc3 sc4) by (destruct sep; [by eapply read_expected_later|by simplify_eq]).
  assert (later (n1, ls1) sc4) as Hl by eauto using later_trans. split; [eauto using later_trans|].
  apply later_count in Hl as [? _]. cbn in *. lia.
Qed.

(** *** Without a buffer *)

(** The same reader, not rewriting: it reads the same. *)
Definition silent (r : TestDataReader) : TestDataReader :=
  mkTestDataReader (tr_source_name r) (tr_data r) (tr_scanner r) None.
Lemma find_directive_any n ls rb x rb' : find_directive n ls rb = (x, rb') → find_directive n ls None = (x, None).
Proof.
  revert n rb. induction ls as [|l ls IH]; intros n rb; cbn [find_directive]; [by intros [= <- _]|].
  case_match; [intros Hf%IH; by rewrite emit_None|]. by intros [= <- _].
Qed.
Lemma unwrap_line_any pos line n ls rb p l sc rb' :
  unwrap_line pos line n ls rb = Done (p, l, sc, rb') → unwrap_line pos line n ls None = Done (p, l, sc, None).
Proof.
  revert pos line n rb. induction ls as [|l' ls IH]; intros pos line n rb; cbn [unwrap_line]; case_match; try done;
    try by intros [= <- <- <- _].
  intros (k & -> & Hu)%bind_Done. cbn [mbind outcome_bind]. rewrite emit_None. by eapply IH.
Qed.
Lemma read_input_any n ls rb buf x sep sc rb' :
  read_input n ls rb buf = (x, sep, sc, rb') → read_input n ls None buf = (x, sep, sc, None).
Proof.
  revert n rb buf. induction ls as [|l ls IH]; intros n rb buf; cbn [read_input]; [by intros [= <- <- <- _]|].
  case_bool_decide; [by intros [= <- <- <- _]|]. intros Hi%IH. by rewrite emit_None.
Qed.
Lemma next_silent r r' res : next r = Done (r', res) → next (silent r) = Done (silent r', res).
Proof.
  destruct r as [src0 d0 [n ls] rb]. unfold next, silent. cbn [tr_scanner tr_rewrite_buffer tr_source_name tr_data]. intros Hn.
  destruct (find_directive n ls rb) as [found rb1] eqn:Ef. apply find_directive_any in Ef. rewrite Ef.
  destruct found as [[[pos line] [n1 ls1]]|]; [|by simplify_eq].
  apply bind_Done in Hn as ([[[pos2 line2] [n2 ls2]] rb2] & Hu%unwrap_line_any & Hn). rewrite Hu. cbn [mbind outcome_bind].
  apply bind_Done in Hn as (pos3 & -> & Hn). cbn [mbind outcome_bind].
  apply bind_Done in Hn as ([[cmd args]|e] & -> & Hn); cbn [mbind outcome_bind]; [|by simplify_eq].
  destruct (bool_decide (cmd = [])); [by simplify_eq|].
  destruct (read_input n2 ls2 _ []) as [[[buf sep] sc3] rb3] eqn:Ei. apply read_input_any in Ei. rewrite Ei.
  apply bind_Done in Hn as ([expected sc4] & -> & Hn). cbn [mbind outcome_bind]. by simplify_eq.
Qed.

(** The directives of a file, one after the other. *)
Fixpoint read_all (fuel : nat) (r : TestDataReader) : outcome (list TestData + str) :=
  match fuel with
  | O => NoFuel
  | S fuel =>
      '(r, res) ← next r;
      match res with
      | inr e => Done (inr e)
      | inl false => Done (inl [])
      | inl true =>
          rest ← read_all fuel r;
          Done (match rest with inl ds => inl (tr_data r :: ds) | inr e => inr e end)
      end
  end.
Definition directives (source_name content : str) : outcome (list TestData + str) :=
  read_all (S (length (lines content))) (new source_name content false).
(** A directive but for its position in the file. *)
Definition directive_of (d : TestData) : str * list CmdArg * str * str :=
  (td_cmd d, td_cmd_args d, td_input d, td_expected d).

(** A directive: the lines [hd] the reader emits of it, and the output below them. *)
Lemma next_again r b r' :
  tr_rewrite_buffer r = Some b → next r = Done (r', inl true) →
  ∃ hd, hd `prefix_of` (tr_scanner r).2 ∧ tr_rewrite_buffer r' = Some (b ++ unlines hd) ∧
    ∀ src d m out t, Forall writable_line out → blank_line_next t → m + len hd < u64_max →
      ∃ pos m', next (mkTestDataReader src d (m, hd ++ separator :: shown out ++ t) None) =
        Done (mkTestDataReader src
          (mkTestData pos (td_cmd (tr_data r')) (td_cmd_args (tr_data r')) (td_input (tr_data r')) (unlines out))
          (m', tail t) None, inl true).
Proof.
  destruct r as [src0 d0 [n ls] rb]. cbn [tr_rewrite_buffer tr_scanner snd]. intros -> Hn. unfold next in Hn.
  cbn [tr_scanner tr_rewrite_buffer tr_source_name] in Hn.
  destruct (find_directive n ls (Some b)) as [[[[pos line] [n1 ls1]]|] rb1] eqn:Ef; [|by simplify_eq].
  apply find_directive_again in Ef as (hd1 & Hne & -> & -> & Hf).
  apply bind_Done in Hn as ([[[pos2 line2] [n2 ls2]] rb2] & Hu & Hn).
  apply unwrap_line_again in Hu as (hd2 & -> & -> & Hu).
  apply bind_Done in Hn as (pos3 & _ & Hn). apply bind_Done in Hn as ([[cmd args]|e] & Hp & Hn); [|by simplify_eq].
  destruct (bool_decide (cmd = [])) eqn:Ec; [by simplify_eq|].
  destruct (read_input n2 ls2 _ []) as [[[buf sep] [n3 ls3]] rb3] eqn:Ei.
  apply read_input_again in Ei as (hd3 & -> & -> & Hi).
  apply bind_Done in Hn as ([expected [n4 ls4]] & He & Hn). simplify_eq. cbn.
  exists (hd1 ++ hd2 ++ hd3). split_and!.
  - by apply prefix_app, prefix_app, prefix_app_r.
  - by rewrite !unlines_app, !(assoc_L app).
  - intros src d m out t Hout Ht Hm. unfold len in Hm. rewrite !length_app in Hm.
    destruct (Hf m (hd2 ++ hd3 ++ separator :: shown out ++ t)) as (q & Hq & ?).
    destruct (Hi (m + len hd1 + len hd2) (shown out ++ t)) as (m3 & Hi3 & _).
    destruct (read_expected_again m3 out t Hout Ht) as (m4 & Hm4).
    exists (src ++ lit " : L" ++ show_u64 (q + len hd2 + 1)), m4.
    unfold next. cbn [tr_scanner tr_rewrite_buffer tr_source_name]. rewrite <-!(assoc_L app), Hq.
    rewrite Hu by (unfold len in *; lia). cbn [mbind outcome_bind]. rewrite add64_ok by (unfold len in *; lia).
    cbn [mbind outcome_bind]. rewrite Hp. cbn [mbind outcome_bind]. rewrite Ec, Hi3, Hm4. done.
Qed.
Lemma next_nothing r b r' : tr_rewrite_buffer r = Some b → next r = Done (r', inl false) →
  Forall (λ l, skipped l = true) (tr_scanner r).2 ∧ tr_rewrite_buffer r' = Some (b ++ unlines (tr_scanner r).2).
Proof.
  destruct r as [src0 d0 [n ls] rb]. cbn [tr_rewrite_buffer tr_scanner snd]. intros -> Hn. unfold next in Hn.
  cbn [tr_scanner tr_rewrite_buffer tr_source_name] in Hn.
  destruct (find_directive n ls (Some b)) as [[[[pos line] [n1 ls1]]|] rb1] eqn:Ef.
  - apply bind_Done in Hn as ([[[pos2 line2] [n2 ls2]] rb2] & _ & Hn).
    apply bind_Done in Hn as (pos3 & _ & Hn). apply bind_Done in Hn as ([[cmd args]|e] & Hp & Hn); [|by simplify_eq].
    destruct (bool_decide (cmd = [])) eqn:Ec; [by simplify_eq|].
    destruct (read_input n2 ls2 _ []) as [[[buf sep] sc3] rb3].
    by apply bind_Done in Hn as ([expected sc4] & He & [=]).
  - simplify_eq. cbn. split; [|by eapply find_directive_emits].
    apply (find_directive_nothing n _ (Some b)). by rewrite Ef.
Qed.
Lemma nothing_next src d n ls : Forall (λ l, skipped l = true) ls →
  ∃ r', next (mkTestDataReader src d (n, ls) None) = Done (r', inl false) ∧ tr_rewrite_buffer r' = None.
Proof.
  intros Hf%(find_directive_nothing n ls None). unfold next. cbn [tr_scanner tr_rewrite_buffer].
  pose proof (find_directive_silent n ls) as Hn.
  destruct (find_directive n ls None) as [[[? ?]|] rb]; [done|]. by eexists.
Qed.

(** ** The run *)
Lemma split_loop_fueled fuel o l : (length l ≤ fuel)%nat → fueled (split_loop fuel o l).
Proof.
  revert l. induction fuel as [|fuel IH]; intros [|c l] Hl; cbn [split_loop]; cbn in Hl; try done; [lia|].
  destruct (directive_re (c :: l)) as [first|] eqn:E; [|by fueled].
  apply directive_ok in E as [Hne Hp]. apply fueled_bind; [|done]. apply IH.
  rewrite length_drop. destruct first; [done|]. cbn. lia.
Qed.
Lemma parse_line_fueled line : fueled (parse_line line).
Proof. unfold parse_line, split_directives. apply fueled_bind; [by apply split_loop_fueled|]. by intros [[|? ?]|?]. Qed.
Lemma unwrap_line_fueled pos line n ls rb : fueled (unwrap_line pos line n ls rb).
Proof.
  revert pos line n rb. induction ls as [|l ls IH]; intros; cbn [unwrap_line]; case_match; try done.
  apply fueled_bind; [auto with fueled|]. auto.
Qed.
Lemma read_double_fueled n ls e : fueled (read_double n ls e).
Proof.
  revert n e. induction ls as [ls IH] using (induction_ltof1 _ (@length str)). unfold ltof in IH. intros n e.
  destruct ls as [|l [|l2 ls]]; cbn [read_double]; [done| |]; repeat case_match; try done; try (apply IH; cbn; lia).
  all: apply fueled_bind; auto with fueled.
Qed.
Lemma next_fueled r : fueled (next r).
Proof.
  destruct r as [src0 d0 [n ls] rb]. unfold next. cbn [tr_scanner].
  destruct (find_directive n ls _) as [[[[pos line] [n1 ls1]]|] rb1]; [|done].
  apply fueled_bind; [apply unwrap_line_fueled|]. intros [[[pos2 line2] [n2 ls2]] rb2] _.
  apply fueled_bind; [auto with fueled|]. intros pos3 _. apply fueled_bind; [apply parse_line_fueled|].
  intros [[cmd args]|e] _; [|done]. case_match; [done|]. destruct (read_input _ _ _ _) as [[[buf sep] [n3 ls3]] rb3].
  apply fueled_bind; [|by intros []]. destruct sep; [|done]. destruct ls3 as [|l ls3]; cbn [read_expected]; [done|].
  case_match; [apply read_double_fueled|done].
Qed.

Section run.
Context {F : Type} (f : F → TestData → F * str).

Lemma run_loop_fueled fuel st r : (length (tr_scanner r).2 < fuel)%nat → fueled (run_loop f fuel st r).
Proof.
  revert st r. induction fuel as [|fuel IH]; intros st r Hl; [lia|]. cbn [run_loop].
  apply fueled_bind; [apply next_fueled|]. intros [r1 [[|]|e]] Hn; [|done..]. apply next_later in Hn as [Hl1 Hl2].
  apply fueled_bind.
  - unfold run_directive. destruct (f st (tr_data r1)). case_match; [done|]. apply fueled_bind; auto with fueled.
  - intros [st2 r2] Hr. assert (tr_scanner r2 = tr_scanner r1) as Hs.
    { unfold run_directive in Hr. destruct (f st (tr_data r1)). case_match; inv_done; by simplify_eq. }
    apply IH. rewrite Hs. apply later_count in Hl1. unfold len in *. lia.
Qed.

(** What the function is asked not to depend on, and what the format can hold. *)
Definition steady : Prop := ∀ st d d', td_cmd d = td_cmd d' → td_cmd_args d = td_cmd_args d' →
  td_input d = td_input d' → f st d = f st d'.
Definition writable (actual : str) : Prop := (13 ∉ actual) ∧
  Forall (λ l, l ≠ separator ∧ (trim l = [] → Forall tab_or_space l)) (lines (terminated actual)).

Lemma writable_lines actual : writable actual →
  ∃ out, terminated actual = unlines out ∧ Forall writable_line out.
Proof.
  intros [Hr Hl]. exists (lines (terminated actual)).
  assert (13 ∉ terminated actual) as Hr' by (unfold terminated; case_match; set_solver).
  split.
  - symmetry. apply unlines_lines; [done|]. unfold terminated, ends_with.
    destruct (decide (actual = [])) as [->|Hne]; [by right|left]. rewrite bool_decide_eq_false_2 by done.
    case_bool_decide; cbn [negb andb]; [done|]. by rewrite last_snoc.
  - apply lines_plain in Hr'. revert Hr' Hl. rewrite !Forall_forall. intros Hp Hl l Hi.
    destruct (Hl _ Hi). by split; [apply Hp|].
Qed.

(** The directives, with the outputs of the function on them, in order. *)
Fixpoint answered (st : F) (ds : list TestData) : list (str * list CmdArg * str * str) :=
  match ds with
  | [] => []
  | d :: ds => (td_cmd d, td_cmd_args d, td_input d, terminated (f st d).2) :: answered (f st d).1 ds
  end.

(** What [run_directive] does in either mode, for an output of the lines [out]. *)
Lemma run_directive_emits st r b out :
  tr_rewrite_buffer r = Some b → terminated (f st (tr_data r)).2 = unlines out →
  ∃ r', run_directive f st r = Done ((f st (tr_data r)).1, r') ∧ silent r' = silent r ∧
    tr_rewrite_buffer r' = Some (b ++ unlines (separator :: shown out ++ [[]])).
Proof.
  intros Hb Ho. unfold run_directive. destruct (f st (tr_data r)) as [st' actual]. cbn [fst snd] in *.
  rewrite Ho, Hb. eexists. split; [done|]. split; [done|]. cbn [tr_rewrite_buffer]. unfold shown.
  rewrite emit_one. destruct (has_blank_line (unlines out)).
  - rewrite emit_one. cbn [fmap option_fmap option_map]. rewrite !emit_one, <-!(assoc_L app), <-!unlines_app.
    cbn [app]. by rewrite <-(assoc_L app).
  - rewrite emit_one. f_equal. unfold unlines. cbn. rewrite !map_app, !concat_app. cbn. by rewrite !app_nil_r, <-!(assoc_L app).
Qed.
Lemma run_directive_passes st src d sc out :
  terminated (f st d).2 = unlines out → td_expected d = unlines out →
  run_directive f st (mkTestDataReader src d sc None) = Done ((f st d).1, mkTestDataReader src d sc None).
Proof.
  intros Ho He. unfold run_directive. cbn. destruct (f st d) as [st' actual]. cbn in *.
  by rewrite Ho, He, bool_decide_eq_true_2.
Qed.

(** The lines of a rewritten file, from which a last blank line may have been removed. *)
Definition cut (ls' ls : list str) : Prop := ls' = ls ∨ ls = ls' ++ [[]].
Lemma cut_directive (hd ls ls' : list str) : cut ls' (hd ++ [[]] ++ ls) →
  ∃ t : list str, ls' = hd ++ t ∧ blank_line_next t ∧ cut (tail t) ls.
Proof.
  intros [->|E].
  - exists ([] :: ls). split_and!; [done|by right|by left].
  - destruct ls as [|l ls _] using rev_ind.
    + rewrite app_nil_r in E. apply app_inj_tail in E as [-> _]. exists []. split_and!; [by rewrite app_nil_r|by left|by left].
    + rewrite !(assoc_L app) in E. apply app_inj_tail in E as [<- ->]. exists ([] :: ls).
      split_and!; [by rewrite <-(assoc_L app)|by right|by right].
Qed.
Lemma cut_nothing ls ls' : cut ls' ls → Forall (λ l, skipped l = true) ls → Forall (λ l, skipped l = true) ls'.
Proof. intros [->| ->]; [done|]. by intros [? _]%Forall_app. Qed.

Lemma shown_plain out : Forall writable_line out → Forall plain_line (separator :: shown out).
Proof.
  intros Hout. assert (plain_line separator) by (split; cbn; set_solver).
  assert (Forall plain_line out) by (eapply Forall_impl; [done|]; by intros l [? _]).
  constructor; [done|]. unfold shown. case_match; [|done]. constructor; [done|].
  apply Forall_app_2; [done|]. rewrite !Forall_cons. done.
Qed.
Lemma run_loop_again (Hsteady : steady) (Hw : ∀ st d, writable (f st d).2) fuel st r b r' :
  tr_rewrite_buffer r = Some b → Forall plain_line (tr_scanner r).2 → run_loop f fuel st r = Done (r', None) →
  ∃ ls ds, tr_rewrite_buffer r' = Some (b ++ unlines ls) ∧ Forall plain_line ls ∧
    read_all fuel (silent r) = Done (inl ds) ∧
    ∀ ls' src d n fuel', cut ls' ls → (length ls' < fuel')%nat → n + len ls' < u64_max →
      (∃ ds', read_all fuel' (mkTestDataReader src d (n, ls') None) = Done (inl ds') ∧
        map directive_of ds' = answered st ds) ∧
      ∃ r2, run_loop f fuel' st (mkTestDataReader src d (n, ls') None) = Done (r2, None) ∧
        tr_rewrite_buffer r2 = None.
Proof.
  revert st r b. induction fuel as [|fuel IH]; intros st r b Hb Hp; cbn [run_loop]; [done|].
  intros ([r1 [[|]|e]] & Hn & Hr)%bind_Done; [| |done].
  - destruct (next_again _ _ _ Hb Hn) as (hd & Hhd & Hb1 & Hagain).
    destruct (writable_lines _ (Hw st (tr_data r1))) as (out & Ho & Hout).
    destruct (run_directive_emits _ _ _ _ Hb1 Ho) as (r2 & Hd & Hsil & Hb2).
    assert (tr_scanner r2 = tr_scanner r1) as Hs by apply (f_equal tr_scanner Hsil).
    rewrite Hd in Hr. cbn [mbind outcome_bind] in Hr. destruct (next_later _ _ Hn) as [Hlater _].
    assert (Forall plain_line (tr_scanner r2).2) as Hp2 by (rewrite Hs; by eapply later_lines).
    destruct (IH _ _ _ Hb2 Hp2 Hr) as (ls & ds & Hb3 & Hls' & Hds & Hls). rewrite Hsil in Hds.
    exists ((hd ++ separator :: shown out) ++ [[]] ++ ls), (tr_data r1 :: ds). split_and!.
    { rewrite Hb3, <-!(assoc_L app), <-!unlines_app. cbn [app]. by rewrite <-!(assoc_L app). }
    { destruct Hhd as [tl Htl]. rewrite Htl in Hp. apply Forall_app in Hp as [Hp _].
      repeat apply Forall_app_2; [done|by apply shown_plain|repeat constructor; set_solver|done]. }
    { cbn [read_all]. rewrite (next_silent _ _ _ Hn). cbn [mbind outcome_bind]. by rewrite Hds. }
    intros ls' src d n [|fuel'] Hc Hl Hm; [lia|]. apply cut_directive in Hc as (t & -> & Ht & Hc).
    rewrite <-(assoc_L app) in Hl, Hm |- *. cbn [app] in Hl, Hm |- *.
    assert (n + len hd < u64_max) by (clear - Hm; unfold len, str in *; rewrite length_app in Hm; lia).
    destruct (Hagain src d n out t) as (pos & m & Hn2); [done..|].
    pose proof Hn2 as [[_ Hm2]%later_count _]%next_later. cbn [tr_scanner fst snd] in Hm2.
    destruct (Hls (tail t) src (mkTestData pos (td_cmd (tr_data r1)) (td_cmd_args (tr_data r1)) (td_input (tr_data r1)) (unlines out))
      m fuel' Hc) as [(ds' & Hds' & Hans) Hrun]; [|lia|].
    { rewrite length_app in Hl. cbn in Hl. rewrite length_app in Hl. destruct t; cbn in *; lia. }
    cbn [run_loop read_all]. rewrite Hn2. cbn [mbind outcome_bind]. split.
    + rewrite Hds'. cbn [mbind outcome_bind]. eexists. split; [done|]. cbn. unfold directive_of at 1. cbn. by rewrite Ho, Hans.
    + rewrite (run_directive_passes _ _ _ _ out); [|by erewrite <-Hsteady|done].
      cbn [mbind outcome_bind]. rewrite <-(Hsteady st (tr_data r1)) by done. done.
  - simplify_eq. destruct (next_nothing _ _ _ Hb Hn) as [Hs Hb1]. eexists _, []. split_and!; [done|done| |].
    { cbn [read_all]. by rewrite (next_silent _ _ _ Hn). }
    intros ls' src d n [|fuel'] Hc Hl _; [lia|].
    destruct (nothing_next src d n ls') as (r2 & Hr2 & Hb2); [by eapply cut_nothing|].
    cbn [run_loop read_all]. rewrite Hr2. cbn [mbind outcome_bind]. split; [by exists []|by exists r2].
Qed.

Lemma redundant_newline ls : Forall plain_line ls → let rb := unlines ls in
  ∃ ls', cut ls' ls ∧ (if ends_with 10 rb && ends_with 10 (removelast rb) then removelast rb else rb) = unlines ls'.
Proof.
  intros Hp rb. destruct (ends_with 10 rb && ends_with 10 (removelast rb)) eqn:E; [|exists ls; by split; [left|]].
  apply andb_true_iff in E as [_ E]. unfold ends_with in E. apply bool_decide_eq_true in E.
  destruct ls as [|l ls _] using rev_ind; [done|]. apply Forall_app in Hp as [_ [[Hl _] _]%Forall_cons].
  assert (rb = (unlines ls ++ l) ++ [10]) as Hrb by (unfold rb; by rewrite unlines_app, unlines_cons, (assoc_L app)).
  rewrite Hrb, removelast_last in *. exists ls. destruct l as [|c l _] using rev_ind; [split; [by right|by rewrite app_nil_r]|].
  rewrite (assoc_L app), last_snoc in E. simplify_eq. exfalso. apply Hl. set_solver.
Qed.

(** C24: a file that is rewritten is read back as the same directives with the new
    outputs, so that it passes. The run always comes to an end; and if the function
    under test does not look at the position and the expected output it is given, and
    its outputs can be held by the format, then what [run_test_internal] writes in
    rewrite mode has the directives of the file it has read, one for one and in order
    (command, arguments, input), each with the output of the function on it as the
    expected output, and a run on it in test mode finds every output as expected. *)
Theorem rewritten_file_passes (Hsteady : steady) (Hw : ∀ st d, writable (f st d).2) source_name content st :
  13 ∉ content →
  fueled (run_test_internal f source_name content st true) ∧
  ∀ out source_name', run_test_internal f source_name content st true = Done (inl (Some out)) →
    len out < u64_max →
    (∃ ds ds', directives source_name content = Done (inl ds) ∧ directives source_name' out = Done (inl ds') ∧
       map directive_of ds' = answered st ds) ∧
    run_test_internal f source_name' out st false = Done (inl None).
Proof.
  intros Hc. unfold run_test_internal. split.
  { apply fueled_bind; [apply run_loop_fueled; cbn; lia|]. by intros [? ?]. }
  intros out source_name' ([r [e|]] & Hr & Ho)%bind_Done Hlen; [done|].
  destruct (run_loop_again Hsteady Hw _ _ (new source_name content true) [] _ eq_refl (lines_plain _ Hc) Hr)
    as (ls & ds & Hb & Hp & Hds & Hls).
  cbn [app] in Hb. rewrite Hb in Ho. cbn [fmap option_fmap option_map] in Ho.
  destruct (redundant_newline ls Hp) as (ls' & Hcut & E). rewrite E in Ho. simplify_eq.
  assert (Forall plain_line ls') as Hp' by (destruct Hcut as [->| ->]; [done|by apply Forall_app in Hp as [? _]]).
  unfold directives. rewrite lines_unlines by done. pose proof (length_unlines ls').
  destruct (Hls ls' source_name' TestData_default 0 (S (length ls')) Hcut) as [(ds' & Hds' & Hans) (r2 & Hr2 & Hb2)];
    [lia|unfold len in *; lia|].
  unfold new at 2 3. rewrite lines_unlines, Hr2 by done. split; [by exists ds, ds'|].
  cbn [mbind outcome_bind]. by rewrite Hb2.
Qed.
End run.
End spec.
