(* ===== verification/DataDrivenWitness.v ===== *)
(** * A rewritten file

    The two regular expressions of the data-driven tests as functions, the examples of
    the source's own tests on them, and a file whose rewriting is computed. *)
From S2P Require Import Prelude Errors Proto ConfText DataDriven DataDrivenSpec.
#[local] Open Scope N_scope.

(** [^ *[-a-zA-Z0-9/_,.]+(|=[-a-zA-Z0-9_@=+/,.]*|=\([^)]*\))( |$)]: each part of it ends
    where the next one can begin. *)
Definition is_alnum (c : N) : bool :=
  ((48 <=? c) && (c <=? 57)) || ((65 <=? c) && (c <=? 90)) || ((97 <=? c) && (c <=? 122)).
Definition key_char (c : N) : bool := is_alnum c || bool_decide (c ∈ lit "-/_,.").
Definition val_char (c : N) : bool := is_alnum c || bool_decide (c ∈ lit "-_@=+/,.").
Fixpoint span (p : N → bool) (s : str) : str * str :=
  match s with
  | [] => ([], [])
  | c :: s' => if p c then let '(a, b) := span p s' in (c :: a, b) else ([], s)
  end.
Definition finish (m rest : str) : option str :=
  match rest with
  | [] => Some m
  | c :: _ => if c =? 32 then Some (m ++ [32]) else None
  end.
Definition directive_match (l : str) : option str :=
  let '(spaces, rest) := span (N.eqb 32) l in
  let '(key, rest) := span key_char rest in
  if bool_decide (key = []) then None
  else if starts_with 61 rest then
    if starts_with 40 (tail rest) then
      let '(vals, rest) := span (λ c, negb (c =? 41)) (tail rest) in
      if starts_with 41 rest then finish (spaces ++ key ++ [61] ++ vals ++ [41]) (tail rest) else None
    else
      let '(val, rest) := span val_char (tail rest) in finish (spaces ++ key ++ [61] ++ val) rest
  else finish (spaces ++ key) rest.
(** [(?m)^[\t ]*\n]: [blank] while the line has nothing but tabs and spaces. *)
Fixpoint blank_line_match (blank : bool) (s : str) : bool :=
  match s with
  | [] => false
  | c :: s =>
      if c =? 10 then blank || blank_line_match true s
      else blank_line_match (blank && ((c =? 9) || (c =? 32))) s
  end.
#[local] Instance test_regexes : Regexes := {| directive_re := directive_match; blank_line_re := blank_line_match true |}.

Lemma span_app p s a b : span p s = (a, b) → s = a ++ b.
Proof.
  revert a b. induction s as [|c s IH]; intros a b; cbn; [by intros [= <- <-]|].
  destruct (p c); [|by intros [= <- <-]]. destruct (span p s) as [a' b'] eqn:E. intros [= <- <-]. cbn. by rewrite (IH a' b').
Qed.
Lemma finish_prefix m rest first : finish m rest = Some first → m ≠ [] → first ≠ [] ∧ first `prefix_of` m ++ rest.
Proof.
  destruct rest as [|c rest]; cbn; [intros [= <-]; by rewrite app_nil_r|]. destruct (N.eqb_spec c 32) as [->|]; [|done].
  intros [= <-] Hm. split; [by destruct m|]. exists rest. by rewrite <-(assoc_L app).
Qed.
Lemma starts_with_tail c s : starts_with c s = true → s = [c] ++ tail s.
Proof. unfold starts_with. intros Hs%bool_decide_eq_true. destruct s; cbn in *; by simplify_eq. Qed.
Lemma directive_match_ok l first : directive_match l = Some first → first ≠ [] ∧ first `prefix_of` l.
Proof.
  unfold directive_match. destruct (span (N.eqb 32) l) as [spaces rest1] eqn:E1. apply span_app in E1 as ->.
  destruct (span key_char rest1) as [key rest] eqn:E2. apply span_app in E2 as ->. case_bool_decide as Hk; [done|].
  destruct (starts_with 61 rest) eqn:E3; [apply starts_with_tail in E3|]; cycle 1.
  { intros Hf%finish_prefix; [by rewrite (assoc_L app)|by destruct spaces]. }
  destruct (starts_with 40 (tail rest)).
  - destruct (span _ (tail rest)) as [vals rest'] eqn:E4. apply span_app in E4.
    destruct (starts_with 41 rest') eqn:E5; [apply starts_with_tail in E5|done].
    intros Hf%finish_prefix; [|by destruct spaces, key]. rewrite E3, E4, E5. by rewrite <-!(assoc_L app) in Hf.
  - destruct (span _ (tail rest)) as [val rest'] eqn:E4. apply span_app in E4.
    intros Hf%finish_prefix; [|by destruct spaces, key]. rewrite E3, E4. by rewrite <-!(assoc_L app) in Hf.
Qed.
Lemma blank_line_match_ok blank s : blank_line_match blank s = true ↔
  ∃ p l q, s = p ++ l ++ 10 :: q ∧ (p = [] ∧ blank = true ∨ last p = Some 10) ∧ Forall tab_or_space l.
Proof.
  revert blank. induction s as [|c s IH]; intros blank; cbn.
  { split; [done|]. intros (p & l & q & E & _). by destruct p, l. }
  destruct (N.eqb_spec c 10) as [->|Hc].
  - rewrite orb_true_iff, IH. split.
    + intros [->|(p & l & q & -> & Hp & Hl)]; [exists [], [], s; naive_solver|].
      exists (10 :: p), l, q. split; [done|]. split; [right|done].
      destruct Hp as [[-> _]|Hp]; [done|]. cbn. by destruct p; [|cbn in *; rewrite Hp].
    + intros (p & l & q & E & Hp & Hl). destruct p as [|c p]; cbn in E; simplify_eq.
      * left. by destruct Hp as [[_ ?]|?].
      * right. exists p, l, q. split; [done|]. split; [|done]. destruct p; [by left|right].
        destruct Hp as [[? _]|Hp]; done.
  - rewrite IH. setoid_rewrite andb_true_iff. setoid_rewrite orb_true_iff. setoid_rewrite N.eqb_eq. split.
    + intros (p & l & q & -> & [(-> & Hb & Ht)|Hp] & Hl).
      * exists [], (c :: l), q. split; [done|]. split; [by left|]. by constructor.
      * exists (c :: p), l, q. split; [done|]. split; [right|done]. by destruct p.
    + intros (p & l & q & E & Hp & Hl). destruct p as [|c' p]; cbn in E.
      * destruct Hp as [[_ Hb]|]; [|done]. destruct l as [|c' l]; cbn in E; simplify_eq. inv Hl.
        exists [], l, q. naive_solver.
      * simplify_eq. exists p, l, q. split; [done|]. split; [|done]. destruct Hp as [[? _]|Hp]; [done|right].
        destruct p; [cbn in Hp; by simplify_eq|done].
Qed.
#[local] Instance test_regexes_ok : RegexesOk.
Proof.
  split; [apply directive_match_ok|]. intros s. cbn. rewrite blank_line_match_ok.
  by split; intros (p & l & q & E & Hp & Hl); exists p, l, q; (split; [done|split; [tauto|done]]).
Qed.

(** The tests of [line_sparser.rs] and [test_data.rs]. *)
Example test_parse_line : parse_line (lit "cmd a=1 b=(2,3) c= d") =
  Done (inl (lit "cmd", [mkCmdArg (lit "a") [lit "1"]; mkCmdArg (lit "b") [lit "2"; lit "3"];
    mkCmdArg (lit "c") [[]]; mkCmdArg (lit "d") []])).
Proof. vm_compute. done. Qed.
Example test_show_args : map show_arg [mkCmdArg (lit "b") [lit "2"; lit "3"]; mkCmdArg (lit "c") [[]]] =
  [lit "b=(2,3)"; lit "c="].
Proof. vm_compute. done. Qed.
Example test_split_directives : split_directives (lit "cmd a=1  ") =
  Done (inr (lit "cannot parse directive at column 9: cmd a=1  ")).
Proof. vm_compute. done. Qed.

(** A file, lines by lines. *)
Definition the_file : str := unlines [
  lit "# a comment";
  [];
  lit "count a=(1, 2) \";
  lit "  b";
  lit "the input";
  [];
  lit "----";
  lit "outdated";
  [];
  lit "name";
  lit "----";
  lit "----";
  lit "outdated";
  [];
  lit "----";
  lit "----"].
Definition the_function (st : N) (d : TestData) : N * str :=
  (st + 1, if bool_decide (td_cmd d = lit "name") then lit "a name" else lit "one" ++ [10; 10] ++ lit "two").
Definition rewritten : str := unlines [
  lit "# a comment";
  [];
  lit "count a=(1, 2) \";
  lit "  b";
  lit "the input";
  [];
  lit "----";
  lit "----";
  lit "one";
  [];
  lit "two";
  lit "----";
  lit "----";
  [];
  lit "name";
  lit "----";
  lit "a name"].

(** What is read of it: two directives, with the outputs of the function. *)
Definition the_directives : list (str * list CmdArg * str * str) :=
  [(lit "count", [mkCmdArg (lit "a") [lit "1"; lit "2"]; mkCmdArg (lit "b") []], lit "the input",
    unlines [lit "one"; []; lit "two"]);
   (lit "name", [], [], unlines [lit "a name"])].

Lemma rewritten_file_passes_witness :
  steady the_function ∧ (∀ st d, writable (the_function st d).2) ∧ (13 ∉ the_file) ∧
  run_test_internal the_function (lit "file") the_file 0 true = Done (inl (Some rewritten)) ∧
  run_test_internal the_function (lit "file") the_file 0 false = Panic Assert ∧
  (∃ ds', directives (lit "file") rewritten = Done (inl ds') ∧ map directive_of ds' = the_directives) ∧
  run_test_internal the_function (lit "file") rewritten 0 false = Done (inl None).
Proof.
  assert (steady the_function) as Hs by (intros st d d' E _ _; unfold the_function; by rewrite E).
  assert (∀ st d, writable (the_function st d).2) as Hw.
  { intros st d. unfold the_function. cbn [snd]. case_bool_decide; (split; [by apply (bool_decide_unpack _)|]);
      vm_compute lines; repeat constructor; vm_compute; try done; intros; lia. }
  assert (13 ∉ the_file) as Hf by (by apply (bool_decide_unpack _)).
  assert (run_test_internal the_function (lit "file") the_file 0 true = Done (inl (Some rewritten))) as Hr
    by (vm_compute; done).
  destruct (rewritten_file_passes the_function Hs Hw (lit "file") the_file 0 Hf) as [_ Hp].
  destruct (Hp rewritten (lit "file") Hr) as [(ds & ds' & Hds & Hds' & Hans) Hrun]; [by vm_compute|].
  split_and!; [done|done|done|done|vm_compute; done| |exact Hrun].
  assert (match directives (lit "file") the_file with Done (inl ds) => answered the_function 0 ds | _ => [] end = the_directives)
    as Ha by by vm_compute.
  exists ds'. split; [done|]. rewrite Hans. by rewrite Hds in Ha.
Defined.

(** Without the condition on the outputs: a line of a vertical tab is no blank line to
    [has_blank_line], so that the output is written with one separator, but ends the
    expected output when it is read. *)
Definition odd_function (st : N) (d : TestData) : N * str := (st, lit "one" ++ [10; 11; 10] ++ lit "two").
Example odd_blank_line :
  let written := unlines [lit "cmd"; lit "----"; lit "one"; [11]; lit "two"] in
  run_test_internal odd_function (lit "file") (unlines [lit "cmd"; lit "----"]) 0 true = Done (inl (Some written)) ∧
  run_test_internal odd_function (lit "file") written 0 false = Panic Assert.
Proof. vm_compute. done. Qed.
